(* ===== verification/_CoqProject ===== *)
-Q . S2P
Prelude.v
FsUtil.v
Doubles.v
Resp.v
Hlc.v
Sketch.v
Config.v
World.v
Types.v
State.v
Cold.v
Snapshot.v
Aof.v
AofSync.v
Keyspace.v
Lww.v
Crdt.v
Convergence.v
Tombs.v
Effects.v
Commands.v
CommandSpecs.v
KeyCommands.v
PubSub.v
Pool.v
Rooms.v
RoomSpecs.v
RoomLife.v
Persistence.v
PersistSpecs.v
Durability.v
Rewrite.v
Database.v
Serving.v
Lifetime.v
Replicator.v
Shipping.v
Metrics.v
Connection.v
ConnSpecs.v
EventLoop.v
LoopSpecs.v
ServerLoop.v
Startup.v
Boot.v
