(* ===== verification/Prelude.v ===== *)
(** * SomniumDB: a verification development

    SomniumDB is an in-memory key-value server that speaks RESP: rooms of keys
    that sleep on disk, cold storage for the keys that are used least, an
    append-only file for durability, publish/subscribe, and replication by
    last-writer-wins writes between nodes. This library models its C++ code
    as executable Rocq functions and proves what makes it correct.

    ** How the code is modelled

    A [std::string] is a list of bytes; an integer is a [Z] (or a [nat] for a
    size of a buffer or file), with its wrap-around written where the code can
    reach it. A stateful function is a program of the monad [M] below, whose
    state is the object it works on; [zoom] is a call on a member. Everything
    the program does not decide (system calls, clocks, the traversal of hash
    tables, random draws) is the class [World], which answers interaction [k]
    in any way it likes: theorems hold for all answers unless a hypothesis says
    otherwise. Partial reads and writes are scripts of results, consumed by the
    loops of [FsUtil]. [wp m Q s] says that [m], run from [s], ends in [Q]; every
    program is total.

    ** The files, the code they model, and what they show

    - [FsUtil] (storage/fs_util.h): strict numbers and complete I/O; the loops
      end and report success exactly for a complete transfer.
    - [Resp] (core/resp.h and the encoders): the parser is incremental and
      final, and reads back what the encoders write.
    - [Hlc] (core/hlc.h), [Lww] (the abstract join): versions and the clock.
    - [Sketch] (utils/count_min_sketch.h), [Config] (config.cpp).
    - [World], [Types] (core/record.h, room.h), [State] (core/database.h): the
      parameters, the data and the members of [Database] and its managers.
    - [Cold] (storage/eviction_manager.cpp), [Snapshot]
      (storage/snapshot_manager.cpp): the two other homes of a record; moves
      between them and RAM lose nothing, and failures change nothing.
    - [Aof] (storage/aof_manager.cpp): records, recovery, append, rewrite, with
      crash safety; [AofSync]: the everysec thread as steps between the points
      where the mutex is free, interleaved with every operation of [Aof]. What
      the disk holds is part of the state: the bytes of the file that reached it
      ([durable]) and what its name may still stand for while its directory is
      not synced ([former]); nothing is assumed of either at the start. What is
      counted as synced survives a power failure, with two exceptions that the
      theorem states, and a round makes durable what it found.
    - [Keyspace] (core/database.cpp), [Crdt] (core/crdt.cpp), [Commands]
      (core/commands.cpp): the operations on keys. [Convergence] proves that
      replicated writes refine the join of [Lww], so replicas converge; [Tombs]
      that collected tombstones never let a key come back; [Effects],
      [CommandSpecs] and [KeyCommands] give each command on every branch.
    - [PubSub] (core/pubsub.cpp), [Pool] (core/pool_allocator.h).
    - [Rooms] (core/rooms.cpp), [RoomSpecs], [RoomLife]: the registry, the life
      cycle of a room, the invariant of the database ([db_ok]).
    - [Persistence] (core/persistence.cpp), [PersistSpecs], [Durability],
      [Rewrite]: replay and rewriting of the log; a command's record replays to
      its effect, a restart rebuilds the state, a rewrite keeps it.
    - [Database] (Database::execute), [Serving]: dispatch, and the invariant of
      the server under any sequence of commands and maintenance
      ([server_step]). [Lifetime] closes the circle: after any life of the
      server a restart gives back at least every key it held, and exactly what
      the records of its log make of each room.
    - [Replicator] (storage/replicator.cpp), [Shipping]: batches, requests,
      replies and offsets; only confirmed records are passed, the frontier is
      sent exactly at the end of the log, and a worker catches up.
    - [Doubles]: binary64 arithmetic over the Standard Library's specification,
      with rounding proved monotone. [Metrics] (server/metrics.cpp and
      metrics.h, publish of the replicator, the gauges of the log): the text of
      a scrape is read back as the counters that were loaded, a truncated
      response is detected, suspicion of a peer grows while it is silent.
    - [Connection] (net/connection.cpp, net/auth.cpp), [ConnSpecs]: one client,
      its buffers, TLS and authentication.
    - [EventLoop] (main.cpp and process_buffered), [LoopSpecs], [ServerLoop]:
      the table of clients, the poll tickets and the steps of the loop; its
      runs are runs of [server_step] with commands of authenticated clients
      only, no client is forgotten, buffers stay bounded, pipelines are
      answered in order.
    - [Startup] (fit_fd_limit of main.cpp, server/watchdog.cpp); [Boot]: [main]
      up to its loop as checks in order. A start that fails touches no data;
      one that succeeds is followed from the files of the directory to any
      state of the event loop, where the restored database keeps its invariant
      and the descriptors suffice.

    ** How the parts meet

    The event loop calls [Database.execute], which takes the room of the client
    ([Rooms]) and runs a command on it ([Commands], [Crdt]) with the room's lock;
    commands use [Keyspace], which uses [Cold], and write to [Aof]; [PubSub]
    hands messages back to the loop, which queues them. Room locks, the locks of
    the managers and the mutex of the log make each such operation one step; the
    threads (commands, watchdog, sync, replication) are interleavings of steps.
    [Rewrite] proves the dump against the class [AofWriter], which the
    synchronous and the forked writer implement.

    ** Bounds and fuel

    Loops that are not structural take fuel that their theorems show to be
    enough: the bytes left of a file or buffer for parsers and recovery, the
    number of records for eviction and compaction, the script of a complete
    transfer (which [World] makes long enough: no endless row of signals), what
    a TLS session has buffered for its reads. [MAX_COMMANDS_PER_TURN] is the
    code's own budget.

    ** What is not modelled, and why

    - [erfc] and [log10] of the C library: a parameter of [Metrics] with the
      range and the monotonicity its manual states.
    - OpenSSL, io_uring and the sockets: parameters of [Connection] with the
      behaviour their manuals document ([OpenSsl], [Sockets]); whether a
      certificate loads and a port can be bound are answers of [Boot.Host].
    - The network of the replicator is a parameter.
    - Power failures outside the log: what the disk holds of snapshots, cold
      storage and replication offsets is not modelled (crashes of the process
      are: every file keeps what was written to it).
    - Diagnostics and traces. The gauges other threads publish are functions of
      [Metrics]; the steps of [AofSync] do not carry them along.
    - Weak memory: shared state is read and written with a lock held, or is a
      gauge.
    - Tests, benchmarks and deployment files. *)

From stdpp Require Export base gmap strings list fin_maps sorting.
From Stdlib Require Export ZArith Lia Ascii.
Export Stdlib.Strings.String.StringSyntax.
#[export] Set Default Goal Selector "!".
Global Open Scope Z_scope.
Global Open Scope list_scope.

(** ** Bytes

    A [std::string] is a list of characters (its bytes); a literal of the
    source is written [str "GET"]. *)
Abbreviation bytes := (list ascii).

Definition str (s : string) : bytes := String.list_ascii_of_string s.

Definition chr (z : Z) : ascii := ascii_of_N (Z.to_N z).
Definition ord (c : ascii) : Z := Z.of_N (N_of_ascii c).

Definition CR : ascii := chr 13.
Definition LF : ascii := chr 10.
Definition CRLF : bytes := [CR; LF].

Arguments str : simpl never.
Arguments CRLF : simpl never.
Arguments chr : simpl never.
Arguments ord : simpl never.

(** [s.size()], as the unsigned number the source computes with. *)
Definition len {A} (s : list A) : Z := Z.of_nat (length s).

(** ** Machine integers

    A [uint64_t], [uint32_t] or [long long] is a [Z]; the wrap-around is
    written where the source can reach it. *)
Definition UINT64_MAX : Z := 2 ^ 64 - 1.
Definition UINT32_MAX : Z := 2 ^ 32 - 1.
Definition LLONG_MAX : Z := 2 ^ 63 - 1.
Definition LLONG_MIN : Z := - 2 ^ 63.

Definition wrap64 (z : Z) : Z := z mod 2 ^ 64.
Definition wrap32 (z : Z) : Z := z mod 2 ^ 32.

(** The two's complement reading of 64 bits: [static_cast<long long>]. *)
Definition to_i64 (z : Z) : Z := wrap64 (z + 2 ^ 63) - 2 ^ 63.

Arguments wrap64 : simpl never.
Arguments wrap32 : simpl never.
Arguments to_i64 : simpl never.

Definition is_u64 (z : Z) : Prop := 0 <= z <= UINT64_MAX.
Definition is_u32 (z : Z) : Prop := 0 <= z <= UINT32_MAX.
Definition is_i64 (z : Z) : Prop := LLONG_MIN <= z <= LLONG_MAX.

(** The development's arithmetic closer: [lia] once the integer limits are
    unfolded. *)
Ltac ulia :=
  unfold is_u64, is_u32, is_i64, UINT64_MAX, UINT32_MAX, LLONG_MAX, LLONG_MIN,
    len in *; lia.

Lemma ord_range c : 0 <= ord c < 256.
Proof.
  unfold ord. pose proof (N_ascii_bounded c). lia.
Qed.

Lemma chr_ord c : chr (ord c) = c.
Proof. unfold chr, ord. rewrite N2Z.id. apply ascii_N_embedding. Qed.

Lemma ord_chr z : 0 <= z < 256 → ord (chr z) = z.
Proof.
  intros H. unfold chr, ord. rewrite N_ascii_embedding; lia.
Qed.

Lemma ord_inj c d : ord c = ord d → c = d.
Proof. intros H. rewrite <- (chr_ord c), <- (chr_ord d). by rewrite H. Qed.

Lemma wrap64_small z : is_u64 z → wrap64 z = z.
Proof. intros H. apply Z.mod_small. ulia. Qed.

Lemma wrap64_range z : is_u64 (wrap64 z).
Proof. unfold wrap64. pose proof (Z.mod_pos_bound z (2 ^ 64)). ulia. Qed.

Lemma wrap64_add_l a b : wrap64 (wrap64 a + b) = wrap64 (a + b).
Proof. apply Zplus_mod_idemp_l. Qed.

Lemma wrap64_add_r a b : wrap64 (a + wrap64 b) = wrap64 (a + b).
Proof. apply Zplus_mod_idemp_r. Qed.

Lemma wrap64_sub_l a b : wrap64 (wrap64 a - b) = wrap64 (a - b).
Proof. apply Zminus_mod_idemp_l. Qed.

Lemma wrap64_wrap64 a : wrap64 (wrap64 a) = wrap64 a.
Proof. apply Zmod_mod. Qed.

(** Equations between wrapped sums: drop the inner wraps and compare. *)
Ltac wrap :=
  unfold wrap64;
  rewrite ?Zplus_mod_idemp_l, ?Zplus_mod_idemp_r, ?Zminus_mod_idemp_l, ?Zminus_mod_idemp_r;
  f_equal; lia.

Lemma to_i64_id z : is_i64 z → to_i64 z = z.
Proof. intros H. unfold to_i64. rewrite wrap64_small; ulia. Qed.

Lemma to_i64_wrap64 z : is_i64 z → to_i64 (wrap64 z) = z.
Proof.
  intros H. unfold to_i64. rewrite wrap64_add_l. rewrite wrap64_small; ulia.
Qed.

Lemma CRLF_length : length CRLF = 2%nat.
Proof. done. Qed.

(** Length goals over appends, slices and line ends. *)
Ltac lens :=
  unfold len in *;
  rewrite ?length_app, ?length_take, ?length_drop, ?CRLF_length in *;
  repeat match goal with
    | |- context [length (str ?s)] =>
        let n := eval vm_compute in (length (str s)) in change (length (str s)) with n
    end;
  cbn [length] in *; ulia.

Lemma len_nonneg {A} (s : list A) : 0 <= len s.
Proof. ulia. Qed.

Lemma len_app {A} (s t : list A) : len (s ++ t) = len s + len t.
Proof. unfold len. rewrite length_app. lia. Qed.

Lemma len_nil {A} : len (A := A) [] = 0.
Proof. done. Qed.

Lemma len_cons {A} (x : A) s : len (x :: s) = len s + 1.
Proof. unfold len. simpl. lia. Qed.

Create HintDb som.
Create Rewrite HintDb som.
#[export] Hint Resolve wrap64_range ord_range len_nonneg : som.
#[export] Hint Rewrite @wrap64_add_l @wrap64_add_r @wrap64_sub_l wrap64_wrap64 : som.
#[export] Hint Rewrite @len_app @len_cons @len_nil : som.

(** ** List lemmas shared by the components *)

Lemma take_app_exact {A} (l k : list A) n : n = length l → take n (l ++ k) = l.
Proof. intros ->. apply take_app_length. Qed.

Lemma drop_app_exact {A} (l k : list A) n : n = length l → drop n (l ++ k) = k.
Proof. intros ->. apply drop_app_length. Qed.

Lemma take_length_take {A} (l : list A) n : take (length (take n l)) l = take n l.
Proof.
  rewrite length_take. destruct (Nat.min_spec n (length l)) as [[? ->]|[? ->]]; [done|].
  by rewrite !take_ge by lia.
Qed.

Lemma join_cons {A} (x : list A) (l : list (list A)) : mjoin (x :: l) = x ++ mjoin l.
Proof. done. Qed.

(** ** Sums over a finite map *)

Definition map_sum `{Countable K} {A} (f : A → Z) (m : gmap K A) : Z := map_fold (λ _ x n, f x + n) 0 m.

Lemma map_sum_empty `{Countable K} {A} (f : A → Z) : map_sum f (∅ : gmap K A) = 0.
Proof. apply map_fold_empty. Qed.

Lemma map_sum_insert_new `{Countable K} {A} (f : A → Z) (m : gmap K A) i x :
  m !! i = None → map_sum f (<[i := x]> m) = f x + map_sum f m.
Proof. intros Hn. unfold map_sum. rewrite map_fold_insert_L; [done| |done]. intros. lia. Qed.

Lemma map_sum_insert `{Countable K} {A} (f : A → Z) (m : gmap K A) i x y :
  m !! i = Some x → map_sum f (<[i := y]> m) = map_sum f m - f x + f y.
Proof.
  intros Hm. rewrite <- (insert_delete_id m i x) at 2 by done. rewrite <- insert_delete_eq.
  rewrite !map_sum_insert_new by apply lookup_delete_eq. lia.
Qed.

Lemma map_sum_ext `{Countable K} {A} (f g : A → Z) (m : gmap K A) :
  (∀ i x, m !! i = Some x → f x = g x) → map_sum f m = map_sum g m.
Proof.
  induction m as [|i x m Hi IH] using map_ind; [done|]. intros Hfg. rewrite !map_sum_insert_new by done.
  rewrite (Hfg i x) by apply lookup_insert_eq. f_equal. apply IH. intros j y Hj. apply (Hfg j).
  rewrite lookup_insert_ne; [done|]. intros <-. congruence.
Qed.

Lemma map_sum_nonneg `{Countable K} {A} (f : A → Z) (m : gmap K A) :
  map_Forall (λ _ x, 0 <= f x) m → 0 <= map_sum f m.
Proof.
  induction m as [|i x m Hi IH] using map_ind; [by rewrite map_sum_empty|].
  intros Hall. rewrite map_sum_insert_new by done.
  assert (0 <= f x) by (apply (Hall i), lookup_insert_eq).
  assert (0 <= map_sum f m); [|lia]. apply IH. by eapply map_Forall_insert_1_2.
Qed.

(** The sum without one of the terms. *)
Lemma map_sum_others `{Countable K} {A} (f : A → Z) (m : gmap K A) i x :
  map_Forall (λ _ x, 0 <= f x) m → m !! i = Some x → 0 <= map_sum f m - f x.
Proof.
  intros Hall Hm. rewrite <- (insert_delete_id m i x) at 1 by done.
  rewrite map_sum_insert_new by apply lookup_delete_eq.
  assert (0 <= map_sum f (delete i m)); [|lia]. by apply map_sum_nonneg, map_Forall_delete.
Qed.

(** ** A state monad

    Stateful code is a function from a state to a result and a new state.
    The operations of each component run in [M] at that component's own
    state, and [zoom] runs them inside a larger one. *)
Definition M (S A : Type) : Type := S → A * S.

Definition ret {S A} (a : A) : M S A := λ s, (a, s).

Definition bind {S A B} (m : M S A) (k : A → M S B) : M S B :=
  λ s, let '(a, s') := m s in k a s'.

Definition gets {S A} (f : S → A) : M S A := λ s, (f s, s).

Definition modify {S} (f : S → S) : M S unit := λ s, (tt, f s).

Definition zoom {S T A} (get : S → T) (put : T → S → S) (m : M T A) : M S A :=
  λ s, let '(a, t) := m (get s) in (a, put t s).

Declare Scope st_scope.
Delimit Scope st_scope with st.
Notation "'let*' x ':=' m 'in' k" := (bind m (λ x, k))
  (at level 10, x name, m at level 200, k at level 200,
   format "'[v' 'let*'  x  ':='  m  'in' '/' k ']'") : st_scope.
Notation "'let*' ' x ':=' m 'in' k" := (bind m (λ x, k))
  (at level 10, x strict pattern, m at level 200, k at level 200,
   format "'[v' 'let*'  ' x  ':='  m  'in' '/' k ']'") : st_scope.
Notation "m ;; k" := (bind m (λ _, k))
  (at level 100, k at level 200, right associativity) : st_scope.
Global Open Scope st_scope.

(** [when b m]: an [if] with no [else]. *)
Definition when {S} (b : bool) (m : M S unit) : M S unit := if b then m else ret tt.

(** A range [for] whose body may change the state. *)
Fixpoint for_each {S A} (l : list A) (body : A → M S unit) : M S unit :=
  match l with
  | [] => ret tt
  | x :: l => body x ;; for_each l body
  end.

(** The same, with a local variable the body updates. *)
Fixpoint fold_m {S A B} (l : list A) (acc : B) (body : B → A → M S B) : M S B :=
  match l with
  | [] => ret acc
  | x :: l => let* acc := body acc x in fold_m l acc body
  end.

(** ** Weakest preconditions

    [wp m Q s]: running [m] from [s] ends with a result and a state that
    satisfy [Q]. The programs are total, so this is total correctness. *)
Definition wp {S A} (m : M S A) (Q : A → S → Prop) (s : S) : Prop := Q (m s).1 (m s).2.

Definition triple {S A} (P : S → Prop) (m : M S A) (Q : A → S → Prop) : Prop :=
  ∀ s, P s → wp m Q s.

(** [m] keeps the invariant [I]. *)
Definition preserves {S A} (I : S → Prop) (m : M S A) : Prop := triple I m (λ _, I).

Section wp.
  Context {S : Type}.
  Implicit Types s : S.

Lemma wp_ret {A} (a : A) (Q : A → S → Prop) s : Q a s → wp (ret a) Q s.
Proof. done. Qed.

Lemma wp_bind {A B} (m : M S A) (k : A → M S B) (Q : B → S → Prop) s :
  wp m (λ a, wp (k a) Q) s → wp (bind m k) Q s.
Proof. unfold wp, bind. by destruct (m s). Qed.

Lemma wp_gets {A} (f : S → A) (Q : A → S → Prop) s : Q (f s) s → wp (gets f) Q s.
Proof. done. Qed.

Lemma wp_modify (f : S → S) (Q : unit → S → Prop) s : Q tt (f s) → wp (modify f) Q s.
Proof. done. Qed.

Lemma wp_mono {A} (m : M S A) (Q Q' : A → S → Prop) s :
  wp m Q s → (∀ a s', Q a s' → Q' a s') → wp m Q' s.
Proof. unfold wp. auto. Qed.

Lemma wp_and {A} (m : M S A) (Q Q' : A → S → Prop) s :
  wp m Q s → wp m Q' s → wp m (λ a s', Q a s' ∧ Q' a s') s.
Proof. by split. Qed.

Lemma wp_zoom {T A} (get : S → T) (put : T → S → S) (m : M T A) (Q : A → S → Prop) s :
  wp m (λ a t, Q a (put t s)) (get s) → wp (zoom get put m) Q s.
Proof. unfold wp, zoom. by destruct (m (get s)). Qed.

Lemma wp_when b (m : M S unit) (Q : unit → S → Prop) s :
  (b = true → wp m Q s) → (b = false → Q tt s) → wp (when b m) Q s.
Proof. destruct b; intros H1 H2; [by apply H1|by apply wp_ret, H2]. Qed.

(** An invariant carried through a loop, with the elements already seen. *)
Lemma wp_for_each {A} (l : list A) (body : A → M S unit) (I : list A → S → Prop) s :
  (∀ done x todo s, l = done ++ x :: todo → I done s →
     wp (body x) (λ _, I (done ++ [x])) s) →
  I [] s → wp (for_each l body) (λ _, I l) s.
Proof.
  intros Hbody. change l with ([] ++ l) at 2.
  assert (H : ∀ todo done s, l = done ++ todo → I done s →
    wp (for_each todo body) (λ _, I (done ++ todo)) s).
  { intros todo. induction todo as [|x todo IH]; intros done s' Hl HI; simpl.
    - apply wp_ret. by rewrite app_nil_r.
    - apply wp_bind. eapply wp_mono; [by eapply Hbody|]. intros u s'' HI'.
      rewrite (cons_middle x done todo), app_assoc.
      apply IH; [|done]. by rewrite <- app_assoc. }
  intros HI. by apply H.
Qed.

Lemma preserves_ret (I : S → Prop) {A} (a : A) : preserves I (ret a).
Proof. by intros s. Qed.

Lemma preserves_gets (I : S → Prop) {A} (f : S → A) : preserves I (gets f).
Proof. by intros s. Qed.

Lemma preserves_modify (I : S → Prop) (f : S → S) :
  (∀ s, I s → I (f s)) → preserves I (modify f).
Proof. intros H s. apply H. Qed.

Lemma preserves_bind (I : S → Prop) {A B} (m : M S A) (k : A → M S B) :
  preserves I m → (∀ a, preserves I (k a)) → preserves I (bind m k).
Proof.
  intros Hm Hk s Hs. apply wp_bind. eapply wp_mono; [by apply Hm|].
  intros a s'. apply Hk.
Qed.

Lemma preserves_when (I : S → Prop) b (m : M S unit) : preserves I m → preserves I (when b m).
Proof. intros H. destruct b; [done|apply preserves_ret]. Qed.

Lemma preserves_for_each (I : S → Prop) {A} (l : list A) (body : A → M S unit) :
  (∀ x, preserves I (body x)) → preserves I (for_each l body).
Proof.
  intros H. induction l as [|x l IH]; [apply preserves_ret|]. simpl. by apply preserves_bind.
Qed.

Lemma preserves_fold_m (I : S → Prop) {A B} (l : list A) (acc : B) (body : B → A → M S B) :
  (∀ acc x, preserves I (body acc x)) → preserves I (fold_m l acc body).
Proof.
  intros H. revert acc. induction l as [|x l IH]; intros acc; [apply preserves_ret|].
  simpl. by apply preserves_bind.
Qed.

End wp.

Create HintDb pres.
#[export] Hint Resolve preserves_ret preserves_gets preserves_when : pres.
#[export] Hint Resolve preserves_bind preserves_for_each preserves_fold_m : pres.

(** [wp_run]: symbolic execution of the monad's own operations; a component
    extends [wp_more] with the steps of its primitive actions. *)
Ltac wp_more := fail.

Ltac wp_step :=
  match goal with
  | |- wp (bind _ _) _ _ => apply wp_bind
  | |- wp (ret _) _ _ => apply wp_ret
  | |- wp (gets _) _ _ => apply wp_gets
  | |- wp (modify _) _ _ => apply wp_modify
  | _ => wp_more
  end.

Ltac wp_run := repeat first [ progress cbn beta iota zeta delta [negb] | wp_step ].

(** [pres]: a program keeps an invariant because each part does; the
    components' operations come from the [pres] hints. *)
Ltac pres :=
  intros;
  repeat first
    [ solve [eauto with pres]
    | progress intros
    | apply preserves_bind | apply preserves_for_each | apply preserves_fold_m
    | match goal with
      | |- preserves _ (if ?b then _ else _) => destruct b eqn:?
      | |- preserves _ (match ?x with _ => _ end) => destruct x eqn:?
      end ].
