(* ===== verification/FsUtil.v ===== *)
(** * Numbers and complete I/O (src/storage/fs_util.h)

    Strict decimal parsing, [std::to_string] as its inverse, and the loops
    that turn partial [write], [pwrite] and [pread] calls into complete ones.
    A system call is outside the program: its results are a script the loops
    consume, and the files they act on are byte lists. *)

From S2P Require Import Prelude.

(** ** Decimal digits *)

Definition is_digit (c : ascii) : bool := (48 <=? ord c) && (ord c <=? 57).

Definition digit_val (c : ascii) : Z := ord c - 48.

(** The value of a digit string read after a prefix of value [v]. *)
Definition decval_from (v : Z) (s : bytes) : Z := foldl (λ v c, v * 10 + digit_val c) v s.

Definition decval (s : bytes) : Z := decval_from 0 s.

Arguments decval_from : simpl never.

(** [std::to_string] of an unsigned number, then of a signed one. The fuel is
    the number of bits, and a number has no more digits than bits. *)
Fixpoint dec_go (fuel : nat) (n : Z) (acc : bytes) : bytes :=
  match fuel with
  | O => acc
  | S fuel =>
      let acc := chr (48 + n mod 10) :: acc in
      if n / 10 =? 0 then acc else dec_go fuel (n / 10) acc
  end.

Definition to_string_u (n : Z) : bytes := dec_go (S (Z.to_nat (Z.log2 n))) n [].

Definition to_string (n : Z) : bytes :=
  if n <? 0 then str "-" ++ to_string_u (- n) else to_string_u n.

Arguments to_string_u : simpl never.

(** [fsutil::parse_u64]: the loop, with the value read so far. *)
Fixpoint parse_u64_loop (v : Z) (s : bytes) : option Z :=
  match s with
  | [] => Some v
  | c :: s =>
      if (ord c <? 48) || (57 <? ord c) then None else
      let d := digit_val c in
      if (UINT64_MAX - d) / 10 <? v then None else
      parse_u64_loop (v * 10 + d) s
  end.

Definition parse_u64 (s : bytes) : option Z :=
  match s with
  | [] => None
  | _ => parse_u64_loop 0 s
  end.

(** [fsutil::parse_i64]: an optional minus sign, then [parse_u64]. *)
Definition parse_i64 (s : bytes) : option Z :=
  let neg := match s with c :: _ => bool_decide (c = chr 45) | [] => false end in
  match parse_u64 (if neg then tail s else s) with
  | None => None
  | Some u =>
      if neg then
        if LLONG_MAX + 1 <? u then None
        else if u =? LLONG_MAX + 1 then Some LLONG_MIN else Some (- u)
      else if LLONG_MAX <? u then None else Some u
  end.

Lemma is_digit_range c : is_digit c = true ↔ 0 <= digit_val c <= 9.
Proof. unfold is_digit, digit_val. lia. Qed.

Lemma is_digit_chr d : 0 <= d <= 9 → is_digit (chr (48 + d)) = true.
Proof. intros H. apply is_digit_range. unfold digit_val. rewrite ord_chr; lia. Qed.

Lemma digit_val_chr d : 0 <= d <= 9 → digit_val (chr (48 + d)) = d.
Proof. intros H. unfold digit_val. rewrite ord_chr; lia. Qed.

Definition all_digits (s : bytes) : Prop := Forall (λ c, is_digit c = true) s.

Lemma decval_from_cons v c s : decval_from v (c :: s) = decval_from (v * 10 + digit_val c) s.
Proof. done. Qed.

Lemma decval_from_mono v s : 0 <= v → all_digits s → v <= decval_from v s.
Proof.
  intros Hv Hs. revert v Hv. induction Hs as [|c s Hc Hs IH]; intros v Hv; [done|].
  rewrite decval_from_cons. apply is_digit_range in Hc.
  specialize (IH (v * 10 + digit_val c)). lia.
Qed.

(** ** [to_string] *)

Lemma dec_go_spec fuel n acc :
  0 <= n < 10 ^ Z.of_nat fuel → all_digits acc → (0 < fuel)%nat →
  decval (dec_go fuel n acc) = decval_from n acc ∧ all_digits (dec_go fuel n acc)
  ∧ dec_go fuel n acc ≠ [].
Proof.
  revert n acc. induction fuel as [|fuel IH]; intros n acc Hn Hacc Hf; [lia|]. simpl.
  pose proof (Z.mod_pos_bound n 10 ltac:(lia)) as Hm.
  assert (Hacc' : all_digits (chr (48 + n mod 10) :: acc)).
  { constructor; [apply is_digit_chr; lia|done]. }
  assert (Hval : decval_from (n / 10) (chr (48 + n mod 10) :: acc) = decval_from n acc).
  { rewrite decval_from_cons, digit_val_chr by lia. f_equal. pose proof (Z.div_mod n 10). lia. }
  destruct (Z.eqb_spec (n / 10) 0) as [H0|H0].
  - rewrite H0 in Hval. done.
  - assert (Hlt : n / 10 < 10 ^ Z.of_nat fuel).
    { apply Z.div_lt_upper_bound; [lia|]. rewrite Nat2Z.inj_succ, Z.pow_succ_r in Hn; lia. }
    pose proof (Z.div_pos n 10 ltac:(lia) ltac:(lia)) as Hge.
    destruct fuel as [|fuel]; [simpl in Hlt; lia|].
    destruct (IH (n / 10) (chr (48 + n mod 10) :: acc)) as (H1 & H2 & H3); [lia|done|lia|].
    by rewrite H1, Hval.
Qed.

Lemma to_string_u_fuel n : 0 <= n → n < 10 ^ Z.of_nat (S (Z.to_nat (Z.log2 n))).
Proof.
  intros Hn. pose proof (Z.log2_nonneg n).
  rewrite Nat2Z.inj_succ, Z2Nat.id by done.
  destruct (decide (n = 0)) as [->|Hne]; [done|].
  destruct (Z.log2_spec n) as [_ Hlt]; [lia|].
  eapply Z.lt_le_trans; [done|]. apply Z.pow_le_mono_l. lia.
Qed.

Lemma to_string_u_spec n :
  0 <= n →
  decval (to_string_u n) = n ∧ all_digits (to_string_u n) ∧ to_string_u n ≠ [].
Proof.
  intros Hn. destruct (dec_go_spec (S (Z.to_nat (Z.log2 n))) n []) as (H1 & H2 & H3).
  - split; [done|by apply to_string_u_fuel].
  - constructor.
  - lia.
  - done.
Qed.

Lemma dec_go_length fuel k n acc :
  0 <= n < 10 ^ Z.of_nat k → (0 < k)%nat → (length (dec_go fuel n acc) ≤ length acc + k)%nat.
Proof.
  revert k n acc. induction fuel as [|fuel IH]; intros k n acc Hn Hk; simpl; [lia|].
  destruct (Z.eqb_spec (n / 10) 0) as [H0|H0]; [simpl; lia|].
  destruct k as [|k]; [lia|].
  assert (Hlt : n / 10 < 10 ^ Z.of_nat k).
  { apply Z.div_lt_upper_bound; [lia|]. rewrite Nat2Z.inj_succ, Z.pow_succ_r in Hn; lia. }
  pose proof (Z.div_pos n 10 ltac:(lia) ltac:(lia)).
  destruct k as [|k]; [simpl in Hlt; lia|].
  specialize (IH (S k) (n / 10) (chr (48 + n mod 10) :: acc)). simpl in *. lia.
Qed.

(** A 64-bit number has at most twenty digits. *)
Lemma to_string_u_length n : is_u64 n → (1 ≤ length (to_string_u n) ≤ 20)%nat.
Proof.
  intros Hn. split.
  - destruct (to_string_u_spec n) as (_ & _ & H); [ulia|].
    destruct (to_string_u n); [done|simpl; lia].
  - unfold to_string_u. pose proof (dec_go_length (S (Z.to_nat (Z.log2 n))) 20 n []) as H.
    simpl length in H. apply H; [|lia]. ulia.
Qed.

(** ** [parse_u64] *)

Lemma digit_test c : (ord c <? 48) || (57 <? ord c) = negb (is_digit c).
Proof. unfold is_digit. lia. Qed.

Lemma parse_u64_loop_spec v s r :
  is_u64 v →
  parse_u64_loop v s = Some r ↔ all_digits s ∧ decval_from v s = r ∧ is_u64 r.
Proof.
  revert v. induction s as [|c s IH]; intros v Hv.
  - split.
    + intros [= <-]. by repeat split; [constructor|destruct Hv..].
    + intros (_ & <- & _). done.
  - simpl. rewrite digit_test, decval_from_cons.
    destruct (is_digit c) eqn:Hc; simpl.
    2:{ split; [done|]. intros (Hd & _). inversion Hd. congruence. }
    pose proof Hc as Hd. apply is_digit_range in Hd.
    destruct (Z.ltb_spec ((UINT64_MAX - digit_val c) / 10) v) as [Hlt|Hge].
    + split; [done|]. intros (Hs & Hr & Hu). exfalso.
      inversion Hs as [|?? _ Hs']; subst.
      pose proof (decval_from_mono (v * 10 + digit_val c) s ltac:(ulia) Hs').
      pose proof (Z.mul_succ_div_gt (UINT64_MAX - digit_val c) 10 ltac:(lia)). ulia.
    + pose proof (Z.mul_div_le (UINT64_MAX - digit_val c) 10 ltac:(lia)).
      rewrite IH by ulia. split.
      * intros (Hs & Hr). by repeat split; [constructor|apply Hr..].
      * intros (Hs & Hr). inversion Hs; subst. by split.
Qed.

(** The accepted strings, exactly: digits only, at least one, in range. *)
Lemma parse_u64_spec s r :
  parse_u64 s = Some r ↔ s ≠ [] ∧ all_digits s ∧ decval s = r ∧ is_u64 r.
Proof.
  destruct s as [|c s]; [split; [done|by intros []]|].
  unfold parse_u64. rewrite parse_u64_loop_spec by ulia. unfold decval.
  split; [by intros (?&?&?)|by intros (_&?&?&?)].
Qed.

Lemma parse_u64_to_string n : is_u64 n → parse_u64 (to_string_u n) = Some n.
Proof.
  intros Hn. apply parse_u64_spec. destruct (to_string_u_spec n) as (H1 & H2 & H3); [ulia|].
  done.
Qed.

Lemma parse_u64_range s r : parse_u64 s = Some r → is_u64 r.
Proof. intros H. by apply parse_u64_spec in H as (_ & _ & _ & ?). Qed.

Lemma to_string_nonneg n : 0 <= n → to_string n = to_string_u n.
Proof. intros H. unfold to_string. destruct (Z.ltb_spec n 0); [lia|done]. Qed.

Lemma digits_not_minus s : all_digits s → s ≠ [] →
  match s with c :: _ => bool_decide (c = chr 45) | [] => false end = false.
Proof.
  intros Hs Hne. destruct Hs as [|c s Hc Hs]; [done|].
  apply bool_decide_eq_false. intros ->. by vm_compute in Hc.
Qed.

Lemma parse_i64_to_string n : is_i64 n → parse_i64 (to_string n) = Some n.
Proof.
  intros Hn. unfold to_string. destruct (Z.ltb_spec n 0) as [Hneg|Hpos].
  - unfold parse_i64. change (str "-" ++ to_string_u (- n)) with (chr 45 :: to_string_u (- n)).
    cbv zeta. cbn match. rewrite bool_decide_eq_true_2 by done. cbn [tail].
    rewrite parse_u64_to_string by ulia.
    destruct (Z.ltb_spec (LLONG_MAX + 1) (- n)); [ulia|].
    destruct (Z.eqb_spec (- n) (LLONG_MAX + 1)); f_equal; ulia.
  - destruct (to_string_u_spec n) as (_ & Hd & Hne); [done|].
    unfold parse_i64. rewrite digits_not_minus by done.
    rewrite parse_u64_to_string by ulia.
    destruct (Z.ltb_spec LLONG_MAX n); [ulia|done].
Qed.

Lemma parse_i64_range s r : parse_i64 s = Some r → is_i64 r.
Proof.
  unfold parse_i64. intros H. revert H.
  set (neg := match s with c :: _ => _ | [] => _ end).
  destruct (parse_u64 _) as [u|] eqn:Hu; [|done]. apply parse_u64_range in Hu.
  destruct neg.
  - destruct (Z.ltb_spec (LLONG_MAX + 1) u); [done|].
    destruct (Z.eqb_spec u (LLONG_MAX + 1)); intros [= <-]; ulia.
  - destruct (Z.ltb_spec LLONG_MAX u); [done|]. intros [= <-]; ulia.
Qed.

(** ** Complete reads and writes

    What one system call did: moved [n] bytes, was interrupted by a signal,
    or failed. A call never moves more than it was asked to (POSIX), hence the
    [min]; moving none is the source's error case. *)
Inductive sysret := Moved (n : nat) | Eintr | Fail.

Global Instance sysret_eq_dec : EqDecision sysret.
Proof. solve_decision. Defined.

(** A file written at [off]: what was there is replaced, the rest is kept. *)
Definition overwrite (file : bytes) (off : nat) (data : bytes) : bytes :=
  take off file ++ data ++ drop (off + length data) file.

(** [fsutil::write_all] on a file opened with [O_APPEND]: success or failure,
    the bytes written and the file after them. [None]: the script is used up
    and the loop still waits. *)
Fixpoint write_all (script : list sysret) (file data : bytes) (off : nat)
    : option (bool * nat * bytes) :=
  if (length data <=? off)%nat then Some (true, off, file) else
  match script with
  | [] => None
  | Moved n :: script =>
      let n := Nat.min n (length data - off) in
      if (0 <? n)%nat
      then write_all script (file ++ take n (drop off data)) data (off + n)
      else Some (false, off, file)
  | Eintr :: script => write_all script file data off
  | Fail :: _ => Some (false, off, file)
  end.

(** [fsutil::pwrite_all]: the same loop at an explicit offset. *)
Fixpoint pwrite_all (script : list sysret) (file data : bytes) (off done : nat)
    : option (bool * bytes) :=
  if (length data <=? done)%nat then Some (true, file) else
  match script with
  | [] => None
  | Moved n :: script =>
      let n := Nat.min n (length data - done) in
      if (0 <? n)%nat
      then pwrite_all script (overwrite file (off + done) (take n (drop done data)))
             data off (done + n)
      else Some (false, file)
  | Eintr :: script => pwrite_all script file data off done
  | Fail :: _ => Some (false, file)
  end.

(** [fsutil::pread_all] of [n] bytes at [off]; [got] holds what has arrived.
    At the end of the file a call moves nothing. *)
Fixpoint pread_all (script : list sysret) (file : bytes) (want off : nat) (got : bytes)
    : option (bool * bytes) :=
  if (want <=? length got)%nat then Some (true, got) else
  match script with
  | [] => None
  | Moved n :: script =>
      let chunk := take (Nat.min n (want - length got)) (drop (off + length got) file) in
      if (0 <? length chunk)%nat
      then pread_all script file want off (got ++ chunk)
      else Some (false, got)
  | Eintr :: script => pread_all script file want off got
  | Fail :: _ => Some (false, got)
  end.

(** The calls of a script that do not just report a signal. *)
Definition effective (script : list sysret) : nat :=
  length (filter (λ r, r ≠ Eintr) script).

Lemma effective_replicate n r : r ≠ Eintr → effective (replicate n r) = n.
Proof.
  intros Hr. unfold effective. induction n as [|n IH]; [done|]. simpl.
  rewrite filter_cons_True by done. simpl. by rewrite IH.
Qed.

Lemma write_all_inv script file data off ok w file' :
  (off ≤ length data)%nat →
  write_all script (file ++ take off data) data off = Some (ok, w, file') →
  file' = file ++ take w data ∧ (w ≤ length data)%nat ∧ (ok = true ↔ w = length data).
Proof.
  revert off. induction script as [|r script IH]; intros off Hoff; simpl;
    destruct (Nat.leb_spec (length data) off) as [Hge|Hlt].
  - intros [= <- <- <-]. assert (off = length data) as -> by lia. done.
  - done.
  - intros [= <- <- <-]. assert (off = length data) as -> by lia. done.
  - destruct r as [n| |].
    + destruct (Nat.ltb_spec 0 (Nat.min n (length data - off))) as [Hn|Hn].
      * rewrite <- app_assoc, take_take_drop. apply IH. lia.
      * intros [= <- <- <-]. repeat split; [lia|done|lia].
    + by apply IH.
    + intros [= <- <- <-]. repeat split; [lia|done|lia].
Qed.

Lemma write_all_returns script file data off :
  (off ≤ length data)%nat → (length data - off ≤ effective script)%nat →
  is_Some (write_all script file data off).
Proof.
  revert file off. induction script as [|r script IH]; intros file off Hoff He; simpl;
    destruct (Nat.leb_spec (length data) off) as [Hge|Hlt]; try by eexists.
  - unfold effective in He. simpl in He. lia.
  - destruct r as [n| |]; [|by apply IH|by eexists].
    destruct (Nat.ltb_spec 0 (Nat.min n (length data - off))) as [Hn|Hn]; [|by eexists].
    apply IH; [lia|]. unfold effective in *. rewrite filter_cons_True in He by done.
    simpl in He. lia.
Qed.

Lemma overwrite_length file off data :
  (off ≤ length file)%nat →
  length (overwrite file off data) = Nat.max (length file) (off + length data).
Proof.
  intros H. unfold overwrite. rewrite !length_app, length_take, length_drop. lia.
Qed.

Lemma overwrite_overwrite file off d1 d2 :
  (off ≤ length file)%nat →
  overwrite (overwrite file off d1) (off + length d1) d2 = overwrite file off (d1 ++ d2).
Proof.
  intros H. unfold overwrite.
  assert (Ho : length (take off file) = off) by (rewrite length_take; lia).
  rewrite (app_assoc (take off file) d1), take_app_exact by (rewrite length_app; lia).
  rewrite drop_app_ge by (rewrite length_app; lia).
  rewrite !length_app, drop_drop, Ho, <- !app_assoc.
  do 4 f_equal. lia.
Qed.

Lemma overwrite_end file data : overwrite file (length file) data = file ++ data.
Proof.
  unfold overwrite. rewrite take_ge, drop_ge by lia. by rewrite app_nil_r.
Qed.

Lemma overwrite_nil file off : overwrite file off [] = file.
Proof. unfold overwrite. simpl. rewrite Nat.add_0_r. apply take_drop. Qed.

Lemma overwrite_below file off data n :
  (n ≤ off)%nat → (off ≤ length file)%nat → take n (overwrite file off data) = take n file.
Proof.
  intros H1 H2. unfold overwrite. rewrite take_app_le by (rewrite length_take; lia).
  rewrite take_take. f_equal. lia.
Qed.

Lemma overwrite_read file off data :
  (off ≤ length file)%nat → take (length data) (drop off (overwrite file off data)) = data.
Proof.
  intros H. unfold overwrite. rewrite drop_app_exact by (rewrite length_take; lia).
  by rewrite take_app_length.
Qed.

(** A complete [pwrite_all] is one overwrite; a failed one has written a
    prefix of the data at the offset, so nothing below the offset moved. *)
Lemma pwrite_all_inv script file data off d ok file' :
  (off ≤ length file)%nat → (d ≤ length data)%nat →
  pwrite_all script (overwrite file off (take d data)) data off d = Some (ok, file') →
  ∃ w, file' = overwrite file off (take w data) ∧ (w ≤ length data)%nat
       ∧ (ok = true ↔ w = length data).
Proof.
  intros Hoff. revert d. induction script as [|r script IH]; intros d Hdone; simpl;
    destruct (Nat.leb_spec (length data) d) as [Hge|Hlt]; try done.
  - intros [= <- <-]. exists d. repeat split; lia.
  - intros [= <- <-]. exists d. repeat split; lia.
  - assert (Hstop : ∃ w, overwrite file off (take d data) = overwrite file off (take w data)
      ∧ (w ≤ length data)%nat ∧ (false = true ↔ w = length data)).
    { exists d. repeat split; [lia|done|lia]. }
    destruct r as [n| |]; [|by apply IH|by intros [= <- <-]].
    destruct (Nat.ltb_spec 0 (Nat.min n (length data - d))) as [Hn|Hn];
      [|by intros [= <- <-]].
    assert (Hd : (off + d)%nat = (off + length (take d data))%nat)
      by (rewrite length_take; lia).
    rewrite Hd, overwrite_overwrite, take_take_drop by done.
    apply IH. lia.
Qed.

(** A complete [pread_all] returns exactly the bytes the file has there. *)
Lemma pread_all_inv script file want off got ok data :
  got = take (length got) (drop off file) → (length got ≤ want)%nat →
  pread_all script file want off got = Some (ok, data) →
  ok = true → data = take want (drop off file) ∧ length data = want.
Proof.
  revert got. induction script as [|r script IH]; intros got Hgot Hle; simpl;
    destruct (Nat.leb_spec want (length got)) as [Hge|Hlt]; try done.
  - intros [= <- <-] _. assert (want = length got) as -> by lia. done.
  - intros [= <- <-] _. assert (want = length got) as -> by lia. done.
  - destruct r as [n| |]; [|by apply IH|by intros [= <- <-]].
    set (chunk := take _ _).
    destruct (Nat.ltb_spec 0 (length chunk)) as [Hn|Hn]; [|by intros [= <- <-]].
    apply IH.
    + rewrite length_app, <- take_take_drop, <- Hgot. f_equal.
      subst chunk. by rewrite drop_drop, take_length_take.
    + rewrite length_app. subst chunk. rewrite length_take. lia.
Qed.

Lemma pwrite_all_returns script file data off d :
  (d ≤ length data)%nat → (length data - d ≤ effective script)%nat →
  is_Some (pwrite_all script file data off d).
Proof.
  revert file d. induction script as [|r script IH]; intros file d Hd He; simpl;
    destruct (Nat.leb_spec (length data) d) as [Hge|Hlt]; try by eexists.
  - unfold effective in He. simpl in He. lia.
  - destruct r as [n| |]; [|by apply IH|by eexists].
    destruct (Nat.ltb_spec 0 (Nat.min n (length data - d))) as [Hn|Hn]; [|by eexists].
    apply IH; [lia|]. unfold effective in *. rewrite filter_cons_True in He by done.
    simpl in He. lia.
Qed.

Lemma pread_all_returns script file want off got :
  (length got ≤ want)%nat → (want - length got ≤ effective script)%nat →
  is_Some (pread_all script file want off got).
Proof.
  revert got. induction script as [|r script IH]; intros got Hg He; simpl;
    destruct (Nat.leb_spec want (length got)) as [Hge|Hlt]; try by eexists.
  - unfold effective in He. simpl in He. lia.
  - destruct r as [n| |]; [|by apply IH|by eexists].
    set (chunk := take _ _).
    destruct (Nat.ltb_spec 0 (length chunk)) as [Hn|Hn]; [|by eexists].
    unfold effective in *. rewrite filter_cons_True in He by done. simpl in He.
    apply IH; rewrite length_app; subst chunk; rewrite length_take in *; lia.
Qed.

(** *** How a loop ended *)

(** A call that ends a loop: it failed, and not for a signal, or moved nothing. *)
Definition hard (r : sysret) : Prop := r = Fail ∨ r = Moved 0.

Definition moved_by (calls : list sysret) : nat :=
  sum_list_with (λ r, match r with Moved n => n | _ => 0%nat end) calls.

(** The calls before the end were retried or went on where they stopped. *)
Definition went_on (calls : list sysret) : Prop := Forall (λ r, ¬ hard r) calls.

(** A loop to move [want] bytes over these calls: success is due to calls that
    moved that many, failure to the first hard error, [w] bytes having moved. *)
Definition ended (script : list sysret) (want : nat) (ok : bool) (w : nat) : Prop :=
  if ok then ∃ calls rest, script = calls ++ rest ∧ went_on calls ∧ (want ≤ moved_by calls)%nat
  else ∃ calls r rest, script = calls ++ r :: rest ∧ went_on calls ∧ hard r
         ∧ w = moved_by calls ∧ (w < want)%nat.

Lemma ended_done script want w : (want ≤ 0)%nat → ended script want true w.
Proof. intros H. exists [], script. split; [done|]. split; [constructor|]. cbn. lia. Qed.

Lemma ended_hard r script want : hard r → (0 < want)%nat → ended (r :: script) want false 0.
Proof. intros Hr Hw. exists [], r, script. split; [done|]. split; [constructor|]. split_and!; [done|done|lia]. Qed.

(** One more call in front. *)
Lemma ended_cons r script want ok w n :
  ¬ hard r → moved_by [r] = n → ended script (want - n) ok (w - n) → (ok = false → n ≤ w)%nat →
  ended (r :: script) want ok w.
Proof.
  intros Hr Hn. unfold ended. cbn in Hn. destruct ok.
  - intros (calls & rest & -> & Hg & Hle) _. exists (r :: calls), rest. split; [done|]. split; [by constructor|].
    cbn. fold (moved_by calls). lia.
  - intros (calls & r' & rest & -> & Hg & Hh & Hw & Hlt) Hle. exists (r :: calls), r', rest. specialize (Hle eq_refl).
    split; [done|]. split; [by constructor|]. split; [done|]. cbn. fold (moved_by calls). lia.
Qed.

Lemma hard_moved n : (0 < n)%nat → ¬ hard (Moved n).
Proof. intros Hn [H|[= H]]; [done|lia]. Qed.

Lemma hard_eintr : ¬ hard Eintr.
Proof. by intros [H|H]. Qed.

Lemma write_all_ended script file data off ok w file' :
  write_all script file data off = Some (ok, w, file') →
  ended script (length data - off) ok (w - off) ∧ (ok = false → off ≤ w)%nat.
Proof.
  revert file off. induction script as [|r script IH]; intros file off; simpl;
    destruct (Nat.leb_spec (length data) off) as [Hge|Hlt]; try done.
  1,2: intros [= <- _ _]; split; [apply ended_done; lia|done].
  destruct r as [n| |].
  - destruct (Nat.ltb_spec 0 (Nat.min n (length data - off))) as [Hn|Hn].
    + intros Hr. destruct (IH _ _ Hr) as [He Hle]. destruct (decide (n ≤ length data - off)%nat) as [Hcap|Hcap].
      * rewrite Nat.min_l in He, Hle by done. split; [|intros E; specialize (Hle E); lia]. apply (ended_cons _ _ _ _ _ n); [apply hard_moved; lia|cbn; lia| |].
        -- by replace (length data - off - n)%nat with (length data - (off + n))%nat by lia;
             replace (w - off - n)%nat with (w - (off + n))%nat by lia.
        -- intros E. specialize (Hle E). lia.
      * rewrite Nat.min_r in He, Hle by lia. replace (off + (length data - off))%nat with (length data) in * by lia.
        destruct ok; [|destruct He as (? & ? & ? & _ & _ & _ & _ & ?); lia]. split; [|done].
        exists [Moved n], script. split; [done|]. split; [constructor; [apply hard_moved; lia|constructor]|]. cbn. lia.
    + intros [= <- <- _]. split; [|done]. replace (off - off)%nat with 0%nat by lia. apply ended_hard; [|lia].
      right. f_equal. lia.
  - intros Hr. destruct (IH _ _ Hr) as [He Hle]. split; [|done].
    apply (ended_cons _ _ _ _ _ 0); [apply hard_eintr|done| |lia]. by rewrite !Nat.sub_0_r.
  - intros [= <- <- _]. split; [|done]. replace (off - off)%nat with 0%nat by lia. apply ended_hard; [by left|lia].
Qed.

(** [pwrite_all] makes the same calls as [write_all]. *)
Lemma pwrite_all_write script file0 file data off d ok w file' :
  (off ≤ length file)%nat → (d ≤ length data)%nat →
  write_all script file0 data d = Some (ok, w, file') →
  pwrite_all script (overwrite file off (take d data)) data off d = Some (ok, overwrite file off (take w data)).
Proof.
  intros Hoff. revert file0 d. induction script as [|r script IH]; intros file0 d Hd; simpl;
    destruct (Nat.leb_spec (length data) d) as [Hge|Hlt]; try done; [by intros [= <- <- _]..|].
  destruct r as [n| |]; [|by apply IH|by intros [= <- <- _]].
  destruct (Nat.ltb_spec 0 (Nat.min n (length data - d))) as [Hn|Hn]; [|by intros [= <- <- _]].
  assert (Ho : (off + d)%nat = (off + length (take d data))%nat) by (rewrite length_take; lia).
  rewrite Ho, overwrite_overwrite, take_take_drop by done. apply IH. lia.
Qed.

(** A read that fails has all the bytes up to a hard error or the end of the file. *)
Definition read_ended (script : list sysret) (file : bytes) (off want : nat) (ok : bool) (got : nat) : Prop :=
  ended script want ok got
  ∨ ok = false ∧ (got < want)%nat ∧ (length file ≤ off + got)%nat.

Lemma pread_all_ended script file want off got ok data :
  (length got ≤ want)%nat →
  pread_all script file want off got = Some (ok, data) →
  ∃ more, data = got ++ more ∧ read_ended script file (off + length got) (want - length got) ok (length more).
Proof.
  revert got. induction script as [|r script IH]; intros got Hle; simpl;
    destruct (Nat.leb_spec want (length got)) as [Hge|Hlt]; try done.
  1,2: intros [= <- <-]; exists []; rewrite app_nil_r; split; [done|]; left; apply ended_done; lia.
  destruct r as [n| |].
  - set (chunk := take _ _).
    assert (Hc : length chunk = Nat.min (Nat.min n (want - length got)) (length file - (off + length got)))
      by (subst chunk; rewrite length_take, length_drop; done).
    destruct (Nat.ltb_spec 0 (length chunk)) as [Hn|Hn].
    + intros Hr. destruct (IH (got ++ chunk) ltac:(rewrite length_app; lia) Hr) as (more & -> & He).
      exists (chunk ++ more). split; [by rewrite app_assoc|]. rewrite !length_app in *.
      destruct He as [He|(-> & Hlt' & Hend)]; [|right; split; [done|lia]].
      destruct ok.
      * left. destruct He as (calls & rest & -> & Hg & Hm). exists (Moved n :: calls), rest. split; [done|].
        split; [constructor; [apply hard_moved; lia|done]|]. change (moved_by (Moved n :: calls)) with (n + moved_by calls)%nat. lia.
      * destruct He as (calls & r & rest & -> & Hg & Hh & Hm & Hlt').
        destruct (decide (length chunk = n)) as [E|Hne]; [|right; split; [done|lia]].
        left. exists (Moved n :: calls), r, rest. split; [done|].
        split; [constructor; [apply hard_moved; lia|done]|]. split; [done|].
        change (moved_by (Moved n :: calls)) with (n + moved_by calls)%nat. lia.
    + intros [= <- <-]. exists []. split; [by rewrite app_nil_r|]. cbn [length].
      destruct n as [|n]; [left; apply ended_hard; [by right|lia]|right; split; [done|lia]].
  - intros Hr. destruct (IH got Hle Hr) as (more & -> & He). exists more. split; [done|].
    destruct He as [He|He]; [left|by right]. apply (ended_cons _ _ _ _ _ 0); [apply hard_eintr|done| |lia].
    by rewrite !Nat.sub_0_r.
  - intros [= <- <-]. exists []. split; [by rewrite app_nil_r|]. left. apply ended_hard; [by left|lia].
Qed.

(** What arrived is what the file has there. *)
Lemma pread_all_prefix script file want off got ok data :
  got = take (length got) (drop off file) → (length got ≤ want)%nat →
  pread_all script file want off got = Some (ok, data) →
  data = take (length data) (drop off file) ∧ (length data ≤ want)%nat ∧ (ok = true ↔ length data = want).
Proof.
  revert got. induction script as [|r script IH]; intros got Hgot Hle; simpl;
    destruct (Nat.leb_spec want (length got)) as [Hge|Hlt]; try done.
  1,2: intros [= <- <-]; split_and!; [done|lia|split; [lia|done]].
  assert (Hstop : (false = true ↔ length got = want)) by (split; [done|lia]).
  destruct r as [n| |]; [|by apply IH|by intros [= <- <-]].
  set (chunk := take _ _). destruct (Nat.ltb_spec 0 (length chunk)) as [Hn|Hn]; [|by intros [= <- <-]].
  apply IH.
  - rewrite length_app, <- take_take_drop, <- Hgot. f_equal. subst chunk. by rewrite drop_drop, take_length_take.
  - rewrite length_app. subst chunk. rewrite length_take. lia.
Qed.

(** ** Properties *)

(** The strict parsers accept exactly the numbers: [parse_u64] accepts a
    string when it is non-empty, all digits and its value fits 64 bits, and
    returns that value; [parse_i64] only returns values of a [long long]; and
    both read back what [std::to_string] prints, over their whole range. *)
Theorem parse_numbers_exact s n :
  (parse_u64 s = Some n ↔ s ≠ [] ∧ all_digits s ∧ decval s = n ∧ is_u64 n)
  ∧ (parse_i64 s = Some n → is_i64 n)
  ∧ (is_u64 n → parse_u64 (to_string_u n) = Some n)
  ∧ (is_i64 n → parse_i64 (to_string n) = Some n).
Proof.
  split; [apply parse_u64_spec|]. split; [apply parse_i64_range|].
  split; [apply parse_u64_to_string|apply parse_i64_to_string].
Qed.

Lemma parse_numbers_exact_witness : parse_i64 (to_string LLONG_MIN) = Some LLONG_MIN.
Proof. apply (parse_numbers_exact [] LLONG_MIN). vm_compute. split; discriminate. Defined.

(** C37: The complete-I/O loops move everything or stop at an error. As soon as
    the system answers often enough with something other than a signal, each
    loop returns. An append has then written a prefix of the data, an overwrite
    a prefix at its offset, a read delivered a prefix of the bytes the file has
    there, and success is reported exactly for the whole. Signals are retried and
    short transfers continued: a write that succeeds made calls that moved all of
    the data, one that fails met the first hard error (a failure other than a
    signal, or a call that moved nothing) after moving exactly what the calls
    before it moved; a read that fails met a hard error in the same way, or
    delivered all the file has up to its end, which is less than was asked. *)
Theorem complete_io script file data off want :
  (length data ≤ effective script)%nat → (want ≤ effective script)%nat →
  (off ≤ length file)%nat →
  (∃ ok w, write_all script file data 0 = Some (ok, w, file ++ take w data)
     ∧ (w ≤ length data)%nat ∧ (ok = true ↔ w = length data)
     ∧ ended script (length data) ok w
     ∧ pwrite_all script file data off 0 = Some (ok, overwrite file off (take w data)))
  ∧ (∃ ok got, pread_all script file want off [] = Some (ok, got)
     ∧ got = take (length got) (drop off file) ∧ (ok = true ↔ length got = want)
     ∧ read_ended script file off want ok (length got)).
Proof.
  intros Hw Hr Hoff. split.
  - destruct (write_all_returns script file data 0) as [[[ok w] file'] Hret]; [lia..|].
    exists ok, w. pose proof (write_all_inv script file data 0 ok w file') as Hinv.
    rewrite take_0, app_nil_r in Hinv. destruct (Hinv ltac:(lia) Hret) as (-> & Hle & Hiff).
    destruct (write_all_ended _ _ _ _ _ _ _ Hret) as [He _]. rewrite !Nat.sub_0_r in He.
    split_and!; try done.
    pose proof (pwrite_all_write script file file data off 0 ok w _ Hoff ltac:(lia) Hret) as Hp.
    by rewrite take_0, overwrite_nil in Hp.
  - destruct (pread_all_returns script file want off []) as [[ok got] Hret]; [simpl; lia..|].
    exists ok, got. split; [done|].
    destruct (pread_all_prefix script file want off [] ok got) as (Hg & Hle & Hiff); [done|simpl; lia|done|].
    destruct (pread_all_ended script file want off [] ok got (Nat.le_0_l _) Hret) as (more & Hmore & He). subst got.
    cbn [length app] in *. rewrite Nat.add_0_r, Nat.sub_0_r in He. by split_and!.
Qed.

(** A signal and short transfers, then a full disk; a read past the end. *)
Lemma complete_io_witness :
  let script := [Moved 1; Eintr; Moved 1; Fail] in
  pwrite_all script (str "abcd") (str "xyz") 2 0 = Some (false, overwrite (str "abcd") 2 (take 2 (str "xyz")))
  ∧ ended script 3 false 2
  ∧ ∃ ok got, pread_all script (str "abcd") 3 2 [] = Some (ok, got) ∧ got = str "cd" ∧ (ok = true ↔ length got = 3%nat).
Proof.
  intros script.
  destruct (complete_io script (str "abcd") (str "xyz") 2 3)
    as [(ok & w & Hw & _ & _ & He & Hp) (ok' & got & H & Hg & Hiff & _)]; [vm_compute; lia..|].
  assert (ok = false ∧ w = 2%nat) as [-> ->] by (revert Hw; vm_compute; by intros [= <- <-]).
  split; [exact Hp|]. split; [exact He|]. exists ok', got. split; [exact H|]. split; [|exact Hiff].
  revert H. vm_compute. by intros [= <- <-].
Defined.
