(* ===== verification/Doubles.v ===== *)
(** * Double precision numbers

    A [double] is a binary64 number of IEEE 754, and [+], [-], [*], [/], [sqrt]
    and [<] are its operations, as the Standard Library specifies them:
    the exact result, rounded to the nearest number, ties to even. Rounding is
    proved monotone here: comparing results needs no error analysis. Numbers
    are compared through [fixed], the number in units of 2^-[K], which is an
    integer; the exact results are fractions of integers. *)

From Stdlib Require Import SpecFloat.
From S2P Require Import Prelude FsUtil.

Abbreviation double := spec_float.

Definition prec : Z := 53.
Definition emax : Z := 1024.

Definition dadd : double → double → double := SFadd prec emax.
Definition dsub : double → double → double := SFsub prec emax.
Definition dmul : double → double → double := SFmul prec emax.
Definition ddiv : double → double → double := SFdiv prec emax.
Definition dsqrt : double → double := SFsqrt prec emax.

(** [static_cast<double>] of an integer. *)
Definition of_int (z : Z) : double := binary_normalize prec emax z 0 false.

(** The literal that is written [n / d]: the fraction, rounded once. *)
Definition literal (n d : positive) : double :=
  SFdiv prec emax (S754_finite false n 0) (S754_finite false d 0).

Definition infinity : double := S754_infinity false.

(** [std::max] and [std::isinf]. *)
Definition dmax (a b : double) : double := if SFltb a b then b else a.
Definition isinf (x : double) : bool := match x with S754_infinity _ => true | _ => false end.

(** ** Rounding a fraction

    [rne n d]: the integer nearest to [n / d], the even one of two. *)
Definition rne (n d : Z) : Z :=
  let q := n / d in
  match 2 * (n mod d) ?= d with
  | Lt => q
  | Gt => q + 1
  | Eq => if Z.even q then q else q + 1
  end.

Lemma rne_bounds n d : 0 < d → n / d <= rne n d <= n / d + 1.
Proof. intros Hd. unfold rne. destruct (_ ?= _); [destruct (Z.even _)|..]; lia. Qed.

Lemma rne_exact q d : 0 < d → rne (q * d) d = q.
Proof.
  intros Hd. unfold rne. rewrite Z_mod_mult, Z.div_mul by lia.
  destruct (Z.compare_spec (2 * 0) d); [lia|done|lia].
Qed.

(** Monotone, across denominators. *)
Lemma rne_mono n d n' d' : 0 < d → 0 < d' → n * d' <= n' * d → rne n d <= rne n' d'.
Proof.
  intros Hd Hd' Hle.
  pose proof (Z.div_mod n d ltac:(lia)). pose proof (Z.mod_pos_bound n d Hd).
  pose proof (Z.div_mod n' d' ltac:(lia)). pose proof (Z.mod_pos_bound n' d' Hd').
  set (q := n / d) in *. set (r := n mod d) in *. set (q' := n' / d') in *. set (r' := n' mod d') in *.
  assert (Hq : q <= q').
  { unfold q, q'. rewrite <- (Z.div_mul_cancel_r n d d'), <- (Z.div_mul_cancel_r n' d' d) by lia.
    rewrite (Z.mul_comm d' d). apply Z.div_le_mono; lia. }
  destruct (decide (q = q')) as [E|E].
  - assert (Hr : r * d' <= r' * d) by nia. unfold rne. fold q r q' r'. rewrite <- E.
    destruct (Z.compare_spec (2 * r) d), (Z.compare_spec (2 * r') d');
      try destruct (Z.even q); try lia; nia.
  - pose proof (rne_bounds n d Hd) as B. pose proof (rne_bounds n' d' Hd') as B'. fold q in B. fold q' in B'. lia.
Qed.

Lemma rne_scale n d k : 0 < d → 0 < k → rne (n * k) (d * k) = rne n d.
Proof. intros Hd Hk. apply Z.le_antisymm; apply rne_mono; nia. Qed.

(** ** The shifts of the Standard Library's rounding

    A mantissa with its guard and sticky bits stands for [n / g]. *)
Record located (mrs : shr_record) (n g : Z) : Prop := {
  lo_m : shr_m mrs = n / g;
  lo_r : shr_r mrs = (g <=? 2 * (n mod g));
  lo_s : shr_s mrs = negb ((2 * (n mod g) =? 0) || (2 * (n mod g) =? g))
}.

Lemma located_exact m g : 0 < g → located (shr_record_of_loc m loc_Exact) (m * g) g.
Proof.
  intros Hg. cbn [shr_record_of_loc]. split; cbn [shr_m shr_r shr_s].
  - by rewrite Z.div_mul by lia.
  - rewrite Z_mod_mult. symmetry. apply Z.leb_gt. lia.
  - by rewrite Z_mod_mult.
Qed.

Lemma shr_1_located mrs n g : 0 <= n → 0 < g → located mrs n g → located (shr_1 mrs) n (g * 2).
Proof.
  intros Hn Hg [Hm Hr Hs]. destruct mrs as [m r s]. cbn [shr_m shr_r shr_s] in *.
  assert (Hm0 : 0 <= m) by (subst m; apply Z.div_pos; lia).
  pose proof (Z.div_mod n g ltac:(lia)) as Hd. pose proof (Z.mod_pos_bound n g Hg) as Hb.
  rewrite <- Hm in Hd. set (ρ := n mod g) in *.
  assert (Hnew : n / (g * 2) = m / 2 ∧ n mod (g * 2) = ρ + (m mod 2) * g).
  { pose proof (Z.div_mod m 2 ltac:(lia)). pose proof (Z.mod_pos_bound m 2 ltac:(lia)).
    assert (n = g * 2 * (m / 2) + (ρ + (m mod 2) * g)) by nia.
    assert (0 <= ρ + (m mod 2) * g < g * 2) by nia.
    split; [by apply (Z.div_unique_pos n (g * 2) (m / 2)) in H2 as <-
           |by apply (Z.mod_unique_pos n (g * 2) (m / 2)) in H2 as <-]. }
  destruct Hnew as [Hq Hρ].
  assert (Hs' : r || s = negb (ρ =? 0)).
  { subst r s. destruct (Z.leb_spec g (2 * ρ)), (Z.eqb_spec (2 * ρ) 0), (Z.eqb_spec (2 * ρ) g),
      (Z.eqb_spec ρ 0); cbn [orb negb]; try done; lia. }
  assert (Hgoal : shr_1 (Build_shr_record m r s) = Build_shr_record (m / 2) (Z.odd m) (r || s)).
  { unfold shr_1. destruct m as [|[p|p|]|p]; [done|..|lia]; f_equal; try done.
    - by rewrite Pos2Z.inj_xI, Z.mul_comm, Z.div_add_l by lia; rewrite Z.add_0_r.
    - by rewrite Pos2Z.inj_xO, Z.mul_comm, Z.div_mul by lia. }
  rewrite Hgoal, Hs'. rewrite Zmod_odd in Hρ.
  split; cbn [shr_m shr_r shr_s]; [done|..]; rewrite Hρ; clear -Hb Hg; clearbody ρ.
  - destruct (Z.odd m), (Z.leb_spec (g * 2) (2 * (ρ + 0 * g))), (Z.leb_spec (g * 2) (2 * (ρ + 1 * g))); try done; lia.
  - destruct (Z.odd m).
    + destruct (Z.eqb_spec ρ 0), (Z.eqb_spec (2 * (ρ + 1 * g)) 0), (Z.eqb_spec (2 * (ρ + 1 * g)) (g * 2)); try done; lia.
    + destruct (Z.eqb_spec ρ 0), (Z.eqb_spec (2 * (ρ + 0 * g)) 0), (Z.eqb_spec (2 * (ρ + 0 * g)) (g * 2)); try done; lia.
Qed.

Lemma iter_shr_located p mrs n g :
  0 <= n → 0 < g → located mrs n g → located (SpecFloat.iter_pos shr_1 p mrs) n (g * 2 ^ Z.pos p).
Proof.
  revert mrs g. induction p as [p IH|p IH|]; intros mrs g Hn Hg H; cbn [SpecFloat.iter_pos].
  - replace (g * 2 ^ Z.pos p~1) with (g * 2 * 2 ^ Z.pos p * 2 ^ Z.pos p).
    2:{ replace (Z.pos p~1) with (Z.pos p + Z.pos p + 1) by lia. rewrite !Z.pow_add_r by lia. lia. }
    apply IH; [done|lia|]. apply IH; [done|lia|]. by apply shr_1_located.
  - replace (g * 2 ^ Z.pos p~0) with (g * 2 ^ Z.pos p * 2 ^ Z.pos p).
    2:{ replace (Z.pos p~0) with (Z.pos p + Z.pos p) by lia. rewrite Z.pow_add_r by lia. lia. }
    apply IH; [done|lia|]. by apply IH.
  - by rewrite Z.pow_1_r; apply shr_1_located.
Qed.

(** A shift by [k]; none when [k] is negative. *)
Lemma shr_located mrs n g e k :
  0 <= n → 0 < g → 0 <= k → located mrs n g →
  located (shr mrs e k).1 n (g * 2 ^ k) ∧ (shr mrs e k).2 = e + k.
Proof.
  intros Hn Hg Hk H. destruct k as [|p|p]; cbn [shr fst snd]; [|by split; [apply iter_shr_located|]|lia].
  rewrite Z.pow_0_r, Z.mul_1_r. split; [done|lia].
Qed.

Lemma round_located mrs n g :
  0 < g → located mrs n g → round_nearest_even (shr_m mrs) (loc_of_shr_record mrs) = rne n g.
Proof.
  intros Hg [Hm Hr Hs]. destruct mrs as [m r s]. cbn [shr_m shr_r shr_s] in *. subst.
  pose proof (Z.mod_pos_bound n g Hg) as Hb. unfold rne, loc_of_shr_record, round_nearest_even.
  destruct (Z.compare_spec (2 * (n mod g)) g), (Z.leb_spec g (2 * (n mod g))), (Z.eqb_spec (2 * (n mod g)) 0),
    (Z.eqb_spec (2 * (n mod g)) g); cbn [orb negb]; try done; lia.
Qed.

(** ** Rounding to double precision

    A number of units of 2^-[K], given as the fraction [n / d], is rounded to
    a multiple of the spacing of the doubles around it. *)
Definition K : Z := 4096.
Definition top : Z := 2 ^ (emax + K).

Definition spacing (q : Z) : Z := Z.max (Zdigits2 q - prec) (K + emin prec emax).

Definition rounded (n d : Z) : Z :=
  let s := spacing (n / d) in rne n (d * 2 ^ s) * 2 ^ s.

Lemma Zdigits2_log2 q : 0 < q → Zdigits2 q = Z.log2 q + 1.
Proof.
  destruct q as [|p|p]; [done| |done]. intros _. cbn [Zdigits2].
  induction p as [p IH|p IH|]; cbn [digits2_pos]; [..|done].
  - rewrite Pos2Z.inj_succ, IH, Pos2Z.inj_xI, Z.log2_succ_double by lia. lia.
  - rewrite Pos2Z.inj_succ, IH, Pos2Z.inj_xO, Z.log2_double by lia. lia.
Qed.

Lemma Zdigits2_bounds q : 0 < q → 2 ^ (Zdigits2 q - 1) <= q < 2 ^ Zdigits2 q ∧ 0 < Zdigits2 q.
Proof.
  intros Hq. rewrite Zdigits2_log2 by done. pose proof (Z.log2_spec q Hq). pose proof (Z.log2_nonneg q).
  replace (Z.log2 q + 1 - 1) with (Z.log2 q) by lia. unfold Z.succ in *. lia.
Qed.

Lemma Zdigits2_nonneg q : 0 <= Zdigits2 q.
Proof. by destruct q. Qed.

Lemma Zdigits2_mono q q' : 0 <= q <= q' → Zdigits2 q <= Zdigits2 q'.
Proof.
  intros H. destruct (decide (q = 0)) as [->|]; [apply Zdigits2_nonneg|].
  rewrite !Zdigits2_log2 by lia. pose proof (Z.log2_le_mono q q'). lia.
Qed.

Lemma Zdigits2_lt q k : 0 <= q → 0 <= k → q < 2 ^ k ↔ Zdigits2 q <= k.
Proof.
  intros Hq Hk. destruct (decide (q = 0)) as [->|].
  { cbn [Zdigits2]. pose proof (Z.pow_pos_nonneg 2 k). lia. }
  rewrite Zdigits2_log2, Z.log2_lt_pow2 by lia. lia.
Qed.

Lemma Zdigits2_div q k : 0 <= q → 0 <= k → 0 < q / 2 ^ k → Zdigits2 q = Zdigits2 (q / 2 ^ k) + k.
Proof.
  intros Hq Hk H. pose proof (Z.pow_pos_nonneg 2 k ltac:(lia) Hk) as Hp.
  assert (Hge : 2 ^ k <= q) by (destruct (Z.le_gt_cases (2 ^ k) q); [done|by rewrite Z.div_small in H by lia]).
  rewrite !Zdigits2_log2 by lia. rewrite <- Z.shiftr_div_pow2, Z.log2_shiftr by lia.
  assert (k <= Z.log2 q) by (apply Z.log2_le_pow2; lia). lia.
Qed.

Lemma spacing_nonneg q : 0 <= spacing q.
Proof. unfold spacing. change (K + emin prec emax) with 3022. lia. Qed.

Lemma spacing_mono q q' : 0 <= q <= q' → spacing q <= spacing q'.
Proof. intros H. unfold spacing. pose proof (Zdigits2_mono q q' H). lia. Qed.

Lemma rne_below n d p s : 0 < d → 0 <= s → n <= p * 2 ^ s * d → rne n (d * 2 ^ s) <= p.
Proof.
  intros Hd Hs Hn. pose proof (Z.pow_pos_nonneg 2 s ltac:(lia) Hs).
  rewrite <- (rne_exact p (d * 2 ^ s)) by nia. apply rne_mono; [nia..|].
  apply Z.mul_le_mono_nonneg_r; lia.
Qed.

Lemma rne_above n d p s : 0 < d → 0 <= s → p * 2 ^ s * d <= n → p <= rne n (d * 2 ^ s).
Proof.
  intros Hd Hs Hn. pose proof (Z.pow_pos_nonneg 2 s ltac:(lia) Hs).
  rewrite <- (rne_exact p (d * 2 ^ s)) at 1 by nia. apply rne_mono; [nia..|].
  apply Z.mul_le_mono_nonneg_r; lia.
Qed.

(** Monotone: within one spacing by [rne_mono]; across spacings there is a
    power of two between the numbers, a multiple of both. *)
Lemma rounded_mono n d n' d' :
  0 <= n → 0 < d → 0 < d' → n * d' <= n' * d → rounded n d <= rounded n' d'.
Proof.
  intros Hn Hd Hd' Hle.
  assert (Hq : 0 <= n / d <= n' / d').
  { split; [by apply Z.div_pos|].
    rewrite <- (Z.div_mul_cancel_r n d d'), <- (Z.div_mul_cancel_r n' d' d) by lia.
    rewrite (Z.mul_comm d' d). apply Z.div_le_mono; lia. }
  pose proof (spacing_mono _ _ Hq) as Hs. pose proof (spacing_nonneg (n / d)) as Hs0.
  unfold rounded. cbv zeta. set (s := spacing (n / d)) in *. set (s' := spacing (n' / d')) in *.
  pose proof (Z.pow_pos_nonneg 2 s ltac:(lia) Hs0). pose proof (Z.pow_pos_nonneg 2 s' ltac:(lia) ltac:(lia)).
  destruct (decide (s = s')) as [<-|Hne].
  { apply Z.mul_le_mono_nonneg_r; [lia|]. apply rne_mono; nia. }
  assert (Hs' : s' = Zdigits2 (n' / d') - prec) by (unfold s', s, spacing in *; lia).
  assert (Hlo : Zdigits2 (n / d) <= s + prec) by (unfold s, spacing; lia).
  set (P := Zdigits2 (n' / d') - 1). unfold prec in *.
  assert (Hpos : 0 < n' / d').
  { destruct (decide (n' / d' = 0)) as [E|]; [|lia]. rewrite E in Hs'. cbn [Zdigits2] in Hs'. lia. }
  transitivity (2 ^ P).
  - replace (2 ^ P) with (2 ^ (P - s) * 2 ^ s) by (rewrite <- Z.pow_add_r by lia; f_equal; lia).
    apply Z.mul_le_mono_nonneg_r; [lia|]. apply rne_below; [done..|].
    rewrite <- Z.pow_add_r by lia. replace (P - s + s) with P by lia.
    assert (n / d < 2 ^ P) by (apply Zdigits2_lt; lia).
    pose proof (Z.mul_succ_div_gt n d Hd). unfold Z.succ in *. nia.
  - replace (2 ^ P) with (2 ^ (P - s') * 2 ^ s') by (rewrite <- Z.pow_add_r by lia; f_equal; lia).
    apply Z.mul_le_mono_nonneg_r; [lia|]. apply rne_above; [lia..|].
    rewrite <- Z.pow_add_r by lia. replace (P - s' + s') with P by lia.
    destruct (Zdigits2_bounds _ Hpos) as ((Hb & _) & _). fold P in Hb.
    pose proof (Z.mul_div_le n' d' Hd'). nia.
Qed.

Lemma rounded_nonneg n d : 0 <= n → 0 < d → 0 <= rounded n d.
Proof.
  intros Hn Hd. unfold rounded. pose proof (spacing_nonneg (n / d)) as Hs.
  pose proof (Z.pow_pos_nonneg 2 _ ltac:(lia) Hs). pose proof (rne_bounds n (d * 2 ^ spacing (n / d)) ltac:(nia)).
  pose proof (Z.div_pos n (d * 2 ^ spacing (n / d)) Hn ltac:(nia)). nia.
Qed.

(** ** The value of a double *)

Definition sign (x : double) : bool :=
  match x with S754_zero s | S754_infinity s | S754_finite s _ _ => s | S754_nan => false end.

(** In units of 2^-[K]; an infinity is the first power of two out of range. *)
Definition magnitude (x : double) : Z :=
  match x with
  | S754_finite _ m e => Z.pos m * 2 ^ (e + K)
  | S754_infinity _ => top
  | _ => 0
  end.

Definition fixed (x : double) : Z := if sign x then - magnitude x else magnitude x.

(** A number: canonical, and not a NaN. *)
Definition number (x : double) : Prop := valid_binary prec emax x = true ∧ x ≠ S754_nan.

(** A number of magnitude [v] and sign [s]. *)
Definition rounds_to (x : double) (s : bool) (v : Z) : Prop :=
  number x ∧ sign x = s ∧ magnitude x = Z.min v top.

Lemma fexp_spacing z : K + fexp prec emax z = Z.max (z + K - prec) (K + emin prec emax).
Proof. unfold fexp. lia. Qed.

(** The rounding of a located mantissa: [n / (d * 2^(e + K))] with the
    exponent [e] not above the one it will be rounded to. *)
Lemma spacing_located n d e :
  0 <= n → 0 < d → 0 <= e + K →
  let m := n / (d * 2 ^ (e + K)) in
  e <= fexp prec emax (Zdigits2 m + e) → spacing (n / d) = K + fexp prec emax (Zdigits2 m + e).
Proof.
  intros Hn Hd He m Hexp. pose proof (Z.pow_pos_nonneg 2 (e + K) ltac:(lia) He).
  assert (Hm : m = n / d / 2 ^ (e + K)) by (unfold m; by rewrite Z.div_div by lia).
  assert (0 <= n / d) by (apply Z.div_pos; lia).
  rewrite fexp_spacing. unfold spacing. destruct (decide (m = 0)) as [E|E].
  - rewrite E in *. cbn [Zdigits2] in *.
    assert (Zdigits2 (n / d) <= e + K).
    { apply Zdigits2_lt; [done..|]. symmetry in Hm. apply Z.div_small_iff in Hm; lia. }
    unfold fexp, prec in *. change (emin 53 emax) with (-1074) in *. unfold K in *. lia.
  - assert (0 < m) by (assert (0 <= m) by (rewrite Hm; apply Z.div_pos; lia); lia).
    rewrite (Zdigits2_div (n / d) (e + K)) by (rewrite <- ?Hm; lia). rewrite <- Hm. f_equal; lia.
Qed.

(** The last step of the rounding: a canonical mantissa becomes a double. *)
Definition packed (s : bool) (m e : Z) : double :=
  match m with
  | Z0 => S754_zero s
  | Z.pos m => if e <=? emax - prec then S754_finite s m e else S754_infinity s
  | _ => S754_nan
  end.

Lemma packed_rounds s m e :
  0 <= m < 2 ^ prec → emin prec emax <= e → (emin prec emax < e → 2 ^ (prec - 1) <= m) →
  rounds_to (packed s m e) s (m * 2 ^ (e + K)).
Proof.
  change (emin prec emax) with (-1074). unfold prec. intros Hm He Hcan.
  destruct m as [|m|m]; [by repeat split| |lia]. cbn [packed].
  destruct (Z.leb_spec e (emax - prec)) as [Hle|Hgt]; unfold emax, prec in *.
  - assert (Hd : fexp 53 1024 (Zdigits2 (Z.pos m) + e) = e).
    { unfold fexp. change (emin 53 1024) with (-1074).
      assert (Zdigits2 (Z.pos m) <= 53) by (apply Zdigits2_lt; lia).
      destruct (decide (e = -1074)) as [->|]; [lia|].
      destruct (Z.le_gt_cases (Zdigits2 (Z.pos m)) 52) as [Hc|]; [|lia].
      apply Zdigits2_lt in Hc; [|lia..]. lia. }
    split; [|split]; [split; [|done]|done|].
    + cbn [valid_binary]. unfold bounded, canonical_mantissa.
      apply andb_true_intro. split; [|by apply Z.leb_le]. apply Z.eqb_eq. exact Hd.
    + cbn [magnitude]. rewrite Z.min_l; [done|]. unfold top, emax.
      transitivity (2 ^ 53 * 2 ^ (e + K)).
      * apply Z.mul_le_mono_nonneg_r; [apply Z.pow_nonneg|]; lia.
      * rewrite <- Z.pow_add_r by (unfold K; lia). apply Z.pow_le_mono_r; lia.
  - split; [|split]; [by split|done|]. cbn [magnitude]. rewrite Z.min_r; [done|]. unfold top, emax.
    transitivity (2 ^ 52 * 2 ^ (e + K)).
    + rewrite <- Z.pow_add_r by (unfold K; lia). apply Z.pow_le_mono_r; unfold K; lia.
    + apply Z.mul_le_mono_nonneg_r; [apply Z.pow_nonneg|]; lia.
Qed.

Lemma shr_nonpos mrs e k : k <= 0 → shr mrs e k = (mrs, e).
Proof. by destruct k. Qed.

(** Renormalizing the rounded mantissa: it has at most one digit too many. *)
Lemma renormalize s m e :
  0 <= m <= 2 ^ prec → emin prec emax <= e → (emin prec emax < e → 2 ^ (prec - 1) <= m) →
  rounds_to (let '(mrs, e') := shr_fexp prec emax m e loc_Exact in packed s (shr_m mrs) e') s
    (m * 2 ^ (e + K)).
Proof.
  intros Hm He Hcan. unfold shr_fexp. destruct (decide (m = 2 ^ prec)) as [->|Hne].
  - assert (Hk : fexp prec emax (Zdigits2 (2 ^ prec) + e) - e = 1).
    { unfold fexp. change (Zdigits2 (2 ^ prec)) with 54. change (emin prec emax) with (-1074) in *. unfold prec. lia. }
    rewrite Hk. change (shr (shr_record_of_loc (2 ^ prec) loc_Exact) e 1)
      with (Build_shr_record (2 ^ (prec - 1)) false false, e + 1). cbn [shr_m].
    replace (2 ^ prec * 2 ^ (e + K)) with (2 ^ (prec - 1) * 2 ^ (e + 1 + K)).
    + apply packed_rounds; [unfold prec; lia|lia|done].
    + change (emin prec emax) with (-1074) in *. unfold prec.
      rewrite <- !Z.pow_add_r by (unfold K; lia). f_equal. lia.
  - rewrite shr_nonpos; [by apply packed_rounds; [lia|..]|].
    assert (Zdigits2 m <= prec) by (apply Zdigits2_lt; unfold prec in *; lia).
    unfold fexp. lia.
Qed.

Lemma binary_round_aux_spec s m e l n d :
  0 <= n → 0 < d → 0 <= e + K → located (shr_record_of_loc m l) n (d * 2 ^ (e + K)) →
  e <= fexp prec emax (Zdigits2 m + e) →
  rounds_to (binary_round_aux prec emax s m e l) s (rounded n d).
Proof.
  intros Hn Hd He Hloc Hexp. pose proof (Z.pow_pos_nonneg 2 (e + K) ltac:(lia) He) as Hp.
  assert (Hm : m = n / (d * 2 ^ (e + K))) by (rewrite <- (lo_m _ _ _ Hloc); by destruct l as [|[]]).
  pose proof (spacing_located n d e Hn Hd He) as Hsp. cbv zeta in Hsp. rewrite <- Hm in Hsp. specialize (Hsp Hexp).
  set (e1 := fexp prec emax (Zdigits2 m + e)) in *.
  assert (Hmin : emin prec emax <= e1) by (unfold e1, fexp; lia).
  destruct (shr_located _ n (d * 2 ^ (e + K)) e (e1 - e) Hn ltac:(nia) ltac:(lia) Hloc) as [Hloc1 He1].
  rewrite <- Z.mul_assoc, <- Z.pow_add_r in Hloc1 by lia.
  replace (e + K + (e1 - e)) with (e1 + K) in Hloc1 by lia. replace (e + (e1 - e)) with e1 in He1 by lia.
  unfold binary_round_aux. unfold shr_fexp at 1. fold e1.
  destruct (shr (shr_record_of_loc m l) e (e1 - e)) as [mrs e1'] eqn:Eshr. cbn [fst snd] in *. subst e1'.
  pose proof (Z.pow_pos_nonneg 2 (e1 + K) ltac:(lia) ltac:(lia)) as Hp1.
  rewrite (round_located _ n (d * 2 ^ (e1 + K))) by (done || nia).
  unfold rounded. cbv zeta. rewrite Hsp, (Z.add_comm K e1).
  assert (Hq : 0 <= n / d) by (apply Z.div_pos; lia). clearbody e1.
  apply renormalize; [split|done|].
  - transitivity (n / (d * 2 ^ (e1 + K))); [apply Z.div_pos; nia|apply rne_bounds; nia].
  - apply rne_below; [done|lia|]. rewrite <- Z.pow_add_r by (unfold prec; lia).
    assert (n / d < 2 ^ (prec + (e1 + K))) by (apply Zdigits2_lt; unfold spacing, prec in *; lia).
    pose proof (Z.mul_succ_div_gt n d Hd). unfold Z.succ in *. nia.
  - intros Hlt. apply rne_above; [done|lia|]. rewrite <- Z.pow_add_r by (unfold prec; lia).
    assert (Hdig : Zdigits2 (n / d) = e1 + K + prec) by (unfold spacing in Hsp; lia).
    destruct (Zdigits2_bounds (n / d)) as ((Hb & _) & _).
    { destruct (decide (n / d = 0)) as [E|]; [|lia]. rewrite E in Hdig. cbn [Zdigits2] in Hdig. unfold prec in *. lia. }
    rewrite Hdig in Hb. replace (e1 + K + prec - 1) with (prec - 1 + (e1 + K)) in Hb by lia.
    pose proof (Z.mul_div_le n d Hd). nia.
Qed.

(** ** The operations, in terms of [fixed]

    [near n d]: the number nearest to the signed fraction [n / d]. *)
Definition near (n d : Z) : Z := Z.sgn n * Z.min (rounded (Z.abs n) d) top.

(** A finite number. *)
Definition finite (x : double) : Prop := number x ∧ isinf x = false.

Lemma top_pos : 0 < top.
Proof. done. Qed.

Lemma near_mono n d n' d' : 0 < d → 0 < d' → n * d' <= n' * d → near n d <= near n' d'.
Proof.
  intros Hd Hd' Hle. pose proof top_pos. unfold near.
  pose proof (rounded_nonneg (Z.abs n) d ltac:(lia) Hd). pose proof (rounded_nonneg (Z.abs n') d' ltac:(lia) Hd').
  assert (0 <= n → n * d' <= n' * d → rounded (Z.abs n) d <= rounded (Z.abs n') d')
    by (intros; apply rounded_mono; nia).
  assert (n' <= 0 → n <= 0 → n * d' <= n' * d → rounded (Z.abs n') d' <= rounded (Z.abs n) d)
    by (intros; apply rounded_mono; nia).
  destruct (Z.sgn_spec n) as [(? & ->)|[(? & ->)|(? & ->)]],
    (Z.sgn_spec n') as [(? & ->)|[(? & ->)|(? & ->)]]; try lia; nia.
Qed.

Lemma near_opp n d : near (- n) d = - near n d.
Proof. unfold near. rewrite Z.sgn_opp, Z.abs_opp. lia. Qed.

Lemma near_zero d : near 0 d = 0.
Proof. done. Qed.

(** A power of two is not changed, so it bounds what is rounded below it. *)
Lemma rounded_pow2 k : K + emin prec emax <= k → rounded (2 ^ k) 1 = 2 ^ k.
Proof.
  change (K + emin prec emax) with 3022. intros Hk.
  pose proof (Z.pow_pos_nonneg 2 k ltac:(lia) ltac:(lia)) as Hp.
  unfold rounded. cbv zeta. rewrite Z.div_1_r, Z.mul_1_l.
  assert (Hd : Zdigits2 (2 ^ k) = k + 1) by (rewrite Zdigits2_log2, Z.log2_pow2 by lia; done).
  pose proof (spacing_nonneg (2 ^ k)) as Hs0.
  assert (Hs : spacing (2 ^ k) <= k).
  { unfold spacing. rewrite Hd. change (K + emin prec emax) with 3022. unfold prec. lia. }
  replace (2 ^ k) with (2 ^ (k - spacing (2 ^ k)) * 2 ^ spacing (2 ^ k)) at 1
    by (rewrite <- Z.pow_add_r by lia; f_equal; lia).
  rewrite rne_exact by (apply Z.pow_pos_nonneg; lia).
  rewrite <- Z.pow_add_r by lia. f_equal. lia.
Qed.

Lemma near_bound n d k :
  0 < d → K + emin prec emax <= k → Z.abs n <= 2 ^ k * d → Z.abs (near n d) <= 2 ^ k.
Proof.
  intros Hd Hk Hn. pose proof top_pos. pose proof (rounded_nonneg (Z.abs n) d ltac:(lia) Hd).
  assert (rounded (Z.abs n) d <= 2 ^ k) by (rewrite <- rounded_pow2 by done; apply rounded_mono; lia).
  unfold near. destruct (Z.sgn_spec n) as [(? & ->)|[(? & ->)|(? & ->)]]; lia.
Qed.

Lemma near_sign n d : 0 < d → (0 <= n → 0 <= near n d) ∧ (n <= 0 → near n d <= 0).
Proof.
  intros Hd. pose proof top_pos. pose proof (rounded_nonneg (Z.abs n) d ltac:(lia) Hd). unfold near.
  destruct (Z.sgn_spec n) as [(? & ->)|[(? & ->)|(? & ->)]]; lia.
Qed.

Lemma rounds_to_fixed x s v :
  rounds_to x s v → fixed x = if s then - Z.min v top else Z.min v top.
Proof. intros (_ & Hs & Hm). unfold fixed. by rewrite Hs, Hm. Qed.

Lemma shl_align_spec m e e' :
  let '(mz, ez) := shl_align m e e' in
  ez <= e ∧ (e' <= e → ez = e') ∧ (e <= e' → ez = e) ∧ Z.pos mz = Z.pos m * 2 ^ (e - ez).
Proof.
  unfold shl_align. destruct (e' - e) as [|d|d] eqn:Ed.
  - assert (e' = e) by lia. subst. rewrite Z.sub_diag. lia.
  - rewrite Z.sub_diag. lia.
  - split_and!; [lia|done|lia|]. replace (e - e') with (Z.pos d) by lia.
    assert (H : ∀ k, Z.pos (Pos.iter xO m k) = Z.pos m * 2 ^ Z.pos k); [|apply H].
    intros k. induction k as [|k IH] using Pos.peano_ind; [cbn [Pos.iter]; lia|].
    rewrite Pos.iter_succ, Pos2Z.inj_xO, IH, Pos2Z.inj_succ, Z.pow_succ_r by lia. lia.
Qed.

Lemma shl_align_min m e e' :
  e' <= e → Z.pos (shl_align m e e').1 = Z.pos m * 2 ^ (e - e').
Proof.
  intros Hle. pose proof (shl_align_spec m e e') as H. destruct (shl_align m e e') as [mz ez].
  destruct H as (_ & H & _ & ?). by rewrite <- (H Hle).
Qed.

Lemma Zdigits2_shift m k : 0 <= k → Zdigits2 (Z.pos m * 2 ^ k) = Zdigits2 (Z.pos m) + k.
Proof.
  intros Hk. pose proof (Z.pow_pos_nonneg 2 k ltac:(lia) Hk).
  rewrite (Zdigits2_div _ k), Z.div_mul by (rewrite ?Z.div_mul; lia). done.
Qed.

(** An exact result [m * 2^e] becomes the nearest number. *)
Lemma binary_round_spec s m e :
  0 <= e + K → rounds_to (binary_round prec emax s m e) s (rounded (Z.pos m * 2 ^ (e + K)) 1).
Proof.
  intros He. unfold binary_round. change (Z.pos (digits2_pos m)) with (Zdigits2 (Z.pos m)).
  pose proof (shl_align_spec m e (fexp prec emax (Zdigits2 (Z.pos m) + e))) as H.
  destruct (shl_align m e _) as [mz ez]. destruct H as (H1 & H2 & H3 & H4).
  assert (Hez : 0 <= ez + K).
  { destruct (Z.le_ge_cases (fexp prec emax (Zdigits2 (Z.pos m) + e)) e) as [Hc|Hc]; [|rewrite H3 by done; lia].
    rewrite H2 by done. unfold fexp. change (emin prec emax) with (-1074). unfold K. lia. }
  pose proof (Z.pow_pos_nonneg 2 (ez + K) ltac:(lia) Hez).
  replace (Z.pos m * 2 ^ (e + K)) with (Z.pos mz * (1 * 2 ^ (ez + K))).
  2:{ rewrite H4, Z.mul_1_l, <- Z.mul_assoc, <- Z.pow_add_r by lia. do 2 f_equal. lia. }
  apply binary_round_aux_spec; [lia|lia|done| |].
  - apply located_exact. lia.
  - rewrite H4, Zdigits2_shift by lia. replace (Zdigits2 (Z.pos m) + (e - ez) + ez) with (Zdigits2 (Z.pos m) + e) by lia. lia.
Qed.

Lemma normalize_near m e :
  0 <= e + K →
  let x := binary_normalize prec emax m e false in
  number x ∧ fixed x = near (m * 2 ^ (e + K)) 1.
Proof.
  intros He x. unfold x, binary_normalize. pose proof (Z.pow_pos_nonneg 2 (e + K) ltac:(lia) He).
  destruct m as [|m|m]; [by split; [split|]|..]; pose proof (binary_round_spec false m e He) as Hp;
    pose proof (binary_round_spec true m e He) as Hn; unfold near.
  - split; [apply Hp|]. rewrite (rounds_to_fixed _ _ _ Hp), Z.sgn_pos, Z.abs_eq by lia. lia.
  - split; [apply Hn|]. rewrite (rounds_to_fixed _ _ _ Hn), Z.sgn_neg, Z.abs_neq by lia.
    replace (- (Z.neg m * 2 ^ (e + K))) with (Z.pos m * 2 ^ (e + K)) by lia. lia.
Qed.

Lemma of_int_near z : number (of_int z) ∧ fixed (of_int z) = near (z * 2 ^ K) 1.
Proof. exact (normalize_near z 0 ltac:(done)). Qed.

Lemma number_finite s m e :
  number (S754_finite s m e) →
  -1074 <= e <= 971 ∧ Zdigits2 (Z.pos m) <= prec ∧ (-1074 < e → Zdigits2 (Z.pos m) = prec).
Proof.
  intros [Hv _]. cbn [valid_binary] in Hv. unfold bounded, canonical_mantissa, fexp in Hv.
  change (emin prec emax) with (-1074) in Hv. change (emax - prec) with 971 in Hv.
  change (Z.pos (digits2_pos m)) with (Zdigits2 (Z.pos m)) in Hv.
  apply andb_true_iff in Hv as [H1 H2]. apply Z.eqb_eq in H1. apply Z.leb_le in H2. lia.
Qed.

Lemma fixed_finite s m e : fixed (S754_finite s m e) = cond_Zopp s (Z.pos m) * 2 ^ (e + K).
Proof. unfold fixed. cbn [sign magnitude]. destruct s; cbn [cond_Zopp]; lia. Qed.

Lemma magnitude_below_top x : finite x → 0 <= magnitude x < top.
Proof.
  intros [Hn Hi]. destruct x as [s|s| |s m e]; try done. apply number_finite in Hn as ((? & ?) & Hd & _).
  apply Zdigits2_lt in Hd; [|done..]. cbn [magnitude].
  pose proof (Z.pow_pos_nonneg 2 (e + K) ltac:(lia) ltac:(unfold K; lia)). split; [lia|].
  apply Z.lt_le_trans with (2 ^ prec * 2 ^ (e + K)); [nia|].
  rewrite <- Z.pow_add_r by (unfold K, prec; lia). apply Z.pow_le_mono_r; unfold prec, emax; lia.
Qed.

(** [x + y] and [x - y] of finite numbers. *)
Lemma aligned_sum s m e s' m' e' :
  -1074 <= e → -1074 <= e' → let ez := Z.min e e' in
  let m1 := Z.pos (shl_align m e ez).1 in let m2 := Z.pos (shl_align m' e' ez).1 in
  0 <= ez + K
  ∧ (cond_Zopp s m1 + cond_Zopp s' m2) * 2 ^ (ez + K) = cond_Zopp s (Z.pos m) * 2 ^ (e + K) + cond_Zopp s' (Z.pos m') * 2 ^ (e' + K)
  ∧ (cond_Zopp s m1 - cond_Zopp s' m2) * 2 ^ (ez + K) = cond_Zopp s (Z.pos m) * 2 ^ (e + K) - cond_Zopp s' (Z.pos m') * 2 ^ (e' + K).
Proof.
  intros He He' ez m1 m2. unfold m1, m2. rewrite !shl_align_min by lia.
  replace (e + K) with (e - ez + (ez + K)) by lia. replace (e' + K) with (e' - ez + (ez + K)) by lia.
  assert (0 <= ez + K) by (unfold K; lia). rewrite !(Z.pow_add_r 2 _ (ez + K)) by lia.
  split; [done|]. destruct s, s'; cbn [cond_Zopp]; lia.
Qed.

(** A finite number is the nearest to itself. *)
Lemma near_fixed x : finite x → near (fixed x) 1 = fixed x.
Proof.
  intros Hf. pose proof (magnitude_below_top x Hf) as Hm. destruct Hf as [Hn Hi].
  destruct x as [s|s| |s m e]; try done; [by destruct s|].
  apply number_finite in Hn as ((? & ?) & Hd & Hc). cbn [magnitude] in Hm.
  pose proof (Z.pow_pos_nonneg 2 (e + K) ltac:(lia) ltac:(unfold K; lia)) as Hp.
  assert (Hr : rounded (Z.pos m * 2 ^ (e + K)) 1 = Z.pos m * 2 ^ (e + K)).
  { unfold rounded. cbv zeta. rewrite Z.div_1_r, Z.mul_1_l.
    assert (Hs : spacing (Z.pos m * 2 ^ (e + K)) = e + K).
    { unfold spacing. rewrite Zdigits2_shift by (unfold K; lia). change (emin prec emax) with (-1074). lia. }
    by rewrite Hs, rne_exact by done. }
  rewrite fixed_finite. unfold near. destruct s; cbn [cond_Zopp].
  - rewrite Z.sgn_neg, Z.abs_neq, Z.mul_opp_l, Z.opp_involutive, Hr by lia. lia.
  - rewrite Z.sgn_pos, Z.abs_eq, Hr by lia. lia.
Qed.

Lemma fixed_zero s : fixed (S754_zero s) = 0.
Proof. by destruct s. Qed.

Lemma number_opp s m e : number (S754_finite s m e) → number (S754_finite (negb s) m e).
Proof. intros [H _]. by split. Qed.

Lemma dadd_near x y :
  finite x → finite y → number (dadd x y) ∧ fixed (dadd x y) = near (fixed x + fixed y) 1.
Proof.
  intros Fx Fy. pose proof (near_fixed x Fx) as Ex. pose proof (near_fixed y Fy) as Ey.
  destruct Fx as [Hx Ix], Fy as [Hy Iy]. unfold dadd.
  destruct x as [s|s| |s m e], y as [s'|s'| |s' m' e']; try discriminate; try (by destruct Hx); try (by destruct Hy); cbn [SFadd]; rewrite ?fixed_zero.
  - by destruct s, s'.
  - by rewrite Z.add_0_l.
  - by rewrite Z.add_0_r.
  - pose proof (number_finite _ _ _ Hx). pose proof (number_finite _ _ _ Hy).
    destruct (aligned_sum s m e s' m' e') as (Hk & Ha & _); [lia..|].
    rewrite !fixed_finite, <- Ha. by apply normalize_near.
Qed.

Lemma dsub_near x y :
  finite x → finite y → number (dsub x y) ∧ fixed (dsub x y) = near (fixed x - fixed y) 1.
Proof.
  intros Fx Fy. pose proof (near_fixed x Fx) as Ex. pose proof (near_fixed y Fy) as Ey.
  destruct Fx as [Hx Ix], Fy as [Hy Iy]. unfold dsub.
  destruct x as [s|s| |s m e], y as [s'|s'| |s' m' e']; try discriminate; try (by destruct Hx); try (by destruct Hy); cbn [SFsub]; rewrite ?fixed_zero.
  - by destruct s, s'.
  - split; [by apply number_opp|]. rewrite Z.sub_0_l, near_opp, Ey, !fixed_finite.
    destruct s'; cbn [cond_Zopp negb]; lia.
  - by rewrite Z.sub_0_r.
  - pose proof (number_finite _ _ _ Hx). pose proof (number_finite _ _ _ Hy).
    destruct (aligned_sum s m e s' m' e') as (Hk & _ & Ha); [lia..|].
    rewrite !fixed_finite, <- Ha. by apply normalize_near.
Qed.

Lemma cond_Zopp_sgn s m : Z.sgn (cond_Zopp s (Z.pos m)) = cond_Zopp s 1.
Proof. by destruct s. Qed.

Lemma dmul_near x y :
  finite x → finite y → number (dmul x y) ∧ fixed (dmul x y) = near (fixed x * fixed y) (2 ^ K).
Proof.
  intros [Hx Ix] [Hy Iy]. unfold dmul.
  destruct x as [s|s| |s m e], y as [s'|s'| |s' m' e']; try discriminate; try (by destruct Hx); try (by destruct Hy); cbn [SFmul];
    rewrite ?fixed_zero, ?Z.mul_0_r, ?near_zero.
  1-3: by destruct s, s'.
  pose proof (number_finite _ _ _ Hx) as (? & _). pose proof (number_finite _ _ _ Hy) as (? & _).
  assert (Hk : 0 <= e + e' + K) by (unfold K; lia).
  pose proof (Z.pow_pos_nonneg 2 K ltac:(lia) ltac:(done)) as HK.
  assert (Hpow : Z.pos (m * m') * (2 ^ K * 2 ^ (e + e' + K)) = Z.pos m * 2 ^ (e + K) * (Z.pos m' * 2 ^ (e' + K))).
  { rewrite Pos2Z.inj_mul, <- Z.pow_add_r by (unfold K; lia).
    replace (K + (e + e' + K)) with (e + K + (e' + K)) by lia. rewrite Z.pow_add_r by (unfold K; lia). lia. }
  pose proof (Z.pow_pos_nonneg 2 (e + e' + K) ltac:(lia) Hk).
  assert (Hloc : located (shr_record_of_loc (Z.pos (m * m')) loc_Exact)
    (Z.pos m * 2 ^ (e + K) * (Z.pos m' * 2 ^ (e' + K))) (2 ^ K * 2 ^ (e + e' + K)))
    by (rewrite <- Hpow; apply located_exact; nia).
  assert (Hexp : e + e' <= fexp prec emax (Zdigits2 (Z.pos (m * m')) + (e + e'))).
  { pose proof (number_finite _ _ _ Hx) as (_ & ? & ?). pose proof (number_finite _ _ _ Hy) as (_ & ? & ?).
    assert (Zdigits2 (Z.pos m) <= Zdigits2 (Z.pos (m * m'))) by (apply Zdigits2_mono; nia).
    assert (Zdigits2 (Z.pos m') <= Zdigits2 (Z.pos (m * m'))) by (apply Zdigits2_mono; nia).
    unfold fexp. change (emin prec emax) with (-1074). lia. }
  assert (Hr := λ Hn, binary_round_aux_spec (xorb s s') _ _ _ _ _ Hn HK Hk Hloc Hexp).
  specialize (Hr ltac:(rewrite <- Hpow; nia)).
  split; [apply Hr|]. rewrite (rounds_to_fixed _ _ _ Hr), !fixed_finite. unfold near.
  rewrite !Z.sgn_mul, !cond_Zopp_sgn, !Z.abs_mul.
  pose proof (Z.pow_pos_nonneg 2 (e + K) ltac:(lia) ltac:(unfold K; lia)).
  pose proof (Z.pow_pos_nonneg 2 (e' + K) ltac:(lia) ltac:(unfold K; lia)).
  rewrite !(Z.sgn_pos (2 ^ _)), !(Z.abs_eq (2 ^ _)) by lia.
  destruct s, s'; cbn [cond_Zopp xorb]; rewrite ?Z.abs_opp, !Z.abs_eq by lia; lia.
Qed.

(** The location of a remainder. *)
Lemma new_location_eq g r :
  new_location g r = if r =? 0 then loc_Exact else
    loc_Inexact (if Z.even g then 2 * r ?= g else match 2 * r + 1 ?= g with Gt => Gt | _ => Lt end).
Proof.
  unfold new_location, new_location_even, new_location_odd.
  change (IntDef.Z.eqb r 0) with (r =? 0). change (IntDef.Z.even g) with (Z.even g).
  by destruct (Z.even g), (r =? 0).
Qed.

Lemma location_compare g r : 0 < g → (if Z.even g then 2 * r ?= g else match 2 * r + 1 ?= g with Gt => Gt | _ => Lt end) = (2 * r ?= g).
Proof.
  intros Hg. destruct (Z.even g) eqn:He; [done|].
  assert (2 * r ≠ g) by (intros <-; by rewrite Z.even_mul in He).
  destruct (Z.compare_spec (2 * r) g), (Z.compare_spec (2 * r + 1) g); done || lia.
Qed.

Lemma new_location_located n g :
  0 <= n → 0 < g → located (shr_record_of_loc (n / g) (new_location g (n mod g))) n g.
Proof.
  intros Hn Hg. rewrite new_location_eq, location_compare by done.
  pose proof (Z.mod_pos_bound n g Hg) as Hb. destruct (Z.eqb_spec (n mod g) 0) as [E|E].
  - assert (H : n = n / g * g) by (pose proof (Z.div_mod n g ltac:(lia)); lia).
    rewrite H at 2. by apply located_exact.
  - set (r := n mod g) in *. split; fold r.
    + by destruct (_ ?= _).
    + destruct (Z.compare_spec (2 * r) g), (Z.leb_spec g (2 * r)); done || lia.
    + destruct (Z.compare_spec (2 * r) g), (Z.eqb_spec (2 * r) 0), (Z.eqb_spec (2 * r) g); done || lia.
Qed.

Lemma located_scale mrs n g c : 0 < g → 0 < c → located mrs n g → located mrs (n * c) (g * c).
Proof.
  intros Hg Hc [Hm Hr Hs]. split; rewrite ?Z.mul_mod_distr_r by lia.
  - by rewrite Z.div_mul_cancel_r by lia.
  - rewrite Hr. destruct (Z.leb_spec g (2 * (n mod g))), (Z.leb_spec (g * c) (2 * (n mod g * c))); done || nia.
  - rewrite Hs. f_equal. destruct (Z.eqb_spec (2 * (n mod g)) 0), (Z.eqb_spec (2 * (n mod g)) g),
      (Z.eqb_spec (2 * (n mod g * c)) 0), (Z.eqb_spec (2 * (n mod g * c)) (g * c)); done || nia.
Qed.

Lemma Zdigits2_quotient a b : 0 < a → 0 < b → Zdigits2 a - Zdigits2 b <= Zdigits2 (a / b).
Proof.
  intros Ha Hb. pose proof (Z.div_pos a b ltac:(lia) Hb) as Hq.
  pose proof (Zdigits2_nonneg (a / b)). destruct (Zdigits2_bounds b Hb) as ((_ & ?) & ?).
  assert (Hlt : a / b < 2 ^ Zdigits2 (a / b)) by (apply Zdigits2_lt; lia).
  assert (a < 2 ^ (Zdigits2 (a / b) + Zdigits2 b)).
  { rewrite Z.pow_add_r by lia. pose proof (Z.mul_succ_div_gt a b Hb). unfold Z.succ in *. nia. }
  assert (Zdigits2 a <= Zdigits2 (a / b) + Zdigits2 b) by (apply Zdigits2_lt; lia). lia.
Qed.

Lemma shifted m s :
  0 <= s → match s with Z0 => m | Z.pos _ => Z.shiftl m s | _ => 0 end = m * 2 ^ s.
Proof. destruct s; intros H; [lia|by rewrite Z.shiftl_mul_pow2|lia]. Qed.

(** The quotient: an exponent low enough for the rounding, and its location. *)
Lemma SFdiv_core_spec m1 e1 m2 e2 :
  -1074 <= e1 <= 971 → -1074 <= e2 <= 971 →
  ∃ q e l, SFdiv_core_binary prec emax (Z.pos m1) e1 (Z.pos m2) e2 = (q, e, l)
    ∧ 0 <= e + K ∧ e <= fexp prec emax (Zdigits2 q + e)
    ∧ located (shr_record_of_loc q l) (Z.pos m1 * 2 ^ (e1 + K) * 2 ^ K) (Z.pos m2 * 2 ^ (e2 + K) * 2 ^ (e + K)).
Proof.
  intros He1 He2. unfold SFdiv_core_binary.
  set (f := fexp prec emax (Zdigits2 (Z.pos m1) + e1 - (Zdigits2 (Z.pos m2) + e2))).
  set (e := Z.min f (e1 - e2)). set (s := e1 - e2 - e).
  assert (Hs : 0 <= s) by (unfold s, e; lia).
  assert (Hf : -1074 <= f) by (unfold f, fexp; change (emin prec emax) with (-1074); lia).
  assert (He : -2045 <= e) by (unfold e; lia).
  change (match s with Z0 => Z.pos m1 | Z.pos _ => IntDef.Z.shiftl (Z.pos m1) s | _ => 0 end)
    with (match s with Z0 => Z.pos m1 | Z.pos _ => Z.shiftl (Z.pos m1) s | _ => 0 end).
  rewrite shifted by done. set (m' := Z.pos m1 * 2 ^ s).
  assert (Hm' : 0 < m') by (unfold m'; pose proof (Z.pow_pos_nonneg 2 s ltac:(lia) Hs); lia).
  pose proof (Z.div_eucl_eq m' (Z.pos m2) ltac:(done)) as Hde.
  change (IntDef.Z.div_eucl m' (Z.pos m2)) with (Z.div_eucl m' (Z.pos m2)).
  assert (Hqr : Z.div_eucl m' (Z.pos m2) = (m' / Z.pos m2, m' mod Z.pos m2))
    by (unfold Z.div, Z.modulo; by destruct (Z.div_eucl _ _)).
  rewrite Hqr. exists (m' / Z.pos m2), e, (new_location (Z.pos m2) (m' mod Z.pos m2)).
  split; [done|]. split; [unfold K; lia|]. split.
  - assert (Hd : Zdigits2 m' - Zdigits2 (Z.pos m2) <= Zdigits2 (m' / Z.pos m2)) by (apply Zdigits2_quotient; lia).
    unfold m' in Hd at 1. rewrite Zdigits2_shift in Hd by done.
    assert (e <= f) by (unfold e; lia). unfold f, s, fexp in *. lia.
  - set (c := 2 ^ (e2 + e + 2 * K)).
    assert (Hc : 0 < c) by (apply Z.pow_pos_nonneg; unfold K; lia).
    replace (Z.pos m1 * 2 ^ (e1 + K) * 2 ^ K) with (m' * c).
    2:{ unfold m', c. rewrite <- !Z.mul_assoc, <- !Z.pow_add_r by (unfold K; lia). do 2 f_equal. unfold s. lia. }
    replace (Z.pos m2 * 2 ^ (e2 + K) * 2 ^ (e + K)) with (Z.pos m2 * c).
    2:{ unfold c. rewrite <- !Z.mul_assoc, <- !Z.pow_add_r by (unfold K; lia). do 2 f_equal. lia. }
    apply located_scale; [done..|]. apply new_location_located; lia.
Qed.

Lemma ddiv_near x y :
  finite x → finite y → 0 < fixed y →
  number (ddiv x y) ∧ fixed (ddiv x y) = near (fixed x * 2 ^ K) (fixed y).
Proof.
  intros [Hx Ix] [Hy Iy] Hpos. unfold ddiv.
  destruct y as [s'|s'| |s' m' e']; try done; try (by destruct Hy); [by rewrite fixed_zero in Hpos|].
  pose proof (number_finite _ _ _ Hy) as (? & _).
  assert (Hp : ∀ k, 0 <= k + K → 0 < 2 ^ (k + K)) by (intros; by apply Z.pow_pos_nonneg).
  pose proof (Hp e' ltac:(unfold K; lia)) as Hp'. pose proof (Z.pow_pos_nonneg 2 K ltac:(lia) ltac:(done)) as HK.
  assert (s' = false) as -> by (destruct s'; [rewrite fixed_finite in Hpos; cbn [cond_Zopp] in Hpos; lia|done]).
  destruct x as [s|s| |s m e]; try done; try (by destruct Hx); cbn [SFdiv].
  { rewrite !fixed_zero, Z.mul_0_l, near_zero. by destruct s. }
  pose proof (number_finite _ _ _ Hx) as (? & _). pose proof (Hp e ltac:(unfold K; lia)).
  destruct (SFdiv_core_spec m e m' e') as (q & ez & l & -> & Hez & Hexp & Hloc); [done..|].
  rewrite !fixed_finite in *. cbn [cond_Zopp] in *.
  assert (Hr := λ Hn Hd, binary_round_aux_spec (xorb s false) _ _ _ _ _ Hn Hd Hez Hloc Hexp).
  specialize (Hr ltac:(nia) ltac:(lia)).
  split; [apply Hr|]. rewrite (rounds_to_fixed _ _ _ Hr). unfold near.
  rewrite !Z.sgn_mul, cond_Zopp_sgn, !Z.abs_mul, !(Z.sgn_pos (2 ^ _)), !(Z.abs_eq (2 ^ _)) by lia.
  destruct s; cbn [cond_Zopp xorb]; rewrite ?Z.abs_opp, !Z.abs_eq by lia; lia.
Qed.

(** ** Comparisons *)

Lemma mantissa_order m e m' e' s s' :
  number (S754_finite s m e) → number (S754_finite s' m' e') → e < e' →
  Z.pos m * 2 ^ (e + K) < Z.pos m' * 2 ^ (e' + K).
Proof.
  intros H H' Hlt. apply number_finite in H as ((? & ?) & Hd & _). apply number_finite in H' as ((? & ?) & _ & Hc).
  apply Zdigits2_lt in Hd; [|done..]. destruct (Zdigits2_bounds (Z.pos m') ltac:(done)) as ((Hb & _) & _).
  rewrite Hc in Hb by lia. unfold prec in *.
  pose proof (Z.pow_pos_nonneg 2 (e + K) ltac:(lia) ltac:(unfold K; lia)).
  replace (e' + K) with (1 + (e' - e - 1) + (e + K)) by lia.
  rewrite (Z.pow_add_r 2 _ (e + K)), (Z.pow_add_r 2 1) by (unfold K; lia).
  pose proof (Z.pow_pos_nonneg 2 (e' - e - 1) ltac:(lia) ltac:(lia)).
  apply Z.lt_le_trans with (2 ^ 53 * 2 ^ (e + K)); [nia|].
  rewrite Z.mul_assoc. apply Z.mul_le_mono_nonneg_r; [lia|]. nia.
Qed.

Lemma compare_finite m e m' e' s s' :
  number (S754_finite s m e) → number (S754_finite s' m' e') →
  match e ?= e' with Lt => Lt | Gt => Gt | Eq => Z.pos m ?= Z.pos m' end
    = (Z.pos m * 2 ^ (e + K) ?= Z.pos m' * 2 ^ (e' + K)).
Proof.
  intros H H'. destruct (Z.compare_spec e e') as [<-|Hlt|Hgt].
  - apply number_finite in H as ((? & ?) & _).
    pose proof (Z.pow_pos_nonneg 2 (e + K) ltac:(lia) ltac:(unfold K; lia)).
    destruct (Z.compare_spec (Z.pos m) (Z.pos m')); symmetry; rewrite ?Z.compare_eq_iff, ?Z.compare_lt_iff, ?Z.compare_gt_iff; nia.
  - symmetry. apply Z.compare_lt_iff. by eapply mantissa_order.
  - symmetry. apply Z.compare_gt_iff. by eapply mantissa_order.
Qed.

Lemma SFcompare_fixed x y : number x → number y → SFcompare x y = Some (fixed x ?= fixed y).
Proof.
  intros Hx Hy. pose proof top_pos.
  assert (Hb : ∀ s m e, number (S754_finite s m e) → 0 < magnitude (S754_finite s m e) < top).
  { intros s m e H'. pose proof (magnitude_below_top (S754_finite s m e) (conj H' eq_refl)).
    apply number_finite in H' as ((? & ?) & _). cbn [magnitude] in *.
    pose proof (Z.pow_pos_nonneg 2 (e + K) ltac:(lia) ltac:(unfold K; lia)). nia. }
  pose proof (λ s m e H', Hb s m e H') as Hb'.
  destruct x as [s|s| |s m e], y as [s'|s'| |s' m' e']; try (by destruct Hx); try (by destruct Hy); cbn [SFcompare].
  all: try (specialize (Hb _ _ _ Hx)); try (specialize (Hb' _ _ _ Hy)).
  all: try (destruct s; try destruct s'; f_equal; symmetry; unfold fixed; cbn [sign magnitude] in *;
    rewrite ?Z.compare_eq_iff, ?Z.compare_lt_iff, ?Z.compare_gt_iff; lia).
  f_equal. pose proof (compare_finite m e m' e' s s' Hx Hy) as Hc.
  change (IntDef.Z.compare e e') with (e ?= e'). change (PosDef.Pos.compare_cont Eq m m') with (Z.pos m ?= Z.pos m').
  unfold fixed. cbn [sign magnitude] in *. destruct s, s'; symmetry.
  - rewrite Z.compare_opp, (Z.compare_antisym (Z.pos m * _)), <- Hc. by destruct (e ?= e').
  - apply Z.compare_lt_iff. lia.
  - apply Z.compare_gt_iff. lia.
  - by rewrite <- Hc.
Qed.

(** [<] and [<=] of numbers are those of their values. *)
Lemma SFltb_fixed x y : number x → number y → SFltb x y = (fixed x <? fixed y).
Proof. intros Hx Hy. unfold SFltb, Z.ltb. rewrite SFcompare_fixed by done. by destruct (_ ?= _). Qed.

Lemma SFleb_fixed x y : number x → number y → SFleb x y = (fixed x <=? fixed y).
Proof. intros Hx Hy. unfold SFleb, Z.leb. rewrite SFcompare_fixed by done. by destruct (_ ?= _). Qed.

Lemma dmax_fixed x y : number x → number y → number (dmax x y) ∧ fixed (dmax x y) = Z.max (fixed x) (fixed y).
Proof. intros Hx Hy. unfold dmax. rewrite SFltb_fixed by done. destruct (Z.ltb_spec (fixed x) (fixed y)); split; done || lia. Qed.

Lemma finite_fixed x : number x → finite x ↔ Z.abs (fixed x) < top.
Proof.
  intros Hx. split.
  - intros Hf. pose proof (magnitude_below_top x Hf). unfold fixed. destruct (sign x); lia.
  - intros H. split; [done|]. destruct x as [| s | |]; try done. destruct s; unfold fixed in H; cbn [sign magnitude] in H; lia.
Qed.

(** ** Square roots *)

Lemma sqrt_loc_located q r :
  located (shr_record_of_loc q (if r =? 0 then loc_Exact else loc_Inexact (if r <=? q then Lt else Gt)))
    (4 * q + (if r =? 0 then 0 else if r <=? q then 1 else 3)) 4.
Proof.
  set (ρ := if r =? 0 then 0 else if r <=? q then 1 else 3).
  assert (Hm : (4 * q + ρ) / 4 = q ∧ (4 * q + ρ) mod 4 = ρ).
  { split; [symmetry; apply (Z.div_unique_pos _ _ _ ρ)|symmetry; apply (Z.mod_unique_pos _ _ q)];
      unfold ρ; destruct (r =? 0), (r <=? q); lia. }
  destruct Hm as [Hm Hr]. split; rewrite ?Hr, ?Hm; unfold ρ; by destruct (r =? 0), (r <=? q).
Qed.

Lemma SFsqrt_core_spec m e :
  -1074 <= e <= 971 →
  ∃ q ρ e' l, SFsqrt_core_binary prec emax (Z.pos m) e = (q, e', l)
    ∧ -1074 <= e' ∧ e' <= fexp prec emax (Zdigits2 q + e')
    ∧ located (shr_record_of_loc q l) (4 * q + ρ) 4 ∧ 0 <= q ∧ 0 <= ρ <= 3
    ∧ 0 <= e - 2 * e' ∧ q * q <= Z.pos m * 2 ^ (e - 2 * e') ∧ (ρ ≠ 0 → q * q < Z.pos m * 2 ^ (e - 2 * e')).
Proof.
  intros He. unfold SFsqrt_core_binary.
  set (f := fexp prec emax (Z.div2 (Zdigits2 (Z.pos m) + e + 1))).
  change (IntDef.Z.div2 (IntDef.Z.add (IntDef.Z.add (Zdigits2 (Z.pos m)) e) 1))
    with (Z.div2 (Zdigits2 (Z.pos m) + e + 1)). fold f.
  change (IntDef.Z.min f (IntDef.Z.div2 e)) with (Z.min f (Z.div2 e)).
  set (e' := Z.min f (Z.div2 e)). set (s := e - 2 * e').
  change (match IntDef.Z.sub e (IntDef.Z.mul 2 e') with Z0 => Z.pos m | Z.pos _ => IntDef.Z.shiftl (Z.pos m) (IntDef.Z.sub e (IntDef.Z.mul 2 e')) | _ => 0 end)
    with (match s with Z0 => Z.pos m | Z.pos _ => Z.shiftl (Z.pos m) s | _ => 0 end).
  pose proof (Z.div_mod e 2 ltac:(done)). pose proof (Z.mod_pos_bound e 2 ltac:(done)).
  assert (Hs : 0 <= s) by (unfold s, e'; rewrite (Z.div2_div e); lia).
  rewrite shifted by done. pose proof (Z.pow_pos_nonneg 2 s ltac:(lia) Hs). set (m' := Z.pos m * 2 ^ s).
  change (IntDef.Z.sqrtrem m') with (Z.sqrtrem m').
  pose proof (Z.sqrtrem_spec m' ltac:(unfold m'; lia)) as Hq. destruct (Z.sqrtrem m') as [q r].
  destruct Hq as [Hq Hr]. exists q, (if r =? 0 then 0 else if r <=? q then 1 else 3), e'.
  exists (if r =? 0 then loc_Exact else loc_Inexact (if r <=? q then Lt else Gt)).
  split; [done|].
  assert (Hdig : Zdigits2 (Z.pos m) + s <= 2 * Zdigits2 q).
  { unfold m' in Hq. rewrite <- Zdigits2_shift by done. pose proof (Zdigits2_nonneg q).
    apply Zdigits2_lt; [lia..|]. fold m' in Hq. replace (2 * Zdigits2 q) with (Zdigits2 q + Zdigits2 q) by lia.
    rewrite Z.pow_add_r by done. assert (q < 2 ^ Zdigits2 q) by (apply Zdigits2_lt; lia). fold m'. nia. }
  assert (Hρ : 0 <= (if r =? 0 then 0 else if r <=? q then 1 else 3) <= 3) by (destruct (r =? 0), (r <=? q); lia).
  assert (Hne : (if r =? 0 then 0 else if r <=? q then 1 else 3) ≠ 0 → r ≠ 0) by (intros Hc ->; done).
  assert (Hsq : q * q <= m' ∧ (r ≠ 0 → q * q < m')) by lia. destruct Hsq as [Hsq Hlt].
  refine (conj _ (conj _ (conj _ (conj _ (conj Hρ (conj Hs (conj Hsq (λ H', Hlt (Hne H'))))))))); [..|lia].
  - unfold e', f, fexp. rewrite (Z.div2_div e). change (emin prec emax) with (-1074). lia.
  - transitivity f; [unfold e'; lia|]. unfold f, fexp. rewrite Z.div2_div.
    pose proof (Z.div_mod (Zdigits2 (Z.pos m) + e + 1) 2 ltac:(done)).
    pose proof (Z.mod_pos_bound (Zdigits2 (Z.pos m) + e + 1) 2 ltac:(done)). unfold s in Hdig. lia.
  - apply sqrt_loc_located.
Qed.

(** The root of a non-negative number is one, within the root of its bound. *)
Lemma dsqrt_spec x B :
  finite x → 0 <= fixed x → -1074 <= B → fixed x <= 2 ^ (2 * B + K) →
  number (dsqrt x) ∧ 0 <= fixed (dsqrt x) <= 2 ^ (B + K).
Proof.
  intros [Hx Ix] Hpos HB Hle. unfold dsqrt. pose proof top_pos.
  pose proof (Z.pow_pos_nonneg 2 (B + K) ltac:(lia) ltac:(unfold K; lia)) as HBK.
  destruct x as [s|s| |s m e]; try done; try (by destruct Hx); [cbn [SFsqrt]; rewrite fixed_zero; split; [done|lia]|].
  pose proof (number_finite _ _ _ Hx) as (? & _).
  pose proof (Z.pow_pos_nonneg 2 (e + K) ltac:(lia) ltac:(unfold K; lia)).
  assert (s = false) as -> by (destruct s; [rewrite fixed_finite in Hpos; cbn [cond_Zopp] in Hpos; lia|done]).
  cbn [SFsqrt]. destruct (SFsqrt_core_spec m e) as (q & ρ & e' & l & -> & He' & Hexp & Hloc & Hq & Hρ & Hs & Hle1 & Hlt); [done|].
  pose proof (Z.pow_pos_nonneg 2 (e' + K) ltac:(lia) ltac:(unfold K; lia)).
  apply (located_scale _ _ _ (2 ^ (e' + K))) in Hloc; [|done..].
  assert (Hn : 0 <= (4 * q + ρ) * 2 ^ (e' + K)) by nia.
  pose proof (binary_round_aux_spec false q e' l _ 4 Hn ltac:(done) ltac:(unfold K; lia) Hloc Hexp) as Hr.
  split; [apply Hr|]. rewrite (rounds_to_fixed _ _ _ Hr).
  pose proof (rounded_nonneg ((4 * q + ρ) * 2 ^ (e' + K)) 4 ltac:(nia) ltac:(lia)). split; [lia|].
  rewrite Z.min_le_iff. left. rewrite <- (rounded_pow2 (B + K)) by (change (K + emin prec emax) with (K + -1074); lia).
  apply rounded_mono; [nia|lia|lia|].
  rewrite fixed_finite in Hle. cbn [cond_Zopp] in Hle. set (m' := Z.pos m * 2 ^ (e - 2 * e')) in *.
  assert (Hm' : m' * 2 ^ (2 * e' + K) <= 2 ^ (2 * B + K)).
  { unfold m'. rewrite <- Z.mul_assoc, <- Z.pow_add_r by (unfold K; lia).
    by replace (e - 2 * e' + (2 * e' + K)) with (e + K) by lia. }
  pose proof (Z.pow_pos_nonneg 2 (e - 2 * e') ltac:(lia) Hs). pose proof (Z.pow_pos_nonneg 2 (2 * e' + K) ltac:(lia) ltac:(unfold K; lia)).
  assert (Hge : e' <= B).
  { destruct (Z.le_gt_cases e' B) as [|Hc]; [done|]. exfalso.
    assert (2 ^ (2 * B + K) < 2 ^ (2 * e' + K)) by (apply Z.pow_lt_mono_r; unfold K; lia). unfold m' in Hm'. nia. }
  assert (Hb : m' <= 2 ^ (B - e') * 2 ^ (B - e')).
  { rewrite <- Z.pow_add_r by lia. apply (Z.mul_le_mono_pos_r _ _ (2 ^ (2 * e' + K))); [done|].
    rewrite <- Z.pow_add_r by (unfold K; lia). by replace (B - e' + (B - e') + (2 * e' + K)) with (2 * B + K) by lia. }
  pose proof (Z.pow_pos_nonneg 2 (B - e') ltac:(lia) ltac:(lia)).
  replace (B + K) with (B - e' + (e' + K)) by lia. rewrite (Z.pow_add_r 2 (B - e')) by (unfold K; lia).
  assert (4 * q + ρ <= 2 ^ (B - e') * 4); [|nia].
  destruct (decide (ρ = 0)) as [->|Hne].
  - assert (q <= 2 ^ (B - e')) by (apply Z.square_le_simpl_nonneg; lia). lia.
  - specialize (Hlt Hne). assert (q < 2 ^ (B - e')) by (apply Z.square_lt_simpl_nonneg; lia). lia.
Qed.

Lemma fixed_opp x : fixed (SFopp x) = - fixed x.
Proof. destruct x as [[]|[]| |[] m e]; unfold fixed; cbn [SFopp sign magnitude negb]; lia. Qed.

Lemma number_opp_all x : number x → number (SFopp x).
Proof. intros [H1 H2]. by destruct x; split. Qed.

(** What is at least a power of two stays so. *)
Lemma near_lower n d k :
  0 < d → K + emin prec emax <= k → 2 ^ k <= top → 2 ^ k * d <= n → 2 ^ k <= near n d.
Proof.
  intros Hd Hk Ht Hn. pose proof (Z.pow_pos_nonneg 2 k ltac:(lia)) as Hp.
  assert (rounded (2 ^ k) 1 <= rounded n d)
    by (apply rounded_mono; change (K + emin prec emax) with 3022 in *; nia).
  rewrite rounded_pow2 in H by done. change (K + emin prec emax) with 3022 in *.
  unfold near. rewrite Z.sgn_pos, Z.abs_eq by nia. lia.
Qed.

Lemma near_one n d : 0 < d → 2 ^ K * d <= n → 2 ^ K <= near n d.
Proof.
  intros Hd Hn. apply near_lower; [exact Hd|vm_compute; discriminate|vm_compute; discriminate|exact Hn].
Qed.

(** *** Bounded numbers *)

(** A number of magnitude [2^k] at most; none of these operations overflows. *)
Definition within (k : Z) (x : double) : Prop := number x ∧ Z.abs (fixed x) <= 2 ^ (k + K).

Lemma within_finite k x : k < emax → within k x → finite x.
Proof.
  intros Hk [Hn Hb]. apply finite_fixed; [done|]. apply Z.le_lt_trans with (1 := Hb).
  apply Z.pow_lt_mono_r; unfold K, emax in *; lia.
Qed.

Lemma within_weaken k k' x : 0 <= k <= k' → within k x → within k' x.
Proof. intros Hk [Hn Hb]. split; [done|]. etrans; [exact Hb|]. apply Z.pow_le_mono_r; unfold K; lia. Qed.

Lemma near_within k n d : 0 <= k → 0 < d → Z.abs n <= 2 ^ (k + K) * d → Z.abs (near n d) <= 2 ^ (k + K).
Proof. intros Hk Hd Hn. apply near_bound; [done| |done]. change (K + emin prec emax) with (-1074 + K). lia. Qed.

Lemma of_int_within k z : 0 <= k → Z.abs z <= 2 ^ k → within k (of_int z).
Proof.
  intros Hk Hz. destruct (of_int_near z) as [Hn Hf]. split; [done|]. rewrite Hf. apply near_within; [done..|].
  rewrite Z.pow_add_r by (unfold K; lia). pose proof (Z.pow_pos_nonneg 2 K ltac:(lia) ltac:(done)).
  rewrite Z.abs_mul, (Z.abs_eq (2 ^ K)) by lia. nia.
Qed.

Lemma dadd_within k x y : 0 <= k < emax → within k x → within k y → within (k + 1) (dadd x y).
Proof.
  intros Hk Hx Hy. destruct (dadd_near x y) as [Hn Hf]; [by eapply within_finite; [|done]; lia..|].
  split; [done|]. rewrite Hf. apply near_within; [lia..|].
  replace (k + 1 + K) with (1 + (k + K)) by lia. rewrite Z.pow_add_r by (unfold K; lia).
  destruct Hx as [_ Hx], Hy as [_ Hy]. lia.
Qed.

Lemma dsub_within k x y : 0 <= k < emax → within k x → within k y → within (k + 1) (dsub x y).
Proof.
  intros Hk Hx Hy. destruct (dsub_near x y) as [Hn Hf]; [by eapply within_finite; [|done]; lia..|].
  split; [done|]. rewrite Hf. apply near_within; [lia..|].
  replace (k + 1 + K) with (1 + (k + K)) by lia. rewrite Z.pow_add_r by (unfold K; lia).
  destruct Hx as [_ Hx], Hy as [_ Hy]. lia.
Qed.

Lemma dmul_within k k' x y :
  0 <= k < emax → 0 <= k' < emax → within k x → within k' y → within (k + k') (dmul x y).
Proof.
  intros Hk Hk' Hx Hy. destruct (dmul_near x y) as [Hn Hf]; [by eapply within_finite; [|done]; lia..|].
  split; [done|]. rewrite Hf. apply near_within; [lia|by apply Z.pow_pos_nonneg|].
  rewrite <- Z.pow_add_r by (unfold K; lia). replace (k + k' + K + K) with (k + K + (k' + K)) by lia.
  rewrite Z.pow_add_r by (unfold K; lia). rewrite Z.abs_mul.
  destruct Hx as [_ Hx], Hy as [_ Hy]. apply Z.mul_le_mono_nonneg; lia.
Qed.

(** Division by one or more. *)
Lemma ddiv_within k x y :
  0 <= k < emax → within k x → finite y → 2 ^ K <= fixed y → within k (ddiv x y).
Proof.
  intros Hk Hx Hy Hy1. pose proof (Z.pow_pos_nonneg 2 K ltac:(lia) ltac:(done)) as HK.
  destruct (ddiv_near x y) as [Hn Hf]; [by eapply within_finite; [|done]; lia|done|lia|].
  split; [done|]. rewrite Hf. destruct Hx as [_ Hx]. apply near_within; [lia|lia|].
  rewrite Z.abs_mul, (Z.abs_eq (2 ^ K)) by lia. apply Z.mul_le_mono_nonneg; lia.
Qed.

(** ** [std::to_string] of a double: [%f], six decimals, exactly rounded *)

Definition millionths (m : positive) (e : Z) : Z :=
  if 0 <=? e then Z.pos m * 10 ^ 6 * 2 ^ e else rne (Z.pos m * 10 ^ 6) (2 ^ (- e)).

Definition decimals (n : Z) : bytes :=
  let s := to_string_u (n mod 10 ^ 6) in
  to_string_u (n / 10 ^ 6) ++ str "." ++ replicate (6 - length s) "0"%char ++ s.

Definition to_string_d (x : double) : bytes :=
  (if sign x then str "-" else [])
  ++ match x with
     | S754_nan => str "nan"
     | S754_infinity _ => str "inf"
     | S754_zero _ => decimals 0
     | S754_finite _ m e => decimals (millionths m e)
     end.

Example to_string_d_ex1 : to_string_d (literal 1 3) = str "0.333333".
Proof. vm_compute. reflexivity. Qed.

Example to_string_d_ex2 : to_string_d (SFopp (ddiv (of_int 2000001) (of_int 16))) = str "-125000.062500".
Proof. vm_compute. reflexivity. Qed.

(** Nothing but visible characters. *)
Definition visible (c : ascii) : bool := (32 <? ord c) && (ord c <? 127).

Lemma digits_visible s : Forall (λ c, is_digit c = true) s → Forall (λ c, visible c = true) s.
Proof.
  intros H. eapply Forall_impl; [exact H|]. intros c Hc. unfold is_digit, visible in *. cbv beta in Hc. lia.
Qed.

Lemma to_string_u_visible n : 0 <= n → Forall (λ c, visible c = true) (to_string_u n).
Proof. intros Hn. apply digits_visible. by destruct (to_string_u_spec n Hn) as (_ & ? & _). Qed.

Lemma to_string_d_visible x : Forall (λ c, visible c = true) (to_string_d x).
Proof.
  assert (Hdec : ∀ n, 0 <= n → Forall (λ c, visible c = true) (decimals n)).
  { intros n Hn. unfold decimals. rewrite !Forall_app. split_and!.
    - apply to_string_u_visible. by apply Z.div_pos.
    - by repeat constructor.
    - by apply Forall_replicate.
    - apply to_string_u_visible. by apply Z.mod_pos_bound. }
  unfold to_string_d. apply Forall_app. split; [destruct (sign x); by repeat constructor|].
  destruct x as [s|s| |s m e]; [by apply Hdec|by repeat constructor..|]. apply Hdec. unfold millionths.
  destruct (Z.leb_spec 0 e); [apply Z.mul_nonneg_nonneg; [lia|by apply Z.pow_nonneg]|].
  pose proof (Z.pow_pos_nonneg 2 (- e) ltac:(lia) ltac:(lia)).
  etrans; [|apply rne_bounds; done]. apply Z.div_pos; lia.
Qed.
