(* ===== verification/Resp.v ===== *)
(** * The RESP wire format (src/core/resp.h)

    The parser shared by the network and the AOF recovery, the inline
    request splitter, and the encoders of the two writers ([encode] of the
    replicator, [bulk_string] of the replies). A buffer is a byte list and a
    position a natural number, as the source works on an offset. *)

From S2P Require Import Prelude FsUtil.

(** ** Outcomes *)

Inductive status (A : Type) :=
  | Complete (a : A)
  | NeedMore
  | Malformed.
Arguments Complete {A} a.
Arguments NeedMore {A}.
Arguments Malformed {A}.

Definition sbind {A B} (m : status A) (k : A → status B) : status B :=
  match m with
  | Complete a => k a
  | NeedMore => NeedMore
  | Malformed => Malformed
  end.

Notation "'let?' ' x ':=' m 'in' k" := (sbind m (λ x, k))
  (at level 10, x strict pattern, m at level 200, k at level 200) : st_scope.

Definition kMaxArgs : Z := 1024 * 1024.
Definition kMaxBulk : Z := 512 * 1024 * 1024.
Definition kMaxHeader : nat := 32.
Definition kMaxInline : nat := 64 * 1024.

(** [window.find] of CRLF, and of one character. *)
Fixpoint find_crlf (s : bytes) : option nat :=
  match s with
  | c :: ((d :: _) as s') =>
      if decide (c = CR ∧ d = LF) then Some 0%nat else S <$> find_crlf s'
  | _ => None
  end.

Fixpoint find_char (ch : ascii) (s : bytes) : option nat :=
  match s with
  | [] => None
  | c :: s => if decide (c = ch) then Some 0%nat else S <$> find_char ch s
  end.

(** [std::from_chars] into a [uint64_t], base ten: the longest prefix of
    digits; [None] when there is none or its value does not fit. *)
Fixpoint span_digits (s : bytes) : bytes :=
  match s with
  | c :: s => if is_digit c then c :: span_digits s else []
  | [] => []
  end.

Definition from_chars_u64 (s : bytes) : option (Z * nat) :=
  let ds := span_digits s in
  if bool_decide (ds = []) then None
  else if UINT64_MAX <? decval ds then None
  else Some (decval ds, length ds).

(** ** The array parser *)

(** The [header] lambda: a prefix character, a decimal number, CRLF. The
    search for CRLF stays within [kMaxHeader] bytes. *)
Definition header (buf : bytes) (prefix : ascii) (max : Z) (p : nat) : status (Z * nat) :=
  match buf !! p with
  | None => NeedMore
  | Some c =>
      if decide (c ≠ prefix) then Malformed else
      let window := take kMaxHeader (drop p buf) in
      match find_crlf window with
      | None => if (length window <? kMaxHeader)%nat then NeedMore else Malformed
      | Some crlf =>
          let digits := take (crlf - 1) (drop 1 window) in
          match from_chars_u64 digits with
          | Some (out, parsed) =>
              if (parsed =? length digits)%nat && (out <=? max)
              then Complete (out, (p + crlf + 2)%nat) else Malformed
          | None => Malformed
          end
      end
  end.

(** The loop over the [count] bulk strings. *)
Fixpoint parse_bulks (buf : bytes) (count : nat) (p : nat) : status (list bytes * nat) :=
  match count with
  | O => Complete ([], p)
  | S count =>
      let? '(n, p) := header buf "$"%char kMaxBulk p in
      if Z.of_nat (length buf - p) <? n + 2 then NeedMore else
      let l := Z.to_nat n in
      if decide (buf !! (p + l)%nat = Some CR ∧ buf !! (p + l + 1)%nat = Some LF) then
        let? '(args, e) := parse_bulks buf count (p + l + 2) in
        Complete (take l (drop p buf) :: args, e)
      else Malformed
  end.

(** [resp::parse]: [Complete (args, end)]. *)
Definition parse (buf : bytes) (pos : nat) : status (list bytes * nat) :=
  let? '(count, p) := header buf "*"%char kMaxArgs pos in
  parse_bulks buf (Z.to_nat count) p.

(** ** Inline requests *)

(** [isspace] and [isxdigit] in the C locale. *)
Definition space (c : ascii) : bool := (ord c =? 32) || ((9 <=? ord c) && (ord c <=? 13)).

Definition hex (c : ascii) : bool :=
  is_digit c || ((65 <=? ord c) && (ord c <=? 70)) || ((97 <=? ord c) && (ord c <=? 102)).

Definition hex_val (c : ascii) : Z :=
  if is_digit c then ord c - 48 else if ord c <=? 70 then ord c - 55 else ord c - 87.

Definition hex_byte (h l : ascii) : ascii := chr (16 * hex_val h + hex_val l).

Definition DQUOTE : ascii := chr 34.
Definition SQUOTE : ascii := chr 39.
Definition BACKSLASH : ascii := chr 92.

(** The escape table of double quotes; any other character stands for itself. *)
Definition escape (next : ascii) : ascii :=
  if decide (next = "n"%char) then chr 10
  else if decide (next = "r"%char) then chr 13
  else if decide (next = "t"%char) then chr 9
  else if decide (next = "b"%char) then chr 8
  else if decide (next = "a"%char) then chr 7
  else next.

(** The inner [for]: one argument, from the characters left. [None]:
    unbalanced quotes. The result is the argument and what is left of the
    line, starting at the separator. *)
Fixpoint scan_arg (quote : option ascii) (arg s : bytes) : option (bytes * bytes) :=
  match s with
  | [] => match quote with None => Some (arg, []) | Some _ => None end
  | ch :: t =>
      match quote with
      | None =>
          if space ch then Some (arg, s)
          else if decide (ch = DQUOTE ∨ ch = SQUOTE) then scan_arg (Some ch) arg t
          else scan_arg None (arg ++ [ch]) t
      | Some q =>
          if decide (ch = q) then
            match t with
            | n :: _ => if space n then scan_arg None arg t else None
            | [] => scan_arg None arg t
            end
          else if decide (ch = BACKSLASH) then
            match t with
            | [] => scan_arg quote (arg ++ [ch]) t
            | next :: t' =>
                if decide (q = SQUOTE) then
                  scan_arg quote
                    (arg ++ (if decide (next ≠ SQUOTE) then [BACKSLASH] else []) ++ [next]) t'
                else
                  match t' with
                  | h :: l :: t'' =>
                      if bool_decide (next = "x"%char) && hex h && hex l
                      then scan_arg quote (arg ++ [hex_byte h l]) t''
                      else scan_arg quote (arg ++ [escape next]) t'
                  | _ => scan_arg quote (arg ++ [escape next]) t'
                  end
            end
          else scan_arg quote (arg ++ [ch]) t
      end
  end.

Fixpoint skip_spaces (s : bytes) : bytes :=
  match s with
  | c :: t => if space c then skip_spaces t else s
  | [] => []
  end.

(** The outer [while]: every round consumes a character, so the length of
    the line is enough fuel. *)
Fixpoint split_loop (fuel : nat) (line : bytes) : option (list bytes) :=
  match fuel with
  | O => None
  | S fuel =>
      match skip_spaces line with
      | [] => Some []
      | rest =>
          '(arg, rest) ← scan_arg None [] rest;
          args ← split_loop fuel rest;
          Some (arg :: args)
      end
  end.

Definition split_inline (line : bytes) : option (list bytes) :=
  split_loop (S (length line)) line.

(** [resp::parse_request]: a RESP array, or one line ended by LF or CRLF. *)
Definition strip_cr (line : bytes) : bytes :=
  match last line with
  | Some c => if decide (c = CR) then take (length line - 1) line else line
  | None => line
  end.

Definition parse_request (buf : bytes) (pos : nat) : status (list bytes * nat) :=
  match buf !! pos with
  | None => parse buf pos
  | Some c =>
      if decide (c = "*"%char) then parse buf pos else
      let window := take kMaxInline (drop pos buf) in
      match find_char LF window with
      | None => if (length window <? kMaxInline)%nat then NeedMore else Malformed
      | Some nl =>
          match split_inline (strip_cr (take nl window)) with
          | None => Malformed
          | Some args => Complete (args, (pos + nl + 1)%nat)
          end
      end
  end.

(** ** Encoders *)

(** One bulk string: [Database::bulk_string], and the [bulk] lambda of
    [AOFManager::encode_record]. *)
Definition bulk_string (payload : bytes) : bytes :=
  str "$" ++ to_string_u (len payload) ++ CRLF ++ payload ++ CRLF.

(** [encode] of the replicator: an array of bulk strings. *)
Definition bulks (args : list bytes) : bytes := mjoin (bulk_string <$> args).

Definition encode (args : list bytes) : bytes :=
  str "*" ++ to_string_u (len args) ++ CRLF ++ bulks args.

Arguments bulk_string : simpl never.
Arguments bulks : simpl never.
Arguments encode : simpl never.

Example parse_ex1 :
  parse (encode [str "SET"; []; str "v" ++ CRLF ++ str "l"]) 0
  = Complete ([str "SET"; []; str "v" ++ CRLF ++ str "l"], 29%nat).
Proof. vm_compute. reflexivity. Qed.

Example split_ex1 :
  split_inline (str "SET k " ++ [DQUOTE] ++ str "a\x41\n " ++ [DQUOTE] ++ str " 'it\'s'")
  = Some [str "SET"; str "k"; str "aA" ++ [LF] ++ str " "; str "it's"].
Proof. vm_compute. reflexivity. Qed.

(** ** Lemmas: searching *)

Lemma find_crlf_cons c d s :
  find_crlf (c :: d :: s)
  = if decide (c = CR ∧ d = LF) then Some 0%nat else S <$> find_crlf (d :: s).
Proof. done. Qed.

Lemma find_crlf_lt s i : find_crlf s = Some i → (i + 2 ≤ length s)%nat.
Proof.
  revert i. induction s as [|c s IH]; intros i; [done|].
  destruct s as [|d s]; [done|]. rewrite find_crlf_cons.
  destruct (decide _); [intros [= <-]; simpl; lia|].
  intros (j & Hj & ->)%fmap_Some_1. specialize (IH j Hj). simpl in *. lia.
Qed.

Lemma find_crlf_ext s t i : find_crlf s = Some i → find_crlf (s ++ t) = Some i.
Proof.
  revert i. induction s as [|c s IH]; intros i; [done|].
  destruct s as [|d s]; [done|]. rewrite <- !app_comm_cons in *. rewrite !find_crlf_cons.
  destruct (decide _); [done|]. intros (j & Hj & ->)%fmap_Some_1.
  by rewrite (IH j Hj).
Qed.

Lemma find_crlf_first s t : Forall (λ c, c ≠ CR) s → find_crlf (s ++ CRLF ++ t) = Some (length s).
Proof.
  induction 1 as [|c s Hc Hs IH]; [done|]. rewrite <- app_comm_cons.
  destruct (s ++ CRLF ++ t) as [|d u] eqn:E; [by destruct s|].
  rewrite find_crlf_cons, IH. by rewrite decide_False by (by intros [? _]).
Qed.

Lemma find_char_lt ch s i : find_char ch s = Some i → (i < length s)%nat.
Proof.
  revert i. induction s as [|c s IH]; intros i; simpl; [done|].
  case_decide; [intros [= <-]; lia|].
  intros (j & Hj & ->)%fmap_Some_1. specialize (IH j Hj). lia.
Qed.

Lemma find_char_ext ch s t i : find_char ch s = Some i → find_char ch (s ++ t) = Some i.
Proof.
  revert i. induction s as [|c s IH]; intros i; simpl; [done|].
  case_decide; [done|]. intros (j & Hj & ->)%fmap_Some_1. by rewrite (IH j Hj).
Qed.

(** A bounded window of a longer buffer: the window itself, and what the
    extension adds while it is not full. *)
Lemma window_ext (k p : nat) (buf more : bytes) :
  (p ≤ length buf)%nat →
  take k (drop p (buf ++ more))
  = take k (drop p buf) ++ take (k - length (take k (drop p buf))) more.
Proof.
  intros Hp. rewrite drop_app_le by done. rewrite take_app. f_equal.
  rewrite length_take. destruct (Nat.min_spec k (length (drop p buf))) as [[H ->]|[H ->]].
  - replace (k - length (drop p buf))%nat with 0%nat by lia.
    replace (k - k)%nat with 0%nat by lia. done.
  - done.
Qed.

Lemma take_drop_app (k p : nat) (buf more : bytes) :
  (p + k ≤ length buf)%nat → take k (drop p (buf ++ more)) = take k (drop p buf).
Proof.
  intros H. rewrite drop_app_le by lia. apply take_app_le. rewrite length_drop. lia.
Qed.

(** ** Lemmas: numbers *)

Lemma span_digits_all s : all_digits s → span_digits s = s.
Proof. induction 1 as [|c s Hc Hs IH]; [done|]. simpl. by rewrite Hc, IH. Qed.

Lemma span_digits_length s : length (span_digits s) = length s → span_digits s = s.
Proof.
  induction s as [|c s IH]; simpl; [done|]. destruct (is_digit c); simpl; [|done].
  intros [= H]. by rewrite IH.
Qed.

Lemma span_digits_digits s : all_digits (span_digits s).
Proof.
  induction s as [|c s IH]; simpl; [constructor|].
  destruct (is_digit c) eqn:E; [by constructor|constructor].
Qed.

(** On a whole token, [from_chars] and the strict [parse_u64] accept the same
    strings with the same values. *)
Lemma from_chars_whole s v : from_chars_u64 s = Some (v, length s) ↔ parse_u64 s = Some v.
Proof.
  rewrite parse_u64_spec. unfold from_chars_u64. split.
  - case_bool_decide as Hne; [done|].
    destruct (Z.ltb_spec UINT64_MAX (decval (span_digits s))) as [|Hle]; [done|].
    intros [= <- Hlen]. apply span_digits_length in Hlen as Heq.
    pose proof (span_digits_digits s) as Hd. rewrite Heq in *.
    repeat split; [done|done| |done].
    apply (decval_from_mono 0 s); [lia|done].
  - intros (Hne & Hd & Hv & Hr). rewrite span_digits_all, Hv by done.
    rewrite bool_decide_eq_false_2 by done.
    destruct (Z.ltb_spec UINT64_MAX v); [ulia|done].
Qed.

(** ** Lemmas: the header *)

Definition fails {A} (m : status A) : Prop := ∀ a, m ≠ Complete a.

(** What [header] returns on success: the number is what [parse_u64] reads
    between the prefix and CRLF. *)
Lemma header_inv buf prefix max p v p' :
  header buf prefix max p = Complete (v, p') →
  (p + 3 ≤ p' ≤ length buf)%nat ∧ 0 <= v <= max.
Proof.
  unfold header. destruct (buf !! p) as [c|] eqn:Hc; [|done].
  apply lookup_lt_Some in Hc. case_decide as Hpre; [done|].
  set (w := take kMaxHeader (drop p buf)).
  destruct (find_crlf w) as [crlf|] eqn:Hf; [|by destruct (_ <? _)%nat].
  set (digits := take (crlf - 1) (drop 1 w)).
  destruct (from_chars_u64 digits) as [[out parsed]|] eqn:Hfc; [|done].
  destruct (Nat.eqb_spec parsed (length digits)) as [->|]; [|done].
  destruct (Z.leb_spec out max) as [Hmax|]; [|done].
  intros [= <- <-]. apply from_chars_whole in Hfc.
  assert (Hd : digits ≠ []) by (intros E; by rewrite E in Hfc).
  apply parse_u64_range in Hfc. apply find_crlf_lt in Hf.
  assert (Hw : (length w ≤ length buf - p)%nat)
    by (unfold w; rewrite length_take, length_drop; lia).
  destruct crlf as [|crlf]; [done|]. destruct crlf as [|crlf]; [done|].
  split; [lia|ulia].
Qed.

(** The header does not see bytes behind a result it has already reached. *)
Lemma header_ext buf more prefix max p :
  header buf prefix max p ≠ NeedMore →
  header (buf ++ more) prefix max p = header buf prefix max p.
Proof.
  unfold header. destruct (buf !! p) as [c|] eqn:Hc; [|done].
  rewrite (lookup_app_l_Some _ _ _ _ Hc). apply lookup_lt_Some in Hc.
  case_decide as Hpre; [done|].
  rewrite window_ext by lia. set (w := take kMaxHeader (drop p buf)).
  destruct (find_crlf w) as [crlf|] eqn:Hf.
  - intros _. rewrite (find_crlf_ext w _ crlf Hf). apply find_crlf_lt in Hf.
    by rewrite !take_drop_app by lia.
  - destruct (Nat.ltb_spec (length w) kMaxHeader) as [Hlt|Hge]; [done|]. intros _.
    replace (kMaxHeader - length w)%nat with 0%nat by lia.
    rewrite take_0, app_nil_r, Hf. destruct (Nat.ltb_spec (length w) kMaxHeader); [lia|done].
Qed.

(** The header of an encoded number is read back, whatever follows, and
    compared with the limit. *)
Lemma header_number pre c n rest max :
  is_u64 n → c ≠ CR →
  header (pre ++ [c] ++ to_string_u n ++ CRLF ++ rest) c max (length pre)
  = if n <=? max
    then Complete (n, (length pre + length ([c] ++ to_string_u n ++ CRLF))%nat)
    else Malformed.
Proof.
  intros Hn Hc. destruct (to_string_u_length n Hn) as [Hl1 Hl2].
  destruct (to_string_u_spec n) as (_ & Hdig & _); [ulia|].
  unfold header.
  rewrite (list_lookup_middle pre (to_string_u n ++ CRLF ++ rest) c) by done.
  rewrite decide_False by naive_solver. rewrite drop_app_length.
  assert (Hw : ∃ t, take kMaxHeader ([c] ++ to_string_u n ++ CRLF ++ rest)
                    = ([c] ++ to_string_u n) ++ CRLF ++ t).
  { exists (take (kMaxHeader - length ([c] ++ to_string_u n ++ CRLF)) rest).
    rewrite 2!app_assoc, take_app_ge by (rewrite !length_app; simpl; unfold kMaxHeader; lia).
    by rewrite <- !app_assoc. }
  destruct Hw as [t ->].
  rewrite find_crlf_first.
  2:{ apply Forall_app. split; [by constructor|]. eapply Forall_impl; [exact Hdig|].
      intros d Hd ->. by vm_compute in Hd. }
  assert (Hdg : take (length ([c] ++ to_string_u n) - 1)
                  (drop 1 (([c] ++ to_string_u n) ++ CRLF ++ t)) = to_string_u n).
  { simpl. rewrite Nat.sub_0_r. apply take_app_length. }
  rewrite Hdg. rewrite (proj2 (from_chars_whole _ n)) by (by apply parse_u64_to_string).
  rewrite Nat.eqb_refl. destruct (Z.leb_spec n max); [|done]. cbn [andb].
  do 2 f_equal. lens.
Qed.

Lemma header_encoded pre c n rest max :
  is_u64 n → n <= max → c ≠ CR →
  header (pre ++ [c] ++ to_string_u n ++ CRLF ++ rest) c max (length pre)
  = Complete (n, (length pre + length ([c] ++ to_string_u n ++ CRLF))%nat).
Proof.
  intros Hn Hmax Hc. rewrite header_number by done. by destruct (Z.leb_spec n max); [|lia].
Qed.

(** ** Lemmas: the array *)

Lemma parse_bulks_bounds buf count p args e :
  (p ≤ length buf)%nat → parse_bulks buf count p = Complete (args, e) →
  (p ≤ e ≤ length buf)%nat ∧ length args = count.
Proof.
  revert p args e. induction count as [|count IH]; intros p args e Hp; simpl.
  { intros [= <- <-]. done. }
  destruct (header buf "$"%char kMaxBulk p) as [[n p']| |] eqn:Hh; [|done|done]. simpl.
  apply header_inv in Hh as [Hp' Hn].
  destruct (Z.ltb_spec (Z.of_nat (length buf - p')) (n + 2)) as [|Hroom]; [done|].
  case_decide; [|done].
  destruct (parse_bulks buf count _) as [[args' e']| |] eqn:Hr; [|done|done].
  simpl. intros [= <- <-]. apply IH in Hr as [He Hl]; [|lia]. simpl. lia.
Qed.

Lemma parse_bulks_ext buf more count p :
  (p ≤ length buf)%nat → parse_bulks buf count p ≠ NeedMore →
  parse_bulks (buf ++ more) count p = parse_bulks buf count p.
Proof.
  revert p. induction count as [|count IH]; intros p Hp; simpl; [done|].
  destruct (header buf "$"%char kMaxBulk p) as [[n p']| |] eqn:Hh; [|done|];
    intros Hne; rewrite header_ext, Hh by (rewrite Hh; done); [|done]; simpl in *.
  apply header_inv in Hh as [Hp' Hn].
  destruct (Z.ltb_spec (Z.of_nat (length buf - p')) (n + 2)) as [|Hroom]; [done|].
  rewrite length_app.
  destruct (Z.ltb_spec (Z.of_nat (length buf + length more - p')) (n + 2)); [lia|].
  rewrite !lookup_app_l by lia. rewrite take_drop_app by lia.
  case_decide; [|done].
  rewrite IH; [done|lia|].
  destruct (parse_bulks buf count _); [done|by simpl in Hne|done].
Qed.

Lemma bulks_cons a args : bulks (a :: args) = bulk_string a ++ bulks args.
Proof. done. Qed.

Lemma bulks_app l k : bulks (l ++ k) = bulks l ++ bulks k.
Proof. unfold bulks. by rewrite fmap_app, join_app. Qed.

Lemma parse_bulks_encoded args pre rest :
  Forall (λ a, len a <= kMaxBulk) args →
  parse_bulks (pre ++ bulks args ++ rest) (length args) (length pre)
  = Complete (args, (length pre + length (bulks args))%nat).
Proof.
  revert pre. induction args as [|a args IH]; intros pre Hargs.
  { cbn. by rewrite Nat.add_0_r. }
  apply Forall_cons_1 in Hargs as [Ha Hargs]. rewrite bulks_cons.
  cbn [parse_bulks length].
  assert (Hu : is_u64 (len a)) by (unfold kMaxBulk in Ha; ulia).
  set (tail := bulks args).
  assert (Hb : (bulk_string a ++ tail) ++ rest
    = ["$"%char] ++ to_string_u (len a) ++ CRLF ++ (a ++ CRLF ++ tail ++ rest)).
  { unfold bulk_string. by rewrite <- !app_assoc. }
  rewrite Hb, header_encoded by done. cbn [sbind].
  set (h := ["$"%char] ++ to_string_u (len a) ++ CRLF).
  assert (Hbuf : ∀ x, pre ++ ["$"%char] ++ to_string_u (len a) ++ CRLF ++ x
                      = (pre ++ h) ++ x) by (intros x; subst h; by rewrite <- !app_assoc).
  rewrite Hbuf, <- length_app. set (q := pre ++ h).
  replace (Z.to_nat (len a)) with (length a) by ulia.
  destruct (Z.ltb_spec (Z.of_nat (length (q ++ a ++ CRLF ++ tail ++ rest) - length q)) (len a + 2))
    as [Hlt|_].
  { lens. }
  rewrite decide_True.
  2:{ rewrite (app_assoc q a), <- length_app. split.
      - by apply list_lookup_middle.
      - rewrite lookup_app_r by lia. by replace (_ - _)%nat with 1%nat by lia. }
  assert (Hq : q ++ a ++ CRLF ++ tail ++ rest = (q ++ a ++ CRLF) ++ tail ++ rest)
    by (by rewrite <- !app_assoc).
  rewrite Hq at 1. replace (length q + length a + 2)%nat with (length (q ++ a ++ CRLF))
    by lens.
  rewrite IH by done. cbn [sbind]. rewrite drop_app_length, take_app_length.
  do 2 f_equal. subst q h tail. unfold bulk_string. lens.
Qed.

(** Encoding then parsing gives the command back. *)
Lemma parse_encoded args pre rest :
  len args <= kMaxArgs → Forall (λ a, len a <= kMaxBulk) args →
  parse (pre ++ encode args ++ rest) (length pre)
  = Complete (args, (length pre + length (encode args))%nat).
Proof.
  intros Hn Hargs. unfold parse, encode.
  assert (Hu : is_u64 (len args)) by (unfold kMaxArgs in Hn; ulia).
  change (str "*") with ["*"%char]. rewrite <- !app_assoc.
  rewrite header_encoded by done. cbn [sbind].
  set (h := ["*"%char] ++ to_string_u (len args) ++ CRLF).
  replace (pre ++ ["*"%char] ++ to_string_u (len args) ++ CRLF ++ bulks args ++ rest)
    with ((pre ++ h) ++ bulks args ++ rest) by (subst h; by rewrite <- !app_assoc).
  rewrite <- length_app. replace (Z.to_nat (len args)) with (length args) by ulia.
  rewrite parse_bulks_encoded by done. do 2 f_equal.
  subst h. lens.
Qed.

(** An array with too many elements is refused, whatever they are. *)
Lemma parse_too_many args pre rest :
  is_u64 (len args) → kMaxArgs < len args →
  parse (pre ++ encode args ++ rest) (length pre) = Malformed.
Proof.
  intros Hu Hn. unfold parse, encode. change (str "*") with ["*"%char]. rewrite <- !app_assoc.
  rewrite header_number by done. by destruct (Z.leb_spec (len args) kMaxArgs); [lia|].
Qed.

Lemma parse_bounds buf pos args e :
  parse buf pos = Complete (args, e) → (pos < e ≤ length buf)%nat ∧ len args <= kMaxArgs.
Proof.
  unfold parse. destruct (header _ _ _ _) as [[n p]| |] eqn:Hh; [|done|done]. simpl.
  apply header_inv in Hh as [Hp Hn]. intros H.
  apply parse_bulks_bounds in H as [He Hl]; [|lia]. ulia.
Qed.

(** A verdict is final: more bytes never change it. *)
Lemma parse_ext buf more pos :
  parse buf pos ≠ NeedMore → parse (buf ++ more) pos = parse buf pos.
Proof.
  unfold parse. destruct (header buf _ _ _) as [[n p]| |] eqn:Hh; [|done|].
  - intros Hne. rewrite header_ext, Hh by (by rewrite Hh). simpl in *.
    apply header_inv in Hh as [Hp _]. apply parse_bulks_ext; [lia|done].
  - intros _. by rewrite header_ext, Hh by (by rewrite Hh).
Qed.

(** A verdict on an encoded command cut anywhere is "wait for more". *)
Lemma parse_cut args pre n :
  len args <= kMaxArgs → Forall (λ a, len a <= kMaxBulk) args →
  (n < length (encode args))%nat →
  parse (pre ++ take n (encode args)) (length pre) = NeedMore.
Proof.
  intros Hn Hargs Hlt. destruct (parse (pre ++ take n (encode args)) (length pre)) eqn:Hp;
    [exfalso|done|exfalso].
  - destruct a as [args' e]. pose proof (parse_bounds _ _ _ _ Hp) as [He _].
    pose proof (parse_ext _ (drop n (encode args)) (length pre) ltac:(by rewrite Hp)) as Hx.
    rewrite <- app_assoc, take_drop, Hp in Hx.
    pose proof (parse_encoded args pre [] Hn Hargs) as Hc. rewrite app_nil_r, Hx in Hc.
    assert (e = (length pre + length (encode args))%nat) by congruence. lens.
  - pose proof (parse_ext _ (drop n (encode args)) (length pre) ltac:(by rewrite Hp)) as Hx.
    rewrite <- app_assoc, take_drop, Hp in Hx.
    pose proof (parse_encoded args pre [] Hn Hargs) as Hc. by rewrite app_nil_r, Hx in Hc.
Qed.

(** Parsing does not look behind its position. *)
Definition shift {A} (k : nat) (st : status (A * nat)) : status (A * nat) :=
  match st with
  | Complete (a, e) => Complete (a, (k + e)%nat)
  | NeedMore => NeedMore
  | Malformed => Malformed
  end.

Lemma drop_shift (pre s : bytes) p : drop (length pre + p) (pre ++ s) = drop p s.
Proof. by rewrite drop_app_add'. Qed.

Lemma header_shift pre s c max p :
  header (pre ++ s) c max (length pre + p) = shift (length pre) (header s c max p).
Proof.
  unfold header. rewrite lookup_app_r, drop_shift by lia.
  replace (length pre + p - length pre)%nat with p by lia.
  destruct (s !! p); [|done]. destruct (decide _); [done|].
  destruct (find_crlf _) as [crlf|]; [|by destruct (_ <? _)%nat].
  destruct (from_chars_u64 _) as [[out parsed]|]; [|done].
  destruct (_ && _); [|done]. cbn. do 2 f_equal. lia.
Qed.

Lemma parse_bulks_shift pre s count p :
  parse_bulks (pre ++ s) count (length pre + p) = shift (length pre) (parse_bulks s count p).
Proof.
  revert p. induction count as [|count IH]; intros p; [done|]. cbn [parse_bulks].
  rewrite header_shift. destruct (header s _ _ p) as [[n q]| |]; [|done|done]. cbn [shift sbind].
  rewrite length_app. replace (length pre + length s - (length pre + q))%nat with (length s - q)%nat
    by lia.
  destruct (_ <? _); [done|]. set (l := Z.to_nat n).
  rewrite !lookup_app_r, drop_shift by lia.
  replace (length pre + q + l - length pre)%nat with (q + l)%nat by lia.
  replace (length pre + q + l + 1 - length pre)%nat with (q + l + 1)%nat by lia.
  destruct (decide _); [|done].
  replace (length pre + q + l + 2)%nat with (length pre + (q + l + 2))%nat by lia.
  rewrite IH. by destruct (parse_bulks s count _) as [[args e]| |].
Qed.

Lemma parse_shift pre s p :
  parse (pre ++ s) (length pre + p) = shift (length pre) (parse s p).
Proof.
  unfold parse. rewrite header_shift. destruct (header s _ _ p) as [[n q]| |]; [|done|done].
  cbn [shift sbind]. apply parse_bulks_shift.
Qed.

(** ** Lemmas: inline requests *)

Lemma scan_arg_length_aux n quote arg s a' r :
  (length s ≤ n)%nat → scan_arg quote arg s = Some (a', r) → (length r ≤ length s)%nat.
Proof.
  revert quote arg s. induction n as [|n IH]; intros quote arg s Hn.
  - destruct s; [|simpl in Hn; lia]. simpl. destruct quote; [done|]. by intros [= <- <-].
  - destruct s as [|ch t]; simpl in *.
    { destruct quote; [done|]. by intros [= <- <-]. }
    assert (Hstep : ∀ q x u, (length u ≤ length t)%nat → scan_arg q x u = Some (a', r) →
      (length r ≤ S (length t))%nat).
    { intros q x u Hu H. apply IH in H; lia. }
    destruct quote as [q|].
    + destruct (decide (ch = q)).
      { destruct t as [|d t]; [by apply Hstep|]. destruct (space d); [by apply Hstep|done]. }
      destruct (decide (ch = BACKSLASH)); [|by apply Hstep].
      destruct t as [|next t']; [by apply Hstep|].
      destruct (decide (q = SQUOTE)); [apply Hstep; simpl; lia|].
      destruct t' as [|h [|l t'']]; [apply Hstep; simpl; lia..|].
      destruct (_ && _ && _); apply Hstep; simpl; lia.
    + destruct (space ch); [by intros [= <- <-]|].
      destruct (decide (ch = DQUOTE ∨ ch = SQUOTE)); by apply Hstep.
Qed.

Lemma scan_arg_length quote arg s a' r :
  scan_arg quote arg s = Some (a', r) → (length r ≤ length s)%nat.
Proof. by eapply scan_arg_length_aux. Qed.

Lemma skip_spaces_length s : (length (skip_spaces s) ≤ length s)%nat.
Proof. induction s as [|c s IH]; simpl; [lia|]. destruct (space c); simpl; lia. Qed.

Lemma skip_spaces_head s c t : skip_spaces s = c :: t → space c = false.
Proof.
  induction s as [|d s IH]; simpl; [done|]. destruct (space d) eqn:E; [by apply IH|].
  by intros [= <- _].
Qed.

(** One round consumes at least one character. *)
Lemma scan_arg_progress c t arg r :
  space c = false → scan_arg None [] (c :: t) = Some (arg, r) → (length r ≤ length t)%nat.
Proof.
  intros Hc. simpl. rewrite Hc.
  destruct (decide (c = DQUOTE ∨ c = SQUOTE)); by intros ?%scan_arg_length.
Qed.

Lemma split_loop_fuel fuel line :
  (length line < fuel)%nat → split_loop fuel line = split_inline line.
Proof.
  unfold split_inline. remember (length line) as n eqn:Hn.
  revert fuel line Hn. induction n as [n IH] using lt_wf_ind. intros fuel line -> Hf.
  destruct fuel as [|fuel]; [lia|]. cbn [split_loop].
  pose proof (skip_spaces_length line).
  destruct (skip_spaces line) as [|c t] eqn:Hs; [done|].
  apply skip_spaces_head in Hs. simpl in *.
  destruct (scan_arg None [] (c :: t)) as [[arg r]|] eqn:Ha.
  2:{ by simpl in Ha; rewrite Ha. }
  pose proof (scan_arg_progress _ _ _ _ Hs Ha). simpl in Ha. rewrite Ha. simpl.
  rewrite (IH (length r)) by lia. rewrite (IH (length r) ltac:(lia) (length line)) by lia.
  done.
Qed.

(** The splitter as one step, without fuel. *)
Lemma split_inline_eq line :
  split_inline line =
  match skip_spaces line with
  | [] => Some []
  | rest =>
      '(arg, rest) ← scan_arg None [] rest;
      args ← split_inline rest;
      Some (arg :: args)
  end.
Proof.
  unfold split_inline at 1. cbn [split_loop].
  pose proof (skip_spaces_length line).
  destruct (skip_spaces line) as [|c t] eqn:Hs; [done|].
  apply skip_spaces_head in Hs.
  destruct (scan_arg None [] (c :: t)) as [[arg r]|] eqn:Ha; [|done]. cbn.
  pose proof (scan_arg_progress _ _ _ _ Hs Ha).
  rewrite split_loop_fuel; [done|]. simpl in *. lia.
Qed.

(** A reference quoting: every byte of an argument as a [\xHH] escape inside
    double quotes, arguments separated by one space. *)
Definition hex_digit (d : Z) : ascii := if d <? 10 then chr (48 + d) else chr (87 + d).

Definition quote_byte (c : ascii) : bytes :=
  [BACKSLASH; "x"%char; hex_digit (ord c / 16); hex_digit (ord c mod 16)].

Definition quote_arg (a : bytes) : bytes := [DQUOTE] ++ mjoin (quote_byte <$> a) ++ [DQUOTE].

Definition quote_line (args : list bytes) : bytes :=
  mjoin ((λ a, quote_arg a ++ [" "%char]) <$> args).

Lemma hex_digit_cases (P : Z → Prop) :
  P 0 → P 1 → P 2 → P 3 → P 4 → P 5 → P 6 → P 7 → P 8 → P 9 → P 10 → P 11 → P 12 →
  P 13 → P 14 → P 15 → ∀ d, 0 <= d < 16 → P d.
Proof.
  intros ???????????????? d Hd.
  assert (Hc : d = 0 ∨ d = 1 ∨ d = 2 ∨ d = 3 ∨ d = 4 ∨ d = 5 ∨ d = 6 ∨ d = 7 ∨ d = 8 ∨ d = 9
    ∨ d = 10 ∨ d = 11 ∨ d = 12 ∨ d = 13 ∨ d = 14 ∨ d = 15) by lia.
  by repeat destruct Hc as [->|Hc]; [..|subst d].
Qed.

Lemma hex_digit_ok d : 0 <= d < 16 → hex (hex_digit d) = true ∧ hex_val (hex_digit d) = d.
Proof. revert d. apply hex_digit_cases; by vm_compute. Qed.

Lemma hex_byte_ok c : hex_byte (hex_digit (ord c / 16)) (hex_digit (ord c mod 16)) = c.
Proof.
  pose proof (ord_range c). pose proof (Z.mod_pos_bound (ord c) 16 ltac:(lia)).
  assert (Hq : 0 <= ord c / 16 < 16)
    by (split; [apply Z.div_pos; lia|apply Z.div_lt_upper_bound; lia]).
  unfold hex_byte. destruct (hex_digit_ok _ Hq) as [_ ->].
  destruct (hex_digit_ok (ord c mod 16)) as [_ ->]; [done|].
  rewrite <- Z.div_mod by lia. apply chr_ord.
Qed.

Lemma scan_quoted a arg rest :
  (∀ c t, rest = c :: t → space c = true) →
  scan_arg (Some DQUOTE) arg (mjoin (quote_byte <$> a) ++ [DQUOTE] ++ rest)
  = scan_arg None (arg ++ a) rest.
Proof.
  intros Hrest. revert arg. induction a as [|c a IH]; intros arg.
  - rewrite app_nil_r. cbn.  destruct rest as [|d rest]; [done|].
    by rewrite (Hrest d rest).
  - change (mjoin (quote_byte <$> c :: a)) with (quote_byte c ++ mjoin (quote_byte <$> a)).
    rewrite <- app_assoc. unfold quote_byte at 1. cbn [app scan_arg].
    rewrite decide_False by done. rewrite decide_True by done. rewrite decide_False by done.
    pose proof (ord_range c). pose proof (Z.mod_pos_bound (ord c) 16 ltac:(lia)).
    assert (Hq : 0 <= ord c / 16 < 16)
      by (split; [apply Z.div_pos; lia|apply Z.div_lt_upper_bound; lia]).
    rewrite (proj1 (hex_digit_ok _ Hq)), (proj1 (hex_digit_ok (ord c mod 16) H0)).
    rewrite bool_decide_eq_true_2 by done. cbn [andb].
    rewrite hex_byte_ok. change (DQUOTE :: rest) with ([DQUOTE] ++ rest). rewrite IH.
    by rewrite <- app_assoc.
Qed.

Lemma split_inline_space c line : space c = true → split_inline (c :: line) = split_inline line.
Proof. intros H. rewrite !split_inline_eq. cbn [skip_spaces]. by rewrite H. Qed.

Lemma scan_arg_space c arg line :
  space c = true → scan_arg None arg (c :: line) = Some (arg, c :: line).
Proof. intros H. cbn [scan_arg]. by rewrite H. Qed.

(** Every list of byte strings has an inline form. *)
Lemma split_quoted args : split_inline (quote_line args) = Some args.
Proof.
  induction args as [|a args IH]; [done|].
  change (quote_line (a :: args)) with ((quote_arg a ++ [" "%char]) ++ quote_line args).
  unfold quote_arg. rewrite <- !app_assoc, split_inline_eq. cbn [app skip_spaces].
  change (space DQUOTE) with false. cbn match. cbn [scan_arg]. change (space DQUOTE) with false.
  cbn match. rewrite decide_True by (by left).
  change (DQUOTE :: " "%char :: quote_line args) with ([DQUOTE] ++ [" "%char] ++ quote_line args).
  rewrite scan_quoted by (by intros ?? [= <- _]).
  change ([" "%char] ++ quote_line args) with (" "%char :: quote_line args).
  rewrite scan_arg_space by done. cbn [mbind option_bind].
  by rewrite split_inline_space, IH.
Qed.

Lemma quote_line_printable args : Forall (λ c, 32 <= ord c) (quote_line args).
Proof.
  unfold quote_line, quote_arg. apply Forall_join, Forall_fmap, Forall_true. intros a.
  cbn [compose]. rewrite !Forall_app, !Forall_singleton.
  repeat split; try by vm_compute.
  apply Forall_join, Forall_fmap, Forall_true. intros c.
  assert (Hd : ∀ d, 0 <= d < 16 → 32 <= ord (hex_digit d))
    by (apply hex_digit_cases; by vm_compute).
  pose proof (ord_range c). pose proof (Z.mod_pos_bound (ord c) 16 ltac:(lia)).
  assert (Hq : 0 <= ord c / 16 < 16)
    by (split; [apply Z.div_pos; lia|apply Z.div_lt_upper_bound; lia]).
  unfold quote_byte. cbn [compose]. repeat apply Forall_cons_2; try done; by apply Hd.
Qed.

Lemma find_char_first ch s t : ch ∉ s → find_char ch (s ++ [ch] ++ t) = Some (length s).
Proof.
  induction s as [|c s IH]; intros Hs; simpl; [by rewrite decide_True|].
  apply not_elem_of_cons in Hs as [Hc Hs]. rewrite decide_False by done.
  simpl in IH. by rewrite IH.
Qed.

Lemma quote_line_no args ch : ord ch < 32 → ch ∉ quote_line args.
Proof.
  intros Hch Hin. pose proof (quote_line_printable args) as Hp.
  rewrite Forall_forall in Hp. apply Hp in Hin. lia.
Qed.

Lemma strip_cr_id s : CR ∉ s → strip_cr s = s.
Proof.
  intros Hs. unfold strip_cr. destruct (last s) as [c|] eqn:Hl; [|done].
  rewrite decide_False; [done|]. intros ->. apply Hs. by apply last_Some_elem_of.
Qed.

(** ** Lemmas: requests *)

Lemma parse_request_bounds buf pos args e :
  parse_request buf pos = Complete (args, e) → (pos < e ≤ length buf)%nat.
Proof.
  unfold parse_request. destruct (buf !! pos) as [c|] eqn:Hc.
  2:{ by intros [? _]%parse_bounds. }
  apply lookup_lt_Some in Hc.
  case_decide; [by intros [? _]%parse_bounds|].
  destruct (find_char LF _) as [nl|] eqn:Hf; [|by destruct (_ <? _)%nat].
  destruct (split_inline _) as [args'|]; [|done]. intros [= <- <-].
  apply find_char_lt in Hf. rewrite length_take, length_drop in Hf. lia.
Qed.

Lemma parse_request_ext buf more pos :
  parse_request buf pos ≠ NeedMore →
  parse_request (buf ++ more) pos = parse_request buf pos.
Proof.
  unfold parse_request. destruct (buf !! pos) as [c|] eqn:Hc.
  2:{ apply lookup_ge_None in Hc. intros Hne. exfalso. apply Hne.
      unfold parse, header. by rewrite (proj2 (lookup_ge_None buf pos)). }
  rewrite (lookup_app_l_Some _ _ _ _ Hc). apply lookup_lt_Some in Hc.
  case_decide; [apply parse_ext|].
  rewrite window_ext by lia. set (w := take kMaxInline (drop pos buf)).
  destruct (find_char LF w) as [nl|] eqn:Hf.
  - intros _. rewrite (find_char_ext _ w _ nl Hf). apply find_char_lt in Hf.
    by rewrite take_app_le by lia.
  - destruct (Nat.ltb_spec (length w) kMaxInline) as [Hlt|Hge]; [done|]. intros _.
    replace (kMaxInline - length w)%nat with 0%nat by lia.
    rewrite take_0, app_nil_r, Hf. destruct (Nat.ltb_spec (length w) kMaxInline); [lia|done].
Qed.

Lemma parse_request_shift pre s p :
  parse_request (pre ++ s) (length pre + p) = shift (length pre) (parse_request s p).
Proof.
  unfold parse_request. rewrite lookup_app_r, drop_shift by lia.
  replace (length pre + p - length pre)%nat with p by lia.
  destruct (s !! p) as [c|]; [|apply parse_shift]. destruct (decide _); [apply parse_shift|].
  destruct (find_char LF _) as [nl|]; [|by destruct (_ <? _)%nat].
  destruct (split_inline _); [|done]. cbn [shift]. do 2 f_equal. lia.
Qed.

(** Parsing at a position is parsing what is left from there. *)
Lemma parse_request_drop buf pos :
  (pos ≤ length buf)%nat → parse_request buf pos = shift pos (parse_request (drop pos buf) 0).
Proof.
  intros Hpos. rewrite <- (take_drop pos buf) at 1.
  assert (Hl : length (take pos buf) = pos) by (rewrite length_take; lia).
  pose proof (parse_request_shift (take pos buf) (drop pos buf) 0) as Hs. rewrite Hl in Hs.
  rewrite <- Hs. f_equal. lia.
Qed.

Lemma parse_request_quoted args pre rest :
  (length (quote_line args) < kMaxInline)%nat →
  parse_request (pre ++ quote_line args ++ [LF] ++ rest) (length pre)
  = Complete (args, (length pre + length (quote_line args) + 1)%nat).
Proof.
  intros Hlen. unfold parse_request.
  set (line := quote_line args) in *.
  assert (Hhd : ∃ c t, line ++ [LF] ++ rest = c :: t ∧ c ≠ "*"%char).
  { subst line. destruct args as [|a args]; [by exists LF, rest|].
    exists DQUOTE. eexists. by split. }
  destruct Hhd as (c & t & Hct & Hc). rewrite Hct at 1.
  rewrite list_lookup_middle by done. rewrite decide_False by done.
  rewrite drop_app_length.
  assert (Hw : ∃ u, take kMaxInline (line ++ [LF] ++ rest) = line ++ [LF] ++ u).
  { exists (take (kMaxInline - length (line ++ [LF])) rest).
    rewrite app_assoc, take_app_ge by lens. by rewrite <- app_assoc. }
  destruct Hw as [u ->].
  rewrite find_char_first by (apply quote_line_no; by vm_compute).
  rewrite take_app_length, strip_cr_id by (apply quote_line_no; by vm_compute).
  subst line. by rewrite split_quoted.
Qed.

(** ** Properties *)

(** C34: Round trip of the wire format: an encoded command within the limits,
    with any bytes in its arguments and anything around it in the buffer,
    parses back to itself and ends exactly where it was written; every strict
    prefix of it asks for more bytes; and one with more than [kMaxArgs]
    arguments is refused. *)
Theorem resp_roundtrip args pre rest :
  is_u64 (len args) → Forall (λ a, len a <= kMaxBulk) args →
  (len args <= kMaxArgs →
    parse_request (pre ++ encode args ++ rest) (length pre)
    = Complete (args, (length pre + length (encode args))%nat)
    ∧ ∀ n, (n < length (encode args))%nat →
        parse_request (pre ++ take n (encode args)) (length pre) = NeedMore)
  ∧ (kMaxArgs < len args →
    parse_request (pre ++ encode args ++ rest) (length pre) = Malformed).
Proof.
  intros Hu Hargs.
  assert (Hstar : ∀ s, parse_request (pre ++ str "*" ++ s) (length pre)
    = parse (pre ++ str "*" ++ s) (length pre)).
  { intros s. unfold parse_request. change (str "*" ++ s) with ("*"%char :: s).
    rewrite list_lookup_middle by done. by rewrite decide_True. }
  assert (He : ∀ s, encode args ++ s
    = str "*" ++ (to_string_u (len args) ++ CRLF ++ bulks args) ++ s) by done.
  split.
  - intros Hn. split; [rewrite He, Hstar, <- He; by apply parse_encoded|].
    intros n Hlt. destruct n as [|n].
    + rewrite take_0, app_nil_r. unfold parse_request.
      rewrite (proj2 (lookup_ge_None pre (length pre))) by done.
      pose proof (parse_cut args pre 0 Hn Hargs Hlt) as Hc.
      by rewrite take_0, app_nil_r in Hc.
    + pose proof (parse_cut args pre (S n) Hn Hargs Hlt) as Hc.
      unfold encode in *. change (str "*") with ["*"%char] in *. cbn [app firstn] in *.
      by rewrite Hstar.
  - intros Hn. rewrite He, Hstar, <- He. by apply parse_too_many.
Qed.

Lemma resp_roundtrip_witness :
  parse_request (str "x" ++ encode [str "SET"; CRLF; []] ++ str "y") (length (str "x"))
  = Complete ([str "SET"; CRLF; []], (1 + 27)%nat).
Proof.
  destruct (resp_roundtrip [str "SET"; CRLF; []] (str "x") (str "y")) as [H _].
  - vm_compute. split; discriminate.
  - repeat constructor; vm_compute; discriminate.
  - refine (proj1 (H _)). vm_compute. discriminate.
Defined.

(** C35: The parser can run on a growing buffer: a verdict is final, since
    bytes that arrive later change neither a complete request nor an error;
    a complete request ends inside the buffer and past its start, so the
    caller always advances; and an array never has more than [kMaxArgs]
    arguments. *)
Theorem parse_incremental buf more pos :
  (parse_request buf pos ≠ NeedMore →
     parse_request (buf ++ more) pos = parse_request buf pos)
  ∧ (∀ args e, parse_request buf pos = Complete (args, e) → (pos < e ≤ length buf)%nat)
  ∧ (∀ args e, parse buf pos = Complete (args, e) → len args <= kMaxArgs).
Proof.
  split; [apply parse_request_ext|]. split; [apply parse_request_bounds|].
  intros args e H. by apply parse_bounds in H as [_ ?].
Qed.

Lemma parse_incremental_witness :
  parse_request (str "PING" ++ [LF] ++ str "GET k") 0 = Complete ([str "PING"], 5%nat).
Proof.
  destruct (parse_incremental (str "PING" ++ [LF]) (str "GET k") 0) as [H _].
  rewrite app_assoc, H; [vm_compute; reflexivity|vm_compute; discriminate].
Defined.

(** Inline requests are as expressive as arrays: any argument list,
    whatever its bytes, has a one-line quoted form that the request parser
    reads back exactly, up to the 64 KiB line limit. *)
Theorem inline_quoting args pre rest :
  (length (quote_line args) < kMaxInline)%nat →
  parse_request (pre ++ quote_line args ++ [LF] ++ rest) (length pre)
  = Complete (args, (length pre + length (quote_line args) + 1)%nat).
Proof. apply parse_request_quoted. Qed.

Lemma inline_quoting_witness :
  parse_request (quote_line [str "SET"; [LF; CR]; []] ++ [LF]) 0
  = Complete ([str "SET"; [LF; CR]; []], 30%nat).
Proof.
  refine (inline_quoting [str "SET"; [LF; CR]; []] [] [] _).
  apply Nat.ltb_lt. vm_compute. reflexivity.
Defined.
