(* ===== verification/Hlc.v ===== *)
(** * Versions and the hybrid logical clock (src/core/hlc.h)

    A CRDT version is a pair of a 64-bit hybrid timestamp (48 bits of
    milliseconds, 16 bits of counter) and a 32-bit node, ordered
    lexicographically ([Version] of database.h). *)

From S2P Require Import Prelude.

(** ** [struct Version] *)

Record version := Version { v_ts : Z; v_node : Z }.

Global Instance version_eq_dec : EqDecision version.
Proof. solve_decision. Defined.

(** The defaulted [operator<=>]: lexicographic. *)
Definition version_ltb (a b : version) : bool :=
  (v_ts a <? v_ts b) || ((v_ts a =? v_ts b) && (v_node a <? v_node b)).

Definition version_leb (a b : version) : bool := negb (version_ltb b a).

(** [std::max]: the first argument unless the second is larger. *)
Definition version_max (a b : version) : version := if version_ltb a b then b else a.

Definition vle (a b : version) : Prop := version_leb a b = true.
Definition vlt (a b : version) : Prop := version_ltb a b = true.

Lemma vlt_iff a b : vlt a b ↔ v_ts a < v_ts b ∨ (v_ts a = v_ts b ∧ v_node a < v_node b).
Proof. unfold vlt, version_ltb. lia. Qed.

Lemma vle_iff a b : vle a b ↔ v_ts a < v_ts b ∨ (v_ts a = v_ts b ∧ v_node a <= v_node b).
Proof. unfold vle, version_leb, version_ltb. lia. Qed.

Lemma version_ext a b : v_ts a = v_ts b → v_node a = v_node b → a = b.
Proof. destruct a, b; simpl; congruence. Qed.

(** Decides goals about versions by going to their two components. *)
Ltac vlia :=
  unfold vle, vlt, version_max, version_leb, version_ltb in *;
  repeat match goal with
    | v : version |- _ => destruct v
    | |- @eq version _ _ => apply version_ext
    end;
  simpl in *; repeat case_match; simpl in *; lia.

Global Instance vle_total_order : TotalOrder vle.
Proof.
  split.
  - split; [split|]; unfold Reflexive, Transitive, AntiSymm.
    + intros x. rewrite vle_iff. lia.
    + intros x y z. rewrite !vle_iff. lia.
    + intros x y. rewrite !vle_iff. intros ??. apply version_ext; lia.
  - intros x y. unfold strict. rewrite !vle_iff.
    destruct (decide (x = y)) as [->|Hne]; [by right; left|].
    assert (v_ts x ≠ v_ts y ∨ v_node x ≠ v_node y)
      by (destruct (decide (v_ts x = v_ts y)); [right|by left];
          intros ?; by apply Hne, version_ext).
    destruct (decide (v_ts x < v_ts y ∨ v_ts x = v_ts y ∧ v_node x < v_node y));
      [left|right; right]; lia.
Qed.

Lemma version_max_comm a b : version_max a b = version_max b a.
Proof.
  destruct (decide (version_ltb a b = true)), (decide (version_ltb b a = true));
    unfold version_max; repeat case_match; try done; try congruence.
  - exfalso. unfold version_ltb in *. lia.
  - unfold version_ltb in *. apply version_ext; lia.
Qed.

Lemma version_max_l a b : vle a (version_max a b).
Proof. unfold version_max. case_match; rewrite vle_iff; unfold version_ltb in *; lia. Qed.

Lemma version_max_r a b : vle b (version_max a b).
Proof. rewrite version_max_comm. apply version_max_l. Qed.

Lemma vle_refl v : vle v v.
Proof. rewrite vle_iff. lia. Qed.

Lemma version_leb_spec a b : version_leb a b = negb (version_ltb b a).
Proof. done. Qed.

(** ** The clock *)

Definition kLegacyLimit : Z := Z.shiftl 1 47.

Definition normalize (ts : Z) : Z := if ts <? kLegacyLimit then wrap64 (Z.shiftl ts 16) else ts.

Definition physical_ms (ts : Z) : Z := Z.shiftr ts 16.

(** [Clock::next], from the value of [last_] to the new one, which is also
    the result; and [Clock::observe]. *)
Definition next (now_ms overwritten last : Z) : Z :=
  Z.max (Z.max (wrap64 (Z.shiftl (wrap64 now_ms) 16)) (wrap64 (last + 1)))
        (wrap64 (overwritten + 1)).

Definition observe (ts last : Z) : Z := Z.max last ts.

Lemma normalize_legacy ts : 0 <= ts < 2 ^ 47 → normalize ts = ts * 2 ^ 16.
Proof.
  intros H. unfold normalize, kLegacyLimit. rewrite !Z.shiftl_mul_pow2 by lia.
  destruct (Z.ltb_spec ts (1 * 2 ^ 47)); [|lia]. rewrite wrap64_small; ulia.
Qed.

Lemma normalize_hlc ts : 2 ^ 47 <= ts → normalize ts = ts.
Proof.
  intros H. unfold normalize, kLegacyLimit. rewrite Z.shiftl_mul_pow2 by lia.
  destruct (Z.ltb_spec ts (1 * 2 ^ 47)); [lia|done].
Qed.

Lemma normalize_u64 ts : is_u64 ts → is_u64 (normalize ts).
Proof.
  intros H. destruct (decide (ts < 2 ^ 47)).
  - rewrite normalize_legacy; ulia.
  - rewrite normalize_hlc; ulia.
Qed.

(** The versions that storing and reloading leaves alone. *)
Definition stable_ts (ts : Z) : Prop := ts = 0 ∨ 2 ^ 47 <= ts <= UINT64_MAX.

Lemma normalize_stable ts : is_u64 ts → normalize ts = ts ↔ stable_ts ts.
Proof.
  intros H. unfold stable_ts. destruct (decide (ts < 2 ^ 47)).
  - rewrite normalize_legacy; ulia.
  - rewrite normalize_hlc; ulia.
Qed.

Lemma next_u64 now_ms ov last : is_u64 (next now_ms ov last).
Proof.
  unfold next. pose proof (wrap64_range (Z.shiftl (wrap64 now_ms) 16)).
  pose proof (wrap64_range (last + 1)). pose proof (wrap64_range (ov + 1)). ulia.
Qed.

(** A new version exceeds the local clock and the version it overwrites. *)
Lemma next_gt now_ms ov last :
  0 <= last < UINT64_MAX → 0 <= ov < UINT64_MAX →
  last < next now_ms ov last ∧ ov < next now_ms ov last.
Proof.
  intros Hl Ho. unfold next.
  rewrite (wrap64_small (last + 1)), (wrap64_small (ov + 1)) by ulia.
  split; [eapply Z.lt_le_trans; [|etrans; [apply Z.le_max_r|apply Z.le_max_l]]; ulia|].
  eapply Z.lt_le_trans; [|apply Z.le_max_r]. ulia.
Qed.

(** It is no larger than the inputs force: physical time, or one more than
    the larger of the two versions. *)
Lemma next_le now_ms ov last :
  0 <= now_ms < 2 ^ 48 → 0 <= last < UINT64_MAX → 0 <= ov < UINT64_MAX →
  next now_ms ov last = Z.max (now_ms * 2 ^ 16) (Z.max last ov + 1).
Proof.
  intros Hn Hl Ho. unfold next. rewrite Z.shiftl_mul_pow2 by lia.
  rewrite (wrap64_small now_ms), !wrap64_small by ulia. lia.
Qed.

Lemma observe_le ts last : last <= observe ts last ∧ ts <= observe ts last.
Proof. unfold observe. lia. Qed.

(** ** Histories of the clock *)

(** What the command thread does with the clock, in order. *)
Inductive tick := Next (now_ms overwritten : Z) | Observe (ts : Z).

Fixpoint run_clock (ops : list tick) (last : Z) : list Z * Z :=
  match ops with
  | [] => ([], last)
  | Next now ov :: ops =>
      let v := next now ov last in
      let '(out, last) := run_clock ops v in (v :: out, last)
  | Observe ts :: ops => run_clock ops (observe ts last)
  end.

(** Room for the counter: every input stays below the 64-bit limit by the
    number of operations left. *)
Fixpoint clock_room (ops : list tick) : Prop :=
  match ops with
  | [] => True
  | op :: rest =>
      match op with
      | Next now ov => 0 <= now < 2 ^ 48 - 1 ∧ 0 <= ov < UINT64_MAX - len ops
      | Observe ts => 0 <= ts < UINT64_MAX - len ops
      end ∧ clock_room rest
  end.

Lemma run_clock_above ops last :
  0 <= last → last + len ops < UINT64_MAX → len ops < 2 ^ 16 → clock_room ops →
  Forall (λ v, last < v) (run_clock ops last).1.
Proof.
  revert last. induction ops as [|op ops IH]; intros last Hl Hr Hlen Hroom; [constructor|].
  rewrite len_cons in *. pose proof (len_nonneg ops).
  destruct op as [now ov|ts]; simpl in *; destruct Hroom as [Hop Hroom]; rewrite len_cons in Hop.
  - pose proof (next_gt now ov last) as Hgt. pose proof (next_le now ov last) as Hle.
    destruct (run_clock ops (next now ov last)) as [out last'] eqn:Hrun. simpl.
    constructor; [ulia|].
    specialize (IH (next now ov last)). rewrite Hrun in IH.
    eapply Forall_impl; [apply IH; try done; ulia|]. simpl. ulia.
  - eapply Forall_impl; [apply IH; try done; unfold observe; ulia|].
    simpl. intros v. unfold observe. lia.
Qed.

Lemma run_clock_sorted ops last :
  0 <= last → last + len ops < UINT64_MAX → len ops < 2 ^ 16 → clock_room ops →
  StronglySorted Z.lt (run_clock ops last).1.
Proof.
  revert last. induction ops as [|op ops IH]; intros last Hl Hr Hlen Hroom; [constructor|].
  rewrite len_cons in *. pose proof (len_nonneg ops).
  destruct op as [now ov|ts]; simpl in *; destruct Hroom as [Hop Hroom]; rewrite len_cons in Hop.
  - pose proof (next_gt now ov last) as Hgt. pose proof (next_le now ov last) as Hle.
    destruct (run_clock ops (next now ov last)) as [out last'] eqn:Hrun. simpl.
    pose proof (IH (next now ov last)) as IH1.
    pose proof (run_clock_above ops (next now ov last)) as Hab.
    rewrite Hrun in IH1, Hab. constructor; [apply IH1|apply Hab]; try done; ulia.
  - apply IH; try done; unfold observe; ulia.
Qed.

(** ** Properties *)

(** C36: The clock is a hybrid logical clock: while the 16-bit counter and the
    64-bit limit leave room, the versions it issues strictly increase over
    any history of local writes and observed versions and exceed everything
    the clock had seen, a new version exceeds the one it overwrites, and it
    is exactly physical time or one past the largest version seen, so the
    clock never runs ahead on its own. *)
Theorem clock_monotone ops now ov last :
  0 <= last → last + len ops + 1 < UINT64_MAX → len ops < 2 ^ 16 → clock_room ops →
  0 <= now < 2 ^ 48 → 0 <= ov < UINT64_MAX →
  StronglySorted Z.lt (run_clock ops last).1
  ∧ Forall (λ v, last < v) (run_clock ops last).1
  ∧ last < next now ov last ∧ ov < next now ov last
  ∧ next now ov last = Z.max (now * 2 ^ 16) (Z.max last ov + 1).
Proof.
  intros Hl Hlim Hlen Hroom Hnow Hov. pose proof (len_nonneg ops).
  split; [apply run_clock_sorted; try done; lia|].
  split; [apply run_clock_above; try done; lia|].
  split; [apply next_gt; lia|]. split; [apply next_gt; lia|]. apply next_le; lia.
Qed.

Lemma clock_monotone_witness :
  StronglySorted Z.lt (run_clock [Next 5 0; Observe (2 ^ 50); Next 6 (2 ^ 51); Next 7 0] 3).1.
Proof.
  apply (clock_monotone [Next 5 0; Observe (2 ^ 50); Next 6 (2 ^ 51); Next 7 0] 5 0 3);
    vm_compute; repeat split; discriminate.
Defined.

(** [normalize] is the identity exactly on stable timestamps, so the comment's
    claim that it is idempotent on clock values fails below the legacy limit:
    a version that came from milliseconds below [2^31] is moved twice. *)
Lemma normalize_not_idempotent ts :
  0 < ts < 2 ^ 31 → normalize (normalize ts) ≠ normalize ts.
Proof.
  intros H. rewrite (normalize_legacy ts) by lia. rewrite normalize_legacy by lia. lia.
Qed.
