(* ===== verification/Sketch.v ===== *)
(** * The count-min sketch of the LFU policy (src/utils/count_min_sketch.h) *)

From S2P Require Import Prelude.

Definition WIDTH : nat := 4096.
Definition DEPTH : nat := 4.

(** [uint16_t table[DEPTH][WIDTH]]. *)
Abbreviation table := (list (list Z)).

Definition empty_table : table := replicate DEPTH (replicate WIDTH 0).

(** [fast_hash]: a [char] is signed, so it is sign-extended to 32 bits. *)
Definition sext8 (c : ascii) : Z := wrap32 (if ord c <? 128 then ord c else ord c - 256).

Definition hash_step (h : Z) (c : ascii) : Z :=
  let h := Z.lxor h (sext8 c) in
  let h := wrap32 (h * 0x5bd1e995) in
  Z.lxor h (Z.shiftr h 15).

Definition fast_hash (key : bytes) (seed : Z) : Z := foldl hash_step seed key.

(** The cell of a key in row [i]. *)
Definition cell (i : nat) (key : bytes) : nat :=
  Z.to_nat (Z.land (fast_hash key (wrap32 ((Z.of_nat i + 1) * 0x9e3779b9))) (Z.of_nat WIDTH - 1)).

Definition read (t : table) (i : nat) (h : nat) : Z := default 0 (t !! i ≫= (.!! h)).

Definition bump (n : Z) : Z := if n <? 0xFFFF then n + 1 else n.

(** [record_access]: one counter per row, saturating. *)
Definition record_access (key : bytes) (t : table) : table :=
  foldl (λ t i, alter (alter bump (cell i key)) i t) t (seq 0 DEPTH).

(** [estimate_frequency]: the smallest of the four counters. *)
Definition estimate_frequency (key : bytes) (t : table) : Z :=
  foldl (λ m i, let n := read t i (cell i key) in if n <? m then n else m) 0xFFFF (seq 0 DEPTH).

Arguments WIDTH : simpl never.
Arguments empty_table : simpl never.

(** ** Lemmas *)

Definition well_formed (t : table) : Prop :=
  length t = DEPTH ∧ Forall (λ row, length row = WIDTH) t.

Lemma empty_well_formed : well_formed empty_table.
Proof. split; [done|]. apply Forall_replicate. by rewrite length_replicate. Qed.

Lemma cell_lt i key : (cell i key < WIDTH)%nat.
Proof.
  unfold cell. set (x := fast_hash _ _).
  change (Z.of_nat WIDTH - 1) with (Z.ones 12). rewrite Z.land_ones by lia.
  pose proof (Z.mod_pos_bound x (2 ^ 12) ltac:(lia)). change WIDTH with 4096%nat. lia.
Qed.

Lemma alter_well_formed t i h f : well_formed t → well_formed (alter (alter f h) i t).
Proof.
  intros [Hl Hw]. split; [by rewrite length_alter|].
  apply Forall_alter; [done|]. intros row _ Hr. by rewrite length_alter.
Qed.

Lemma read_alter t i h f j k :
  well_formed t → (j < DEPTH)%nat → (k < WIDTH)%nat →
  read (alter (alter f h) i t) j k
  = if decide (j = i ∧ k = h) then f (read t j k) else read t j k.
Proof.
  intros [Hl Hw] Hj Hk. unfold read.
  destruct (lookup_lt_is_Some_2 t j) as [row Hrow]; [lia|].
  assert (length row = WIDTH) as Hrl by (by eapply Forall_lookup_1 in Hw).
  destruct (lookup_lt_is_Some_2 row k) as [x Hx]; [lia|].
  destruct (decide (j = i)) as [->|Hne].
  - rewrite list_lookup_alter_eq, Hrow. simpl.
    destruct (decide (k = h)) as [->|Hne].
    + rewrite list_lookup_alter_eq, Hx, decide_True by done. done.
    + rewrite list_lookup_alter_ne by done. rewrite Hx, decide_False; [done|]. by intros [_ ?].
  - rewrite list_lookup_alter_ne by done. rewrite decide_False; [done|]. by intros [? _].
Qed.

(** One access bumps exactly the key's cell in each row. *)
Lemma record_access_read key t j k :
  well_formed t → (j < DEPTH)%nat → (k < WIDTH)%nat →
  well_formed (record_access key t) ∧
  read (record_access key t) j k
  = if decide (k = cell j key) then bump (read t j k) else read t j k.
Proof.
  intros Ht Hj Hk. unfold record_access.
  assert (H : ∀ l t, well_formed t → NoDup l →
    let t' := foldl (λ t i, alter (alter bump (cell i key)) i t) t l in
    well_formed t' ∧
    read t' j k = if decide (j ∈ l ∧ k = cell j key) then bump (read t j k) else read t j k).
  { clear t Ht. intros l. induction l as [|i l IH]; intros t Ht Hnd; cbn [foldl].
    { split; [done|]. rewrite decide_False; [done|]. by intros [[]%elem_of_nil _]. }
    apply NoDup_cons in Hnd as [Hi Hnd].
    destruct (IH (alter (alter bump (cell i key)) i t)) as [Hw ->];
      [by apply alter_well_formed|done|].
    split; [done|]. rewrite read_alter by done.
    destruct (decide (j = i)) as [->|Hne].
    - rewrite (decide_False (P := i ∈ l ∧ _)) by (by intros [? _]).
      destruct (decide (k = cell i key)) as [->|Hne].
      + rewrite !decide_True by (first [done | split; [by left|done]]). done.
      + rewrite !decide_False by (by intros [_ ?]). done.
    - rewrite (decide_False (P := j = i ∧ _)) by (by intros [? _]).
      destruct (decide (j ∈ l ∧ k = cell j key)) as [[Hin Hc]|Hn].
      + by rewrite decide_True by (split; [by right|done]).
      + rewrite decide_False; [done|]. by intros [[?|?]%elem_of_cons ?]; [|apply Hn]. }
  destruct (H (seq 0 DEPTH) t Ht) as [Hw Hr]; [apply NoDup_seq|].
  split; [done|]. rewrite Hr.
  assert (j ∈ seq 0 DEPTH) by (apply elem_of_seq; lia).
  destruct (decide (k = cell j key)).
  - by rewrite decide_True.
  - rewrite decide_False; [done|]. by intros [_ ?].
Qed.

Lemma estimate_ge key t lo :
  lo <= 0xFFFF → (∀ i, (i < DEPTH)%nat → lo <= read t i (cell i key)) →
  lo <= estimate_frequency key t.
Proof.
  intros Hlo H. unfold estimate_frequency, DEPTH in *. cbn [seq foldl].
  pose proof (H 0%nat ltac:(lia)). pose proof (H 1%nat ltac:(lia)).
  pose proof (H 2%nat ltac:(lia)). pose proof (H 3%nat ltac:(lia)).
  repeat case_match; lia.
Qed.

Lemma estimate_le key t i :
  (i < DEPTH)%nat → estimate_frequency key t <= read t i (cell i key).
Proof.
  intros Hi. unfold estimate_frequency, DEPTH in *. cbn [seq foldl].
  destruct i as [|[|[|[|i]]]]; [| | | |lia]; repeat case_match; lia.
Qed.

Lemma estimate_max key t : estimate_frequency key t <= 0xFFFF.
Proof. unfold estimate_frequency, DEPTH. cbn [seq foldl]. repeat case_match; lia. Qed.

(** The sketch after a history of accesses. *)
Definition sketch_of (accesses : list bytes) : table :=
  foldl (λ t k, record_access k t) empty_table accesses.

(** How often a cell was hit: the accesses of every key that hashes there. *)
Definition hits (i h : nat) (accesses : list bytes) : Z :=
  len (filter (λ k, cell i k = h) accesses).

Definition count (key : bytes) (accesses : list bytes) : Z :=
  len (filter (.= key) accesses).

Lemma sketch_of_read accesses i h :
  (i < DEPTH)%nat → (h < WIDTH)%nat →
  well_formed (sketch_of accesses) ∧
  read (sketch_of accesses) i h = Z.min 0xFFFF (hits i h accesses).
Proof.
  intros Hi Hh. unfold sketch_of. induction accesses as [|k accesses IH] using rev_ind.
  - simpl. split; [apply empty_well_formed|]. unfold read, empty_table.
    rewrite lookup_replicate_2 by done. cbn [mbind option_bind].
    by rewrite lookup_replicate_2.
  - destruct IH as [Hw IH]. rewrite foldl_app. cbn [foldl].
    destruct (record_access_read k (foldl (λ t k, record_access k t) empty_table accesses) i h)
      as [Hw' ->]; [done..|]. split; [done|]. rewrite IH. unfold hits, bump.
    rewrite filter_app, len_app. cbn [filter list_filter].
    pose proof (len_nonneg (filter (λ k, cell i k = h) accesses)).
    repeat (case_decide; try congruence); rewrite ?len_cons, ?len_nil; repeat case_match; lia.
Qed.

Lemma count_le_hits key i accesses : count key accesses <= hits i (cell i key) accesses.
Proof.
  unfold count, hits. induction accesses as [|k accesses IH]; [done|].
  rewrite !filter_cons. repeat case_decide; subst; rewrite ?len_cons; lia.
Qed.

(** ** Properties *)

(** The sketch never underestimates: after any history of accesses the
    estimate of a key is at least the number of its own accesses, up to the
    saturation of the 16-bit counters, and it is exactly the least loaded of
    the key's four cells. *)
Theorem estimate_never_underestimates key accesses :
  let e := estimate_frequency key (sketch_of accesses) in
  Z.min 0xFFFF (count key accesses) <= e <= 0xFFFF ∧
  (∀ i, (i < DEPTH)%nat → e <= hits i (cell i key) accesses) ∧
  (∃ i, (i < DEPTH)%nat ∧ e = Z.min 0xFFFF (hits i (cell i key) accesses)).
Proof.
  intros e.
  assert (Hr : ∀ i, (i < DEPTH)%nat → read (sketch_of accesses) i (cell i key)
    = Z.min 0xFFFF (hits i (cell i key) accesses)).
  { intros i Hi. apply sketch_of_read; [done|apply cell_lt]. }
  repeat split.
  - apply estimate_ge; [lia|]. intros i Hi. rewrite Hr by done.
    pose proof (count_le_hits key i accesses). lia.
  - apply estimate_max.
  - intros i Hi. pose proof (estimate_le key (sketch_of accesses) i Hi) as He.
    rewrite Hr in He by done. subst e. lia.
  - pose proof (Hr 0%nat) as H0. pose proof (Hr 1%nat) as H1.
    pose proof (Hr 2%nat) as H2. pose proof (Hr 3%nat) as H3. unfold DEPTH in *.
    subst e. unfold estimate_frequency, DEPTH. cbn [seq foldl].
    rewrite H0, H1, H2, H3 by lia.
    repeat case_match;
      first [exists 3%nat; split; lia | exists 2%nat; split; lia
            | exists 1%nat; split; lia | exists 0%nat; split; lia].
Qed.
