(* ===== verification/Config.v ===== *)
(** * The configuration (src/config.h, src/config.cpp)

    [load_config] as a function of the environment. The C library's
    [inet_pton] is a parameter: [Some] of the address in host order when it
    accepts the text. Diagnostics printed to stderr are not modelled. *)

From S2P Require Import Prelude FsUtil Resp.

Inductive AofSync := Always | Everysec | Off.

Global Instance AofSync_eq_dec : EqDecision AofSync.
Proof. solve_decision. Defined.

Record config := Config {
  port : Z;
  bind_addr : bytes;
  password : bytes;
  maxclients : Z;
  max_client_buffers : Z;
  tls_cert : option bytes;
  tls_key : option bytes;
  metrics_on : bool;
  metrics_bind : bytes;
  trace_fd : Z;
  cfg_node_id : Z;
  peers : list (bytes * bytes);
  cfg_max_rooms : Z;
  cfg_max_clock_offset_ms : Z;
  cfg_clock_offset_ms : Z;
  cfg_max_keys : Z;
  cfg_maxmemory : Z;
  aof_sync : AofSync;
  aof_rewrite_min_bytes : Z;
  aof_sync_interval_ms : Z;
  aof_sync_delay_ms : Z;
  snapshot_delay_ms : Z
}.

(** The initialisers of [Config]. *)
Definition default_config : config := {|
  port := 6379;
  bind_addr := str "127.0.0.1";
  password := [];
  maxclients := 10000;
  max_client_buffers := Z.shiftl 1 30;
  tls_cert := None;
  tls_key := None;
  metrics_on := true;
  metrics_bind := str "127.0.0.1";
  trace_fd := -1;
  cfg_node_id := 1;
  peers := [];
  cfg_max_rooms := 10000;
  cfg_max_clock_offset_ms := 600000;
  cfg_clock_offset_ms := 0;
  cfg_max_keys := 1000000;
  cfg_maxmemory := 0;
  aof_sync := Everysec;
  aof_rewrite_min_bytes := Z.shiftl 64 20;
  aof_sync_interval_ms := 1000;
  aof_sync_delay_ms := 0;
  snapshot_delay_ms := 0
|}.

(** [strtol], base ten: spaces, a sign, digits; the value saturates at the
    limits of [long]. [None]: no digits. *)
Definition strtol (s : bytes) : option Z :=
  let s := skip_spaces s in
  let '(neg, s) :=
    match s with
    | c :: t => if decide (c = "-"%char) then (true, t)
                else if decide (c = "+"%char) then (false, t) else (false, s)
    | [] => (false, [])
    end in
  match span_digits s with
  | [] => None
  | ds => Some (if neg then Z.max LLONG_MIN (- decval ds) else Z.min LLONG_MAX (decval ds))
  end.

Definition is_int (z : Z) : bool := (- 2 ^ 31 <=? z) && (z <? 2 ^ 31).

(** [std::stoi]: throws ([None]) without digits and outside [int]. *)
Definition stoi (s : bytes) : option Z :=
  match strtol s with
  | Some v => if is_int v then Some v else None
  | None => None
  end.

(** [atoi]: the low 32 bits of [strtol], zero without digits. *)
Definition atoi (s : bytes) : Z := wrap32 (default 0 (strtol s) + 2 ^ 31) - 2 ^ 31.

Definition rfind_char (ch : ascii) (s : bytes) : option nat :=
  (λ i, length s - 1 - i)%nat <$> find_char ch (reverse s).

(** The entries of [SOMNIUM_PEERS]; every round consumes a character, so the
    length is enough fuel. *)
Definition peer_entry (item : bytes) : option (bytes * bytes) :=
  match rfind_char ":"%char item with
  | None => None
  | Some colon =>
      if (colon =? 0)%nat || (colon + 1 =? length item)%nat then None
      else Some (take colon item, drop (colon + 1) item)
  end.

Fixpoint parse_peers (fuel : nat) (s : bytes) : list (bytes * bytes) :=
  match fuel, s with
  | S fuel, _ :: _ =>
      let comma := default (length s) (find_char ","%char s) in
      match peer_entry (take comma s) with
      | Some p => p :: parse_peers fuel (drop (comma + 1) s)
      | None => parse_peers fuel (drop (comma + 1) s)
      end
  | _, _ => []
  end.

(** A variable that keeps its default unless it is set and parses. *)
Definition env_or {A} (v : option bytes) (parse : bytes → option A) (dflt : A) : A :=
  default dflt (v ≫= parse).

(** A variable that refuses to start when it is set and does not parse. *)
Definition env_strict {A} (v : option bytes) (parse : bytes → option A) (dflt : A) : option A :=
  match v with None => Some dflt | Some s => parse s end.

Definition guard_opt {A} (p : A → bool) (x : option A) : option A :=
  match x with Some a => if p a then Some a else None | None => None end.

Definition parse_sync (s : bytes) : option AofSync :=
  if decide (s = str "always") then Some Always
  else if decide (s = str "no" ∨ s = str "none" ∨ s = str "off") then Some Off
  else None.

Definition clamp (x lo hi : Z) : Z := if x <? lo then lo else if hi <? x then hi else x.

Definition load_config (inet_pton : bytes → option Z) (getenv : bytes → option bytes)
    : option config :=
  let d := default_config in
  port ← env_strict (getenv (str "REDIS_PORT")) stoi (port d);
  maxclients ← env_strict (getenv (str "SOMNIUM_MAXCLIENTS"))
    (λ v, guard_opt (λ n, negb (n =? 0)) (parse_u64 v)) (maxclients d);
  max_client_buffers ← env_strict (getenv (str "SOMNIUM_MAX_CLIENT_BUFFERS")) parse_u64
    (max_client_buffers d);
  let bind_addr := default (bind_addr d) (getenv (str "SOMNIUM_BIND")) in
  addr ← inet_pton bind_addr;
  let password := default (password d) (getenv (str "SOMNIUM_PASSWORD")) in
  if negb (Z.shiftr addr 24 =? 127) && bool_decide (password = []) then None else
  let delay := env_or (getenv (str "SOMNIUM_AOF_SYNC_DELAY_MS")) parse_i64 0 in
  let list := default [] (getenv (str "SOMNIUM_PEERS")) in
  Some {|
    port := port;
    bind_addr := bind_addr;
    password := password;
    maxclients := maxclients;
    max_client_buffers := max_client_buffers;
    tls_cert := getenv (str "SOMNIUM_TLS_CERT");
    tls_key := getenv (str "SOMNIUM_TLS_KEY");
    metrics_on := bool_decide (getenv (str "SOMNIUM_NO_METRICS") = None);
    metrics_bind := default (metrics_bind d) (getenv (str "SOMNIUM_METRICS_BIND"));
    trace_fd := from_option atoi (trace_fd d) (getenv (str "SOMNIUM_TRACE_FD"));
    cfg_node_id := env_or (getenv (str "SOMNIUM_NODE_ID"))
      (λ v, guard_opt (λ id, (1 <=? id) && (id <=? UINT32_MAX)) (parse_u64 v)) (cfg_node_id d);
    peers := parse_peers (length list) list;
    cfg_max_rooms := env_or (getenv (str "SOMNIUM_MAX_ROOMS")) parse_u64 (cfg_max_rooms d);
    cfg_max_clock_offset_ms := env_or (getenv (str "SOMNIUM_MAX_CLOCK_OFFSET_MS")) parse_i64
      (cfg_max_clock_offset_ms d);
    cfg_clock_offset_ms := env_or (getenv (str "SOMNIUM_CLOCK_OFFSET_MS")) parse_i64
      (cfg_clock_offset_ms d);
    cfg_max_keys := env_or (getenv (str "SOMNIUM_MAX_KEYS")) parse_u64 (cfg_max_keys d);
    cfg_maxmemory := env_or (getenv (str "SOMNIUM_MAXMEMORY")) parse_u64 (cfg_maxmemory d);
    aof_sync := env_or (getenv (str "SOMNIUM_AOF_SYNC")) parse_sync (aof_sync d);
    aof_rewrite_min_bytes := env_or (getenv (str "SOMNIUM_AOF_REWRITE_MIN_BYTES")) parse_u64
      (aof_rewrite_min_bytes d);
    aof_sync_interval_ms := clamp (env_or (getenv (str "SOMNIUM_AOF_SYNC_INTERVAL_MS")) parse_i64
      (aof_sync_interval_ms d)) 1 60000;
    aof_sync_delay_ms := if (0 <=? delay) && (delay <=? 60000) then delay else 0;
    snapshot_delay_ms := env_or (getenv (str "SOMNIUM_SNAPSHOT_DELAY_MS"))
      (λ v, guard_opt (λ n, (0 <=? n) && (n <=? 60000)) (parse_i64 v)) (snapshot_delay_ms d)
  |}.

(** What every component may rely on. *)
Record valid_config (c : config) : Prop := {
  vc_port : is_int (port c) = true;
  vc_maxclients : 0 < maxclients c <= UINT64_MAX;
  vc_buffers : is_u64 (max_client_buffers c);
  vc_node : 1 <= cfg_node_id c <= UINT32_MAX;
  vc_peers : Forall (λ p, p.1 ≠ [] ∧ p.2 ≠ []) (peers c);
  vc_rooms : is_u64 (cfg_max_rooms c);
  vc_clock_offset : is_i64 (cfg_max_clock_offset_ms c);
  vc_offset : is_i64 (cfg_clock_offset_ms c);
  vc_keys : is_u64 (cfg_max_keys c);
  vc_memory : is_u64 (cfg_maxmemory c);
  vc_rewrite : is_u64 (aof_rewrite_min_bytes c);
  vc_interval : 1 <= aof_sync_interval_ms c <= 60000;
  vc_sync_delay : 0 <= aof_sync_delay_ms c <= 60000;
  vc_snapshot_delay : 0 <= snapshot_delay_ms c <= 60000
}.

(** ** Lemmas *)

Lemma env_or_ind {A} (P : A → Prop) v parse dflt :
  P dflt → (∀ s a, parse s = Some a → P a) → P (env_or v parse dflt).
Proof. intros Hd Hp. unfold env_or. destruct v as [s|]; simpl; [|done].
  destruct (parse s) as [a|] eqn:E; simpl; [by eapply Hp|done]. Qed.

Lemma env_strict_ind {A} (P : A → Prop) v parse dflt r :
  P dflt → (∀ s a, parse s = Some a → P a) → env_strict v parse dflt = Some r → P r.
Proof. intros Hd Hp. destruct v as [s|]; simpl; [by apply Hp|by intros [= <-]]. Qed.

Lemma guard_opt_Some {A} (p : A → bool) x a : guard_opt p x = Some a → x = Some a ∧ p a = true.
Proof. destruct x as [b|]; simpl; [|done]. destruct (p b) eqn:E; [|done]. by intros [= <-]. Qed.

Lemma peer_entry_ok item h p : peer_entry item = Some (h, p) →
  item = h ++ [":"%char] ++ p ∧ h ≠ [] ∧ p ≠ [].
Proof.
  unfold peer_entry, rfind_char.
  destruct (find_char ":"%char (reverse item)) as [i|] eqn:Hf; [|done]. simpl.
  assert (Hi : reverse item !! i = Some ":"%char).
  { clear -Hf. revert i Hf. induction (reverse item) as [|c s IH]; intros i; simpl; [done|].
    case_decide; [intros [= <-]; by subst|]. intros (j & Hj & ->)%fmap_Some_1. by apply IH. }
  apply find_char_lt in Hf. rewrite length_reverse in Hf.
  set (colon := (length item - 1 - i)%nat). rewrite reverse_lookup in Hi by done.
  assert (Hc : item !! colon = Some ":"%char) by (rewrite <- Hi; f_equal; lia).
  destruct (Nat.eqb_spec colon 0) as [|H0]; [done|].
  destruct (Nat.eqb_spec (colon + 1) (length item)) as [|H1]; [done|].
  cbn [orb]. intros [= <- <-].
  split.
  - rewrite <- (take_drop_middle item colon ":"%char) at 1 by done. simpl.
    by rewrite Nat.add_1_r.
  - apply lookup_lt_Some in Hc. split; intros E; apply (f_equal length) in E; simpl in E.
    + rewrite length_take in E. lia.
    + rewrite length_drop in E. lia.
Qed.

Lemma parse_peers_ok fuel s : Forall (λ p, p.1 ≠ [] ∧ p.2 ≠ []) (parse_peers fuel s).
Proof.
  revert s. induction fuel as [|fuel IH]; intros s; simpl; [constructor|].
  destruct s as [|c s]; [constructor|].
  destruct (peer_entry _) as [[h p]|] eqn:Hp; [|apply IH].
  constructor; [by apply peer_entry_ok in Hp as (_ & ? & ?)|apply IH].
Qed.

(** A list of well-formed entries, joined by commas, is read back. *)
Definition peers_text (ps : list (bytes * bytes)) : bytes :=
  mjoin ((λ p, p.1 ++ [":"%char] ++ p.2 ++ [","%char]) <$> ps).

Definition peer_ok (p : bytes * bytes) : Prop :=
  p.1 ≠ [] ∧ p.2 ≠ [] ∧ (","%char ∉ p.1) ∧ (","%char ∉ p.2) ∧ (":"%char ∉ p.2).

Lemma peer_entry_text h p :
  h ≠ [] → p ≠ [] → ":"%char ∉ p → peer_entry (h ++ [":"%char] ++ p) = Some (h, p).
Proof.
  intros Hh Hp Hc. unfold peer_entry, rfind_char.
  rewrite !reverse_app, <- app_assoc. change (reverse [":"%char]) with [":"%char].
  rewrite find_char_first by (by rewrite elem_of_reverse).
  cbn [fmap option_fmap option_map]. rewrite length_reverse.
  replace (length (h ++ [":"%char] ++ p) - 1 - length p)%nat with (length h) by lens.
  destruct h as [|x h]; [done|]. destruct p as [|y p]; [done|].
  destruct (Nat.eqb_spec (length (x :: h)) 0); [done|].
  destruct (Nat.eqb_spec (length (x :: h) + 1) (length ((x :: h) ++ [":"%char] ++ y :: p))) as [E|];
    [exfalso; lens|].
  cbn [orb]. rewrite take_app_length. rewrite app_assoc, drop_app_exact; [done|lens].
Qed.

Lemma parse_peers_text fuel ps :
  Forall peer_ok ps → (length (peers_text ps) ≤ fuel)%nat →
  parse_peers fuel (peers_text ps) = ps.
Proof.
  intros Hps. revert fuel. induction Hps as [|[h p] ps (Hh & Hp & Hch & Hcp & Hc) Hps IH];
    intros fuel Hf; [by destruct fuel|].
  change (peers_text ((h, p) :: ps)) with ((h ++ [":"%char] ++ p ++ [","%char]) ++ peers_text ps)
    in *.
  assert (Ht : (h ++ [":"%char] ++ p ++ [","%char]) ++ peers_text ps
    = (h ++ [":"%char] ++ p) ++ [","%char] ++ peers_text ps) by (by rewrite <- !app_assoc).
  rewrite Ht in *. destruct fuel as [|fuel]; [lens|].
  destruct ((h ++ [":"%char] ++ p) ++ [","%char] ++ peers_text ps) as [|c t] eqn:E; [by destruct h|].
  cbn [parse_peers]. rewrite <- E.
  simpl in Hh, Hp, Hch, Hcp, Hc. assert (Hno : ","%char ∉ (h ++ [":"%char] ++ p)).
  { rewrite !elem_of_app, list_elem_of_singleton. by intros [?|[?|?]]. }
  rewrite find_char_first by done. cbn [default from_option id].
  rewrite take_app_length, peer_entry_text by done.
  rewrite (app_assoc _ [","%char] (peers_text ps)), drop_app_exact by lens. f_equal. apply IH.
  apply (f_equal length) in E. lens.
Qed.

Lemma load_config_ok inet_pton getenv c :
  load_config inet_pton getenv = Some c →
  valid_config c ∧ ∃ addr, inet_pton (bind_addr c) = Some addr ∧ (Z.shiftr addr 24 = 127 ∨ password c ≠ []).
Proof.
  unfold load_config. intros H.
  apply bind_Some in H as (prt & Hport & H). apply bind_Some in H as (mc & Hmc & H).
  apply bind_Some in H as (mb & Hmb & H). apply bind_Some in H as (addr & Haddr & H).
  destruct (negb _ && _) eqn:Hguard; [done|]. apply Some_inj in H. subst c.
  split.
  - split; cbn.
    + apply (env_strict_ind (λ x, is_int x = true) _ _ _ _ (eq_refl true : is_int (port default_config) = true)) in Hport; [done|].
      intros s a. unfold stoi.
      destruct (strtol s); [|done]. destruct (is_int z) eqn:E; [|done]. by intros [= <-].
    + refine (env_strict_ind (λ x, 0 < x <= UINT64_MAX) _ _ _ _ _ _ Hmc); [by vm_compute|]. intros s a.
      intros [Hp Hn]%guard_opt_Some. apply parse_u64_range in Hp. ulia.
    + refine (env_strict_ind is_u64 _ _ _ _ _ parse_u64_range Hmb). by vm_compute.
    + apply env_or_ind; [by vm_compute|]. intros s a [_ Hn]%guard_opt_Some. lia.
    + apply parse_peers_ok.
    + apply env_or_ind; [by vm_compute|]. apply parse_u64_range.
    + apply env_or_ind; [by vm_compute|]. apply parse_i64_range.
    + apply env_or_ind; [by vm_compute|]. apply parse_i64_range.
    + apply env_or_ind; [by vm_compute|]. apply parse_u64_range.
    + apply env_or_ind; [by vm_compute|]. apply parse_u64_range.
    + apply env_or_ind; [by vm_compute|]. apply parse_u64_range.
    + unfold clamp. repeat case_match; lia.
    + case_match; lia.
    + apply env_or_ind; [lia|]. intros s a [_ Hn]%guard_opt_Some. lia.
  - exists addr. split; [done|]. cbn. apply andb_false_iff in Hguard as [Hg|Hg].
    + left. lia.
    + right. by apply bool_decide_eq_false in Hg.
Qed.

(** ** Properties *)

(** C33: Configuration loading: whatever the environment holds, a
    configuration that is accepted has every field in the range the
    components rely on, every peer has a host and a port, and a server bound
    outside the loopback network has a password; a list of well-formed peers
    is read back exactly; and an empty environment gives the documented
    defaults. *)
Theorem load_config_safe inet_pton getenv c :
  load_config inet_pton getenv = Some c →
  valid_config c
  ∧ (∃ addr, inet_pton (bind_addr c) = Some addr ∧ (Z.shiftr addr 24 = 127 ∨ password c ≠ []))
  ∧ (∀ ps, Forall peer_ok ps → getenv (str "SOMNIUM_PEERS") = Some (peers_text ps) → peers c = ps)
  ∧ ((∀ v, getenv v = None) → c = default_config).
Proof.
  intros H. destruct (load_config_ok _ _ _ H) as [Hv Ha]. split; [done|]. split; [done|].
  unfold load_config in H.
  apply bind_Some in H as (prt & Hport & H). apply bind_Some in H as (mc & Hmc & H).
  apply bind_Some in H as (mb & Hmb & H). apply bind_Some in H as (addr & Haddr & H).
  destruct (negb _ && _); [done|]. apply Some_inj in H. subst c.
  split.
  - intros ps Hps Hget. cbn. rewrite Hget. by apply parse_peers_text.
  - intros Hnone. rewrite !Hnone in *. cbn in *. injection Hport as <-. injection Hmc as <-.
    injection Hmb as <-. done.
Qed.

Lemma load_config_safe_witness :
  ∃ c, load_config (λ a, if decide (a = str "0.0.0.0") then Some 0 else None)
         (λ v, if decide (v = str "SOMNIUM_BIND") then Some (str "0.0.0.0")
               else if decide (v = str "SOMNIUM_PASSWORD") then Some (str "pw")
               else if decide (v = str "SOMNIUM_PEERS") then Some (str "::1:7000,bad,b:1")
               else None) = Some c
       ∧ valid_config c ∧ peers c = [(str "::1", str "7000"); (str "b", str "1")].
Proof.
  eexists. split; [vm_compute; reflexivity|].
  split; [|vm_compute; reflexivity].
  refine (proj1 (load_config_safe (λ a, if decide (a = str "0.0.0.0") then Some 0 else None)
         (λ v, if decide (v = str "SOMNIUM_BIND") then Some (str "0.0.0.0")
               else if decide (v = str "SOMNIUM_PASSWORD") then Some (str "pw")
               else if decide (v = str "SOMNIUM_PEERS") then Some (str "::1:7000,bad,b:1")
               else None) _ _)).
  vm_compute. reflexivity.
Defined.
