(* ===== verification/World.v ===== *)
(** * What lies outside the program

    The configuration the server was started with and everything the
    operating system and the C++ library decide: the wall clock, the result of
    every system call, the iteration order of a hash table, the draws of the
    random sampler, the object sizes of the platform. The program meets the
    world in a sequence of interactions; interaction [k] sees the [k]-th
    answer, so the world may behave differently each time. *)

From S2P Require Import Prelude FsUtil Config.

Class World := {
  cfg : config;
  (** [system_clock::now()] in milliseconds, at interaction [k]. *)
  wall : nat → Z;
  (** Interaction [k], a complete read or write of [n] bytes, meets these
      system call results; the system does not answer with a signal forever. *)
  script : nat → nat → list sysret;
  script_long : ∀ k n, (n ≤ effective (script k n))%nat;
  (** A single call ([open], [rename], [fdatasync], ...) succeeds. *)
  succeeds : nat → bool;
  (** The order in which a hash table is traversed. *)
  traverse : ∀ A : Type, nat → gmap bytes A → list (bytes * A);
  traverse_perm : ∀ A (k : nat) (m : gmap bytes A), traverse A k m ≡ₚ map_to_list m;
  (** The key at the head of a randomly drawn non-empty bucket. *)
  draw : ∀ A : Type, nat → gmap bytes A → bytes;
  draw_in : ∀ A (k : nat) (m : gmap bytes A), m ≠ ∅ → is_Some (m !! draw A k m);
  (** [sizeof(Record)], [sizeof(std::string)] and [sizeof(void* )]. *)
  sizeof_record : Z;
  sizeof_string : Z;
  sizeof_pointer : Z;
  sizeof_pos : 0 < sizeof_record ∧ 0 < sizeof_string ∧ 0 < sizeof_pointer
}.

Arguments traverse {World A} k m : rename.
Arguments traverse_perm {World A} k m : rename.
Arguments draw {World A} k m : rename.
Arguments draw_in {World A} k m : rename.

(** A complete write or read at interaction [k]: [write_all], [pwrite_all] and
    [pread_all] on the script of that interaction. *)
Definition write_at `{World} (k : nat) (file data : bytes) : bool * nat * bytes :=
  default (false, 0%nat, file) (write_all (script k (length data)) file data 0).

Definition pwrite_at `{World} (k : nat) (file data : bytes) (off : nat) : bool * bytes :=
  default (false, file) (pwrite_all (script k (length data)) file data off 0).

Definition pread_at `{World} (k : nat) (file : bytes) (want off : nat) : bool * bytes :=
  default (false, []) (pread_all (script k want) file want off []).

(** The disk is readable: a complete read of bytes that are there succeeds. *)
Definition reads_ok `{World} : Prop :=
  ∀ k file want off, (off + want ≤ length file)%nat → (pread_at k file want off).1 = true.

(** The disk is not full: a complete overwrite inside a file succeeds. *)
Definition writes_ok `{World} : Prop :=
  ∀ k file data off, (off ≤ length file)%nat → (pwrite_at k file data off).1 = true.

Section world.
  Context `{World}.

Lemma write_at_spec k file data :
  ∃ ok w, write_at k file data = (ok, w, file ++ take w data)
    ∧ (w ≤ length data)%nat ∧ (ok = true ↔ w = length data).
Proof.
  unfold write_at. pose proof (script_long k (length data)).
  destruct (write_all_returns (script k (length data)) file data 0) as [[[ok w] file'] Hret];
    [lia..|].
  pose proof (write_all_inv (script k (length data)) file data 0 ok w file') as Hinv.
  rewrite take_0, app_nil_r in Hinv. destruct (Hinv ltac:(lia) Hret) as (-> & ?).
  rewrite Hret. by exists ok, w.
Qed.

Lemma pwrite_at_spec k file data off :
  (off ≤ length file)%nat →
  ∃ ok w, pwrite_at k file data off = (ok, overwrite file off (take w data))
    ∧ (w ≤ length data)%nat ∧ (ok = true ↔ w = length data).
Proof.
  intros Hoff. unfold pwrite_at. pose proof (script_long k (length data)).
  destruct (pwrite_all_returns (script k (length data)) file data off 0) as [[ok file'] Hret];
    [lia..|].
  pose proof (pwrite_all_inv (script k (length data)) file data off 0 ok file') as Hinv.
  rewrite take_0, overwrite_nil in Hinv. destruct (Hinv ltac:(lia) ltac:(lia) Hret) as (w & -> & ?).
  rewrite Hret. by exists ok, w.
Qed.

Lemma pread_at_spec k file want off :
  (pread_at k file want off).1 = true →
  (pread_at k file want off).2 = take want (drop off file)
  ∧ length (pread_at k file want off).2 = want.
Proof.
  unfold pread_at. pose proof (script_long k want).
  destruct (pread_all_returns (script k want) file want off []) as [[ok got] Hret];
    [simpl; lia..|].
  rewrite Hret. simpl. intros Hok.
  by apply (pread_all_inv (script k want) file want off [] ok got); [|simpl; lia|..].
Qed.

Lemma traverse_lookup {A} (k : nat) (m : gmap bytes A) x v : (x, v) ∈ traverse k m ↔ m !! x = Some v.
Proof. by rewrite traverse_perm, elem_of_map_to_list. Qed.

Lemma traverse_NoDup {A} (k : nat) (m : gmap bytes A) : NoDup (traverse k m).*1.
Proof. rewrite traverse_perm. apply NoDup_fst_map_to_list. Qed.

Lemma traverse_length {A} (k : nat) (m : gmap bytes A) : length (traverse k m) = size m.
Proof. by rewrite traverse_perm, length_map_to_list. Qed.

Lemma traverse_map {A} (k : nat) (m : gmap bytes A) : list_to_map (traverse k m) = m.
Proof.
  rewrite <- (list_to_map_to_list m) at 2. apply list_to_map_proper; [apply traverse_NoDup|].
  apply traverse_perm.
Qed.

End world.

(** ** A concrete world

    Every call succeeds at once, the clock stands still at [t], tables are
    traversed in key order. The witnesses run the program in it. *)
Definition calm (c : config) (t : Z) : World.
Proof.
  refine {| cfg := c; wall := λ _, t; script := λ _ n, replicate (S n) (Moved (S n));
    succeeds := λ _, true; traverse := λ A _ m, map_to_list m;
    draw := λ A _ m, match map_to_list m with (x, _) :: _ => x | [] => [] end;
    sizeof_record := 56; sizeof_string := 32; sizeof_pointer := 8 |}.
  - intros _ n. rewrite effective_replicate by done. lia.
  - done.
  - intros A _ m Hm. destruct (map_to_list m) as [|[x v] l] eqn:E.
    + by apply map_to_list_empty_iff in E.
    + exists v. apply elem_of_map_to_list. rewrite E. by left.
  - lia.
Defined.

Lemma calm_reads_ok c t : @reads_ok (calm c t).
Proof.
  intros k file want off Hlen. unfold pread_at. cbn [script calm replicate pread_all].
  destruct want as [|want]; [done|]. cbn [length Nat.leb].
  rewrite Nat.add_0_r, Nat.sub_0_r. set (chunk := take _ _).
  assert (Hc : length chunk = S want)
    by (subst chunk; rewrite length_take, length_drop; lia).
  rewrite Hc. cbn [Nat.ltb Nat.leb replicate pread_all app]. rewrite Hc, Nat.leb_refl. done.
Qed.

Lemma calm_writes_ok c t : @writes_ok (calm c t).
Proof.
  intros k file data off Hlen. unfold pwrite_at. cbn [script calm replicate pwrite_all].
  destruct data as [|x data]; [done|]. cbn [length Nat.leb].
  rewrite Nat.min_r, Nat.sub_0_r by lia. cbn [Nat.ltb Nat.leb replicate pwrite_all]. rewrite Nat.add_0_l.
  cbn [length]. by rewrite Nat.leb_refl.
Qed.
