(* ===== verification/Types.v ===== *)
(** * Records and rooms (src/core/record.h, src/core/room.h)

    The stored record, the room that owns its resident records, their
    estimated cost, and the little-endian layout the binary formats of the
    cold file and of the snapshots share (a [memcpy] of the integer on a
    little-endian platform). A [Record*] owned by a room is the map's entry:
    reading through it is a lookup, writing an insertion at the same key. *)

From S2P Require Import Prelude FsUtil Hlc World.

(** ** [struct Record] *)
Record record := Record_ {
  r_value : bytes;
  r_expire : Z;
  r_ts : Z;
  r_node : Z
}.

Global Instance record_eq_dec : EqDecision record.
Proof. solve_decision. Defined.

(** The default constructor. *)
Definition new_record : record := Record_ [] 0 0 1.

Definition expired (r : record) (now_ms : Z) : bool := (0 <? r_expire r) && (r_expire r <? now_ms).

Definition r_version (r : record) : version := Version (r_ts r) (r_node r).

Definition with_value (v : bytes) (r : record) : record :=
  Record_ v (r_expire r) (r_ts r) (r_node r).
Definition with_expire (e : Z) (r : record) : record :=
  Record_ (r_value r) e (r_ts r) (r_node r).
Definition with_version (v : version) (r : record) : record :=
  Record_ (r_value r) (r_expire r) (v_ts v) (v_node v).

(** The fields are in the range of their C++ types. *)
Definition wf_record (r : record) : Prop :=
  is_i64 (r_expire r) ∧ is_u64 (r_ts r) ∧ is_u32 (r_node r).

(** ** [class Room] *)
Inductive RoomState := Sleeping | Loading | Active | Hibernating.

Global Instance RoomState_eq_dec : EqDecision RoomState.
Proof. solve_decision. Defined.

Record room := Room {
  keys : gmap bytes record;
  last_access : Z;
  state : RoomState;
  rbytes : Z
}.

Definition new_room : room := Room ∅ 0 Sleeping 0.

Definition kRecordOverhead `{World} : Z := sizeof_record + sizeof_string + 2 * sizeof_pointer.

Definition record_cost `{World} (key : bytes) (r : record) : Z :=
  len key + len (r_value r) + kRecordOverhead.

(** [Room::keys_cost], a sum over the table in any order. *)
Definition keys_cost `{World} (m : gmap bytes record) : Z :=
  map_fold (λ key r total, record_cost key r + total) 0 m.

Section cost.
  Context `{World}.

Lemma record_cost_pos key r : 0 < record_cost key r.
Proof.
  unfold record_cost, kRecordOverhead. pose proof sizeof_pos. ulia.
Qed.

Lemma keys_cost_empty : keys_cost ∅ = 0.
Proof. apply map_fold_empty. Qed.

Lemma keys_cost_insert_new m key r :
  m !! key = None → keys_cost (<[key := r]> m) = record_cost key r + keys_cost m.
Proof.
  intros Hk. unfold keys_cost. rewrite (map_fold_insert_L _ _ key r m); [done| |done].
  intros. lia.
Qed.

Lemma keys_cost_delete m key r :
  m !! key = Some r → keys_cost m = record_cost key r + keys_cost (delete key m).
Proof.
  intros Hk. rewrite <- (insert_delete_id m key r) at 1 by done.
  apply keys_cost_insert_new. apply lookup_delete_eq.
Qed.

Lemma keys_cost_insert m key r r' :
  m !! key = Some r →
  keys_cost (<[key := r']> m) = keys_cost m - record_cost key r + record_cost key r'.
Proof.
  intros Hk. rewrite (keys_cost_delete m key r Hk), <- insert_delete_eq.
  rewrite keys_cost_insert_new by apply lookup_delete_eq. lia.
Qed.

Lemma keys_cost_nonneg m : 0 <= keys_cost m.
Proof.
  induction m as [|k r m Hk _ IH] using map_first_key_ind; [by rewrite keys_cost_empty|].
  rewrite keys_cost_insert_new by done. pose proof (record_cost_pos k r). lia.
Qed.

End cost.

(** ** Little-endian integers *)

Fixpoint le_bytes (n : nat) (z : Z) : bytes :=
  match n with
  | O => []
  | S n => chr (z mod 256) :: le_bytes n (z / 256)
  end.

Fixpoint le_val (s : bytes) : Z :=
  match s with
  | [] => 0
  | c :: s => ord c + 256 * le_val s
  end.

Lemma le_bytes_length n z : length (le_bytes n z) = n.
Proof. revert z. induction n as [|n IH]; intros z; simpl; [done|]. by rewrite IH. Qed.

Lemma le_val_bytes n z : 0 <= z < 256 ^ Z.of_nat n → le_val (le_bytes n z) = z.
Proof.
  revert z. induction n as [|n IH]; intros z Hz; simpl; [lia|].
  rewrite Nat2Z.inj_succ, Z.pow_succ_r in Hz by lia.
  rewrite ord_chr by (apply Z.mod_pos_bound; lia).
  rewrite IH; [pose proof (Z.div_mod z 256); lia|].
  split; [apply Z.div_pos; lia|apply Z.div_lt_upper_bound; lia].
Qed.

Lemma le_val_range s : 0 <= le_val s < 256 ^ len s.
Proof.
  induction s as [|c s IH]; simpl; [done|]. rewrite len_cons, Z.pow_add_r by ulia.
  pose proof (ord_range c). lia.
Qed.

Arguments le_bytes : simpl never.
Arguments le_val : simpl never.
Arguments record_cost : simpl never.
Arguments keys_cost : simpl never.

(** A 64-bit signed field is stored as its two's complement. *)
Lemma le_i64 z : is_i64 z → to_i64 (le_val (le_bytes 8 (wrap64 z))) = z.
Proof.
  intros Hz. rewrite le_val_bytes; [by apply to_i64_wrap64|].
  pose proof (wrap64_range z). ulia.
Qed.

Lemma le_u64 z : is_u64 z → le_val (le_bytes 8 z) = z.
Proof. intros Hz. apply le_val_bytes. ulia. Qed.

Lemma le_u32 z : is_u32 z → le_val (le_bytes 4 z) = z.
Proof. intros Hz. apply le_val_bytes. ulia. Qed.
