(* ===== verification/State.v ===== *)
(** * The state of the database

    The members of [Database] and of the managers it owns, as records with one
    update function per member, and the primitive actions of the state monad
    on them. *)

From S2P Require Import Prelude FsUtil Hlc Sketch Config World Types.

(** The counters of [DbMetrics] (src/server/metrics.h) that the database changes:
    64-bit atomics. *)
Record metrics := Metrics_ {
  keys_in_ram : Z;
  resident_bytes : Z;
  tombstones : Z;
  total_gets : Z;
  total_sets : Z;
  cache_hits : Z;
  cache_misses : Z;
  keys_evicted : Z;
  cold_file_bytes : Z;
  cold_obsolete_bytes : Z;
  cold_reclaimed_bytes : Z
}.

Definition upd_keys_in_ram (g : Z → Z) (s : metrics) : metrics :=
  Metrics_ (g (keys_in_ram s)) (resident_bytes s) (tombstones s) (total_gets s) (total_sets s) (cache_hits s) (cache_misses s) (keys_evicted s) (cold_file_bytes s) (cold_obsolete_bytes s) (cold_reclaimed_bytes s).
Definition upd_resident_bytes (g : Z → Z) (s : metrics) : metrics :=
  Metrics_ (keys_in_ram s) (g (resident_bytes s)) (tombstones s) (total_gets s) (total_sets s) (cache_hits s) (cache_misses s) (keys_evicted s) (cold_file_bytes s) (cold_obsolete_bytes s) (cold_reclaimed_bytes s).
Definition upd_tombstones (g : Z → Z) (s : metrics) : metrics :=
  Metrics_ (keys_in_ram s) (resident_bytes s) (g (tombstones s)) (total_gets s) (total_sets s) (cache_hits s) (cache_misses s) (keys_evicted s) (cold_file_bytes s) (cold_obsolete_bytes s) (cold_reclaimed_bytes s).
Definition upd_total_gets (g : Z → Z) (s : metrics) : metrics :=
  Metrics_ (keys_in_ram s) (resident_bytes s) (tombstones s) (g (total_gets s)) (total_sets s) (cache_hits s) (cache_misses s) (keys_evicted s) (cold_file_bytes s) (cold_obsolete_bytes s) (cold_reclaimed_bytes s).
Definition upd_total_sets (g : Z → Z) (s : metrics) : metrics :=
  Metrics_ (keys_in_ram s) (resident_bytes s) (tombstones s) (total_gets s) (g (total_sets s)) (cache_hits s) (cache_misses s) (keys_evicted s) (cold_file_bytes s) (cold_obsolete_bytes s) (cold_reclaimed_bytes s).
Definition upd_cache_hits (g : Z → Z) (s : metrics) : metrics :=
  Metrics_ (keys_in_ram s) (resident_bytes s) (tombstones s) (total_gets s) (total_sets s) (g (cache_hits s)) (cache_misses s) (keys_evicted s) (cold_file_bytes s) (cold_obsolete_bytes s) (cold_reclaimed_bytes s).
Definition upd_cache_misses (g : Z → Z) (s : metrics) : metrics :=
  Metrics_ (keys_in_ram s) (resident_bytes s) (tombstones s) (total_gets s) (total_sets s) (cache_hits s) (g (cache_misses s)) (keys_evicted s) (cold_file_bytes s) (cold_obsolete_bytes s) (cold_reclaimed_bytes s).
Definition upd_keys_evicted (g : Z → Z) (s : metrics) : metrics :=
  Metrics_ (keys_in_ram s) (resident_bytes s) (tombstones s) (total_gets s) (total_sets s) (cache_hits s) (cache_misses s) (g (keys_evicted s)) (cold_file_bytes s) (cold_obsolete_bytes s) (cold_reclaimed_bytes s).
Definition upd_cold_file_bytes (g : Z → Z) (s : metrics) : metrics :=
  Metrics_ (keys_in_ram s) (resident_bytes s) (tombstones s) (total_gets s) (total_sets s) (cache_hits s) (cache_misses s) (keys_evicted s) (g (cold_file_bytes s)) (cold_obsolete_bytes s) (cold_reclaimed_bytes s).
Definition upd_cold_obsolete_bytes (g : Z → Z) (s : metrics) : metrics :=
  Metrics_ (keys_in_ram s) (resident_bytes s) (tombstones s) (total_gets s) (total_sets s) (cache_hits s) (cache_misses s) (keys_evicted s) (cold_file_bytes s) (g (cold_obsolete_bytes s)) (cold_reclaimed_bytes s).
Definition upd_cold_reclaimed_bytes (g : Z → Z) (s : metrics) : metrics :=
  Metrics_ (keys_in_ram s) (resident_bytes s) (tombstones s) (total_gets s) (total_sets s) (cache_hits s) (cache_misses s) (keys_evicted s) (cold_file_bytes s) (cold_obsolete_bytes s) (g (cold_reclaimed_bytes s)).

(** An entry of the cold index: where the latest record of a key lies. *)
Record cold_ref := ColdRef { ref_off : nat; ref_len : nat }.

(** [EvictionManager]: the index, the cold file and its logical end, the sketch. *)
Record cold_state := Cold_ {
  index : gmap bytes (gmap bytes cold_ref);
  cold_file : bytes;
  cold_open : bool;
  file_bytes : nat;
  obsolete_bytes : nat;
  cms : table
}.

Definition upd_index (g : gmap bytes (gmap bytes cold_ref) → gmap bytes (gmap bytes cold_ref)) (s : cold_state) : cold_state :=
  Cold_ (g (index s)) (cold_file s) (cold_open s) (file_bytes s) (obsolete_bytes s) (cms s).
Definition upd_cold_file (g : bytes → bytes) (s : cold_state) : cold_state :=
  Cold_ (index s) (g (cold_file s)) (cold_open s) (file_bytes s) (obsolete_bytes s) (cms s).
Definition upd_cold_open (g : bool → bool) (s : cold_state) : cold_state :=
  Cold_ (index s) (cold_file s) (g (cold_open s)) (file_bytes s) (obsolete_bytes s) (cms s).
Definition upd_file_bytes (g : nat → nat) (s : cold_state) : cold_state :=
  Cold_ (index s) (cold_file s) (cold_open s) (g (file_bytes s)) (obsolete_bytes s) (cms s).
Definition upd_obsolete_bytes (g : nat → nat) (s : cold_state) : cold_state :=
  Cold_ (index s) (cold_file s) (cold_open s) (file_bytes s) (g (obsolete_bytes s)) (cms s).
Definition upd_cms (g : table → table) (s : cold_state) : cold_state :=
  Cold_ (index s) (cold_file s) (cold_open s) (file_bytes s) (obsolete_bytes s) (g (cms s)).

(** [AOFManager]: the file [appendonly.aof], the temporary file of a rewrite while
    [rewrite_fd_] is open, the members, and what is known to be on the disk:
    [durable] is what of the file a successful [fdatasync] has put there, [former]
    what the name may still stand for there, because the directory was not
    synced since it was given to the file: no file, or the durable part of
    a file it was taken from. *)
Record aof_state := Aof_ {
  aof_file : option bytes;
  fd_open : bool;
  rewrite_file : option bytes;
  healthy : bool;
  torn : bool;
  needs_rewrite : bool;
  replaying : bool;
  size_ : nat;
  base_size : nat;
  last_tail : nat;
  generation : nat;
  synced : nat;
  last_sync_epoch_ms : Z;
  durable : bytes;
  former : list (option bytes)
}.

Definition upd_aof_file (g : option bytes → option bytes) (s : aof_state) : aof_state :=
  Aof_ (g (aof_file s)) (fd_open s) (rewrite_file s) (healthy s) (torn s) (needs_rewrite s) (replaying s) (size_ s) (base_size s) (last_tail s) (generation s) (synced s) (last_sync_epoch_ms s) (durable s) (former s).
Definition upd_fd_open (g : bool → bool) (s : aof_state) : aof_state :=
  Aof_ (aof_file s) (g (fd_open s)) (rewrite_file s) (healthy s) (torn s) (needs_rewrite s) (replaying s) (size_ s) (base_size s) (last_tail s) (generation s) (synced s) (last_sync_epoch_ms s) (durable s) (former s).
Definition upd_rewrite_file (g : option bytes → option bytes) (s : aof_state) : aof_state :=
  Aof_ (aof_file s) (fd_open s) (g (rewrite_file s)) (healthy s) (torn s) (needs_rewrite s) (replaying s) (size_ s) (base_size s) (last_tail s) (generation s) (synced s) (last_sync_epoch_ms s) (durable s) (former s).
Definition upd_healthy (g : bool → bool) (s : aof_state) : aof_state :=
  Aof_ (aof_file s) (fd_open s) (rewrite_file s) (g (healthy s)) (torn s) (needs_rewrite s) (replaying s) (size_ s) (base_size s) (last_tail s) (generation s) (synced s) (last_sync_epoch_ms s) (durable s) (former s).
Definition upd_torn (g : bool → bool) (s : aof_state) : aof_state :=
  Aof_ (aof_file s) (fd_open s) (rewrite_file s) (healthy s) (g (torn s)) (needs_rewrite s) (replaying s) (size_ s) (base_size s) (last_tail s) (generation s) (synced s) (last_sync_epoch_ms s) (durable s) (former s).
Definition upd_needs_rewrite (g : bool → bool) (s : aof_state) : aof_state :=
  Aof_ (aof_file s) (fd_open s) (rewrite_file s) (healthy s) (torn s) (g (needs_rewrite s)) (replaying s) (size_ s) (base_size s) (last_tail s) (generation s) (synced s) (last_sync_epoch_ms s) (durable s) (former s).
Definition upd_replaying (g : bool → bool) (s : aof_state) : aof_state :=
  Aof_ (aof_file s) (fd_open s) (rewrite_file s) (healthy s) (torn s) (needs_rewrite s) (g (replaying s)) (size_ s) (base_size s) (last_tail s) (generation s) (synced s) (last_sync_epoch_ms s) (durable s) (former s).
Definition upd_size_ (g : nat → nat) (s : aof_state) : aof_state :=
  Aof_ (aof_file s) (fd_open s) (rewrite_file s) (healthy s) (torn s) (needs_rewrite s) (replaying s) (g (size_ s)) (base_size s) (last_tail s) (generation s) (synced s) (last_sync_epoch_ms s) (durable s) (former s).
Definition upd_base_size (g : nat → nat) (s : aof_state) : aof_state :=
  Aof_ (aof_file s) (fd_open s) (rewrite_file s) (healthy s) (torn s) (needs_rewrite s) (replaying s) (size_ s) (g (base_size s)) (last_tail s) (generation s) (synced s) (last_sync_epoch_ms s) (durable s) (former s).
Definition upd_last_tail (g : nat → nat) (s : aof_state) : aof_state :=
  Aof_ (aof_file s) (fd_open s) (rewrite_file s) (healthy s) (torn s) (needs_rewrite s) (replaying s) (size_ s) (base_size s) (g (last_tail s)) (generation s) (synced s) (last_sync_epoch_ms s) (durable s) (former s).
Definition upd_generation (g : nat → nat) (s : aof_state) : aof_state :=
  Aof_ (aof_file s) (fd_open s) (rewrite_file s) (healthy s) (torn s) (needs_rewrite s) (replaying s) (size_ s) (base_size s) (last_tail s) (g (generation s)) (synced s) (last_sync_epoch_ms s) (durable s) (former s).
Definition upd_synced (g : nat → nat) (s : aof_state) : aof_state :=
  Aof_ (aof_file s) (fd_open s) (rewrite_file s) (healthy s) (torn s) (needs_rewrite s) (replaying s) (size_ s) (base_size s) (last_tail s) (generation s) (g (synced s)) (last_sync_epoch_ms s) (durable s) (former s).
Definition upd_last_sync_epoch_ms (g : Z → Z) (s : aof_state) : aof_state :=
  Aof_ (aof_file s) (fd_open s) (rewrite_file s) (healthy s) (torn s) (needs_rewrite s) (replaying s) (size_ s) (base_size s) (last_tail s) (generation s) (synced s) (g (last_sync_epoch_ms s)) (durable s) (former s).
Definition upd_durable (g : bytes → bytes) (s : aof_state) : aof_state :=
  Aof_ (aof_file s) (fd_open s) (rewrite_file s) (healthy s) (torn s) (needs_rewrite s) (replaying s) (size_ s) (base_size s) (last_tail s) (generation s) (synced s) (last_sync_epoch_ms s) (g (durable s)) (former s).
Definition upd_former (g : list (option bytes) → list (option bytes)) (s : aof_state) : aof_state :=
  Aof_ (aof_file s) (fd_open s) (rewrite_file s) (healthy s) (torn s) (needs_rewrite s) (replaying s) (size_ s) (base_size s) (last_tail s) (generation s) (synced s) (last_sync_epoch_ms s) (durable s) (g (former s)).

(** The CRDT members of [Database]: the clock, the tombstones and the frontiers. *)
Record crdt_state := Crdt_ {
  clock : Z;
  tombs : gmap bytes (gmap bytes version);
  frontiers : gmap Z Z;
  watermark : Z;
  frontier : Z
}.

Definition upd_clock (g : Z → Z) (s : crdt_state) : crdt_state :=
  Crdt_ (g (clock s)) (tombs s) (frontiers s) (watermark s) (frontier s).
Definition upd_tombs (g : gmap bytes (gmap bytes version) → gmap bytes (gmap bytes version)) (s : crdt_state) : crdt_state :=
  Crdt_ (clock s) (g (tombs s)) (frontiers s) (watermark s) (frontier s).
Definition upd_frontiers (g : gmap Z Z → gmap Z Z) (s : crdt_state) : crdt_state :=
  Crdt_ (clock s) (tombs s) (g (frontiers s)) (watermark s) (frontier s).
Definition upd_watermark (g : Z → Z) (s : crdt_state) : crdt_state :=
  Crdt_ (clock s) (tombs s) (frontiers s) (g (watermark s)) (frontier s).
Definition upd_frontier (g : Z → Z) (s : crdt_state) : crdt_state :=
  Crdt_ (clock s) (tombs s) (frontiers s) (watermark s) (g (frontier s)).

(** What the rooms share. [sys_tick] numbers the interactions with the world;
    [snaps] holds the snapshot file of each room, [aside] the corrupt files kept
    under another name. *)
Record shared := Shared_ {
  sys_tick : nat;
  met : metrics;
  cold : cold_state;
  aof : aof_state;
  crdt : crdt_state;
  snaps : gmap bytes bytes;
  aside : list bytes
}.

Definition upd_sys_tick (g : nat → nat) (s : shared) : shared :=
  Shared_ (g (sys_tick s)) (met s) (cold s) (aof s) (crdt s) (snaps s) (aside s).
Definition upd_met (g : metrics → metrics) (s : shared) : shared :=
  Shared_ (sys_tick s) (g (met s)) (cold s) (aof s) (crdt s) (snaps s) (aside s).
Definition upd_cold (g : cold_state → cold_state) (s : shared) : shared :=
  Shared_ (sys_tick s) (met s) (g (cold s)) (aof s) (crdt s) (snaps s) (aside s).
Definition upd_aof (g : aof_state → aof_state) (s : shared) : shared :=
  Shared_ (sys_tick s) (met s) (cold s) (g (aof s)) (crdt s) (snaps s) (aside s).
Definition upd_crdt (g : crdt_state → crdt_state) (s : shared) : shared :=
  Shared_ (sys_tick s) (met s) (cold s) (aof s) (g (crdt s)) (snaps s) (aside s).
Definition upd_snaps (g : gmap bytes bytes → gmap bytes bytes) (s : shared) : shared :=
  Shared_ (sys_tick s) (met s) (cold s) (aof s) (crdt s) (g (snaps s)) (aside s).
Definition upd_aside (g : list bytes → list bytes) (s : shared) : shared :=
  Shared_ (sys_tick s) (met s) (cold s) (aof s) (crdt s) (snaps s) (g (aside s)).

(** A command in a room works on the room, whose lock it holds, and on what the
    rooms share. *)
Record ctx := Ctx_ {
  c_room : room;
  c_sh : shared
}.

Definition upd_c_room (g : room → room) (s : ctx) : ctx :=
  Ctx_ (g (c_room s)) (c_sh s).
Definition upd_c_sh (g : shared → shared) (s : ctx) : ctx :=
  Ctx_ (c_room s) (g (c_sh s)).

Definition upd_keys (g : gmap bytes record → gmap bytes record) (r : room) : room :=
  Room (g (keys r)) (last_access r) (state r) (rbytes r).
Definition upd_last_access (g : Z → Z) (r : room) : room :=
  Room (keys r) (g (last_access r)) (state r) (rbytes r).
Definition upd_state (g : RoomState → RoomState) (r : room) : room :=
  Room (keys r) (last_access r) (g (state r)) (rbytes r).
Definition upd_rbytes (g : Z → Z) (r : room) : room :=
  Room (keys r) (last_access r) (state r) (g (rbytes r)).

(** ** Initial states *)

Definition init_metrics : metrics := Metrics_ 0 0 0 0 0 0 0 0 0 0 0.

Definition init_cold : cold_state := Cold_ ∅ [] true 0 0 empty_table.

(** [flushed] and [stale]: what earlier processes left on the disk. *)
Definition init_aof (file : option bytes) (flushed : bytes) (stale : list (option bytes)) : aof_state :=
  Aof_ file false None true false false true 0 0 0 0 0 0 flushed stale.

Definition init_crdt : crdt_state := Crdt_ 0 ∅ ∅ 0 0.

(** Nothing of the log is taken to be on the disk. *)
Definition init_shared (file : option bytes) (snaps : gmap bytes bytes) : shared :=
  Shared_ 0 init_metrics init_cold (init_aof file [] [None]) init_crdt snaps [].

(** ** Primitive actions *)

Section prims.
  Context `{World}.

(** One interaction with the world. *)
Definition interact {A} (f : nat → A) : M shared A :=
  λ s, (f (sys_tick s), upd_sys_tick S s).

(** [Database::get_current_time_ms]. *)
Definition get_current_time_ms : M shared Z :=
  interact (λ k, wall k + cfg_clock_offset_ms cfg).

(** A system call that may fail. *)
Definition syscall : M shared bool := interact succeeds.

(** [fetch_add] on a counter; a negative [delta] is [fetch_sub]. *)
Definition fetch_add (upd : (Z → Z) → metrics → metrics) (delta : Z) : M shared unit :=
  modify (upd_met (upd (λ n, wrap64 (n + delta)))).

Definition mod_aof (f : aof_state → aof_state) : M shared unit := modify (upd_aof f).

(** Shared actions and room actions, from a command in a room. *)
Definition sh {A} (m : M shared A) : M ctx A := zoom c_sh (λ t, upd_c_sh (λ _, t)) m.

Definition get_room {A} (f : room → A) : M ctx A := gets (λ c, f (c_room c)).
Definition mod_room (f : room → room) : M ctx unit := modify (upd_c_room f).

(** [Room::charge]: the room's bytes and the global counter. *)
Definition charge (delta : Z) : M ctx unit :=
  mod_room (upd_rbytes (λ n, wrap64 (n + delta))) ;;
  sh (fetch_add upd_resident_bytes delta).

End prims.

Section wp_prims.
  Context `{World}.

Lemma wp_sh {A} (m : M shared A) (Q : A → ctx → Prop) c :
  wp m (λ a t, Q a (Ctx_ (c_room c) t)) (c_sh c) → wp (sh m) Q c.
Proof. intros Hm. by apply wp_zoom. Qed.

Lemma wp_interact {A} (f : nat → A) (Q : A → shared → Prop) s :
  Q (f (sys_tick s)) (upd_sys_tick S s) → wp (interact f) Q s.
Proof. done. Qed.

Lemma wp_get_room {A} (f : room → A) (Q : A → ctx → Prop) c :
  Q (f (c_room c)) c → wp (get_room f) Q c.
Proof. done. Qed.

Lemma wp_mod_room f (Q : unit → ctx → Prop) c : Q tt (upd_c_room f c) → wp (mod_room f) Q c.
Proof. done. Qed.

Lemma wp_fetch_add upd delta (Q : unit → shared → Prop) s :
  Q tt (upd_met (upd (λ n, wrap64 (n + delta))) s) → wp (fetch_add upd delta) Q s.
Proof. done. Qed.

Lemma wp_charge delta (Q : unit → ctx → Prop) c :
  Q tt (Ctx_ (upd_rbytes (λ n, wrap64 (n + delta)) (c_room c))
          (upd_met (upd_resident_bytes (λ n, wrap64 (n + delta))) (c_sh c))) →
  wp (charge delta) Q c.
Proof. done. Qed.

Lemma wp_mod_aof f (Q : unit → shared → Prop) s : Q tt (upd_aof f s) → wp (mod_aof f) Q s.
Proof. done. Qed.

Lemma wp_now (Q : Z → shared → Prop) s :
  Q (wall (sys_tick s) + cfg_clock_offset_ms cfg) (upd_sys_tick S s) →
  wp get_current_time_ms Q s.
Proof. done. Qed.

Lemma wp_syscall (Q : bool → shared → Prop) s :
  Q (succeeds (sys_tick s)) (upd_sys_tick S s) → wp syscall Q s.
Proof. done. Qed.

End wp_prims.

Ltac wp_more ::=
  match goal with
  | |- wp (sh _) _ _ => apply wp_sh
  | |- wp (interact _) _ _ => apply wp_interact
  | |- wp (get_room _) _ _ => apply wp_get_room
  | |- wp (mod_room _) _ _ => apply wp_mod_room
  | |- wp (fetch_add _ _) _ _ => apply wp_fetch_add
  | |- wp (mod_aof _) _ _ => apply wp_mod_aof
  | |- wp (charge _) _ _ => apply wp_charge
  | |- wp get_current_time_ms _ _ => apply wp_now
  | |- wp syscall _ _ => apply wp_syscall
  end.
