(* ===== verification/Cold.v ===== *)
(** * Cold storage (src/storage/eviction_manager.h, .cpp)

    Evicted records live in an append-only file; an index in RAM gives the
    place of the latest record of each key. [take] moves a key back,
    [evict_despised_keys] moves keys out, [compact] rewrites the file. The
    contents of the cold storage are the map [cold_view]: what the index
    entries of a room decode to. *)

From S2P Require Import Prelude FsUtil Hlc Sketch Config World Types State.

(** ** The record format *)

Definition kHeader : nat := 8 + 8 + 4.

Definition encode_cold (r : record) : bytes :=
  le_bytes 8 (wrap64 (r_expire r)) ++ le_bytes 8 (r_ts r) ++ le_bytes 4 (r_node r) ++ r_value r.

Definition decode_cold (raw : bytes) : record := {|
  r_value := drop kHeader raw;
  r_expire := to_i64 (le_val (take 8 raw));
  r_ts := le_val (take 8 (drop 8 raw));
  r_node := le_val (take 4 (drop 16 raw))
|}.

Arguments encode_cold : simpl never.
Arguments decode_cold : simpl never.

Lemma encode_cold_length r : length (encode_cold r) = (kHeader + length (r_value r))%nat.
Proof. unfold encode_cold. rewrite !length_app, !le_bytes_length. done. Qed.

Lemma decode_encode_cold r : wf_record r → decode_cold (encode_cold r) = r.
Proof.
  intros (He & Ht & Hn). unfold decode_cold, encode_cold. destruct r as [v e ts n]. cbn [r_value r_expire r_ts r_node] in *.
  set (b1 := le_bytes 8 (wrap64 e)). set (b2 := le_bytes 8 ts). set (b3 := le_bytes 4 n).
  assert (L1 : length b1 = 8%nat) by apply le_bytes_length.
  assert (L2 : length b2 = 8%nat) by apply le_bytes_length.
  assert (L3 : length b3 = 4%nat) by apply le_bytes_length.
  f_equal.
  - rewrite take_app_exact by done. by apply le_i64.
  - rewrite drop_app_exact, take_app_exact by done. by apply le_u64.
  - rewrite (app_assoc b1), drop_app_exact, take_app_exact by lens. by apply le_u32.
Qed.

Lemma decode_wf raw : (kHeader ≤ length raw)%nat → wf_record (decode_cold raw).
Proof.
  unfold kHeader. intros Hl. unfold decode_cold. split; [|split]; cbn [r_expire r_ts r_node].
  - unfold to_i64. pose proof (wrap64_range (le_val (take 8 raw) + 2 ^ 63)). ulia.
  - pose proof (le_val_range (take 8 (drop 8 raw))) as Hr. revert Hr. unfold len.
    rewrite length_take, length_drop, Nat.min_l by lia. ulia.
  - pose proof (le_val_range (take 4 (drop 16 raw))) as Hr. revert Hr. unfold len.
    rewrite length_take, length_drop, Nat.min_l by lia. ulia.
Qed.

(** ** Operations *)

Section cold.
  Context `{World}.

Definition publish_metrics : M shared unit :=
  modify (λ s, upd_met (λ m,
    upd_cold_file_bytes (λ _, Z.of_nat (file_bytes (cold s)))
      (upd_cold_obsolete_bytes (λ _, Z.of_nat (obsolete_bytes (cold s))) m)) s).

Definition record_access (key : bytes) : M shared unit :=
  modify (upd_cold (upd_cms (Sketch.record_access key))).

(** [fits]: no limit, or the resident bytes and [extra] are within it. *)
Definition fits (extra : Z) : M shared bool :=
  gets (λ s, (cfg_maxmemory cfg =? 0)
             || (wrap64 (resident_bytes (met s) + extra) <=? cfg_maxmemory cfg)).

(** [pread_all] of an entry; on a file that is not open it fails. *)
Definition read_ref (ref : cold_ref) : M shared (bool * bytes) :=
  let* c := gets cold in
  interact (λ k, if cold_open c then pread_at k (cold_file c) (ref_len ref) (ref_off ref)
                 else (false, [])).

Definition find_ref (room_name key : bytes) (c : cold_state) : option cold_ref :=
  index c !! room_name ≫= (.!! key).

(** The inner table of a room, with one entry changed; an empty one is
    dropped from the index. *)
Definition index_erase (room_name key : bytes) (c : cold_state) : cold_state :=
  upd_index (partial_alter (λ o,
    let m := delete key (default ∅ o) in if decide (m = ∅) then None else Some m) room_name) c.

Definition index_put (room_name key : bytes) (ref : cold_ref) (c : cold_state) : cold_state :=
  upd_index (partial_alter (λ o, Some (<[key := ref]> (default ∅ o))) room_name) c.

Definition take_cold (room_name key : bytes) : M shared (option record) :=
  let* c := gets cold in
  match find_ref room_name key c with
  | None => ret None
  | Some ref =>
      let* '(ok, raw) := read_ref ref in
      if negb ok then ret None else
      modify (upd_cold (index_erase room_name key)) ;;
      modify (upd_cold (upd_obsolete_bytes (λ n, n + ref_len ref)%nat)) ;;
      publish_metrics ;;
      ret (Some (decode_cold raw))
  end.

(** The sampling of [evict_despised_keys]: the rarest of the keys drawn. *)
Definition SAMPLE_SIZE : nat := 5.
Definition EXTRA_SAMPLES : nat := 64.

Definition sample (acc : option bytes * Z) : M ctx (option bytes * Z) :=
  let* m := get_room keys in
  let* candidate := sh (interact (λ k, draw k m)) in
  let* t := sh (gets (λ s, cms (cold s))) in
  let freq := estimate_frequency candidate t in
  let '(victim, lowest) := acc in
  ret (match victim with
       | None => (Some candidate, freq)
       | Some _ => if freq <? lowest then (Some candidate, freq) else acc
       end).

Fixpoint samples (n : nat) (acc : option bytes * Z) : M ctx (option bytes * Z) :=
  match n with
  | O => ret acc
  | S n => let* acc := sample acc in samples n acc
  end.

Fixpoint extra_samples (n : nat) (acc : option bytes * Z) : M ctx (option bytes * Z) :=
  match n with
  | O => ret acc
  | S n => if acc.2 <=? 2 then ret acc else let* acc := sample acc in extra_samples n acc
  end.

Definition choose_victim : M ctx bytes :=
  let* acc := samples SAMPLE_SIZE (None, 0xFFFF) in
  let* acc := (if 10 <? acc.2 then extra_samples EXTRA_SAMPLES acc else ret acc) in
  ret (default [] acc.1).

(** One round of the loop: the victim's record goes to the logical end of the
    file. [false]: the write failed and the loop stops. *)
Definition pwrite_cold (data : bytes) : M shared bool :=
  let* c := gets cold in
  if negb (cold_open c) then ret false else
  let* '(ok, file) := interact (λ k, pwrite_at k (cold_file c) data (file_bytes c)) in
  modify (upd_cold (upd_cold_file (λ _, file))) ;;
  ret ok.

Definition evict_one (room_name : bytes) : M ctx bool :=
  let* victim := choose_victim in
  let* m := get_room keys in
  match m !! victim with
  | None => ret false
  | Some r =>
      let data := encode_cold r in
      let* ok := sh (pwrite_cold data) in
      if negb ok then ret false else
      sh (modify (upd_cold (λ c,
        index_put room_name victim (ColdRef (file_bytes c) (length data)) c))) ;;
      sh (modify (upd_cold (upd_file_bytes (λ n, n + length data)%nat))) ;;
      sh (fetch_add upd_keys_evicted 1) ;;
      sh (fetch_add upd_keys_in_ram (-1)) ;;
      charge (- record_cost victim r) ;;
      mod_room (upd_keys (delete victim)) ;;
      ret true
  end.

(** The loop's condition, then the loop: a round removes a key, so the number
    of resident keys is enough fuel. *)
Definition over_limit : M ctx bool :=
  let* m := get_room keys in
  let* fit := sh (fits 0) in
  ret (negb (size m =? 0)%nat && ((cfg_max_keys cfg <? Z.of_nat (size m)) || negb fit)).

Fixpoint evict_loop (fuel : nat) (room_name : bytes) : M ctx unit :=
  match fuel with
  | O => ret tt
  | S fuel =>
      let* over := over_limit in
      if negb over then ret tt else
      let* ok := evict_one room_name in
      if negb ok then ret tt else evict_loop fuel room_name
  end.

Definition evict_despised_keys (room_name : bytes) : M ctx unit :=
  let* m := get_room keys in
  evict_loop (size m) room_name ;;
  sh publish_metrics.

(** The two nested loops over the index, as the list of entries they visit. *)
Fixpoint visit_rooms (l : list (bytes * gmap bytes cold_ref))
    : M shared (list (bytes * bytes * cold_ref)) :=
  match l with
  | [] => ret []
  | (room_name, m) :: l =>
      let* inner := interact (λ k, traverse k m) in
      let* rest := visit_rooms l in
      ret (((λ p, (room_name, p.1, p.2)) <$> inner) ++ rest)
  end.

Definition index_entries : M shared (list (bytes * bytes * cold_ref)) :=
  let* idx := gets (λ s, index (cold s)) in
  let* outer := interact (λ k, traverse k idx) in
  visit_rooms outer.

(** [for_each]: false when a read fails; [acc] is what the callback captures. *)
Fixpoint for_each_entry {B} (l : list (bytes * bytes * cold_ref))
    (fn : bytes → bytes → record → B → M shared B) (acc : B) : M shared (bool * B) :=
  match l with
  | [] => ret (true, acc)
  | (room_name, key, ref) :: l =>
      let* '(ok, raw) := read_ref ref in
      if negb ok then ret (false, acc) else
      let* acc := fn room_name key (decode_cold raw) acc in
      for_each_entry l fn acc
  end.

Definition for_each_cold {B} (fn : bytes → bytes → record → B → M shared B) (acc : B) :
    M shared (bool * B) :=
  let* l := index_entries in
  for_each_entry l fn acc.

(** [compact]: the loop writes the live records to the temporary file. *)
Record fresh := Fresh { f_index : gmap bytes (gmap bytes cold_ref); f_file : bytes; f_size : nat }.

Fixpoint compact_loop (now_ms : Z) (l : list (bytes * bytes * cold_ref)) (f : fresh)
    : M shared (bool * fresh) :=
  match l with
  | [] => ret (true, f)
  | (room_name, key, ref) :: l =>
      let* '(ok, raw) := read_ref ref in
      if negb ok then ret (false, f) else
      if expired (decode_cold raw) now_ms then compact_loop now_ms l f else
      let* '(ok, _, out) := interact (λ k, write_at k (f_file f) raw) in
      if negb ok then ret (false, Fresh (f_index f) out (f_size f)) else
      compact_loop now_ms l (Fresh
        (partial_alter (λ o, Some (<[key := ColdRef (f_size f) (ref_len ref)]> (default ∅ o)))
           room_name (f_index f))
        out (f_size f + ref_len ref))
  end.

Definition compact (now_ms : Z) : M shared Z :=
  let* opened := syscall in
  if negb opened then ret (-1) else
  let* l := index_entries in
  let* '(ok, f) := compact_loop now_ms l (Fresh ∅ [] 0) in
  let* renamed := (if ok then syscall else ret false) in
  if negb renamed then ret (-1) else
  let* c := gets cold in
  let reclaimed := wrap64 (Z.of_nat (file_bytes c) - Z.of_nat (f_size f)) in
  modify (upd_cold (λ c, Cold_ (f_index f) (f_file f) true (f_size f) 0 (cms c))) ;;
  fetch_add upd_cold_reclaimed_bytes reclaimed ;;
  publish_metrics ;;
  ret (to_i64 reclaimed).

End cold.

(** ** The abstraction: the map a room has in the cold storage *)

Definition slice (file : bytes) (ref : cold_ref) : bytes :=
  take (ref_len ref) (drop (ref_off ref) file).

Definition cold_view (c : cold_state) (room_name : bytes) : gmap bytes record :=
  (λ ref, decode_cold (slice (cold_file c) ref)) <$> default ∅ (index c !! room_name).

(** Every entry lies below the logical end of the file, which lies within it. *)
Record cold_ok (c : cold_state) : Prop := {
  co_ref : ∀ room_name key ref, find_ref room_name key c = Some ref →
    (kHeader ≤ ref_len ref)%nat ∧ (ref_off ref + ref_len ref ≤ file_bytes c)%nat;
  co_file : (file_bytes c ≤ length (cold_file c))%nat;
  co_closed : cold_open c = false → index c = ∅
}.

(** What the cold storage never touches. *)
Record same_rest (s s' : shared) : Prop := {
  sr_aof : aof s' = aof s;
  sr_crdt : crdt s' = crdt s;
  sr_snaps : snaps s' = snaps s;
  sr_aside : aside s' = aside s;
  sr_tombs : tombstones (met s') = tombstones (met s)
}.

Record same_counts (s s' : shared) : Prop := {
  sc_keys : keys_in_ram (met s') = keys_in_ram (met s);
  sc_bytes : resident_bytes (met s') = resident_bytes (met s)
}.

Global Instance same_rest_preorder : PreOrder same_rest.
Proof. split; [done|]. intros s1 s2 s3 [] []. split; congruence. Qed.

Global Instance same_counts_preorder : PreOrder same_counts.
Proof. split; [done|]. intros s1 s2 s3 [] []. split; congruence. Qed.

Lemma find_ref_inner room_name key c :
  find_ref room_name key c = default ∅ (index c !! room_name) !! key.
Proof. unfold find_ref. destruct (index c !! room_name); [done|]. simpl. by rewrite lookup_empty. Qed.

Lemma cold_view_lookup c room_name key :
  cold_view c room_name !! key
  = (λ ref, decode_cold (slice (cold_file c) ref)) <$> find_ref room_name key c.
Proof. unfold cold_view. by rewrite lookup_fmap, find_ref_inner. Qed.

(** The counters and the sketch do not matter. *)
Lemma cold_ok_ext c c' :
  index c' = index c → cold_file c' = cold_file c → file_bytes c' = file_bytes c →
  cold_open c' = cold_open c → cold_ok c → cold_ok c'.
Proof.
  intros Hi Hf Hb Ho [H1 H2 H3]. split; unfold find_ref; rewrite ?Hi, ?Hf, ?Hb, ?Ho; done.
Qed.

Lemma init_cold_ok : cold_ok init_cold.
Proof. split; [|done|done]. intros ???. rewrite find_ref_inner. simpl. done. Qed.

Lemma cold_view_init room_name : cold_view init_cold room_name = ∅.
Proof. apply map_eq. intros key. by rewrite cold_view_lookup, find_ref_inner. Qed.

Lemma find_ref_erase room_name key c room' key' :
  find_ref room' key' (index_erase room_name key c)
  = if decide (room' = room_name ∧ key' = key) then None else find_ref room' key' c.
Proof.
  rewrite !find_ref_inner. unfold index_erase. cbn [upd_index index].
  destruct (decide (room' = room_name)) as [->|Hr].
  - rewrite lookup_partial_alter_eq. set (m := default ∅ (index c !! room_name)).
    assert (Hd : default ∅ (if decide (delete key m = ∅) then None else Some (delete key m))
      = delete key m) by (destruct (decide _) as [->|]; done).
    rewrite Hd. destruct (decide (key' = key)) as [->|Hk].
    + rewrite decide_True by done. apply lookup_delete_eq.
    + rewrite decide_False by (by intros [_ ?]). by apply lookup_delete_ne.
  - rewrite lookup_partial_alter_ne by done. rewrite decide_False by (by intros [? _]). done.
Qed.

Lemma find_ref_put room_name key ref c room' key' :
  find_ref room' key' (index_put room_name key ref c)
  = if decide (room' = room_name ∧ key' = key) then Some ref else find_ref room' key' c.
Proof.
  rewrite !find_ref_inner. unfold index_put. cbn [upd_index index].
  destruct (decide (room' = room_name)) as [->|Hr].
  - rewrite lookup_partial_alter_eq. cbn [default from_option id].
    destruct (decide (key' = key)) as [->|Hk].
    + rewrite decide_True by done. apply lookup_insert_eq.
    + rewrite decide_False by (by intros [_ ?]). by apply lookup_insert_ne.
  - rewrite lookup_partial_alter_ne by done. rewrite decide_False by (by intros [? _]). done.
Qed.

Lemma cold_view_erase room_name key c room' :
  cold_view (index_erase room_name key c) room'
  = if decide (room' = room_name) then delete key (cold_view c room') else cold_view c room'.
Proof.
  apply map_eq. intros key'. rewrite cold_view_lookup, find_ref_erase.
  change (cold_file (index_erase room_name key c)) with (cold_file c).
  destruct (decide (room' = room_name)) as [->|Hr].
  - destruct (decide (key' = key)) as [->|Hk].
    + by rewrite decide_True, lookup_delete_eq.
    + rewrite decide_False, lookup_delete_ne, cold_view_lookup by (done || by intros [_ ?]). done.
  - rewrite decide_False by (by intros [? _]). by rewrite cold_view_lookup.
Qed.

Lemma cold_ok_erase room_name key c : cold_ok c → cold_ok (index_erase room_name key c).
Proof.
  intros [Hr Hf Hc]. split; [|done|].
  - intros room' key' ref. rewrite find_ref_erase. destruct (decide _); [done|]. apply Hr.
  - intros Ho. cbn in Ho. unfold index_erase. cbn [upd_index index]. rewrite (Hc Ho).
    apply map_eq. intros r'. rewrite lookup_empty.
    destruct (decide (r' = room_name)) as [->|Hne].
    + rewrite lookup_partial_alter_eq, lookup_empty. simpl. by rewrite delete_empty.
    + by rewrite lookup_partial_alter_ne, lookup_empty.
Qed.

(** Bytes below the logical end decide the view. *)
Lemma slice_ext file file' n ref :
  take n file' = take n file → (ref_off ref + ref_len ref ≤ n)%nat →
  slice file' ref = slice file ref.
Proof.
  intros Ht Hle. unfold slice. rewrite !take_drop_commute. f_equal.
  assert (H : ∀ f : bytes, take (ref_off ref + ref_len ref) (take n f)
    = take (ref_off ref + ref_len ref) f).
  { intros f. rewrite take_take. f_equal. lia. }
  by rewrite <- (H file'), Ht, H.
Qed.

(** An append at the logical end, complete or not, moves no entry. *)
Lemma cold_append_ok c data w :
  cold_ok c →
  let c' := upd_cold_file (λ _, overwrite (cold_file c) (file_bytes c) (take w data)) c in
  cold_ok c' ∧ ∀ room_name, cold_view c' room_name = cold_view c room_name.
Proof.
  intros [Hr Hf Hc]. split.
  - split; [done| |done]. cbn. rewrite overwrite_length by done. lia.
  - intros room_name. apply map_eq. intros key. rewrite !cold_view_lookup.
    change (find_ref room_name key (upd_cold_file _ c)) with (find_ref room_name key c).
    destruct (find_ref room_name key c) as [ref|] eqn:Href; [|done]. cbn. do 2 f_equal.
    apply Hr in Href as [_ Hle]. apply (slice_ext _ _ (file_bytes c)); [|done].
    by apply overwrite_below.
Qed.

(** A complete append followed by its index entry stores the record. *)
Lemma cold_put_ok c room_name key data :
  cold_ok c → cold_open c = true → (kHeader ≤ length data)%nat →
  let c' := upd_file_bytes (λ n, n + length data)%nat
    (index_put room_name key (ColdRef (file_bytes c) (length data))
       (upd_cold_file (λ _, overwrite (cold_file c) (file_bytes c) data) c)) in
  cold_ok c' ∧ ∀ room', cold_view c' room'
    = if decide (room' = room_name) then <[key := decode_cold data]> (cold_view c room')
      else cold_view c room'.
Proof.
  intros Hok Ho Hd.
  set (c1 := upd_cold_file (λ _, overwrite (cold_file c) (file_bytes c) data) c).
  set (ref := ColdRef (file_bytes c) (length data)). intros c'.
  pose proof (cold_append_ok c data (length data) Hok) as [Hok1 Hview1].
  rewrite take_ge in Hok1, Hview1 by lia. fold c1 in Hok1, Hview1.
  destruct Hok as [Hr Hf Hc]. destruct Hok1 as [Hr1 Hf1 Hc1]. split.
  - split.
    + intros room' key' ref'.
      change (find_ref room' key' c') with (find_ref room' key' (index_put room_name key ref c1)).
      change (file_bytes c') with (file_bytes c + length data)%nat.
      rewrite find_ref_put. destruct (decide _).
      * intros [= <-]. unfold ref. cbn [ref_len ref_off]. lia.
      * intros Href. apply Hr1 in Href. cbn in *. lia.
    + change (cold_file c') with (cold_file c1). change (file_bytes c') with (file_bytes c + length data)%nat.
      subst c1. cbn [upd_cold_file cold_file]. rewrite overwrite_length by done. lia.
    + intros Ho'. cbn in Ho'. congruence.
  - intros room'. apply map_eq. intros key'. rewrite cold_view_lookup.
    change (find_ref room' key' c') with (find_ref room' key' (index_put room_name key ref c1)).
    change (cold_file c') with (cold_file c1). rewrite find_ref_put.
    rewrite <- Hview1. destruct (decide (room' = room_name)) as [->|Hne].
    + destruct (decide (key' = key)) as [->|Hk].
      * rewrite decide_True, lookup_insert_eq by done. cbn. f_equal.
        unfold slice, ref. cbn [ref_off ref_len cold_file c1 upd_cold_file].
        by rewrite overwrite_read.
      * rewrite decide_False, lookup_insert_ne, cold_view_lookup by (done || by intros [_ ?]). done.
    + rewrite decide_False by (by intros [? _]). by rewrite cold_view_lookup.
Qed.

Section specs.
  Context `{World}.

(** [take]: the record leaves the cold storage; a failed read leaves
    everything as it was and reports the key as absent. *)
Lemma take_cold_spec s room_name key :
  cold_ok (cold s) →
  let '(r, s') := take_cold room_name key s in
  same_rest s s' ∧ same_counts s s' ∧ cold_ok (cold s')
  ∧ (∀ room', room' ≠ room_name → cold_view (cold s') room' = cold_view (cold s) room')
  ∧ ((r = cold_view (cold s) room_name !! key
      ∧ cold_view (cold s') room_name = delete key (cold_view (cold s) room_name))
     ∨ (r = None ∧ cold s' = cold s ∧ ¬ reads_ok)).
Proof.
  intros Hok. unfold take_cold, bind at 1, gets at 1.
  pose proof (cold_view_lookup (cold s) room_name key) as Hview.
  destruct (find_ref room_name key (cold s)) as [ref|] eqn:Href.
  2:{ cbn. split; [done|]. split; [done|]. split; [done|]. split; [done|]. left. rewrite Hview.
      split; [done|]. symmetry. by apply delete_id. }
  pose proof (co_ref _ Hok _ _ _ Href) as [_ Hle]. pose proof (co_file _ Hok) as Hfile.
  unfold bind at 1, read_ref, bind at 1, gets at 1, interact at 1.
  destruct (cold_open (cold s)) eqn:Ho.
  2:{ rewrite find_ref_inner, (co_closed _ Hok Ho), lookup_empty in Href. done. }
  pose proof (pread_at_spec (sys_tick s) (cold_file (cold s)) (ref_len ref) (ref_off ref)) as Hread.
  destruct (pread_at _ _ _ _) as [ok raw] eqn:Hp. destruct ok; cbn [negb fst snd] in *.
  - destruct (Hread eq_refl) as [Hraw _].
    cbn. split; [done|]. split; [done|]. split; [by eapply cold_ok_ext, (cold_ok_erase room_name key (cold s))|].
    split.
    + intros room' Hne.
      trans (cold_view (index_erase room_name key (cold s)) room'); [done|].
      by rewrite cold_view_erase, decide_False.
    + left. rewrite Hview. split; [by rewrite Hraw|].
      trans (cold_view (index_erase room_name key (cold s)) room_name); [done|].
      by rewrite cold_view_erase, decide_True.
  - cbn. split; [done|]. split; [done|]. split; [done|]. split; [done|]. right. repeat split.
    intros Hreads. specialize (Hreads (sys_tick s) (cold_file (cold s)) (ref_len ref) (ref_off ref)).
    rewrite Hp in Hreads. cbn in Hreads. assert (false = true); [apply Hreads; lia|done].
Qed.

(** ** Rooms and their cold keys *)

(** What a room stores: its resident records, then its cold ones. *)
Definition view (room_name : bytes) (c : ctx) : gmap bytes record :=
  keys (c_room c) ∪ cold_view (cold (c_sh c)) room_name.

(** RAM or cold storage, never both. *)
Definition disjoint_ram (room_name : bytes) (c : ctx) : Prop :=
  keys (c_room c) ##ₘ cold_view (cold (c_sh c)) room_name.

(** The counters owe the same difference to the resident records before and
    after, modulo their width. *)
Record balanced (c c' : ctx) : Prop := {
  ba_bytes : wrap64 (resident_bytes (met (c_sh c')) - rbytes (c_room c'))
    = wrap64 (resident_bytes (met (c_sh c)) - rbytes (c_room c));
  ba_room : wrap64 (rbytes (c_room c') - keys_cost (keys (c_room c')))
    = wrap64 (rbytes (c_room c) - keys_cost (keys (c_room c)));
  ba_keys : wrap64 (keys_in_ram (met (c_sh c')) - Z.of_nat (size (keys (c_room c'))))
    = wrap64 (keys_in_ram (met (c_sh c)) - Z.of_nat (size (keys (c_room c))))
}.

Global Instance balanced_preorder : PreOrder balanced.
Proof. split; [done|]. intros c1 c2 c3 [] []. split; congruence. Qed.

(** A step on the keys of room [room_name]: what it leaves alone. *)
Record frame (room_name : bytes) (c c' : ctx) : Prop := {
  fr_rest : same_rest (c_sh c) (c_sh c');
  fr_state : state (c_room c') = state (c_room c);
  fr_access : last_access (c_room c') = last_access (c_room c);
  fr_bal : balanced c c';
  fr_cold : ∀ room', room' ≠ room_name →
    cold_view (cold (c_sh c')) room' = cold_view (cold (c_sh c)) room'
}.

Global Instance frame_preorder room_name : PreOrder (frame room_name).
Proof.
  split; [done|]. intros c1 c2 c3 [H1 H2 H3 H4 H5] [G1 G2 G3 G4 G5].
  split; [by trans (c_sh c2)|congruence|congruence|by trans c2|].
  intros room' Hne. by rewrite G5, H5.
Qed.

(** The invariant of the storage of a room. *)
Record good (c : ctx) : Prop := {
  go_cold : cold_ok (cold (c_sh c));
  go_wf : map_Forall (λ _ r, wf_record r) (keys (c_room c))
}.

(** Only the interaction count moved. *)
Definition ticked (c c' : ctx) : Prop := ∃ n, c' = upd_c_sh (upd_sys_tick (λ _, n)) c.

Lemma ticked_refl c : ticked c c.
Proof. destruct c as [r [? ? ? ? ? ? ?]]. eexists. done. Qed.

Lemma ticked_trans c1 c2 c3 : ticked c1 c2 → ticked c2 c3 → ticked c1 c3.
Proof. intros [n ->] [n' ->]. by exists n'. Qed.

Definition picked (c : ctx) (acc : option bytes * Z) : Prop :=
  match acc.1 with Some v => is_Some (keys (c_room c) !! v) | None => True end.

Lemma sample_spec acc c :
  keys (c_room c) ≠ ∅ → picked c acc →
  wp (sample acc) (λ acc' c', ticked c c' ∧ picked c acc' ∧ is_Some acc'.1) c.
Proof.
  intros Hne Hp. unfold sample. wp_run.
  pose proof (draw_in (sys_tick (c_sh c)) _ Hne) as Hd.
  destruct acc as [[v|] lowest]; unfold picked in *; cbn in *.
  - destruct (_ <? _); cbn; (split; [by eexists|]); (split; [|by eexists]); done.
  - split; [by eexists|]. split; [done|by eexists].
Qed.

Lemma picked_ticked c c' acc : ticked c c' → picked c' acc ↔ picked c acc.
Proof. by intros [n ->]. Qed.

Lemma samples_spec n acc c :
  keys (c_room c) ≠ ∅ → picked c acc → (0 < n)%nat ∨ is_Some acc.1 →
  wp (samples n acc) (λ acc' c', ticked c c' ∧ picked c acc' ∧ is_Some acc'.1) c.
Proof.
  revert acc c. induction n as [|n IH]; intros acc c Hne Hp Hn; cbn.
  - apply wp_ret. destruct Hn; [lia|]. by split; [apply ticked_refl|].
  - apply wp_bind. eapply wp_mono; [by apply sample_spec|]. intros acc' c' (Ht & Hp' & Hs).
    eapply wp_mono; [apply IH; [by destruct Ht as [? ->]|by apply (picked_ticked c)|by right]|].
    intros acc'' c'' (Ht' & Hp'' & Hs''). split; [by eapply ticked_trans|].
    split; [|done]. by apply (picked_ticked c c').
Qed.

Lemma extra_samples_spec n acc c :
  keys (c_room c) ≠ ∅ → picked c acc → is_Some acc.1 →
  wp (extra_samples n acc) (λ acc' c', ticked c c' ∧ picked c acc' ∧ is_Some acc'.1) c.
Proof.
  revert acc c. induction n as [|n IH]; intros acc c Hne Hp Hn; cbn.
  - apply wp_ret. by split; [apply ticked_refl|].
  - destruct (acc.2 <=? 2); [apply wp_ret; by split; [apply ticked_refl|]|].
    apply wp_bind. eapply wp_mono; [by apply sample_spec|]. intros acc' c' (Ht & Hp' & Hs).
    eapply wp_mono; [apply IH; [by destruct Ht as [? ->]|by apply (picked_ticked c)|done]|].
    intros acc'' c'' (Ht' & Hp'' & Hs''). split; [by eapply ticked_trans|].
    split; [|done]. by apply (picked_ticked c c').
Qed.

(** The victim is a resident key. *)
Lemma choose_victim_spec c :
  keys (c_room c) ≠ ∅ →
  wp choose_victim (λ v c', ticked c c' ∧ is_Some (keys (c_room c) !! v)) c.
Proof.
  intros Hne. unfold choose_victim. apply wp_bind.
  eapply wp_mono; [apply samples_spec; [done|done|left; by unfold SAMPLE_SIZE; lia]|].
  intros acc c1 (Ht1 & Hp1 & Hs1). apply wp_bind.
  assert (H2 : wp (if 10 <? acc.2 then extra_samples EXTRA_SAMPLES acc else ret acc)
    (λ acc' c', ticked c c' ∧ picked c acc' ∧ is_Some acc'.1) c1).
  { destruct (10 <? acc.2); [|by apply wp_ret].
    eapply wp_mono; [apply extra_samples_spec; [by destruct Ht1 as [? ->]| |done]|].
    - by apply (picked_ticked c).
    - intros acc' c' (Ht' & Hp' & Hs'). split; [by eapply ticked_trans|].
      split; [|done]. by apply (picked_ticked c c1). }
  eapply wp_mono; [exact H2|]. intros acc' c' (Ht & Hp & [v Hv]). apply wp_ret.
  split; [done|]. unfold picked in Hp. rewrite Hv in *. done.
Qed.

Lemma ticked_frame room_name c c' : ticked c c' → frame room_name c c'.
Proof. intros [n ->]. by split. Qed.

Lemma ticked_good c c' : ticked c c' → good c → good c'.
Proof. intros [n ->] []. by split. Qed.

(** Removing a resident record and paying for it. *)
Lemma balanced_remove c c' key r n b :
  keys (c_room c) !! key = Some r →
  keys (c_room c') = delete key (keys (c_room c)) →
  rbytes (c_room c') = wrap64 (rbytes (c_room c) + - record_cost key r) →
  resident_bytes (met (c_sh c')) = wrap64 (b + - record_cost key r) →
  keys_in_ram (met (c_sh c')) = wrap64 (n + -1) →
  b = resident_bytes (met (c_sh c)) → n = keys_in_ram (met (c_sh c)) →
  balanced c c'.
Proof.
  intros Hk Hkeys Hb Hr Hn -> ->. split; rewrite ?Hkeys, ?Hb, ?Hr, ?Hn.
  - wrap.
  - rewrite (keys_cost_delete _ _ _ Hk). wrap.
  - rewrite map_size_delete_Some by done.
    assert (Hs : size (keys (c_room c)) ≠ 0%nat).
    { intros E. apply map_size_empty_iff in E. by rewrite E, lookup_empty in Hk. }
    replace (Z.of_nat (Nat.pred (size (keys (c_room c)))))
      with (Z.of_nat (size (keys (c_room c))) - 1) by lia.
    wrap.
Qed.

Lemma pwrite_cold_spec data s :
  cold_ok (cold s) →
  let '(ok, s') := pwrite_cold data s in
  same_rest s s' ∧ same_counts s s'
  ∧ if ok then
      cold_open (cold s) = true ∧
      cold s' = upd_cold_file (λ _, overwrite (cold_file (cold s)) (file_bytes (cold s)) data) (cold s)
    else
      cold_ok (cold s') ∧ (∀ room', cold_view (cold s') room' = cold_view (cold s) room')
      ∧ cold_open (cold s') = cold_open (cold s) ∧ ¬ (cold_open (cold s) = true ∧ writes_ok).
Proof.
  intros Hok. unfold pwrite_cold, bind at 1, gets at 1.
  destruct (cold_open (cold s)) eqn:Ho; cbn; [|by repeat (split; [done|]); intros [? _]].
  pose proof (co_file _ Hok) as Hfile.
  pose proof (λ W : writes_ok, W (sys_tick s) _ data _ Hfile) as HW.
  destruct (pwrite_at_spec (sys_tick s) (cold_file (cold s)) data (file_bytes (cold s)))
    as (ok & w & Hp & Hw & Hiff); [done|]. rewrite Hp in *. cbn in *.
  split; [done|]. split; [done|]. destruct ok.
  - split; [done|]. assert (w = length data) as -> by (by apply Hiff). by rewrite take_ge.
  - destruct (cold_append_ok (cold s) data w Hok) as [Hok' Hview'].
    split; [done|]. split; [done|]. split; [done|]. intros [_ W]. by apply HW in W.
Qed.

Lemma evict_one_spec room_name c :
  good c → keys (c_room c) ≠ ∅ →
  wp (evict_one room_name) (λ ok c',
    good c' ∧ frame room_name c c' ∧ view room_name c' = view room_name c
    ∧ (if ok then ∃ key, is_Some (keys (c_room c) !! key)
                         ∧ keys (c_room c') = delete key (keys (c_room c))
       else keys (c_room c') = keys (c_room c)
            ∧ ¬ (cold_open (cold (c_sh c)) = true ∧ writes_ok))
    ∧ cold_open (cold (c_sh c')) = cold_open (cold (c_sh c))
    ∧ (disjoint_ram room_name c → disjoint_ram room_name c')) c.
Proof.
  intros Hgood Hne. unfold evict_one. apply wp_bind.
  eapply wp_mono; [by apply choose_victim_spec|]. intros victim c1 (Ht & [r Hr]). wp_run.
  pose proof (ticked_good _ _ Ht Hgood) as [Hcold Hwf].
  destruct Ht as [n ->]. set (c1 := upd_c_sh _ c) in *.
  change (keys (c_room c1)) with (keys (c_room c)) in *. rewrite Hr.
  pose proof (Hwf _ _ Hr) as Hwfr. wp_run.
  pose proof (pwrite_cold_spec (encode_cold r) (c_sh c1) Hcold) as Hpw. unfold wp at 1.
  destruct (pwrite_cold (encode_cold r) (c_sh c1)) as [ok s'] eqn:Hs'. cbn [fst snd].
  destruct Hpw as ([] & [Hsk Hsb] & Hpw). destruct ok; cbn [negb].
  - destruct Hpw as [Ho Hc'].
    pose proof (cold_put_ok (cold (c_sh c1)) room_name victim (encode_cold r) Hcold Ho) as Hput.
    rewrite decode_encode_cold in Hput by done.
    destruct Hput as [Hok2 Hv2]; [rewrite encode_cold_length; lia|].
    wp_run.
    split; [|split; [|split; [|split; [|split]]]].
    + split; cbn; [rewrite Hc'; exact Hok2|]. by apply map_Forall_delete.
    + split; [by split|done|done| |].
      * eapply (balanced_remove c _ victim r); [done|done|done|done|done|done|done].
      * intros room' Hne'. cbn. rewrite Hc'. trans (cold_view (cold (c_sh c1)) room'); [|done].
        etrans; [apply Hv2|]. by rewrite decide_False.
    + unfold view. cbn. rewrite Hc'.
      etrans; [apply (f_equal (λ m, delete victim (keys (c_room c)) ∪ m) (Hv2 room_name))|].
      rewrite decide_True by done. apply map_eq. intros key.
      change (cold_view (cold (c_sh c1)) room_name) with (cold_view (cold (c_sh c)) room_name).
      destruct (decide (key = victim)) as [->|Hk].
      * rewrite !lookup_union, lookup_delete_eq, lookup_insert_eq, Hr.
        by destruct (cold_view (cold (c_sh c)) room_name !! victim).
      * by rewrite !lookup_union, lookup_delete_ne, lookup_insert_ne.
    + by exists victim.
    + cbn. by rewrite Hc'.
    + intros Hd. match goal with |- disjoint_ram _ ?c' =>
        assert (Hv : cold_view (cold (c_sh c')) room_name
          = <[victim := r]> (cold_view (cold (c_sh c)) room_name)) end.
      { cbn. rewrite Hc'. etrans; [apply Hv2|]. by rewrite decide_True. }
      unfold disjoint_ram. rewrite Hv.
      apply map_disjoint_insert_r_2; [apply lookup_delete_eq|by apply map_disjoint_delete_l].
  - apply wp_ret. destruct Hpw as (Hok' & Hview' & Ho' & Hw).
    split; [by split|]. split; [split; [by split|done|done| |]|split; [|split; [done|split; [by cbn|]]]].
    + split; cbn; rewrite ?Hsk, ?Hsb; done.
    + intros room' _. cbn. by rewrite Hview'.
    + unfold view. cbn. by rewrite Hview'.
    + intros Hd. unfold disjoint_ram. cbn. by rewrite Hview'.
Qed.

(** ** The eviction loop *)

Definition within_limits (c : ctx) : Prop :=
  keys (c_room c) = ∅
  ∨ (Z.of_nat (size (keys (c_room c))) <= cfg_max_keys cfg ∧ (fits 0 (c_sh c)).1 = true).

Lemma over_limit_spec c :
  wp over_limit (λ b c', c' = c ∧ (b = true → keys (c_room c) ≠ ∅)
                         ∧ (b = false → within_limits c)) c.
Proof.
  unfold over_limit. wp_run. unfold fits. wp_run. split; [by destruct c|].
  destruct (Nat.eqb_spec (size (keys (c_room c))) 0) as [H0|H0]; cbn [negb andb].
  - split; [done|]. intros _. left. by apply map_size_empty_iff.
  - split; [|].
    + intros _ E. apply H0. by rewrite E.
    + intros Hb. right. apply orb_false_iff in Hb as [Hb1 Hb2].
      unfold fits, gets. cbn. split; [lia|]. by destruct (_ || _).
Qed.

Lemma evict_loop_spec fuel room_name c :
  good c → (size (keys (c_room c)) ≤ fuel)%nat →
  wp (evict_loop fuel room_name) (λ _ c',
    good c' ∧ frame room_name c c' ∧ view room_name c' = view room_name c
    ∧ keys (c_room c') ⊆ keys (c_room c)
    ∧ cold_open (cold (c_sh c')) = cold_open (cold (c_sh c))
    ∧ (cold_open (cold (c_sh c)) = true → writes_ok → within_limits c')
    ∧ (disjoint_ram room_name c → disjoint_ram room_name c')) c.
Proof.
  revert c. induction fuel as [|fuel IH]; intros c Hgood Hfuel.
  - cbn. apply wp_ret. split; [done|]. split; [done|]. split; [done|]. split; [done|].
    split; [done|]. split; [|done]. intros _ _. left. apply map_size_empty_iff. lia.
  - cbn [evict_loop]. apply wp_bind. eapply wp_mono; [apply over_limit_spec|].
    intros over c1 (-> & Hne & Hlim). destruct over; cbn [negb].
    2:{ apply wp_ret. split; [done|]. split; [done|]. split; [done|]. split; [done|].
        split; [done|]. split; [|done]. intros _ _. by apply Hlim. }
    specialize (Hne eq_refl). apply wp_bind.
    pose proof (evict_one_spec room_name c Hgood Hne) as Hone. unfold wp in Hone |- *.
    destruct (evict_one room_name c) as [ok c1] eqn:E. cbn [fst snd] in *.
    destruct Hone as (Hgood1 & Hframe1 & Hview1 & Hkeys1 & Ho1 & Hd1). destruct ok; cbn [negb].
    + destruct Hkeys1 as (key & [r Hr] & Hkeys1).
      pose proof (IH c1 Hgood1) as IH'. unfold wp in IH'.
      assert (Hsz : (size (keys (c_room c1)) ≤ fuel)%nat).
      { rewrite Hkeys1, map_size_delete_Some by done. lia. }
      destruct (IH' Hsz) as (Hgood2 & Hframe2 & Hview2 & Hsub2 & Ho2 & Hend & Hd2).
      split; [done|]. split; [by trans c1|]. split; [congruence|].
      split; [etrans; [exact Hsub2|]; rewrite Hkeys1; apply delete_subseteq|].
      split; [congruence|]. split; [by rewrite Ho1 in Hend|auto].
    + unfold ret. cbn [fst snd].
      split; [done|]. split; [done|]. split; [done|]. destruct Hkeys1 as [-> Hw].
      split; [done|]. split; [done|]. split; [|done]. intros ? ?. by destruct Hw.
Qed.

(** Eviction moves records out of RAM and loses none: what the room stores,
    seen through both storages, is unchanged. *)
Lemma evict_spec room_name c :
  good c →
  wp (evict_despised_keys room_name) (λ _ c',
    good c' ∧ frame room_name c c' ∧ view room_name c' = view room_name c
    ∧ keys (c_room c') ⊆ keys (c_room c)
    ∧ cold_open (cold (c_sh c')) = cold_open (cold (c_sh c))
    ∧ (cold_open (cold (c_sh c)) = true → writes_ok → within_limits c')
    ∧ (disjoint_ram room_name c → disjoint_ram room_name c')) c.
Proof.
  intros Hgood. unfold evict_despised_keys. wp_run.
  eapply wp_mono; [by apply evict_loop_spec|].
  intros _ c' ([Hc Hw] & [Hf1 Hf2 Hf3 Hf4 Hf5] & Hview & Hsub & Ho & Hend & Hd). wp_run.
  unfold publish_metrics. wp_run. unfold wp, modify. cbn [fst snd].
  split; [by split|].
  split; [split; [by destruct Hf1; split|done|done|by destruct Hf4; split|done]|].
  split; [done|]. split; [done|]. split; [done|].
  split; [|exact Hd].
  intros Hopen W. destruct (Hend Hopen W) as [He|He]; [by left|right; exact He].
Qed.

(** ** The entries of the index, in any order *)

Definition entry_of (c : cold_state) (e : bytes * bytes * cold_ref) : Prop :=
  find_ref e.1.1 e.1.2 c = Some e.2.

Lemma visit_rooms_spec l s :
  ∃ n, let '(es, s') := visit_rooms l s in
  s' = upd_sys_tick (λ _, n) s
  ∧ (∀ room_name key ref, (room_name, key, ref) ∈ es ↔
       ∃ m, (room_name, m) ∈ l ∧ m !! key = Some ref)
  ∧ (NoDup l.*1 → NoDup es.*1).
Proof.
  revert s. induction l as [|[room_name m] l IH]; intros s; cbn.
  - exists (sys_tick s). split; [by destruct s|]. split; [|constructor].
    intros. split; [by intros ?%elem_of_nil|by intros (? & ?%elem_of_nil & _)].
  - unfold bind. cbn [interact]. destruct (IH (upd_sys_tick S s)) as [n Hn].
    destruct (visit_rooms l (upd_sys_tick S s)) as [es s'] eqn:E. cbn.
    destruct Hn as (-> & Hin & Hnd). exists n. split; [done|].
    set (inner := traverse (sys_tick s) m). split.
    + intros r key ref. rewrite elem_of_app, Hin, list_elem_of_fmap. split.
      * intros [([k' ref'] & [= -> -> ->] & Hi)|(m' & Hm' & Hk)].
        -- exists m. split; [by left|]. by apply traverse_lookup in Hi.
        -- exists m'. split; [by right|done].
      * intros (m' & [[= -> ->]|Hm']%elem_of_cons & Hk); [left|right; by exists m'].
        exists (key, ref). split; [done|]. by apply traverse_lookup.
    + intros [Hnot Hnd']%NoDup_cons. rewrite fmap_app. apply NoDup_app. split_and!.
      * rewrite <- list_fmap_compose.
        pose proof (traverse_NoDup (sys_tick s) m) as Ht. fold inner in Ht.
        assert (Hinj : Inj (=) (=) (pair (B := bytes) room_name)) by (by intros ?? [= ->]).
        apply (NoDup_fmap_2 _) in Ht. by rewrite <- list_fmap_compose in Ht.
      * intros [r k] Hr Hl. apply list_elem_of_fmap in Hr as ([[r1 k1] ref1] & [= -> ->] & Hr).
        apply list_elem_of_fmap in Hr as (p & [= -> _ _] & _).
        apply list_elem_of_fmap in Hl as ([[r2 k2] ref2] & [= <- <-] & Hl).
        apply Hin in Hl as (m' & Hm' & _). apply Hnot. apply list_elem_of_fmap.
        by exists (room_name, m').
      * by apply Hnd.
Qed.

Lemma index_entries_spec s :
  ∃ n, let '(es, s') := index_entries s in
  s' = upd_sys_tick (λ _, n) s
  ∧ (∀ e, e ∈ es ↔ entry_of (cold s) e)
  ∧ NoDup es.*1.
Proof.
  unfold index_entries, bind at 1, gets at 1, bind at 1. cbn [interact].
  destruct (visit_rooms_spec (traverse (sys_tick s) (index (cold s))) (upd_sys_tick S s)) as [n Hn].
  exists n. destruct (visit_rooms _ _) as [es s']. destruct Hn as (-> & Hin & Hnd).
  split; [done|]. split.
  - intros [[room_name key] ref]. rewrite Hin. unfold entry_of, find_ref. cbn. split.
    + intros (m & Hm%traverse_lookup & Hk). by rewrite Hm.
    + intros (m & Hm & Hk)%bind_Some. exists m. by rewrite traverse_lookup.
  - apply Hnd, traverse_NoDup.
Qed.

Lemma read_ref_spec s ref :
  let '((ok, raw), s') := read_ref ref s in
  s' = upd_sys_tick S s
  ∧ (ok = true → raw = slice (cold_file (cold s)) ref ∧ length raw = ref_len ref)
  ∧ (cold_open (cold s) = true → (ref_off ref + ref_len ref ≤ length (cold_file (cold s)))%nat →
     reads_ok → ok = true).
Proof.
  unfold read_ref, bind, gets, interact. cbn.
  destruct (cold_open (cold s)); cbn; [|done].
  pose proof (pread_at_spec (sys_tick s) (cold_file (cold s)) (ref_len ref) (ref_off ref)) as Hread.
  destruct (pread_at _ _ _ _) as [ok raw] eqn:Hp. split; [done|]. split; [exact Hread|].
  intros _ Hle Hreads. specialize (Hreads _ _ _ _ Hle : (pread_at (sys_tick s) _ _ _).1 = true).
  by rewrite Hp in Hreads.
Qed.

(** ** Compaction *)

(** The cold storage that the temporary file and its index make up. *)
Definition fresh_cold (f : fresh) : cold_state :=
  Cold_ (f_index f) (f_file f) true (f_size f) 0 empty_table.

Lemma fresh_cold_empty r k : cold_view (fresh_cold (Fresh ∅ [] 0)) r !! k = None.
Proof. by rewrite cold_view_lookup, find_ref_inner. Qed.

Definition fresh_ok (f : fresh) : Prop :=
  cold_ok (fresh_cold f) ∧ f_size f = length (f_file f).

Lemma fresh_put_ok f room_name key raw n :
  fresh_ok f → (kHeader ≤ length raw)%nat → n = length raw →
  let f' := Fresh
    (partial_alter (λ o, Some (<[key := ColdRef (f_size f) n]> (default ∅ o))) room_name (f_index f))
    (f_file f ++ raw) (f_size f + n) in
  fresh_ok f' ∧ ∀ room', cold_view (fresh_cold f') room'
    = if decide (room' = room_name) then <[key := decode_cold raw]> (cold_view (fresh_cold f) room')
      else cold_view (fresh_cold f) room'.
Proof.
  intros [Hok Hsz] Hlen ->. 
  destruct (cold_put_ok (fresh_cold f) room_name key raw Hok eq_refl Hlen) as [Hok' Hview'].
  cbn [cold_file file_bytes fresh_cold] in Hok', Hview'. 
  assert (He : overwrite (f_file f) (f_size f) raw = f_file f ++ raw)
    by (rewrite Hsz; apply overwrite_end).
  rewrite He in Hok', Hview'. split; [split|].
  - by eapply cold_ok_ext, Hok'.
  - cbn. rewrite length_app. lia.
  - intros room'. etrans; [|apply Hview']. done.
Qed.

Definition survives (now_ms : Z) (r : record) : Prop := expired r now_ms = false.

Global Instance survives_dec now_ms r : Decision (survives now_ms r).
Proof. unfold survives. apply _. Defined.

Lemma compact_loop_spec now_ms l f s :
  cold_ok (cold s) → (∀ e, e ∈ l → entry_of (cold s) e) → NoDup l.*1 → fresh_ok f →
  (∀ room_name key, (room_name, key) ∈ l.*1 → cold_view (fresh_cold f) room_name !! key = None) →
  ∃ n, let '((ok, f'), s') := compact_loop now_ms l f s in
  s' = upd_sys_tick (λ _, n) s
  ∧ (ok = true → fresh_ok f' ∧ ∀ room_name key,
       cold_view (fresh_cold f') room_name !! key =
       if decide ((room_name, key) ∈ l.*1) then
         r ← cold_view (cold s) room_name !! key; (if expired r now_ms then None else Some r)
       else cold_view (fresh_cold f) room_name !! key).
Proof.
  intros Hok. revert f s Hok. induction l as [|[[room_name key] ref] l IH];
    intros f s Hok Hin Hnd Hf Hnone; cbn [compact_loop].
  - exists (sys_tick s). split; [by destruct s|]. intros _. split; [done|].
    intros r k. by rewrite decide_False by (by intros ?%elem_of_nil).
  - cbn in Hnd. apply NoDup_cons in Hnd as [Hnot Hnd].
    pose proof (Hin (room_name, key, ref) ltac:(by left)) as Href. unfold entry_of in Href. cbn in Href.
    assert (Hview : cold_view (cold s) room_name !! key
      = Some (decode_cold (slice (cold_file (cold s)) ref))) by (by rewrite cold_view_lookup, Href).
    unfold bind at 1. pose proof (read_ref_spec s ref) as Hread.
    destruct (read_ref ref s) as [[ok raw] s1]. destruct Hread as (-> & Hraw & _).
    destruct ok; cbn [negb]; [|by exists (S (sys_tick s)); cbn].
    destruct (Hraw eq_refl) as [-> Hlen]. set (raw := slice _ ref) in *.
    assert (Hin' : ∀ e, e ∈ l → entry_of (cold s) e) by (intros e He; apply Hin; by right).
    destruct (expired (decode_cold raw) now_ms) eqn:Hexp.
    + destruct (IH f (upd_sys_tick S s)) as [n Hn]; [done|done|done|done| |].
      { intros r k Hl. apply Hnone. by right. }
      exists n. destruct (compact_loop _ _ _ _) as [[ok f'] s']. destruct Hn as (-> & Hf').
      split; [done|]. intros ->. destruct (Hf' eq_refl) as [Hok' Hv]. split; [done|].
      intros r k. rewrite Hv. cbn [upd_sys_tick cold fmap list_fmap].
      destruct (decide ((r, k) ∈ l.*1)) as [Hl|Hl]; [by rewrite decide_True by (by right)|].
      destruct (decide ((r, k) = (room_name, key))) as [[= -> ->]|Hne].
      * rewrite decide_True by (by apply elem_of_cons; left). rewrite Hview. cbn. rewrite Hexp. apply Hnone, elem_of_cons. by left.
      * rewrite decide_False; [done|]. by intros [?|?]%elem_of_cons.
    + unfold bind at 1, interact at 1.
      destruct (write_at_spec (sys_tick (upd_sys_tick S s)) (f_file f) raw) as (ok & w & Hwr & Hw & Hiff).
      rewrite Hwr. destruct ok; cbn [negb];
        [|exists (S (S (sys_tick s))); by destruct s].
      assert (w = length raw) as -> by (by apply Hiff). rewrite take_ge by lia.
      pose proof (co_ref _ Hok _ _ _ Href) as [Hhd _].
      destruct (fresh_put_ok f room_name key raw (ref_len ref) Hf) as [Hf1 Hv1]; [lia|lia|].
      set (f1 := Fresh _ _ _) in *.
      destruct (IH f1 (upd_sys_tick S (upd_sys_tick S s))) as [n Hn]; [done|done|done|done| |].
      { intros r k Hl. rewrite Hv1. destruct (decide (r = room_name)) as [->|].
        - rewrite lookup_insert_ne by congruence. apply Hnone. by right.
        - apply Hnone. by right. }
      exists n. destruct (compact_loop _ _ _ _) as [[ok f'] s']. destruct Hn as (-> & Hf').
      split; [done|]. intros ->. destruct (Hf' eq_refl) as [Hok' Hv]. split; [done|].
      intros r k. rewrite Hv, Hv1. cbn [upd_sys_tick cold fmap list_fmap].
      destruct (decide ((r, k) ∈ l.*1)) as [Hl|Hl]; [by rewrite decide_True by (by right)|].
      destruct (decide ((r, k) = (room_name, key))) as [[= -> ->]|Hne].
      * rewrite (decide_True (P := (room_name, key) ∈ _)) by (by apply elem_of_cons; left). rewrite decide_True, lookup_insert_eq, Hview by done.
        cbn. by rewrite Hexp.
      * rewrite (decide_False (P := (r, k) ∈ _)) by (by intros [?|?]%elem_of_cons).
        destruct (decide (r = room_name)) as [->|]; [|done]. apply lookup_insert_ne. congruence.
Qed.

(** A compaction keeps exactly the unexpired records, or changes nothing. *)
Lemma compact_spec now_ms s :
  cold_ok (cold s) →
  let '(n, s') := compact now_ms s in
  same_rest s s' ∧ same_counts s s' ∧ cold_ok (cold s')
  ∧ (cold s' = cold s ∧ n = -1
     ∨ (∀ room_name, cold_view (cold s') room_name
          = filter (λ p, survives now_ms p.2) (cold_view (cold s) room_name))
       ∧ file_bytes (cold s') = length (cold_file (cold s'))
       ∧ n = to_i64 (wrap64 (Z.of_nat (file_bytes (cold s)) - Z.of_nat (file_bytes (cold s'))))).
Proof.
  intros Hok. unfold compact, bind at 1, syscall at 1, interact at 1.
  destruct (succeeds (sys_tick s)); cbn [negb]; [|by split; [|split; [|split; [|left]]]].
  unfold bind at 1. set (s1 := upd_sys_tick S s).
  destruct (index_entries_spec s1) as [n Hn].
  destruct (index_entries s1) as [l s2]. destruct Hn as (-> & Hin & Hnd).
  set (s2 := upd_sys_tick (λ _, n) s1). unfold bind at 1.
  destruct (compact_loop_spec now_ms l (Fresh ∅ [] 0) s2) as [n2 Hloop]; [done| |done| | |].
  { intros e He. by apply Hin. }
  { split; [|done]. eapply cold_ok_ext, init_cold_ok; done. }
  { intros r k _. apply fresh_cold_empty. }
  destruct (compact_loop _ _ _ _) as [[ok f] s3]. destruct Hloop as (-> & Hf).
  destruct ok; cbn [negb].
  2:{ cbn. by split; [|split; [|split; [|left]]]. }
  destruct (Hf eq_refl) as [[Hfok Hfsz] Hv]. unfold bind at 1, syscall at 1, interact at 1.
  destruct (succeeds _); cbn [negb]; [|by split; [|split; [|split; [|left]]]].
  cbn. split; [done|]. split; [done|]. split; [by eapply cold_ok_ext, Hfok|]. right.
  split; [|done]. intros r. apply map_eq. intros k.
  trans (cold_view (fresh_cold f) r !! k); [done|]. rewrite Hv.
  change (cold s2) with (cold s). rewrite map_lookup_filter.
  destruct (decide ((r, k) ∈ l.*1)) as [Hl|Hl].
  - destruct (cold_view (cold s) r !! k) as [rec|]; [|done]. cbn.
    case_guard as Hs; [by rewrite Hs|].
    apply not_false_iff_true in Hs. by rewrite Hs.
  - replace (cold_view (cold s) r !! k) with (None : option record).
    { apply fresh_cold_empty. }
    rewrite cold_view_lookup. destruct (find_ref r k (cold s)) as [ref|] eqn:E; [|done].
    destruct Hl. apply list_elem_of_fmap. exists (r, k, ref). split; [done|]. by apply Hin.
Qed.

End specs.

(** ** Properties *)

(** C24: Eviction is invisible to the store: it moves resident records of the
    room to the cold file and loses none, so what the room stores through RAM
    and cold storage together is the same map, other rooms' cold records are
    untouched, the byte and key counters still agree with the resident
    records, and when the cold file can be written it ends within the key and
    memory limits (or with no resident key left). *)
Theorem eviction_transparent `{World} room_name c :
  good c →
  let c' := (evict_despised_keys room_name c).2 in
  view room_name c' = view room_name c
  ∧ keys (c_room c') ⊆ keys (c_room c)
  ∧ good c' ∧ frame room_name c c'
  ∧ (cold_open (cold (c_sh c)) = true → writes_ok → within_limits c').
Proof.
  intros Hg c'. destruct (evict_spec room_name c Hg) as (H1 & H2 & H3 & H4 & _ & H5 & _). done.
Qed.

Lemma eviction_transparent_witness :
  let W := calm (Config 6379 [] [] 1 1 None None true [] (-1) 1 [] 1 0 0 1 0 Always 1 1 0 0) 0 in
  let c := Ctx_ (Room (<[str "a" := Record_ (str "x") 0 1 1]>
                       {[ str "b" := Record_ (str "y") 9 2 1 ]}) 0 Active 0)
             (init_shared None ∅) in
  good c ∧ size (keys (c_room (evict_despised_keys (str "r") c).2)) = 1%nat
  ∧ view (str "r") (evict_despised_keys (str "r") c).2 = view (str "r") c.
Proof.
  intros W c.
  assert (Hg : good c).
  { split; [apply init_cold_ok|].
    apply map_Forall_insert_2; [|apply map_Forall_singleton]; vm_compute; repeat split; discriminate. }
  split; [exact Hg|]. split; [vm_compute; reflexivity|].
  exact (proj1 (eviction_transparent (H := W) (str "r") c Hg)).
Defined.

(** The cold storage is a map with moves: [take] returns exactly the
    record stored for the key and removes it, or, when the read fails, reports
    the key absent and leaves the storage as it was; [compact] keeps exactly
    the records that have not expired, in a file with no dead bytes, or fails
    and changes nothing; neither touches anything outside the cold storage. *)
Theorem cold_store_correct `{World} room_name key now_ms s :
  cold_ok (cold s) →
  (let '(r, s') := take_cold room_name key s in
   same_rest s s' ∧ cold_ok (cold s')
   ∧ (r = cold_view (cold s) room_name !! key
      ∧ cold_view (cold s') room_name = delete key (cold_view (cold s) room_name)
      ∨ r = None ∧ cold s' = cold s ∧ ¬ reads_ok))
  ∧ (let '(n, s') := compact now_ms s in
     same_rest s s' ∧ cold_ok (cold s')
     ∧ (cold s' = cold s ∧ n = -1
        ∨ (∀ room', cold_view (cold s') room'
             = filter (λ p, survives now_ms p.2) (cold_view (cold s) room'))
          ∧ file_bytes (cold s') = length (cold_file (cold s')))).
Proof.
  intros Hok. split.
  - pose proof (take_cold_spec s room_name key Hok) as Ht. destruct (take_cold _ _ _).
    destruct Ht as (? & ? & ? & ? & ?). done.
  - pose proof (compact_spec now_ms s Hok) as Hc. destruct (compact _ _) as [n s'].
    destruct Hc as (? & ? & ? & [?|(? & ? & ?)]); split; try done; split; [done|by left|done|by right].
Qed.

Lemma cold_store_correct_witness :
  let W := calm default_config 0 in
  (take_cold (H := W) (str "r") (str "k") (init_shared None ∅)).1 = None.
Proof.
  intros W. 
  destruct (proj1 (cold_store_correct (H := W) (str "r") (str "k") 0 (init_shared None ∅) init_cold_ok))
    as (_ & _ & [[H1 _]|[H1 _]]); vm_compute; reflexivity.
Defined.
