(* ===== verification/Snapshot.v ===== *)
(** * Snapshots (src/storage/snapshot_manager.h, .cpp)

    A hibernated room is one file: a header, then a record per key, in the
    order the table is traversed. [hibernate_room] writes it through a buffer
    to a temporary file that replaces the snapshot only after a successful
    [fdatasync], [close] and [rename]; [wakeup_room] loads it into a temporary
    table that replaces the room's only when the whole file was valid. The
    file of a room is its entry of [snaps]; a path that is not a regular file
    counts as absent, and its effect on [rename] is a failed call. *)

From S2P Require Import Prelude FsUtil Hlc Config World Types State.

Definition SNAPSHOT_MAGIC : bytes := str "RSNP".
Definition SNAPSHOT_VERSION : Z := 2.

(** ** Loading *)

(** [need]: [n] more bytes are there. *)
Definition need (data : bytes) (off : nat) (n : Z) : bool :=
  n <=? Z.of_nat (length data - off).

(** [read_bytes] of [n] bytes, when they are there. *)
Definition read_bytes (data : bytes) (off : nat) (n : Z) : option (bytes * nat) :=
  if need data off n then Some (take (Z.to_nat n) (drop off data), (off + Z.to_nat n)%nat)
  else None.

(** The body of the loop: one record at [off]. *)
Definition load_record (is_v2 : bool) (data : bytes) (off : nat) : option (bytes * record * nat) :=
  '(klen, off) ← read_bytes data off 8;
  '(key, off) ← read_bytes data off (le_val klen);
  '(vlen, off) ← read_bytes data off 8;
  '(val, off) ← read_bytes data off (le_val vlen);
  '(expire, off) ← read_bytes data off 8;
  if is_v2 then
    if need data off (8 + 4) then
      '(ts, off) ← read_bytes data off 8;
      '(node, off) ← read_bytes data off 4;
      Some (key, Record_ val (to_i64 (le_val expire)) (normalize (le_val ts)) (le_val node), off)
    else None
  else Some (key, Record_ val (to_i64 (le_val expire)) (normalize 0) 1, off).

(** The loop; [None] is [corrupt]. A record has at least 24 bytes, so the
    length of the file is enough fuel ([load_loop_fuel]). *)
Fixpoint load_loop (fuel : nat) (is_v2 : bool) (num_records : Z) (data : bytes) (off : nat)
    (loaded : gmap bytes record) : option (gmap bytes record) :=
  if num_records <=? Z.of_nat (size loaded) then Some loaded else
  match fuel with
  | O => None
  | S fuel =>
      '(key, rec, off) ← load_record is_v2 data off;
      load_loop fuel is_v2 num_records data off (<[key := rec]> loaded)
  end.

Definition parse_snapshot (data : bytes) : option (gmap bytes record) :=
  if negb (need data 0 8) then None else
  let is_v2 := bool_decide (take 4 data = SNAPSHOT_MAGIC) in
  if is_v2 && negb (le_val (take 4 (drop 4 data)) =? SNAPSHOT_VERSION) then None else
  '(count, off) ← (if is_v2 then read_bytes data 8 8 else Some (take 8 data, 8%nat));
  let num_records := le_val count in
  if Z.of_nat (length data) <? num_records then None else
  load_loop (S (length data)) is_v2 num_records data off ∅.

Section snapshot.
  Context `{World}.

Definition has_snapshot (room_name : bytes) : M shared bool :=
  gets (λ s, bool_decide (is_Some (snaps s !! room_name))).

Definition discard (room_name : bytes) : M shared unit :=
  let* there := has_snapshot room_name in
  when there (
    let* unlinked := syscall in
    when unlinked (modify (upd_snaps (delete room_name)))).

Definition wakeup_room (room_name : bytes) : M ctx bool :=
  let* files := sh (gets snaps) in
  match files !! room_name with
  | None => ret false
  | Some data =>
      let* readable := sh syscall in
      if negb readable then ret false else
      match parse_snapshot data with
      | None =>
          let* renamed := sh syscall in
          when renamed (
            sh (modify (upd_aside (λ l, data :: l))) ;;
            sh (modify (upd_snaps (delete room_name)))) ;;
          ret false
      | Some loaded =>
          mod_room (upd_keys (λ _, loaded)) ;;
          ret true
      end
  end.

(** ** Writing *)

Definition BUF : nat := Z.to_nat 65536.

(** The pieces [feed] is called with, for the whole file. *)
Definition record_pieces (p : bytes * record) : list bytes :=
  let '(key, rec) := p in
  [ le_bytes 8 (len key); key; le_bytes 8 (len (r_value rec)); r_value rec;
    le_bytes 8 (wrap64 (r_expire rec)); le_bytes 8 (r_ts rec); le_bytes 4 (r_node rec) ].

Definition header_pieces (num_records : Z) : list bytes :=
  [ SNAPSHOT_MAGIC; le_bytes 4 SNAPSHOT_VERSION; le_bytes 8 num_records ].

(** The local variables of [hibernate_room]. *)
Record writer := Writer { w_ok : bool; w_buf : bytes; w_file : bytes }.

Definition flush_buf (w : writer) : M shared writer :=
  if negb (w_ok w) || bool_decide (w_buf w = []) then ret w else
  let* '(ok, _, file) := interact (λ k, write_at k (w_file w) (w_buf w)) in
  ret (Writer ok [] file).

Definition feed (w : writer) (piece : bytes) : M shared writer :=
  let w := Writer (w_ok w) (w_buf w ++ piece) (w_file w) in
  if (BUF <=? length (w_buf w))%nat then flush_buf w else ret w.

Fixpoint feed_all (w : writer) (pieces : list bytes) : M shared writer :=
  match pieces with
  | [] => ret w
  | p :: pieces => let* w := feed w p in feed_all w pieces
  end.

(** The loop over the records, left at the first failed write. *)
Fixpoint feed_records (w : writer) (l : list (bytes * record)) : M shared writer :=
  match l with
  | [] => ret w
  | p :: l =>
      let* w := feed_all w (record_pieces p) in
      if negb (w_ok w) then ret w else feed_records w l
  end.

Definition hibernate_room (room_name : bytes) : M ctx bool :=
  let* opened := sh syscall in
  if negb opened then ret false else
  let* m := get_room keys in
  let* w := sh (feed_all (Writer true [] []) (header_pieces (Z.of_nat (size m)))) in
  let* l := sh (interact (λ k, traverse k m)) in
  let* w := sh (feed_records w l) in
  let* w := sh (flush_buf w) in
  let* synced := (if w_ok w then sh syscall else ret false) in
  if negb synced then ret false else
  let* closed := sh syscall in
  if negb closed then ret false else
  let* renamed := sh syscall in
  if negb renamed then ret false else
  sh (modify (upd_snaps (<[room_name := w_file w]>))) ;;
  mod_room (upd_keys (λ _, ∅)) ;;
  ret true.

End snapshot.

Arguments BUF : simpl never.

(** The whole file for a traversal [l]. *)
Definition snapshot_bytes (l : list (bytes * record)) : bytes :=
  mjoin (header_pieces (len l) ++ mjoin (record_pieces <$> l)).

(** What loading gives back for a record: the same, with a legacy timestamp
    moved to the HLC format. *)
Definition reload (r : record) : record :=
  Record_ (r_value r) (r_expire r) (normalize (r_ts r)) (r_node r).

Arguments snapshot_bytes : simpl never.

(** ** Lemmas: reading *)

Lemma read_bytes_inv data off n b off' :
  read_bytes data off n = Some (b, off') → 0 <= n →
  (off' = off + Z.to_nat n)%nat ∧ len b = n ∧ (off ≤ length data → off' ≤ length data)%nat.
Proof.
  unfold read_bytes, need. destruct (Z.leb_spec n (Z.of_nat (length data - off))); [|done].
  intros [= <- <-] Hn. split; [done|]. unfold len. rewrite length_take, length_drop. lia.
Qed.

Lemma read_bytes_app pre b rest n :
  len b = n → read_bytes (pre ++ b ++ rest) (length pre) n = Some (b, (length pre + length b)%nat).
Proof.
  intros <-. unfold read_bytes, need. rewrite !length_app.
  destruct (Z.leb_spec (len b) (Z.of_nat (length pre + (length b + length rest) - length pre)));
    [|ulia].
  rewrite drop_app_length. unfold len. rewrite Nat2Z.id, take_app_length. done.
Qed.

Lemma load_record_inv is_v2 data off key r off' :
  load_record is_v2 data off = Some (key, r, off') → (off ≤ length data)%nat →
  (off + 24 ≤ off' ≤ length data)%nat ∧ wf_record r.
Proof.
  unfold load_record. intros Hl Ho.
  apply bind_Some in Hl as ([klen o1] & H1 & Hl). apply bind_Some in Hl as ([k o2] & H2 & Hl).
  apply bind_Some in Hl as ([vlen o3] & H3 & Hl). apply bind_Some in Hl as ([v o4] & H4 & Hl).
  apply bind_Some in Hl as ([e o5] & H5 & Hl).
  apply read_bytes_inv in H1 as (E1 & L1 & B1); [|lia].
  apply read_bytes_inv in H2 as (E2 & L2 & B2); [|apply le_val_range].
  apply read_bytes_inv in H3 as (E3 & L3 & B3); [|lia].
  apply read_bytes_inv in H4 as (E4 & L4 & B4); [|apply le_val_range].
  apply read_bytes_inv in H5 as (E5 & L5 & B5); [|lia].
  assert (Hi : ∀ z, is_i64 (to_i64 z)).
  { intros z. unfold to_i64. pose proof (wrap64_range (z + 2 ^ 63)). ulia. }
  destruct is_v2.
  - destruct (need data o5 (8 + 4)); [|done].
    apply bind_Some in Hl as ([ts o6] & H6 & Hl). apply bind_Some in Hl as ([nd o7] & H7 & Hl).
    apply read_bytes_inv in H6 as (E6 & L6 & B6); [|lia].
    apply read_bytes_inv in H7 as (E7 & L7 & B7); [|lia].
    injection Hl as <- <- <-. split; [lia|]. split; [apply Hi|]. split.
    + cbn. apply normalize_u64. pose proof (le_val_range ts). rewrite L6 in *. ulia.
    + cbn. pose proof (le_val_range nd). rewrite L7 in *. ulia.
  - injection Hl as <- <- <-. split; [lia|]. split; [apply Hi|]. split; by vm_compute.
Qed.

Lemma load_loop_fuel fuel fuel' is_v2 num data off loaded :
  (off ≤ length data)%nat → (length data - off < fuel)%nat → (length data - off < fuel')%nat →
  load_loop fuel is_v2 num data off loaded = load_loop fuel' is_v2 num data off loaded.
Proof.
  revert fuel' off loaded. induction fuel as [|fuel IH]; intros fuel' off loaded Ho H1 H2; [lia|].
  destruct fuel' as [|fuel']; [lia|]. cbn [load_loop].
  destruct (num <=? _); [done|].
  destruct (load_record is_v2 data off) as [[[k r] off']|] eqn:Hl; [|done]. cbn.
  apply load_record_inv in Hl as [Hb _]; [|done]. apply IH; lia.
Qed.

Lemma load_loop_wf fuel is_v2 num data off loaded m :
  (off ≤ length data)%nat → map_Forall (λ _ r, wf_record r) loaded →
  load_loop fuel is_v2 num data off loaded = Some m → map_Forall (λ _ r, wf_record r) m.
Proof.
  revert off loaded. induction fuel as [|fuel IH]; intros off loaded Ho Hw; cbn [load_loop];
    (destruct (num <=? _); [by intros [= <-]|]); [done|].
  destruct (load_record is_v2 data off) as [[[k r] off']|] eqn:Hl; [|done]. cbn.
  apply load_record_inv in Hl as [Hb Hr]; [|done]. apply IH; [lia|].
  by apply map_Forall_insert_2.
Qed.

(** Whatever the file holds, the records that come out of it are in range. *)
Lemma parse_snapshot_wf data m :
  parse_snapshot data = Some m → map_Forall (λ _ r, wf_record r) m.
Proof.
  unfold parse_snapshot. destruct (need data 0 8) eqn:Hn; [|done]. cbn [negb].
  destruct (_ && _); [done|]. unfold need in Hn. apply Z.leb_le in Hn.
  intros ([count off] & Hc & Hl)%bind_Some. destruct (_ <? _); [done|].
  eapply load_loop_wf; [| |exact Hl]; [|apply map_Forall_empty].
  destruct (bool_decide _).
  - apply read_bytes_inv in Hc as (-> & _ & Hb); [|lia]. unfold read_bytes in *. 
    revert Hb. cbn. lia.
  - injection Hc as _ <-. lia.
Qed.

(** ** Lemmas: the round trip *)

Lemma read_bytes_at data pre b rest off n :
  data = pre ++ b ++ rest → off = length pre → len b = n →
  read_bytes data off n = Some (b, (off + length b)%nat).
Proof. intros -> ->. apply read_bytes_app. Qed.

(** The sizes of a record fit the 64-bit length fields. *)
Definition fits_record (p : bytes * record) : Prop :=
  is_u64 (len p.1) ∧ is_u64 (len (r_value p.2)) ∧ wf_record p.2.

Lemma load_record_written pre key r rest :
  fits_record (key, r) →
  load_record true (pre ++ mjoin (record_pieces (key, r)) ++ rest) (length pre)
  = Some (key, reload r, (length pre + length (mjoin (record_pieces (key, r))))%nat).
Proof.
  intros (Hk & Hv & He & Ht & Hn). cbn [fst snd] in *. unfold record_pieces.
  cbn [mjoin list_join]. rewrite app_nil_r.
  set (b1 := le_bytes 8 (len key)). set (b3 := le_bytes 8 (len (r_value r))).
  set (b5 := le_bytes 8 (wrap64 (r_expire r))). set (b6 := le_bytes 8 (r_ts r)).
  set (b7 := le_bytes 4 (r_node r)).
  assert (L1 : length b1 = 8%nat) by apply le_bytes_length.
  assert (L3 : length b3 = 8%nat) by apply le_bytes_length.
  assert (L5 : length b5 = 8%nat) by apply le_bytes_length.
  assert (L6 : length b6 = 8%nat) by apply le_bytes_length.
  assert (L7 : length b7 = 4%nat) by apply le_bytes_length.
  set (data := pre ++ _). unfold load_record.
  rewrite (read_bytes_at data pre b1 (key ++ b3 ++ r_value r ++ b5 ++ b6 ++ b7 ++ rest));
    [|unfold data; by rewrite <- !app_assoc|done|lens].
  cbn [mbind option_bind]. replace (le_val b1) with (len key) by (symmetry; by apply le_u64).
  rewrite (read_bytes_at data (pre ++ b1) key (b3 ++ r_value r ++ b5 ++ b6 ++ b7 ++ rest));
    [|unfold data; by rewrite <- !app_assoc|lens|lens].
  cbn [mbind option_bind].
  rewrite (read_bytes_at data (pre ++ b1 ++ key) b3 (r_value r ++ b5 ++ b6 ++ b7 ++ rest));
    [|unfold data; by rewrite <- !app_assoc|lens|lens].
  cbn [mbind option_bind]. replace (le_val b3) with (len (r_value r)) by (symmetry; by apply le_u64).
  rewrite (read_bytes_at data (pre ++ b1 ++ key ++ b3) (r_value r) (b5 ++ b6 ++ b7 ++ rest));
    [|unfold data; by rewrite <- !app_assoc|lens|lens].
  cbn [mbind option_bind].
  rewrite (read_bytes_at data (pre ++ b1 ++ key ++ b3 ++ r_value r) b5 (b6 ++ b7 ++ rest));
    [|unfold data; by rewrite <- !app_assoc|lens|lens].
  cbn [mbind option_bind].
  replace (need data _ (8 + 4)) with true
    by (symmetry; unfold need, data; apply Z.leb_le; lens).
  rewrite (read_bytes_at data (pre ++ b1 ++ key ++ b3 ++ r_value r ++ b5) b6 (b7 ++ rest));
    [|unfold data; by rewrite <- !app_assoc|lens|lens].
  cbn [mbind option_bind].
  rewrite (read_bytes_at data (pre ++ b1 ++ key ++ b3 ++ r_value r ++ b5 ++ b6) b7 rest);
    [|unfold data; by rewrite <- !app_assoc|lens|lens].
  cbn [mbind option_bind]. unfold b5, b6, b7. rewrite le_i64, le_u64, le_u32 by done.
  unfold reload. do 2 f_equal. lens.
Qed.

(** The table that a list of records makes, as the loop builds it. *)
Definition table_of (l : list (bytes * record)) (m : gmap bytes record) : gmap bytes record :=
  foldl (λ m p, <[p.1 := reload p.2]> m) m l.

Lemma load_loop_written l pre rest num m fuel :
  Forall fits_record l → NoDup l.*1 → (∀ k, k ∈ l.*1 → m !! k = None) →
  num = Z.of_nat (size m) + len l → (length l < fuel)%nat →
  load_loop fuel true num (pre ++ mjoin (mjoin (record_pieces <$> l)) ++ rest) (length pre) m
  = Some (table_of l m).
Proof.
  revert pre m fuel. induction l as [|[k r] l IH]; intros pre m fuel Hf Hnd Hm -> Hfuel;
    (destruct fuel as [|fuel]; [cbn in Hfuel; lia|]); cbn [load_loop].
  - rewrite (proj2 (Z.leb_le _ _)) by lens. done.
  - rewrite (proj2 (Z.leb_gt _ _)) by lens.
    apply Forall_cons in Hf as [Hr Hf]. apply NoDup_cons in Hnd as [Hnot Hnd].
    assert (Hj : mjoin (mjoin (record_pieces <$> (k, r) :: l))
      = mjoin (record_pieces (k, r)) ++ mjoin (mjoin (record_pieces <$> l))).
    { rewrite fmap_cons. cbn [mjoin list_join]. by rewrite join_app. }
    rewrite Hj, <- app_assoc, load_record_written by done. cbn [mbind option_bind].
    rewrite app_assoc, <- length_app. rewrite IH; [done|done|done| | |cbn in Hfuel; lia].
    + intros k' Hk'. rewrite lookup_insert_ne by (intros ->; done). apply Hm. by right.
    + rewrite map_size_insert_None by (apply Hm; left). lens.
Qed.

Lemma record_pieces_length p : (36 ≤ length (mjoin (record_pieces p)))%nat.
Proof.
  destruct p as [k r]. unfold record_pieces. cbn [mjoin list_join].
  rewrite !length_app, !le_bytes_length. lia.
Qed.

Lemma records_length l : (36 * length l ≤ length (mjoin (mjoin (record_pieces <$> l))))%nat.
Proof.
  induction l as [|p l IH]; [cbn; lia|]. rewrite fmap_cons. cbn [mjoin list_join length].
  rewrite join_app, length_app. etrans; [|apply Nat.add_le_mono; [apply record_pieces_length|exact IH]]. lia.
Qed.

(** A snapshot file loads back: the same keys and values, with timestamps
    in the HLC format. *)
Lemma parse_snapshot_written l :
  Forall fits_record l → NoDup l.*1 → is_u64 (len l) →
  parse_snapshot (snapshot_bytes l) = Some (reload <$> list_to_map l).
Proof.
  intros Hf Hnd Hlen.
  set (body := mjoin (mjoin (record_pieces <$> l))).
  assert (Hb : snapshot_bytes l
    = SNAPSHOT_MAGIC ++ le_bytes 4 SNAPSHOT_VERSION ++ le_bytes 8 (len l) ++ body).
  { unfold snapshot_bytes. rewrite join_app. unfold header_pieces. cbn [mjoin list_join].
    rewrite app_nil_r, <- !app_assoc. done. }
  set (bv := le_bytes 4 SNAPSHOT_VERSION) in *. set (bn := le_bytes 8 (len l)) in *.
  assert (Lv : length bv = 4%nat) by apply le_bytes_length.
  assert (Ln : length bn = 8%nat) by apply le_bytes_length.
  assert (Lm : length SNAPSHOT_MAGIC = 4%nat) by done.
  pose proof (records_length l) as Hsz. fold body in Hsz.
  unfold parse_snapshot. rewrite Hb.
  replace (need _ 0 8) with true by (symmetry; unfold need; apply Z.leb_le; lens).
  cbn [negb]. rewrite take_app_exact by done. rewrite bool_decide_eq_true_2 by done. cbn [andb].
  rewrite drop_app_exact, take_app_exact by done.
  replace (le_val bv) with SNAPSHOT_VERSION by (symmetry; by apply le_u32).
  rewrite Z.eqb_refl. cbn [negb].
  rewrite (read_bytes_at _ (SNAPSHOT_MAGIC ++ bv) bn body 8 8);
    [|by rewrite <- !app_assoc|lens|lens].
  cbn [mbind option_bind].
  replace (le_val bn) with (len l) by (symmetry; by apply le_u64).
  rewrite (proj2 (Z.ltb_ge _ _)) by lens.
  replace (SNAPSHOT_MAGIC ++ bv ++ bn ++ body) with ((SNAPSHOT_MAGIC ++ bv ++ bn) ++ body ++ [])
    by (by rewrite app_nil_r, <- !app_assoc).
  replace (8 + length bn)%nat with (length (SNAPSHOT_MAGIC ++ bv ++ bn)) by lens.
  unfold body at 2. rewrite load_loop_written; [|done|done|by intros; apply lookup_empty
    |by rewrite map_size_empty|unfold body in *; lens].
  f_equal. apply map_eq. intros k. rewrite lookup_fmap.
  assert (Ht : ∀ l' m, NoDup l'.*1 → table_of l' m !! k
    = match (list_to_map l' : gmap bytes record) !! k with
      | Some r => Some (reload r) | None => m !! k end).
  { clear. intros l'. induction l' as [|[k' r'] l' IH]; intros m Hnd; [cbn; by rewrite lookup_empty|].
    apply NoDup_cons in Hnd as [Hnot Hnd].
    change (table_of ((k', r') :: l') m) with (table_of l' (<[k' := reload r']> m)).
    rewrite IH by done. cbn [list_to_map foldr fst snd uncurry].
    destruct (decide (k = k')) as [->|Hne].
    - rewrite lookup_insert_eq. rewrite (not_elem_of_list_to_map_1 l') by done.
      by rewrite lookup_insert_eq.
    - by rewrite !lookup_insert_ne. }
  rewrite Ht by done. destruct (list_to_map l !! k); [done|]. by rewrite lookup_empty.
Qed.

Section specs.
  Context `{World}.

(** The writer has put out exactly what it was fed, as long as it is [ok]. *)
Definition wrote (w : writer) (done_ : bytes) : Prop :=
  w_ok w = true → w_file w ++ w_buf w = done_.

Lemma flush_buf_spec w d s :
  wrote w d →
  ∃ n, let '(w', s') := flush_buf w s in
  s' = upd_sys_tick (λ _, n) s ∧ wrote w' d ∧ (w_ok w' = true → w_buf w' = []).
Proof.
  intros Hw. unfold flush_buf. destruct (w_ok w) eqn:Ho; cbn [negb orb].
  2:{ exists (sys_tick s). cbn. split; [by destruct s|]. split; [done|]. by rewrite Ho. }
  destruct (decide (w_buf w = [])) as [He|He].
  - rewrite bool_decide_eq_true_2 by done. exists (sys_tick s). cbn.
    split; [by destruct s|]. by split.
  - rewrite bool_decide_eq_false_2 by done. unfold bind, interact.
    destruct (write_at_spec (sys_tick s) (w_file w) (w_buf w)) as (ok & n & -> & Hn & Hiff).
    exists (S (sys_tick s)). cbn. split; [done|]. split; [|done].
    intros Hok. cbn in *. rewrite app_nil_r, <- (Hw Ho). subst ok.
    by rewrite take_ge by (by rewrite (proj1 Hiff)).
Qed.

Lemma feed_spec w d p s :
  wrote w d →
  ∃ n, let '(w', s') := feed w p s in s' = upd_sys_tick (λ _, n) s ∧ wrote w' (d ++ p).
Proof.
  intros Hw. unfold feed. cbn [w_buf].
  assert (Hw1 : wrote (Writer (w_ok w) (w_buf w ++ p) (w_file w)) (d ++ p)).
  { intros Ho. cbn in *. by rewrite app_assoc, (Hw Ho). }
  destruct (_ <=? _)%nat.
  - destruct (flush_buf_spec _ _ s Hw1) as [n Hn]. exists n.
    destruct (flush_buf _ _). destruct Hn as (? & ? & _). done.
  - exists (sys_tick s). cbn. split; [by destruct s|done].
Qed.

Lemma feed_all_spec w d pieces s :
  wrote w d →
  ∃ n, let '(w', s') := feed_all w pieces s in
  s' = upd_sys_tick (λ _, n) s ∧ wrote w' (d ++ mjoin pieces).
Proof.
  revert w d s. induction pieces as [|p pieces IH]; intros w d s Hw; cbn [feed_all].
  { exists (sys_tick s). cbn. rewrite app_nil_r. split; [by destruct s|done]. }
  unfold bind. destruct (feed_spec w d p s Hw) as [n1 Hn1].
  destruct (feed w p s) as [w1 s1]. destruct Hn1 as [-> Hw'].
  destruct (IH w1 (d ++ p) (upd_sys_tick (λ _, n1) s) Hw') as [n Hn].
  exists n. destruct (feed_all _ _ _). destruct Hn as [-> Hn]. split; [done|].
  cbn [mjoin list_join]. by rewrite app_assoc.
Qed.

Lemma feed_records_spec w d l s :
  wrote w d →
  ∃ n, let '(w', s') := feed_records w l s in
  s' = upd_sys_tick (λ _, n) s ∧ wrote w' (d ++ mjoin (mjoin (record_pieces <$> l))).
Proof.
  revert w d s. induction l as [|p l IH]; intros w d s Hw; cbn [feed_records].
  { exists (sys_tick s). cbn. rewrite app_nil_r. split; [by destruct s|done]. }
  unfold bind. destruct (feed_all_spec w d (record_pieces p) s Hw) as [n1 Hn1].
  destruct (feed_all _ _ _) as [w1 s1]. destruct Hn1 as [-> Hw1].
  destruct (w_ok w1) eqn:Ho; cbn [negb].
  - destruct (IH w1 _ (upd_sys_tick (λ _, n1) s) Hw1) as [n Hn]. exists n.
    destruct (feed_records _ _ _). destruct Hn as [-> Hn]. split; [done|].
    rewrite fmap_cons. cbn [mjoin list_join]. by rewrite join_app, app_assoc.
  - exists n1. cbn. split; [done|]. unfold wrote. by rewrite Ho.
Qed.

(** [hibernate_room]: either the file holds every record and the room is
    empty, or neither the room nor its previous file changed. *)
Lemma hibernate_room_spec room_name c :
  wp (hibernate_room room_name) (λ ok c',
    ∃ n, if ok then
      ∃ l, l ≡ₚ map_to_list (keys (c_room c))
      ∧ c' = upd_c_room (upd_keys (λ _, ∅)) (upd_c_sh (λ s,
               upd_snaps (<[room_name := snapshot_bytes l]>) (upd_sys_tick (λ _, n) s)) c)
    else c' = upd_c_sh (upd_sys_tick (λ _, n)) c) c.
Proof.
  unfold hibernate_room. wp_run.
  destruct (succeeds _); cbn [negb]; wp_run; [|by eexists].
  set (s1 := upd_sys_tick S (c_sh c)). cbn [c_room].
  set (m := keys (c_room c)).
  assert (Hw0 : wrote (Writer true [] []) []) by done.
  destruct (feed_all_spec _ _ (header_pieces (Z.of_nat (size m))) s1 Hw0) as [n1 Hn1].
  unfold wp at 1. cbn [c_sh]. fold s1. destruct (feed_all _ _ s1) as [w1 s2].
  destruct Hn1 as [-> Hw1]. cbn [fst snd]. wp_run. cbn [c_sh sys_tick upd_sys_tick c_room].
  set (l := traverse n1 m). 
  match goal with |- wp (feed_records w1 l) _ ?s =>
    destruct (feed_records_spec w1 _ l s Hw1) as [n2 Hn2]; unfold wp at 1;
    destruct (feed_records w1 l s) as [w2 s3] end.
  destruct Hn2 as [-> Hw2]. cbn [fst snd]. wp_run. cbn [c_sh c_room].
  match goal with |- wp (flush_buf w2) _ ?s =>
    destruct (flush_buf_spec w2 _ s Hw2) as [n3 Hn3]; unfold wp at 1;
    destruct (flush_buf w2 s) as [w3 s4] end.
  destruct Hn3 as (-> & Hw3 & Hbuf). cbn [fst snd]. wp_run.
  destruct (w_ok w3) eqn:Ho; wp_run; [|by exists n3].
  destruct (succeeds _); cbn [negb]; wp_run; [|by eexists].
  destruct (succeeds _); cbn [negb]; wp_run; [|by eexists].
  destruct (succeeds _); cbn [negb]; wp_run; [|by eexists].
  eexists. exists l. split; [apply traverse_perm|].
  specialize (Hw3 Ho). rewrite (Hbuf eq_refl), app_nil_r in Hw3.
  assert (Hfile : w_file w3 = snapshot_bytes l).
  { rewrite Hw3. unfold snapshot_bytes. rewrite join_app. cbn [app]. do 2 f_equal.
    unfold len, l. by rewrite traverse_length. }
  rewrite Hfile. by destruct c as [r [? ? ? ? ? ? ?]].
Qed.

End specs.

Section more.
  Context `{World}.

Lemma wakeup_room_spec room_name c :
  wp (wakeup_room room_name) (λ ok c',
    ∃ n, if ok then
      ∃ data m, snaps (c_sh c) !! room_name = Some data ∧ parse_snapshot data = Some m
      ∧ map_Forall (λ _ r, wf_record r) m
      ∧ c' = upd_c_room (upd_keys (λ _, m)) (upd_c_sh (upd_sys_tick (λ _, n)) c)
    else
      c' = upd_c_sh (upd_sys_tick (λ _, n)) c
      ∨ ∃ data, snaps (c_sh c) !! room_name = Some data ∧ parse_snapshot data = None
        ∧ c' = upd_c_sh (λ s, upd_snaps (delete room_name)
                 (upd_aside (λ l, data :: l) (upd_sys_tick (λ _, n) s))) c) c.
Proof.
  unfold wakeup_room. wp_run.
  assert (Hc : ∃ n, c = upd_c_sh (upd_sys_tick (λ _, n)) c)
    by (exists (sys_tick (c_sh c)); by destruct c as [r [? ? ? ? ? ? ?]]).
  destruct Hc as [n0 Hc].
  destruct (snaps (c_sh c) !! room_name) as [data|] eqn:Hs; [|wp_run; exists n0; left; by destruct c].
  wp_run. destruct (succeeds _); cbn [negb]; wp_run; [|by eexists; left].
  destruct (parse_snapshot data) as [m|] eqn:Hp; wp_run.
  - eexists. exists data, m. split; [done|]. split; [done|].
    split; [by eapply parse_snapshot_wf|done].
  - destruct (succeeds _); cbn [when]; wp_run; [|by eexists; left].
    eexists. right. exists data. split; [done|]. split; [done|]. by destruct c as [r [? ? ? ? ? ? ?]].
Qed.

(** Records whose file survives a reload unchanged. *)
Definition stable_record (r : record) : Prop := stable_ts (r_ts r).

Lemma reload_stable r : wf_record r → stable_record r → reload r = r.
Proof.
  intros (_ & Ht & _) Hs. destruct r as [v e ts n]. unfold reload. cbn in *. f_equal.
  by apply normalize_stable.
Qed.

Lemma reload_map_stable (m : gmap bytes record) :
  map_Forall (λ _ r, wf_record r) m → map_Forall (λ _ r, stable_record r) m → reload <$> m = m.
Proof.
  intros Hw Hs. apply map_eq. intros k. rewrite lookup_fmap.
  destruct (m !! k) as [r|] eqn:E; [|done]. cbn. f_equal.
  apply reload_stable; [by eapply Hw|by eapply Hs].
Qed.

Lemma snapshot_of_map (l : list (bytes * record)) (m : gmap bytes record) :
  l ≡ₚ map_to_list m → map_Forall (λ k r, fits_record (k, r)) m → is_u64 (Z.of_nat (size m)) →
  parse_snapshot (snapshot_bytes l) = Some (reload <$> m).
Proof.
  intros Hl Hf Hsz.
  assert (Hnd : NoDup l.*1) by (rewrite Hl; apply NoDup_fst_map_to_list).
  rewrite parse_snapshot_written; [|rewrite Hl|done|].
  - do 2 f_equal. rewrite <- (list_to_map_to_list m). by apply list_to_map_proper.
  - apply Forall_forall. intros [k r] Hin%elem_of_map_to_list. by apply Hf.
  - unfold len. by rewrite Hl, length_map_to_list.
Qed.

End more.

(** ** Properties *)

(** C27: Hibernation loses nothing: [hibernate_room] either leaves the room
    and its previous snapshot as they were, or empties the room after the
    snapshot file holds every record; from that file the room wakes with the
    same keys, values, expirations and nodes, timestamps in the HLC format,
    and with exactly its records when no timestamp is a legacy one. *)
Theorem hibernate_keeps_records `{World} room_name c :
  map_Forall (λ k r, fits_record (k, r)) (keys (c_room c)) →
  is_u64 (Z.of_nat (size (keys (c_room c)))) →
  let '(ok, c1) := hibernate_room room_name c in
  if ok then
    keys (c_room c1) = ∅
    ∧ (∃ file, snaps (c_sh c1) = <[room_name := file]> (snaps (c_sh c))
       ∧ parse_snapshot file = Some (reload <$> keys (c_room c)))
    ∧ (map_Forall (λ _ r, stable_record r) (keys (c_room c)) →
       ∀ c2, snaps (c_sh c2) !! room_name = snaps (c_sh c1) !! room_name →
         succeeds (sys_tick (c_sh c2)) = true →
         keys (c_room (wakeup_room room_name c2).2) = keys (c_room c))
  else c_room c1 = c_room c ∧ snaps (c_sh c1) = snaps (c_sh c).
Proof.
  intros Hf Hsz. pose proof (hibernate_room_spec room_name c) as Hh. unfold wp in Hh.
  destruct (hibernate_room room_name c) as [ok c1]. destruct Hh as [n Hh]. destruct ok; cbn in Hh.
  2:{ by rewrite Hh. }
  destruct Hh as (l & Hl & ->). pose proof (snapshot_of_map l _ Hl Hf Hsz) as Hp.
  split; [done|]. split; [by eexists|].
  intros Hst c2 Hc2 Hread. cbn in Hc2. rewrite lookup_insert_eq in Hc2.
  unfold wakeup_room, bind at 1. cbn. rewrite Hc2. cbn. rewrite Hread. cbn. rewrite Hp. cbn.
  apply reload_map_stable; [|done]. intros k r Hk. by destruct (Hf k r Hk) as (_ & _ & ?).
Qed.

Lemma hibernate_keeps_records_witness :
  let W := calm default_config 0 in
  let m : gmap bytes record := {[ str "k" := Record_ (str "v") 5 (2 ^ 50) 7 ]} in
  let c := Ctx_ (Room m 0 Active 0) (init_shared None ∅) in
  let '(ok, c1) := hibernate_room (str "r") c in
  if ok then keys (c_room c1) = ∅ else c_room c1 = c_room c.
Proof.
  intros W m c.
  assert (H1 : map_Forall (λ k r, fits_record (k, r)) m).
  { apply map_Forall_singleton. vm_compute. repeat split; discriminate. }
  assert (H2 : is_u64 (Z.of_nat (size m))) by (vm_compute; split; discriminate).
  pose proof (hibernate_keeps_records (H := W) (str "r") c H1 H2) as Hk.
  destruct (hibernate_room (str "r") c) as [ok c1]. destruct ok; apply Hk.
Defined.

(** Loading never trusts the file: whatever bytes a snapshot holds, the
    room's table is replaced only by a table that came from a completely valid
    file, with every field in range; a file that is not valid is kept under
    another name, never deleted, and the room is untouched; and the loader
    always ends (its loop needs no more rounds than the file has bytes). *)
Theorem wakeup_never_corrupts `{World} room_name c :
  ((∃ n, (wakeup_room room_name c).2 = upd_c_sh (upd_sys_tick (λ _, n)) c)
  ∨ (∃ data m, snaps (c_sh c) !! room_name = Some data ∧ parse_snapshot data = Some m
     ∧ keys (c_room (wakeup_room room_name c).2) = m ∧ map_Forall (λ _ r, wf_record r) m
     ∧ snaps (c_sh (wakeup_room room_name c).2) = snaps (c_sh c))
  ∨ (∃ data, snaps (c_sh c) !! room_name = Some data ∧ parse_snapshot data = None
     ∧ c_room (wakeup_room room_name c).2 = c_room c
     ∧ aside (c_sh (wakeup_room room_name c).2) = data :: aside (c_sh c)))
  ∧ (∀ fuel is_v2 num data off loaded, (off ≤ length data)%nat → (length data < fuel)%nat →
     load_loop fuel is_v2 num data off loaded = load_loop (S (length data)) is_v2 num data off loaded).
Proof.
  split; [|intros; apply load_loop_fuel; lia].
  pose proof (wakeup_room_spec room_name c) as Hw. unfold wp in Hw.
  destruct (wakeup_room room_name c) as [ok c1]. destruct Hw as [n Hw]. destruct ok; cbn in *.
  - destruct Hw as (data & m & Hs & Hp & Hwf & ->). right. left. by exists data, m.
  - destruct Hw as [->|(data & Hs & Hp & ->)]; [left; by exists n|]. right. right. by exists data.
Qed.
