(* ===== verification/Aof.v ===== *)
(** * The append-only file (src/storage/aof_manager.h, .cpp)

    The record format, recovery ([recover_file], reading the file in chunks),
    [append] with its repair of a partial write, opening, and the rewrite
    ([start_rewrite], [append_rewrite], [append_tail], [commit_rewrite],
    [abort_rewrite]). [aof_file] is the content of [appendonly.aof],
    [rewrite_file] that of the temporary file while it is open. Published
    metrics and timings are not modelled; the sync thread is in AofSync. *)

From S2P Require Import Prelude FsUtil Resp Config World Types State.

(** ** Records *)

Record AofRecord := AofRecord_ {
  a_room : bytes;
  a_args : list bytes;
  a_expire : Z;
  a_ts : Z;
  a_node : Z
}.

Definition kMagicToken : bytes := str "SOMNIUM-AOF".
Definition kMetaToken : bytes := str "SOMNIUM-META".
Definition kAofVersion : Z := 3.
Definition kAofHeader : bytes :=
  str "*2" ++ CRLF ++ str "$11" ++ CRLF ++ str "SOMNIUM-AOF" ++ CRLF ++ str "$1" ++ CRLF
  ++ str "3" ++ CRLF.

Definition is_write_cmd (c : bytes) : bool :=
  bool_decide (c = str "SET") || bool_decide (c = str "DEL") || bool_decide (c = str "CRDTMERGE").

Inductive Fmt := Undetected | V3 | V2 | V1.

Definition encode_record (rec : AofRecord) : bytes :=
  str "*" ++ to_string_u (len (a_args rec) + 5) ++ CRLF
  ++ bulk_string (a_room rec)
  ++ bulks (a_args rec)
  ++ bulk_string kMetaToken
  ++ bulk_string (to_string (a_expire rec))
  ++ bulk_string (to_string_u (a_ts rec))
  ++ bulk_string (to_string_u (a_node rec)).

Definition build_record (fmt : Fmt) (tokens : list bytes) : option AofRecord :=
  match fmt with
  | V3 =>
      let n := length tokens in
      if (n <? 5)%nat then None else
      if decide (nth (n - 4) tokens [] ≠ kMetaToken) then None else
      e ← parse_i64 (nth (n - 3) tokens []);
      ts ← parse_u64 (nth (n - 2) tokens []);
      node ← parse_u64 (nth (n - 1) tokens []);
      if UINT32_MAX <? node then None else
      Some (AofRecord_ (nth 0 tokens []) (take (n - 5) (drop 1 tokens)) e ts node)
  | V2 =>
      match tokens with
      | [] => None
      | room_name :: args => Some (AofRecord_ room_name args 0 0 1)
      end
  | _ => Some (AofRecord_ (str "default") tokens 0 0 1)
  end.

(** ** Recovery *)

(** How the scan of the file ended. *)
Inductive ending := CleanEnd | TornTail (valid_bytes : nat) | Corrupt.

(** The incremental reader: what is still in the file, the buffer, the
    position in it and the bytes already dropped from its front. *)
Record reader := Reader { rd_rest : bytes; rd_buf : bytes; rd_pos : nat; rd_compacted : nat }.

Definition CHUNK : nat := Z.to_nat 65536.

Definition fill (r : reader) : bool * reader :=
  let chunk := take CHUNK (rd_rest r) in
  (negb (bool_decide (chunk = [])),
   Reader (drop CHUNK (rd_rest r)) (drop (rd_pos r) (rd_buf r) ++ chunk) 0
     (rd_compacted r + rd_pos r)).

(** The inner loop: parse, and read on while the buffer ends too early. Every
    successful [fill] takes bytes from the file: its rest is enough fuel. *)
Fixpoint parse_fill (fuel : nat) (r : reader) : status (list bytes * nat) * reader :=
  match parse (rd_buf r) (rd_pos r) with
  | NeedMore =>
      let '(more, r) := fill r in
      match fuel with
      | S fuel => if more then parse_fill fuel r else (NeedMore, r)
      | O => (NeedMore, r)
      end
  | st => (st, r)
  end.

(** What a record means for the format: [inl] a verdict of corruption, or the
    header; [inr] the format and whether the file needs a rewrite. *)
Inductive detected := BadHeader | Header | Body (fmt : Fmt) (legacy : bool).

Definition detect (fmt : Fmt) (tokens : list bytes) : detected :=
  match fmt with
  | Undetected =>
      match tokens with
      | [magic; v] =>
          if decide (magic = kMagicToken) then
            match parse_u64 v with
            | None => BadHeader
            | Some ver => if ver =? kAofVersion then Header else BadHeader
            end
          else Body (if is_write_cmd v then V2 else V1) true
      | _ :: c :: _ => Body (if is_write_cmd c then V2 else V1) true
      | _ => Body V1 true
      end
  | _ => Body fmt false
  end.

(** The outer loop: the records to replay, in order, how it ended, and
    [needs_rewrite_]. Every round consumes bytes: the size of the file is
    enough fuel. *)
Record recovery := Recovery { rc_records : list AofRecord; rc_end : ending; rc_rewrite : bool }.

Definition rec_cons (a : AofRecord) (legacy : bool) (r : recovery) : recovery :=
  Recovery (a :: rc_records r) (rc_end r) (legacy || rc_rewrite r).

Fixpoint recover_loop (fuel : nat) (fmt : Fmt) (r : reader) : recovery :=
  match fuel with
  | O => Recovery [] CleanEnd false
  | S fuel =>
      let '(st, r) := parse_fill (length (rd_rest r)) r in
      match st with
      | NeedMore =>
          Recovery []
            (if (rd_pos r <? length (rd_buf r))%nat then TornTail (rd_compacted r + rd_pos r)
             else CleanEnd) false
      | Malformed => Recovery [] Corrupt true
      | Complete (tokens, rec_end) =>
          let r := Reader (rd_rest r) (rd_buf r) rec_end (rd_compacted r) in
          match detect fmt tokens with
          | BadHeader => Recovery [] Corrupt true
          | Header => recover_loop fuel V3 r
          | Body fmt legacy =>
              match build_record fmt tokens with
              | None => Recovery [] Corrupt true
              | Some rec => rec_cons rec legacy (recover_loop fuel fmt r)
              end
          end
      end
  end.

Definition recover_file (file : bytes) : recovery :=
  recover_loop (S (length file)) Undetected (Reader file [] 0 0).

Arguments kAofHeader : simpl never.
Arguments encode_record : simpl never.
Arguments CHUNK : simpl never.

(** *** The file and its name

    What the calls on [appendonly.aof] do to the file and to what the disk is
    known to hold. *)

(** The name is taken from the file it stands for. *)
Definition displace (a : aof_state) : aof_state :=
  upd_former (cons ((λ _, durable a) <$> aof_file a)) a.

(** [open] with [O_CREAT]. *)
Definition open_creat (a : aof_state) : aof_state :=
  match aof_file a with
  | Some _ => a
  | None => upd_durable (λ _, []) (upd_aof_file (λ _, Some []) (displace a))
  end.

Definition ftruncate (n : nat) (a : aof_state) : aof_state :=
  upd_durable (take n) (upd_aof_file (fmap (take n)) a).

(** [rename] of the file to another name, and of another file, already synced,
    to its name. *)
Definition put_aside (a : aof_state) : aof_state :=
  upd_durable (λ _, []) (upd_aof_file (λ _, None) (displace a)).
Definition put_in_place (file : bytes) (a : aof_state) : aof_state :=
  upd_durable (λ _, file) (upd_aof_file (λ _, Some file) (displace a)).

(** A successful [fdatasync]. *)
Definition flush (a : aof_state) : aof_state := upd_durable (λ _, default [] (aof_file a)) a.

Section aof.
  Context `{World}.

(** [fsutil::sync_dir]: the directory is opened and synced; nobody learns
    whether that worked. *)
Definition sync_dir : M shared unit :=
  let* opened := syscall in
  when opened (
    let* ok := syscall in
    when ok (mod_aof (upd_former (λ _, [])))).

(** [recover]: the records for the replay callback, and what happens to the
    file: a torn tail is cut off, a corrupt file is put aside. *)
Definition recover : M shared (list AofRecord) :=
  let* a := gets aof in
  match aof_file a with
  | None | Some [] => mod_aof (upd_replaying (λ _, false)) ;; ret []
  | Some file =>
      let* opened := syscall in
      if negb opened then mod_aof (upd_replaying (λ _, false)) ;; ret [] else
      let r := recover_file file in
      mod_aof (upd_needs_rewrite (λ n, n || rc_rewrite r)) ;;
      match rc_end r with
      | CleanEnd => ret tt
      | TornTail n =>
          let* opened := syscall in
          when opened (
            let* cut := syscall in
            when cut (
              mod_aof (ftruncate n) ;;
              let* flushed := syscall in
              when flushed (mod_aof flush)))
      | Corrupt =>
          let* renamed := syscall in
          when renamed (
            modify (upd_aside (λ l, file :: l)) ;;
            mod_aof put_aside)
      end ;;
      mod_aof (upd_replaying (λ _, false)) ;;
      ret (rc_records r)
  end.

(** [sync_locked]: [fdatasync] under the mutex. *)
Definition sync_locked : M shared bool :=
  let* ok := syscall in
  if negb ok then mod_aof (upd_healthy (λ _, false)) ;; ret false else
  let* now := interact wall in
  mod_aof (upd_last_sync_epoch_ms (λ _, now)) ;;
  mod_aof (λ a, upd_synced (λ _, size_ a) (flush a)) ;;
  ret true.

Definition bump_generation : M shared unit := mod_aof (upd_generation S).

Definition open_file : M shared bool :=
  let* a := gets aof in
  if fd_open a then ret true else
  let* opened := syscall in
  if negb opened then mod_aof (upd_healthy (λ _, false)) ;; ret false else
  let file := default [] (aof_file a) in
  mod_aof open_creat ;;
  mod_aof (upd_fd_open (λ _, true)) ;;
  let* has_size := syscall in
  bump_generation ;;
  let* ok :=
    (if has_size && bool_decide (file = []) then
       mod_aof (upd_size_ (λ _, 0%nat)) ;;
       let* '(ok, _, file') := interact (λ k, write_at k file kAofHeader) in
       mod_aof (upd_aof_file (λ _, Some file')) ;;
       if negb ok then
         mod_aof (upd_healthy (λ _, false)) ;;
         let* cut := syscall in
         when cut (mod_aof (ftruncate 0)) ;;
         mod_aof (upd_fd_open (λ _, false)) ;;
         ret false
       else
         mod_aof (upd_size_ (λ _, length kAofHeader)) ;;
         let* synced := sync_locked in
         if negb synced then mod_aof (upd_fd_open (λ _, false)) ;; ret false else
         sync_dir ;;
         ret true
     else
       let n := if has_size then length file else 0%nat in
       mod_aof (upd_size_ (λ _, n)) ;;
       mod_aof (upd_synced (λ _, n)) ;;
       ret true) in
  when ok (mod_aof (λ a, upd_base_size (λ _, size_ a) a)) ;;
  ret ok.

(** The beginning of [append]: the log is opened again after a failure closed
    it. *)
Definition reopen : M shared bool :=
  let* a := gets aof in
  if fd_open a then ret true else
  let* opened := syscall in
  if negb opened then mod_aof (upd_healthy (λ _, false)) ;; ret false else
  mod_aof open_creat ;;
  mod_aof (upd_fd_open (λ _, true)) ;;
  bump_generation ;;
  mod_aof (upd_synced (λ _, 0%nat)) ;;
  mod_aof (upd_healthy (λ _, true)) ;;
  ret true.

(** Its end after a failed write: a record written in part is cut off, or
    nothing may follow it. *)
Definition append_failed (written : nat) (file : bytes) : M shared unit :=
  mod_aof (upd_healthy (λ _, false)) ;;
  when (0 <? written)%nat (
    let* has_size := syscall in
    let* cut := (if has_size then syscall else ret false) in
    if cut then mod_aof (ftruncate (length file - written))
    else mod_aof (upd_torn (λ _, true))) ;;
  mod_aof (upd_fd_open (λ _, false)) ;;
  bump_generation.

(** [append]: one record at the end of the file. *)
Definition append (room_name : bytes) (args : list bytes) (expire_at ts node : Z)
    : M shared bool :=
  let* a := gets aof in
  if replaying a || torn a then ret false else
  let data := encode_record (AofRecord_ room_name args expire_at ts node) in
  let* ready := reopen in
  if negb ready then ret false else
  let* file := gets (λ s, default [] (aof_file (aof s))) in
  let* '(ok, written, file') := interact (λ k, write_at k file data) in
  mod_aof (upd_aof_file (λ _, Some file')) ;;
  if negb ok then
    append_failed written file' ;;
    ret false
  else
  mod_aof (upd_size_ (λ n, n + length data)%nat) ;;
  match aof_sync cfg with
  | Always => sync_locked
  | _ => ret true
  end.

(** ** The rewrite *)

Definition rewrite_due : M shared bool :=
  gets (λ s, let a := aof s in
    (aof_rewrite_min_bytes cfg <=? Z.of_nat (size_ a)) && (2 * base_size a <=? size_ a)%nat).

Definition start_rewrite : M shared bool :=
  let* a := gets aof in
  match rewrite_file a with
  | Some _ => ret true
  | None =>
      mod_aof (λ a, upd_base_size (λ _, size_ a) a) ;;
      let* opened := syscall in
      if negb opened then ret false else
      let* '(ok, _, file) := interact (λ k, write_at k [] kAofHeader) in
      if negb ok then ret false else
      mod_aof (upd_rewrite_file (λ _, Some file)) ;;
      ret true
  end.

(** [write_all] to [rewrite_fd_]. *)
Definition write_rewrite (data : bytes) : M shared bool :=
  let* a := gets aof in
  match rewrite_file a with
  | None => ret false
  | Some file =>
      let* '(ok, _, file') := interact (λ k, write_at k file data) in
      mod_aof (upd_rewrite_file (λ _, Some file')) ;;
      ret ok
  end.

Definition append_rewrite (rec : AofRecord) : M shared bool := write_rewrite (encode_record rec).

Definition abort_rewrite : M shared unit :=
  mod_aof (upd_last_tail (λ _, 0%nat)) ;;
  mod_aof (upd_rewrite_file (λ _, None)).

(** [append_tail]: the old file from [from] to its logical end, in chunks. *)
Fixpoint copy_tail (fuel : nat) (off end_ : nat) : M shared bool :=
  if (end_ <=? off)%nat then ret true else
  match fuel with
  | O => ret false
  | S fuel =>
      let n := Nat.min CHUNK (end_ - off) in
      let* file := gets (λ s, default [] (aof_file (aof s))) in
      let* '(ok, buf) := interact (λ k, pread_at k file n off) in
      let* ok := (if ok then write_rewrite buf else ret false) in
      if negb ok then ret false else copy_tail fuel (off + n) end_
  end.

Definition append_tail (from : nat) : M shared bool :=
  let* a := gets aof in
  match rewrite_file a, aof_file a with
  | Some _, Some _ =>
      let* opened := syscall in
      if negb opened then ret false else
      let end_ := size_ a in
      mod_aof (upd_last_tail (λ _, if (from <=? end_)%nat then end_ - from else 0)%nat) ;;
      copy_tail (end_ - from) from end_
  | _, _ => ret false
  end.

Definition commit_rewrite : M shared bool :=
  let* a := gets aof in
  match rewrite_file a with
  | None => ret false
  | Some file =>
      let* has_size := syscall in
      let written := if has_size then length file else 0%nat in
      let* synced := syscall in
      if negb synced then abort_rewrite ;; ret false else
      let* closed := syscall in
      if negb closed then
        mod_aof (upd_healthy (λ _, false)) ;;
        mod_aof (upd_rewrite_file (λ _, None)) ;;
        ret false
      else
      mod_aof (upd_rewrite_file (λ _, None)) ;;
      let* renamed := syscall in
      if negb renamed then mod_aof (upd_healthy (λ _, false)) ;; ret false else
      mod_aof (put_in_place file) ;;
      sync_dir ;;
      let* reopened := syscall in
      bump_generation ;;
      let* now := interact wall in
      mod_aof (λ a,
        let snapshot := if (last_tail a <=? written)%nat then (written - last_tail a)%nat else written in
        Aof_ (aof_file a) reopened None reopened false false (replaying a) written
          (if (snapshot =? 0)%nat then 1 else snapshot) 0 (generation a)
          (if reopened then written else 0%nat)
          (if reopened then now else last_sync_epoch_ms a) (durable a) (former a)) ;;
      ret reopened
  end.

End aof.

(** ** Lemmas: the record format *)

Definition record_tokens (rec : AofRecord) : list bytes :=
  a_room rec :: a_args rec
  ++ [kMetaToken; to_string (a_expire rec); to_string_u (a_ts rec); to_string_u (a_node rec)].

(** What the database appends: within the limits of the parser and of the
    field types. *)
Record valid_record (rec : AofRecord) : Prop := {
  va_count : len (a_args rec) + 5 <= kMaxArgs;
  va_tokens : Forall (λ a, len a <= kMaxBulk) (a_room rec :: a_args rec);
  va_expire : is_i64 (a_expire rec);
  va_ts : is_u64 (a_ts rec);
  va_node : is_u32 (a_node rec)
}.

Lemma record_tokens_len rec : len (record_tokens rec) = len (a_args rec) + 5.
Proof. unfold record_tokens. rewrite len_cons, len_app. unfold len. cbn [length]. lia. Qed.

Lemma encode_record_encode rec : encode_record rec = encode (record_tokens rec).
Proof.
  unfold encode_record, encode. rewrite record_tokens_len. unfold record_tokens, bulks.
  rewrite fmap_cons, fmap_app. cbn [mjoin list_join fmap list_fmap]. rewrite join_app.
  cbn [mjoin list_join]. by rewrite app_nil_r.
Qed.

Lemma kAofHeader_encode : kAofHeader = encode [kMagicToken; str "3"].
Proof. by vm_compute. Qed.

Lemma to_string_length n : is_i64 n → (length (to_string n) ≤ 20)%nat.
Proof.
  intros Hn. unfold to_string. destruct (Z.ltb_spec n 0).
  - rewrite length_app. change (length (str "-")) with 1%nat.
    assert (Hlt : (length (to_string_u (- n)) ≤ 19)%nat); [|lia].
    unfold to_string_u. pose proof (dec_go_length (S (Z.to_nat (Z.log2 (- n)))) 19 (- n) []) as Hd.
    simpl length in Hd. apply Hd; [ulia|lia].
  - apply to_string_u_length. ulia.
Qed.

Lemma record_tokens_bounded rec :
  valid_record rec → Forall (λ a, len a <= kMaxBulk) (record_tokens rec).
Proof.
  intros [_ Ht He Hts Hn]. unfold record_tokens. rewrite app_comm_cons. apply Forall_app. split; [done|].
  assert (Hu : ∀ n, is_u64 n → len (to_string_u n) <= kMaxBulk).
  { intros n Hn'. destruct (to_string_u_length n Hn'). unfold kMaxBulk. ulia. }
  pose proof (to_string_length _ He).
  repeat constructor; [by vm_compute|unfold kMaxBulk; ulia|by apply Hu|apply Hu; ulia].
Qed.

Lemma nth_app_tail {A} (l r : list A) i d : nth (length l + i) (l ++ r) d = nth i r d.
Proof. rewrite app_nth2_plus. done. Qed.

(** The meta tokens are found from the end, whatever the arguments are. *)
Lemma build_record_tokens rec : valid_record rec → build_record V3 (record_tokens rec) = Some rec.
Proof.
  intros [Hc _ He Hts Hn]. destruct rec as [rm args e ts nd]. cbn [a_room a_args a_expire a_ts a_node] in *.
  unfold build_record, record_tokens. cbn [a_room a_args a_expire a_ts a_node].
  set (meta := [kMetaToken; to_string e; to_string_u ts; to_string_u nd]).
  assert (Hlen : length (rm :: args ++ meta) = (length (rm :: args) + 4)%nat)
    by (cbn; rewrite length_app; cbn; lia).
  rewrite Hlen. replace (_ <? 5)%nat with false by (symmetry; apply Nat.ltb_ge; cbn; lia).
  change (rm :: args ++ meta) with ((rm :: args) ++ meta).
  assert (Hnth : ∀ i, (1 ≤ i ≤ 4)%nat →
    nth (length (rm :: args) + 4 - i) ((rm :: args) ++ meta) [] = nth (4 - i) meta []).
  { intros i Hi. replace (length (rm :: args) + 4 - i)%nat with (length (rm :: args) + (4 - i))%nat by lia.
    apply nth_app_tail. }
  rewrite !Hnth by lia. cbn [meta nth Nat.sub].
  rewrite decide_False by (by intros Hm; apply Hm).
  rewrite parse_i64_to_string, !parse_u64_to_string by (done || ulia). cbn [mbind option_bind].
  destruct (Z.ltb_spec UINT32_MAX nd); [ulia|].
  do 2 f_equal. cbn [app drop skipn]. replace (length (rm :: args) + 4 - 5)%nat with (length args)
    by (cbn; lia).
  apply take_app_length.
Qed.

(** ** Lemmas: the scan of the whole file *)

(** Recovery without the buffer: the same loop on the file itself. *)
Fixpoint scan (fuel : nat) (fmt : Fmt) (file : bytes) (pos : nat) : recovery :=
  match fuel with
  | O => Recovery [] CleanEnd false
  | S fuel =>
      match parse file pos with
      | NeedMore => Recovery [] (if (pos <? length file)%nat then TornTail pos else CleanEnd) false
      | Malformed => Recovery [] Corrupt true
      | Complete (tokens, e) =>
          match detect fmt tokens with
          | BadHeader => Recovery [] Corrupt true
          | Header => scan fuel V3 file e
          | Body fmt legacy =>
              match build_record fmt tokens with
              | None => Recovery [] Corrupt true
              | Some rec => rec_cons rec legacy (scan fuel fmt file e)
              end
          end
      end
  end.

Record reader_ok (file : bytes) (r : reader) : Prop := {
  ro_split : ∃ pre, file = pre ++ rd_buf r ++ rd_rest r ∧ length pre = rd_compacted r;
  ro_pos : (rd_pos r ≤ length (rd_buf r))%nat
}.

Lemma reader_parse file r :
  reader_ok file r →
  parse (rd_buf r) (rd_pos r) ≠ NeedMore ∨ rd_rest r = [] →
  parse file (rd_compacted r + rd_pos r) = shift (rd_compacted r) (parse (rd_buf r) (rd_pos r)).
Proof.
  intros [(pre & -> & <-) Hp] Hne. rewrite parse_shift. f_equal.
  destruct Hne as [Hne|Hr]; [by apply parse_ext|]. by rewrite Hr, app_nil_r.
Qed.

Lemma fill_ok file r :
  reader_ok file r →
  reader_ok file (fill r).2
  ∧ (rd_compacted (fill r).2 + rd_pos (fill r).2 = rd_compacted r + rd_pos r)%nat
  ∧ ((fill r).1 = false → rd_rest r = [] ∧ rd_rest (fill r).2 = [])
  ∧ ((fill r).1 = true → (length (rd_rest (fill r).2) < length (rd_rest r))%nat).
Proof.
  intros [(pre & Hf & Hl) Hp]. unfold fill. cbn.
  split; [split; cbn; [|lia]|split; [lia|split]].
  - exists (pre ++ take (rd_pos r) (rd_buf r)). split.
    + rewrite Hf. rewrite <- (take_drop (rd_pos r) (rd_buf r)) at 1.
      rewrite <- (take_drop CHUNK (rd_rest r)) at 1. by rewrite <- !app_assoc.
    + rewrite length_app, length_take. lia.
  - intros Hb. apply negb_false_iff, bool_decide_eq_true in Hb.
    assert (Hr : rd_rest r = []).
    { destruct (rd_rest r); [done|]. apply (f_equal length) in Hb. rewrite length_take in Hb.
      unfold CHUNK in Hb. cbn [length] in Hb. lia. }
    by rewrite Hr, drop_nil.
  - intros Hb. apply negb_true_iff, bool_decide_eq_false in Hb.
    destruct (rd_rest r) as [|c s]; [by rewrite take_nil in Hb|].
    rewrite length_drop. unfold CHUNK. cbn [length]. lia.
Qed.

Lemma parse_fill_spec file fuel r :
  reader_ok file r → (length (rd_rest r) ≤ fuel)%nat →
  let '(st, r') := parse_fill fuel r in
  reader_ok file r' ∧ (rd_compacted r' + rd_pos r' = rd_compacted r + rd_pos r)%nat
  ∧ parse file (rd_compacted r + rd_pos r) = shift (rd_compacted r') st
  ∧ (st = NeedMore → rd_rest r' = [])
  ∧ (∀ a e, st = Complete (a, e) → (e ≤ length (rd_buf r'))%nat).
Proof.
  revert r. induction fuel as [|fuel IH]; intros r Hok Hf; cbn [parse_fill];
    pose proof (fill_ok file r Hok) as (Hok' & Hsum & Hstop & Hmore);
    pose proof (reader_parse file r Hok) as Hparse;
    destruct (parse (rd_buf r) (rd_pos r)) as [[a e]| |] eqn:Hst.
  all: try (split; [done|]; split; [done|]; split; [by apply Hparse; left|]; split; [done|];
    intros ?? [= <- <-]; apply parse_bounds in Hst; lia).
  - destruct (rd_rest r) eqn:Hr; [|cbn in Hf; lia].
    destruct (fill r) as [more r']. cbn in *. split; [done|]. split; [done|].
    split; [by apply Hparse; right|]. split; [|done]. intros _.
    destruct more; [specialize (Hmore eq_refl); lia|by apply Hstop].
  - destruct (fill r) as [more r']. cbn in *. destruct more.
    + specialize (IH r' Hok' ltac:(specialize (Hmore eq_refl); lia)).
      destruct (parse_fill fuel r') as [st r'']. rewrite Hsum in IH. exact IH.
    + destruct (Hstop eq_refl) as [Hr Hr']. split; [done|]. split; [done|].
      split; [by apply Hparse; right|]. by split.
Qed.

Lemma recover_loop_scan file fuel fmt r :
  reader_ok file r →
  recover_loop fuel fmt r = scan fuel fmt file (rd_compacted r + rd_pos r).
Proof.
  revert fmt r. induction fuel as [|fuel IH]; intros fmt r Hok; [done|].
  cbn [recover_loop scan].
  pose proof (parse_fill_spec file (length (rd_rest r)) r Hok ltac:(done)) as Hpf.
  destruct (parse_fill _ r) as [st r']. destruct Hpf as (Hok' & Hsum & -> & Hrest & He).
  destruct st as [[tokens e]| |]; cbn [shift].
  - specialize (He _ _ eq_refl).
    assert (Hok'' : reader_ok file (Reader (rd_rest r') (rd_buf r') e (rd_compacted r')))
      by (destruct Hok'; by split).
    destruct (detect fmt tokens) as [| |fmt' legacy]; [done|by rewrite IH|].
    destruct (build_record fmt' tokens); [|done]. by rewrite IH.
  - specialize (Hrest eq_refl). destruct Hok' as [(pre & -> & Hl) Hp].
    rewrite Hrest, app_nil_r, length_app, <- Hsum, <- Hl.
    destruct (Nat.ltb_spec (rd_pos r') (length (rd_buf r')));
      destruct (Nat.ltb_spec (length pre + rd_pos r') (length pre + length (rd_buf r'))); done || lia.
  - done.
Qed.

Lemma recover_file_scan file : recover_file file = scan (S (length file)) Undetected file 0.
Proof.
  unfold recover_file. apply recover_loop_scan. split; [by exists []|done].
Qed.

(** ** Lemmas: recovery of what was written *)

Definition log_bytes (recs : list AofRecord) : bytes := kAofHeader ++ mjoin (encode_record <$> recs).

Arguments log_bytes : simpl never.

(** An incomplete record at the end of the file. *)
Definition cut_of (tail_ : bytes) : Prop :=
  ∃ rec n, valid_record rec ∧ (n < length (encode_record rec))%nat
           ∧ tail_ = take n (encode_record rec).

Lemma cut_of_nil : cut_of [].
Proof.
  exists (AofRecord_ [] [] 0 0 0), 0%nat. split; [|split; [vm_compute; lia|done]].
  split; [by vm_compute|by repeat constructor; vm_compute|vm_compute; split; discriminate..].
Qed.

Lemma parse_record rec pre rest :
  valid_record rec →
  parse (pre ++ encode_record rec ++ rest) (length pre)
  = Complete (record_tokens rec, (length pre + length (encode_record rec))%nat).
Proof.
  intros Hv. rewrite encode_record_encode. apply parse_encoded; [|by apply record_tokens_bounded].
  rewrite record_tokens_len. apply Hv.
Qed.

Lemma encode_record_nonempty rec : (1 ≤ length (encode_record rec))%nat.
Proof. unfold encode_record. rewrite length_app. change (length (str "*")) with 1%nat. lia. Qed.

Lemma scan_records recs pre tail_ fuel :
  Forall valid_record recs → cut_of tail_ → (length recs < fuel)%nat →
  scan fuel V3 (pre ++ mjoin (encode_record <$> recs) ++ tail_) (length pre)
  = Recovery recs
      (if decide (tail_ = []) then CleanEnd
       else TornTail (length (pre ++ mjoin (encode_record <$> recs)))) false.
Proof.
  revert pre fuel. induction recs as [|rec recs IH]; intros pre fuel Hv Hcut Hf;
    (destruct fuel as [|fuel]; [cbn in Hf; lia|]); cbn [scan].
  - cbn [fmap list_fmap mjoin list_join app]. rewrite app_nil_r.
    destruct Hcut as (rec & n & Hvr & Hn & ->). rewrite encode_record_encode in *.
    rewrite parse_cut; [|rewrite record_tokens_len; apply Hvr|by apply record_tokens_bounded|done].
    rewrite length_app. destruct (decide _) as [->|Hne].
    + cbn [length]. rewrite Nat.add_0_r, Nat.ltb_irrefl. done.
    + destruct (take n _) as [|x l]; [done|].
      rewrite (proj2 (Nat.ltb_lt _ _)) by (cbn; lia). done.
  - apply Forall_cons in Hv as [Hr Hv]. rewrite fmap_cons, join_cons.
    rewrite <- (app_assoc (encode_record rec)), parse_record by done.
    cbn [detect]. rewrite build_record_tokens by done.
    rewrite app_assoc, <- length_app, IH by (done || cbn in Hf; lia).
    unfold rec_cons. cbn. f_equal. by rewrite <- app_assoc.
Qed.

Lemma recover_log recs tail_ :
  Forall valid_record recs → cut_of tail_ →
  recover_file (log_bytes recs ++ tail_)
  = Recovery recs (if decide (tail_ = []) then CleanEnd else TornTail (length (log_bytes recs))) false.
Proof.
  intros Hv Hcut. rewrite recover_file_scan. unfold log_bytes. rewrite <- app_assoc.
  set (body := mjoin (encode_record <$> recs) ++ tail_).
  assert (Hlen : (length recs ≤ length body)%nat).
  { unfold body. rewrite length_app. clear -recs.
    induction recs as [|r recs IH]; [cbn; lia|]. rewrite fmap_cons, join_cons, length_app. cbn [length].
    pose proof (encode_record_nonempty r). lia. }
  cbn [scan]. rewrite kAofHeader_encode at 1.
  pose proof (parse_encoded [kMagicToken; str "3"] [] body) as Hp. cbn [app length] in Hp.
  rewrite Hp; [|by vm_compute|by repeat constructor; vm_compute]. cbn [detect Nat.add].
  rewrite decide_True by done. change (parse_u64 (str "3")) with (Some 3). cbn match.
  rewrite Z.eqb_refl. rewrite <- kAofHeader_encode. unfold body.
  apply scan_records; [done|done|]. rewrite length_app. fold body.
  assert (1 ≤ length kAofHeader)%nat by (vm_compute; lia). lia.
Qed.

(** A file cut anywhere behind its header still holds a prefix of the records
    and an incomplete one. *)
Lemma take_log recs k :
  Forall valid_record recs → (length kAofHeader ≤ k ≤ length (log_bytes recs))%nat →
  ∃ j tail_, take k (log_bytes recs) = log_bytes (take j recs) ++ tail_ ∧ cut_of tail_.
Proof.
  intros Hv [Hk1 Hk2]. unfold log_bytes in *. rewrite length_app in Hk2.
  rewrite take_app_ge by done. set (n := (k - length kAofHeader)%nat).
  assert (Hn : (n ≤ length (mjoin (encode_record <$> recs)))%nat) by lia. clearbody n.
  clear Hk1 Hk2. revert n Hn. induction Hv as [|rec recs Hr Hv IH]; intros n Hn.
  - exists 0%nat, []. split; [|apply cut_of_nil]. cbn in *. rewrite !app_nil_r.
    by rewrite take_nil, app_nil_r.
  - rewrite fmap_cons, join_cons in *. rewrite length_app in Hn.
    destruct (decide (n < length (encode_record rec))%nat) as [Hlt|Hge].
    + exists 0%nat, (take n (encode_record rec)). split; [|by exists rec, n].
      cbn [take fmap list_fmap mjoin list_join]. rewrite app_nil_r. f_equal.
      apply take_app_le. lia.
    + destruct (IH (n - length (encode_record rec))%nat ltac:(lia)) as (j & t & Ht & Hc).
      exists (S j), t. split; [|done]. cbn [firstn]. rewrite fmap_cons, join_cons.
      rewrite take_app_ge by lia. apply app_inv_head in Ht || idtac.
      rewrite <- !app_assoc in *. apply app_inv_head in Ht. by rewrite Ht.
Qed.

Lemma log_bytes_app recs recs' :
  log_bytes (recs ++ recs') = log_bytes recs ++ mjoin (encode_record <$> recs').
Proof. unfold log_bytes. by rewrite fmap_app, join_app, app_assoc. Qed.

Lemma log_bytes_snoc recs rec : log_bytes (recs ++ [rec]) = log_bytes recs ++ encode_record rec.
Proof.
  rewrite log_bytes_app. cbn [fmap list_fmap]. rewrite join_cons. cbn. by rewrite app_nil_r.
Qed.

(** ** The state of an open AOF *)

Record aof_ok (a : aof_state) (recs : list AofRecord) : Prop := {
  ao_valid : Forall valid_record recs;
  ao_file : ∃ tail_, aof_file a = Some (log_bytes recs ++ tail_) ∧ cut_of tail_
                     ∧ (torn a = false → tail_ = []);
  ao_size : size_ a = length (log_bytes recs)
}.

(** What the AOF operations leave alone. *)
Record aof_only (s s' : shared) : Prop := {
  ao_cold : cold s' = cold s;
  ao_crdt : crdt s' = crdt s;
  ao_met : met s' = met s;
  ao_snaps : snaps s' = snaps s;
  ao_aside : aside s' = aside s
}.

Global Instance aof_only_preorder : PreOrder aof_only.
Proof. split; [done|]. intros s1 s2 s3 [] []. split; congruence. Qed.

Section append.
  Context `{World}.

(** [sync_dir] can only settle what the name stands for. *)
Lemma sync_dir_spec s :
  wp sync_dir (λ _ s', ∃ n l, s' = upd_sys_tick (λ _, n) (upd_aof (upd_former (λ _, l)) s)
    ∧ l = (if succeeds (sys_tick s) && succeeds (S (sys_tick s)) then [] else former (aof s))) s.
Proof.
  unfold sync_dir. wp_run. apply wp_when; intros Ho; wp_run; [apply wp_when; intros Hok; wp_run|];
    do 2 eexists; (split; [|reflexivity]); cbn [sys_tick upd_sys_tick] in *; rewrite Ho, ?Hok; cbn [andb];
    by destruct s as [? ? ? [] ? ? ?].
Qed.

Lemma open_creat_file a : aof_file (open_creat a) = Some (default [] (aof_file a)).
Proof. unfold open_creat. by destruct (aof_file a) eqn:E. Qed.

Lemma open_creat_has a : is_Some (aof_file a) → open_creat a = a.
Proof. unfold open_creat. by intros [f ->]. Qed.

(** [open] leaves the members alone. *)
Lemma open_creat_members a :
  size_ (open_creat a) = size_ a ∧ torn (open_creat a) = torn a ∧ replaying (open_creat a) = replaying a
  ∧ generation (open_creat a) = generation a ∧ synced (open_creat a) = synced a ∧ fd_open (open_creat a) = fd_open a
  ∧ rewrite_file (open_creat a) = rewrite_file a ∧ healthy (open_creat a) = healthy a.
Proof. unfold open_creat. by destruct (aof_file a). Qed.

Lemma sync_locked_spec s :
  wp sync_locked (λ b s', ∃ n h e,
    s' = upd_sys_tick (λ _, n) (upd_aof (λ a, Aof_ (aof_file a) (fd_open a) (rewrite_file a) h
      (torn a) (needs_rewrite a) (replaying a) (size_ a) (base_size a) (last_tail a) (generation a)
      (if b : bool then size_ a else synced a) e (if b then default [] (aof_file a) else durable a) (former a)) s)) s.
Proof.
  unfold sync_locked. wp_run. destruct (succeeds (sys_tick s)); cbn [negb]; wp_run.
  - do 3 eexists. by destruct s as [? ? ? [] ? ? ?].
  - do 3 eexists. by destruct s as [? ? ? [] ? ? ?].
Qed.

Lemma reopen_spec s :
  wp reopen (λ ready s', aof_only s s'
    ∧ (ready = false → aof s' = upd_healthy (λ _, false) (aof s))
    ∧ (ready = true → aof s' = if fd_open (aof s) then aof s else
         upd_healthy (λ _, true) (upd_synced (λ _, 0%nat) (upd_generation S (upd_fd_open (λ _, true)
           (open_creat (aof s))))))) s.
Proof.
  unfold reopen. wp_run. destruct (fd_open (aof s)) eqn:Hf; wp_run; [done|].
  destruct (succeeds _); cbn [negb]; wp_run; [|done]. unfold bump_generation. by wp_run.
Qed.

Lemma append_failed_spec old data w s :
  (w ≤ length data)%nat → aof_file (aof s) = Some (old ++ take w data) → torn (aof s) = false →
  wp (append_failed w (old ++ take w data)) (λ _ s', aof_only s s' ∧ fd_open (aof s') = false
    ∧ size_ (aof s') = size_ (aof s) ∧ generation (aof s') = S (generation (aof s)) ∧ former (aof s') = former (aof s)
    ∧ ∃ tl, aof_file (aof s') = Some (old ++ tl)
        ∧ (tl = [] ∧ torn (aof s') = false ∨ tl = take w data ∧ torn (aof s') = true)) s.
Proof.
  intros Hw Hf Ht. unfold append_failed, bump_generation. wp_run. apply wp_when; intros Hpos; wp_run.
  - destruct (succeeds _); wp_run; [destruct (succeeds _); wp_run|].
    + split_and!; try done. exists []. split; [|by left]. cbn. rewrite Hf. cbn. do 2 f_equal. rewrite app_nil_r.
      apply take_app_exact. rewrite length_app, length_take. lia.
    + split_and!; try done. exists (take w data). split; [done|by right].
    + split_and!; try done. exists (take w data). split; [done|by right].
  - split_and!; try done. exists []. split; [|by left]. apply Nat.ltb_ge in Hpos.
    replace w with 0%nat in Hf by lia. done.
Qed.

Lemma append_spec room_name args expire_at ts node recs s :
  let rec := AofRecord_ room_name args expire_at ts node in
  aof_ok (aof s) recs → valid_record rec →
  wp (append room_name args expire_at ts node) (λ b s',
    aof_only s s'
    ∧ (aof_ok (aof s') (recs ++ [rec]) ∨ (b = false ∧ aof_ok (aof s') recs))
    ∧ (b = true → aof_ok (aof s') (recs ++ [rec])
       ∧ (aof_sync cfg = Always → Some (synced (aof s')) = length <$> aof_file (aof s')
          ∧ aof_file (aof s') = Some (durable (aof s'))))) s.
Proof.
  intros rec [Hall (tl & Hfile & Hcut & Htorn) Hsize] Hv. unfold append. wp_run.
  destruct (replaying (aof s) || torn (aof s)) eqn:Hrt; wp_run.
  { split; [done|]. split; [|done]. right. split; [done|]. split; [done| |done]. by exists tl. }
  apply orb_false_iff in Hrt as [_ Ht]. rewrite (Htorn Ht), app_nil_r in Hfile. clear tl Hcut Htorn.
  assert (Hok : ∀ a, aof_file a = Some (log_bytes recs) → size_ a = size_ (aof s) → aof_ok a recs).
  { intros a Hf Hs. split; [done| |by rewrite Hs]. exists []. rewrite app_nil_r.
    split; [done|]. split; [apply cut_of_nil|done]. }
  eapply wp_mono; [apply reopen_spec|]. intros ready s1 (Hsame1 & Hno & Hyes).
  destruct ready; cbn [negb]; wp_run.
  2:{ rewrite (Hno eq_refl). split; [done|]. split; [|done]. right. split; [done|]. by apply Hok. }
  assert (aof_file (aof s1) = Some (log_bytes recs) ∧ size_ (aof s1) = size_ (aof s) ∧ torn (aof s1) = false)
    as (Hf1 & Hs1 & Ht1) by (rewrite (Hyes eq_refl); unfold open_creat; rewrite Hfile; by destruct (fd_open (aof s))).
  clear Hno Hyes.
  rewrite Hf1. cbn [default from_option id].
  destruct (write_at_spec (sys_tick s1) (log_bytes recs) (encode_record rec))
    as (ok & w & Hw & Hle & Hiff).
  fold rec. rewrite Hw. cbn [fst snd].
  destruct ok; cbn [negb].
  - assert (w = length (encode_record rec)) as -> by (by apply Hiff).
    rewrite take_ge by lia. wp_run.
    set (s2 := upd_aof (upd_size_ _) _).
    assert (Hok2 : aof_ok (aof s2) (recs ++ [rec])).
    { split; [by apply Forall_app; split; [|constructor]| |].
      - exists []. rewrite app_nil_r, log_bytes_snoc. split; [done|]. split; [apply cut_of_nil|done].
      - cbn. rewrite Hs1, Hsize, log_bytes_snoc, length_app. done. }
    assert (Hsame2 : aof_only s s2) by (destruct Hsame1; by split).
    destruct (aof_sync cfg) eqn:Hpol; wp_run; [|by split; [|split; [left|]]..].
    eapply wp_mono; [apply sync_locked_spec|]. intros b s3 (n & h & e & ->).
    assert (Hok3 : aof_ok (aof (upd_aof (λ a, Aof_ (aof_file a) (fd_open a) (rewrite_file a) h
      (torn a) (needs_rewrite a) (replaying a) (size_ a) (base_size a) (last_tail a) (generation a)
      (if b : bool then size_ a else synced a) e (if b then default [] (aof_file a) else durable a) (former a)) s2)) (recs ++ [rec])) by (destruct Hok2; by split).
    split; [destruct Hsame2; by split|]. split; [by left|].
    intros ->. split; [exact Hok3|]. intros _. cbn. by rewrite length_app, Hs1, Hsize.
  - assert (Hwlt : (w < length (encode_record rec))%nat).
    { destruct (decide (w = length (encode_record rec))) as [E|]; [|lia]. by apply Hiff in E. }
    wp_run. eapply wp_mono; [by apply (append_failed_spec (log_bytes recs) (encode_record rec))|].
    intros _ s2 (Hsame2 & _ & Hs2 & _ & _ & tl & Hf2 & Htl). wp_run.
    split; [by trans (upd_aof (upd_aof_file (λ _, Some (log_bytes recs ++ take w (encode_record rec)))) (upd_sys_tick S s1));
      [destruct Hsame1; by split|]|]. split; [right; split; [done|]|done].
    split; [done| |rewrite Hs2; cbn; by rewrite Hs1]. exists tl. split; [done|].
    destruct Htl as [[-> _]|[-> Htorn]]; [split; [apply cut_of_nil|done]|].
    split; [by exists rec, w|congruence].
Qed.

(** The log is exactly these records, and accepts more. *)
Record log_holds (a : aof_state) (recs : list AofRecord) : Prop := {
  lh_valid : Forall valid_record recs;
  lh_file : aof_file a = Some (log_bytes recs);
  lh_torn : torn a = false;
  lh_replaying : replaying a = false
}.

(** A server that reports a healthy log after an append has the record in it. *)
Lemma append_healthy room_name args expire_at ts node recs s :
  let rec := AofRecord_ room_name args expire_at ts node in
  log_holds (aof s) recs → valid_record rec →
  wp (append room_name args expire_at ts node) (λ _ s',
    healthy (aof s') = true → log_holds (aof s') (recs ++ [rec])) s.
Proof.
  intros rec [Hall Hfile Htorn Hrep] Hv. unfold append. wp_run. rewrite Hrep, Htorn. cbn [orb].
  wp_run. eapply wp_mono; [apply reopen_spec|]. intros ready s1 (_ & Hno & Hyes).
  destruct ready; cbn [negb]; wp_run.
  2:{ by rewrite (Hno eq_refl). }
  assert (aof_file (aof s1) = Some (log_bytes recs) ∧ torn (aof s1) = false ∧ replaying (aof s1) = false)
    as (Hf1 & Ht1 & Hr1) by (rewrite (Hyes eq_refl); unfold open_creat; rewrite Hfile; by destruct (fd_open (aof s))).
  clear Hno Hyes. rewrite Hf1. cbn [default from_option id].
  destruct (write_at_spec (sys_tick s1) (log_bytes recs) (encode_record rec)) as (ok & w & Hw & Hle & Hiff).
  fold rec. rewrite Hw. cbn [fst snd]. destruct ok; cbn [negb].
  - assert (w = length (encode_record rec)) as -> by (by apply Hiff). rewrite take_ge by lia. wp_run.
    set (s2 := upd_aof (upd_size_ _) _).
    assert (H2 : log_holds (aof s2) (recs ++ [rec])).
    { split; [by apply Forall_app; split; [|constructor]|by rewrite log_bytes_snoc|done|done]. }
    destruct (aof_sync cfg); wp_run; [|done..].
    eapply wp_mono; [apply sync_locked_spec|]. intros b s3 (n & h & e & ->) _. destruct H2. by split.
  - wp_run. unfold append_failed. wp_run. apply wp_when; intros _; [|by wp_run].
    wp_run. destruct (succeeds _); wp_run; [destruct (succeeds _); wp_run|]; done.
Qed.

End append.

(** ** Lemmas: the rewrite *)

Section rewrite.
  Context `{World}.

(** Only the temporary file (and the tail counter) moved. *)
Record tmp_only (s s' : shared) : Prop := {
  tm_rest : aof_only s s';
  tm_file : aof_file (aof s') = aof_file (aof s);
  tm_size : size_ (aof s') = size_ (aof s);
  tm_torn : torn (aof s') = torn (aof s);
  tm_durable : durable (aof s') = durable (aof s);
  tm_former : former (aof s') = former (aof s)
}.

Global Instance tmp_only_preorder : PreOrder tmp_only.
Proof. split; [done|]. intros s1 s2 s3 [] []. split; [by trans s2|congruence..]. Qed.

Lemma write_rewrite_spec data file s :
  rewrite_file (aof s) = Some file →
  wp (write_rewrite data) (λ b s', tmp_only s s' ∧ is_Some (rewrite_file (aof s'))
    ∧ (b = true → rewrite_file (aof s') = Some (file ++ data))) s.
Proof.
  intros Hf. unfold write_rewrite. wp_run. rewrite Hf. wp_run.
  destruct (write_at_spec (sys_tick s) file data) as (ok & w & -> & Hle & Hiff).
  wp_run. split; [done|]. split; [by eexists|]. intros ->. cbn.
  by rewrite take_ge by (by rewrite (proj1 Hiff)).
Qed.

Lemma copy_tail_spec fuel off end_ f file s :
  aof_file (aof s) = Some f → rewrite_file (aof s) = Some file →
  (end_ ≤ length f)%nat → (end_ - off ≤ fuel)%nat →
  wp (copy_tail fuel off end_) (λ b s', tmp_only s s'
    ∧ (b = true → rewrite_file (aof s') = Some (file ++ take (end_ - off) (drop off f)))) s.
Proof.
  revert off file s. induction fuel as [|fuel IH]; intros off file s Hf Hr He Hfuel; cbn [copy_tail];
    destruct (Nat.leb_spec end_ off) as [Hle|Hlt]; try lia; wp_run.
  1,2: (split; [done|]; intros _; replace (end_ - off)%nat with 0%nat by lia;
    by rewrite take_0, app_nil_r).
  set (n := Nat.min CHUNK (end_ - off)). rewrite Hf. cbn [default from_option id].
  pose proof (pread_at_spec (sys_tick s) f n off) as Hread.
  destruct (pread_at (sys_tick s) f n off) as [ok buf]. cbn [fst snd] in *. wp_run.
  destruct ok; wp_run; [|done].
  destruct (Hread eq_refl) as [-> Hlen]. set (s1 := upd_sys_tick S s).
  eapply wp_mono; [by apply (write_rewrite_spec _ file s1)|].
  intros b s2 (Ht & _ & Hb). destruct b; cbn [negb]; wp_run.
  2:{ split; [|done]. trans s1; [by split|done]. }
  assert (Hn : (1 ≤ n ≤ end_ - off)%nat) by (unfold n, CHUNK; lia).
  eapply wp_mono; [apply (IH _ (file ++ take n (drop off f)) s2)|].
  - by rewrite (tm_file _ _ Ht).
  - by apply Hb.
  - done.
  - lia.
  - intros b s3 [Ht3 Hb3]. split; [trans s2; [trans s1; [by split|done]|done]|].
    intros ->. rewrite Hb3 by done. f_equal. rewrite <- app_assoc. f_equal.
    replace (end_ - off)%nat with (n + (end_ - (off + n)))%nat by lia.
    by rewrite <- take_take_drop, drop_drop.
Qed.

(** [append_tail] then [commit_rewrite], as [finish_background_rewrite] runs
    them: the file is the old one or exactly the snapshot's records followed
    by the records appended since [from]. *)
Definition finish_rewrite (from : nat) : M shared bool :=
  let* ok := append_tail from in
  if ok then commit_rewrite else ret false.

Lemma append_tail_spec from recs snap j s :
  aof_ok (aof s) recs → rewrite_file (aof s) = Some (log_bytes snap) →
  from = length (log_bytes (take j recs)) →
  wp (append_tail from) (λ b s', tmp_only s s'
    ∧ (b = true → rewrite_file (aof s') = Some (log_bytes (snap ++ drop j recs)))) s.
Proof.
  intros [Hv (tl & Hf & Hcut & Ht) Hs] Hr ->. unfold append_tail. wp_run. rewrite Hr, Hf.
  wp_run. destruct (succeeds (sys_tick s)); cbn [negb]; wp_run; [|done].
  set (s1 := upd_aof _ _).
  assert (Hsplit : log_bytes recs = log_bytes (take j recs) ++ mjoin (encode_record <$> drop j recs)).
  { by rewrite <- log_bytes_app, take_drop. }
  eapply wp_mono; [apply (copy_tail_spec _ _ _ (log_bytes recs ++ tl) (log_bytes snap) s1)|].
  - exact Hf.
  - exact Hr.
  - rewrite Hs, length_app. lia.
  - lia.
  - intros b s2 [Ht2 Hb]. split; [trans s1; [by split|done]|]. intros ->. rewrite Hb by done.
    f_equal. rewrite log_bytes_app. f_equal.
    rewrite Hs, Hsplit, <- app_assoc, drop_app_length, length_app.
    replace (length (log_bytes (take j recs)) + length (mjoin (encode_record <$> drop j recs))
      - length (log_bytes (take j recs)))%nat
      with (length (mjoin (encode_record <$> drop j recs))) by lia.
    apply take_app_length.
Qed.

Lemma commit_rewrite_spec file s :
  rewrite_file (aof s) = Some file →
  wp commit_rewrite (λ b s', aof_only s s'
    ∧ ((aof_file (aof s') = aof_file (aof s) ∧ size_ (aof s') = size_ (aof s)
        ∧ torn (aof s') = torn (aof s) ∧ b = false)
       ∨ (aof_file (aof s') = Some file ∧ torn (aof s') = false
          ∧ (succeeds (sys_tick s) = true → size_ (aof s') = length file
             ∧ (b = true → synced (aof s') = length file))
          ∧ durable (aof s') = file
          ∧ former (aof s') = (let k := sys_tick s in
              if succeeds (4 + k)%nat && succeeds (5 + k)%nat then []
              else ((λ _, durable (aof s)) <$> aof_file (aof s)) :: former (aof s))))) s.
Proof.
  intros Hr. unfold commit_rewrite, abort_rewrite, bump_generation. wp_run. rewrite Hr. wp_run.
  cbn [sys_tick upd_sys_tick].
  destruct (succeeds (S (sys_tick s))); cbn [negb]; wp_run; [|by split; [|left]].
  cbn [sys_tick upd_sys_tick].
  destruct (succeeds (S (S (sys_tick s)))); cbn [negb]; wp_run; [|by split; [|left]].
  cbn [sys_tick upd_sys_tick upd_aof].
  destruct (succeeds (S (S (S (sys_tick s))))); cbn [negb]; wp_run; [|by split; [|left]].
  eapply wp_mono; [apply sync_dir_spec|]. intros _ s1 (n & l & -> & Hl). wp_run.
  split; [done|]. right. split; [done|]. split; [done|]. split; [|split; [done|]].
  - intros ->. split; [done|]. cbn. by intros ->.
  - cbn [aof upd_aof former upd_former]. rewrite Hl. done.
Qed.

Lemma finish_rewrite_spec from recs snap j s :
  aof_ok (aof s) recs → rewrite_file (aof s) = Some (log_bytes snap) →
  from = length (log_bytes (take j recs)) →
  wp (finish_rewrite from) (λ b s', aof_only s s'
    ∧ ((aof_file (aof s') = aof_file (aof s) ∧ size_ (aof s') = size_ (aof s)
        ∧ torn (aof s') = torn (aof s) ∧ b = false)
       ∨ (aof_file (aof s') = Some (log_bytes (snap ++ drop j recs)) ∧ torn (aof s') = false
          ∧ durable (aof s') = log_bytes (snap ++ drop j recs)
          ∧ ∃ k, former (aof s') = (if succeeds k && succeeds (S k) then []
              else ((λ _, durable (aof s)) <$> aof_file (aof s)) :: former (aof s))))) s.
Proof.
  intros Hok Hr Hfrom. unfold finish_rewrite. wp_run.
  eapply wp_mono; [by eapply append_tail_spec|]. intros b s1 [Ht Hb]. destruct b; wp_run.
  - eapply wp_mono; [by apply commit_rewrite_spec, Hb|]. intros b s2 [Ho Hc].
    destruct Ht as [Hrest Hf Hs Htn Hd Hfo]. split; [by trans s1|].
    destruct Hc as [(Hc1 & Hc2 & Hc3 & ->)|(Hc1 & Hc2 & _ & Hc4 & Hc5)]; [left|right].
    + split; [congruence|]. split; [congruence|]. split; [congruence|done].
    + split_and!; try done. exists (4 + sys_tick s1)%nat. rewrite Hd, Hfo, Hf in Hc5. exact Hc5.
  - destruct Ht as [Hrest Hf Hs Htn _ _]. split; [done|]. by left.
Qed.

End rewrite.

(** ** Properties *)

(** C19: The file format round-trips and a crash loses only what it cut: the
    records of an AOF come back exactly, in order, from the header and their
    encodings, through the chunked reader, whatever bytes the arguments hold;
    if the file ends inside a record, recovery returns every record before it
    and says to truncate exactly there; and cutting the file anywhere behind
    its header leaves a prefix of the records. *)
Theorem recover_exact recs tail_ k :
  Forall valid_record recs → cut_of tail_ → (length kAofHeader ≤ k ≤ length (log_bytes recs))%nat →
  recover_file (log_bytes recs ++ tail_)
  = Recovery recs (if decide (tail_ = []) then CleanEnd else TornTail (length (log_bytes recs))) false
  ∧ (∃ j, rc_records (recover_file (take k (log_bytes recs))) = take j recs
          ∧ rc_end (recover_file (take k (log_bytes recs))) ≠ Corrupt
          ∧ ((k = length (log_bytes recs))%nat → take j recs = recs)).
Proof.
  intros Hv Hcut Hk. split; [by apply recover_log|].
  destruct (decide (k = length (log_bytes recs))) as [->|Hne].
  - exists (length recs). rewrite firstn_all, firstn_all.
    pose proof (recover_log recs [] Hv cut_of_nil) as Hr. rewrite app_nil_r in Hr. rewrite Hr.
    by rewrite decide_True.
  - destruct (take_log recs k Hv Hk) as (j & t & -> & Hc). exists j.
    rewrite recover_log; [|by apply Forall_take|done]. cbn. split; [done|].
    split; [by destruct (decide _)|done].
Qed.

Definition sample_record : AofRecord :=
  AofRecord_ (str "SET") [str "SET"; CRLF; kMetaToken] (-5) UINT64_MAX 7.

Lemma recover_exact_witness :
  recover_file (log_bytes [sample_record; sample_record] ++ take 9 (encode_record sample_record))
  = Recovery [sample_record; sample_record] (TornTail 249) false.
Proof.
  assert (Hs : valid_record sample_record).
  { split; [by vm_compute|by repeat constructor; vm_compute|vm_compute; split; discriminate..]. }
  refine (eq_trans (proj1 (recover_exact [sample_record; sample_record]
    (take 9 (encode_record sample_record)) (length kAofHeader) _ _ _)) _).
  - by repeat constructor.
  - exists sample_record, 9%nat. split; [exact Hs|]. split; [apply Nat.ltb_lt; vm_compute; reflexivity|done].
  - vm_compute. lia.
  - vm_compute. reflexivity.
Defined.

(** C20: Appending is crash-safe and never acknowledges falsely: from a file
    that holds the records of the log, [append] leaves either the same log
    (and reports failure) or the log extended by exactly the new record; after
    a partial write the incomplete bytes are cut off or further appends stop,
    so recovery of the file always gives a full log; success means the record
    is in the file, and with the [always] policy that the whole file survives
    a power failure; a record the parser would refuse is the caller's obligation. *)
Theorem append_crash_safe `{World} room_name args expire_at ts node recs s :
  aof_ok (aof s) recs → valid_record (AofRecord_ room_name args expire_at ts node) →
  let rec := AofRecord_ room_name args expire_at ts node in
  let '(b, s') := append room_name args expire_at ts node s in
  aof_only s s'
  ∧ (∃ recs', (recs' = recs ++ [rec] ∨ b = false ∧ recs' = recs) ∧ aof_ok (aof s') recs'
     ∧ rc_records (recover_file (default [] (aof_file (aof s')))) = recs')
  ∧ (b = true → aof_sync cfg = Always →
     Some (synced (aof s')) = length <$> aof_file (aof s') ∧ aof_file (aof s') = Some (durable (aof s')))
  ∧ (torn (aof s) = true → b = false ∧ s' = s).
Proof.
  intros Hok Hv rec. pose proof (append_spec room_name args expire_at ts node recs s Hok Hv) as Hw.
  assert (Htorn : torn (aof s) = true →
    (append room_name args expire_at ts node s) = (false, s)).
  { intros Ht. unfold append, bind, gets. by rewrite Ht, orb_true_r. }
  unfold wp in Hw. destruct (append room_name args expire_at ts node s) as [b s'].
  cbn [fst snd] in Hw. destruct Hw as (Honly & Hor & Htrue). split; [done|]. split; [|split].
  - assert (Hrec : ∀ recs', aof_ok (aof s') recs' →
      rc_records (recover_file (default [] (aof_file (aof s')))) = recs').
    { intros recs' [Hv' (tl & -> & Hcut & _) _]. cbn [default from_option id]. by rewrite recover_log. }
    destruct Hor as [Hok'|[-> Hok']].
    + exists (recs ++ [rec]). split; [by left|]. split; [done|]. by apply Hrec.
    + exists recs. split; [by right|]. split; [done|]. by apply Hrec.
  - intros -> Hal. by apply Htrue.
  - intros Ht. specialize (Htorn Ht). by injection Htorn as -> ->.
Qed.

Lemma append_crash_safe_witness :
  let W := calm default_config 0 in
  let s := upd_aof (λ _, Aof_ (Some (log_bytes [])) true None true false false false
                        (length (log_bytes [])) 0 0 0 0 0 [] []) (init_shared None ∅) in
  let '(b, s') := append (H := W) (str "r") [str "DEL"; str "k"] 0 1 1 s in
  ∃ recs', (recs' = [AofRecord_ (str "r") [str "DEL"; str "k"] 0 1 1] ∨ b = false ∧ recs' = [])
    ∧ rc_records (recover_file (default [] (aof_file (aof s')))) = recs'.
Proof.
  intros W s.
  assert (H1 : aof_ok (aof s) []).
  { split; [constructor| |done]. exists []. rewrite app_nil_r.
    split; [done|]. split; [apply cut_of_nil|done]. }
  assert (H2 : valid_record (AofRecord_ (str "r") [str "DEL"; str "k"] 0 1 1)).
  { split; [by vm_compute|by repeat constructor; vm_compute|vm_compute; split; discriminate..]. }
  pose proof (append_crash_safe (H := W) _ _ _ _ _ _ _ H1 H2) as Ha.
  destruct (append (str "r") [str "DEL"; str "k"] 0 1 1 s) as [b s'].
  destruct Ha as (_ & (recs' & Hor & _ & Hrec) & _). exists recs'. split; [exact Hor|exact Hrec].
Defined.

(** C23: A background rewrite is atomic and complete: when the child has
    written a snapshot and the parent finishes, the AOF is either the old file
    or exactly the snapshot followed by every record appended since the fork,
    so recovery replays the snapshot and then the writes that raced with it;
    a failure at any step leaves the old file in use, and nothing outside the
    AOF changes. The new file is on the disk before it takes the name, and its
    name is too when the directory could be opened and synced; when it could
    not, which nobody is told, a power failure may bring back what was on the
    disk of the old file. *)
Theorem background_rewrite_complete `{World} from recs snap j s :
  aof_ok (aof s) recs → Forall valid_record snap →
  rewrite_file (aof s) = Some (log_bytes snap) → from = length (log_bytes (take j recs)) →
  let '(b, s') := finish_rewrite from s in
  aof_only s s'
  ∧ (aof_file (aof s') = aof_file (aof s) ∧ aof_ok (aof s') recs ∧ b = false
     ∨ aof_file (aof s') = Some (log_bytes (snap ++ drop j recs)) ∧ torn (aof s') = false
       ∧ recover_file (log_bytes (snap ++ drop j recs))
         = Recovery (snap ++ drop j recs) CleanEnd false
       ∧ durable (aof s') = log_bytes (snap ++ drop j recs)
       ∧ ∃ k, former (aof s') = if succeeds k && succeeds (S k) then []
           else ((λ _, durable (aof s)) <$> aof_file (aof s)) :: former (aof s)).
Proof.
  intros Hok Hsnap Hr Hfrom. pose proof (finish_rewrite_spec from recs snap j s Hok Hr Hfrom) as Hw.
  unfold wp in Hw. destruct (finish_rewrite from s) as [b s']. cbn [fst snd] in Hw.
  destruct Hw as [Ho [(Hf & Hs & Ht & ->)|(Hf & Ht & Hd & Hfo)]]; (split; [done|]).
  - left. split; [done|]. split; [|done]. destruct Hok as [Hv (tl & Hfile & Hc & Htn) Hsz].
    split; [done| |congruence]. exists tl. rewrite Hf, Ht. done.
  - right. split; [done|]. split; [done|].
    assert (Hall : Forall valid_record (snap ++ drop j recs)).
    { apply Forall_app. split; [done|]. apply Forall_drop, Hok. }
    pose proof (recover_log _ [] Hall cut_of_nil) as Hrec. rewrite app_nil_r in Hrec. rewrite Hrec.
    rewrite decide_True by done. split; [done|]. by split.
Qed.

Lemma background_rewrite_complete_witness :
  let W := calm default_config 0 in
  let s := upd_aof (λ _, Aof_ (Some (log_bytes [sample_record; sample_record])) true
      (Some (log_bytes [])) true false false false
      (length (log_bytes [sample_record; sample_record])) 0 0 0 0 0 [] []) (init_shared None ∅) in
  aof_only s (finish_rewrite (H := W) (length (log_bytes [sample_record])) s).2.
Proof.
  intros W s.
  assert (Hs : valid_record sample_record).
  { split; [by vm_compute|by repeat constructor; vm_compute|vm_compute; split; discriminate..]. }
  assert (H1 : aof_ok (aof s) [sample_record; sample_record]).
  { split; [by repeat constructor| |done]. exists []. rewrite app_nil_r.
    split; [done|]. split; [apply cut_of_nil|done]. }
  pose proof (background_rewrite_complete (H := W) (length (log_bytes [sample_record]))
    [sample_record; sample_record] [] 1 s H1 (List.Forall_nil _) eq_refl eq_refl) as Hb.
  destruct (finish_rewrite _ s) as [b s']. exact (proj1 Hb).
Defined.
