(* ===== verification/AofSync.v ===== *)
(** * The thread that makes the log durable (src/storage/aof_manager.cpp)

    [sync_worker], with the policy everysec: it captures the generation and the
    size of the log under the mutex, calls [fdatasync] on a duplicate of the
    descriptor without it, and publishes the result under the mutex again. Each
    part between two points where the mutex is free is one step; the operations
    of [Aof] are steps of the command thread in between. What a power failure may
    leave of the log follows from [durable] and [former]: whatever earlier
    processes had left on the disk, [synced] runs ahead of it only by bytes that
    the server found in the file when it started, or where a directory could not
    be synced; and a round makes durable what it found pending. *)

From stdpp Require Import relations.
From S2P Require Import Prelude FsUtil Resp Config World Types State Aof.

(** Where the thread is: about to look for work, in [sync_cv_.wait], in
    [wait_until], before or after the call to [fdatasync], or gone. *)
Inductive sync_phase :=
  | Looking
  | Idle
  | Pausing
  | Syncing (gen offset : nat) (dup : bool) (started : Z)
  | Synced (gen offset : nat) (ok dup : bool) (started : Z)
  | Ended.

(** The thread and the members of [AOFManager] that are its own; [woken]: the
    condition variable was notified since the thread began to wait. *)
Record sync_thread := Sync_ {
  phase : sync_phase;
  woken : bool;
  sync_stop : bool;
  next_attempt : Z
}.

Definition manager : Type := shared * sync_thread.

Definition pending (a : aof_state) : bool := fd_open a && (synced a <? size_ a)%nat.

Definition content (a : aof_state) : bytes := default [] (aof_file a).

Section sync.
  Context `{World} (steady : nat → Z).

Definition in_log {A} (m : M shared A) : M manager A := zoom fst (λ s p, (s, p.2)) m.

Definition goto (ph : sync_phase) : M manager unit :=
  modify (λ p, (p.1, Sync_ ph false (sync_stop p.2) (next_attempt p.2))).

(** [notify_one] and [notify_all]: there is one thread to wake. *)
Definition notify : M manager unit :=
  modify (λ p, (p.1, Sync_ (phase p.2) true (sync_stop p.2) (next_attempt p.2))).

(** From the top of the loop to where the mutex is let go. *)
Definition sync_pass : M manager unit :=
  let* a := gets (λ p, aof p.1) in
  let* t := gets snd in
  if negb (pending a) then goto (if sync_stop t then Ended else Idle) else
  let* now := in_log (interact steady) in
  if negb (sync_stop t) && (now <? next_attempt t) then goto Pausing else
  let* dup := in_log syscall in
  let* started := in_log (interact steady) in
  goto (Syncing (generation a) (size_ a) dup started).

(** [fdatasync] on the duplicate: when it is still the descriptor of the log,
    the captured bytes are durable if the call succeeds. *)
Definition sync_call (gen offset : nat) (dup : bool) (started : Z) : M manager unit :=
  let* ok := (if dup then in_log syscall else ret false) in
  let* a := gets (λ p, aof p.1) in
  when (ok && (gen =? generation a)%nat)
    (in_log (mod_aof (upd_durable (λ d, take offset (content a) ++ drop offset d)))) ;;
  goto (Synced gen offset ok dup started).

(** The mutex is taken again. *)
Definition sync_publish (gen offset : nat) (ok dup : bool) (started : Z) : M manager unit :=
  let* a := gets (λ p, aof p.1) in
  when (dup && (gen =? generation a)%nat) (
    if negb ok then in_log (mod_aof (upd_healthy (λ _, false)))
    else when (synced a <? offset)%nat (
      in_log (mod_aof (upd_synced (λ _, offset))) ;;
      let* now := in_log (interact wall) in
      in_log (mod_aof (upd_last_sync_epoch_ms (λ _, now))))) ;;
  let* finished := in_log (interact steady) in
  modify (λ p, (p.1, Sync_ Looking (woken p.2) (sync_stop p.2)
                       (Z.max (started + aof_sync_interval_ms cfg) finished))).

(** [stop_sync_worker], up to the [join]. *)
Definition stop_worker : M manager unit :=
  modify (λ p, (p.1, Sync_ (phase p.2) true true (next_attempt p.2))).

(** The destructor, after the [join]. *)
Definition destroy : M manager unit :=
  let* a := gets (λ p, aof p.1) in
  when (fd_open a) (
    when (negb (bool_decide (aof_sync cfg = Off)) && (synced a <? size_ a)%nat) (
      let* ok := in_log syscall in
      when ok (in_log (mod_aof flush))) ;;
    in_log (mod_aof (upd_fd_open (λ _, false)))) ;;
  in_log (mod_aof (upd_rewrite_file (λ _, None))).

(** ** The command thread *)

(** [append] wakes the thread when its policy is everysec. *)
Definition do_append (room_name : bytes) (args : list bytes) (expire_at ts node : Z) : M manager bool :=
  let* ok := in_log (append room_name args expire_at ts node) in
  when (ok && bool_decide (aof_sync cfg = Everysec)) notify ;;
  ret ok.

(** [commit_rewrite] wakes it once the new file is in place. *)
Definition do_commit : M manager bool :=
  let* g := gets (λ p, generation (aof p.1)) in
  let* ok := in_log commit_rewrite in
  let* g' := gets (λ p, generation (aof p.1)) in
  when (g <? g')%nat notify ;;
  ret ok.

(** The operations of [Database] on its log. *)
Inductive log_call :=
  | Append (room_name : bytes) (args : list bytes) (expire_at ts node : Z)
  | Recover
  | Open
  | Start_rewrite
  | Append_rewrite (rec : AofRecord)
  | Append_tail (from : nat)
  | Abort_rewrite
  | Commit_rewrite.

Definition call (c : log_call) : M manager unit :=
  match c with
  | Append rm args e ts n => do_append rm args e ts n ;; ret tt
  | Recover => in_log recover ;; ret tt
  | Open => in_log open_file ;; ret tt
  | Start_rewrite => in_log start_rewrite ;; ret tt
  | Append_rewrite rec => in_log (append_rewrite rec) ;; ret tt
  | Append_tail from => in_log (append_tail from) ;; ret tt
  | Abort_rewrite => in_log abort_rewrite
  | Commit_rewrite => do_commit ;; ret tt
  end.

(** The constructor of [Database] reads the log, then opens it, once. *)
Definition allowed_call (c : log_call) (a : aof_state) : Prop :=
  match c with
  | Recover | Open => generation a = 0%nat
  | _ => True
  end.

Inductive command_step (s : manager) : manager → Prop :=
  | Log_call c : allowed_call c (aof s.1) → command_step s (call c s).2
  | Log_other t : aof t = aof s.1 → command_step s (t, s.2)
  | Log_stop : command_step s (stop_worker s).2.

Inductive worker_step (s : manager) : manager → Prop :=
  | Sync_pass : phase s.2 = Looking ∨ phase s.2 = Idle ∨ phase s.2 = Pausing → worker_step s (sync_pass s).2
  | Sync_call g o dup st : phase s.2 = Syncing g o dup st → worker_step s (sync_call g o dup st s).2
  | Sync_publish g o ok dup st : phase s.2 = Synced g o ok dup st →
      worker_step s (sync_publish g o ok dup st s).2.

Definition sync_step (s s' : manager) : Prop := command_step s s' ∨ worker_step s s'.

(** What a power failure may leave under the name of the log. *)
Definition survives (a : aof_state) (f : option bytes) : Prop :=
  f ∈ former a ∨ durable a `prefix_of` default [] f.

(** The constructor starts the thread, with the policy everysec, before the log
    is read. Of the file it will find, [flushed] bytes had reached the disk, and
    [stale] is what its name may still stand for there. *)
Definition boot (flushed : nat) (stale : list (option bytes)) (file : option bytes) (snaps : gmap bytes bytes)
    : manager :=
  let a := init_aof file (take flushed (default [] file)) stale in
  let s := upd_sys_tick S (upd_aof (λ _, a) (init_shared file snaps)) in
  let ph := match aof_sync cfg with Everysec => Looking | _ => Ended end in
  (s, Sync_ ph false false (steady 0%nat + aof_sync_interval_ms cfg)).

(** ** The log under the command thread *)

(** The content of the file the server found. *)
Context (found : bytes).

(** The bytes counted as synced are durable, or the server found them. *)
Definition counted (a : aof_state) : Prop :=
  take (synced a) (content a) `prefix_of` durable a
  ∨ generation a = 1%nat ∧ take (synced a) (content a) `prefix_of` found.

Record log_ok (a : aof_state) : Prop := {
  lo_size : (size_ a ≤ length (content a))%nat;
  lo_boot : generation a = 0%nat → fd_open a = false ∧ size_ a = 0%nat ∧ content a `prefix_of` found;
  lo_synced : fd_open a = true → (synced a ≤ size_ a)%nat ∧ counted a
}.

(** What the name may come to stand for on the disk: what it stood for, no file,
    or what was durable of the log. *)
Definition left_behind (a a' : aof_state) : Prop :=
  ∀ x, x ∈ former a' → x ∈ former a ∨ x = None ∨ x = Some (durable a).

(** What an operation may change: within a generation the log only grows and
    nothing that was durable is lost. [woke]: the thread was notified. *)
Record log_step (woke : bool) (a a' : aof_state) : Prop := {
  ls_gen : (generation a ≤ generation a')%nat;
  ls_same : generation a' = generation a → fd_open a = true →
    fd_open a' = true ∧ (size_ a ≤ size_ a')%nat ∧ (synced a ≤ synced a')%nat
    ∧ content a `prefix_of` content a'
    ∧ (∀ n, (n ≤ length (content a))%nat → take n (content a) `prefix_of` durable a →
         take n (content a') `prefix_of` durable a');
  ls_wake : aof_sync cfg = Everysec → pending a' = true → pending a = true ∨ woke = true;
  ls_former : left_behind a a'
}.

Definition moves (woke : bool) (a a' : aof_state) : Prop := log_ok a → log_ok a' ∧ log_step woke a a'.

(** An operation that leaves the log as it is, as far as the thread can see. *)
Definition same_log (a a' : aof_state) : Prop :=
  aof_file a' = aof_file a ∧ fd_open a' = fd_open a ∧ size_ a' = size_ a
  ∧ generation a' = generation a ∧ synced a' = synced a ∧ durable a' = durable a ∧ former a' = former a.

#[export] Instance same_log_preorder : PreOrder same_log.
Proof.
  split; [intros a; unfold same_log; by split_and!|]. intros a b c (?&?&?&?&?&?&?) (?&?&?&?&?&?&?). unfold same_log. split_and!; congruence.
Qed.

Lemma same_moves a a' : same_log a a' → moves false a a'.
Proof.
  intros (E1&E2&E3&E4&E5&E6&E7) [H1 H2 H3]. unfold counted, content in *. split; split.
  - unfold content. by rewrite E1, E3.
  - unfold content. by rewrite E1, E2, E3, E4.
  - unfold counted, content. by rewrite E1, E2, E3, E4, E5, E6.
  - lia.
  - unfold content. intros _ Hf. rewrite E1, E2, E3, E5, E6. by split_and!.
  - unfold pending. rewrite E2, E3, E5. by left.
  - intros x. rewrite E7. by left.
Qed.

(** In a new generation only what holds of the new state matters. *)
Lemma fresh_moves woke a a' :
  (generation a < generation a')%nat →
  (log_ok a → (size_ a' ≤ length (content a'))%nat
    ∧ (fd_open a' = true → (synced a' ≤ size_ a')%nat
         ∧ (take (synced a') (content a') `prefix_of` durable a'
            ∨ generation a' = 1%nat ∧ take (synced a') (content a') `prefix_of` found))
    ∧ left_behind a a'
    ∧ (aof_sync cfg = Everysec → pending a' = true → woke = true)) → moves woke a a'.
Proof.
  intros Hg Hn Hok. destruct (Hn Hok) as (H1 & H2 & H4 & H3). split; split; try done; try lia. intros He Hp. right. auto.
Qed.

(** ** The operations *)

(** Writing at the end of the log, with or without a [sync_locked]. *)
Lemma grow_moves woke a a' data :
  fd_open a' = true → content a' = content a ++ data → size_ a' = (size_ a + length data)%nat →
  generation a' = (if fd_open a then generation a else S (generation a)) →
  (synced a' = (if fd_open a then synced a else 0%nat) ∧ (fd_open a = true → durable a' = durable a)
   ∨ synced a' = size_ a' ∧ durable a' = content a') →
  left_behind a a' → (aof_sync cfg = Everysec → woke = true) → moves woke a a'.
Proof.
  intros Hf Hc Hz Hg Hsd Hl Hw. destruct (fd_open a) eqn:Ho.
  - intros [H1 H2 H3]. destruct (H3 Ho) as [H4 H5]. split; split; try (lia || by auto).
    + rewrite Hc, Hz, length_app. lia.
    + intros E. rewrite Hg in E. destruct (H2 E). congruence.
    + intros _. destruct Hsd as [[Hs Hd]|[Hs Hd]]; unfold counted; rewrite Hs; [|split; [lia|left; rewrite Hd; apply prefix_take]].
      rewrite Hd by done. split; [lia|]. rewrite Hc, take_app_le by lia. by rewrite Hg.
    + intros _ _. split_and!; try (done || lia).
      * rewrite Hc. by apply prefix_app_r.
      * intros n Hn Hp. destruct Hsd as [[_ Hd]|[_ ->]]; [rewrite Hd by done|apply prefix_take].
        by rewrite Hc, take_app_le.
  - apply fresh_moves; [lia|]. intros [H1 _ _]. split_and!; [|  |done|auto].
    + rewrite Hc, Hz, length_app. lia.
    + intros _. destruct Hsd as [[-> _]|[-> ->]]; (split; [lia|left]); [|apply prefix_take].
      rewrite take_0. apply prefix_nil.
Qed.

Lemma open_creat_behind a : left_behind a (open_creat a).
Proof.
  unfold open_creat, left_behind. destruct (aof_file a) eqn:Hf; [by left|]. cbn. rewrite Hf. cbn.
  intros x [->|Hx]%elem_of_cons; auto.
Qed.

(** The log behind [append]'s opening. *)
Record reopened (a a' : aof_state) : Prop := {
  ro_open : fd_open a' = true;
  ro_content : content a' = content a;
  ro_size : size_ a' = size_ a;
  ro_gen : generation a' = (if fd_open a then generation a else S (generation a));
  ro_counts : synced a' = (if fd_open a then synced a else 0%nat);
  ro_durable : fd_open a = true → durable a' = durable a;
  ro_torn : torn a' = torn a;
  ro_behind : left_behind a a'
}.

Lemma reopen_reopened s :
  wp reopen (λ ready s', if ready then reopened (aof s) (aof s') else same_log (aof s) (aof s')) s.
Proof.
  eapply wp_mono; [apply reopen_spec|]. intros ready s1 (_ & Hno & Hyes).
  destruct ready; [rewrite (Hyes eq_refl)|by rewrite (Hno eq_refl)].
  destruct (open_creat_members (aof s)) as (E1 & E2 & E3 & E4 & E5 & E6 & E7 & E8).
  destruct (fd_open (aof s)) eqn:Hf; split; cbn; rewrite ?Hf; try done; try congruence.
  - intros x. by left.
  - unfold content. cbn. by rewrite open_creat_file.
  - exact (open_creat_behind (aof s)).
Qed.

Lemma append_moves room_name args expire_at ts node s :
  wp (append room_name args expire_at ts node) (λ ok s',
    moves (ok && bool_decide (aof_sync cfg = Everysec)) (aof s) (aof s')) s.
Proof.
  unfold append. wp_run. destruct (replaying (aof s) || torn (aof s)) eqn:Hrt; wp_run.
  { by apply same_moves. }
  apply orb_false_iff in Hrt as [_ Ht]. set (data := encode_record _).
  eapply wp_mono; [apply reopen_reopened|]. intros ready s1 Hready.
  destruct ready; cbn [negb]; wp_run; [|by apply same_moves].
  destruct Hready as [F C Z G Y D T B]. fold (content (aof s1)).
  destruct (write_at_spec (sys_tick s1) (content (aof s1)) data) as (ok & w & -> & Hw & Hiff). cbn [fst snd].
  destruct ok; cbn [negb]; wp_run.
  - assert (w = length data) as -> by (by apply Hiff). rewrite take_ge by lia.
    assert (Hgrow : ∀ woke a', fd_open a' = true → content a' = content (aof s1) ++ data →
      size_ a' = (size_ (aof s1) + length data)%nat → generation a' = generation (aof s1) →
      (synced a' = synced (aof s1) ∧ durable a' = durable (aof s1) ∨ synced a' = size_ a' ∧ durable a' = content a') →
      former a' = former (aof s1) → (aof_sync cfg = Everysec → woke = true) → moves woke (aof s) a').
    { intros woke a' A1 A2 A3 A4 A5 A7 A6.
      apply (grow_moves woke _ _ data); try done; [by rewrite A2, C|by rewrite A3, Z|by rewrite A4, G| |].
      - rewrite <- Y. destruct A5 as [[-> ->]|]; [left|by right]. by split.
      - intros x. rewrite A7. apply B. }
    destruct (aof_sync cfg) eqn:Hpol; wp_run.
    + unfold sync_locked. wp_run. destruct (succeeds _); cbn [negb]; wp_run; apply Hgrow; try done; by (left + right).
    + apply Hgrow; try done. by left.
    + apply Hgrow; try done. by left.
  - rewrite <- T in Ht. eapply wp_mono; [by apply (append_failed_spec (content (aof s1)) data w)|].
    intros _ s2 (_ & F2 & Z2 & G2 & Hf2 & tl & Hc2 & _). cbn [aof upd_aof upd_aof_file former size_ generation upd_sys_tick] in *.
    wp_run. apply fresh_moves.
    + rewrite G2, G. destruct (fd_open (aof s)); lia.
    + intros [B1 _ _]. unfold content at 1. rewrite F2, Z2, Hc2. cbn [default from_option id].
      split_and!; [rewrite length_app, C, Z; lia|done| |].
      * intros x. rewrite Hf2. apply B.
      * intros _ Hp. unfold pending in Hp. by rewrite F2 in Hp.
Qed.

(** The operations on the temporary file. *)
Lemma write_rewrite_same a0 data : preserves (λ s, same_log a0 (aof s)) (write_rewrite data).
Proof.
  intros s Hs. unfold write_rewrite. wp_run. destruct (rewrite_file (aof s)); wp_run; [|done].
  destruct (write_at _ _ _) as [[ok w] f]. wp_run. done.
Qed.

Lemma append_tail_same a0 from : preserves (λ s, same_log a0 (aof s)) (append_tail from).
Proof.
  assert (Hcopy : ∀ fuel off end_, preserves (λ s, same_log a0 (aof s)) (copy_tail fuel off end_)).
  { induction fuel as [|fuel IH]; intros off end_ s Hs; cbn [copy_tail]; destruct (_ <=? _)%nat; wp_run; try done.
    destruct (pread_at _ _ _ _) as [ok buf]. wp_run. destruct ok; cbn [negb]; wp_run; [|done].
    eapply wp_mono; [by apply write_rewrite_same|]. cbn beta. intros [] s1 Hs1; cbn [negb]; [by apply IH|by wp_run]. }
  intros s Hs. unfold append_tail. wp_run. destruct (rewrite_file (aof s)), (aof_file (aof s)); wp_run; try done.
  destruct (succeeds _); cbn [negb]; wp_run; [|done]. by apply Hcopy.
Qed.

Lemma start_rewrite_same a0 : preserves (λ s, same_log a0 (aof s)) start_rewrite.
Proof.
  intros s Hs. unfold start_rewrite. wp_run. destruct (rewrite_file (aof s)); wp_run; [done|].
  destruct (succeeds _); cbn [negb]; wp_run; [|done]. destruct (write_at _ _ _) as [[[] w] f]; wp_run; done.
Qed.

Lemma commit_moves s :
  wp commit_rewrite (λ _ s', moves (generation (aof s) <? generation (aof s'))%nat (aof s) (aof s')) s.
Proof.
  assert (Hsame : ∀ a', same_log (aof s) a' → moves (generation (aof s) <? generation a')%nat (aof s) a').
  { intros a' Hs Hok. destruct (same_moves _ _ Hs Hok) as [H1 [H2 H3 H4]]. split; [done|]. split; try done.
    intros He Hp. left. by destruct (H4 He Hp). }
  unfold commit_rewrite, abort_rewrite. wp_run. destruct (rewrite_file (aof s)) as [file|]; wp_run; [|by apply Hsame].
  do 3 (match goal with |- context [negb (succeeds ?k)] => destruct (succeeds k) end;
    cbn [negb]; wp_run; [|by apply Hsame]).
  eapply wp_mono; [apply sync_dir_spec|]. intros _ s1 (n & l & -> & Hl). unfold bump_generation. wp_run.
  apply fresh_moves; [cbn; lia|]. intros [H1 _ _]. unfold pending, content. cbn. split_and!.
  - destruct (succeeds (sys_tick s)); lia.
  - intros ->. split; [lia|]. left. apply prefix_take.
  - intros x. cbn. rewrite Hl. destruct (_ && _); [intros []%elem_of_nil|]. cbn.
    destruct (aof_file (aof s)); cbn; intros [->|Hx]%elem_of_cons; auto.
  - intros _ _. apply Nat.leb_le. lia.
Qed.

(** Opening the log: a new generation, in which [synced] counts the file. *)
Record opened (a a' : aof_state) : Prop := {
  od_gen : generation a' = S (generation a);
  od_size : (size_ a' ≤ length (content a'))%nat;
  od_counts : fd_open a' = true → synced a' = size_ a';
  od_durable : fd_open a' = true →
    take (synced a') (content a') `prefix_of` durable a' ∨ take (synced a') (content a') `prefix_of` content a;
  od_behind : left_behind a a'
}.

Lemma opened_moves a a' : generation a = 0%nat → opened a a' → moves false a a'.
Proof.
  intros Hg [G Z O D B]. apply fresh_moves; [lia|]. intros [_ Hb _]. destruct (Hb Hg) as (_ & _ & Hfound).
  split_and!; [done| |done|].
  - intros Hf. rewrite (O Hf) at 1. split; [done|]. destruct (D Hf) as [|Hp]; [by left|right].
    split; [lia|]. by etrans.
  - intros _ [Hf Hp]%andb_prop. pose proof (O Hf). apply Nat.ltb_lt in Hp. lia.
Qed.

Lemma open_moves s :
  generation (aof s) = 0%nat → wp open_file (λ _ s', moves false (aof s) (aof s')) s.
Proof.
  intros Hg. unfold open_file. wp_run. destruct (fd_open (aof s)) eqn:Ho; wp_run; [by apply same_moves|].
  destruct (succeeds _); cbn [negb]; wp_run; [|by apply same_moves]. unfold bump_generation. wp_run.
  fold (content (aof s)). pose proof (open_creat_behind (aof s)) as B.
  destruct (open_creat_members (aof s)) as (_ & _ & _ & G & _ & _ & _ & _).
  pose proof (open_creat_file (aof s)) as C. fold (content (aof s)) in C.
  eapply (wp_mono _ (λ _ s', opened (aof s) (aof s'))).
  2:{ intros ok s' Ho'. destruct ok; unfold when; wp_run; apply opened_moves; try done; by destruct Ho'. }
  destruct (_ && _) eqn:Hnew; wp_run.
  - apply andb_prop in Hnew as [_ Hnil%bool_decide_eq_true].
    match goal with |- context [write_at ?k _ _] => destruct (write_at_spec k (content (aof s)) kAofHeader)
      as (ok & w & -> & Hle & Hiff) end.
    rewrite Hnil, app_nil_l in *. destruct ok; cbn [negb]; wp_run.
    + assert (w = length kAofHeader) as -> by (by apply Hiff). rewrite take_ge by lia.
      unfold sync_locked. wp_run. destruct (succeeds _); cbn [negb]; wp_run.
      * eapply wp_mono; [apply sync_dir_spec|]. intros _ s1 (n & l & -> & Hl). wp_run.
        split; cbn; try done; [by rewrite G|intros _; left; apply prefix_take|].
        intros x. cbn. rewrite Hl. destruct (_ && _); [intros []%elem_of_nil|]. apply B.
      * split; cbn; try done. by rewrite G.
    + apply wp_when; intros _; wp_run; (split; [cbn; by rewrite G|cbn; lia|done|done|exact B]).
  - split; cbn; try done; [by rewrite G| |].
    + unfold content at 1. cbn. rewrite C. cbn. destruct (succeeds _); [done|cbn; lia].
    + intros _. right. unfold content at 1. cbn. rewrite C. apply prefix_take.
Qed.

Lemma recover_moves s :
  generation (aof s) = 0%nat → wp recover (λ _ s', moves false (aof s) (aof s')) s.
Proof.
  intros Hg.
  assert (Hcut : ∀ a', generation a' = 0%nat → fd_open a' = fd_open (aof s) → size_ a' = size_ (aof s) →
    left_behind (aof s) a' → content a' `prefix_of` content (aof s) → moves false (aof s) a').
  { intros a' G F Z B C [H1 H2 H3]. destruct (H2 Hg) as (B1 & B2 & B3). rewrite B1 in F. rewrite B2 in Z.
    split; split.
    - rewrite Z. lia.
    - intros _. split_and!; try done. by etrans.
    - by rewrite F.
    - lia.
    - congruence.
    - intros _. unfold pending. by rewrite F.
    - done. }
  unfold recover. wp_run. destruct (aof_file (aof s)) as [[|b file]|] eqn:Hf; wp_run; try (by apply same_moves).
  destruct (succeeds _); cbn [negb]; wp_run; [|by apply same_moves].
  assert (Hc : content (aof s) = b :: file) by (unfold content; by rewrite Hf).
  assert (Hsame : ∀ a', former a' = former (aof s) → left_behind (aof s) a') by (intros a' E x; rewrite E; by left).
  assert (Htake : ∀ n, default [] (take n <$> aof_file (aof s)) `prefix_of` content (aof s)).
  { intros n. rewrite Hf, Hc. apply prefix_take. }
  destruct (rc_end _) as [|n|]; [wp_run; apply Hcut; try done; by apply Hsame| |].
  - wp_run. apply wp_when; intros _; [wp_run; apply wp_when; intros _; [wp_run; apply wp_when; intros _|]|]; wp_run;
      apply Hcut; try done; first [by apply Hsame|apply Htake].
  - wp_run. apply wp_when; intros _; wp_run; apply Hcut; try done; [|apply prefix_nil|by apply Hsame].
    intros x. cbn. rewrite Hf. cbn. intros [->|Hx]%elem_of_cons; auto.
Qed.

(** ** The invariant *)

(** What a round captured is about the log as it is, or about an older one. *)
Definition captured (g o : nat) (a : aof_state) : Prop :=
  (g ≤ generation a)%nat ∧ (g = generation a → fd_open a = true ∧ (o ≤ size_ a)%nat).

Definition in_flight (ph : sync_phase) (a : aof_state) : Prop :=
  match ph with
  | Syncing g o _ _ => captured g o a
  | Synced g o ok dup _ => captured g o a ∧ (ok = true → dup = true)
      ∧ (ok = true → g = generation a → take o (content a) `prefix_of` durable a)
  | _ => True
  end.

Record manager_ok (s : manager) : Prop := {
  mo_log : log_ok (aof s.1);
  mo_flight : in_flight (phase s.2) (aof s.1);
  mo_idle : aof_sync cfg = Everysec → phase s.2 = Idle → pending (aof s.1) = true → woken s.2 = true
}.

Lemma log_step_flight woke a a' ph : log_ok a → log_step woke a a' → in_flight ph a → in_flight ph a'.
Proof.
  intros [H1 _ _] [G S _].
  assert (Hcap : ∀ g o, captured g o a → captured g o a').
  { intros g o [C1 C2]. split; [lia|]. intros E. assert (Hg : g = generation a) by lia.
    destruct (C2 Hg) as [F Hn]. destruct (S ltac:(lia) F) as (F' & Hz & _). split; [done|lia]. }
  destruct ph as [| | |g o dup st|g o ok dup st|]; cbn; try done; [apply Hcap|].
  intros (C & Hdup & Hd). split; [by apply Hcap|]. split; [done|]. intros Hok E. destruct C as [C1 C2].
  assert (Hg : g = generation a) by lia. destruct (C2 Hg) as [F Hn].
  destruct (S ltac:(lia) F) as (_ & _ & _ & _ & Hp). apply Hp; [lia|]. by apply Hd.
Qed.

(** The part of the command thread in a step. *)
Definition commanded (s s' : manager) : Prop :=
  ∃ woke, moves woke (aof s.1) (aof s'.1) ∧ phase s'.2 = phase s.2 ∧ next_attempt s'.2 = next_attempt s.2
    ∧ (woken s.2 = true ∨ woke = true → woken s'.2 = true).

Lemma commanded_ok s s' : commanded s s' → manager_ok s → manager_ok s'.
Proof.
  intros (woke & Hm & Ep & _ & Ew) [L F I]. destruct (Hm L) as [L' St]. split; [done| |].
  - rewrite Ep. exact (log_step_flight _ _ _ _ L St F).
  - rewrite Ep. intros He Hi Hp. apply Ew. destruct (ls_wake _ _ _ St He Hp) as [Hp'|]; [left; auto|by right].
Qed.

Lemma wp_in_log {A} (m : M shared A) (Q : A → manager → Prop) s :
  wp m (λ a t, Q a (t, s.2)) s.1 → wp (in_log m) Q s.
Proof. intros Hm. by apply wp_zoom. Qed.

Local Ltac wp_sync :=
  repeat first [progress wp_run | match goal with |- wp (in_log _) _ _ => apply wp_in_log end].

Lemma in_log_commanded {A} (m : M shared A) s :
  wp m (λ _ t, moves false (aof s.1) (aof t)) s.1 → wp (in_log m) (λ _ s', commanded s s') s.
Proof.
  intros Hm. apply wp_in_log. eapply wp_mono; [exact Hm|]. intros a t Ht. exists false. split_and!; try done. by intros [].
Qed.

Lemma same_commanded {A} (m : M shared A) s :
  preserves (λ t, same_log (aof s.1) (aof t)) m → wp (in_log m) (λ _ s', commanded s s') s.
Proof.
  intros Hm. apply in_log_commanded. eapply wp_mono; [by apply Hm|]. intros a t. apply same_moves.
Qed.

Lemma call_spec c s : allowed_call c (aof s.1) → wp (call c) (λ _ s', commanded s s') s.
Proof.
  intros Hc. destruct c as [rm args e ts n| | | |rec|from| |]; cbn [call allowed_call] in *;
    try (apply wp_bind; eapply wp_mono; [|intros x s' Hs'; apply wp_ret; exact Hs']).
  - unfold do_append. apply wp_bind, wp_in_log. eapply wp_mono; [apply append_moves|]. intros ok t Ht. cbn beta in Ht.
    apply wp_bind, wp_when; intros Hw; rewrite Hw in Ht; unfold notify; wp_run; [exists true|exists false]; split_and!; try done.
    by intros [].
  - by apply in_log_commanded, recover_moves.
  - by apply in_log_commanded, open_moves.
  - apply same_commanded, start_rewrite_same.
  - apply same_commanded, write_rewrite_same.
  - apply same_commanded, append_tail_same.
  - apply same_commanded. intros t Ht. unfold abort_rewrite. by wp_run.
  - unfold do_commit. wp_run. apply wp_in_log. eapply wp_mono; [apply commit_moves|]. intros ok t Ht. cbn beta in Ht.
    wp_run. apply wp_when; intros Hw; cbn [fst] in Hw; rewrite Hw in Ht; unfold notify; wp_run; [exists true|exists false];
      split_and!; try done. by intros [].
Qed.

Lemma command_commanded s s' : command_step s s' → commanded s s'.
Proof.
  intros [c Hc|t Ht|].
  - by apply (call_spec c s).
  - exists false. split_and!; try done; [|by intros []]. apply same_moves. cbn. rewrite Ht. done.
  - exists false. split_and!; try done. by apply same_moves.
Qed.

(** *** The steps of the thread *)

Lemma pending_spec a : pending a = true ↔ fd_open a = true ∧ (synced a < size_ a)%nat.
Proof. unfold pending. rewrite andb_true_iff, Nat.ltb_lt. done. Qed.

Lemma pass_spec s :
  wp sync_pass (λ _ s', aof s'.1 = aof s.1 ∧ sync_stop s'.2 = sync_stop s.2 ∧ next_attempt s'.2 = next_attempt s.2
    ∧ match phase s'.2 with
      | Looking | Synced _ _ _ _ _ => False
      | Idle => pending (aof s.1) = false ∧ sync_stop s.2 = false
      | Ended => pending (aof s.1) = false ∧ sync_stop s.2 = true
      | Pausing => sync_stop s.2 = false ∧ ∃ k, steady k < next_attempt s.2
      | Syncing g o dup st => pending (aof s.1) = true ∧ g = generation (aof s.1) ∧ o = size_ (aof s.1)
      end) s.
Proof.
  unfold sync_pass, goto. wp_run. destruct (pending (aof s.1)) eqn:Hp; cbn [negb]; wp_sync.
  - destruct (negb (sync_stop s.2) && _) eqn:Hw; wp_sync; cbn; split_and!; try done;
      apply andb_prop in Hw as [Hs%negb_true_iff Ht]; try done. exists (sys_tick s.1). lia.
  - cbn. by destruct (sync_stop s.2).
Qed.

(** [fdatasync] on the log's own descriptor. *)
Lemma sync_data_ok o a :
  log_ok a → fd_open a = true → (o ≤ size_ a)%nat →
  let a' := upd_durable (λ d, take o (content a) ++ drop o d) a in
  log_ok a' ∧ take o (content a') `prefix_of` durable a'.
Proof.
  intros [H1 H2 H3] Hf Hn a'. assert (E : content a' = content a) by done.
  assert (D : durable a' = take o (content a) ++ drop o (durable a)) by done.
  split; [|rewrite E, D; by apply prefix_app_r]. split; [done| |].
  - intros Hg. destruct (H2 Hg). congruence.
  - intros _. destruct (H3 Hf) as [H4 [[t Ht]|Hbase]]; (split; [done|]); [left|by right]. rewrite E, D.
    change (synced a') with (synced a). destruct (le_lt_dec (synced a) o) as [Hle|Hlt].
    + apply prefix_app_r. replace (synced a) with (Nat.min (synced a) o) by lia. rewrite <- take_take.
      apply prefix_take.
    + rewrite Ht, drop_app_le by (rewrite length_take; lia). rewrite app_assoc. apply prefix_app_r.
      rewrite <- (take_drop o (take (synced a) (content a))) at 1. rewrite take_take, Nat.min_l by lia. done.
Qed.

(** A round's call makes the captured bytes durable; nothing the thread or the
    commands see changes. *)
Lemma sync_call_spec g o dup st s :
  manager_ok s → phase s.2 = Syncing g o dup st →
  wp (sync_call g o dup st) (λ _ s', manager_ok s' ∧ sync_stop s'.2 = sync_stop s.2
    ∧ next_attempt s'.2 = next_attempt s.2
    ∧ aof s'.1 = upd_durable (λ _, durable (aof s'.1)) (aof s.1)
    ∧ ∃ ok, phase s'.2 = Synced g o ok dup st ∧ (ok = true → dup = true)) s.
Proof.
  intros [L F I] Hph. rewrite Hph in F. unfold sync_call, goto. wp_run.
  eapply (wp_mono _ (λ ok s1, aof s1.1 = aof s.1 ∧ s1.2 = s.2 ∧ (ok = true → dup = true))).
  { destruct dup; wp_sync; done. }
  intros ok [s1 t] (E & E2 & Hok). cbn [fst snd] in E, E2. subst t. destruct F as [F1 F2].
  wp_run. apply wp_when; intros Hw; cbn [fst] in Hw; rewrite E in Hw; wp_sync;
    cbn [fst snd phase sync_stop next_attempt aof upd_aof]; rewrite ?E.
  - apply andb_prop in Hw as [-> Hg%Nat.eqb_eq]. destruct (F2 Hg) as [Ho Hn].
    destruct (sync_data_ok o _ L Ho Hn) as [L' D].
    split_and!; [|done..|by destruct (aof s.1)|by eexists].
    split; cbn [fst snd phase in_flight aof upd_aof]; rewrite ?E; done.
  - split_and!; [|done..|by destruct (aof s.1)|by eexists].
    split; cbn [fst snd phase in_flight aof upd_aof]; rewrite ?E; try done. split_and!; try done. intros -> Hg. exfalso.
    by rewrite (proj2 (Nat.eqb_eq _ _) Hg) in Hw.
Qed.

(** Publishing: only a round of the present generation counts. *)
Lemma sync_publish_spec g o ok dup st s :
  manager_ok s → phase s.2 = Synced g o ok dup st →
  wp (sync_publish g o ok dup st) (λ _ s', manager_ok s' ∧ sync_stop s'.2 = sync_stop s.2
    ∧ phase s'.2 = Looking ∧ st + aof_sync_interval_ms cfg <= next_attempt s'.2
    ∧ durable (aof s'.1) = durable (aof s.1) ∧ content (aof s'.1) = content (aof s.1)
    ∧ former (aof s'.1) = former (aof s.1)
    ∧ (g ≠ generation (aof s.1) ∨ dup = false → aof s'.1 = aof s.1)
    ∧ (g = generation (aof s.1) → dup = true →
        if ok then (o ≤ synced (aof s'.1))%nat
        else healthy (aof s'.1) = false ∧ synced (aof s'.1) = synced (aof s.1))) s.
Proof.
  intros [L F I] Hph. rewrite Hph in F. destruct F as ([F1 F2] & Hdup & F3). unfold sync_publish. wp_run.
  apply wp_when; intros Hw.
  - apply andb_prop in Hw as [-> Hg%Nat.eqb_eq]. destruct (F2 Hg) as [Ho Hn].
    destruct ok; cbn [negb]; wp_sync.
    + apply wp_when; intros Hlt; wp_sync; cbn; (split; [split; cbn; try done|]).
      * destruct L as [H1 H2 H3]. split; [done|intros H0; destruct (H2 H0); congruence|].
        intros _. split; [done|]. left. by apply F3.
      * split_and!; try (done || lia); try (intros [|]; congruence).
      * apply Nat.ltb_ge in Hlt. split_and!; try done; try lia.
    + cbn. split; [split; cbn; try done|].
      * by apply (same_moves (aof s.1)).
      * split_and!; try (done || lia); try (intros [|]; congruence).
  - wp_sync. cbn. split; [by split|]. split_and!; try done; try lia. intros Hg Hd.
    rewrite Hd, (proj2 (Nat.eqb_eq _ _) Hg) in Hw. done.
Qed.

(** ** Runs *)

Lemma boot_ok flushed stale file snaps :
  found = default [] file → manager_ok (boot flushed stale file snaps).
Proof.
  intros E. split; cbn; [|by destruct (aof_sync cfg)|done].
  split; cbn; [unfold content; cbn; lia|intros _; split_and!; [done..|by rewrite E]|done].
Qed.

Lemma worker_ok s s' : manager_ok s → worker_step s s' → manager_ok s'.
Proof.
  intros Hok [Hph|g o dup st Hph|g o ok dup st Hph].
  - pose proof (pass_spec s) as Hw. unfold wp in Hw. destruct (sync_pass s) as [u [t w]]. cbn [fst snd] in *.
    destruct Hw as (E & _ & _ & Hp), Hok as [L F I]. split; cbn [fst snd]; rewrite ?E; [done| |].
    + destruct (phase w); try done. destruct Hp as (Hp%pending_spec & -> & ->). cbn.
      split; [done|]. intros _. by destruct Hp.
    + intros _ Hi Hpend. rewrite Hi in Hp. destruct Hp. congruence.
  - by destruct (sync_call_spec g o dup st s Hok Hph).
  - by destruct (sync_publish_spec g o ok dup st s Hok Hph).
Qed.

Lemma step_ok s s' : manager_ok s → sync_step s s' → manager_ok s'.
Proof.
  intros Hok [Hc|Hw]; [|by eapply worker_ok]. eapply commanded_ok; [by apply command_commanded|done].
Qed.

Lemma step_behind s s' : manager_ok s → sync_step s s' → left_behind (aof s.1) (aof s'.1).
Proof.
  intros Hok [Hc|[Hph|g o dup st Hph|g o ok dup st Hph]].
  - destruct (command_commanded _ _ Hc) as (woke & Hm & _). apply (Hm (mo_log _ Hok)).
  - destruct (pass_spec s) as [-> _]. intros x. by left.
  - destruct (sync_call_spec g o dup st s Hok Hph) as (_ & _ & _ & -> & _). intros x. by left.
  - destruct (sync_publish_spec g o ok dup st s Hok Hph) as (_ & _ & _ & _ & _ & _ & E & _). intros x. rewrite E. by left.
Qed.

Lemma reached_ok flushed stale file snaps s :
  found = default [] file → rtc sync_step (boot flushed stale file snaps) s → manager_ok s.
Proof.
  intros Hf Hs. pose proof (boot_ok flushed stale file snaps Hf) as Hok.
  induction Hs as [s|s1 s2 s Hstep _ IH]; [done|]. apply IH. by eapply step_ok.
Qed.

(** Where what the name may stand for comes from. *)
Lemma reached_former flushed stale file snaps s :
  found = default [] file → rtc sync_step (boot flushed stale file snaps) s →
  ∀ x, x ∈ former (aof s.1) → x ∈ stale ∨ x = None
    ∨ ∃ s0, rtc sync_step (boot flushed stale file snaps) s0 ∧ rtc sync_step s0 s ∧ x = Some (durable (aof s0.1)).
Proof.
  intros Hf Hs. pattern s. refine (rtc_ind_r _ _ _ _ s Hs); clear s Hs; [by left|].
  intros s1 s2 Hs Hstep IH x Hx. pose proof (reached_ok _ _ _ _ _ Hf Hs) as Hok.
  destruct (step_behind _ _ Hok Hstep x Hx) as [Hx1|[->| ->]].
  - destruct (IH x Hx1) as [|[|(s0 & H0 & H1 & E)]]; [by left|by right; left|right; right].
    exists s0. split_and!; [done|by eapply rtc_r|done].
  - by right; left.
  - right; right. exists s1. split_and!; [done|by apply rtc_once|done].
Qed.

(** While the command thread runs the thread stays where it is, and within a
    generation the log grows. *)
Lemma commands_run s s' :
  log_ok (aof s.1) → rtc command_step s s' →
  log_ok (aof s'.1) ∧ phase s'.2 = phase s.2 ∧ (generation (aof s.1) ≤ generation (aof s'.1))%nat
  ∧ (generation (aof s'.1) = generation (aof s.1) → fd_open (aof s.1) = true →
      fd_open (aof s'.1) = true ∧ content (aof s.1) `prefix_of` content (aof s'.1)).
Proof.
  intros L Hs. induction Hs as [s|s1 s2 s Hstep _ IH]; [done|].
  destruct (command_commanded _ _ Hstep) as (woke & Hm & Ep & _). destruct (Hm L) as [L2 [G S _]].
  destruct (IH L2) as (L3 & Ep3 & G3 & S3). split_and!; [done|congruence|lia|].
  intros E F. destruct (S ltac:(lia) F) as (F2 & _ & _ & C2 & _).
  destruct (S3 ltac:(lia) F2) as [F3 C3]. split; [done|by etrans].
Qed.

Lemma commands_manager s s' : manager_ok s → rtc command_step s s' → manager_ok s'.
Proof.
  intros Hok Hs. induction Hs as [s|s1 s2 s Hstep _ IH]; [done|].
  apply IH. eapply commanded_ok; [by apply command_commanded|done].
Qed.

(** What is due is taken up. *)
Lemma pass_starts s :
  pending (aof s.1) = true → sync_stop s.2 = true ∨ next_attempt s.2 <= steady (sys_tick s.1) →
  ∃ dup st, phase (sync_pass s).2.2 = Syncing (generation (aof s.1)) (size_ (aof s.1)) dup st.
Proof.
  intros Hp Hdue.
  assert (Hw : wp sync_pass (λ _ s', ∃ dup st, phase s'.2 = Syncing (generation (aof s.1)) (size_ (aof s.1)) dup st) s);
    [|exact Hw].
  unfold sync_pass, goto. wp_run. rewrite Hp. cbn [negb]. wp_sync.
  replace (negb (sync_stop s.2) && _) with false; [wp_sync; cbn; eauto|].
  symmetry. cbn [fst]. destruct Hdue as [->|Hd]; [done|]. apply andb_false_iff. right. by apply Z.ltb_ge.
Qed.

(** Shutting down while neither [fcntl] nor [fdatasync] succeeds: the thread
    tries again at once, without waiting for the interval, and never ends. *)
Lemma stop_spins s :
  (∀ k, succeeds k = false) → phase s.2 = Looking → sync_stop s.2 = true → pending (aof s.1) = true →
  ∃ s', tc worker_step s s' ∧ phase s'.2 = Looking ∧ sync_stop s'.2 = true ∧ pending (aof s'.1) = true.
Proof.
  intros Hfail Hph Hstop Hp. destruct s as [s t]. cbn [fst snd] in *.
  set (s1 := (sync_pass (s, t)).2). set (g := generation (aof s)). set (n := size_ (aof s)).
  assert (Hw : wp sync_pass (λ _ s', aof s'.1 = aof s ∧ sync_stop s'.2 = true
    ∧ phase s'.2 = Syncing g n false (steady (S (S (sys_tick s))))) (s, t)).
  { unfold sync_pass, goto. wp_run. cbn [fst snd]. rewrite Hp. cbn [negb]. wp_sync. cbn [fst snd].
    rewrite Hstop. cbn [negb andb]. wp_sync.
    cbn. by rewrite Hfail, Hstop. }
  destruct Hw as (E1 & T1 & P1). set (st := steady _) in P1. fold s1 in E1, T1, P1.
  exists (sync_publish g n false false st (sync_call g n false st s1).2).2. split.
  - eapply tc_l; [apply Sync_pass; by left|]. eapply tc_l; [apply Sync_call; exact P1|].
    apply tc_once. by apply (Sync_publish _ g n false false st).
  - change (aof _) with (aof s1.1). rewrite E1. split_and!; [done| |done].
    change (sync_stop s1.2 = true). done.
Qed.

(** The destructor leaves every byte durable when its call succeeds, those aside
    that it takes for durable. *)
Lemma destructor_spec s :
  manager_ok s →
  wp destroy (λ _ s', fd_open (aof s'.1) = false ∧ rewrite_file (aof s'.1) = None ∧ content (aof s'.1) = content (aof s.1)
    ∧ (succeeds (sys_tick s.1) = true → fd_open (aof s.1) = true → aof_sync cfg ≠ Off →
       take (size_ (aof s.1)) (content (aof s.1)) `prefix_of` durable (aof s'.1)
       ∨ generation (aof s.1) = 1%nat ∧ take (size_ (aof s.1)) (content (aof s.1)) `prefix_of` found)) s.
Proof.
  intros [L _ _]. unfold destroy. wp_run. apply wp_when; intros Ho; wp_sync; [|cbn; by rewrite Ho].
  destruct (lo_synced _ L Ho) as [Hs Hd]. apply wp_when; intros Hw; wp_sync.
  - apply wp_when; intros Hok; wp_sync; cbn; (split_and!; [done..|]); [|congruence].
    intros _ _ _. left. apply prefix_take.
  - cbn. split_and!; [done..|]. intros _ _ Hpol. rewrite (bool_decide_false _ Hpol) in Hw. cbn in Hw.
    apply Nat.ltb_ge in Hw. replace (size_ (aof s.1)) with (synced (aof s.1)) by lia. done.
Qed.

End sync.

(** C21: What the log counts as synced survives a power failure, as far as the
    calls that say so can be believed. Nothing is assumed of the disk at the
    start: of the file the server finds, any number of first bytes had reached
    it ([flushed]), and its name may stand for anything there ([stale]). However
    the steps of the sync thread and of the command thread interleave, through
    appends, failed writes, reopenings and rewrites that replace the file under a
    call to [fdatasync], when the log is open, [synced] is at most its size,
    which is at most the file's, and a power failure leaves a file that starts
    with that many first bytes, with two exceptions. Until the first
    [fdatasync] of the log it opened at the start, the server counts bytes it
    found in the file, and no others, that it never asked the disk for. And
    where the directory could not be synced after the log was created or
    replaced, which nobody is told, the name may stand for what it stood for
    before the start, for no file, or for what was on the disk of the log at an
    earlier moment. No wake-up is lost: with the policy everysec, when the
    thread waits and bytes are pending, it has been notified. *)
Theorem synced_is_durable `{World} steady flushed stale file snaps s :
  rtc (sync_step steady) (boot steady flushed stale file snaps) s →
  let a := aof s.1 in
  (fd_open a = true →
     (synced a ≤ size_ a ≤ length (content a))%nat
     ∧ ((∀ f, survives a f → f ∈ former a ∨ take (synced a) (content a) `prefix_of` default [] f)
        ∨ generation a = 1%nat ∧ take (synced a) (content a) `prefix_of` default [] file))
  ∧ (∀ f, f ∈ former a → f ∈ stale ∨ f = None
       ∨ ∃ s0, rtc (sync_step steady) (boot steady flushed stale file snaps) s0
           ∧ rtc (sync_step steady) s0 s ∧ f = Some (durable (aof s0.1)))
  ∧ (aof_sync cfg = Everysec → phase s.2 = Idle → pending a = true → woken s.2 = true).
Proof.
  intros Hs a. destruct (reached_ok steady (default [] file) flushed stale file snaps s eq_refl Hs) as [[H1 _ H3] _ I].
  split; [|split; [by eapply reached_former|done]].
  intros Hf. destruct (H3 Hf) as [H4 Hc]. split; [done|]. destruct Hc as [Hd|Hb]; [left|by right].
  intros f [Hx|Hx]; [by left|right]. by etrans.
Qed.

(** C22: A round of the sync thread makes what was there durable. When bytes are
    pending and the interval is over (or the server stops), the thread starts a
    call for the whole log. Whatever the command thread does before and after
    the call: when the round ends in the same generation, a successful call has
    made the log up to its size at the start of the round durable and counts it
    as synced, a failed one is reported; a round of an older generation changes
    nothing. The thread then waits for the rest of the interval. *)
Theorem everysec_round `{World} steady flushed stale file snaps s :
  rtc (sync_step steady) (boot steady flushed stale file snaps) s →
  phase s.2 = Looking ∨ phase s.2 = Idle ∨ phase s.2 = Pausing → pending (aof s.1) = true →
  sync_stop s.2 = true ∨ next_attempt s.2 <= steady (sys_tick s.1) →
  let n := size_ (aof s.1) in let gen := generation (aof s.1) in
  let s1 := (sync_pass steady s).2 in
  ∃ dup st, phase s1.2 = Syncing gen n dup st
  ∧ ∀ s2, rtc command_step s1 s2 →
    let s3 := (sync_call gen n dup st s2).2 in
    ∃ ok, phase s3.2 = Synced gen n ok dup st ∧ (ok = true → dup = true)
    ∧ ∀ s4, rtc command_step s3 s4 →
      let s5 := (sync_publish steady gen n ok dup st s4).2 in
      let a := aof s5.1 in
      phase s5.2 = Looking ∧ st + aof_sync_interval_ms cfg <= next_attempt s5.2
      ∧ (generation (aof s4.1) = gen → dup = true →
          if ok then (n ≤ synced a)%nat ∧ take n (content (aof s.1)) `prefix_of` durable a
          else healthy a = false ∧ synced a = synced (aof s4.1))
      ∧ (generation (aof s4.1) ≠ gen → a = aof s4.1).
Proof.
  intros Hs Hph Hp Hdue n gen s1. set (found := default [] file).
  assert (M : manager_ok found s) by (by eapply reached_ok).
  destruct (pass_starts steady s Hp Hdue) as (dup & st & Hph1). exists dup, st. split; [done|].
  intros s2 Hs2 s3.
  assert (M1 : manager_ok found s1) by (eapply worker_ok; [exact M|by constructor]).
  assert (E1 : aof s1.1 = aof s.1) by apply (pass_spec steady s).
  destruct (commands_run found s1 s2 (mo_log _ _ M1) Hs2) as (L2 & Ep2 & G2 & S2).
  pose proof (commands_manager found _ _ M1 Hs2) as M2.
  assert (Hph2 : phase s2.2 = Syncing gen n dup st) by (rewrite Ep2; exact Hph1).
  destruct (sync_call_spec found gen n dup st s2 M2 Hph2) as (M3 & _ & _ & E3 & ok & Hph3 & Hok).
  fold s3 in M3, E3, Hph3. exists ok. split_and!; [exact Hph3|exact Hok|]. intros s4 Hs4 s5 a.
  destruct (commands_run found s3 s4 (mo_log _ _ M3) Hs4) as (L4 & Ep4 & G4 & S4).
  pose proof (commands_manager found _ _ M3 Hs4) as M4.
  assert (Hph4 : phase s4.2 = Synced gen n ok dup st) by (rewrite Ep4; exact Hph3).
  destruct (sync_publish_spec steady found gen n ok dup st s4 M4 Hph4) as (M5 & _ & Hph5 & Hn5 & D5 & C5 & _ & Hold & Hnew).
  split_and!; [done|done| |intros Hg; apply Hold; left; congruence].
  intros Hg Hdup. specialize (Hnew (eq_sym Hg) Hdup). destruct ok; [|done]. split; [done|].
  assert (Hopen : fd_open (aof s.1) = true) by (by apply pending_spec).
  assert (Ec : content (aof s3.1) = content (aof s2.1)) by (by rewrite E3).
  assert (Eg : generation (aof s3.1) = generation (aof s2.1)) by (by rewrite E3).
  assert (Ef : fd_open (aof s3.1) = fd_open (aof s2.1)) by (by rewrite E3).
  rewrite E1 in *. rewrite Eg in *. destruct (S2 ltac:(lia) Hopen) as [F2 C2].
  rewrite Ef, Ec in S4. destruct (S4 ltac:(lia) F2) as [F4 C4].
  assert (Hn : (n ≤ length (content (aof s.1)))%nat) by apply (mo_log _ _ M).
  destruct (transitivity C2 C4) as [t Ht]. pose proof (mo_flight _ _ M4) as Hf. rewrite Hph4 in Hf.
  destruct Hf as (_ & _ & Hf). unfold a, s5. rewrite D5. specialize (Hf eq_refl (eq_sym Hg)).
  by rewrite Ht, take_app_le in Hf.
Qed.

(** A clock; a server that finds a log, of which some bytes had reached the disk,
    and appends a record to it. *)
Definition ticking (k : nat) : Z := 10000 * Z.of_nat k.

Definition found_at_start `{World} (flushed : nat) (file : option bytes) : manager :=
  (call Open (call Recover (boot ticking flushed [] file ∅)).2).2.

Definition appended `{World} (flushed : nat) (file : option bytes) : manager :=
  (call (Append (str "r") [str "DEL"; str "k"] 0 1 1) (found_at_start flushed file)).2.

Lemma found_reached `{World} flushed file :
  generation (aof (call Recover (boot ticking flushed [] file ∅)).2.1) = 0%nat →
  rtc (sync_step ticking) (boot ticking flushed [] file ∅) (found_at_start flushed file).
Proof.
  intros Hg. eapply rtc_l; [left; by apply (Log_call _ Recover)|].
  apply rtc_once. left. by apply (Log_call _ Open).
Qed.

Lemma appended_reached `{World} flushed file :
  generation (aof (call Recover (boot ticking flushed [] file ∅)).2.1) = 0%nat →
  rtc (sync_step ticking) (boot ticking flushed [] file ∅) (appended flushed file).
Proof.
  intros Hg. eapply rtc_r; [by apply found_reached|]. left. by apply (Log_call _ (Append _ _ _ _ _)).
Qed.

Lemma everysec_round_witness :
  let W := calm default_config 0 in
  let s := appended 0 None in
  (synced (aof s.1) < size_ (aof s.1))%nat ∧ next_attempt s.2 <= ticking (sys_tick s.1)
  ∧ ∃ dup st, phase (sync_pass ticking s).2.2 = Syncing 1 (size_ (aof s.1)) dup st.
Proof.
  intros W s.
  assert (Hdue : next_attempt s.2 <= ticking (sys_tick s.1)) by (apply Z.leb_le; by vm_compute).
  destruct (everysec_round (H := W) ticking 0 [] None ∅ s (appended_reached (H := W) 0 None ltac:(by vm_compute))
    ltac:(left; by vm_compute) ltac:(by vm_compute) ltac:(by right)) as (dup & st & Hx & _).
  split_and!; [apply Nat.ltb_lt; by vm_compute|exact Hdue|]. exists dup, st. exact Hx.
Defined.

(** Then a round of the thread. *)
Definition a_round `{World} (s : manager) : manager :=
  let n := size_ (aof s.1) in
  let s1 := (sync_pass ticking s).2 in
  let s2 := (sync_call 1 n true (ticking (S (S (sys_tick s.1)))) s1).2 in
  (sync_publish ticking 1 n true true (ticking (S (S (sys_tick s.1)))) s2).2.

Lemma synced_sample_reached :
  let W := calm default_config 0 in
  rtc (sync_step ticking) (boot ticking 0 [] None ∅) (a_round (appended 0 None)).
Proof.
  intros W. etrans; [apply (appended_reached (H := W)); by vm_compute|].
  eapply rtc_l; [right; apply Sync_pass; left; by vm_compute|].
  eapply rtc_l; [right; apply (Sync_call _ _ 1 (size_ (aof (appended 0 None).1)) true
    (ticking (S (S (sys_tick (appended 0 None).1))))); by vm_compute|].
  apply rtc_once. right. apply (Sync_publish _ _ 1 (size_ (aof (appended 0 None).1)) true true
    (ticking (S (S (sys_tick (appended 0 None).1))))). by vm_compute.
Qed.

(** The record survives, whatever a power failure leaves. *)
Lemma synced_is_durable_witness :
  let W := calm default_config 0 in
  let a := aof (a_round (appended 0 None)).1 in
  synced a = 96%nat ∧ take 96 (content a) = content a ∧ former a = []
  ∧ (∀ f, survives a f → content a `prefix_of` default [] f).
Proof.
  intros W a.
  destruct (synced_is_durable (H := W) ticking 0 [] None ∅ (a_round (appended 0 None)) synced_sample_reached) as [Hx _].
  assert (Hs : synced a = 96%nat) by (by vm_compute).
  assert (Ht : take 96 (content a) = content a) by (by vm_compute).
  assert (Hn : former a = []) by (by vm_compute).
  split_and!; [exact Hs|exact Ht|exact Hn|]. intros f Hf.
  destruct (Hx ltac:(by vm_compute)) as [_ [Hd|[_ Hd]]].
  - change (∀ f, survives a f → f ∈ former a ∨ take (synced a) (content a) `prefix_of` default [] f) in Hd.
    rewrite Hs, Ht, Hn in Hd. destruct (Hd f Hf) as [Hnil|Hp]; [|exact Hp].
    by apply elem_of_nil in Hnil.
  - exfalso. apply (prefix_length) in Hd. revert Hd. vm_compute. lia.
Defined.

(** What is counted and was never flushed: a record that the server finds in the
    file and that the process before it left to the page cache is counted as
    synced, so that no round is pending, and a power failure may leave nothing
    of it. *)
Example found_is_counted :
  let W := calm default_config 0 in
  let s := found_at_start 0 (Some (log_bytes [sample_record])) in
  let a := aof s.1 in
  rtc (sync_step ticking) (boot ticking 0 [] (Some (log_bytes [sample_record])) ∅) s
  ∧ synced a = length (log_bytes [sample_record]) ∧ pending a = false ∧ survives a (Some []).
Proof.
  intros W s a. split; [apply (found_reached (H := W)); by vm_compute|].
  split_and!; [by vm_compute..|]. right. by exists [].
Qed.

(** The same world, in which interaction [n] fails. *)
Definition failing (n : nat) (W : World) : World :=
  {| cfg := @cfg W; wall := @wall W; script := @script W; script_long := @script_long W;
     succeeds := λ k, @succeeds W k && negb (k =? n)%nat;
     traverse := @traverse W; traverse_perm := @traverse_perm W; draw := @draw W; draw_in := @draw_in W;
     sizeof_record := @sizeof_record W; sizeof_string := @sizeof_string W; sizeof_pointer := @sizeof_pointer W;
     sizeof_pos := @sizeof_pos W |}.

(** What is flushed and may be nowhere: when the sync of the directory fails as
    the log is created (the seventh interaction), nothing reports it; after an
    append and a round of the thread all of the log counts as synced, and a power
    failure may leave no log at all. *)
Example unnamed_is_counted :
  let W := failing 7 (calm default_config 0) in
  let a := aof (a_round (appended 0 None)).1 in
  healthy a = true ∧ synced a = length (content a) ∧ durable a = content a ∧ pending a = false ∧ survives a None.
Proof. intros W a. split_and!; [by vm_compute..|]. left. change (former a) with [@None bytes]. by apply list_elem_of_singleton. Qed.
