(* ===== verification/Keyspace.v ===== *)
(** * The keys of a room (src/core/database.cpp: lookup, insert, set_value, erase)

    The only operations that change the resident records of a room, and the
    counters with them. [lookup] sees the logical key: RAM first, then the
    cold storage (from which it moves the record back), with expired records
    as absent. A [Record*] the source holds is here the key it belongs to. *)

From S2P Require Import Prelude FsUtil Hlc Sketch Config World Types State Cold.

Section keyspace.
  Context `{World}.

(** [erase]: the record at [key], which the caller has found. *)
Definition erase (key : bytes) : M ctx unit :=
  let* m := get_room keys in
  match m !! key with
  | None => ret tt
  | Some r =>
      charge (- record_cost key r) ;;
      sh (fetch_add upd_keys_in_ram (-1)) ;;
      mod_room (upd_keys (delete key))
  end.

Definition lookup (room_name key : bytes) : M ctx (option record) :=
  let* now := sh get_current_time_ms in
  let* m := get_room keys in
  match m !! key with
  | Some r =>
      if negb (expired r now) then
        sh (fetch_add upd_cache_hits 1) ;;
        ret (Some r)
      else
        erase key ;;
        ret None
  | None =>
      sh (fetch_add upd_cache_misses 1) ;;
      let* found := sh (take_cold room_name key) in
      match found with
      | None => ret None
      | Some r =>
          if expired r now then ret None else
          mod_room (upd_keys (<[key := r]>)) ;;
          sh (fetch_add upd_keys_in_ram 1) ;;
          charge (record_cost key r) ;;
          ret (Some r)
      end
  end.

Definition insert_key (key : bytes) : M ctx unit :=
  mod_room (upd_keys (<[key := new_record]>)) ;;
  sh (fetch_add upd_keys_in_ram 1) ;;
  charge (record_cost key new_record).

Definition set_value (key value : bytes) : M ctx unit :=
  let* m := get_room keys in
  match m !! key with
  | None => ret tt
  | Some r =>
      charge (len value - len (r_value r)) ;;
      mod_room (upd_keys (<[key := with_value value r]>))
  end.

(** Assignments to the other fields of the record at [key]. *)
Definition set_fields (key : bytes) (f : record → record) : M ctx unit :=
  mod_room (upd_keys (alter f key)).

End keyspace.

(** ** Specifications *)

Section specs.
  Context `{World}.

(** The clock as the next interaction reads it. *)
Definition clock_at (s : shared) : Z := wall (sys_tick s) + cfg_clock_offset_ms cfg.

Definition live (now : Z) (o : option record) : option record :=
  r ← o; if expired r now then None else Some r.

(** Adding a resident record and paying for it. *)
Lemma balanced_add c c' key r :
  keys (c_room c) !! key = None →
  keys (c_room c') = <[key := r]> (keys (c_room c)) →
  rbytes (c_room c') = wrap64 (rbytes (c_room c) + record_cost key r) →
  resident_bytes (met (c_sh c')) = wrap64 (resident_bytes (met (c_sh c)) + record_cost key r) →
  keys_in_ram (met (c_sh c')) = wrap64 (keys_in_ram (met (c_sh c)) + 1) →
  balanced c c'.
Proof.
  intros Hk Hkeys Hb Hr Hn. split; rewrite ?Hkeys, ?Hb, ?Hr, ?Hn.
  - wrap.
  - rewrite keys_cost_insert_new by done. wrap.
  - rewrite map_size_insert_None by done.
    replace (Z.of_nat (S (size (keys (c_room c))))) with (Z.of_nat (size (keys (c_room c))) + 1) by lia.
    wrap.
Qed.

(** Changing a resident record and paying for the difference. *)
Lemma balanced_change c c' key r r' d :
  keys (c_room c) !! key = Some r →
  keys (c_room c') = <[key := r']> (keys (c_room c)) →
  d = record_cost key r' - record_cost key r →
  rbytes (c_room c') = wrap64 (rbytes (c_room c) + d) →
  resident_bytes (met (c_sh c')) = wrap64 (resident_bytes (met (c_sh c)) + d) →
  keys_in_ram (met (c_sh c')) = keys_in_ram (met (c_sh c)) →
  balanced c c'.
Proof.
  intros Hk Hkeys -> Hb Hr Hn. split; rewrite ?Hkeys, ?Hb, ?Hr, ?Hn.
  - wrap.
  - rewrite (keys_cost_insert _ _ _ _ Hk). wrap.
  - by rewrite map_size_insert_Some by (by eexists).
Qed.

(** The room's own steps: everything shared but counters stays. *)
Definition room_step (room_name : bytes) (c c' : ctx) : Prop :=
  frame room_name c c' ∧ cold (c_sh c') = cold (c_sh c).

Lemma erase_spec room_name key c :
  wp (erase key) (λ _ c', room_step room_name c c'
    ∧ keys (c_room c') = delete key (keys (c_room c))
    ∧ sys_tick (c_sh c') = sys_tick (c_sh c)) c.
Proof.
  unfold erase. wp_run. destruct (keys (c_room c) !! key) as [r|] eqn:Hk; wp_run.
  - split; [|done]. split; [|done]. split; [done|done|done| |done].
    eapply (balanced_remove c _ key r); done.
  - split; [done|]. split; [|done]. symmetry. by apply delete_id.
Qed.

Lemma set_value_spec room_name key value r c :
  keys (c_room c) !! key = Some r →
  wp (set_value key value) (λ _ c', room_step room_name c c'
    ∧ keys (c_room c') = <[key := with_value value r]> (keys (c_room c))
    ∧ sys_tick (c_sh c') = sys_tick (c_sh c)) c.
Proof.
  intros Hk. unfold set_value. wp_run. rewrite Hk. wp_run.
  split; [|done]. split; [|done]. split; [done|done|done| |done].
  apply (balanced_change c _ key r (with_value value r) (len value - len (r_value r)) Hk); try done.
  unfold record_cost. cbn. lia.
Qed.

Lemma insert_key_spec room_name key c :
  keys (c_room c) !! key = None →
  wp (insert_key key) (λ _ c', room_step room_name c c'
    ∧ keys (c_room c') = <[key := new_record]> (keys (c_room c))
    ∧ sys_tick (c_sh c') = sys_tick (c_sh c)) c.
Proof.
  intros Hk. unfold insert_key. wp_run. split; [|done]. split; [|done].
  split; [done|done|done| |done]. by apply (balanced_add c _ key new_record).
Qed.

Lemma set_fields_spec room_name key f r c :
  keys (c_room c) !! key = Some r → r_value (f r) = r_value r →
  wp (set_fields key f) (λ _ c', room_step room_name c c'
    ∧ keys (c_room c') = <[key := f r]> (keys (c_room c))
    ∧ sys_tick (c_sh c') = sys_tick (c_sh c)) c.
Proof.
  intros Hk Hf. unfold set_fields. wp_run.
  assert (Ha : alter f key (keys (c_room c)) = <[key := f r]> (keys (c_room c))).
  { apply map_eq. intros k. destruct (decide (k = key)) as [->|Hne].
    - by rewrite lookup_alter_eq, lookup_insert_eq, Hk.
    - by rewrite lookup_alter_ne, lookup_insert_ne. }
  split; [|done]. split; [|done]. split; [done|done|done| |done].
  split; cbn; rewrite ?Ha; [done| |].
  - rewrite (keys_cost_insert _ _ _ _ Hk). unfold record_cost. rewrite Hf. f_equal. lia.
  - by rewrite map_size_insert_Some by (by eexists).
Qed.

Lemma view_disjoint_lookup room_name c key :
  disjoint_ram room_name c →
  view room_name c !! key
  = match keys (c_room c) !! key with Some r => Some r
    | None => cold_view (cold (c_sh c)) room_name !! key end.
Proof.
  intros _. unfold view. rewrite lookup_union.
  destruct (keys (c_room c) !! key); [by destruct (cold_view _ _ !! key)|].
  by destruct (cold_view _ _ !! key).
Qed.

(** What a lookup at [now] gives. Always: the invariant and the counters; the
    result is the resident record afterwards. When the disk can be read: the
    result is the logical record of the key unless it has expired, and the store
    is unchanged but for an expired record, which is gone. *)
Definition looked (room_name key : bytes) (now : Z) (c : ctx) (r : option record) (c' : ctx) : Prop :=
  good c' ∧ frame room_name c c' ∧ keys (c_room c') !! key = r
  ∧ (reads_ok → disjoint_ram room_name c →
     r = live now (view room_name c !! key)
     ∧ view room_name c' = (match r with Some _ => view room_name c
                            | None => delete key (view room_name c) end)
     ∧ disjoint_ram room_name c').

(** A key that is not resident: a cold record that has not expired moves back. *)
Lemma lookup_cold room_name key now c :
  good c → keys (c_room c) !! key = None →
  wp (let* found := sh (take_cold room_name key) in
      match found with
      | None => ret None
      | Some r =>
          if expired r now then ret None else
          mod_room (upd_keys (<[key := r]>)) ;;
          sh (fetch_add upd_keys_in_ram 1) ;;
          charge (record_cost key r) ;;
          ret (Some r)
      end) (looked room_name key now c) c.
Proof.
  intros [Hcold Hwf] Hk. wp_run. destruct c as [rm s1]. cbn [c_room c_sh] in *.
  pose proof (take_cold_spec s1 room_name key Hcold) as Ht. unfold wp at 1.
  destruct (take_cold room_name key s1) as [found s2]. cbn [fst snd].
  destruct Ht as (Hrest & [Hsk Hsb] & Hcold2 & Hother & Hor).
  assert (Hf2 : frame room_name (Ctx_ rm s1) (Ctx_ rm s2)).
  { split; [done|done|done| |done]. split; cbn; rewrite ?Hsk, ?Hsb; done. }
  assert (Hgood2 : good (Ctx_ rm s2)) by (by split).
  assert (Habs : live now found = None → looked room_name key now (Ctx_ rm s1) None (Ctx_ rm s2)).
  { intros Ho. split_and!; [done..|]. intros Hreads Hd.
    destruct Hor as [[Hfound Hview]|(_ & _ & Hno)]; [|done]. split; [|split].
    - rewrite view_disjoint_lookup by done. cbn [c_room c_sh]. by rewrite Hk, <- Hfound, Ho.
    - unfold view. cbn [c_room c_sh]. rewrite Hview, delete_union. f_equal. symmetry. by apply delete_id.
    - unfold disjoint_ram. cbn [c_room c_sh]. rewrite Hview. by apply map_disjoint_delete_r. }
  destruct found as [r|]; wp_run; [|by apply Habs].
  assert (cold_view (cold s1) room_name !! key = Some r
    ∧ cold_view (cold s2) room_name = delete key (cold_view (cold s1) room_name)) as [Hr Hview2].
  { destruct Hor as [[? ?]|(? & _)]; [done|done]. }
  destruct (expired r now) eqn:He; wp_run; [apply Habs; cbn; by rewrite He|].
  assert (Hwfr : wf_record r).
  { rewrite cold_view_lookup in Hr. apply fmap_Some in Hr as (ref & Href & ->).
    pose proof (co_ref _ Hcold _ _ _ Href) as [Hlen Hin]. pose proof (co_file _ Hcold).
    apply decode_wf. unfold slice. rewrite length_take, length_drop. lia. }
  split; [split; [done|by apply map_Forall_insert_2]|]. split; [trans (Ctx_ rm s2); [done|]|].
  { split; [done|done|done| |done]. by apply (balanced_add (Ctx_ rm s2) _ key r). }
  split; [cbn; by rewrite lookup_insert_eq|]. intros Hreads Hd. split; [|split].
  - rewrite view_disjoint_lookup by done. cbn [c_room c_sh]. rewrite Hk, Hr. cbn. by rewrite He.
  - unfold view. cbn. rewrite Hview2, <- insert_union_l. apply map_eq. intros k.
    destruct (decide (k = key)) as [->|Hne].
    + by rewrite lookup_insert_eq, lookup_union, Hk, Hr.
    + by rewrite lookup_insert_ne, !lookup_union, lookup_delete_ne.
  - unfold disjoint_ram. cbn. rewrite Hview2.
    apply map_disjoint_insert_l_2; [by rewrite lookup_delete_eq|]. by apply map_disjoint_delete_r.
Qed.

(** A resident key that has expired is erased. *)
Lemma lookup_expired room_name key now r c :
  good c → keys (c_room c) !! key = Some r → expired r now = true →
  wp (erase key) (λ _ c', looked room_name key now c None c') c.
Proof.
  intros [Hcold Hwf] Hk He. eapply wp_mono; [apply (erase_spec room_name key c)|].
  intros _ c1 ([Hf1 Hc1] & Hkeys & _).
  assert (Hcv : cold_view (cold (c_sh c1)) room_name = cold_view (cold (c_sh c)) room_name) by (by rewrite Hc1).
  split; [split; [by rewrite Hc1|rewrite Hkeys; by apply map_Forall_delete]|].
  split; [done|]. split; [by rewrite Hkeys, lookup_delete_eq|]. intros _ Hd. split; [|split].
  - rewrite view_disjoint_lookup, Hk by done. cbn. by rewrite He.
  - unfold view. rewrite Hkeys, Hcv, delete_union. f_equal.
    symmetry. apply delete_id. by eapply map_disjoint_Some_l.
  - unfold disjoint_ram. rewrite Hkeys, Hcv. by apply map_disjoint_delete_l.
Qed.

Lemma looked_same room_name key now c c1 r c' :
  frame room_name c c1 → c_room c1 = c_room c → cold (c_sh c1) = cold (c_sh c) →
  looked room_name key now c1 r c' → looked room_name key now c r c'.
Proof.
  intros Hf Er Ec (Hg & Hf' & Hk & Hrest). unfold looked, view, disjoint_ram in *. rewrite Er, Ec in Hrest.
  split_and!; try done. by trans c1.
Qed.

(** [lookup] in full. *)
Lemma lookup_spec room_name key c :
  good c →
  wp (lookup room_name key) (looked room_name key (clock_at (c_sh c)) c) c.
Proof.
  intros [Hcold Hwf]. unfold lookup. wp_run. fold (clock_at (c_sh c)). set (now := clock_at (c_sh c)).
  cbn [c_room]. destruct (keys (c_room c) !! key) as [r|] eqn:Hk.
  - destruct (expired r now) eqn:He; cbn [negb]; wp_run.
    + eapply wp_mono; [by apply (lookup_expired room_name key now r)|]. intros u c1 Hl. wp_run.
      refine (looked_same _ _ _ _ _ _ _ _ _ _ Hl); try done; by split.
    + split; [by split|]. split; [by split|]. split; [done|]. intros _ Hd. split; [|done].
      rewrite view_disjoint_lookup, Hk by done. cbn. by rewrite He.
  - apply wp_bind, wp_sh, wp_fetch_add. eapply wp_mono; [by apply lookup_cold|]. intros r c1 Hl.
    refine (looked_same _ _ _ _ _ _ _ _ _ _ Hl); try done; by split.
Qed.

End specs.

(** ** Claims *)

Section claims.
  Context `{World}.

(** [lookup] sees the logical key, wherever it is stored: it returns the
    live record of the room's logical map (RAM or cold storage), and an
    expired record is absent and disappears. The logical map is otherwise
    unchanged, other rooms too, a record it found is resident afterwards, and
    the room's bytes and the global counters follow the resident table. *)
Theorem lookup_sees_logical_key room_name key c :
  good c → reads_ok → disjoint_ram room_name c →
  let '(r, c') := lookup room_name key c in
  r = live (clock_at (c_sh c)) (view room_name c !! key)
  ∧ view room_name c' = (match r with Some _ => view room_name c
                         | None => delete key (view room_name c) end)
  ∧ keys (c_room c') !! key = r
  ∧ good c' ∧ disjoint_ram room_name c' ∧ balanced c c'
  ∧ ∀ room', room' ≠ room_name →
      cold_view (cold (c_sh c')) room' = cold_view (cold (c_sh c)) room'.
Proof.
  intros Hg Hreads Hd. pose proof (lookup_spec room_name key c Hg) as Hs. unfold wp in Hs.
  destruct (lookup room_name key c) as [r c']. destruct Hs as (Hg' & Hf & Hk & Hrest).
  destruct (Hrest Hreads Hd) as (Hr & Hv & Hd'). destruct Hf. done.
Qed.

End claims.

(** A record that eviction moved to the cold storage, and its lookup. *)
Lemma lookup_sees_logical_key_witness :
  let W := calm (Config 6379 [] [] 1 1 None None true [] (-1) 1 [] 1 0 0 1 0 Always 1 1 0 0) 5 in
  let c := Ctx_ (Room (<[str "a" := Record_ (str "x") 0 1 1]>
                       {[ str "b" := Record_ (str "y") 9 2 1 ]}) 0 Active 0)
             (init_shared None ∅) in
  let c1 := (evict_despised_keys (str "r") c).2 in
  keys (c_room c1) !! str "b" = None
  ∧ (lookup (str "r") (str "b") c1).1 = Some (Record_ (str "y") 9 2 1).
Proof.
  intros W c c1. split; [vm_compute; reflexivity|].
  assert (Hg : good c).
  { split; [apply init_cold_ok|].
    apply map_Forall_insert_2; [|apply map_Forall_singleton]; vm_compute; repeat split; discriminate. }
  assert (Hg1 : good c1) by (apply (evict_spec (str "r") c Hg)).
  assert (Hd : disjoint_ram (str "r") c1).
  { apply map_disjoint_spec. intros k x y Hx Hy. revert Hx Hy.
    assert (Hk : map_to_list (keys (c_room c1)) = [(str "a", Record_ (str "x") 0 1 1)])
      by (vm_compute; reflexivity).
    intros Hx%elem_of_map_to_list. rewrite Hk in Hx. apply list_elem_of_singleton in Hx. injection Hx as -> _.
    vm_compute. discriminate. }
  pose proof (lookup_sees_logical_key (H := W) (str "r") (str "b") c1 Hg1) as Hl.
  specialize (Hl ltac:(apply calm_reads_ok) Hd).
  destruct (lookup (str "r") (str "b") c1) as [r c']. rewrite (proj1 Hl). vm_compute. reflexivity.
Defined.
