(* ===== verification/Lww.v ===== *)
(** * Last-writer-wins entries

    The abstract specification of replication: an entry is a version with a
    content, and writes are joined by keeping the larger version, the present
    entry winning a tie. [fold_join] is a delivery of a list of writes; its
    result is decided by the set of writes alone, so replicas that received
    the same writes agree whatever the order, the repetitions and the
    interleaving. Crdt proves that the commands implement [join]. *)

From S2P Require Import Prelude Hlc.

Section lww.
  Context {A : Type}.
  Implicit Types w : version * A.

Definition join (cur : option (version * A)) (w : version * A) : option (version * A) :=
  match cur with
  | None => Some w
  | Some c => if version_leb w.1 c.1 then Some c else Some w
  end.

Definition fold_join (cur : option (version * A)) (ws : list (version * A)) :
    option (version * A) := foldl join cur ws.

(** Writes that carry the same version are the same write. *)
Definition one_write_per_version (ws : list (version * A)) : Prop :=
  ∀ w w', w ∈ ws → w' ∈ ws → w.1 = w'.1 → w = w'.

Lemma join_bound cur w : ∃ y, join cur w = Some y ∧ vle w.1 y.1
  ∧ ∀ c, cur = Some c → vle c.1 y.1 ∧ (y.1 = c.1 → y = c).
Proof.
  unfold join. destruct cur as [c|].
  - destruct (version_leb w.1 c.1) eqn:Hle.
    + exists c. split; [done|]. split; [exact Hle|]. intros ? [= <-]. split; [apply vle_refl|done].
    + exists w. split; [done|]. split; [apply vle_refl|]. intros ? [= <-].
      unfold vle, version_leb in *. apply negb_false_iff in Hle.
      split; [apply negb_true_iff; unfold version_ltb in *; lia|].
      intros E. rewrite E in Hle. unfold version_ltb in Hle. lia.
  - exists w. split; [done|]. split; [apply vle_refl|done].
Qed.

(** The winner of a delivery: the present entry or a delivered write, with the
    largest version, and never a write that only ties with the present one. *)
Lemma fold_join_winner cur ws :
  let x := fold_join cur ws in
  (x = cur ∨ ∃ w, w ∈ ws ∧ x = Some w)
  ∧ (∀ w, w ∈ ws → ∃ y, x = Some y ∧ vle w.1 y.1)
  ∧ (∀ c, cur = Some c → ∃ y, x = Some y ∧ vle c.1 y.1 ∧ (y.1 = c.1 → y = c)).
Proof.
  unfold fold_join. revert cur. induction ws as [|w ws IH]; intros cur; cbn [foldl].
  - split; [by left|]. split; [by intros w ?%elem_of_nil|].
    intros c ->. exists c. split; [done|]. split; [apply vle_refl|done].
  - destruct (IH (join cur w)) as (H1 & H2 & H3).
    destruct (join_bound cur w) as (y & Hy & Hwy & Hcy). destruct (H3 y Hy) as (z & Hz & Hyz & Htie).
    split; [|split].
    + destruct H1 as [->|(w' & Hw' & ->)]; [|right; exists w'; by split; [right|]].
      unfold join. destruct cur as [c|]; [destruct (version_leb _ _)|]; [by left|..];
        right; exists w; by split; [left|].
    + intros w' [->|Hw']%elem_of_cons; [|by apply H2].
      exists z. split; [done|]. by trans y.1.
    + intros c ->. destruct (Hcy c eq_refl) as [Hcy1 Hcy2]. exists z. split; [done|].
      split; [by trans y.1|]. intros E.
      assert (y.1 = c.1) as Eyc.
      { apply (anti_symm vle); [by rewrite <- E|done]. }
      assert (y = c) as -> by (by apply Hcy2). by apply Htie.
Qed.

(** Order, repetition and grouping of the same writes do not matter. *)
Lemma fold_join_same cur ws ws' :
  (∀ w, w ∈ ws ↔ w ∈ ws') → one_write_per_version ws →
  fold_join cur ws = fold_join cur ws'.
Proof.
  intros Hiff Hone.
  destruct (fold_join_winner cur ws) as (H1 & H2 & H3).
  destruct (fold_join_winner cur ws') as (G1 & G2 & G3).
  set (x := fold_join cur ws) in *. set (x' := fold_join cur ws') in *.
  destruct H1 as [H1|(w & Hw & H1)], G1 as [G1|(w' & Hw' & G1)].
  - congruence.
  - apply Hiff in Hw' as Hw. destruct (H2 w' Hw) as (y & Hy & Hle).
    assert (Hc : cur = Some y) by congruence. destruct (G3 y Hc) as (y' & Hy' & Hle' & Htie).
    assert (w' = y') as -> by congruence.
    rewrite Hy, G1. f_equal. symmetry. apply Htie. by apply (anti_symm vle).
  - apply Hiff in Hw as Hw'. destruct (G2 w Hw') as (y & Hy & Hle).
    assert (Hc : cur = Some y) by congruence. destruct (H3 y Hc) as (y' & Hy' & Hle' & Htie).
    assert (w = y') as -> by congruence.
    rewrite H1, Hy. f_equal. apply Htie. by apply (anti_symm vle).
  - apply Hiff in Hw' as Hw2. destruct (H2 w' Hw2) as (y & Hy & Hle).
    apply Hiff in Hw as Hw2'. destruct (G2 w Hw2') as (y' & Hy' & Hle').
    assert (y = w) as -> by congruence. assert (y' = w') as -> by congruence.
    rewrite H1, G1. f_equal. apply Hone; [done|done|]. by apply (anti_symm vle).
Qed.

Lemma fold_join_app cur ws ws' : fold_join cur (ws ++ ws') = fold_join (fold_join cur ws) ws'.
Proof. apply foldl_app. Qed.

End lww.
