(* ===== verification/Crdt.v ===== *)
(** * Replicated writes (src/core/crdt.cpp)

    Incoming versions, tombstones and their collection, and the two commands
    that apply a peer's writes: CRDTMERGE and CRDTDEL. The local clock and the
    tombstone tables are [crdt_state]. *)

From S2P Require Import Prelude FsUtil Resp Hlc Sketch Config World Types State Cold Aof Keyspace.

Definition arg (args : list bytes) (i : nat) : bytes := nth i args [].

Definition reply (s : string) : bytes := str s ++ CRLF.

Arguments reply : simpl never.
Arguments arg : simpl never.

Section crdt.
  Context `{World}.

Definition local_node_id : Z := cfg_node_id cfg.
Definition peer_count : nat := length (peers cfg).

Definition mod_crdt (f : crdt_state → crdt_state) : M shared unit := modify (upd_crdt f).

(** [clock_.next] and [clock_.observe]. *)
Definition clock_next (now_ms overwritten : Z) : M shared Z :=
  let* s := gets crdt in
  let v := next now_ms overwritten (clock s) in
  mod_crdt (upd_clock (λ _, v)) ;;
  ret v.

Definition clock_observe (ts : Z) : M shared unit := mod_crdt (upd_clock (observe ts)).

(** [incoming_version]: an error reply, or the version. *)
Definition incoming_version (ts_arg node_arg : bytes) : M shared (bytes + version) :=
  match parse_u64 ts_arg, parse_u64 node_arg with
  | Some ts, Some node =>
      if UINT32_MAX <? node then ret (inl (reply "-ERR invalid timestamp or node id")) else
      let ts := normalize ts in
      let* now := get_current_time_ms in
      if now + cfg_max_clock_offset_ms cfg <? physical_ms ts then
        ret (inl (reply "-ERR timestamp too far in the future (SOMNIUM_MAX_CLOCK_OFFSET_MS)"))
      else
      clock_observe ts ;;
      ret (inr (Version ts node))
  | _, _ => ret (inl (reply "-ERR invalid timestamp or node id"))
  end.

Definition find_tomb (room_name key : bytes) (s : crdt_state) : option version :=
  tombs s !! room_name ≫= (.!! key).

Definition tomb_ts (room_name key : bytes) (s : crdt_state) : Z :=
  match find_tomb room_name key s with Some t => v_ts t | None => 0 end.

(** [stale]: the incoming version loses. *)
Definition stale (room_name key : bytes) (r : option record) (v : version) (s : crdt_state) : bool :=
  match r with
  | Some r => version_leb v (r_version r)
  | None =>
      match find_tomb room_name key s with
      | Some t => version_leb v t
      | None => v_ts v <=? watermark s
      end
  end.

Definition put_tomb (room_name key : bytes) (v : version) : crdt_state → crdt_state :=
  upd_tombs (partial_alter (λ o, Some (<[key := v]> (default ∅ o))) room_name).

Definition set_tomb (room_name key : bytes) (v : version) : M shared unit :=
  let* s := gets crdt in
  if (peer_count =? 0)%nat || (v_ts v <=? watermark s) then ret tt else
  match find_tomb room_name key s with
  | None => mod_crdt (put_tomb room_name key v) ;; fetch_add upd_tombstones 1
  | Some t => mod_crdt (put_tomb room_name key (version_max t v))
  end.

(** A room's table with an entry removed; an empty table is dropped. *)
Definition drop_tomb (room_name key : bytes) : crdt_state → crdt_state :=
  upd_tombs (partial_alter (λ o,
    let m := delete key (default ∅ o) in if decide (m = ∅) then None else Some m) room_name).

Definition clear_tomb (room_name key : bytes) : M shared unit :=
  let* s := gets crdt in
  match find_tomb room_name key s with
  | None => ret tt
  | Some _ => fetch_add upd_tombstones (-1) ;; mod_crdt (drop_tomb room_name key)
  end.

(** [collect_tombstones]: the smallest frontier of the other nodes, and how
    many of them have reported one. *)
Definition heard (fs : gmap Z Z) : Z * Z :=
  map_fold (λ node f acc, if node =? local_node_id then acc else (acc.1 + 1, Z.min acc.2 f))
    (0, UINT64_MAX) fs.

Definition total_tombs (t : gmap bytes (gmap bytes version)) : Z :=
  map_fold (λ _ m n, Z.of_nat (size m) + n) 0 t.

(** What survives a watermark: entries above it, and the rooms that keep some. *)
Definition sweep (w : Z) (t : gmap bytes (gmap bytes version)) : gmap bytes (gmap bytes version) :=
  omap (λ m, let m := filter (λ p, w < v_ts p.2) m in if decide (m = ∅) then None else Some m) t.

Definition collect_tombstones : M shared unit :=
  let* s := gets crdt in
  let '(n, low) := heard (frontiers s) in
  if (peer_count =? 0)%nat || (n <? Z.of_nat peer_count) || (low <=? watermark s) then ret tt else
  let t := sweep low (tombs s) in
  mod_crdt (upd_watermark (λ _, low)) ;;
  mod_crdt (upd_tombs (λ _, t)) ;;
  fetch_add upd_tombstones (total_tombs t - total_tombs (tombs s)).

Definition handle_replfrontier (args : list bytes) : M shared bytes :=
  match length args, parse_u64 (arg args 1), parse_u64 (arg args 2) with
  | 3%nat, Some node, Some f =>
      if UINT32_MAX <? node then ret (reply "-ERR usage: REPLFRONTIER node frontier") else
      mod_crdt (upd_frontiers (λ fs, <[node := Z.max (default 0 (fs !! node)) f]> fs)) ;;
      let* now := get_current_time_ms in
      let* v := clock_next now 0 in
      mod_crdt (upd_frontier (λ _, v)) ;;
      collect_tombstones ;;
      ret (reply "+OK")
  | _, _, _ => ret (reply "-ERR usage: REPLFRONTIER node frontier")
  end.

Definition handle_crdtdel (room_name : bytes) (args : list bytes) : M ctx bytes :=
  if negb (length args =? 4)%nat then ret (reply "-ERR Wrong number of arguments for CRDTDEL") else
  let* version := sh (incoming_version (arg args 2) (arg args 3)) in
  match version with
  | inl err => ret err
  | inr v =>
      let key := arg args 1 in
      let* r := lookup room_name key in
      let* s := sh (gets crdt) in
      if stale room_name key r v s then ret (reply "+OK (Ignored Stale Write)") else
      (match r with Some _ => erase key | None => ret tt end) ;;
      sh (set_tomb room_name key v) ;;
      sh (append room_name args 0 (v_ts v) (v_node v)) ;;
      ret (reply "+OK (Deleted)")
  end.

(** The optional absolute expiration of CRDTMERGE. *)
Definition merge_expire (args : list bytes) : option Z :=
  if (length args =? 6)%nat then
    match parse_i64 (arg args 5) with
    | Some e => if e <? 0 then None else Some e
    | None => None
    end
  else Some 0.

(** The write of an accepted merge, on the record that [lookup] found or on a
    new one. *)
Definition merge_write (args : list bytes) (expire_at : Z) (v : version) (r : record) : record :=
  with_version v ((if (length args =? 6)%nat then with_expire expire_at else λ r, r) r).

(** The statements SET, MSET and CRDTMERGE share: a new record when [lookup]
    found none (its tombstone goes), then the value, then the other fields. *)
Definition put_record (room_name key : bytes) (r : option record) (value : bytes)
    (f : record → record) : M ctx unit :=
  (match r with
   | Some _ => ret tt
   | None => insert_key key ;; sh (clear_tomb room_name key)
   end) ;;
  set_value key value ;;
  set_fields key f.

Definition handle_crdtmerge (room_name : bytes) (args : list bytes) : M ctx bytes :=
  if (length args <? 5)%nat || (6 <? length args)%nat
  then ret (reply "-ERR Wrong number of arguments for CRDTMERGE") else
  match merge_expire args with
  | None => ret (reply "-ERR invalid expire time for CRDTMERGE")
  | Some expire_at =>
      let* version := sh (incoming_version (arg args 3) (arg args 4)) in
      match version with
      | inl err => ret err
      | inr v =>
          let key := arg args 1 in
          let* r := lookup room_name key in
          let* s := sh (gets crdt) in
          if stale room_name key r v s then ret (reply "+OK (Ignored Stale Write)") else
          put_record room_name key r (arg args 2) (merge_write args expire_at v) ;;
          sh (record_access key) ;;
          let* m := get_room keys in
          sh (append room_name args (from_option r_expire 0 (m !! key)) (v_ts v) (v_node v)) ;;
          ret (reply "+OK (State Converged)")
      end
  end.

End crdt.

(** ** Quiet steps: the stores keep their contents *)

Record quiet (s s' : shared) : Prop := {
  qu_index : index (cold s') = index (cold s);
  qu_file : cold_file (cold s') = cold_file (cold s);
  qu_bytes : file_bytes (cold s') = file_bytes (cold s);
  qu_open : cold_open (cold s') = cold_open (cold s);
  qu_snaps : snaps s' = snaps s;
  qu_aside : aside s' = aside s;
  qu_counts : same_counts s s'
}.

Global Instance quiet_preorder : PreOrder quiet.
Proof. split; [done|]. intros s1 s2 s3 [] []. split; congruence || by trans s2. Qed.

Lemma quiet_cold_view s s' room_name :
  quiet s s' → cold_view (cold s') room_name = cold_view (cold s) room_name.
Proof. intros [Hi Hf _ _ _ _ _]. unfold cold_view. by rewrite Hi, Hf. Qed.

Lemma quiet_cold_ok s s' : quiet s s' → cold_ok (cold s) → cold_ok (cold s').
Proof. intros [] ?. by eapply cold_ok_ext. Qed.

Lemma aof_only_quiet s s' : aof_only s s' → quiet s s'.
Proof. intros [Hc _ Hm ? ?]. split; rewrite ?Hc; try done. split; by rewrite Hm. Qed.

Section steps.
  Context `{World}.

(** A command's step on a room: what it leaves alone. *)
Record hstep (room_name : bytes) (c c' : ctx) : Prop := {
  hs_snaps : snaps (c_sh c') = snaps (c_sh c);
  hs_aside : aside (c_sh c') = aside (c_sh c);
  hs_state : state (c_room c') = state (c_room c);
  hs_access : last_access (c_room c') = last_access (c_room c);
  hs_bal : balanced c c';
  hs_cold : ∀ room', room' ≠ room_name →
    cold_view (cold (c_sh c')) room' = cold_view (cold (c_sh c)) room'
}.

Global Instance hstep_preorder room_name : PreOrder (hstep room_name).
Proof.
  split; [done|]. intros c1 c2 c3 [] []. split; try congruence; [by trans c2|].
  intros room' Hne. by rewrite hs_cold1, hs_cold0.
Qed.

Lemma frame_hstep room_name c c' : frame room_name c c' → hstep room_name c c'.
Proof. intros [[] ? ? ? ?]. by split. Qed.

(** The invariant of a room and its cold keys, with the stores apart. *)
Record tidy (room_name : bytes) (c : ctx) : Prop := {
  ti_good : good c;
  ti_disj : disjoint_ram room_name c
}.

Lemma quiet_hstep room_name r s s' : quiet s s' → hstep room_name (Ctx_ r s) (Ctx_ r s').
Proof.
  intros Hq. destruct Hq as [? ? ? ? ? ? [Hk Hb]] eqn:E. split; try done.
  - split; cbn; congruence.
  - intros room' _. cbn. by apply quiet_cold_view.
Qed.

Lemma quiet_good r s s' : quiet s s' → good (Ctx_ r s) → good (Ctx_ r s').
Proof. intros Hq [Hc Hw]. split; [by eapply quiet_cold_ok|done]. Qed.

Lemma quiet_view room_name r s s' :
  quiet s s' → view room_name (Ctx_ r s') = view room_name (Ctx_ r s).
Proof. intros Hq. unfold view. cbn. by erewrite quiet_cold_view. Qed.

Lemma quiet_tidy room_name r s s' :
  quiet s s' → tidy room_name (Ctx_ r s) → tidy room_name (Ctx_ r s').
Proof.
  intros Hq [Hg Hd]. split; [by eapply quiet_good|]. unfold disjoint_ram in *. cbn in *.
  by erewrite quiet_cold_view.
Qed.

End steps.

(** ** Tombstone tables *)

Definition tombs_of (s : crdt_state) (room_name : bytes) : gmap bytes version :=
  default ∅ (tombs s !! room_name).

Lemma find_tomb_of room_name key s : find_tomb room_name key s = tombs_of s room_name !! key.
Proof. unfold find_tomb, tombs_of. by destruct (tombs s !! room_name). Qed.

Lemma tombs_of_put room_name key v s room' :
  tombs_of (put_tomb room_name key v s) room'
  = if decide (room' = room_name) then <[key := v]> (tombs_of s room') else tombs_of s room'.
Proof.
  unfold tombs_of, put_tomb. cbn [upd_tombs tombs]. destruct (decide (room' = room_name)) as [->|].
  - by rewrite lookup_partial_alter_eq.
  - by rewrite lookup_partial_alter_ne.
Qed.

Lemma tombs_of_drop room_name key s room' :
  tombs_of (drop_tomb room_name key s) room'
  = if decide (room' = room_name) then delete key (tombs_of s room') else tombs_of s room'.
Proof.
  unfold tombs_of, drop_tomb. cbn [upd_tombs tombs]. destruct (decide (room' = room_name)) as [->|].
  - rewrite lookup_partial_alter_eq. by destruct (decide _) as [->|].
  - by rewrite lookup_partial_alter_ne.
Qed.

Lemma tombs_of_sweep w s room_name :
  default ∅ (sweep w (tombs s) !! room_name)
  = filter (λ p, w < v_ts p.2) (tombs_of s room_name).
Proof.
  unfold sweep, tombs_of. rewrite lookup_omap.
  destruct (tombs s !! room_name) as [m|]; cbn; [|by rewrite map_filter_empty].
  by destruct (decide _) as [->|].
Qed.

Section crdt_specs.
  Context `{World}.

Lemma append_only room_name args expire_at ts node s :
  wp (append room_name args expire_at ts node) (λ _ s', aof_only s s') s.
Proof.
  unfold append, append_failed, bump_generation, sync_locked. wp_run. destruct (_ || _); wp_run; [done|].
  eapply wp_mono; [apply reopen_spec|]. intros ready s1 (Hs1 & _). destruct ready; cbn [negb]; wp_run; [|done].
  destruct (write_at _ _ _) as [[ok w] f']. wp_run. destruct ok; cbn [negb]; wp_run.
  - destruct (aof_sync cfg); wp_run; [destruct (succeeds _); cbn [negb]; wp_run|..]; destruct Hs1; by split.
  - apply wp_when; intros _; wp_run; [|destruct Hs1; by split].
    destruct (succeeds _); wp_run; [destruct (succeeds _); wp_run|]; destruct Hs1; by split.
Qed.

(** What an accepted write leaves in the AOF: one [append] of the record. *)
Definition logs (room_name : bytes) (args : list bytes) (e ts node : Z) (s s' : shared) : Prop :=
  ∃ s1, aof s1 = aof s ∧ aof s' = aof (append room_name args e ts node s1).2.

Lemma clear_tomb_spec room_name key s :
  wp (clear_tomb room_name key) (λ _ s', quiet s s' ∧ aof s' = aof s
    ∧ clock (crdt s') = clock (crdt s) ∧ watermark (crdt s') = watermark (crdt s)
    ∧ frontiers (crdt s') = frontiers (crdt s)
    ∧ ∀ room', tombs_of (crdt s') room'
        = if decide (room' = room_name) then delete key (tombs_of (crdt s) room')
          else tombs_of (crdt s) room') s.
Proof.
  unfold clear_tomb. wp_run. destruct (find_tomb room_name key (crdt s)) as [t|] eqn:Hf; wp_run.
  - unfold mod_crdt. wp_run. repeat (split; [done|]). intros room'.
    apply (tombs_of_drop room_name key (crdt s)).
  - repeat (split; [done|]). intros room'. destruct (decide _) as [->|]; [|done].
    rewrite find_tomb_of in Hf. symmetry. by apply delete_id.
Qed.

(** Replication is on and the version is above the watermark: the tombstone
    is the larger of the old and the new version. *)
Lemma set_tomb_spec room_name key v s :
  wp (set_tomb room_name key v) (λ _ s', quiet s s' ∧ aof s' = aof s
    ∧ clock (crdt s') = clock (crdt s) ∧ watermark (crdt s') = watermark (crdt s)
    ∧ frontiers (crdt s') = frontiers (crdt s)
    ∧ ∀ room', tombs_of (crdt s') room'
        = if decide (room' = room_name ∧ peer_count ≠ 0%nat ∧ watermark (crdt s) < v_ts v) then
            <[key := match tombs_of (crdt s) room' !! key with
                     | Some t => version_max t v | None => v end]> (tombs_of (crdt s) room')
          else tombs_of (crdt s) room') s.
Proof.
  unfold set_tomb. wp_run.
  destruct (Nat.eqb_spec peer_count 0) as [H0|H0]; cbn [orb]; wp_run.
  { repeat (split; [done|]). intros room'. by rewrite decide_False by (by intros (_ & ? & _)). }
  destruct (Z.leb_spec (v_ts v) (watermark (crdt s))) as [Hw|Hw]; wp_run.
  { repeat (split; [done|]). intros room'. rewrite decide_False; [done|]. intros (_ & _ & ?). lia. }
  rewrite find_tomb_of.
  destruct (tombs_of (crdt s) room_name !! key) as [t|] eqn:Ht; unfold mod_crdt; wp_run;
    repeat (split; [done|]); intros room'.
  all: etrans; [apply (tombs_of_put room_name key)|].
  all: destruct (decide (room' = room_name)) as [->|Hne];
    [rewrite decide_True by done; by rewrite Ht|by rewrite decide_False by (by intros [? _])].
Qed.

(** Which incoming versions are accepted at time [now]: the parsed one in HLC
    format, when it is not further ahead than [max_clock_offset_ms]. *)
Definition accepted (now : Z) (ts_arg node_arg : bytes) : option version :=
  ts ← parse_u64 ts_arg;
  node ← parse_u64 node_arg;
  if (UINT32_MAX <? node) || (now + cfg_max_clock_offset_ms cfg <? physical_ms (normalize ts))
  then None else Some (Version (normalize ts) node).

Lemma accepted_range now ts_arg node_arg v :
  accepted now ts_arg node_arg = Some v → is_u64 (v_ts v) ∧ is_u32 (v_node v).
Proof.
  unfold accepted. intros (ts & Hts & H1)%bind_Some. apply bind_Some in H1 as (node & Hn & H1).
  destruct (Z.ltb_spec UINT32_MAX node); [done|]. destruct (_ <? _); [done|].
  injection H1 as <-. apply parse_u64_range in Hts, Hn. split; [by apply normalize_u64|cbn; ulia].
Qed.

Lemma incoming_version_spec ts_arg node_arg s :
  wp (incoming_version ts_arg node_arg) (λ res s', quiet s s' ∧ aof s' = aof s
    ∧ match accepted (clock_at s) ts_arg node_arg with
      | None => (∃ err, res = inl err) ∧ crdt s' = crdt s
      | Some v => res = inr v ∧ crdt s' = upd_clock (observe (v_ts v)) (crdt s)
                  ∧ sys_tick s' = S (sys_tick s)
      end) s.
Proof.
  unfold incoming_version, accepted, clock_observe, mod_crdt.
  destruct (parse_u64 ts_arg) as [ts|]; [|wp_run; repeat (split; [done|]); split; [by eexists|done]].
  destruct (parse_u64 node_arg) as [node|]; [|wp_run; repeat (split; [done|]); split; [by eexists|done]].
  cbn [mbind option_bind].
  destruct (Z.ltb_spec UINT32_MAX node); cbn [orb]; wp_run; [repeat (split; [done|]); split; [by eexists|done]|].
  fold (clock_at s).
  destruct (Z.ltb_spec (clock_at s + cfg_max_clock_offset_ms cfg) (physical_ms (normalize ts)));
    wp_run; repeat (split; [done|]); [split; [by eexists|done]|done].
Qed.

(** ** Writing a record *)

Lemma room_step_tidy room_name c c' :
  room_step room_name c c' → good c → map_Forall (λ _ r, wf_record r) (keys (c_room c')) → good c'.
Proof. intros [_ Hc] [Hg _] Hw. split; [by rewrite Hc|done]. Qed.

Lemma view_insert room_name c c' key r :
  keys (c_room c') = <[key := r]> (keys (c_room c)) →
  cold_view (cold (c_sh c')) room_name = cold_view (cold (c_sh c)) room_name →
  view room_name c' = <[key := r]> (view room_name c).
Proof. intros Hk Hc. unfold view. by rewrite Hk, Hc, insert_union_l. Qed.

Lemma disjoint_insert room_name c c' key r :
  keys (c_room c') = <[key := r]> (keys (c_room c)) →
  cold_view (cold (c_sh c')) room_name = cold_view (cold (c_sh c)) room_name →
  cold_view (cold (c_sh c)) room_name !! key = None →
  disjoint_ram room_name c → disjoint_ram room_name c'.
Proof.
  intros Hk Hc Hn Hd. unfold disjoint_ram. rewrite Hk, Hc. by apply map_disjoint_insert_l_2.
Qed.

Lemma put_record_spec room_name key r value f c :
  good c → keys (c_room c) !! key = r →
  (∀ x, r_value (f x) = r_value x) →
  wf_record (f (with_value value (default new_record r))) →
  wp (put_record room_name key r value f) (λ _ c',
    good c' ∧ hstep room_name c c'
    ∧ keys (c_room c') = <[key := f (with_value value (default new_record r))]> (keys (c_room c))
    ∧ (∀ room', cold_view (cold (c_sh c')) room' = cold_view (cold (c_sh c)) room')
    ∧ aof (c_sh c') = aof (c_sh c)
    ∧ clock (crdt (c_sh c')) = clock (crdt (c_sh c))
    ∧ watermark (crdt (c_sh c')) = watermark (crdt (c_sh c))
    ∧ frontiers (crdt (c_sh c')) = frontiers (crdt (c_sh c))
    ∧ ∀ room', tombs_of (crdt (c_sh c')) room'
        = if decide (room' = room_name ∧ r = None) then delete key (tombs_of (crdt (c_sh c)) room')
          else tombs_of (crdt (c_sh c)) room') c.
Proof.
  intros [Hcold Hwf] Hk Hf Hwr. unfold put_record. wp_run.
  set (r0 := default new_record r) in *.
  assert (Hfirst : wp (match r with Some _ => ret tt
      | None => insert_key key ;; sh (clear_tomb room_name key) end) (λ _ c',
    hstep room_name c c' ∧ (∀ room', cold_view (cold (c_sh c')) room' = cold_view (cold (c_sh c)) room')
    ∧ cold_ok (cold (c_sh c')) ∧ keys (c_room c') = <[key := r0]> (keys (c_room c))
    ∧ aof (c_sh c') = aof (c_sh c)
    ∧ clock (crdt (c_sh c')) = clock (crdt (c_sh c))
    ∧ watermark (crdt (c_sh c')) = watermark (crdt (c_sh c))
    ∧ frontiers (crdt (c_sh c')) = frontiers (crdt (c_sh c))
    ∧ ∀ room', tombs_of (crdt (c_sh c')) room'
        = if decide (room' = room_name ∧ r = None) then delete key (tombs_of (crdt (c_sh c)) room')
          else tombs_of (crdt (c_sh c)) room') c).
  { destruct r as [r|]; wp_run.
    - split; [done|]. split; [done|]. split; [done|]. split; [by rewrite insert_id|].
      repeat (split; [done|]). intros room'. by rewrite decide_False by (by intros [_ ?]).
    - eapply wp_mono; [by apply (insert_key_spec room_name)|]. intros _ c1 ([Hf1 Hc1] & Hk1 & _).
      wp_run. eapply wp_mono; [apply clear_tomb_spec|].
      intros _ s2 (Hq & Ha & Hcl & Hwm & Hfr & Ht). destruct c1 as [rm1 s1]. cbn [c_sh c_room] in *.
      destruct (fr_rest _ _ _ Hf1) as [Hra Hrc _ _ _]. cbn in Hra, Hrc.
      split; [trans (Ctx_ rm1 s1); [by apply frame_hstep|by apply quiet_hstep]|].
      split; [intros room'; erewrite quiet_cold_view by done; by rewrite Hc1|].
      split; [eapply quiet_cold_ok; [done|]; by rewrite Hc1|].
      split; [done|]. split; [congruence|]. split; [congruence|]. split; [congruence|].
      split; [congruence|]. intros room'. rewrite Ht, Hrc.
      destruct (decide (room' = room_name)) as [->|Hne]; [by rewrite decide_True|].
      by rewrite decide_False by (by intros [? _]). }
  eapply wp_mono; [exact Hfirst|]. clear Hfirst.
  intros _ c1 (Hh1 & Hv1 & Hok1 & Hk1 & Ha1 & Hcl1 & Hwm1 & Hfr1 & Ht1). wp_run.
  assert (Hl1 : keys (c_room c1) !! key = Some r0) by (by rewrite Hk1, lookup_insert_eq).
  eapply wp_mono; [by apply (set_value_spec room_name _ _ r0)|].
  intros _ c2 ([Hf2 Hc2] & Hk2 & _). wp_run.
  assert (Hl2 : keys (c_room c2) !! key = Some (with_value value r0))
    by (by rewrite Hk2, lookup_insert_eq).
  eapply wp_mono; [apply (set_fields_spec room_name _ f _ c2 Hl2), Hf|].
  intros _ c3 ([Hf3 Hc3] & Hk3 & _).
  destruct (fr_rest _ _ _ Hf2) as [Hra2 Hrc2 _ _ _]. destruct (fr_rest _ _ _ Hf3) as [Hra3 Hrc3 _ _ _].
  assert (Hk3' : keys (c_room c3) = <[key := f (with_value value r0)]> (keys (c_room c))).
  { by rewrite Hk3, Hk2, Hk1, !insert_insert_eq. }
  assert (Hcrdt : crdt (c_sh c3) = crdt (c_sh c1)) by congruence.
  split; [split; [by rewrite Hc3, Hc2|rewrite Hk3'; by apply map_Forall_insert_2]|].
  split; [trans c1; [done|]; trans c2; by apply frame_hstep|]. split; [done|].
  split; [intros room'; by rewrite Hc3, Hc2|]. split; [congruence|].
  rewrite Hcrdt. repeat (split; [done|]). done.
Qed.

(** ** The commands on the logical store

    [V] is what the room stores, [T] its tombstones, [wm] the watermark. *)

(** The store after [lookup] of [key]: an expired record is gone. *)
Definition prune (now : Z) (key : bytes) (V : gmap bytes record) : gmap bytes record :=
  match live now (V !! key) with Some _ => V | None => delete key V end.

Lemma prune_lookup now key V : prune now key V !! key = live now (V !! key).
Proof.
  unfold prune. destruct (live now (V !! key)) as [r|] eqn:E; [|apply lookup_delete_eq].
  unfold live in E. apply bind_Some in E as (r' & Hr & Hl). destruct (expired r' now); congruence.
Qed.

Lemma prune_lookup_ne now key key' V : key' ≠ key → prune now key V !! key' = V !! key'.
Proof. intros Hne. unfold prune. destruct (live _ _); [done|]. by apply lookup_delete_ne. Qed.

Definition loses (r : option record) (t : option version) (wm : Z) (v : version) : bool :=
  match r, t with
  | Some r, _ => version_leb v (r_version r)
  | None, Some t => version_leb v t
  | None, None => v_ts v <=? wm
  end.

Lemma stale_loses room_name key r v s :
  stale room_name key r v s = loses r (tombs_of s room_name !! key) (watermark s) v.
Proof. unfold stale, loses. rewrite find_tomb_of. by destruct r, (tombs_of s room_name !! key). Qed.

(** A command's effect on everything but the store of its room. *)
Record kept (room_name : bytes) (c c' : ctx) : Prop := {
  ke_tidy : tidy room_name c';
  ke_step : hstep room_name c c';
  ke_wm : watermark (crdt (c_sh c')) = watermark (crdt (c_sh c));
  ke_front : frontiers (crdt (c_sh c')) = frontiers (crdt (c_sh c));
  ke_tombs : ∀ room', room' ≠ room_name →
    tombs_of (crdt (c_sh c')) room' = tombs_of (crdt (c_sh c)) room'
}.

(** [lookup] in terms of [prune]. *)
Lemma lookup_prune room_name key c :
  tidy room_name c → reads_ok →
  wp (lookup room_name key) (λ r c', tidy room_name c' ∧ frame room_name c c'
    ∧ keys (c_room c') !! key = r
    ∧ cold_view (cold (c_sh c')) room_name !! key = None
    ∧ r = live (clock_at (c_sh c)) (view room_name c !! key)
    ∧ view room_name c' = prune (clock_at (c_sh c)) key (view room_name c)) c.
Proof.
  intros [Hg Hd] Hreads. eapply wp_mono; [by apply lookup_spec|].
  intros r c' (Hg' & Hf & Hk & Hrest). destruct (Hrest Hreads Hd) as (Hr & Hv & Hd').
  assert (Hv' : view room_name c' = prune (clock_at (c_sh c)) key (view room_name c)).
  { unfold prune. by rewrite <- Hr. }
  split; [by split|]. split; [done|]. split; [done|]. split; [|done].
  destruct r as [r|].
  - by eapply map_disjoint_Some_l.
  - assert (Hn : view room_name c' !! key = None) by (by rewrite Hv, lookup_delete_eq).
    unfold view in Hn. rewrite lookup_union, Hk in Hn. by destruct (cold_view _ _ !! key).
Qed.

Lemma append_logs room_name args e ts node s :
  wp (append room_name args e ts node) (λ _ s', aof_only s s' ∧ logs room_name args e ts node s s') s.
Proof.
  pose proof (append_only room_name args e ts node s) as Ha. split; [exact Ha|]. by exists s.
Qed.

Lemma merge_expire_range args e : merge_expire args = Some e → is_i64 e.
Proof.
  unfold merge_expire. destruct (_ =? _)%nat; [|by intros [= <-]].
  destruct (parse_i64 _) as [e'|] eqn:Hp; [|done]. destruct (_ <? _); [done|].
  intros [= <-]. by apply parse_i64_range in Hp.
Qed.

(** What an accepted CRDTMERGE writes over the record it found. *)
Definition merged (args : list bytes) (e : Z) (v : version) (r : option record) : record :=
  merge_write args e v (with_value (arg args 2) (default new_record r)).

Lemma merged_wf args e v r :
  merge_expire args = Some e → is_u64 (v_ts v) → is_u32 (v_node v) →
  match r with Some r => wf_record r | None => True end →
  wf_record (merged args e v r).
Proof.
  intros He Hts Hn Hr. apply merge_expire_range in He. unfold merged, merge_write.
  assert (Hr0 : is_i64 (r_expire (default new_record r))).
  { destruct r as [r|]; [apply Hr|by vm_compute]. }
  destruct (length args =? 6)%nat; by split.
Qed.

Lemma ctx_eta c : Ctx_ (c_room c) (c_sh c) = c.
Proof. by destruct c. Qed.

(** The time [lookup] reads in a command whose version was accepted. *)
Definition second_clock (c : ctx) : Z := wall (S (sys_tick (c_sh c))) + cfg_clock_offset_ms cfg.

(** The part the two commands share: the version is read and, when accepted,
    the key is looked up and the version compared. *)
Record admitted (room_name key : bytes) (v : version) (c c2 : ctx) : Prop := {
  ad_kept : kept room_name c c2;
  ad_here : keys (c_room c2) !! key = prune (second_clock c) key (view room_name c) !! key;
  ad_cold : cold_view (cold (c_sh c2)) room_name !! key = None;
  ad_view : view room_name c2 = prune (second_clock c) key (view room_name c);
  ad_crdt : crdt (c_sh c2) = upd_clock (observe (v_ts v)) (crdt (c_sh c));
  ad_aof : aof (c_sh c2) = aof (c_sh c)
}.

Lemma received_spec room_name key ts node (k : version → option record → M ctx bytes) (Q : bytes → ctx → Prop) c :
  tidy room_name c → reads_ok →
  let r := prune (second_clock c) key (view room_name c) !! key in
  (accepted (clock_at (c_sh c)) ts node = None → ∀ err c', kept room_name c c' →
     view room_name c' = view room_name c → crdt (c_sh c') = crdt (c_sh c) → aof (c_sh c') = aof (c_sh c) → Q err c') →
  (∀ v c2, accepted (clock_at (c_sh c)) ts node = Some v → is_u64 (v_ts v) → is_u32 (v_node v) →
     admitted room_name key v c c2 →
     if loses r (tombs_of (crdt (c_sh c)) room_name !! key) (watermark (crdt (c_sh c))) v
     then Q (reply "+OK (Ignored Stale Write)") c2 else wp (k v r) Q c2) →
  wp (let* version := sh (incoming_version ts node) in
      match version with
      | inl err => ret err
      | inr v =>
          let* r := lookup room_name key in
          let* s := sh (gets crdt) in
          if stale room_name key r v s then ret (reply "+OK (Ignored Stale Write)") else k v r
      end) Q c.
Proof.
  intros Htidy Hreads r Hbad Hgood. wp_run.
  eapply wp_mono; [apply incoming_version_spec|]. intros res s1 (Hq1 & Ha1 & Hres).
  destruct c as [rm s]. cbn [c_room c_sh] in *.
  pose proof (quiet_tidy room_name rm s s1 Hq1 Htidy) as Htidy1.
  pose proof (quiet_hstep room_name rm s s1 Hq1) as Hh1.
  pose proof (quiet_view room_name rm s s1 Hq1) as Hv1.
  destruct (accepted (clock_at s) ts node) as [v|] eqn:Hacc.
  2:{ destruct Hres as [[err ->] Hcr]. wp_run. apply Hbad; try done. split; cbn; congruence || done. }
  destruct Hres as (-> & Hcr & Htick). wp_run. apply accepted_range in Hacc as Hrange.
  eapply wp_mono; [by apply lookup_prune|]. intros r2 c2 (Htidy2 & Hf2 & Hk2 & Hcold2 & Hr & Hv2). wp_run.
  destruct (fr_rest _ _ _ Hf2) as [Hra2 Hrc2 _ _ _]. cbn [c_sh] in Hra2, Hrc2.
  assert (Hnow : clock_at s1 = second_clock (Ctx_ rm s)) by (unfold clock_at, second_clock; cbn; by rewrite Htick).
  cbn [c_sh] in Hr, Hv2. rewrite Hnow, Hv1 in Hr, Hv2.
  assert (Hr2 : r2 = r) by (unfold r; by rewrite prune_lookup).
  assert (Hcr2 : crdt (c_sh c2) = upd_clock (observe (v_ts v)) (crdt s)) by congruence.
  assert (Had : admitted room_name key v (Ctx_ rm s) c2).
  { split; try done; [|by rewrite Hk2, Hr2|cbn; congruence].
    split; [done|trans (Ctx_ rm s1); [done|by apply frame_hstep]|by rewrite Hcr2..|]. intros room' _. by rewrite Hcr2. }
  specialize (Hgood v c2 eq_refl (proj1 Hrange) (proj2 Hrange) Had).
  rewrite (ctx_eta c2), stale_loses, Hr2, Hcr2. change (tombs_of (upd_clock _ (crdt s)) room_name) with (tombs_of (crdt s) room_name).
  change (watermark (upd_clock _ (crdt s))) with (watermark (crdt s)).
  destruct (loses r _ _ v); by wp_run.
Qed.

Lemma crdtmerge_spec room_name args e c :
  tidy room_name c → reads_ok → (5 ≤ length args ≤ 6)%nat → merge_expire args = Some e →
  let key := arg args 1 in
  let V := view room_name c in
  let T := tombs_of (crdt (c_sh c)) room_name in
  wp (handle_crdtmerge room_name args) (λ rep c', kept room_name c c'
    ∧ match accepted (clock_at (c_sh c)) (arg args 3) (arg args 4) with
      | None => view room_name c' = V ∧ crdt (c_sh c') = crdt (c_sh c) ∧ aof (c_sh c') = aof (c_sh c)
      | Some v =>
          clock (crdt (c_sh c')) = Z.max (clock (crdt (c_sh c))) (v_ts v)
          ∧ let V1 := prune (second_clock c) key V in
            if loses (V1 !! key) (T !! key) (watermark (crdt (c_sh c))) v then
              rep = reply "+OK (Ignored Stale Write)" ∧ view room_name c' = V1
              ∧ tombs_of (crdt (c_sh c')) room_name = T ∧ aof (c_sh c') = aof (c_sh c)
            else
              rep = reply "+OK (State Converged)"
              ∧ view room_name c' = <[key := merged args e v (V1 !! key)]> V1
              ∧ tombs_of (crdt (c_sh c')) room_name
                = (match V1 !! key with Some _ => T | None => delete key T end)
              ∧ logs room_name args (r_expire (merged args e v (V1 !! key))) (v_ts v) (v_node v)
                  (c_sh c) (c_sh c')
      end) c.
Proof.
  intros Htidy Hreads Hlen He key V T. unfold handle_crdtmerge.
  rewrite (proj2 (Nat.ltb_ge _ _)), (proj2 (Nat.ltb_ge _ _)) by lia. cbn [orb]. rewrite He.
  apply received_spec; [done|done|intros ->; done|]. fold V key T.
  intros v c2 -> Hts Hnode [Hkept2 Hk2 Hcold2 Hv2 Hcr2 Ha2]. fold V in Hk2, Hv2.
  set (V1 := prune (second_clock c) key V) in *. set (r := V1 !! key) in *.
  destruct (loses r (T !! key) (watermark (crdt (c_sh c))) v).
  { split; [done|]. rewrite Hcr2. by split_and!. }
  destruct (ke_tidy _ _ _ Hkept2) as [Hgood2 Hdis2].
  assert (Hwr : wf_record (merged args e v r)).
  { apply merged_wf; try done. destruct r as [r0|] eqn:Hr0; [|done]. by eapply (go_wf _ Hgood2). }
  wp_run.
  eapply wp_mono; [apply (put_record_spec room_name key r (arg args 2) (merge_write args e v) c2)|]; try done.
  { intros x. unfold merge_write. by destruct (_ =? _)%nat. }
  intros _ c3 (Hg3 & Hh3 & Hk3 & Hcv3 & Ha3 & Hcl3 & Hwm3 & Hfr3 & Ht3). wp_run.
  unfold record_access. wp_run. cbn [c_sh c_room].
  set (s4 := upd_cold _ (c_sh c3)). rewrite Hk3, lookup_insert_eq. cbn [from_option].
  fold (merged args e v r). assert (Hq4 : quiet (c_sh c3) s4) by done.
  eapply wp_mono; [apply append_logs|].
  intros b s5 [Hap5 Hlog5]. wp_run. destruct c3 as [rm3 s3]. cbn [c_sh c_room] in *.
  pose proof (aof_only_quiet _ _ Hap5) as Hq5. assert (Hq : quiet s3 s5) by (by trans s4).
  assert (Hd3 : disjoint_ram room_name (Ctx_ rm3 s3)).
  { eapply (disjoint_insert room_name c2); [exact Hk3|by rewrite Hcv3|done|done]. }
  assert (Hcr5 : crdt s5 = crdt s3) by (by rewrite (ao_crdt _ _ Hap5)).
  split; [split|].
  - eapply quiet_tidy; [done|by split].
  - trans (Ctx_ rm3 s3); [|by apply quiet_hstep]. trans c2; [apply Hkept2|done].
  - cbn. rewrite Hcr5, Hwm3. apply Hkept2.
  - cbn. rewrite Hcr5, Hfr3. apply Hkept2.
  - intros room' Hne. cbn. rewrite Hcr5, Ht3, decide_False by (by intros [? _]). by apply Hkept2.
  - cbn. rewrite Hcr5, Hcl3, Hcr2. split; [done|]. split; [done|]. split; [|split].
    + rewrite (quiet_view room_name rm3 s3 s5 Hq).
      rewrite (view_insert room_name c2 _ key (merged args e v r)); [by rewrite Hv2|done|].
      cbn. by rewrite Hcv3.
    + rewrite Ht3, Hcr2. change (tombs_of (upd_clock _ (crdt (c_sh c))) room_name) with T.
      destruct r; [by rewrite decide_False by (by intros [_ ?])|by rewrite decide_True].
    + destruct Hlog5 as (s6 & H6 & H7). exists s6. split; [|done]. rewrite H6. cbn. congruence.
Qed.

(** Erasing a key that is not in cold storage. *)
Lemma tidy_delete room_name key c c' :
  tidy room_name c → cold_view (cold (c_sh c)) room_name !! key = None →
  keys (c_room c') = delete key (keys (c_room c)) → cold (c_sh c') = cold (c_sh c) →
  tidy room_name c' ∧ view room_name c' = delete key (view room_name c).
Proof.
  intros [[Hc Hw] Hd] Hcold Hk Ec.
  assert (Hcv : cold_view (cold (c_sh c')) room_name = cold_view (cold (c_sh c)) room_name) by (by rewrite Ec).
  split; [split; [split; [by rewrite Ec|]|]|].
  - rewrite Hk. by apply map_Forall_delete.
  - unfold disjoint_ram. rewrite Hk, Hcv. by apply map_disjoint_delete_l.
  - unfold view. rewrite Hk, Hcv, delete_union. f_equal. symmetry. by apply delete_id.
Qed.

Lemma crdtdel_spec room_name args c :
  tidy room_name c → reads_ok → length args = 4%nat →
  let key := arg args 1 in
  let V := view room_name c in
  let T := tombs_of (crdt (c_sh c)) room_name in
  wp (handle_crdtdel room_name args) (λ rep c', kept room_name c c'
    ∧ match accepted (clock_at (c_sh c)) (arg args 2) (arg args 3) with
      | None => view room_name c' = V ∧ crdt (c_sh c') = crdt (c_sh c) ∧ aof (c_sh c') = aof (c_sh c)
      | Some v =>
          clock (crdt (c_sh c')) = Z.max (clock (crdt (c_sh c))) (v_ts v)
          ∧ let V1 := prune (second_clock c) key V in
            if loses (V1 !! key) (T !! key) (watermark (crdt (c_sh c))) v then
              rep = reply "+OK (Ignored Stale Write)" ∧ view room_name c' = V1
              ∧ tombs_of (crdt (c_sh c')) room_name = T ∧ aof (c_sh c') = aof (c_sh c)
            else
              rep = reply "+OK (Deleted)"
              ∧ view room_name c' = delete key V
              ∧ tombs_of (crdt (c_sh c')) room_name
                = (if decide (peer_count ≠ 0%nat ∧ watermark (crdt (c_sh c)) < v_ts v) then
                     <[key := match T !! key with Some t => version_max t v | None => v end]> T
                   else T)
              ∧ logs room_name args 0 (v_ts v) (v_node v) (c_sh c) (c_sh c')
      end) c.
Proof.
  intros Htidy Hreads Hlen key V T. unfold handle_crdtdel. rewrite Hlen. cbn [Nat.eqb negb].
  apply received_spec; [done|done|intros ->; done|]. fold V key T.
  intros v c2 -> Hts Hnode [Hkept2 Hk2 Hcold2 Hv2 Hcr2 Ha2]. fold V in Hk2, Hv2.
  set (V1 := prune (second_clock c) key V) in *. set (r := V1 !! key) in *.
  destruct (loses r (T !! key) (watermark (crdt (c_sh c))) v).
  { split; [done|]. rewrite Hcr2. by split_and!. }
  wp_run.
  assert (Her : wp (match r with Some _ => erase key | None => ret tt end) (λ _ c',
    room_step room_name c2 c' ∧ keys (c_room c') = delete key (keys (c_room c2))) c2).
  { destruct r as [r0|]; [eapply wp_mono; [apply (erase_spec room_name)|]; by intros _ ? (? & ? & _)|].
    wp_run. split; [done|]. by rewrite delete_id. }
  eapply wp_mono; [exact Her|]. intros _ c3 ([Hf3 Hc3] & Hk3). wp_run.
  eapply wp_mono; [apply set_tomb_spec|].
  intros _ s4 (Hq4 & Ha4 & Hcl4 & Hwm4 & Hfr4 & Ht4). wp_run.
  eapply wp_mono; [apply append_logs|]. intros b s5 [Hap5 Hlog5]. wp_run.
  destruct c3 as [rm3 s3]. cbn [c_sh c_room] in *.
  destruct (fr_rest _ _ _ Hf3) as [Hra3 Hrc3 _ _ _]. cbn [c_sh] in Hra3, Hrc3.
  pose proof (aof_only_quiet _ _ Hap5) as Hq5. assert (Hq : quiet s3 s5) by (by trans s4).
  assert (Hcr5 : crdt s5 = crdt s4) by (by rewrite (ao_crdt _ _ Hap5)).
  destruct (tidy_delete room_name key c2 (Ctx_ rm3 s3) (ke_tidy _ _ _ Hkept2) Hcold2 Hk3 Hc3) as [Htidy3 Hv3].
  split; [split|].
  - by eapply quiet_tidy.
  - trans (Ctx_ rm3 s3); [|by apply quiet_hstep]. trans c2; [apply Hkept2|by apply frame_hstep].
  - cbn. rewrite Hcr5, Hwm4, Hrc3. apply Hkept2.
  - cbn. rewrite Hcr5, Hfr4, Hrc3. apply Hkept2.
  - intros room' Hne. cbn. rewrite Hcr5, Ht4, decide_False by (by intros [? _]). rewrite Hrc3.
    by apply Hkept2.
  - cbn. rewrite Hcr5, Hcl4, Hrc3, Hcr2. split; [done|]. split; [done|]. split; [|split].
    + rewrite (quiet_view room_name rm3 s3 s5 Hq), Hv3, Hv2. unfold V1, prune. destruct (live _ _); [done|].
      apply delete_delete_eq.
    + rewrite Ht4, Hrc3, Hcr2. change (tombs_of (upd_clock _ (crdt (c_sh c))) room_name) with T.
      change (watermark (upd_clock _ (crdt (c_sh c)))) with (watermark (crdt (c_sh c))).
      destruct (decide (peer_count ≠ 0%nat ∧ watermark (crdt (c_sh c)) < v_ts v)) as [[H1 H2]|Hn].
      * by rewrite decide_True.
      * rewrite decide_False; [done|]. intros (_ & ? & ?). by apply Hn.
    + destruct Hlog5 as (s6 & H6 & H7). exists s6. split; [|done]. rewrite H6. congruence.
Qed.

(** Malformed commands change nothing. *)
Lemma bad_merge room_name args c :
  ¬ (5 ≤ length args ≤ 6)%nat ∨ merge_expire args = None →
  handle_crdtmerge room_name args c = ((handle_crdtmerge room_name args c).1, c).
Proof.
  unfold handle_crdtmerge. intros Hbad. destruct (_ || _) eqn:E; [done|].
  destruct Hbad as [Hn|Hn]; [|by rewrite Hn].
  apply orb_false_iff in E as [?%Nat.ltb_ge ?%Nat.ltb_ge]. lia.
Qed.

Lemma bad_del room_name args c :
  length args ≠ 4%nat →
  handle_crdtdel room_name args c = ((handle_crdtdel room_name args c).1, c).
Proof. intros Hn. unfold handle_crdtdel. by rewrite (proj2 (Nat.eqb_neq _ _) Hn). Qed.

End crdt_specs.

(** ** Claims *)

Section claims.
  Context `{World}.

(** CRDTMERGE on every branch. Malformed arguments and refused versions
    (not numbers, node above 32 bits, too far in the future) change nothing
    that is stored or logged. An accepted version moves the clock to at least
    itself; a version that loses against the record, the tombstone or the
    watermark is ignored and not logged; one that wins replaces the value and
    the version, keeps or sets the expiration as the arguments say, clears the
    tombstone and is appended to the AOF with its final expiration. Nothing
    else changes: other rooms, snapshots, frontiers, byte accounting. *)
Theorem crdtmerge_effect room_name args c :
  tidy room_name c → reads_ok →
  let key := arg args 1 in
  let V := view room_name c in
  let T := tombs_of (crdt (c_sh c)) room_name in
  let wm := watermark (crdt (c_sh c)) in
  let '(rep, c') := handle_crdtmerge room_name args c in
  match (if decide (5 ≤ length args ≤ 6)%nat then merge_expire args else None) with
  | None => c' = c
  | Some e => kept room_name c c'
      ∧ match accepted (clock_at (c_sh c)) (arg args 3) (arg args 4) with
        | None => view room_name c' = V ∧ crdt (c_sh c') = crdt (c_sh c) ∧ aof (c_sh c') = aof (c_sh c)
        | Some v =>
            clock (crdt (c_sh c')) = Z.max (clock (crdt (c_sh c))) (v_ts v)
            ∧ let V1 := prune (second_clock c) key V in
              if loses (V1 !! key) (T !! key) wm v then
                rep = reply "+OK (Ignored Stale Write)" ∧ view room_name c' = V1
                ∧ tombs_of (crdt (c_sh c')) room_name = T ∧ aof (c_sh c') = aof (c_sh c)
              else
                rep = reply "+OK (State Converged)"
                ∧ view room_name c' = <[key := merged args e v (V1 !! key)]> V1
                ∧ tombs_of (crdt (c_sh c')) room_name
                  = (match V1 !! key with Some _ => T | None => delete key T end)
                ∧ logs room_name args (r_expire (merged args e v (V1 !! key))) (v_ts v) (v_node v)
                    (c_sh c) (c_sh c')
        end
  end.
Proof.
  intros Htidy Hreads key V T wm. destruct (handle_crdtmerge room_name args c) as [rep c'] eqn:E.
  destruct (decide (5 ≤ length args ≤ 6)%nat) as [Hlen|Hlen].
  - destruct (merge_expire args) as [e|] eqn:He.
    + pose proof (crdtmerge_spec room_name args e c Htidy Hreads Hlen He) as Hs.
      cbv zeta in Hs. unfold wp in Hs. by rewrite E in Hs.
    + rewrite bad_merge in E by (by right). congruence.
  - rewrite bad_merge in E by (by left). congruence.
Qed.

(** CRDTDEL on every branch: refused versions change nothing that is
    stored or logged, a deletion that loses is ignored and not logged, one
    that wins removes the key from RAM and cold storage, leaves a tombstone at
    its version (when replication is on and the watermark is below) and is
    appended to the AOF. *)
Theorem crdtdel_effect room_name args c :
  tidy room_name c → reads_ok →
  let key := arg args 1 in
  let V := view room_name c in
  let T := tombs_of (crdt (c_sh c)) room_name in
  let wm := watermark (crdt (c_sh c)) in
  let '(rep, c') := handle_crdtdel room_name args c in
  if decide (length args = 4%nat) then kept room_name c c'
    ∧ match accepted (clock_at (c_sh c)) (arg args 2) (arg args 3) with
      | None => view room_name c' = V ∧ crdt (c_sh c') = crdt (c_sh c) ∧ aof (c_sh c') = aof (c_sh c)
      | Some v =>
          clock (crdt (c_sh c')) = Z.max (clock (crdt (c_sh c))) (v_ts v)
          ∧ let V1 := prune (second_clock c) key V in
            if loses (V1 !! key) (T !! key) wm v then
              rep = reply "+OK (Ignored Stale Write)" ∧ view room_name c' = V1
              ∧ tombs_of (crdt (c_sh c')) room_name = T ∧ aof (c_sh c') = aof (c_sh c)
            else
              rep = reply "+OK (Deleted)" ∧ view room_name c' = delete key V
              ∧ tombs_of (crdt (c_sh c')) room_name
                = (if decide (peer_count ≠ 0%nat ∧ wm < v_ts v) then
                     <[key := match T !! key with Some t => version_max t v | None => v end]> T
                   else T)
              ∧ logs room_name args 0 (v_ts v) (v_node v) (c_sh c) (c_sh c')
      end
  else rep = reply "-ERR Wrong number of arguments for CRDTDEL" ∧ c' = c.
Proof.
  intros Htidy Hreads key V T wm. destruct (handle_crdtdel room_name args c) as [rep c'] eqn:E.
  destruct (decide (length args = 4%nat)) as [Hlen|Hlen].
  - pose proof (crdtdel_spec room_name args c Htidy Hreads Hlen) as Hs.
    cbv zeta in Hs. unfold wp in Hs. by rewrite E in Hs.
  - unfold handle_crdtdel in E. rewrite (proj2 (Nat.eqb_neq _ _) Hlen) in E. by injection E as <- <-.
Qed.

End claims.

(** A room with one record, in RAM. *)
Definition sample_ctx : ctx :=
  Ctx_ (Room {[ str "k" := Record_ (str "old") 0 327680 1 ]} 0 Active 0) (init_shared None ∅).

Lemma sample_tidy : tidy (str "r") sample_ctx.
Proof.
  split; [split; [apply init_cold_ok|apply map_Forall_singleton; by vm_compute]|].
  apply map_disjoint_spec. intros k x y _ Hy. vm_compute in Hy. discriminate.
Qed.

Lemma crdtmerge_effect_witness :
  let W := calm default_config 1000 in
  let args := [str "CRDTMERGE"; str "k"; str "new"; str "7"; str "2"] in
  (view (str "r") (handle_crdtmerge (H := W) (str "r") args sample_ctx).2) !! str "k"
  = Some (Record_ (str "new") 0 458752 2).
Proof.
  intros W args.
  pose proof (crdtmerge_effect (H := W) (str "r") args sample_ctx sample_tidy
    (calm_reads_ok default_config 1000)) as Hs. cbv zeta in Hs.
  destruct (handle_crdtmerge (str "r") args sample_ctx) as [rep c'].
  destruct Hs as (_ & _ & _ & Hv & _). cbn [snd]. rewrite Hv. vm_compute. reflexivity.
Defined.

Lemma crdtdel_effect_witness :
  let W := calm default_config 1000 in
  let args := [str "CRDTDEL"; str "k"; str "7"; str "2"] in
  (view (str "r") (handle_crdtdel (H := W) (str "r") args sample_ctx).2) !! str "k" = None.
Proof.
  intros W args.
  pose proof (crdtdel_effect (H := W) (str "r") args sample_ctx sample_tidy
    (calm_reads_ok default_config 1000)) as Hs. cbv zeta in Hs.
  destruct (handle_crdtdel (str "r") args sample_ctx) as [rep c'].
  destruct Hs as (_ & _ & _ & Hv & _). cbn [snd]. rewrite Hv. vm_compute. reflexivity.
Defined.
