(* ===== verification/Convergence.v ===== *)
(** * Replicas converge

    The refinement of CRDTMERGE and CRDTDEL to [Lww.join], and what follows for
    two replicas that received the same writes: they end in the same state,
    whatever the order and the repetitions of the deliveries. The store of a
    room is seen as one entry for each key, a record or a tombstone with its
    version. *)

From S2P Require Import Prelude FsUtil Resp Hlc Config World Types State Cold Keyspace Lww Crdt.

(** A content is a value with its expiration, or nothing: the key is deleted. *)
Abbreviation content := (option (bytes * Z)).

Definition record_content (r : record) : version * content :=
  (r_version r, Some (r_value r, r_expire r)).

Definition entry (room_name : bytes) (c : ctx) (key : bytes) : option (version * content) :=
  match view room_name c !! key with
  | Some r => Some (record_content r)
  | None => (λ t, (t, None)) <$> tombs_of (crdt (c_sh c)) room_name !! key
  end.

(** A replicated command, with its arguments. *)
Inductive delivery := Merge (args : list bytes) | Del (args : list bytes).

(** The version two arguments carry, and the write a command carries: its key
    and its entry. *)
Definition sent_version (ts_arg node_arg : bytes) : option version :=
  ts ← parse_u64 ts_arg; node ← parse_u64 node_arg; Some (Version (normalize ts) node).

Definition sent (d : delivery) : option (bytes * (version * content)) :=
  match d with
  | Merge args =>
      v ← sent_version (arg args 3) (arg args 4);
      e ← merge_expire args;
      Some (arg args 1, (v, Some (arg args 2, e)))
  | Del args =>
      v ← sent_version (arg args 2) (arg args 3);
      Some (arg args 1, (v, None))
  end.

(** The writes to one key among the deliveries, in their order. *)
Definition writes (key : bytes) (ds : list delivery) : list (version * content) :=
  omap (λ d, p ← sent d; if decide (p.1 = key) then Some p.2 else None) ds.

Section convergence.
  Context `{World}.

Definition run (room_name : bytes) (d : delivery) : M ctx unit :=
  match d with
  | Merge args => handle_crdtmerge room_name args ;; ret tt
  | Del args => handle_crdtdel room_name args ;; ret tt
  end.

Definition deliver (room_name : bytes) (ds : list delivery) : M ctx unit :=
  for_each ds (run room_name).

(** No clock reading of this run is past [e]. *)
Definition eternal (e : Z) : Prop := ∀ k, 0 < e → wall k + cfg_clock_offset_ms cfg <= e.

(** What a peer sends: six arguments (CRDTMERGE with its expiration) or four,
    a version that is not too far in the future and is above the watermark
    [wm], and no expiration that strikes while the deliveries run. *)
Definition genuine (wm : Z) (d : delivery) : Prop :=
  match d with
  | Merge args => length args = 6%nat
      ∧ (∃ e, merge_expire args = Some e ∧ eternal e)
      ∧ (∀ k, ∃ v, accepted (wall k + cfg_clock_offset_ms cfg) (arg args 3) (arg args 4) = Some v
                 ∧ wm < v_ts v)
  | Del args => length args = 4%nat
      ∧ (∀ k, ∃ v, accepted (wall k + cfg_clock_offset_ms cfg) (arg args 2) (arg args 3) = Some v
                 ∧ wm < v_ts v)
  end.

(** The state a replica applies deliveries in. *)
Record replica (room_name : bytes) (wm : Z) (c : ctx) : Prop := {
  rp_tidy : tidy room_name c;
  rp_wm : watermark (crdt (c_sh c)) = wm;
  rp_excl : ∀ key r, view room_name c !! key = Some r →
    tombs_of (crdt (c_sh c)) room_name !! key = None;
  rp_eternal : ∀ key r, view room_name c !! key = Some r → eternal (r_expire r)
}.

Lemma accepted_sent now ts_arg node_arg v :
  accepted now ts_arg node_arg = Some v → sent_version ts_arg node_arg = Some v.
Proof.
  unfold accepted, sent_version. destruct (parse_u64 ts_arg); [|done].
  destruct (parse_u64 node_arg); [|done]. cbn. by destruct (_ || _).
Qed.

Lemma eternal_live e k : eternal e → (0 <? e) && (e <? wall k + cfg_clock_offset_ms cfg) = false.
Proof. intros He. specialize (He k). destruct (Z.ltb_spec 0 e); [|done]. cbn. lia. Qed.

Lemma prune_eternal room_name wm c k key :
  replica room_name wm c →
  prune (wall k + cfg_clock_offset_ms cfg) key (view room_name c) = view room_name c.
Proof.
  intros [_ _ _ He]. unfold prune, live. destruct (view room_name c !! key) as [r|] eqn:Hr; cbn.
  - unfold expired. by rewrite eternal_live by (by eapply He).
  - by apply delete_id.
Qed.

(** [loses] is the losing side of [join] above the watermark. *)
Lemma loses_join room_name wm c key v x :
  replica room_name wm c → wm < v_ts v →
  join (entry room_name c key) (v, x)
  = if loses (view room_name c !! key) (tombs_of (crdt (c_sh c)) room_name !! key) wm v
    then entry room_name c key else Some (v, x).
Proof.
  intros _ Hwm. unfold entry, loses, join.
  destruct (view room_name c !! key) as [r|]; [done|].
  destruct (tombs_of _ _ !! key) as [t|]; [done|]. cbn.
  by rewrite (proj2 (Z.leb_gt _ _)) by lia.
Qed.

(** ** The refinement *)

(** A delivery's effect on the entries. *)
Definition joined (room_name : bytes) (k : bytes) (w : version * content) (c c' : ctx) : Prop :=
  ∀ key, entry room_name c' key
    = if decide (key = k) then join (entry room_name c key) w else entry room_name c key.

Lemma joined_skip room_name k w c c' :
  view room_name c' = view room_name c →
  tombs_of (crdt (c_sh c')) room_name = tombs_of (crdt (c_sh c)) room_name →
  join (entry room_name c k) w = entry room_name c k → joined room_name k w c c'.
Proof.
  intros Hv Ht Hj key. destruct (decide (key = k)) as [->|_]; [rewrite Hj|];
    unfold entry; by rewrite Hv, Ht.
Qed.

Lemma replica_skip room_name wm c c' :
  replica room_name wm c → kept room_name c c' →
  view room_name c' = view room_name c →
  tombs_of (crdt (c_sh c')) room_name = tombs_of (crdt (c_sh c)) room_name →
  replica room_name wm c'.
Proof.
  intros [] [] Hv Ht. split; [done|congruence|rewrite Hv, Ht; done|by rewrite Hv].
Qed.

Lemma merge_joins room_name wm args k w c :
  reads_ok → replica room_name wm c → genuine wm (Merge args) → sent (Merge args) = Some (k, w) →
  wp (handle_crdtmerge room_name args)
    (λ _ c', replica room_name wm c' ∧ joined room_name k w c c') c.
Proof.
  intros Hreads Hrep (Hlen & (e & He & Heternal) & Hacc) Hsent.
  destruct (Hacc (sys_tick (c_sh c))) as (v & Hv & Hwm).
  cbn [sent] in Hsent. rewrite (accepted_sent _ _ _ _ Hv), He in Hsent. injection Hsent as <- <-.
  eapply wp_mono; [apply (crdtmerge_spec room_name args e c); [apply Hrep|done|lia|done]|].
  intros rep c' (Hkept & Hpost). unfold clock_at in Hpost. rewrite Hv in Hpost.
  destruct Hpost as [_ Hpost]. unfold second_clock in Hpost.
  rewrite (prune_eternal room_name wm) in Hpost by done.
  rewrite (rp_wm _ _ _ Hrep) in Hpost.
  pose proof (loses_join room_name wm c (arg args 1) v (Some (arg args 2, e)) Hrep Hwm) as Hj.
  set (key := arg args 1) in *. set (V := view room_name c) in *.
  set (T := tombs_of (crdt (c_sh c)) room_name) in *.
  destruct (loses (V !! key) (T !! key) wm v).
  { destruct Hpost as (_ & HV & HT & _). split; [by eapply replica_skip|by apply joined_skip]. }
  destruct Hpost as (_ & HV & HT & _).
  assert (Hrc : record_content (merged args e v (V !! key)) = (v, Some (arg args 2, e))).
  { unfold record_content, merged, merge_write. rewrite Hlen. by destruct v. }
  assert (HT' : tombs_of (crdt (c_sh c')) room_name = delete key T).
  { rewrite HT. destruct (V !! key) as [r|] eqn:Hr; [|done]. symmetry. apply delete_id.
    by apply (rp_excl _ _ _ Hrep key r). }
  split.
  - destruct Hrep as [_ Hw Hx Het]. split; [apply Hkept|rewrite (ke_wm _ _ _ Hkept); done|..];
      intros key' r; rewrite HV, ?HT'.
    + destruct (decide (key' = key)) as [->|Hne]; [by rewrite lookup_delete_eq|].
      rewrite lookup_insert_ne, lookup_delete_ne by done. by apply Hx.
    + destruct (decide (key' = key)) as [->|Hne].
      * rewrite lookup_insert_eq. intros [= <-].
        change (eternal (r_expire (merged args e v (V !! key)))).
        unfold merged, merge_write. by rewrite Hlen.
      * rewrite lookup_insert_ne by done. by apply Het.
  - intros key'. unfold entry at 1. rewrite HV, HT'. destruct (decide (key' = key)) as [->|Hne].
    + rewrite lookup_insert_eq, Hrc. by rewrite Hj.
    + by rewrite lookup_insert_ne, lookup_delete_ne.
Qed.

Lemma del_joins room_name wm args k w c :
  peer_count ≠ 0%nat →
  reads_ok → replica room_name wm c → genuine wm (Del args) → sent (Del args) = Some (k, w) →
  wp (handle_crdtdel room_name args)
    (λ _ c', replica room_name wm c' ∧ joined room_name k w c c') c.
Proof.
  intros Hpeers Hreads Hrep (Hlen & Hacc) Hsent.
  destruct (Hacc (sys_tick (c_sh c))) as (v & Hv & Hwm).
  cbn [sent] in Hsent. rewrite (accepted_sent _ _ _ _ Hv) in Hsent. injection Hsent as <- <-.
  eapply wp_mono; [apply (crdtdel_spec room_name args c); [apply Hrep|done|done]|].
  intros rep c' (Hkept & Hpost). unfold clock_at in Hpost. rewrite Hv in Hpost.
  destruct Hpost as [_ Hpost]. unfold second_clock in Hpost.
  rewrite (prune_eternal room_name wm) in Hpost by done.
  rewrite (rp_wm _ _ _ Hrep) in Hpost.
  pose proof (loses_join room_name wm c (arg args 1) v None Hrep Hwm) as Hj.
  set (key := arg args 1) in *. set (V := view room_name c) in *.
  set (T := tombs_of (crdt (c_sh c)) room_name) in *.
  destruct (loses (V !! key) (T !! key) wm v) eqn:Hloses.
  { destruct Hpost as (_ & HV & HT & _). split; [by eapply replica_skip|by apply joined_skip]. }
  destruct Hpost as (_ & HV & HT & _).
  rewrite decide_True in HT by done.
  assert (HT' : tombs_of (crdt (c_sh c')) room_name = <[key := v]> T).
  { rewrite HT. f_equal. destruct (T !! key) as [t|] eqn:Ht; [|done].
    destruct (V !! key) as [r|] eqn:Hr.
    - pose proof (rp_excl _ _ _ Hrep key r Hr) as Hn. fold T in Hn. congruence.
    - cbn [loses] in Hloses. unfold version_max, version_leb in *.
      apply negb_false_iff in Hloses. by rewrite Hloses. }
  split.
  - destruct Hrep as [_ Hw Hx Het]. split; [apply Hkept|rewrite (ke_wm _ _ _ Hkept); done|..];
      intros key' r; rewrite HV, ?HT'.
    + destruct (decide (key' = key)) as [->|Hne]; [by rewrite lookup_delete_eq|].
      rewrite lookup_delete_ne, lookup_insert_ne by done. by apply Hx.
    + intros [_ Hr]%lookup_delete_Some. by eapply Het.
  - intros key'. unfold entry at 1. rewrite HV, HT'. destruct (decide (key' = key)) as [->|Hne].
    + rewrite lookup_delete_eq, lookup_insert_eq. by rewrite Hj.
    + by rewrite lookup_delete_ne, lookup_insert_ne.
Qed.

(** What a delivery of genuine commands asks of the replica. *)
Record delivering (room_name : bytes) (wm : Z) (ds : list delivery) (c : ctx) : Prop := {
  dv_peers : peer_count ≠ 0%nat;
  dv_reads : reads_ok;
  dv_replica : replica room_name wm c;
  dv_genuine : Forall (λ d, genuine wm d ∧ is_Some (sent d)) ds
}.

Lemma run_joins room_name wm d k w c :
  peer_count ≠ 0%nat → reads_ok → replica room_name wm c → genuine wm d → sent d = Some (k, w) →
  wp (run room_name d) (λ _ c', replica room_name wm c' ∧ joined room_name k w c c') c.
Proof.
  intros. destruct d as [args|args]; cbn [run]; wp_run.
  - eapply wp_mono; [by apply merge_joins|done].
  - eapply wp_mono; [by apply del_joins|done].
Qed.

(** A sequence of deliveries folds the writes to each key. *)
Lemma deliver_folds room_name wm ds c :
  delivering room_name wm ds c →
  wp (deliver room_name ds) (λ _ c', replica room_name wm c'
    ∧ ∀ key, entry room_name c' key = fold_join (entry room_name c key) (writes key ds)) c.
Proof.
  intros [Hp Hreads Hrep Hgen]. revert c Hrep.
  induction Hgen as [|d ds [Hg [[k w] Hs]] _ IH]; intros c Hrep; cbn [deliver for_each]; wp_run; [done|].
  eapply wp_mono; [by eapply run_joins|]. intros _ c1 [Hrep1 Hj].
  eapply wp_mono; [by apply IH|]. intros _ c' [Hrep' He]. split; [done|]. intros key.
  unfold writes. cbn [omap list_omap]. rewrite Hs. cbn.
  rewrite He, Hj. destruct (decide (key = k)) as [<-|Hne].
  - by rewrite decide_True.
  - by rewrite decide_False.
Qed.

End convergence.

(** ** Claims *)

Section claims.
  Context `{World}.

(** C25: CRDTMERGE and CRDTDEL implement the join of last-writer-wins entries
    (replicator.h calls merges idempotent and commutative): applied to a room
    whose records do not expire meanwhile, a sequence of genuine replicated
    commands leaves, for every key, the fold of [join] over the writes to that
    key, in RAM or in the cold storage or as a tombstone, and keeps the
    invariant of the room. *)
Theorem replicated_writes_refine_join room_name wm ds c :
  delivering room_name wm ds c →
  let c' := (deliver room_name ds c).2 in
  replica room_name wm c'
  ∧ ∀ key, entry room_name c' key = fold_join (entry room_name c key) (writes key ds).
Proof. apply deliver_folds. Qed.

End claims.

(** C11: Strong convergence. Two replicas, each in a world of its own (clock,
    disk, configuration, cold storage), start with the same entries in a room
    and receive the same set of genuine writes; whatever the order and the
    repetitions, they end with the same entries, so every GET finds the same
    value or none. *)
Theorem replicas_converge (W1 W2 : World) room_name wm1 wm2 ds1 ds2 c1 c2 :
  @delivering W1 room_name wm1 ds1 c1 → @delivering W2 room_name wm2 ds2 c2 →
  (∀ key, entry room_name c1 key = entry room_name c2 key) →
  (∀ d, d ∈ ds1 ↔ d ∈ ds2) →
  (∀ key, one_write_per_version (writes key ds1)) →
  let c1' := (@deliver W1 room_name ds1 c1).2 in
  let c2' := (@deliver W2 room_name ds2 c2).2 in
  ∀ key, entry room_name c1' key = entry room_name c2' key
    ∧ r_value <$> view room_name c1' !! key = r_value <$> view room_name c2' !! key.
Proof.
  intros H1 H2 Heq Hds Hone c1' c2' key.
  destruct (deliver_folds room_name wm1 ds1 c1 H1) as [_ He1].
  destruct (deliver_folds room_name wm2 ds2 c2 H2) as [_ He2].
  assert (He : entry room_name c1' key = entry room_name c2' key).
  { unfold c1', c2'. rewrite He1, He2, Heq. apply fold_join_same; [|done].
    intros w. unfold writes. rewrite !list_elem_of_omap.
    split; intros (d & Hd & Hw); exists d; split; [by apply Hds|done|by apply Hds|done]. }
  split; [done|]. apply (f_equal (λ o, o ≫= λ x, fst <$> x.2)) in He.
  assert (Hval : ∀ c : ctx, (entry room_name c key ≫= λ x, fst <$> x.2)
    = r_value <$> view room_name c !! key).
  { intros c. unfold entry. destruct (view room_name c !! key); [done|].
    by destruct (tombs_of _ _ !! key). }
  by rewrite !Hval in He.
Qed.

(** Two nodes, one write and one deletion of the same key, delivered in
    opposite orders and one of them twice. *)
Definition demo_config (node : Z) : config :=
  Config 6379 [] [] 10 10 None None true [] (-1) node [(str "peer", str "6380")] 1 0 0 1 0 Always 1 1 0 0.

Definition demo_set : delivery :=
  Merge [str "CRDTMERGE"; str "k"; str "v"; str "5"; str "2"; str "0"].
Definition demo_del : delivery := Del [str "CRDTDEL"; str "k"; str "7"; str "3"].

Definition demo_start : ctx := Ctx_ (Room ∅ 0 Active 0) (init_shared None ∅).

Definition demo_ds : list bool → list delivery :=
  map (λ b : bool, if b then demo_set else demo_del).

Lemma demo_delivering node l :
  @delivering (calm (demo_config node) 1000) (str "r") 0 (demo_ds l) demo_start.
Proof.
  split; [done|apply calm_reads_ok| |].
  - split; [split; [split; [apply init_cold_ok|apply map_Forall_empty]|]|..]; done.
  - apply Forall_map, Forall_true. intros []; cbn; (split; [|by vm_compute; eexists]).
    + split; [done|]. split; [exists 0; split; [done|]; intros k ?; lia|].
      intros k. eexists. split; [by vm_compute|done].
    + split; [done|]. intros k. eexists. split; [by vm_compute|done].
Qed.

Lemma replicated_writes_refine_join_witness :
  let W := calm (demo_config 2) 1000 in
  entry (str "r") (@deliver W (str "r") [demo_set; demo_del] demo_start).2 (str "k")
  = Some (Version (normalize 7) 3, None).
Proof.
  intros W.
  rewrite (proj2 (@replicated_writes_refine_join W (str "r") 0 (demo_ds [true; false]) _
    (demo_delivering 2 _))). vm_compute. reflexivity.
Defined.

Lemma replicas_converge_witness :
  let W1 := calm (demo_config 2) 1000 in let W2 := calm (demo_config 3) 1000 in
  entry (str "r") (@deliver W1 (str "r") [demo_set; demo_del] demo_start).2 (str "k")
  = entry (str "r") (@deliver W2 (str "r") [demo_del; demo_set; demo_del] demo_start).2 (str "k").
Proof.
  intros W1 W2.
  eapply (replicas_converge W1 W2 (str "r") 0 0 [demo_set; demo_del] [demo_del; demo_set; demo_del]
    demo_start demo_start).
  - apply (demo_delivering 2 [true; false]).
  - apply (demo_delivering 3 [false; true; false]).
  - reflexivity.
  - intros d. rewrite !elem_of_cons, elem_of_nil. tauto.
  - intros key. unfold writes. cbn [omap list_omap]. unfold one_write_per_version.
    set (a := sent demo_set). set (b := sent demo_del). vm_compute in a. vm_compute in b.
    subst a b. cbn [mbind option_bind].
    repeat destruct (decide _); intros w w'; rewrite ?elem_of_cons, ?elem_of_nil;
      intuition (subst; try reflexivity; discriminate).
Defined.
