(* ===== verification/Tombs.v ===== *)
(** * Tombstones: accounting and collection (src/core/crdt.cpp)

    The gauge of tombstones, the watermark below which they are forgotten, and
    what a forgotten tombstone may not cost: a deleted key never comes back
    through a write that lost against the deletion. *)

From S2P Require Import Prelude FsUtil Resp Hlc Config World Types State Cold Aof Keyspace Crdt Convergence.

Definition slots (o : option (gmap bytes version)) : Z := from_option (λ m, Z.of_nat (size m)) 0 o.

Lemma total_tombs_empty : total_tombs ∅ = 0.
Proof. apply map_fold_empty. Qed.

Lemma total_tombs_insert_new t room_name m :
  t !! room_name = None → total_tombs (<[room_name := m]> t) = Z.of_nat (size m) + total_tombs t.
Proof.
  intros Hn. unfold total_tombs. rewrite map_fold_insert_L; [done| |done]. intros. lia.
Qed.

Lemma total_tombs_delete t room_name :
  total_tombs t = slots (t !! room_name) + total_tombs (delete room_name t).
Proof.
  destruct (t !! room_name) as [m|] eqn:Hm; cbn [slots from_option].
  - rewrite <- (insert_delete_id t room_name m) at 1 by done.
    apply total_tombs_insert_new, lookup_delete_eq.
  - by rewrite delete_id.
Qed.

Lemma total_tombs_alter t room_name f :
  total_tombs (partial_alter f room_name t)
  = total_tombs t - slots (t !! room_name) + slots (f (t !! room_name)).
Proof.
  rewrite (total_tombs_delete (partial_alter f room_name t) room_name),
    (total_tombs_delete t room_name), lookup_partial_alter_eq, delete_partial_alter_eq. lia.
Qed.

(** The gauge counts the tombstones, no room keeps an empty table, and every
    tombstone is above the watermark. *)
Record tombs_ok (s : shared) : Prop := {
  to_count : tombstones (met s) = wrap64 (total_tombs (tombs (crdt s)));
  to_full : map_Forall (λ _ m, m ≠ ∅) (tombs (crdt s));
  to_above : ∀ room_name key t,
    tombs_of (crdt s) room_name !! key = Some t → watermark (crdt s) < v_ts t
}.

Lemma slots_of s room_name : slots (tombs s !! room_name) = Z.of_nat (size (tombs_of s room_name)).
Proof. unfold tombs_of. by destruct (tombs s !! room_name). Qed.

Lemma map_Forall_alter {A} (P : A → Prop) (f : option A → option A) (k : bytes) (m : gmap bytes A) :
  map_Forall (λ _, P) m → (∀ x, f (m !! k) = Some x → P x) →
  map_Forall (λ _, P) (partial_alter f k m).
Proof.
  intros Hm Hf k' x. destruct (decide (k' = k)) as [->|Hne].
  - rewrite lookup_partial_alter_eq. apply Hf.
  - rewrite lookup_partial_alter_ne by done. apply Hm.
Qed.

Section tombs.
  Context `{World}.

(** What the invariant reads. *)
Definition same_tombs (s s' : shared) : Prop :=
  tombs (crdt s') = tombs (crdt s) ∧ watermark (crdt s') = watermark (crdt s)
  ∧ tombstones (met s') = tombstones (met s).

Lemma tombs_ok_ext s s' : same_tombs s s' → tombs_ok s → tombs_ok s'.
Proof.
  intros (Ht & Hw & Hm) []. split; rewrite ?Ht, ?Hw, ?Hm; [done..|].
  unfold tombs_of. by rewrite Ht.
Qed.

Lemma same_rest_tombs s s' : same_rest s s' → same_tombs s s'.
Proof. intros [_ Hc _ _ Hm]. split; [by rewrite Hc|]. split; [by rewrite Hc|done]. Qed.

Lemma aof_only_tombs s s' : aof_only s s' → same_tombs s s'.
Proof. intros [_ Hc Hm _ _]. split; [by rewrite Hc|]. split; [by rewrite Hc|by rewrite Hm]. Qed.

Lemma clear_tomb_ok room_name key : preserves tombs_ok (clear_tomb room_name key).
Proof.
  intros s [Hcount Hfull Habove]. unfold clear_tomb. wp_run. rewrite find_tomb_of.
  destruct (tombs_of (crdt s) room_name !! key) as [t|] eqn:Ht; unfold mod_crdt; wp_run; [|done].
  split.
  - cbn. rewrite Hcount, total_tombs_alter, slots_of. fold (tombs_of (crdt s) room_name).
    set (m := tombs_of (crdt s) room_name) in *.
    assert (Hs : Z.of_nat (size m) = Z.of_nat (size (delete key m)) + 1).
    { rewrite map_size_delete_Some by (by eexists).
      assert (size m ≠ 0%nat); [|lia]. apply map_size_ne_0_lookup. eauto. }
    destruct (decide (delete key m = ∅)) as [E|E]; cbn [slots from_option].
    + rewrite E, map_size_empty in Hs. wrap.
    + wrap.
  - cbn. apply map_Forall_alter; [done|]. intros x. destruct (decide _); [done|]. by intros [= <-].
  - intros room' k t'. change (tombs_of (crdt _) room') with (tombs_of (drop_tomb room_name key (crdt s)) room').
    rewrite tombs_of_drop. destruct (decide _); [|apply Habove].
    intros [_ Hk]%lookup_delete_Some. by eapply Habove.
Qed.

Lemma set_tomb_ok room_name key v : preserves tombs_ok (set_tomb room_name key v).
Proof.
  intros s [Hcount Hfull Habove]. unfold set_tomb. wp_run.
  destruct (Z.leb_spec (v_ts v) (watermark (crdt s))) as [Hw|Hw];
    [rewrite orb_true_r; by wp_run|]. rewrite orb_false_r.
  destruct (peer_count =? 0)%nat; wp_run; [done|]. rewrite find_tomb_of.
  assert (Hput : ∀ x s', watermark (crdt s) < v_ts x →
    crdt s' = put_tomb room_name key x (crdt s) →
    map_Forall (λ _ m, m ≠ ∅) (tombs (crdt s'))
    ∧ ∀ room' k t, tombs_of (crdt s') room' !! k = Some t → watermark (crdt s') < v_ts t).
  { intros x s' Hx ->. split.
    - cbn. apply map_Forall_alter; [done|]. intros m [= <-]. apply insert_non_empty.
    - intros room' k t. rewrite tombs_of_put. destruct (decide _); [|apply Habove].
      intros [[_ <-]|[_ Hk]]%lookup_insert_Some; [done|by eapply Habove]. }
  destruct (tombs_of (crdt s) room_name !! key) as [t|] eqn:Ht; unfold mod_crdt; wp_run.
  - assert (Hx : watermark (crdt s) < v_ts (version_max t v)).
    { unfold version_max. destruct (version_ltb t v); [done|by eapply Habove]. }
    match goal with |- tombs_ok ?s' => destruct (Hput _ s' Hx eq_refl) end. split; [|done|done].
    cbn. rewrite Hcount, total_tombs_alter, slots_of. fold (tombs_of (crdt s) room_name).
    cbn [slots from_option]. rewrite map_size_insert_Some by (by eexists). f_equal. lia.
  - match goal with |- tombs_ok ?s' => destruct (Hput _ s' Hw eq_refl) end. split; [|done|done].
    cbn. rewrite Hcount, total_tombs_alter, slots_of. fold (tombs_of (crdt s) room_name).
    cbn [slots from_option]. rewrite map_size_insert_None by done. rewrite Nat2Z.inj_succ. wrap.
Qed.

Lemma sweep_full w t : map_Forall (λ _ m, m ≠ ∅) (sweep w t).
Proof.
  intros room_name m. unfold sweep. rewrite lookup_omap. intros (m' & _ & Hm)%bind_Some.
  destruct (decide _); [done|]. by injection Hm as <-.
Qed.

Lemma collect_ok : preserves tombs_ok collect_tombstones.
Proof.
  intros s [Hcount Hfull Habove]. unfold collect_tombstones. wp_run.
  destruct (heard _) as [n low]. wp_run.
  destruct (_ || _); unfold mod_crdt; wp_run; [done|]. split.
  - cbn. rewrite Hcount. wrap.
  - apply sweep_full.
  - intros room' k t. unfold tombs_of. cbn [upd_tombs upd_watermark upd_crdt upd_met crdt tombs watermark].
    rewrite tombs_of_sweep. by intros [_ Hlt]%map_lookup_filter_Some.
Qed.

Lemma incoming_version_ok ts_arg node_arg s :
  wp (incoming_version ts_arg node_arg) (λ _ s', same_tombs s s' ∧ quiet s s') s.
Proof.
  unfold incoming_version, clock_observe, mod_crdt.
  destruct (parse_u64 ts_arg), (parse_u64 node_arg); wp_run; [|done..].
  destruct (_ <? _); wp_run; [done|]. by destruct (_ <? _); wp_run.
Qed.

Lemma replfrontier_ok args : preserves tombs_ok (handle_replfrontier args).
Proof.
  intros s Hs. unfold handle_replfrontier, clock_next, mod_crdt.
  destruct (length args) as [|[|[|[|]]]]; try by wp_run.
  destruct (parse_u64 (arg args 1)), (parse_u64 (arg args 2)); wp_run; [|done..].
  destruct (_ <? _); wp_run; [done|].
  eapply wp_mono; [apply collect_ok; by eapply tombs_ok_ext; [|exact Hs]|]. intros u s' Hs'. by wp_run.
Qed.

Lemma append_ok room_name args e ts node : preserves tombs_ok (append room_name args e ts node).
Proof.
  intros s Hs. eapply wp_mono; [apply append_only|]. intros b s' Hs'.
  exact (tombs_ok_ext _ _ (aof_only_tombs _ _ Hs') Hs).
Qed.

Lemma record_access_ok key : preserves tombs_ok (record_access key).
Proof. intros s Hs. unfold record_access. wp_run. by apply (tombs_ok_ext s). Qed.

(** The commands of a room. *)
Lemma frame_tombs room_name c c' :
  frame room_name c c' → tombs_ok (c_sh c) → tombs_ok (c_sh c').
Proof. intros Hf. eapply tombs_ok_ext, same_rest_tombs, Hf. Qed.

Lemma put_record_ok room_name key r value f c :
  keys (c_room c) !! key = r → tombs_ok (c_sh c) →
  wp (put_record room_name key r value f) (λ _ c', tombs_ok (c_sh c')) c.
Proof.
  intros Hk Hok. unfold put_record. wp_run.
  assert (Hfirst : wp (match r with Some _ => ret tt
      | None => insert_key key ;; sh (clear_tomb room_name key) end)
    (λ _ c', tombs_ok (c_sh c') ∧ is_Some (keys (c_room c') !! key)) c).
  { destruct r as [r|]; wp_run; [by split; [|exists r]|].
    eapply wp_mono; [by apply (insert_key_spec room_name)|]. intros _ c1 ([Hf1 _] & Hk1 & _).
    wp_run. eapply wp_mono; [eapply clear_tomb_ok; by eapply frame_tombs|]. intros u s1 Hs1.
    split; [done|]. cbn. rewrite Hk1, lookup_insert_eq. by eexists. }
  eapply wp_mono; [exact Hfirst|]. intros _ c1 [Hok1 [r1 Hr1]]. wp_run.
  eapply wp_mono; [by apply (set_value_spec room_name key value r1)|].
  intros _ c2 ([Hf2 _] & _). unfold set_fields. wp_run.
  exact (frame_tombs _ _ _ Hf2 Hok1).
Qed.

Lemma crdtmerge_ok room_name args c :
  good c → tombs_ok (c_sh c) →
  wp (handle_crdtmerge room_name args) (λ _ c', tombs_ok (c_sh c')) c.
Proof.
  intros [Hco Hwf] Hok. unfold handle_crdtmerge. destruct (_ || _); wp_run; [done|].
  destruct (merge_expire args) as [e|]; wp_run; [|done].
  eapply wp_mono; [apply incoming_version_ok|].
  intros res s1 [Ht1 Hq1]. pose proof (tombs_ok_ext _ _ Ht1 Hok) as Hok1.
  destruct res as [err|v]; wp_run; [done|].
  eapply wp_mono; [apply lookup_spec; by eapply quiet_good|].
  intros r c2 (_ & Hf2 & Hk2 & _). wp_run. pose proof (frame_tombs _ _ _ Hf2 Hok1) as Hok2.
  destruct (stale _ _ _ _ _); wp_run; [done|].
  eapply wp_mono; [by apply put_record_ok|]. intros u c3 Hok3. wp_run.
  eapply wp_mono; [by apply record_access_ok|]. intros u' s4 Hok4. wp_run.
  eapply wp_mono; [by apply append_ok|]. intros b s5 Hok5. by wp_run.
Qed.

Lemma crdtdel_ok room_name args c :
  good c → tombs_ok (c_sh c) →
  wp (handle_crdtdel room_name args) (λ _ c', tombs_ok (c_sh c')) c.
Proof.
  intros [Hco Hwf] Hok. unfold handle_crdtdel. destruct (negb _); wp_run; [done|].
  eapply wp_mono; [apply incoming_version_ok|].
  intros res s1 [Ht1 Hq1]. pose proof (tombs_ok_ext _ _ Ht1 Hok) as Hok1.
  destruct res as [err|v]; wp_run; [done|].
  eapply wp_mono; [apply lookup_spec; by eapply quiet_good|].
  intros r c2 (_ & Hf2 & Hk2 & _). wp_run. pose proof (frame_tombs _ _ _ Hf2 Hok1) as Hok2.
  destruct (stale _ _ _ _ _); wp_run; [done|].
  assert (Her : wp (match r with Some _ => erase (arg args 1) | None => ret tt end)
    (λ _ c', tombs_ok (c_sh c')) c2).
  { destruct r; [|done]. eapply wp_mono; [apply (erase_spec room_name)|].
    intros _ c3 ([Hf3 _] & _). by eapply frame_tombs. }
  rewrite (ctx_eta c2). eapply wp_mono; [exact Her|]. intros u c3 Hok3. wp_run.
  eapply wp_mono; [by apply set_tomb_ok|]. intros u' s4 Hok4. wp_run.
  eapply wp_mono; [by apply append_ok|]. intros b s5 Hok5. by wp_run.
Qed.

(** ** Buried keys *)

(** The key is deleted at version [t]: no record, and a tombstone at least as
    new as [t], or a watermark that has passed it. *)
Definition buried (room_name key : bytes) (t : version) (c : ctx) : Prop :=
  view room_name c !! key = None
  ∧ ((∃ t', tombs_of (crdt (c_sh c)) room_name !! key = Some t' ∧ vle t t')
     ∨ v_ts t <= watermark (crdt (c_sh c))).

(** What peers send in any order: frontiers and replicated writes. *)
Inductive event := Frontier (args : list bytes) | Write (d : delivery).

Definition handle (room_name : bytes) (e : event) : M ctx unit :=
  match e with
  | Frontier args => sh (handle_replfrontier args) ;; ret tt
  | Write d => run room_name d
  end.

(** A merge of this key is not newer than [t]; anything else is. *)
Definition late (key : bytes) (t : version) (e : event) : Prop :=
  match e with
  | Write (Merge args) => arg args 1 = key →
      ∀ v, sent_version (arg args 3) (arg args 4) = Some v → vle v t
  | _ => True
  end.

Record grave (room_name key : bytes) (t : version) (c : ctx) : Prop := {
  gr_tidy : tidy room_name c;
  gr_tombs : tombs_ok (c_sh c);
  gr_buried : buried room_name key t c
}.

(** A write that is not newer than the deletion loses. *)
Lemma buried_loses room_name key t v c :
  tombs_ok (c_sh c) → buried room_name key t c → vle v t →
  loses (view room_name c !! key) (tombs_of (crdt (c_sh c)) room_name !! key)
    (watermark (crdt (c_sh c))) v = true.
Proof.
  intros Hok [-> Hb] Hv. cbn [loses].
  assert (Hts : v_ts v <= v_ts t).
  { unfold vle, version_leb, version_ltb in Hv. apply negb_true_iff in Hv. lia. }
  destruct (tombs_of (crdt (c_sh c)) room_name !! key) as [t''|] eqn:Ht.
  - destruct Hb as [(t' & [= ->] & Ht')|Hw]; [exact (transitivity Hv Ht')|].
    pose proof (to_above _ Hok _ _ _ Ht). unfold version_leb, version_ltb. lia.
  - destruct Hb as [(t' & [=] & _)|Hw]. apply Z.leb_le. lia.
Qed.

Lemma prune_none now key' key V : V !! key = None → prune now key' V !! key = None.
Proof.
  intros Hn. destruct (decide (key' = key)) as [->|Hne].
  - rewrite prune_lookup. by rewrite Hn.
  - by rewrite prune_lookup_ne.
Qed.

Lemma buried_ext room_name key t c c' :
  buried room_name key t c → view room_name c' !! key = None →
  tombs_of (crdt (c_sh c')) room_name !! key = tombs_of (crdt (c_sh c)) room_name !! key →
  watermark (crdt (c_sh c')) = watermark (crdt (c_sh c)) → buried room_name key t c'.
Proof. intros [_ Hb] Hv Ht Hw. unfold buried. by rewrite Ht, Hw. Qed.

Lemma vle_ts a b : vle a b → v_ts a <= v_ts b.
Proof. unfold vle, version_leb, version_ltb. intros H1%negb_true_iff. lia. Qed.

(** What a collection did: nothing, or every peer has reported and the new
    watermark is the smallest of their frontiers. *)
Definition collected (s s' : shared) : Prop :=
  (watermark (crdt s') = watermark (crdt s) ∧ tombs (crdt s') = tombs (crdt s))
  ∨ (peer_count ≠ 0%nat ∧ watermark (crdt s) < watermark (crdt s')
     ∧ Z.of_nat peer_count <= (heard (frontiers (crdt s'))).1
     ∧ watermark (crdt s') = (heard (frontiers (crdt s'))).2
     ∧ tombs (crdt s') = sweep (watermark (crdt s')) (tombs (crdt s))).

Lemma collect_spec s :
  wp collect_tombstones (λ _ s', quiet s s' ∧ aof s' = aof s ∧ collected s s') s.
Proof.
  unfold collect_tombstones, collected. wp_run.
  destruct (heard _) as [n low] eqn:Hheard. wp_run.
  destruct (Nat.eqb_spec peer_count 0) as [?|Hp]; cbn [orb]; wp_run.
  { repeat (split; [done|]). by left. }
  destruct (Z.ltb_spec n (Z.of_nat peer_count)) as [?|Hn]; cbn [orb]; wp_run.
  { repeat (split; [done|]). by left. }
  destruct (Z.leb_spec low (watermark (crdt s))) as [?|Hl]; cbn [orb]; wp_run.
  { repeat (split; [done|]). by left. }
  unfold mod_crdt. wp_run. split; [done|]. split; [done|]. right.
  cbn [upd_crdt upd_met upd_tombs upd_watermark crdt frontiers watermark tombs]. rewrite Hheard. done.
Qed.

Lemma replfrontier_spec args s :
  wp (handle_replfrontier args)
    (λ _ s', quiet s s' ∧ aof s' = aof s ∧ collected s s') s.
Proof.
  unfold handle_replfrontier, clock_next, mod_crdt.
  destruct (length args) as [|[|[|[|]]]]; try (wp_run; repeat (split; [done|]); by left).
  destruct (parse_u64 (arg args 1)) as [node|], (parse_u64 (arg args 2)) as [f|]; wp_run;
    try (repeat (split; [done|]); by left).
  destruct (_ <? _); wp_run; [repeat (split; [done|]); by left|].
  eapply wp_mono; [apply collect_spec|]. intros u s' (Hq & Ha & Hc). wp_run.
  split; [|by split]. etrans; [|exact Hq]. done.
Qed.

(** The arguments of REPLFRONTIER: a node and its frontier. *)
Definition reports (args : list bytes) (node f : Z) : Prop :=
  ∃ name, args = [name; arg args 1; arg args 2] ∧ parse_u64 (arg args 1) = Some node
    ∧ parse_u64 (arg args 2) = Some f ∧ node <= UINT32_MAX.

(** [heard] counts the other nodes and finds the smallest of their frontiers. *)
Lemma heard_spec fs :
  map_Forall (λ _ f, is_u64 f) fs →
  (heard fs).1 = Z.of_nat (size (delete local_node_id fs))
  ∧ (∀ n f, delete local_node_id fs !! n = Some f → (heard fs).2 <= f)
  ∧ ((heard fs).2 = UINT64_MAX ∧ delete local_node_id fs = ∅
     ∨ ∃ n, delete local_node_id fs !! n = Some ((heard fs).2)).
Proof.
  unfold heard. induction fs as [|node f m Hm Hfold IH] using map_first_key_ind; intros Hu.
  { rewrite map_fold_empty, delete_empty. split; [done|]. split; [done|by left]. }
  rewrite map_fold_insert_first_key by done. rewrite map_Forall_insert in Hu by done. destruct Hu as [Hf Hu].
  specialize (IH Hu). destruct (map_fold _ (0, UINT64_MAX) m) as [k low]. destruct IH as (H1 & H2 & H3). cbn [fst snd] in *.
  destruct (Z.eqb_spec node local_node_id) as [->|Hne].
  { rewrite delete_insert_eq, (delete_id m) in * by done. split_and!; done. }
  rewrite delete_insert_ne by done. cbn [fst snd]. split; [|split].
  - rewrite H1, map_size_insert_None by (by rewrite lookup_delete_ne). lia.
  - intros n g [[<- <-]|[Hn Hg]]%lookup_insert_Some; [lia|]. pose proof (H2 _ _ Hg). lia.
  - right. destruct (Z.le_gt_cases f low) as [Hle|Hgt].
    + exists node. rewrite lookup_insert_eq. f_equal. lia.
    + destruct H3 as [[-> _]|[n Hn]]; [ulia|]. exists n.
      rewrite lookup_insert_ne by (intros <-; by rewrite lookup_delete_ne in Hn; congruence).
      rewrite Hn. f_equal. lia.
Qed.

(** The collection, when the frontiers are numbers of 64 bits. *)
Lemma collect_cases s :
  map_Forall (λ _ f, is_u64 f) (frontiers (crdt s)) →
  wp collect_tombstones (λ _ s',
    frontiers (crdt s') = frontiers (crdt s) ∧ frontier (crdt s') = frontier (crdt s)
    ∧ clock (crdt s') = clock (crdt s)
    ∧ let peers := delete local_node_id (frontiers (crdt s')) in
      let passed := peer_count ≠ 0%nat ∧ (peer_count ≤ size peers)%nat
        ∧ ∀ n g, peers !! n = Some g → watermark (crdt s) < g in
      (¬ passed → watermark (crdt s') = watermark (crdt s) ∧ tombs (crdt s') = tombs (crdt s))
      ∧ (passed → (∃ n, peers !! n = Some (watermark (crdt s')))
           ∧ (∀ n g, peers !! n = Some g → watermark (crdt s') <= g)
           ∧ tombs (crdt s') = sweep (watermark (crdt s')) (tombs (crdt s)))) s.
Proof.
  intros Hu. unfold collect_tombstones. wp_run. pose proof (heard_spec _ Hu) as (H1 & H2 & H3).
  destruct (heard _) as [n low]. cbn [fst snd] in *. wp_run. set (peers := delete _ _) in *.
  assert (Hcond : (peer_count =? 0)%nat || (n <? Z.of_nat peer_count) || (low <=? watermark (crdt s)) = false
    ↔ peer_count ≠ 0%nat ∧ (peer_count ≤ size peers)%nat ∧ ∀ i g, peers !! i = Some g → watermark (crdt s) < g).
  { rewrite !orb_false_iff, Nat.eqb_neq, Z.ltb_ge, Z.leb_gt. split.
    - intros [[Hp Hn] Hlow]. split_and!; [done|lia|]. intros i g Hg. pose proof (H2 _ _ Hg). lia.
    - intros (Hp & Hn & Hall). split_and!; [done|lia|]. destruct H3 as [[_ He]|[i Hi]]; [|by apply Hall in Hi].
      rewrite He, map_size_empty in Hn. lia. }
  destruct (_ || _ || _) eqn:E; unfold mod_crdt; wp_run; (split_and!; [done..| |]); fold peers.
  - by intros _.
  - intros Hp. by apply Hcond in Hp.
  - intros Hp. exfalso. apply Hp. by apply Hcond.
  - intros Hp. cbn. split_and!; [|done..]. destruct H3 as [[_ He]|H3]; [|done].
    destruct Hp as (? & Hn & _). change (peer_count ≤ size peers)%nat in Hn. rewrite He, map_size_empty in Hn. lia.
Qed.

Lemma replfrontier_cases args s :
  map_Forall (λ _ f, is_u64 f) (frontiers (crdt s)) →
  wp (handle_replfrontier args) (λ rep s',
    ((∀ node f, ¬ reports args node f) → rep = reply "-ERR usage: REPLFRONTIER node frontier" ∧ s' = s)
    ∧ ∀ node f, reports args node f →
      rep = reply "+OK" ∧ frontier (crdt s') = clock (crdt s')
      ∧ frontiers (crdt s') !! node
        = Some (match frontiers (crdt s) !! node with Some known => Z.max known f | None => f end)
      ∧ (∀ other, other ≠ node → frontiers (crdt s') !! other = frontiers (crdt s) !! other)
      ∧ let peers := delete local_node_id (frontiers (crdt s')) in
        let passed := peer_count ≠ 0%nat ∧ (peer_count ≤ size peers)%nat
          ∧ ∀ n g, peers !! n = Some g → watermark (crdt s) < g in
        (¬ passed → watermark (crdt s') = watermark (crdt s) ∧ tombs (crdt s') = tombs (crdt s))
        ∧ (passed → (∃ n, peers !! n = Some (watermark (crdt s')))
             ∧ (∀ n g, peers !! n = Some g → watermark (crdt s') <= g)
             ∧ tombs (crdt s') = sweep (watermark (crdt s')) (tombs (crdt s)))) s.
Proof.
  intros Hu. unfold handle_replfrontier.
  assert (Hbad : (∀ node f, ¬ reports args node f) →
    (reply "-ERR usage: REPLFRONTIER node frontier" = reply "-ERR usage: REPLFRONTIER node frontier" ∧ s = s)) by done.
  destruct args as [|name [|a [|b [|? ?]]]]; cbn [length arg nth];
    try (by (wp_run; split; [done|]; intros node f (? & [=] & _))).
  change (arg [name; a; b] 1) with a. change (arg [name; a; b] 2) with b.
  assert (Hrep : ∀ node f, reports [name; a; b] node f ↔
    parse_u64 a = Some node ∧ parse_u64 b = Some f ∧ node <= UINT32_MAX).
  { intros node f. unfold reports. split; [intros (? & _ & H'); exact H'|]. intros H'. by exists name. }
  destruct (parse_u64 a) as [node|] eqn:Ea; [destruct (parse_u64 b) as [f|] eqn:Eb|];
    try (wp_run; split; [done|]; intros node' f' (? & ? & _)%Hrep; done).
  destruct (Z.ltb_spec UINT32_MAX node) as [Hgt|Hle]; wp_run.
  { split; [done|]. intros node' f' ([= <-] & _ & ?)%Hrep. lia. }
  unfold clock_next, mod_crdt. wp_run.
  assert (Hf : is_u64 f) by (by apply parse_u64_spec in Eb as (_ & _ & _ & ?)).
  set (known := default 0 (frontiers (crdt s) !! node)).
  assert (Hk : Z.max known f = match frontiers (crdt s) !! node with Some k => Z.max k f | None => f end).
  { unfold known. destruct (frontiers (crdt s) !! node); cbn; [done|]. ulia. }
  assert (Hku : is_u64 (Z.max known f)).
  { rewrite Hk. destruct (frontiers (crdt s) !! node) as [k|] eqn:Hl; [|done]. apply Hu in Hl. ulia. }
  eapply wp_mono; [apply collect_cases; by apply map_Forall_insert_2|].
  intros _ s' (H1 & H2 & H3 & H4). wp_run.
  split; [intros Hno; exfalso; by apply (Hno node f), Hrep|].
  intros node' f' ([= <-] & [= <-] & _)%Hrep. cbn in H1, H2, H3. rewrite H2, H3. split; [done|]. split; [done|].
  split; [rewrite H1, lookup_insert_eq; by rewrite <- Hk|].
  split; [intros other Ho; by rewrite H1, lookup_insert_ne by done|]. exact H4.
Qed.

Lemma tombs_of_ext s s' room_name : tombs s' = tombs s → tombs_of s' room_name = tombs_of s room_name.
Proof. intros Ht. unfold tombs_of. by rewrite Ht. Qed.

(** A collection keeps a key buried. *)
Lemma collected_buried room_name key t c s' :
  quiet (c_sh c) s' → collected (c_sh c) s' →
  buried room_name key t c → buried room_name key t (Ctx_ (c_room c) s').
Proof.
  intros Hq Hc [Hv Hb]. destruct c as [r s]. cbn [c_sh c_room] in *. split.
  { by erewrite quiet_view. }
  destruct Hc as [[Hw Ht]|(_ & Hw & _ & _ & Ht)]; cbn [c_sh].
  { by rewrite Hw, (tombs_of_ext _ _ _ Ht). }
  destruct Hb as [(t' & Hk & Hle)|Hle]; [|right; lia].
  assert (Hs : tombs_of (crdt s') room_name
    = filter (λ p, watermark (crdt s') < v_ts p.2) (tombs_of (crdt s) room_name)).
  { unfold tombs_of at 1. rewrite Ht. apply tombs_of_sweep. }
  destruct (decide (watermark (crdt s') < v_ts t')) as [Hlt|Hge].
  - left. exists t'. split; [|done]. rewrite Hs. by apply map_lookup_filter_Some.
  - right. pose proof (vle_ts _ _ Hle). lia.
Qed.

(** One event keeps the grave. *)
Lemma handle_grave room_name key t e c :
  reads_ok → grave room_name key t c → late key t e →
  wp (handle room_name e) (λ _ c', grave room_name key t c') c.
Proof.
  intros Hreads [Htidy Hok Hb] Hlate. destruct e as [args|[args|args]]; cbn [handle run]; wp_run.
  - pose proof (replfrontier_ok args _ Hok) as Hok'.
    eapply wp_mono; [exact (wp_and _ _ _ _ Hok' (replfrontier_spec args (c_sh c)))|].
    intros _ s' (Hok1 & Hq & _ & Hc). wp_run. split; [|done|by apply collected_buried].
    destruct c. by eapply quiet_tidy.
  - destruct (decide (5 ≤ length args ≤ 6)%nat) as [Hlen|Hlen].
    2:{ unfold wp. by rewrite bad_merge by (by left). }
    destruct (merge_expire args) as [e|] eqn:He; [|unfold wp; by rewrite bad_merge by (by right)].
    pose proof (crdtmerge_spec room_name args e c Htidy Hreads Hlen He) as Hspec. cbv zeta in Hspec.
    eapply wp_mono; [exact (wp_and _ _ _ _ (crdtmerge_ok _ _ _ (ti_good _ _ Htidy) Hok) Hspec)|].
    intros rep c' (Hok' & Hkept & Hpost). wp_run. split; [apply Hkept|done|].
    pose proof (ke_wm _ _ _ Hkept) as Hw.
    destruct (accepted _ _ _) as [v|] eqn:Hacc.
    2:{ destruct Hpost as (HV & Hc & _). eapply buried_ext; [done|rewrite HV; apply Hb|by rewrite Hc|done]. }
    destruct Hpost as [_ Hpost]. set (V1 := prune _ _ _) in *.
    assert (HV1 : V1 !! key = None) by (apply prune_none, Hb).
    destruct (loses (V1 !! _) _ _ v) eqn:Hl.
    { destruct Hpost as (_ & HV & HT & _). eapply buried_ext; [done|by rewrite HV|by rewrite HT|done]. }
    destruct Hpost as (_ & HV & HT & _).
    destruct (decide (arg args 1 = key)) as [Hk|Hne].
    + exfalso. pose proof (buried_loses room_name key t v c Hok Hb) as Hbl.
      rewrite <- Hk in Hbl at 1 2. rewrite Hk, HV1 in Hl.
      rewrite Hk, (proj1 Hb), Hl in Hbl.
      specialize (Hbl (Hlate Hk v (accepted_sent _ _ _ _ Hacc))). done.
    + eapply buried_ext; [done|by rewrite HV, lookup_insert_ne| |done].
      rewrite HT. destruct (V1 !! arg args 1); [done|]. by rewrite lookup_delete_ne.
  - destruct (decide (length args = 4%nat)) as [Hwell|Hlen]; [|unfold wp; by rewrite bad_del].
    pose proof (crdtdel_spec room_name args c Htidy Hreads Hwell) as Hspec. cbv zeta in Hspec.
    eapply wp_mono; [exact (wp_and _ _ _ _ (crdtdel_ok _ _ _ (ti_good _ _ Htidy) Hok) Hspec)|].
    intros rep c' (Hok' & Hkept & Hpost). wp_run. split; [apply Hkept|done|].
    pose proof (ke_wm _ _ _ Hkept) as Hw.
    destruct (accepted _ _ _) as [v|] eqn:Hacc.
    2:{ destruct Hpost as (HV & Hc & _). eapply buried_ext; [done|rewrite HV; apply Hb|by rewrite Hc|done]. }
    destruct Hpost as [_ Hpost]. set (V1 := prune _ _ _) in *.
    assert (HV1 : V1 !! key = None) by (apply prune_none, Hb).
    destruct (loses (V1 !! _) _ _ v) eqn:Hl.
    { destruct Hpost as (_ & HV & HT & _). eapply buried_ext; [done|by rewrite HV|by rewrite HT|done]. }
    destruct Hpost as (_ & HV & HT & _).
    assert (HV' : view room_name c' !! key = None).
    { rewrite HV. destruct (decide (arg args 1 = key)) as [->|Hne]; [apply lookup_delete_eq|].
      rewrite lookup_delete_ne by done. apply Hb. }
    destruct (decide (arg args 1 = key ∧ peer_count ≠ 0%nat ∧ watermark (crdt (c_sh c)) < v_ts v))
      as [(Hk & Hp)|Hne].
    + rewrite decide_True in HT by done. split; [done|]. rewrite HT, Hk, lookup_insert_eq, Hw.
      destruct (proj2 Hb) as [(t' & Ht' & Hle)|Hle]; [|by right]. left.
      eexists. split; [done|]. rewrite Ht'. trans t'; [done|]. apply version_max_l.
    + eapply buried_ext; [done|done| |done]. rewrite HT. destruct (decide _) as [Hp|]; [|done].
      apply lookup_insert_ne. intros Hk. by apply Hne.
Qed.

End tombs.

(** ** Claims *)

Section claims.
  Context `{World}.

(** C32: What a REPLFRONTIER does. Arguments that are not a node of 32 bits and a
    frontier of 64 change nothing. Otherwise the frontier of the sender becomes
    the largest it has reported, those of the other senders stay, and this node
    announces its clock. Of the senders other than this node, at least
    [peer_count] must have reported and each beyond the watermark, with
    replication on; then the watermark becomes the smallest of their frontiers,
    and exactly the tombstones it passes are dropped; if one of these conditions
    fails, watermark and tombstones stay as they are. The tombstone gauge keeps
    counting the tombstones, and stored keys, cold storage and AOF are
    untouched. *)
Theorem tombstone_collection_sound args s :
  tombs_ok s → map_Forall (λ _ f, is_u64 f) (frontiers (crdt s)) →
  let '(rep, s') := handle_replfrontier args s in
  tombs_ok s' ∧ quiet s s' ∧ aof s' = aof s
  ∧ ((∀ node f, ¬ reports args node f) → rep = reply "-ERR usage: REPLFRONTIER node frontier" ∧ s' = s)
  ∧ ∀ node f, reports args node f →
      rep = reply "+OK" ∧ frontier (crdt s') = clock (crdt s')
      ∧ frontiers (crdt s') !! node
        = Some (match frontiers (crdt s) !! node with Some known => Z.max known f | None => f end)
      ∧ (∀ other, other ≠ node → frontiers (crdt s') !! other = frontiers (crdt s) !! other)
      ∧ let peers := delete local_node_id (frontiers (crdt s')) in
        let passed := peer_count ≠ 0%nat ∧ (peer_count ≤ size peers)%nat
          ∧ ∀ n g, peers !! n = Some g → watermark (crdt s) < g in
        (¬ passed → watermark (crdt s') = watermark (crdt s) ∧ tombs (crdt s') = tombs (crdt s))
        ∧ (passed →
             (∃ n, peers !! n = Some (watermark (crdt s')))
             ∧ (∀ n g, peers !! n = Some g → watermark (crdt s') <= g)
             ∧ ∀ room_name key t,
                 tombs_of (crdt s') room_name !! key = Some t
                 ↔ tombs_of (crdt s) room_name !! key = Some t ∧ watermark (crdt s') < v_ts t).
Proof.
  intros Hok Hu. pose proof (replfrontier_spec args s) as Hw. pose proof (replfrontier_ok args s Hok) as Hok'.
  pose proof (replfrontier_cases args s Hu) as Hc. unfold wp in *.
  destruct (handle_replfrontier args s) as [rep s']. cbn [fst snd] in *. destruct Hw as (Hq & Ha & _), Hc as [Hbad Hgood].
  split_and!; try done. intros node f Hr. destruct (Hgood node f Hr) as (Hrep & Hfr & Hn & Ho & Hno & Hyes).
  split_and!; try done. intros Hp. destruct (Hyes Hp) as (H1 & H2 & H3). split_and!; try done.
  intros room_name key t. unfold tombs_of at 1. rewrite H3, tombs_of_sweep. apply map_lookup_filter_Some.
Qed.

(** C12: A deleted key never comes back through a late write (crdt.cpp: without
    the watermark the deleted keys would be resurrected). From a state in
    which the key is deleted at version [t], any sequence of frontiers (each
    may collect tombstones), replicated deletions and replicated writes whose
    versions for this key do not exceed [t] leaves the key absent, in RAM and
    in the cold storage; the room's invariant and the tombstone accounting
    hold at the end. *)
Theorem deleted_keys_stay_deleted room_name key t events c :
  reads_ok → grave room_name key t c → Forall (late key t) events →
  let c' := (for_each events (handle room_name) c).2 in
  view room_name c' !! key = None ∧ grave room_name key t c'.
Proof.
  intros Hreads Hg Hlate.
  assert (Hg' : wp (for_each events (handle room_name)) (λ _ c', grave room_name key t c') c).
  { revert c Hg. induction Hlate as [|e es He _ IH]; intros c Hg; cbn [for_each]; wp_run; [done|].
    eapply wp_mono; [by apply handle_grave|]. intros u c1 Hg1. by apply IH. }
  split; [|exact Hg']. apply Hg'.
Qed.

End claims.

Definition demo_grave : ctx :=
  (@run (calm (demo_config 2) 1000) (str "r") demo_del demo_start).2.

Lemma demo_grave_grave :
  grave (str "r") (str "k") (Version (normalize 7) 3) demo_grave.
Proof.
  pose (W := calm (demo_config 2) 1000).
  pose proof (@demo_delivering 2 [false]) as Hd.
  assert (Hg : good demo_start) by (split; [apply init_cold_ok|apply map_Forall_empty]).
  assert (Ht : tombs_ok (c_sh demo_start)).
  { split; [reflexivity|apply map_Forall_empty|]. done. }
  split.
  - destruct (@deliver_folds W _ _ _ _ Hd) as [Hrep _]. apply Hrep.
  - assert (Hw : wp (@run W (str "r") demo_del) (λ _ c', tombs_ok (c_sh c')) demo_start).
    { cbn [run demo_del]. wp_run. eapply wp_mono; [by apply (@crdtdel_ok W)|]. intros rep c' Hc'. by wp_run. }
    exact Hw.
  - split; [by vm_compute|]. left. eexists. split; [by vm_compute|done].
Qed.

(** Three nodes: the local one, 2, has reported too, and does not count. *)
Lemma tombstone_collection_sound_witness :
  let W := calm (demo_config 2) 1000 in
  let args := [str "REPLFRONTIER"; str "3"; str "999999999999999"] in
  let s := upd_crdt (upd_frontiers (λ _, {[2 := 5]})) (c_sh demo_grave) in
  let s' := (@handle_replfrontier W args s).2 in
  watermark (crdt s') = 999999999999999 ∧ tombs_of (crdt s') (str "r") !! str "k" = None.
Proof.
  intros W args s s'.
  pose proof (@tombstone_collection_sound W args s) as Ht.
  assert (Hok : tombs_ok s) by (destruct (gr_tombs _ _ _ _ demo_grave_grave); by split).
  specialize (Ht Hok ltac:(apply map_Forall_singleton; vm_compute; split; discriminate)).
  change s' with (handle_replfrontier args s).2. destruct (handle_replfrontier args s) as [rep s1] eqn:E.
  destruct Ht as (_ & _ & _ & _ & Ht).
  destruct (Ht 3 999999999999999) as (_ & _ & Hn & Ho & _ & Hyes).
  { exists (str "REPLFRONTIER"). split_and!; [done|by vm_compute..|vm_compute; discriminate]. }
  assert (Hf : frontiers (crdt s1) = <[3 := 999999999999999]> {[2 := 5]}).
  { apply map_eq. intros n. destruct (decide (n = 3)) as [->|Hne]; [rewrite Hn; by vm_compute|].
    rewrite Ho, lookup_insert_ne by done. done. }
  rewrite Hf in Hyes. change (@local_node_id W) with 2 in Hyes.
  destruct Hyes as ((n & Hw) & _ & Hiff).
  { split_and!; [by vm_compute|vm_compute; lia|]. intros n g.
    rewrite delete_insert_ne, lookup_insert_Some by done.
    intros [[<- <-]|[_ Hg]]; [by vm_compute|by rewrite delete_singleton_eq in Hg]. }
  rewrite delete_insert_ne, delete_singleton_eq in Hw by done.
  apply lookup_singleton_Some in Hw as [_ Hw]. cbn [snd]. rewrite <- Hw. split; [done|].
  destruct (tombs_of (crdt s1) (str "r") !! str "k") as [t|] eqn:Ek; [|done]. exfalso.
  apply Hiff in Ek as [Ek Hlt]. rewrite <- Hw in Hlt. revert Ek Hlt. vm_compute. intros [= <-]. done.
Defined.

Lemma demo_set_late : late (str "k") (Version (normalize 7) 3) (Write demo_set).
Proof.
  unfold late, demo_set. intros _ v Hv. vm_compute in Hv. injection Hv as <-. by vm_compute.
Qed.

(** The deletion, its collection, then the older write once more. *)
Lemma deleted_keys_stay_deleted_witness :
  let W := calm (demo_config 2) 1000 in
  let events := [Write demo_set; Frontier [str "REPLFRONTIER"; str "3"; str "999999999999999"];
                 Write demo_set] in
  view (str "r") (for_each events (@handle W (str "r")) demo_grave).2 !! str "k" = None.
Proof.
  intros W events.
  refine (proj1 (@deleted_keys_stay_deleted W (str "r") (str "k") (Version (normalize 7) 3) events
    demo_grave (calm_reads_ok _ _) demo_grave_grave _)).
  apply Forall_cons_2; [exact demo_set_late|].
  apply Forall_cons_2; [exact I|].
  apply Forall_cons_2; [exact demo_set_late|apply Forall_nil_2].
Defined.
