(* ===== verification/Effects.v ===== *)
(** * Effects of the shared steps of the commands

    What [lookup], the clock, the record write and the AOF append do to the
    logical store of a room, in the form the command proofs compose: each step
    is [kept] (invariant, accounting, other rooms), with the new logical map,
    tombstones, clock and log. *)

From S2P Require Import Prelude FsUtil Hlc Config World Types State Cold Aof Keyspace Crdt.

Section effects.
  Context `{World}.

(** A reading of the clock during this run. *)
Definition reading (now : Z) : Prop := ∃ k, now = wall k + cfg_clock_offset_ms cfg.

Lemma clock_at_reading s : reading (clock_at s).
Proof. by eexists. Qed.

Lemma kept_trans room_name c1 c2 c3 :
  kept room_name c1 c2 → kept room_name c2 c3 → kept room_name c1 c3.
Proof.
  intros [_ H1 Hw1 Hf1 Ht1] [Hti H2 Hw2 Hf2 Ht2]. split; [done|by trans c2|congruence..|].
  intros room' Hne. by rewrite Ht2, Ht1.
Qed.

Lemma kept_refl room_name c : tidy room_name c → kept room_name c c.
Proof. by split. Qed.

(** A step that keeps the stores: only clock, tombstones of the room, log. *)
Lemma kept_quiet room_name r s s' :
  tidy room_name (Ctx_ r s) → quiet s s' →
  watermark (crdt s') = watermark (crdt s) → frontiers (crdt s') = frontiers (crdt s) →
  (∀ room', room' ≠ room_name → tombs_of (crdt s') room' = tombs_of (crdt s) room') →
  kept room_name (Ctx_ r s) (Ctx_ r s').
Proof.
  intros Hti Hq Hw Hf Ht. split; [by eapply quiet_tidy|by apply quiet_hstep|done..].
Qed.

(** Nothing but counters, the sketch and the system's answers. *)
Definition still (room_name : bytes) (c c' : ctx) : Prop :=
  kept room_name c c' ∧ view room_name c' = view room_name c
  ∧ crdt (c_sh c') = crdt (c_sh c) ∧ aof (c_sh c') = aof (c_sh c).

Lemma still_quiet room_name r s s' :
  tidy room_name (Ctx_ r s) → quiet s s' → crdt s' = crdt s → aof s' = aof s →
  still room_name (Ctx_ r s) (Ctx_ r s').
Proof.
  intros Hti Hq Hc Ha. split; [apply kept_quiet; by rewrite ?Hc|]. split; [by apply quiet_view|done].
Qed.

Lemma still_trans room_name c1 c2 c3 :
  still room_name c1 c2 → still room_name c2 c3 → still room_name c1 c3.
Proof.
  intros (Hk1 & Hv1 & Hc1 & Ha1) (Hk2 & Hv2 & Hc2 & Ha2).
  split; [by eapply kept_trans|]. split; [by rewrite Hv2|split; congruence].
Qed.

Lemma still_tidy room_name c c' : still room_name c c' → tidy room_name c'.
Proof. intros [Hk _]. apply Hk. Qed.

Lemma lookup_kept room_name key c :
  tidy room_name c → reads_ok →
  wp (lookup room_name key) (λ r c', kept room_name c c'
    ∧ crdt (c_sh c') = crdt (c_sh c) ∧ aof (c_sh c') = aof (c_sh c)
    ∧ keys (c_room c') !! key = r ∧ cold_view (cold (c_sh c')) room_name !! key = None
    ∧ r = live (clock_at (c_sh c)) (view room_name c !! key)
    ∧ view room_name c' = prune (clock_at (c_sh c)) key (view room_name c)) c.
Proof.
  intros Hti Hreads. eapply wp_mono; [by apply lookup_prune|].
  intros r c' (Hti' & Hf & Hk & Hcv & Hr & Hv).
  destruct (fr_rest _ _ _ Hf) as [Ha Hc _ _ _].
  split; [split|]; rewrite ?Hc; try done. by apply frame_hstep.
Qed.

Lemma clock_next_spec now o s :
  wp (clock_next now o) (λ v s', v = next now o (clock (crdt s))
    ∧ crdt s' = upd_clock (λ _, v) (crdt s) ∧ quiet s s' ∧ aof s' = aof s) s.
Proof. unfold clock_next, mod_crdt. by wp_run. Qed.

(** [put_record] and the access that follows it. *)
Lemma write_record room_name key r value f c :
  tidy room_name c → keys (c_room c) !! key = r →
  cold_view (cold (c_sh c)) room_name !! key = None →
  (∀ x, r_value (f x) = r_value x) →
  wf_record (f (with_value value (default new_record r))) →
  wp (put_record room_name key r value f ;; sh (record_access key)) (λ _ c',
    kept room_name c c'
    ∧ view room_name c' = <[key := f (with_value value (default new_record r))]> (view room_name c)
    ∧ tombs_of (crdt (c_sh c')) room_name
      = (match r with Some _ => tombs_of (crdt (c_sh c)) room_name
         | None => delete key (tombs_of (crdt (c_sh c)) room_name) end)
    ∧ clock (crdt (c_sh c')) = clock (crdt (c_sh c)) ∧ aof (c_sh c') = aof (c_sh c)) c.
Proof.
  intros Hti Hk Hcold Hf Hwf. wp_run.
  eapply wp_mono; [by apply put_record_spec; [apply Hti|..]|].
  intros _ c1 (Hg1 & Hh1 & Hk1 & Hcv1 & Ha1 & Hcl1 & Hwm1 & Hfr1 & Ht1).
  unfold record_access. wp_run. destruct c1 as [rm s1]. cbn [c_room c_sh] in *.
  set (s2 := upd_cold _ s1). assert (Hq : quiet s1 s2) by done.
  assert (Hti1 : tidy room_name (Ctx_ rm s1)).
  { split; [done|]. eapply (disjoint_insert room_name c); [exact Hk1|by rewrite Hcv1|done|apply Hti]. }
  split; [|split; [|split]].
  - eapply kept_trans; [split|apply (kept_quiet _ _ _ _ Hti1 Hq); done]; try done.
    intros room' Hne. cbn. by rewrite Ht1, decide_False by (by intros [? _]).
  - rewrite (quiet_view room_name rm s1 s2 Hq). by apply view_insert; [..|cbn; rewrite Hcv1].
  - cbn. rewrite Ht1. destruct r; [by rewrite decide_False by (by intros [_ ?])|by rewrite decide_True].
  - done.
Qed.

Lemma append_kept room_name args e ts node r s :
  tidy room_name (Ctx_ r s) →
  wp (append room_name args e ts node) (λ _ s', kept room_name (Ctx_ r s) (Ctx_ r s')
    ∧ view room_name (Ctx_ r s') = view room_name (Ctx_ r s)
    ∧ crdt s' = crdt s ∧ logs room_name args e ts node s s') s.
Proof.
  intros Hti. eapply wp_mono; [apply append_logs|]. intros b s' [Ha Hl].
  pose proof (aof_only_quiet _ _ Ha) as Hq. pose proof (ao_crdt _ _ Ha) as Hc.
  split; [apply kept_quiet; by rewrite ?Hc|]. split; [by apply quiet_view|done].
Qed.

(** Fields of a resident record other than its value. *)
Lemma fields_kept room_name key f r c :
  tidy room_name c → keys (c_room c) !! key = Some r →
  cold_view (cold (c_sh c)) room_name !! key = None →
  r_value (f r) = r_value r → wf_record (f r) →
  wp (set_fields key f) (λ _ c', kept room_name c c'
    ∧ view room_name c' = <[key := f r]> (view room_name c)
    ∧ crdt (c_sh c') = crdt (c_sh c) ∧ aof (c_sh c') = aof (c_sh c)) c.
Proof.
  intros Hti Hk Hcold Hf Hwf. eapply wp_mono; [by apply (set_fields_spec room_name key f r)|].
  intros _ c' ([Hfr Hc] & Hk' & _). destruct (fr_rest _ _ _ Hfr) as [Ha Hcr _ _ _].
  split; [|split; [|done]].
  - split; rewrite ?Hcr; try done; [|by apply frame_hstep].
    destruct Hti as [[Hco Hw] Hd]. split; [split; [by rewrite Hc|]|].
    + rewrite Hk'. by apply map_Forall_insert_2.
    + eapply (disjoint_insert room_name c); [exact Hk'|by rewrite Hc|done|done].
  - apply view_insert; [done|by rewrite Hc].
Qed.

(** The two rules in front of the rest [K] of a command. *)
Lemma wp_then {B} (m1 m2 : M ctx unit) (K : M ctx B) P (Q : B → ctx → Prop) c :
  wp (m1 ;; m2) (λ _ c', P c') c → (∀ c', P c' → wp K Q c') → wp (m1 ;; m2 ;; K) Q c.
Proof.
  intros Hm HK. unfold wp, bind in *. destruct (m1 c) as [u1 c1]. destruct (m2 c1) as [u2 c2].
  apply HK, Hm.
Qed.

(** [erase] and the tombstone of the version [v]. *)
Definition tombed (key : bytes) (v : version) (wm : Z) (T : gmap bytes version) : gmap bytes version :=
  if decide (peer_count ≠ 0%nat ∧ wm < v_ts v) then
    <[key := match T !! key with Some t => version_max t v | None => v end]> T
  else T.

Lemma erase_tomb room_name key r v c :
  tidy room_name c → keys (c_room c) !! key = Some r →
  cold_view (cold (c_sh c)) room_name !! key = None →
  wp (erase key ;; sh (set_tomb room_name key v)) (λ _ c', kept room_name c c'
    ∧ view room_name c' = delete key (view room_name c)
    ∧ tombs_of (crdt (c_sh c')) room_name
      = tombed key v (watermark (crdt (c_sh c))) (tombs_of (crdt (c_sh c)) room_name)
    ∧ clock (crdt (c_sh c')) = clock (crdt (c_sh c)) ∧ aof (c_sh c') = aof (c_sh c)) c.
Proof.
  intros Hti Hk Hcold. wp_run. eapply wp_mono; [apply (erase_spec room_name)|].
  intros _ c1 ([Hf1 Hc1] & Hk1 & _). wp_run. destruct (fr_rest _ _ _ Hf1) as [Ha Hcr _ _ _].
  eapply wp_mono; [apply set_tomb_spec|].
  intros _ s2 (Hq & Ha2 & Hcl & Hwm & Hfr & Ht). destruct c1 as [rm s1]. cbn [c_room c_sh] in *.
  assert (Hv1 : view room_name (Ctx_ rm s1) = delete key (view room_name c)).
  { unfold view. cbn. rewrite Hk1, Hc1, delete_union. f_equal. symmetry. by apply delete_id. }
  assert (Hti1 : tidy room_name (Ctx_ rm s1)).
  { destruct Hti as [[Hco Hwf] Hd]. split; [split; cbn; [by rewrite Hc1|]|].
    - rewrite Hk1. by apply map_Forall_delete.
    - unfold disjoint_ram. cbn. rewrite Hk1, Hc1. by apply map_disjoint_delete_l. }
  split; [|split; [|split; [|split]]].
  - apply (kept_trans _ _ (Ctx_ rm s1)).
    + split; cbn [c_sh]; rewrite ?Hcr; [done|by apply frame_hstep|done..].
    + apply kept_quiet; [done..|]. intros room' Hne. by rewrite Ht, decide_False by (by intros [? _]).
  - by rewrite (quiet_view room_name rm s1 s2 Hq).
  - cbn. rewrite Ht, Hcr. unfold tombed.
    destruct (decide (peer_count ≠ 0%nat ∧ watermark (crdt (c_sh c)) < v_ts v)) as [Hp|Hn].
    + rewrite decide_True; done.
    + rewrite decide_False; [done|]. intros (_ & ? & ?). by apply Hn.
  - cbn. by rewrite Hcl, Hcr.
  - cbn. by rewrite Ha2, Ha.
Qed.

End effects.
