(* ===== verification/Commands.v ===== *)
(** * The commands on keys (src/core/commands.cpp)

    GET, SET, MSET, MGET, EXISTS, EXPIRE and its relatives, TTL, DEL. Each
    runs in the room of the client with the room's lock held; a reply is the
    RESP text. The member [resp3_] (the client's protocol) is an argument of
    the handlers that read it. *)

From S2P Require Import Prelude FsUtil Resp Hlc Config World Types State Cold Aof Keyspace Crdt.

(** [::toupper] on every character, in the C locale. *)
Definition to_upper (c : ascii) : ascii :=
  if (97 <=? ord c) && (ord c <=? 122) then chr (ord c - 32) else c.
Definition upper (s : bytes) : bytes := map to_upper s.

(** [nil] *)
Definition nil (resp3 : bool) : bytes := if resp3 then reply "_" else reply "$-1".

(** [char + std::to_string(n) + CRLF] *)
Definition integer_reply (n : Z) : bytes := str ":" ++ to_string n ++ CRLF.
Definition wrong_args (command : bytes) : bytes :=
  str "-ERR Wrong number of arguments for " ++ command ++ CRLF.

Definition MAX_REPLY : Z := 32 * 1024 * 1024.

Definition eqs (s : string) (b : bytes) : bool := bool_decide (b = str s).

(** The options of SET: [NX], [XX] and the absolute deadline, or an error. *)
Fixpoint set_options (now : Z) (opts : list bytes) (nx xx : bool) (e : Z) :
    bytes + (bool * bool * Z) :=
  match opts with
  | [] => inr (nx, xx, e)
  | o :: rest =>
      let opt := upper o in
      if (eqs "NX" opt || eqs "XX" opt) && negb nx && negb xx then
        set_options now rest (eqs "NX" opt) (eqs "XX" opt) e
      else if (eqs "EX" opt || eqs "PX" opt) && (e =? 0) then
        match rest with
        | [] => inl (reply "-ERR syntax error")
        | a :: rest =>
            let scale := if eqs "EX" opt then 1000 else 1 in
            match parse_i64 a with
            | Some n =>
                if (n <=? 0) || ((LLONG_MAX - now) ÷ scale <? n)
                then inl (reply "-ERR invalid expire time in 'set' command")
                else set_options now rest nx xx (now + n * scale)
            | None => inl (reply "-ERR invalid expire time in 'set' command")
            end
        end
      else inl (reply "-ERR syntax error")
  end.

(** The options of EXPIRE. *)
Record expire_opts := ExpireOpts { o_nx : bool; o_xx : bool; o_gt : bool; o_lt : bool }.

Fixpoint expire_options (opts : list bytes) (o : expire_opts) : bytes + expire_opts :=
  match opts with
  | [] => inr o
  | a :: rest =>
      let opt := upper a in
      if eqs "NX" opt then expire_options rest (ExpireOpts true (o_xx o) (o_gt o) (o_lt o))
      else if eqs "XX" opt then expire_options rest (ExpireOpts (o_nx o) true (o_gt o) (o_lt o))
      else if eqs "GT" opt then expire_options rest (ExpireOpts (o_nx o) (o_xx o) true (o_lt o))
      else if eqs "LT" opt then expire_options rest (ExpireOpts (o_nx o) (o_xx o) (o_gt o) true)
      else inl (str "-ERR Unsupported option " ++ a ++ CRLF)
  end.

(** The conditions of EXPIRE on the record it found: [true] when they refuse. *)
Definition expire_refused (o : expire_opts) (expire_at : Z) (r : record) : bool :=
  let has_ttl := negb (r_expire r =? 0) in
  (o_nx o && has_ttl) || (o_xx o && negb has_ttl)
  || (o_gt o && (negb has_ttl || (expire_at <=? r_expire r)))
  || (o_lt o && has_ttl && (r_expire r <=? expire_at)).

(** The number and the absolute deadline of EXPIRE (scale 1000) and PEXPIRE
    (scale 1); PERSIST (scale 0) has none. *)
Definition deadline (scale now_ms : Z) (args : list bytes) : option (Z * Z) :=
  n ← parse_i64 (nth 2 args []);
  if (n <? LLONG_MIN ÷ scale) || ((LLONG_MAX - now_ms) ÷ scale <? n) then None
  else Some (n, now_ms + n * scale).

(** The pairs of MSET, from its arguments. *)
Fixpoint pairs_of (l : list bytes) : list (bytes * bytes) :=
  match l with
  | k :: v :: l => (k, v) :: pairs_of l
  | _ => []
  end.

Section commands.
  Context `{World}.

Definition handle_get (resp3 : bool) (room_name : bytes) (args : list bytes) : M ctx bytes :=
  if negb (length args =? 2)%nat then ret (reply "-ERR Wrong number of arguments for GET") else
  sh (fetch_add upd_total_gets 1) ;;
  let* r := lookup room_name (arg args 1) in
  match r with
  | None => ret (nil resp3)
  | Some r =>
      sh (record_access (arg args 1)) ;;
      ret (bulk_string (r_value r))
  end.

(** The record a local write leaves: value, expiration, the new version. *)
Definition local_write (e : Z) (ts : Z) (r : record) : record :=
  with_version (Version ts local_node_id) (with_expire e r).

Definition handle_set (resp3 : bool) (room_name : bytes) (args : list bytes) : M ctx bytes :=
  if (length args <? 3)%nat then ret (reply "-ERR Wrong number of arguments for SET") else
  let* now_ms := sh get_current_time_ms in
  match set_options now_ms (drop 3 args) false false 0 with
  | inl err => ret err
  | inr (nx, xx, expire_at) =>
      let key := arg args 1 in
      sh (fetch_add upd_total_sets 1) ;;
      let* r := lookup room_name key in
      if (nx && bool_decide (is_Some r)) || (xx && negb (bool_decide (is_Some r)))
      then ret (nil resp3) else
      let* s := sh (gets crdt) in
      let* version := sh (clock_next now_ms
        (match r with Some r => r_ts r | None => tomb_ts room_name key s end)) in
      put_record room_name key r (arg args 2) (local_write expire_at version) ;;
      sh (record_access key) ;;
      sh (append room_name args expire_at version local_node_id) ;;
      ret (reply "+OK")
  end.

(** The first loop of MSET: the largest timestamp it will overwrite. *)
Definition mset_overwritten (room_name : bytes) (overwritten : Z) (key : bytes) : M ctx Z :=
  let* r := lookup room_name key in
  let* s := sh (gets crdt) in
  ret (Z.max overwritten (match r with Some r => r_ts r | None => tomb_ts room_name key s end)).

(** One pair of the second loop. *)
Definition mset_pair (room_name : bytes) (version : Z) (kv : bytes * bytes) : M ctx unit :=
  let* r := lookup room_name kv.1 in
  put_record room_name kv.1 r kv.2 (local_write 0 version) ;;
  sh (record_access kv.1).

Definition handle_mset (room_name : bytes) (args : list bytes) : M ctx bytes :=
  if (length args <? 3)%nat || Nat.even (length args)
  then ret (reply "-ERR Wrong number of arguments for MSET") else
  let kvs := pairs_of (drop 1 args) in
  let* overwritten := fold_m (map fst kvs) 0 (mset_overwritten room_name) in
  let* now := sh get_current_time_ms in
  let* version := sh (clock_next now overwritten) in
  for_each kvs (mset_pair room_name version) ;;
  sh (fetch_add upd_total_sets (Z.of_nat (length args / 2))) ;;
  sh (append room_name args 0 version local_node_id) ;;
  ret (reply "+OK").

(** The loop of MGET: [None] when the reply grows too large. *)
Fixpoint mget_loop (resp3 : bool) (room_name : bytes) (ks : list bytes) (out : bytes) :
    M ctx (option bytes) :=
  match ks with
  | [] => ret (Some out)
  | key :: ks =>
      let* r := lookup room_name key in
      match r with
      | None => mget_loop resp3 room_name ks (out ++ nil resp3)
      | Some r =>
          if MAX_REPLY <? len out + len (r_value r) then ret None else
          sh (record_access key) ;;
          mget_loop resp3 room_name ks (out ++ bulk_string (r_value r))
      end
  end.

Definition handle_mget (resp3 : bool) (room_name : bytes) (args : list bytes) : M ctx bytes :=
  if (length args <? 2)%nat then ret (reply "-ERR Wrong number of arguments for MGET") else
  let* out := mget_loop resp3 room_name (drop 1 args)
                (str "*" ++ to_string_u (len args - 1) ++ CRLF) in
  match out with
  | None => ret (reply "-ERR reply too large")
  | Some out =>
      sh (fetch_add upd_total_gets (len args - 1)) ;;
      ret out
  end.

Definition count_key (room_name : bytes) (found : Z) (key : bytes) : M ctx Z :=
  let* r := lookup room_name key in
  ret (if bool_decide (is_Some r) then found + 1 else found).

Definition handle_exists (room_name : bytes) (args : list bytes) : M ctx bytes :=
  if (length args <? 2)%nat then ret (reply "-ERR Wrong number of arguments for EXISTS") else
  let* found := fold_m (drop 1 args) 0 (count_key room_name) in
  ret (integer_reply found).

(** One key of DEL: whether it was there. *)
Definition del_key (room_name key : bytes) : M ctx bool :=
  let* r := lookup room_name key in
  match r with
  | None => ret false
  | Some r =>
      let* now := sh get_current_time_ms in
      let* ts := sh (clock_next now (r_ts r)) in
      erase key ;;
      sh (set_tomb room_name key (Version ts local_node_id)) ;;
      sh (append room_name [str "DEL"; key] 0 ts local_node_id) ;;
      ret true
  end.

Definition del_step (room_name : bytes) (deleted : Z) (key : bytes) : M ctx Z :=
  let* was := del_key room_name key in
  ret (if was : bool then deleted + 1 else deleted).

Definition handle_del (room_name : bytes) (args : list bytes) : M ctx bytes :=
  if (length args <? 2)%nat then ret (reply "-ERR Wrong number of arguments for DEL") else
  let* deleted := fold_m (drop 1 args) 0 (del_step room_name) in
  ret (integer_reply deleted).

Definition expire_deadline (scale : Z) (args : list bytes) : M ctx (option (Z * Z)) :=
  if scale =? 0 then ret (Some (0, 0)) else
  let* now_ms := sh get_current_time_ms in
  ret (deadline scale now_ms args).

Definition handle_expire (scale : Z) (room_name : bytes) (args : list bytes) : M ctx bytes :=
  if (if scale =? 0 then negb (length args =? 2)%nat else (length args <? 3)%nat)
  then ret (wrong_args (arg args 0)) else
  match expire_options (drop 3 args) (ExpireOpts false false false false) with
  | inl err => ret err
  | inr o =>
      if o_nx o && (o_xx o || o_gt o || o_lt o) then
        ret (reply "-ERR NX and XX, GT or LT options at the same time are not compatible") else
      if o_gt o && o_lt o then
        ret (reply "-ERR GT and LT options at the same time are not compatible") else
      let* deadline := expire_deadline scale args in
      match deadline with
      | None => ret (reply "-ERR invalid expire time")
      | Some (n, expire_at) =>
          let key := arg args 1 in
          let* r := lookup room_name key in
          match r with
          | None => ret (reply ":0")
          | Some r =>
              if (scale =? 0) && (r_expire r =? 0) then ret (reply ":0") else
              if expire_refused o expire_at r then ret (reply ":0") else
              if negb (scale =? 0) && (n <=? 0) then handle_del room_name [str "DEL"; key] else
              let* now := sh get_current_time_ms in
              let* ts := sh (clock_next now (r_ts r)) in
              set_fields key (local_write expire_at ts) ;;
              sh (append room_name [str "SET"; key; r_value r] expire_at ts local_node_id) ;;
              ret (reply ":1")
          end
      end
  end.

Definition handle_ttl (millis : bool) (room_name : bytes) (args : list bytes) : M ctx bytes :=
  if negb (length args =? 2)%nat then ret (wrong_args (arg args 0)) else
  let* r := lookup room_name (arg args 1) in
  match r with
  | None => ret (reply ":-2")
  | Some r =>
      if r_expire r =? 0 then ret (reply ":-1") else
      let* now := sh get_current_time_ms in
      let left := Z.max 0 (r_expire r - now) in
      ret (integer_reply (if millis then left else (left + 500) ÷ 1000))
  end.

End commands.
