(* ===== verification/CommandSpecs.v ===== *)
(** * What the commands on keys do

    Each command against the logical map of its room: the reply, the map, the
    tombstones, the clock and the AOF record on every branch, errors
    included. Hypotheses shared by all of them: the disk can be read, the
    clock shows a date, the node id has 32 bits (Config.load_config_safe). *)

From S2P Require Import Prelude FsUtil Resp Hlc Config World Types State Cold Aof Keyspace Crdt Effects Commands.

(** ** Options *)

(** The clock shows a date: non-negative and below the HLC's 48 bits. *)
Definition sane_clock `{World} : Prop := ∀ k, 0 <= wall k + cfg_clock_offset_ms cfg < 2 ^ 47.

(** An accepted deadline is [e0] or a time after [now] that fits in 64 bits. *)
Lemma set_options_deadline now opts nx xx e0 nx' xx' e :
  0 <= now < 2 ^ 47 →
  set_options now opts nx xx e0 = inr (nx', xx', e) → e = e0 ∨ now < e <= LLONG_MAX.
Proof.
  intros Hnow. revert nx xx e0.
  induction opts as [opts IH] using (induction_ltof1 _ (@length bytes)); intros nx xx e0.
  unfold ltof in IH. destruct opts as [|o rest]; cbn [set_options]; [intros [= <- <- <-]; by left|].
  destruct (_ && _ && _); [apply IH; cbn; lia|].
  destruct (_ && _); [|done]. destruct rest as [|a rest]; [done|].
  destruct (parse_i64 a) as [n|]; [|done].
  set (scale := if eqs "EX" (upper o) then 1000 else 1).
  assert (Hs : scale = 1000 ∨ scale = 1) by (unfold scale; destruct (eqs _ _); auto).
  destruct (_ || _) eqn:E; [done|]. apply orb_false_iff in E as [Hn%Z.leb_gt Hmax%Z.ltb_ge].
  intros He. apply IH in He; [|cbn; lia].
  assert (now < now + n * scale <= LLONG_MAX); [|by destruct He as [->|?]; [right|right]].
  assert (0 <= LLONG_MAX - now) by ulia.
  assert (n * scale <= LLONG_MAX - now); [|nia].
  rewrite Z.quot_div_nonneg in Hmax by lia.
  trans ((LLONG_MAX - now) / scale * scale); [nia|]. rewrite Z.mul_comm. apply Z.mul_div_le. lia.
Qed.

(** At most one of NX and XX. *)
Lemma set_options_exclusive now opts nx xx e0 nx' xx' e :
  nx && xx = false → set_options now opts nx xx e0 = inr (nx', xx', e) → nx' && xx' = false.
Proof.
  revert nx xx e0.
  induction opts as [opts IH] using (induction_ltof1 _ (@length bytes)); intros nx xx e0.
  unfold ltof in IH. destruct opts as [|o rest]; cbn [set_options]; [by intros ? [= <- <- <-]|].
  destruct (_ && _ && _).
  { intros _. apply IH; [cbn; lia|]. unfold eqs.
    destruct (bool_decide_reflect (upper o = str "NX")) as [->|_]; [|done]. by rewrite andb_false_r. }
  destruct (_ && (e0 =? 0)); [|done]. destruct rest as [|a rest]; [done|].
  destruct (parse_i64 a) as [n|]; [|done].
  destruct (n <=? 0); [done|]. destruct (_ <? n); [done|]. apply IH. cbn. lia.
Qed.

Section specs.
  Context `{World} (Hreads : reads_ok) (Hsane : sane_clock) (Hnode : is_u32 local_node_id).

Lemma sane_at s : 0 <= clock_at s < 2 ^ 47.
Proof. apply Hsane. Qed.

(** ** Reads *)

Lemma handle_get_spec resp3 room_name args c :
  tidy room_name c → length args = 2%nat →
  let key := arg args 1 in
  let V1 := prune (clock_at (c_sh c)) key (view room_name c) in
  wp (handle_get resp3 room_name args) (λ rep c', kept room_name c c'
    ∧ rep = from_option (λ r, bulk_string (r_value r)) (nil resp3) (V1 !! key)
    ∧ view room_name c' = V1 ∧ crdt (c_sh c') = crdt (c_sh c) ∧ aof (c_sh c') = aof (c_sh c)) c.
Proof.
  intros Hti Hlen key V1. unfold handle_get. rewrite Hlen. cbn [Nat.eqb negb]. wp_run.
  destruct c as [r0 s]. cbn [c_room c_sh] in *. set (s1 := upd_met _ s).
  assert (Hs1 : still room_name (Ctx_ r0 s) (Ctx_ r0 s1)) by (by apply still_quiet).
  destruct Hs1 as (Hk1 & Hv1 & _ & _).
  eapply wp_mono; [apply lookup_kept; [apply Hk1|done]|].
  intros r c2 (Hk2 & Hcr2 & Ha2 & _ & _ & Hr & Hv). rewrite Hv1 in Hr, Hv. cbn [c_sh] in *.
  change (clock_at s1) with (clock_at s) in Hr, Hv.
  assert (Hr1 : V1 !! key = r) by (unfold V1; by rewrite prune_lookup).
  rewrite Hr1. pose proof (kept_trans _ _ _ _ Hk1 Hk2) as Hk.
  destruct r as [r|]; wp_run; [|done]. unfold record_access. wp_run.
  destruct c2 as [r2 s2]. cbn [c_room c_sh] in *. set (s3 := upd_cold _ s2).
  assert (Hs3 : still room_name (Ctx_ r2 s2) (Ctx_ r2 s3)) by (apply still_quiet; [apply Hk2|done..]).
  destruct Hs3 as (Hk3 & Hv3 & Hc3 & Ha3).
  split; [by eapply kept_trans|]. split; [done|]. by rewrite Hv3.
Qed.

(** ** SET *)

(** What a new version must exceed. *)
Definition overwritten (r : option record) (t : option version) : Z :=
  match r with Some r => r_ts r | None => from_option v_ts 0 t end.

Definition unless (r : option record) (key : bytes) (T : gmap bytes version) : gmap bytes version :=
  match r with Some _ => T | None => delete key T end.

Lemma tomb_ts_of room_name key s :
  tomb_ts room_name key s = from_option v_ts 0 (tombs_of s room_name !! key).
Proof. unfold tomb_ts. rewrite find_tomb_of. by destruct (_ !! key). Qed.

(** The effect of an unconditional write at clock reading [now], from the
    pruned map [V1] in state [c0]. *)
Record wrote (room_name key : bytes) (V1 : gmap bytes record) (args : list bytes)
    (value : bytes) (e now : Z) (c c' : ctx) : Prop := {
  wr_view : let ts := clock (crdt (c_sh c')) in
    view room_name c' = <[key := Record_ value e ts local_node_id]> V1;
  wr_clock : clock (crdt (c_sh c'))
    = next now (overwritten (V1 !! key) (tombs_of (crdt (c_sh c)) room_name !! key))
        (clock (crdt (c_sh c)));
  wr_tombs : tombs_of (crdt (c_sh c')) room_name
    = unless (V1 !! key) key (tombs_of (crdt (c_sh c)) room_name);
  wr_log : logs room_name args e (clock (crdt (c_sh c'))) local_node_id (c_sh c) (c_sh c')
}.

Lemma local_write_wf e ts value r :
  is_u32 local_node_id → is_u64 ts → is_i64 e → wf_record (local_write e ts (with_value value r)).
Proof. by split. Qed.

Lemma handle_set_spec resp3 room_name args c :
  tidy room_name c →
  let key := arg args 1 in
  let V1 := prune (second_clock c) key (view room_name c) in
  wp (handle_set resp3 room_name args) (λ rep c',
    if (length args <? 3)%nat
    then rep = reply "-ERR Wrong number of arguments for SET" ∧ c' = c else
    kept room_name c c' ∧
    match set_options (clock_at (c_sh c)) (drop 3 args) false false 0 with
    | inl err => rep = err ∧ still room_name c c'
    | inr (nx, xx, e) =>
        if (nx && bool_decide (is_Some (V1 !! key))) || (xx && negb (bool_decide (is_Some (V1 !! key))))
        then rep = nil resp3 ∧ view room_name c' = V1
             ∧ crdt (c_sh c') = crdt (c_sh c) ∧ aof (c_sh c') = aof (c_sh c)
        else rep = reply "+OK"
             ∧ wrote room_name key V1 args (arg args 2) e (clock_at (c_sh c)) c c'
    end) c.
Proof.
  intros Hti key V1. unfold handle_set. destruct (_ <? 3)%nat; wp_run; [done|].
  destruct c as [r0 s]. cbn [c_room c_sh] in *. fold (clock_at s).
  set (s1 := upd_sys_tick S s).
  assert (Hs1 : still room_name (Ctx_ r0 s) (Ctx_ r0 s1)) by (by apply still_quiet).
  destruct (set_options (clock_at s) (drop 3 args) false false 0) as [err|[[nx xx] e]] eqn:Hopt; wp_run.
  { split; [apply Hs1|done]. }
  cbn [c_room c_sh]. set (s2 := upd_met _ s1).
  assert (Hs2 : still room_name (Ctx_ r0 s) (Ctx_ r0 s2)) by (by apply still_quiet).
  destruct Hs2 as (Hk2 & Hv2 & Hc2 & Ha2).
  eapply wp_mono; [apply lookup_kept; [apply Hk2|done]|].
  intros r c3 (Hk3 & Hcr3 & Ha3 & Hkey3 & Hcv3 & Hr & Hv3). rewrite Hv2 in Hr, Hv3. cbn [c_sh] in *.
  change (clock_at s2) with (second_clock (Ctx_ r0 s)) in Hr, Hv3. fold key in Hr, Hv3.
  assert (Hr1 : V1 !! key = r) by (unfold V1; by rewrite prune_lookup).
  fold V1 in Hv3. rewrite Hr1. pose proof (kept_trans _ _ _ _ Hk2 Hk3) as Hk.
  destruct (_ || _); wp_run; [done|].
  eapply wp_mono; [apply clock_next_spec|]. intros ts s4 (Hts & Hcr4 & Hq4 & Ha4).
  destruct c3 as [r3 s3]. cbn [c_room c_sh] in *.
  assert (Hk4 : kept room_name (Ctx_ r3 s3) (Ctx_ r3 s4)).
  { apply kept_quiet; [apply Hk3|done|..]; by rewrite Hcr4. }
  assert (Hts' : ts = next (clock_at s) (overwritten r (tombs_of (crdt s) room_name !! key)) (clock (crdt s))).
  { rewrite Hts, Hcr3, Hc2, tomb_ts_of. by destruct r. }
  eapply wp_then; [apply write_record; [apply Hk4|done| |done|]|].
  { cbn. by rewrite (quiet_cold_view _ _ _ Hq4). }
  { apply local_write_wf; [done|rewrite Hts; apply next_u64|].
    pose proof (sane_at s). apply set_options_deadline in Hopt; ulia. }
  cbn beta. intros [r5 s5] (Hk5 & Hv5 & Ht5 & Hcl5 & Ha5). cbn [c_room c_sh] in *. wp_run.
  eapply wp_mono; [apply append_kept, Hk5|]. intros b s6 (Hk6 & Hv6 & Hcr6 & Hl6). wp_run.
  cbn [c_room c_sh] in *.
  assert (Hkept : kept room_name (Ctx_ r0 s) (Ctx_ r5 s6)).
  { repeat (eapply kept_trans; [eassumption|]). by apply kept_refl, Hk6. }
  split; [done|]. split; [done|]. split; cbn [c_room c_sh].
  - rewrite Hv6, Hv5, Hcr6, Hcl5, Hcr4. cbn [clock upd_clock].
    rewrite (quiet_view room_name r3 s3 s4 Hq4), Hv3. by destruct r.
  - by rewrite Hcr6, Hcl5, Hcr4, Hr1.
  - rewrite Hcr6, Ht5, Hcr4, Hr1. change (tombs_of (upd_clock _ (crdt s3)) room_name) with (tombs_of (crdt s3) room_name).
    rewrite Hcr3, Hc2. by destruct r.
  - rewrite Hcr6, Hcl5, Hcr4. cbn [clock upd_clock]. destruct Hl6 as (s7 & H7 & H8).
    exists s7. split; [|done]. by rewrite H7, Ha5, Ha4, Ha3.
Qed.

(** ** DEL *)

Lemma del_key_spec room_name key c :
  tidy room_name c →
  let V1 := prune (clock_at (c_sh c)) key (view room_name c) in
  let T := tombs_of (crdt (c_sh c)) room_name in
  wp (del_key room_name key) (λ b c', kept room_name c c' ∧
    match V1 !! key with
    | None => b = false ∧ view room_name c' = V1
        ∧ crdt (c_sh c') = crdt (c_sh c) ∧ aof (c_sh c') = aof (c_sh c)
    | Some r => b = true ∧ view room_name c' = delete key (view room_name c)
        ∧ (∃ now, reading now ∧ clock (crdt (c_sh c')) = next now (r_ts r) (clock (crdt (c_sh c))))
        ∧ let ts := clock (crdt (c_sh c')) in
          tombs_of (crdt (c_sh c')) room_name
            = tombed key (Version ts local_node_id) (watermark (crdt (c_sh c))) T
          ∧ logs room_name [str "DEL"; key] 0 ts local_node_id (c_sh c) (c_sh c')
    end) c.
Proof.
  intros Hti V1 T. unfold del_key. wp_run. eapply wp_mono; [by apply lookup_kept|].
  intros r [r1 s1] (Hk1 & Hcr1 & Ha1 & Hkey1 & Hcv1 & Hr & Hv1). cbn [c_room c_sh] in *.
  assert (Hr1 : V1 !! key = r) by (unfold V1; by rewrite prune_lookup). rewrite Hr1.
  fold V1 in Hv1. destruct r as [r|]; wp_run; [|done]. fold (clock_at s1). cbn [c_room c_sh].
  assert (Hv1' : V1 = view room_name c) by (unfold V1, prune; by rewrite <- Hr).
  eapply wp_mono; [apply clock_next_spec|]. intros ts s2 (Hts & Hcr2 & Hq2 & Ha2).
  cbn [c_room c_sh].
  change (crdt (upd_sys_tick S s1)) with (crdt s1) in *. change (aof (upd_sys_tick S s1)) with (aof s1) in Ha2.
  assert (Hq2' : quiet s1 s2) by (etrans; [|exact Hq2]; done).
  assert (Hk2 : kept room_name (Ctx_ r1 s1) (Ctx_ r1 s2)).
  { apply kept_quiet; [apply Hk1|done|..]; by rewrite Hcr2. }
  eapply wp_then; [apply (erase_tomb _ _ r); [apply Hk2|done|]|].
  { cbn. by rewrite (quiet_cold_view _ _ _ Hq2'). }
  cbn beta. intros [r3 s3] (Hk3 & Hv3 & Ht3 & Hcl3 & Ha3). cbn [c_room c_sh] in *. wp_run.
  eapply wp_mono; [apply append_kept, Hk3|]. intros b s4 (Hk4 & Hv4 & Hcr4 & Hl4). wp_run.
  cbn [c_room c_sh] in *.
  assert (Hcl : clock (crdt s4) = ts) by (by rewrite Hcr4, Hcl3, Hcr2).
  split; [repeat (eapply kept_trans; [eassumption|]); by apply kept_refl, Hk4|].
  split; [done|]. split; [|split; [|split]].
  - by rewrite Hv4, Hv3, (quiet_view room_name r1 s1 s2 Hq2'), Hv1, Hv1'.
  - exists (clock_at s1). split; [apply clock_at_reading|]. by rewrite Hcl, Hts, Hcr1.
  - rewrite Hcl, Hcr4, Ht3, Hcr2. cbn [watermark upd_clock].
    change (tombs_of (upd_clock _ (crdt s1)) room_name) with (tombs_of (crdt s1) room_name).
    by rewrite Hcr1.
  - rewrite Hcl. destruct Hl4 as (s7 & H7 & H8). exists s7. split; [|done]. by rewrite H7, Ha3, Ha2, Ha1.
Qed.

(** Room for new versions: the clock and the records are at most [B], and the
    watermark is not ahead of the clock. *)
Record roomy (B : Z) (room_name : bytes) (c : ctx) : Prop := {
  ro_B : 2 ^ 63 <= B;
  ro_clock : 0 <= clock (crdt (c_sh c)) <= B;
  ro_ts : ∀ key r, view room_name c !! key = Some r → 0 <= r_ts r <= B;
  ro_wm : watermark (crdt (c_sh c)) <= clock (crdt (c_sh c))
}.

Lemma next_roomy now ov last B :
  reading now → 0 <= ov <= B → 0 <= last <= B → 2 ^ 63 <= B < UINT64_MAX →
  last < next now ov last <= B + 1 ∧ ov < next now ov last.
Proof.
  intros [k ->] Hov Hlast HB. pose proof (Hsane k).
  rewrite next_le by ulia. nia.
Qed.

(** The two outcomes of a key of DEL, as [roomy] sees them. *)
Lemma del_key_roomy room_name key B c :
  tidy room_name c → roomy B room_name c → B < UINT64_MAX →
  wp (del_key room_name key) (λ b c', roomy (B + 1) room_name c'
    ∧ ∀ r, b = true → prune (clock_at (c_sh c)) key (view room_name c) !! key = Some r →
        r_ts r < clock (crdt (c_sh c')) ∧ watermark (crdt (c_sh c)) < clock (crdt (c_sh c'))) c.
Proof.
  intros Hti [HB Hcl Hts Hwm] HBm. eapply wp_mono; [by apply del_key_spec|].
  intros b c' (Hk & Hpost).
  assert (Hsub : ∀ k r, prune (clock_at (c_sh c)) key (view room_name c) !! k = Some r →
    view room_name c !! k = Some r).
  { intros k r. unfold prune. destruct (live _ _); [done|]. by intros [_ ?]%lookup_delete_Some. }
  destruct (prune _ key _ !! key) as [r|] eqn:Hr.
  - destruct Hpost as (-> & Hv & (now & Hnow & Hclk) & _).
    pose proof (Hts _ _ (Hsub _ _ Hr)).
    destruct (next_roomy now (r_ts r) (clock (crdt (c_sh c))) B) as [[H1 H2] H3]; [done|lia..|].
    split; [|intros r' _ [= <-]; rewrite Hclk; lia].
    split; [lia|rewrite Hclk; lia| |rewrite (ke_wm _ _ _ Hk), Hclk; lia].
    intros k r' Hr'. rewrite Hv in Hr'. apply lookup_delete_Some in Hr' as [_ Hr'].
    specialize (Hts _ _ Hr'). lia.
  - destruct Hpost as (-> & Hv & Hc & _). split; [|done].
    split; rewrite ?Hc; [lia|lia| |done].
    intros k r'. rewrite Hv. intros Hr'%Hsub%Hts. lia.
Qed.

(** How many of the keys are there, each counted once. *)
Definition present (ks : list bytes) (V : gmap bytes record) : Z :=
  Z.of_nat (size (filter (λ p, p.1 ∈ ks) V)).

Lemma present_cons k ks V :
  present (k :: ks) V
  = (if bool_decide (is_Some (V !! k)) then 1 else 0) + present ks (delete k V).
Proof.
  unfold present. destruct (V !! k) as [r|] eqn:Hk.
  - assert (E : filter (λ p, p.1 ∈ k :: ks) V = <[k := r]> (filter (λ p, p.1 ∈ ks) (delete k V))).
    { apply map_eq. intros j. destruct (decide (j = k)) as [->|Hne].
      - rewrite lookup_insert_eq. apply map_lookup_filter_Some_2; [done|by left].
      - rewrite lookup_insert_ne by done. apply option_eq. intros x.
        rewrite !map_lookup_filter_Some, lookup_delete_Some, elem_of_cons. cbn. intuition congruence. }
    rewrite E, map_size_insert_None.
    + rewrite bool_decide_true by (by eexists). lia.
    + apply map_lookup_filter_None. left. apply lookup_delete_eq.
  - rewrite delete_id by done. rewrite bool_decide_false by (by intros []). rewrite Z.add_0_l.
    f_equal. f_equal. apply map_filter_ext. intros j x Hj. cbn. rewrite elem_of_cons.
    intuition congruence.
Qed.

Lemma present_nil V : present [] V = 0.
Proof.
  unfold present. assert (E : filter (λ p : bytes * record, p.1 ∈ []) V = ∅).
  { apply map_empty. intros i. apply map_lookup_filter_None. right. by intros x _ ?%elem_of_nil. }
  by rewrite E, map_size_empty.
Qed.

Definition durable (V : gmap bytes record) : Prop := ∀ key r, V !! key = Some r → r_expire r = 0.

Lemma prune_durable now key V : durable V → prune now key V = V.
Proof.
  intros Hd. unfold prune, live. destruct (V !! key) as [r|] eqn:Hr; cbn.
  - unfold expired. by rewrite (Hd _ _ Hr).
  - by apply delete_id.
Qed.

Lemma durable_delete key V : durable V → durable (delete key V).
Proof. intros Hd k r [_ Hr]%lookup_delete_Some. by eapply Hd. Qed.

(** A tombstone of [key] newer than [ts]. *)
Definition buried_above (key : bytes) (ts : Z) (T : gmap bytes version) : Prop :=
  ∃ t, T !! key = Some t ∧ ts < v_ts t.

Lemma tombed_above key v wm T key' ts :
  buried_above key' ts T → buried_above key' ts (tombed key v wm T).
Proof.
  intros (t & Ht & Hlt). unfold tombed. destruct (decide _); [|by exists t].
  destruct (decide (key' = key)) as [->|Hne].
  - exists (version_max t v). rewrite lookup_insert_eq, Ht. split; [done|].
    unfold version_max, version_ltb. destruct (_ || _) eqn:E; [|done]. lia.
  - exists t. by rewrite lookup_insert_ne.
Qed.

Lemma tombed_here key v wm T ts :
  peer_count ≠ 0%nat → wm < v_ts v → ts < v_ts v → buried_above key ts (tombed key v wm T).
Proof.
  intros Hp Hw Hts. unfold tombed. rewrite decide_True by done. eexists.
  split; [apply lookup_insert_eq|]. destruct (T !! key) as [t|]; [|done].
  unfold version_max, version_ltb. destruct (_ || _) eqn:E; [done|]. lia.
Qed.

(** The same outcome, whatever was found. *)
Lemma del_key_step room_name k c :
  tidy room_name c →
  wp (del_key room_name k) (λ b c', kept room_name c c'
    ∧ view room_name c' = delete k (view room_name c)
    ∧ (durable (view room_name c) → b = bool_decide (is_Some (view room_name c !! k)))
    ∧ ∀ B, roomy B room_name c → B < UINT64_MAX → peer_count ≠ 0%nat → roomy (B + 1) room_name c'
      ∧ (∀ key ts, buried_above key ts (tombs_of (crdt (c_sh c)) room_name) →
                   buried_above key ts (tombs_of (crdt (c_sh c')) room_name))
      ∧ ∀ r, durable (view room_name c) → view room_name c !! k = Some r →
          buried_above k (r_ts r) (tombs_of (crdt (c_sh c')) room_name)) c.
Proof.
  intros Hti. pose proof (del_key_spec room_name k c Hti) as Hs. cbv zeta in Hs.
  assert (Hroomy : ∀ B, roomy B room_name c → B < UINT64_MAX → _)
    by (intros B HB Hlt; exact (del_key_roomy room_name k B c Hti HB Hlt)).
  unfold wp in *. set (c' := (del_key room_name k c).2) in *.
  set (b := (del_key room_name k c).1) in *. destruct Hs as [Hk Hpost]. split; [done|].
  assert (Hdur : durable (view room_name c) →
    prune (clock_at (c_sh c)) k (view room_name c) !! k = view room_name c !! k)
    by (intros Hd; by rewrite prune_durable).
  destruct (prune (clock_at (c_sh c)) k (view room_name c) !! k) as [r|] eqn:Hr.
  - destruct Hpost as (Hb & Hv & _ & Ht & _). split; [done|].
    split; [intros Hd; by rewrite <- Hdur by done|].
    intros B HB Hlt Hp. destruct (Hroomy B HB Hlt) as [H1 H2]. destruct (H2 r Hb eq_refl) as [H3 H4].
    split; [done|]. rewrite Ht. split; [intros key ts; apply tombed_above|].
    intros r' Hd Hr'. rewrite <- Hdur in Hr' by done. injection Hr' as <-. by apply tombed_here.
  - destruct Hpost as (Hb & Hv & Hc & _). split; [|split].
    + rewrite Hv. rewrite prune_lookup in Hr. unfold prune. by rewrite Hr.
    + intros Hd. by rewrite <- Hdur by done.
    + intros B HB Hlt Hp. rewrite Hc. split; [by apply Hroomy|]. split; [done|].
      intros r Hd Hr'. by rewrite <- Hdur in Hr' by done.
Qed.

Lemma del_loop room_name ks n c :
  tidy room_name c →
  wp (fold_m ks n (del_step room_name)) (λ n' c', kept room_name c c'
    ∧ (∀ key, view room_name c' !! key
         = if decide (key ∈ ks) then None else view room_name c !! key)
    ∧ (durable (view room_name c) → n' = n + present ks (view room_name c))
    ∧ ∀ B, roomy B room_name c → B + len ks < UINT64_MAX → peer_count ≠ 0%nat → ∀ key,
        (∀ ts, buried_above key ts (tombs_of (crdt (c_sh c)) room_name) →
               buried_above key ts (tombs_of (crdt (c_sh c')) room_name))
        ∧ ∀ r, durable (view room_name c) → key ∈ ks → view room_name c !! key = Some r →
           buried_above key (r_ts r) (tombs_of (crdt (c_sh c')) room_name)) c.
Proof.
  revert n c. induction ks as [|k ks IH]; intros n c Hti; cbn [fold_m]; wp_run.
  { split; [by apply kept_refl|]. split; [done|].
    split; [intros _; rewrite present_nil; lia|].
    intros ? _ _ _ ?. split; [done|]. by intros ? _ ?%elem_of_nil. }
  unfold del_step at 1. wp_run. eapply wp_mono; [by apply del_key_step|].
  intros b c1 (Hk1 & Hv1 & Hb & Hroom1). wp_run. eapply wp_mono; [apply IH, Hk1|].
  intros n' c' (Hk' & Hv & Hn & Hroom). rewrite Hv1 in Hn, Hroom.
  split; [by eapply kept_trans|]. split; [|split].
  - intros key. rewrite Hv, Hv1. destruct (decide (key = k)) as [->|Hne].
    + rewrite lookup_delete_eq, (decide_True (P := k ∈ k :: ks)) by (apply elem_of_cons; auto).
      by destruct (decide _).
    + rewrite lookup_delete_ne by done. destruct (decide (key ∈ ks)).
      * by rewrite decide_True by (apply elem_of_cons; auto).
      * by rewrite decide_False by (by intros [?|?]%elem_of_cons).
  - intros Hd. rewrite Hn, present_cons, Hb by (done || by apply durable_delete).
    destruct (bool_decide _); lia.
  - intros B HB Hlen Hp key. rewrite len_cons in Hlen.
    destruct (Hroom1 B HB) as (H1 & H2 & H3); [ulia|done|].
    destruct (Hroom (B + 1) H1 ltac:(lia) Hp key) as [H4 H5]. split; [intros ts ?; by apply H4, H2|].
    intros r Hd Hin Hr. destruct (decide (key = k)) as [->|Hne]; [by apply H4, H3|].
    apply elem_of_cons in Hin as [?|Hin]; [done|].
    apply H5; [by apply durable_delete|done|by rewrite lookup_delete_ne].
Qed.

(** ** EXPIRE, PEXPIRE, PERSIST *)

(** The clock reading [lookup] sees, and the deadline. *)
Definition expire_now (scale : Z) (c : ctx) : Z :=
  if scale =? 0 then clock_at (c_sh c) else second_clock c.

Definition deadline_at (scale : Z) (c : ctx) (args : list bytes) : option (Z * Z) :=
  if scale =? 0 then Some (0, 0) else deadline scale (clock_at (c_sh c)) args.

Lemma deadline_range scale now args n e :
  0 <= now < 2 ^ 47 → scale = 1 ∨ scale = 1000 → deadline scale now args = Some (n, e) →
  is_i64 e ∧ e = now + n * scale.
Proof.
  intros Hnow Hs. unfold deadline. destruct (parse_i64 _) as [m|]; [|done]. cbn [mbind option_bind].
  destruct (_ || _) eqn:E; [done|]. intros [= <- <-]. split; [|done].
  apply orb_false_iff in E as [Hlo%Z.ltb_ge Hhi%Z.ltb_ge].
  rewrite Z.quot_div_nonneg in Hhi by ulia.
  assert (scale * ((LLONG_MAX - now) / scale) <= LLONG_MAX - now) by (apply Z.mul_div_le; lia).
  destruct Hs as [-> | ->].
  - change (LLONG_MIN ÷ 1) with LLONG_MIN in Hlo. ulia.
  - change (LLONG_MIN ÷ 1000) with (-9223372036854775) in Hlo. ulia.
Qed.

Lemma expire_deadline_spec scale args c room_name :
  tidy room_name c →
  wp (expire_deadline scale args) (λ d c', still room_name c c' ∧ d = deadline_at scale c args
    ∧ clock_at (c_sh c') = expire_now scale c) c.
Proof.
  intros Hti. unfold expire_deadline, deadline_at, expire_now. destruct c as [r s].
  destruct (scale =? 0); wp_run; (split; [by apply still_quiet|done]).
Qed.

(** The arguments and options are refused before anything happens. *)
Definition expire_args_error (scale : Z) (args : list bytes) : option bytes :=
  if (if scale =? 0 then negb (length args =? 2)%nat else (length args <? 3)%nat)
  then Some (wrong_args (arg args 0)) else
  match expire_options (drop 3 args) (ExpireOpts false false false false) with
  | inl err => Some err
  | inr o =>
      if o_nx o && (o_xx o || o_gt o || o_lt o)
      then Some (reply "-ERR NX and XX, GT or LT options at the same time are not compatible")
      else if o_gt o && o_lt o
      then Some (reply "-ERR GT and LT options at the same time are not compatible")
      else None
  end.

Definition expire_opts_of (args : list bytes) : expire_opts :=
  match expire_options (drop 3 args) (ExpireOpts false false false false) with
  | inl _ => ExpireOpts false false false false
  | inr o => o
  end.

(** A new deadline and version for the record [r] at [key]. *)
Definition rescheduled (room_name key : bytes) (V1 : gmap bytes record) (r : record) (e : Z)
    (c c' : ctx) : Prop :=
  let ts := clock (crdt (c_sh c')) in
  (∃ now, reading now ∧ ts = next now (r_ts r) (clock (crdt (c_sh c))))
  ∧ view room_name c' = <[key := Record_ (r_value r) e ts local_node_id]> V1
  ∧ tombs_of (crdt (c_sh c')) room_name = tombs_of (crdt (c_sh c)) room_name
  ∧ logs room_name [str "SET"; key; r_value r] e ts local_node_id (c_sh c) (c_sh c').

Lemma reschedule_spec room_name key r e c :
  tidy room_name c → keys (c_room c) !! key = Some r →
  cold_view (cold (c_sh c)) room_name !! key = None → is_i64 e →
  wp (let* now := sh get_current_time_ms in
      let* ts := sh (clock_next now (r_ts r)) in
      set_fields key (local_write e ts) ;;
      sh (append room_name [str "SET"; key; r_value r] e ts local_node_id) ;;
      ret (reply ":1"))
    (λ rep c', kept room_name c c' ∧ rep = reply ":1"
      ∧ rescheduled room_name key (view room_name c) r e c c') c.
Proof.
  intros Hti Hkey Hcv He. destruct c as [r1 s1]. cbn [c_room c_sh] in *. wp_run.
  cbn [c_room c_sh]. fold (clock_at s1).
  eapply wp_mono; [apply clock_next_spec|]. intros ts s2 (Hts & Hcr2 & Hq2 & Ha2).
  change (crdt (upd_sys_tick S s1)) with (crdt s1) in *. change (aof (upd_sys_tick S s1)) with (aof s1) in Ha2.
  assert (Hq2' : quiet s1 s2) by (etrans; [|exact Hq2]; done).
  assert (Hk2 : kept room_name (Ctx_ r1 s1) (Ctx_ r1 s2)).
  { apply kept_quiet; [done|done|..]; by rewrite Hcr2. }
  wp_run. eapply wp_mono; [apply (fields_kept room_name key _ r); [apply Hk2|done| |done|]|].
  { cbn. by rewrite (quiet_cold_view _ _ _ Hq2'). }
  { apply local_write_wf; [done|rewrite Hts; apply next_u64|done]. }
  intros _ [r3 s3] (Hk3 & Hv3 & Hcr3 & Ha3). cbn [c_room c_sh] in *. wp_run.
  eapply wp_mono; [apply append_kept, Hk3|]. intros b s4 (Hk4 & Hv4 & Hcr4 & Hl4). wp_run.
  cbn [c_room c_sh] in *.
  assert (Hcl : clock (crdt s4) = ts) by (by rewrite Hcr4, Hcr3, Hcr2).
  split; [repeat (eapply kept_trans; [eassumption|]); by apply kept_refl, Hk4|].
  split; [done|]. unfold rescheduled. cbn [c_room c_sh]. rewrite Hcl.
  split; [exists (clock_at s1); split; [apply clock_at_reading|done]|]. split; [|split].
  - by rewrite Hv4, Hv3, (quiet_view room_name r1 s1 s2 Hq2').
  - by rewrite Hcr4, Hcr3, Hcr2.
  - destruct Hl4 as (s7 & H7 & H8). exists s7. split; [|done]. by rewrite H7, Ha3, Ha2.
Qed.

Lemma rescheduled_from room_name key V1 r e c0 c c' :
  crdt (c_sh c) = crdt (c_sh c0) → aof (c_sh c) = aof (c_sh c0) →
  rescheduled room_name key V1 r e c c' → rescheduled room_name key V1 r e c0 c'.
Proof.
  intros Hc Ha (Hn & Hv & Ht & (s1 & H1 & H2)). unfold rescheduled. rewrite <- Hc.
  split; [done|]. split; [done|]. split; [done|]. exists s1. by rewrite H1, Ha.
Qed.

Lemma handle_expire_spec scale room_name args c :
  tidy room_name c → scale = 0 ∨ scale = 1 ∨ scale = 1000 →
  let key := arg args 1 in
  let V1 := prune (expire_now scale c) key (view room_name c) in
  wp (handle_expire scale room_name args) (λ rep c', kept room_name c c' ∧
    match expire_args_error scale args, deadline_at scale c args with
    | Some err, _ => rep = err ∧ c' = c
    | None, None => rep = reply "-ERR invalid expire time" ∧ still room_name c c'
    | None, Some (n, e) =>
        let unchanged := rep = reply ":0" ∧ view room_name c' = V1
          ∧ crdt (c_sh c') = crdt (c_sh c) ∧ aof (c_sh c') = aof (c_sh c) in
        match V1 !! key with
        | None => unchanged
        | Some r =>
            if ((scale =? 0) && (r_expire r =? 0)) || expire_refused (expire_opts_of args) e r
            then unchanged
            else if negb (scale =? 0) && (n <=? 0)
            then view room_name c' = delete key V1 ∧ (durable V1 → rep = integer_reply 1)
            else rep = reply ":1" ∧ rescheduled room_name key V1 r e c c'
        end
    end) c.
Proof.
  intros Hti Hscale key V1. unfold handle_expire, expire_args_error, expire_opts_of.
  pose proof (kept_refl _ _ Hti) as Hk0.
  destruct (if scale =? 0 then _ else _); wp_run; [done|].
  destruct (expire_options _ _) as [err|o]; wp_run; [done|].
  destruct (o_nx o && _); wp_run; [done|]. destruct (o_gt o && _); wp_run; [done|].
  eapply wp_mono; [by apply expire_deadline_spec|].
  intros d c1 (Hs1 & -> & Hnow). destruct Hs1 as (Hk1 & Hv1 & Hc1 & Ha1).
  destruct (deadline_at scale c args) as [[n e]|] eqn:Hd; wp_run; [|done].
  eapply wp_mono; [apply lookup_kept; [apply Hk1|done]|].
  intros r c2 (Hk2 & Hcr2 & Ha2 & Hkey2 & Hcv2 & Hr & Hv2). rewrite Hv1, Hnow in Hr, Hv2.
  fold key in Hr, Hv2. fold V1 in Hv2. assert (Hr1 : V1 !! key = r) by (unfold V1; by rewrite prune_lookup).
  rewrite Hr1. pose proof (kept_trans _ _ _ _ Hk1 Hk2) as Hk.
  assert (Hun : reply ":0" = reply ":0" ∧ view room_name c2 = V1 ∧ crdt (c_sh c2) = crdt (c_sh c)
    ∧ aof (c_sh c2) = aof (c_sh c)) by (repeat split; congruence).
  destruct r as [r|]; wp_run; [|done].
  destruct ((scale =? 0) && (r_expire r =? 0)) eqn:Hno; cbn [orb]; wp_run; [done|].
  destruct (expire_refused o e r); wp_run; [done|].
  destruct (negb (scale =? 0) && (n <=? 0)) eqn:Hdel.
  - unfold handle_del. cbn [length Nat.ltb Nat.leb drop]. wp_run.
    eapply wp_mono; [apply del_loop, Hk2|]. intros n' c3 (Hk3 & Hv3 & Hn3 & _). wp_run.
    split; [by eapply kept_trans|]. rewrite Hv2 in Hv3, Hn3. split.
    + apply map_eq. intros k. rewrite Hv3. fold key. destruct (decide (k = key)) as [->|Hne].
      * by rewrite lookup_delete_eq, decide_True by (by apply list_elem_of_singleton).
      * rewrite lookup_delete_ne by done. rewrite decide_False; [done|]. by intros ?%list_elem_of_singleton.
    + intros Hd'. rewrite Hn3 by done. fold key. rewrite present_cons, present_nil, Hr1. done.
  - assert (He : is_i64 e).
    { unfold deadline_at in Hd. destruct (Z.eqb_spec scale 0); [by injection Hd as <- <-|].
      apply deadline_range in Hd as [? _]; [done|apply sane_at|]. by destruct Hscale as [?|?]. }
    eapply wp_mono; [apply reschedule_spec; [apply Hk2|done|done|done]|].
    intros rep c3 (Hk3 & -> & Hre). split; [by eapply kept_trans|]. split; [done|].
    rewrite Hv2 in Hre. eapply rescheduled_from; [by rewrite Hcr2|by rewrite Ha2|done].
Qed.

(** ** MSET *)

Lemma prune_insert now key r V : <[key := r]> (prune now key V) = <[key := r]> V.
Proof. unfold prune. destruct (live _ _); [done|]. apply insert_delete_eq. Qed.

(** The first loop: the keys it looks up may expire, nothing else happens,
    and the result is at least everything that will be overwritten. *)
Record scanned (room_name : bytes) (ks : list bytes) (m0 m : Z) (c c' : ctx) : Prop := {
  sc_kept : kept room_name c c';
  sc_crdt : crdt (c_sh c') = crdt (c_sh c);
  sc_aof : aof (c_sh c') = aof (c_sh c);
  sc_out : ∀ key, key ∉ ks → view room_name c' !! key = view room_name c !! key;
  sc_sub : view room_name c' ⊆ view room_name c;
  sc_acc : m0 <= m;
  sc_rec : ∀ key r, key ∈ ks → view room_name c !! key = Some r → r_expire r = 0 → r_ts r <= m;
  sc_tomb : ∀ key t, key ∈ ks → view room_name c !! key = None →
    tombs_of (crdt (c_sh c)) room_name !! key = Some t → v_ts t <= m
}.

Lemma prune_sub now key V : prune now key V ⊆ V.
Proof. unfold prune. destruct (live _ _); [done|]. apply delete_subseteq. Qed.

Lemma mset_scan room_name ks m0 c :
  tidy room_name c →
  wp (fold_m ks m0 (mset_overwritten room_name)) (λ m c', scanned room_name ks m0 m c c') c.
Proof.
  revert m0 c. induction ks as [|k ks IH]; intros m0 c Hti; cbn [fold_m]; wp_run.
  { split; [by apply kept_refl|done|done|done|done|lia|by intros ? ? ?%elem_of_nil..]. }
  unfold mset_overwritten at 1. wp_run. eapply wp_mono; [by apply lookup_kept|].
  intros r c1 (Hk1 & Hcr1 & Ha1 & _ & _ & Hr & Hv1). wp_run. rewrite tomb_ts_of, Hcr1, ctx_eta.
  set (m1 := Z.max m0 _). eapply wp_mono; [apply IH, Hk1|].
  intros m c' [Hk' Hcr' Ha' Hout Hsub Hacc Hrec Htomb]. rewrite Hv1 in Hout, Hsub, Hrec, Htomb.
  split; [by eapply kept_trans|congruence|congruence|..].
  - intros key Hn. apply not_elem_of_cons in Hn as [Hne Hn]. rewrite Hout by done.
    by apply prune_lookup_ne.
  - trans (prune (clock_at (c_sh c)) k (view room_name c)); [done|apply prune_sub].
  - lia.
  - intros key r' Hin Hr' He. destruct (decide (key = k)) as [->|Hne].
    + assert (r = Some r') as ->.
      { rewrite Hr, Hr'. cbn. unfold expired. by rewrite He. }
      lia.
    + apply elem_of_cons in Hin as [?|Hin]; [done|]. eapply Hrec; [done| |done].
      by rewrite prune_lookup_ne.
  - intros key t Hin Hn Ht. destruct (decide (key = k)) as [->|Hne].
    + assert (r = None) as -> by (by rewrite Hr, Hn). unfold m1 in Hacc. rewrite Ht in Hacc. cbn in Hacc. lia.
    + apply elem_of_cons in Hin as [?|Hin]; [done|]. eapply Htomb; [done| |by rewrite Hcr1].
      by rewrite prune_lookup_ne.
Qed.

(** The value the pairs leave for a key: its last one. *)
Fixpoint latest (key : bytes) (kvs : list (bytes * bytes)) : option bytes :=
  match kvs with
  | [] => None
  | (k, v) :: kvs =>
      match latest key kvs with
      | Some x => Some x
      | None => if decide (k = key) then Some v else None
      end
  end.

Lemma mset_pair_spec room_name ts kv c :
  tidy room_name c → is_u64 ts →
  let T := tombs_of (crdt (c_sh c)) room_name in
  wp (mset_pair room_name ts kv) (λ _ c', kept room_name c c'
    ∧ view room_name c' = <[kv.1 := Record_ kv.2 0 ts local_node_id]> (view room_name c)
    ∧ tombs_of (crdt (c_sh c')) room_name
      = unless (prune (clock_at (c_sh c)) kv.1 (view room_name c) !! kv.1) kv.1 T
    ∧ clock (crdt (c_sh c')) = clock (crdt (c_sh c)) ∧ aof (c_sh c') = aof (c_sh c)) c.
Proof.
  intros Hti Hts T. unfold mset_pair. wp_run. eapply wp_mono; [by apply lookup_kept|].
  intros r c1 (Hk1 & Hcr1 & Ha1 & Hkey1 & Hcv1 & Hr & Hv1).
  eapply wp_mono; [apply (write_record room_name kv.1 r kv.2 (local_write 0 ts) c1)|].
  { apply Hk1. } { done. } { done. } { done. } { by apply local_write_wf. }
  intros _ c2 (Hk2 & Hv2 & Ht2 & Hcl2 & Ha2).
  split; [by eapply kept_trans|]. rewrite prune_lookup, <- Hr, Hv2, Ht2, Hcl2, Ha2, Hcr1, Ha1, Hv1.
  split; [rewrite prune_insert; by destruct r|]. by destruct r.
Qed.

Lemma mset_write room_name ts kvs c :
  tidy room_name c → is_u64 ts →
  wp (for_each kvs (mset_pair room_name ts)) (λ _ c', kept room_name c c'
    ∧ clock (crdt (c_sh c')) = clock (crdt (c_sh c)) ∧ aof (c_sh c') = aof (c_sh c)
    ∧ (∀ key, view room_name c' !! key
         = match latest key kvs with
           | Some v => Some (Record_ v 0 ts local_node_id)
           | None => view room_name c !! key end)
    ∧ tombs_of (crdt (c_sh c')) room_name ⊆ tombs_of (crdt (c_sh c)) room_name
    ∧ ∀ key, latest key kvs = None → tombs_of (crdt (c_sh c')) room_name !! key
        = tombs_of (crdt (c_sh c)) room_name !! key) c.
Proof.
  revert c. induction kvs as [|[k v] kvs IH]; intros c Hti Hts; cbn [for_each]; wp_run.
  { split; [by apply kept_refl|done]. }
  eapply wp_mono; [by apply mset_pair_spec|]. cbn [fst snd].
  intros _ c1 (Hk1 & Hv1 & Ht1 & Hcl1 & Ha1). eapply wp_mono; [apply IH; [apply Hk1|done]|].
  intros _ c' (Hk' & Hcl' & Ha' & Hv' & Hsub & Hout).
  set (T := tombs_of (crdt (c_sh c)) room_name) in *.
  assert (HT1 : tombs_of (crdt (c_sh c1)) room_name ⊆ T).
  { rewrite Ht1. unfold unless. destruct (_ !! k); [done|apply delete_subseteq]. }
  split; [by eapply kept_trans|]. split; [congruence|]. split; [congruence|]. split; [|split].
  - intros key. rewrite Hv', Hv1. cbn [latest]. destruct (latest key kvs); [done|].
    destruct (decide (k = key)) as [->|Hne]; [apply lookup_insert_eq|by apply lookup_insert_ne].
  - by trans (tombs_of (crdt (c_sh c1)) room_name).
  - intros key. cbn [latest]. destruct (latest key kvs) eqn:Hl; [done|].
    destruct (decide (k = key)) as [->|Hne]; [done|]. intros _. rewrite Hout, Ht1 by done.
    unfold unless. destruct (_ !! k); [done|by apply lookup_delete_ne].
Qed.

Lemma latest_none key kvs : latest key kvs = None ↔ key ∉ map fst kvs.
Proof.
  induction kvs as [|[k v] kvs IH]; cbn; [split; [by intros _ ?%elem_of_nil|done]|].
  rewrite not_elem_of_cons. destruct (latest key kvs); [intuition congruence|].
  destruct (decide (k = key)) as [->|]; intuition congruence.
Qed.

(** The whole of MSET: one new version over everything it overwrites, the last
    value of every key, one record in the log. *)
Definition mset_done (room_name : bytes) (args : list bytes) (c c' : ctx) : Prop :=
  let kvs := pairs_of (drop 1 args) in
  let ts := clock (crdt (c_sh c')) in
  let T := tombs_of (crdt (c_sh c)) room_name in
  let T' := tombs_of (crdt (c_sh c')) room_name in
  (∃ now m, reading now ∧ ts = next now m (clock (crdt (c_sh c)))
    ∧ (∀ key r, key ∈ map fst kvs → view room_name c !! key = Some r → r_expire r = 0 → r_ts r <= m)
    ∧ ∀ key t, key ∈ map fst kvs → view room_name c !! key = None → T !! key = Some t → v_ts t <= m)
  ∧ (∀ key, view room_name c' !! key
       = match latest key kvs with
         | Some v => Some (Record_ v 0 ts local_node_id)
         | None => view room_name c !! key end)
  ∧ T' ⊆ T ∧ (∀ key, key ∉ map fst kvs → T' !! key = T !! key)
  ∧ logs room_name args 0 ts local_node_id (c_sh c) (c_sh c').

Lemma handle_mset_spec room_name args c :
  tidy room_name c →
  wp (handle_mset room_name args) (λ rep c',
    if (length args <? 3)%nat || Nat.even (length args)
    then rep = reply "-ERR Wrong number of arguments for MSET" ∧ c' = c
    else kept room_name c c' ∧ rep = reply "+OK" ∧ mset_done room_name args c c') c.
Proof.
  intros Hti. unfold handle_mset. destruct (_ || _); wp_run; [done|].
  set (kvs := pairs_of (drop 1 args)).
  eapply wp_mono; [by apply mset_scan|]. intros m [r1 s1] [Hk1 Hcr1 Ha1 Hout1 Hsub1 _ Hrec1 Htomb1].
  cbn [c_room c_sh] in *. wp_run. cbn [c_room c_sh]. fold (clock_at s1).
  eapply wp_mono; [apply clock_next_spec|]. intros ts s2 (Hts & Hcr2 & Hq2 & Ha2).
  change (crdt (upd_sys_tick S s1)) with (crdt s1) in *. change (aof (upd_sys_tick S s1)) with (aof s1) in Ha2.
  assert (Hq2' : quiet s1 s2) by (etrans; [|exact Hq2]; done).
  assert (Hk2 : kept room_name (Ctx_ r1 s1) (Ctx_ r1 s2)).
  { apply kept_quiet; [apply Hk1|done|..]; by rewrite Hcr2. }
  wp_run. eapply wp_mono; [apply mset_write; [apply Hk2|rewrite Hts; apply next_u64]|].
  intros _ [r3 s3] (Hk3 & Hcl3 & Ha3 & Hv3 & Hsub3 & Hout3). cbn [c_room c_sh] in *. wp_run.
  cbn [c_room c_sh]. set (s4 := upd_met _ s3).
  assert (Hs4 : still room_name (Ctx_ r3 s3) (Ctx_ r3 s4)) by (apply still_quiet; [apply Hk3|done..]).
  destruct Hs4 as (Hk4 & Hv4 & _ & _).
  eapply wp_mono; [apply append_kept, Hk4|]. intros b s5 (Hk5 & Hv5 & Hcr5 & Hl5). wp_run.
  change (crdt s4) with (crdt s3) in *.
  assert (Hcl : clock (crdt s5) = ts) by (by rewrite Hcr5, Hcl3, Hcr2).
  assert (Hv2 : view room_name (Ctx_ r1 s2) = view room_name (Ctx_ r1 s1)) by by apply quiet_view.
  assert (HT2 : tombs_of (crdt s2) room_name = tombs_of (crdt (c_sh c)) room_name).
  { rewrite Hcr2, <- Hcr1. done. }
  split; [repeat (eapply kept_trans; [eassumption|]); by apply kept_refl, Hk5|].
  split; [done|]. unfold mset_done. cbn [c_room c_sh]. rewrite Hcl, Hcr5. fold kvs.
  split; [|split; [|split; [|split]]].
  - exists (clock_at s1), m. split; [apply clock_at_reading|].
    split; [by rewrite Hts, Hcr1|]. done.
  - intros key. rewrite Hv5, Hv4, Hv3, Hv2. destruct (latest key kvs) eqn:Hl; [done|].
    by apply Hout1, latest_none.
  - by rewrite <- HT2.
  - intros key Hn. rewrite Hout3 by by apply latest_none. by rewrite HT2.
  - destruct Hl5 as (s7 & H7 & H8). exists s7. split; [|done]. rewrite H7.
    change (aof s4) with (aof s3). by rewrite Ha3, Ha2, Ha1.
Qed.

(** ** EXISTS, MGET, TTL: reads of several keys *)

(** A read: the keys it names may turn out expired, nothing else happens. *)
Record read_only (room_name : bytes) (ks : list bytes) (c c' : ctx) : Prop := {
  rd_kept : kept room_name c c';
  rd_crdt : crdt (c_sh c') = crdt (c_sh c);
  rd_aof : aof (c_sh c') = aof (c_sh c);
  rd_out : ∀ key, key ∉ ks → view room_name c' !! key = view room_name c !! key;
  rd_sub : view room_name c' ⊆ view room_name c;
  rd_all : durable (view room_name c) → view room_name c' = view room_name c
}.

Lemma read_only_refl room_name ks c : tidy room_name c → read_only room_name ks c c.
Proof. intros. split; [by apply kept_refl|done..]. Qed.

Lemma read_only_step room_name k ks c c1 c' :
  kept room_name c c1 → crdt (c_sh c1) = crdt (c_sh c) → aof (c_sh c1) = aof (c_sh c) →
  view room_name c1 = prune (clock_at (c_sh c)) k (view room_name c) →
  read_only room_name ks c1 c' → read_only room_name (k :: ks) c c'.
Proof.
  intros Hk Hc Ha Hv [Hk' Hc' Ha' Hout Hsub Hall]. rewrite Hv in Hout, Hsub, Hall.
  split; [by eapply kept_trans|congruence|congruence|..].
  - intros key Hn. apply not_elem_of_cons in Hn as [Hne Hn]. rewrite Hout by done.
    by apply prune_lookup_ne.
  - trans (prune (clock_at (c_sh c)) k (view room_name c)); [done|apply prune_sub].
  - intros Hd. rewrite prune_durable in Hall by done. by apply Hall.
Qed.

Lemma still_read_only room_name ks c c1 c' :
  still room_name c c1 → read_only room_name ks c1 c' → read_only room_name ks c c'.
Proof.
  intros (Hk & Hv & Hc & Ha) [Hk' Hc' Ha' Hout Hsub Hall]. rewrite Hv in Hout, Hsub, Hall.
  split; [by eapply kept_trans|congruence|congruence|done..].
Qed.

Lemma read_only_still room_name ks c c1 c' :
  read_only room_name ks c c1 → still room_name c1 c' → read_only room_name ks c c'.
Proof.
  intros [Hk' Hc' Ha' Hout Hsub Hall] (Hk & Hv & Hc & Ha).
  split; rewrite ?Hv; [by eapply kept_trans|congruence|congruence|done..].
Qed.

(** How many of the keys are there, repetitions counted. *)
Definition occurrences (ks : list bytes) (V : gmap bytes record) : Z :=
  len (filter (λ k, is_Some (V !! k)) ks).

Lemma exists_loop room_name ks n c :
  tidy room_name c →
  wp (fold_m ks n (count_key room_name)) (λ n' c', read_only room_name ks c c'
    ∧ (durable (view room_name c) → n' = n + occurrences ks (view room_name c))) c.
Proof.
  revert n c. induction ks as [|k ks IH]; intros n c Hti; cbn [fold_m]; wp_run.
  { split; [by apply read_only_refl|]. intros _. unfold occurrences. rewrite filter_nil, len_nil. lia. }
  unfold count_key at 1. wp_run. eapply wp_mono; [by apply lookup_kept|].
  intros r c1 (Hk1 & Hcr1 & Ha1 & _ & _ & Hr & Hv1). wp_run.
  eapply wp_mono; [apply IH, Hk1|]. intros n' c' [Hrd Hn]. split; [by eapply read_only_step|].
  intros Hd. rewrite Hv1, prune_durable in Hn by done. rewrite Hn by done.
  rewrite <- prune_lookup, prune_durable in Hr by done. rewrite Hr. unfold occurrences.
  destruct (decide (is_Some (view room_name c !! k))) as [Hs|Hs].
  - rewrite filter_cons_True, len_cons, bool_decide_true by done. lia.
  - rewrite filter_cons_False, bool_decide_false by done. lia.
Qed.

Lemma handle_exists_spec room_name args c :
  tidy room_name c → (2 ≤ length args)%nat →
  wp (handle_exists room_name args) (λ rep c', read_only room_name (drop 1 args) c c'
    ∧ (durable (view room_name c) → rep = integer_reply (occurrences (drop 1 args) (view room_name c)))) c.
Proof.
  intros Hti Hlen. unfold handle_exists. rewrite (proj2 (Nat.ltb_ge _ _)) by done. wp_run.
  eapply wp_mono; [by apply exists_loop|]. intros n c' [Hrd Hn]. wp_run. split; [done|].
  intros Hd. by rewrite Hn.
Qed.

(** The reply of MGET over a map: [None] when it grows too large. *)
Fixpoint mget_reply (resp3 : bool) (V : gmap bytes record) (ks : list bytes) (out : bytes) : option bytes :=
  match ks with
  | [] => Some out
  | k :: ks =>
      match V !! k with
      | None => mget_reply resp3 V ks (out ++ nil resp3)
      | Some r =>
          if MAX_REPLY <? len out + len (r_value r) then None
          else mget_reply resp3 V ks (out ++ bulk_string (r_value r))
      end
  end.

Lemma mget_loop_spec resp3 room_name ks out c :
  tidy room_name c →
  wp (mget_loop resp3 room_name ks out) (λ o c', read_only room_name ks c c'
    ∧ (durable (view room_name c) → o = mget_reply resp3 (view room_name c) ks out)) c.
Proof.
  revert out c. induction ks as [|k ks IH]; intros out c Hti; cbn [mget_loop]; wp_run.
  { split; [by apply read_only_refl|done]. }
  eapply wp_mono; [by apply lookup_kept|]. intros r c1 (Hk1 & Hcr1 & Ha1 & _ & _ & Hr & Hv1).
  assert (Hr1 : durable (view room_name c) → view room_name c !! k = r).
  { intros Hd. by rewrite Hr, <- prune_lookup, prune_durable. }
  assert (Hv1' : durable (view room_name c) → view room_name c1 = view room_name c).
  { intros Hd. by rewrite Hv1, prune_durable. }
  assert (Hstop : read_only room_name (k :: ks) c c1).
  { eapply read_only_step; [done..|]. apply read_only_refl, Hk1. }
  destruct r as [r|].
  - destruct (MAX_REPLY <? _) eqn:Hmax; wp_run.
    { split; [done|]. intros Hd. cbn [mget_reply]. by rewrite Hr1, Hmax. }
    unfold record_access. wp_run. destruct c1 as [r1 s1]. cbn [c_room c_sh]. set (s2 := upd_cold _ s1).
    assert (Hs2 : still room_name (Ctx_ r1 s1) (Ctx_ r1 s2)) by (apply still_quiet; [apply Hk1|done..]).
    pose proof (still_tidy _ _ _ Hs2) as Hti2.
    eapply wp_mono; [by apply IH|]. intros o c' [Hrd Ho].
    split; [eapply read_only_step; [done..|]; by eapply still_read_only|].
    intros Hd. cbn [mget_reply]. rewrite Hr1, Hmax by done. destruct Hs2 as (_ & Hv2 & _).
    rewrite Hv2, Hv1' in Ho by done. by apply Ho.
  - eapply wp_mono; [apply IH, Hk1|]. intros o c' [Hrd Ho]. split; [by eapply read_only_step|].
    intros Hd. cbn [mget_reply]. rewrite Hr1 by done. rewrite Hv1' in Ho by done. by apply Ho.
Qed.

Lemma handle_mget_spec resp3 room_name args c :
  tidy room_name c → (2 ≤ length args)%nat →
  wp (handle_mget resp3 room_name args) (λ rep c', read_only room_name (drop 1 args) c c'
    ∧ (durable (view room_name c) →
       rep = from_option id (reply "-ERR reply too large")
         (mget_reply resp3 (view room_name c) (drop 1 args)
            (str "*" ++ to_string_u (len args - 1) ++ CRLF)))) c.
Proof.
  intros Hti Hlen. unfold handle_mget. rewrite (proj2 (Nat.ltb_ge _ _)) by done. wp_run.
  eapply wp_mono; [by apply mget_loop_spec|]. intros o [r1 s1] [Hrd Ho].
  destruct o as [o|]; wp_run; cbn [c_room c_sh].
  - set (s2 := upd_met _ s1).
    assert (Hs2 : still room_name (Ctx_ r1 s1) (Ctx_ r1 s2))
      by (apply still_quiet; [apply (rd_kept _ _ _ _ Hrd)|done..]).
    split; [by eapply read_only_still|]. intros Hd. by rewrite <- Ho.
  - split; [done|]. intros Hd. by rewrite <- Ho.
Qed.

Lemma handle_ttl_spec millis room_name args c :
  tidy room_name c → length args = 2%nat →
  let key := arg args 1 in
  let V1 := prune (clock_at (c_sh c)) key (view room_name c) in
  wp (handle_ttl millis room_name args) (λ rep c', kept room_name c c'
    ∧ view room_name c' = V1 ∧ crdt (c_sh c') = crdt (c_sh c) ∧ aof (c_sh c') = aof (c_sh c)
    ∧ match V1 !! key with
      | None => rep = reply ":-2"
      | Some r =>
          if r_expire r =? 0 then rep = reply ":-1"
          else ∃ now, reading now ∧
            let left := Z.max 0 (r_expire r - now) in
            rep = integer_reply (if millis then left else (left + 500) ÷ 1000)
      end) c.
Proof.
  intros Hti Hlen key V1. unfold handle_ttl. rewrite Hlen. cbn [Nat.eqb negb]. wp_run.
  eapply wp_mono; [by apply lookup_kept|]. intros r [r1 s1] (Hk1 & Hcr1 & Ha1 & _ & _ & Hr & Hv1).
  fold key in Hr, Hv1. fold V1 in Hv1.
  assert (Hr1 : V1 !! key = r) by (unfold V1; by rewrite prune_lookup). rewrite Hr1.
  destruct r as [r|]; wp_run; [|done]. destruct (r_expire r =? 0); wp_run; [done|].
  cbn [c_room c_sh] in *. set (s2 := upd_sys_tick S s1).
  assert (Hs2 : still room_name (Ctx_ r1 s1) (Ctx_ r1 s2)) by (apply still_quiet; [apply Hk1|done..]).
  destruct Hs2 as (Hk2 & Hv2 & Hc2 & Ha2). cbn [c_room c_sh] in *.
  split; [by eapply kept_trans|]. split; [congruence|]. split; [congruence|]. split; [congruence|].
  exists (clock_at s1). split; [apply clock_at_reading|done].
Qed.

End specs.
