(* ===== verification/KeyCommands.v ===== *)
(** * Correctness of the commands on keys

    The theorems about GET, SET, MSET, MGET, EXISTS, EXPIRE, TTL and DEL that
    a client relies on, from the effects proved in CommandSpecs. *)

From S2P Require Import Prelude FsUtil Resp Hlc Config World Types State Cold Aof Keyspace Crdt Effects Commands CommandSpecs.

(** ** What the options mean, without the loop that reads them *)

(** NX or XX, in any case. *)
Definition condition_word (o : bytes) (nx xx : bool) : Prop :=
  upper o = str "NX" ∧ nx = true ∧ xx = false ∨ upper o = str "XX" ∧ nx = false ∧ xx = true.

(** EX or PX and its number: [e] is that many seconds or milliseconds from now,
    a positive time that fits in 64 bits. *)
Definition ttl_words (now : Z) (o a : bytes) (e : Z) : Prop :=
  ∃ n, parse_i64 a = Some n ∧ 0 < n ∧ e <= LLONG_MAX
  ∧ (upper o = str "EX" ∧ e = now + n * 1000 ∨ upper o = str "PX" ∧ e = now + n).

(** The options of SET: at most one condition and at most one deadline, in any
    order. *)
Inductive set_syntax (now : Z) : list bytes → bool → bool → Z → Prop :=
  | No_option : set_syntax now [] false false 0
  | Condition o nx xx : condition_word o nx xx → set_syntax now [o] nx xx 0
  | Ttl o a e : ttl_words now o a e → set_syntax now [o; a] false false e
  | Condition_ttl c o a nx xx e : condition_word c nx xx → ttl_words now o a e →
      set_syntax now [c; o; a] nx xx e
  | Ttl_condition c o a nx xx e : condition_word c nx xx → ttl_words now o a e →
      set_syntax now [o; a; c] nx xx e.

(** The first words are right up to a deadline that is none. *)
Definition bad_deadline (now : Z) (opts : list bytes) : Prop :=
  ∃ before o a rest, opts = before ++ o :: a :: rest
  ∧ (before = [] ∨ ∃ c nx xx, before = [c] ∧ condition_word c nx xx)
  ∧ (upper o = str "EX" ∨ upper o = str "PX") ∧ ∀ e, ¬ ttl_words now o a e.

Definition invalid_ttl : bytes := reply "-ERR invalid expire time in 'set' command".
Definition syntax_error : bytes := reply "-ERR syntax error".

(** *** The loop of SET reads them *)

Lemma eqs_spec w o : eqs w o = true ↔ o = str w.
Proof. unfold eqs. by rewrite bool_decide_eq_true. Qed.

Definition scale_of (o : bytes) : Z := if eqs "EX" (upper o) then 1000 else 1.

(** One deadline: what the loop accepts. *)
Lemma ttl_words_spec now o a :
  0 <= now < 2 ^ 47 → (eqs "EX" (upper o) || eqs "PX" (upper o)) = true →
  match parse_i64 a with
  | None => ∀ e, ¬ ttl_words now o a e
  | Some n =>
      if (n <=? 0) || ((LLONG_MAX - now) ÷ scale_of o <? n) then ∀ e, ¬ ttl_words now o a e
      else 0 < now + n * scale_of o ∧ ∀ e, ttl_words now o a e ↔ e = now + n * scale_of o
  end.
Proof.
  intros Hnow Hw.
  assert (Hs : (upper o = str "EX" ∧ scale_of o = 1000) ∨ (upper o = str "PX" ∧ scale_of o = 1)).
  { unfold scale_of. apply orb_true_iff in Hw as [E|E]; rewrite ?E; apply eqs_spec in E; [by left|right].
    split; [done|]. rewrite E. done. }
  assert (Hne : str "EX" ≠ str "PX") by done.
  destruct (parse_i64 a) as [n|] eqn:Ea; [|intros e (n & ? & _); congruence].
  assert (Hq : (LLONG_MAX - now) ÷ scale_of o < n ↔ LLONG_MAX < now + n * scale_of o).
  { destruct Hs as [[_ ->]|[_ ->]]; rewrite Z.quot_div_nonneg by ulia; [|rewrite Z.div_1_r; lia].
    pose proof (Z.mul_div_le (LLONG_MAX - now) 1000 ltac:(lia)).
    pose proof (Z.mul_succ_div_gt (LLONG_MAX - now) 1000 ltac:(lia)). lia. }
  destruct ((n <=? 0) || _) eqn:E.
  - intros e (m & Hm & Hpos & Hmax & Hor). assert (m = n) as -> by congruence.
    apply orb_true_iff in E as [E%Z.leb_le|E%Z.ltb_lt]; [lia|]. apply Hq in E.
    destruct Hs as [[Hu Es]|[Hu Es]], Hor as [[Hu' ?]|[Hu' ?]]; rewrite Es in E; try congruence; lia.
  - apply orb_false_iff in E as [Hpos%Z.leb_gt Hmax%Z.ltb_ge].
    assert (Hle : now + n * scale_of o <= LLONG_MAX) by lia.
    split; [destruct Hs as [[_ ->]|[_ ->]]; lia|]. intros e. split.
    + intros (m & Hm & _ & _ & Hor). assert (m = n) as -> by congruence.
      destruct Hs as [[Hu ->]|[Hu ->]], Hor as [[Hu' ?]|[Hu' ?]]; try congruence; lia.
    + intros ->. exists n. split_and!; [done|done|done|].
      destruct Hs as [[Hu ->]|[Hu ->]]; [left|right]; (split; [done|lia]).
Qed.

(** A condition word is not a deadline word. *)
Lemma condition_word_spec o :
  if eqs "NX" (upper o) || eqs "XX" (upper o)
  then condition_word o (eqs "NX" (upper o)) (eqs "XX" (upper o))
       ∧ (∀ nx xx, condition_word o nx xx → nx = eqs "NX" (upper o) ∧ xx = eqs "XX" (upper o))
       ∧ eqs "EX" (upper o) || eqs "PX" (upper o) = false ∧ ∀ now a e, ¬ ttl_words now o a e
  else ∀ nx xx, ¬ condition_word o nx xx.
Proof.
  assert (Hw : ∀ w, eqs w (upper o) = true → upper o = str w) by (intros w; apply eqs_spec).
  destruct (eqs "NX" (upper o)) eqn:Hn; [|destruct (eqs "XX" (upper o)) eqn:Hx]; cbn [orb].
  - apply Hw in Hn. rewrite Hn. unfold condition_word, ttl_words. rewrite Hn.
    split_and!; [by left|by intros ?? [(_&->&->)|(?&_)]|done|]. by intros now a e (n & _ & _ & _ & [[? _]|[? _]]).
  - apply Hw in Hx. unfold condition_word, ttl_words. rewrite Hx.
    split_and!; [by right|by intros ?? [(?&_)|(_&->&->)]|done|]. by intros now a e (n & _ & _ & _ & [[? _]|[? _]]).
  - intros nx xx [(E & _)|(E & _)]; rewrite E in *; [by revert Hn|by revert Hx].
Qed.

(** What the loop does with the next words. *)
Inductive next_word (now : Z) (o : bytes) (rest : list bytes) : Prop :=
  | Next_condition nx xx : condition_word o nx xx → nx || xx = true →
      (∀ e, set_options now (o :: rest) false false e = set_options now rest nx xx e) →
      (∀ nx' xx' e, nx' || xx' = true → set_options now (o :: rest) nx' xx' e = inl syntax_error) →
      next_word now o rest
  | Next_ttl : (upper o = str "EX" ∨ upper o = str "PX") →
      (∀ nx xx, match rest with
         | [] => set_options now [o] nx xx 0 = inl syntax_error
         | a :: rest =>
             (∃ e, ttl_words now o a e ∧ 0 < e ∧ set_options now (o :: a :: rest) nx xx 0 = set_options now rest nx xx e)
             ∨ (∀ e, ¬ ttl_words now o a e) ∧ set_options now (o :: a :: rest) nx xx 0 = inl invalid_ttl
         end) →
      (∀ nx xx e, 0 < e → set_options now (o :: rest) nx xx e = inl syntax_error) →
      next_word now o rest
  | Next_other : (∀ nx xx e, set_options now (o :: rest) nx xx e = inl syntax_error) → next_word now o rest.

Lemma next_word_of now o rest : 0 <= now < 2 ^ 47 → next_word now o rest.
Proof.
  intros Hnow. pose proof (condition_word_spec o) as Hc.
  destruct (eqs "NX" (upper o) || eqs "XX" (upper o)) eqn:Ec.
  - destruct Hc as (Hc & _ & Ht & _). apply (Next_condition _ _ _ _ _ Hc Ec).
    + intros e. cbn [set_options]. by rewrite Ec.
    + intros nx xx e Hn. cbn [set_options]. rewrite Ec, Ht. destruct nx; [done|]. cbn in Hn. by rewrite Hn.
  - destruct (eqs "EX" (upper o) || eqs "PX" (upper o)) eqn:Et.
    + apply Next_ttl.
      * apply orb_true_iff in Et as [E|E]; apply eqs_spec in E; auto.
      * intros nx xx. cbn [set_options]. rewrite Ec, Et. cbn [andb Z.eqb]. destruct rest as [|a rest]; [done|].
        pose proof (ttl_words_spec now o a Hnow Et) as Hs. fold (scale_of o).
        destruct (parse_i64 a) as [n|]; [|by right]. destruct ((n <=? 0) || _); [by right|left].
        destruct Hs as [Hpos Hs]. eexists. split; [by apply Hs|]. split; [done|reflexivity].
      * intros nx xx e He. cbn [set_options]. rewrite Ec, Et. cbn [andb].
        by replace (e =? 0) with false by (symmetry; apply Z.eqb_neq; lia).
    + apply Next_other. intros nx xx e. cbn [set_options]. by rewrite Ec, Et.
Qed.

Ltac next_word now o rest :=
  destruct (next_word_of now o rest ltac:(assumption)) as [? ? ?Hc ?Hx ?Hgo ?Hstop|?Hw ?Hgo ?Hstop|?Hstop].

(** What the loop returns is right. *)
Definition read_right (now : Z) (opts : list bytes) (res : bytes + (bool * bool * Z)) : Prop :=
  match res with
  | inr (nx, xx, e) => set_syntax now opts nx xx e
  | inl err => err = syntax_error ∨ err = invalid_ttl ∧ bad_deadline now opts
  end.

(** With a condition and a deadline nothing may follow. *)
Lemma set_options_full now opts nx xx e :
  0 <= now < 2 ^ 47 → nx || xx = true → 0 < e →
  set_options now opts nx xx e = if decide (opts = []) then inr (nx, xx, e) else inl syntax_error.
Proof.
  intros Hnow Hx He. destruct opts as [|o rest]; [done|]. rewrite decide_False by done. next_word now o rest; auto.
Qed.

Lemma set_options_right now opts : 0 <= now < 2 ^ 47 → read_right now opts (set_options now opts false false 0).
Proof.
  intros Hnow. destruct opts as [|o rest]; [constructor|]. next_word now o rest.
  - rewrite Hgo. destruct rest as [|o2 rest]; [by constructor|].
    next_word now o2 rest; [rewrite Hstop0 by done; by left| |rewrite Hstop0; by left].
    specialize (Hgo0 nx xx). destruct rest as [|a rest]; [rewrite Hgo0; by left|].
    destruct Hgo0 as [(e & He & Hpos & ->)|[Hno ->]].
    + rewrite set_options_full by done. destruct (decide (rest = [])) as [->|]; [by constructor|by left].
    + right. split; [done|]. exists [o], o2, a, rest. split_and!; [done|right; by eauto|done..].
  - specialize (Hgo false false). destruct rest as [|a rest]; [rewrite Hgo; by left|].
    destruct Hgo as [(e & He & Hpos & ->)|[Hno ->]].
    + destruct rest as [|c rest]; [by constructor|]. next_word now c rest; [|rewrite Hstop0 by done; by left|rewrite Hstop0; by left].
      rewrite Hgo, set_options_full by done. destruct (decide (rest = [])) as [->|]; [by constructor|by left].
    + right. split; [done|]. exists [], o, a, rest. split_and!; [done|by left|done..].
  - rewrite Hstop. by left.
Qed.

(** *** The reading is complete *)

Lemma condition_step now o rest nx xx e :
  0 <= now < 2 ^ 47 → condition_word o nx xx →
  set_options now (o :: rest) false false e = set_options now rest nx xx e ∧ nx || xx = true.
Proof.
  intros Hnow Hc. pose proof (condition_word_spec o) as Hs. destruct (_ || _) eqn:E in Hs; [|by apply Hs in Hc].
  destruct Hs as (_ & Hu & _). destruct (Hu _ _ Hc) as [-> ->]. split; [|done]. cbn [set_options]. by rewrite E.
Qed.

Lemma ttl_step now o a rest nx xx e :
  0 <= now < 2 ^ 47 → ttl_words now o a e →
  set_options now (o :: a :: rest) nx xx 0 = set_options now rest nx xx e ∧ 0 < e.
Proof.
  intros Hnow Ht. pose proof Ht as (n & Hn & _ & _ & Hw).
  assert (eqs "NX" (upper o) || eqs "XX" (upper o) = false ∧ eqs "EX" (upper o) || eqs "PX" (upper o) = true)
    as [Ec Et] by (by destruct Hw as [[-> _]|[-> _]]).
  pose proof (ttl_words_spec now o a Hnow Et) as Hs. cbn [set_options]. rewrite Ec, Et, Hn in *. cbn [andb Z.eqb].
  fold (scale_of o). destruct ((n <=? 0) || _); [by apply Hs in Ht|]. destruct Hs as [Hpos Hs].
  apply Hs in Ht as ->. by split.
Qed.

Lemma set_options_complete now opts nx xx e :
  0 <= now < 2 ^ 47 → set_syntax now opts nx xx e → set_options now opts false false 0 = inr (nx, xx, e).
Proof.
  intros Hnow Hs. destruct Hs as [|o nx xx Hc|o a e Ht|c o a nx xx e Hc Ht|c o a nx xx e Hc Ht]; [done|..].
  - by destruct (condition_step now o [] nx xx 0 Hnow Hc) as [-> _].
  - by destruct (ttl_step now o a [] false false e Hnow Ht) as [-> _].
  - destruct (condition_step now c [o; a] nx xx 0 Hnow Hc) as [-> _].
    by destruct (ttl_step now o a [] nx xx e Hnow Ht) as [-> _].
  - destruct (ttl_step now o a [c] false false e Hnow Ht) as [-> _].
    by destruct (condition_step now c [] nx xx e Hnow Hc) as [-> _].
Qed.

Lemma set_options_refuses now opts :
  0 <= now < 2 ^ 47 → bad_deadline now opts → set_options now opts false false 0 = inl invalid_ttl.
Proof.
  intros Hnow (before & o & a & rest & -> & Hb & Hw & Hno).
  assert (Hgo : ∀ nx xx, set_options now (o :: a :: rest) nx xx 0 = inl invalid_ttl).
  { intros nx xx.
    assert (eqs "NX" (upper o) || eqs "XX" (upper o) = false ∧ eqs "EX" (upper o) || eqs "PX" (upper o) = true)
      as [Ec Et] by (by destruct Hw as [->| ->]).
    pose proof (ttl_words_spec now o a Hnow Et) as Hs. cbn [set_options]. rewrite Ec, Et. cbn [andb Z.eqb].
    fold (scale_of o). destruct (parse_i64 a) as [n|]; [|done]. destruct ((n <=? 0) || _); [done|].
    exfalso. destruct Hs as [_ Hs]. eapply Hno, Hs. reflexivity. }
  destruct Hb as [->|(c & nx & xx & -> & Hc)]; cbn [app]; [apply Hgo|].
  destruct (condition_step now c (o :: a :: rest) nx xx 0 Hnow Hc) as [-> _]. apply Hgo.
Qed.

(** The three outcomes of reading the options of SET. *)
Lemma set_options_spec now opts :
  0 <= now < 2 ^ 47 →
  (∀ nx xx e, set_syntax now opts nx xx e → set_options now opts false false 0 = inr (nx, xx, e))
  ∧ (bad_deadline now opts → set_options now opts false false 0 = inl invalid_ttl)
  ∧ ((∀ nx xx e, ¬ set_syntax now opts nx xx e) → ¬ bad_deadline now opts →
     set_options now opts false false 0 = inl syntax_error).
Proof.
  intros Hnow. split_and!; [intros nx xx e; by apply set_options_complete|by apply set_options_refuses|].
  intros Hno Hnb. pose proof (set_options_right now opts Hnow) as Hr. unfold read_right in Hr.
  destruct (set_options _ _ _ _ _) as [err|[[nx xx] e]]; [|by apply Hno in Hr].
  destruct Hr as [->|[_ Hb]]; [done|by apply Hnb in Hb].
Qed.

(** *** The options of EXPIRE *)

Definition known_option (o : bytes) : Prop :=
  upper o = str "NX" ∨ upper o = str "XX" ∨ upper o = str "GT" ∨ upper o = str "LT".

(** The option is among the arguments, in any case. *)
Definition has_option (w : string) (opts : list bytes) : Prop := ∃ o, o ∈ opts ∧ upper o = str w.

Definition nx_clash (opts : list bytes) : Prop :=
  has_option "NX" opts ∧ (has_option "XX" opts ∨ has_option "GT" opts ∨ has_option "LT" opts).
Definition gt_clash (opts : list bytes) : Prop := has_option "GT" opts ∧ has_option "LT" opts.

(** The conditions let the deadline [e] take the place of that of [r]; a record
    without one counts as never expiring. *)
Definition conditions_hold (opts : list bytes) (e : Z) (r : record) : Prop :=
  (has_option "NX" opts → r_expire r = 0)
  ∧ (has_option "XX" opts → r_expire r ≠ 0)
  ∧ (has_option "GT" opts → r_expire r ≠ 0 ∧ r_expire r < e)
  ∧ (has_option "LT" opts → r_expire r = 0 ∨ e < r_expire r).

(** [a] is a number of seconds or milliseconds whose deadline, and itself in
    milliseconds, fit in 64 bits. *)
Definition deadline_words (scale now : Z) (a : bytes) (n e : Z) : Prop :=
  parse_i64 a = Some n ∧ e = now + n * scale ∧ LLONG_MIN <= n * scale ∧ e <= LLONG_MAX.

Definition flag (w : string) (o : expire_opts) : bool :=
  if decide (w = "NX"%string) then o_nx o else if decide (w = "XX"%string) then o_xx o
  else if decide (w = "GT"%string) then o_gt o else o_lt o.

Lemma has_option_cons w o l : has_option w (o :: l) ↔ upper o = str w ∨ has_option w l.
Proof.
  unfold has_option. split.
  - intros (x & [->|Hx]%elem_of_cons & E); [by left|right; by exists x].
  - intros [E|(x & Hx & E)]; [exists o; split; [apply elem_of_cons; by left|done]|exists x; split; [apply elem_of_cons; by right|done]].
Qed.

Lemma has_option_nil w : ¬ has_option w [].
Proof. by intros (o & ?%elem_of_nil & _). Qed.

(** Reading them sets the flags of the options that are there. *)
Lemma expire_options_known opts o :
  Forall known_option opts → ∃ o', expire_options opts o = inr o'
    ∧ (o_nx o' = true ↔ o_nx o = true ∨ has_option "NX" opts)
    ∧ (o_xx o' = true ↔ o_xx o = true ∨ has_option "XX" opts)
    ∧ (o_gt o' = true ↔ o_gt o = true ∨ has_option "GT" opts)
    ∧ (o_lt o' = true ↔ o_lt o = true ∨ has_option "LT" opts).
Proof.
  intros Hk. revert o. induction Hk as [|a l Ha _ IH]; intros o; cbn [expire_options].
  { exists o. split; [done|]. pose proof has_option_nil. naive_solver. }
  assert (Hne : ∀ w w', eqs w (str w') = bool_decide (str w' = str w)) by done.
  destruct Ha as [E|[E|[E|E]]]; rewrite E.
  - destruct (IH (ExpireOpts true (o_xx o) (o_gt o) (o_lt o))) as (o' & Ho & H1 & H2 & H3 & H4).
    exists o'. split; [exact Ho|]. rewrite !has_option_cons, E. cbn [o_nx o_xx o_gt o_lt] in *.
    assert (str "NX" ≠ str "XX" ∧ str "NX" ≠ str "GT" ∧ str "NX" ≠ str "LT") as (?&?&?) by done. naive_solver.
  - destruct (IH (ExpireOpts (o_nx o) true (o_gt o) (o_lt o))) as (o' & Ho & H1 & H2 & H3 & H4).
    exists o'. split; [exact Ho|]. rewrite !has_option_cons, E. cbn [o_nx o_xx o_gt o_lt] in *.
    assert (str "XX" ≠ str "NX" ∧ str "XX" ≠ str "GT" ∧ str "XX" ≠ str "LT") as (?&?&?) by done. naive_solver.
  - destruct (IH (ExpireOpts (o_nx o) (o_xx o) true (o_lt o))) as (o' & Ho & H1 & H2 & H3 & H4).
    exists o'. split; [exact Ho|]. rewrite !has_option_cons, E. cbn [o_nx o_xx o_gt o_lt] in *.
    assert (str "GT" ≠ str "NX" ∧ str "GT" ≠ str "XX" ∧ str "GT" ≠ str "LT") as (?&?&?) by done. naive_solver.
  - destruct (IH (ExpireOpts (o_nx o) (o_xx o) (o_gt o) true)) as (o' & Ho & H1 & H2 & H3 & H4).
    exists o'. split; [exact Ho|]. rewrite !has_option_cons, E. cbn [o_nx o_xx o_gt o_lt] in *.
    assert (str "LT" ≠ str "NX" ∧ str "LT" ≠ str "XX" ∧ str "LT" ≠ str "GT") as (?&?&?) by done. naive_solver.
Qed.

Lemma expire_options_unknown before a rest o :
  Forall known_option before → ¬ known_option a →
  expire_options (before ++ a :: rest) o = inl (str "-ERR Unsupported option " ++ a ++ CRLF).
Proof.
  intros Hk Ha. revert o. induction Hk as [|b l Hb _ IH]; intros o; cbn [expire_options app].
  - unfold known_option in Ha. unfold eqs. rewrite !bool_decide_false by tauto. done.
  - by destruct Hb as [E|[E|[E|E]]]; rewrite E; apply IH.
Qed.

Lemma expire_refused_spec o e r :
  expire_refused o e r = false ↔
  (o_nx o = true → r_expire r = 0) ∧ (o_xx o = true → r_expire r ≠ 0)
  ∧ (o_gt o = true → r_expire r ≠ 0 ∧ r_expire r < e) ∧ (o_lt o = true → r_expire r = 0 ∨ e < r_expire r).
Proof.
  unfold expire_refused. destruct (Z.eqb_spec (r_expire r) 0) as [E|E]; cbn [negb].
  - destruct (o_nx o), (o_xx o), (o_gt o), (o_lt o); cbn; naive_solver lia.
  - destruct (Z.leb_spec e (r_expire r)), (Z.leb_spec (r_expire r) e), (o_nx o), (o_xx o), (o_gt o), (o_lt o);
      cbn; naive_solver lia.
Qed.

Lemma deadline_spec scale now args n e :
  0 <= now < 2 ^ 47 → scale = 1 ∨ scale = 1000 →
  deadline scale now args = Some (n, e) ↔ deadline_words scale now (arg args 2) n e.
Proof.
  intros Hnow Hs. unfold deadline, deadline_words, arg. destruct (parse_i64 _) as [m|]; cbn [mbind option_bind]; [|naive_solver].
  assert (Hlo : m < LLONG_MIN ÷ scale ↔ m * scale < LLONG_MIN).
  { destruct Hs as [->| ->]; [change (LLONG_MIN ÷ 1) with LLONG_MIN; lia|].
    change (LLONG_MIN ÷ 1000) with (-9223372036854775). ulia. }
  assert (Hhi : (LLONG_MAX - now) ÷ scale < m ↔ LLONG_MAX < now + m * scale).
  { rewrite Z.quot_div_nonneg by ulia. destruct Hs as [->| ->]; [rewrite Z.div_1_r; lia|].
    pose proof (Z.mul_div_le (LLONG_MAX - now) 1000 ltac:(lia)).
    pose proof (Z.mul_succ_div_gt (LLONG_MAX - now) 1000 ltac:(lia)). lia. }
  destruct (Z.ltb_spec m (LLONG_MIN ÷ scale)) as [L|L]; cbn [orb].
  - apply Hlo in L. split; [done|]. intros ([= ->] & _ & ? & _). lia.
  - assert (LLONG_MIN <= m * scale) by lia. destruct (Z.ltb_spec ((LLONG_MAX - now) ÷ scale) m) as [U|U].
    + apply Hhi in U. split; [done|]. intros ([= ->] & -> & _ & ?). lia.
    + split; [intros [= <- <-]; split_and!; try done; lia|]. by intros ([= ->] & -> & _).
Qed.

(** The flags of EXPIRE after its loop. *)
Lemma flags_spec opts o :
  (o_nx o = true ↔ o_nx (ExpireOpts false false false false) = true ∨ has_option "NX" opts)
  ∧ (o_xx o = true ↔ o_xx (ExpireOpts false false false false) = true ∨ has_option "XX" opts)
  ∧ (o_gt o = true ↔ o_gt (ExpireOpts false false false false) = true ∨ has_option "GT" opts)
  ∧ (o_lt o = true ↔ o_lt (ExpireOpts false false false false) = true ∨ has_option "LT" opts) →
  (o_nx o && (o_xx o || o_gt o || o_lt o) = true ↔ nx_clash opts)
  ∧ (o_gt o && o_lt o = true ↔ gt_clash opts)
  ∧ ∀ e r, expire_refused o e r = false ↔ conditions_hold opts e r.
Proof.
  cbn [o_nx o_xx o_gt o_lt]. intros (H1 & H2 & H3 & H4). unfold nx_clash, gt_clash, conditions_hold.
  split_and!; [rewrite !andb_true_iff, !orb_true_iff; naive_solver|rewrite !andb_true_iff; naive_solver|].
  intros e r. rewrite expire_refused_spec. naive_solver.
Qed.

Section claims.
  Context `{World} (Hreads : reads_ok) (Hsane : sane_clock) (Hnode : is_u32 local_node_id).

(** C30: SET on every branch. A wrong number of arguments touches nothing. The
    options are right when they are at most one condition, NX or XX, and at
    most one deadline, EX seconds or PX milliseconds, in any case and order, the
    deadline a positive number of units from now that fits in 64 bits. A word
    that should be a deadline and is none is reported as such, anything else as
    a syntax error, and neither touches anything. With right options, NX on a
    key that is there or XX on one that is not replies nil and writes nothing;
    otherwise the key holds exactly the value, the deadline (none without EX
    and PX) and a version of this node that exceeds the record or tombstone it
    overwrites, its tombstone goes, and the AOF gets the command with that
    deadline and version. *)
Theorem set_effect resp3 room_name args c :
  tidy room_name c →
  let key := arg args 1 in
  let opts := drop 3 args in
  let now := clock_at (c_sh c) in
  let V1 := prune (second_clock c) key (view room_name c) in
  let '(rep, c') := handle_set resp3 room_name args c in
  if (length args <? 3)%nat
  then rep = reply "-ERR Wrong number of arguments for SET" ∧ c' = c else
  kept room_name c c'
  ∧ (bad_deadline now opts → rep = invalid_ttl ∧ still room_name c c')
  ∧ (¬ bad_deadline now opts → (∀ nx xx e, ¬ set_syntax now opts nx xx e) →
     rep = syntax_error ∧ still room_name c c')
  ∧ ∀ nx xx e, set_syntax now opts nx xx e →
      let refused := nx = true ∧ is_Some (V1 !! key) ∨ xx = true ∧ V1 !! key = None in
      (e = 0 ∨ now < e <= LLONG_MAX)
      ∧ (refused → rep = nil resp3 ∧ view room_name c' = V1
          ∧ crdt (c_sh c') = crdt (c_sh c) ∧ aof (c_sh c') = aof (c_sh c))
      ∧ (¬ refused → rep = reply "+OK"
          ∧ wrote room_name key V1 args (arg args 2) e now c c'
          ∧ (0 <= clock (crdt (c_sh c)) < UINT64_MAX →
             let old := overwritten (V1 !! key) (tombs_of (crdt (c_sh c)) room_name !! key) in
             0 <= old < UINT64_MAX → old < clock (crdt (c_sh c')))).
Proof.
  intros Hti key opts now V1. pose proof (handle_set_spec Hreads Hsane Hnode resp3 room_name args c Hti) as Hs.
  cbv zeta in Hs. unfold wp in Hs. fold key now V1 opts in Hs.
  destruct (handle_set resp3 room_name args c) as [rep c']. cbn [fst snd] in Hs.
  destruct (_ <? 3)%nat; [done|]. destruct Hs as [Hk Hs]. split; [done|].
  assert (Hnow : 0 <= now < 2 ^ 47) by apply Hsane.
  destruct (set_options_spec now opts Hnow) as (Hright & Hbad & Hsyn).
  split; [intros Hb; by rewrite Hbad in Hs|]. split; [intros Hb Hno; by rewrite Hsyn in Hs|].
  intros nx xx e Hopt refused. apply Hright in Hopt. rewrite Hopt in Hs.
  split; [by eapply set_options_deadline|]. destruct (_ || _) eqn:Hr.
  - split; [done|]. intros Hnr. exfalso. apply Hnr. unfold refused.
    apply orb_true_iff in Hr as [[-> Hb%bool_decide_eq_true]%andb_prop|[-> Hb]%andb_prop]; [by left|right].
    apply negb_true_iff, bool_decide_eq_false, eq_None_not_Some in Hb. done.
  - split.
    + intros [[-> Hb]|[-> Hb]]; exfalso; [|rewrite Hb in Hr; cbn in Hr; by rewrite orb_true_r in Hr].
      by rewrite (bool_decide_true _ Hb) in Hr.
    + intros _. destruct Hs as [Hrep Hw]. split; [done|]. split; [done|].
      intros Hcl old Hold. rewrite (wr_clock _ _ _ _ _ _ _ _ _ Hw). by apply next_gt.
Qed.

(** DEL removes every key it names, wherever it is stored, and no other
    key; the reply counts the distinct keys that were there. When replication
    is on and there is room for new versions, each deleted key is left with a
    tombstone strictly newer than the record it removed (so the deletion wins
    on every node), and tombstones are never lowered. *)
Theorem del_effect room_name args c :
  tidy room_name c → (2 ≤ length args)%nat →
  let ks := drop 1 args in
  let V := view room_name c in
  let '(rep, c') := handle_del room_name args c in
  kept room_name c c'
  ∧ (∀ key, view room_name c' !! key = if decide (key ∈ ks) then None else V !! key)
  ∧ (durable V → rep = integer_reply (present ks V))
  ∧ ∀ B, roomy B room_name c → B + len ks < UINT64_MAX → peer_count ≠ 0%nat → ∀ key,
      (∀ ts, buried_above key ts (tombs_of (crdt (c_sh c)) room_name) →
             buried_above key ts (tombs_of (crdt (c_sh c')) room_name))
      ∧ ∀ r, durable V → key ∈ ks → V !! key = Some r →
          buried_above key (r_ts r) (tombs_of (crdt (c_sh c')) room_name).
Proof.
  intros Hti Hlen ks V. pose proof (del_loop Hreads Hsane room_name ks 0 c Hti) as Hs.
  unfold handle_del. rewrite (proj2 (Nat.ltb_ge _ _)) by done. unfold wp in Hs. unfold bind, ret.
  fold ks. destruct (fold_m ks 0 (del_step room_name) c) as [n c']. cbn [fst snd] in Hs.
  destruct Hs as (Hk & Hv & Hn & Hb).
  split; [done|]. split; [done|]. split; [intros Hd; by rewrite Hn|exact Hb].
Qed.

(** MSET is atomic: with a wrong number of arguments nothing happens;
    otherwise every key gets the last value the command gives it, all under
    one new version that exceeds every record and tombstone it overwrites, no
    other key changes, and the AOF gets one record for the whole command. *)
Theorem mset_effect room_name args c :
  tidy room_name c →
  let '(rep, c') := handle_mset room_name args c in
  if (length args <? 3)%nat || Nat.even (length args)
  then rep = reply "-ERR Wrong number of arguments for MSET" ∧ c' = c
  else kept room_name c c' ∧ rep = reply "+OK" ∧ mset_done room_name args c c'.
Proof.
  intros Hti. pose proof (handle_mset_spec Hreads Hnode room_name args c Hti) as Hs. unfold wp in Hs.
  by destruct (handle_mset room_name args c).
Qed.

(** EXPIRE once its options are read: [res] is what the handler did. *)
Lemma expire_accepted scale room_name key opts o args V1 rep c c' :
  scale = 0 ∨ scale = 1 ∨ scale = 1000 →
  (∀ e r, expire_refused o e r = false ↔ conditions_hold opts e r) →
  let unchanged := rep = reply ":0" ∧ view room_name c' = V1
    ∧ crdt (c_sh c') = crdt (c_sh c) ∧ aof (c_sh c') = aof (c_sh c) in
  match deadline_at scale c args with
  | None => rep = reply "-ERR invalid expire time" ∧ still room_name c c'
  | Some (n, e) =>
      match V1 !! key with
      | None => unchanged
      | Some r =>
          if ((scale =? 0) && (r_expire r =? 0)) || expire_refused o e r then unchanged
          else if negb (scale =? 0) && (n <=? 0)
          then view room_name c' = delete key V1 ∧ (durable V1 → rep = integer_reply 1)
          else rep = reply ":1" ∧ rescheduled room_name key V1 r e c c'
      end
  end →
  (scale ≠ 0 → (∀ n e, ¬ deadline_words scale (clock_at (c_sh c)) (arg args 2) n e) →
     rep = reply "-ERR invalid expire time" ∧ still room_name c c')
  ∧ ∀ n e, (if scale =? 0 then n = 0 ∧ e = 0 else deadline_words scale (clock_at (c_sh c)) (arg args 2) n e) →
      (V1 !! key = None → unchanged)
      ∧ ∀ r, V1 !! key = Some r →
          (scale = 0 ∧ r_expire r = 0 ∨ ¬ conditions_hold opts e r → unchanged)
          ∧ (conditions_hold opts e r →
              (scale ≠ 0 → n <= 0 → view room_name c' = delete key V1 ∧ (durable V1 → rep = integer_reply 1))
              ∧ (scale = 0 ∧ r_expire r ≠ 0 ∨ scale ≠ 0 ∧ 0 < n →
                 rep = reply ":1" ∧ rescheduled room_name key V1 r e c c')).
Proof.
  intros Hscale Hcond unchanged Hs.
  assert (Hd : ∀ n e, scale ≠ 0 →
    deadline_at scale c args = Some (n, e) ↔ deadline_words scale (clock_at (c_sh c)) (arg args 2) n e).
  { intros n e Hne. unfold deadline_at. rewrite (proj2 (Z.eqb_neq _ _) Hne).
    apply deadline_spec; [apply Hsane|]. by destruct Hscale. }
  split.
  - intros Hne Hno. destruct (deadline_at scale c args) as [[n e]|]; [|done].
    exfalso. by apply (Hno n e), Hd.
  - intros n e Hne. assert (E : deadline_at scale c args = Some (n, e)).
    { destruct (Z.eqb_spec scale 0) as [->|?]; [destruct Hne as [-> ->]; done|by apply Hd]. }
    rewrite E in Hs. split; [intros Hn; by rewrite Hn in Hs|]. intros r Hr. rewrite Hr in Hs.
    specialize (Hcond e r). destruct (Z.eqb_spec scale 0) as [Hz|Hz]; cbn [andb negb] in Hs.
    + destruct (Z.eqb_spec (r_expire r) 0) as [Hx|Hx]; cbn [orb] in Hs; [split; [done|]; intros _; split; [done|naive_solver]|].
      destruct (expire_refused o e r); split; try done; naive_solver.
    + cbn [orb] in Hs. destruct (expire_refused o e r); [split; [done|]; naive_solver|].
      split; [naive_solver|]. intros _. destruct (Z.leb_spec n 0); split; try done; naive_solver lia.
Qed.

(** C31: EXPIRE, PEXPIRE and PERSIST on every branch. A wrong number of arguments,
    the first argument that is not NX, XX, GT or LT (in any case), NX with
    another of them, or GT with LT is an error, in this order, and touches
    nothing; so is a number whose deadline does not fit in 64 bits. The key
    must be there (and have a deadline, for PERSIST), and the conditions hold:
    NX that it has no deadline, XX that it has one, GT that the new one is later
    than its own, LT that it is sooner, where no deadline is later than any; or
    the reply is 0 and nothing but an expired record changes. A number that is
    not positive deletes the key; otherwise the record keeps its value and gets
    the deadline (now and that many seconds or milliseconds, none for PERSIST)
    and a newer version of this node, and the AOF gets it as a SET of the full
    record. *)
Theorem expire_effect scale room_name args c :
  tidy room_name c → scale = 0 ∨ scale = 1 ∨ scale = 1000 →
  let key := arg args 1 in
  let opts := drop 3 args in
  let V1 := prune (expire_now scale c) key (view room_name c) in
  let '(rep, c') := handle_expire scale room_name args c in
  let unchanged := rep = reply ":0" ∧ view room_name c' = V1
    ∧ crdt (c_sh c') = crdt (c_sh c) ∧ aof (c_sh c') = aof (c_sh c) in
  kept room_name c c' ∧
  if (if scale =? 0 then negb (length args =? 2)%nat else (length args <? 3)%nat)
  then rep = wrong_args (arg args 0) ∧ c' = c else
  (∀ before o rest, opts = before ++ o :: rest → Forall known_option before → ¬ known_option o →
     rep = str "-ERR Unsupported option " ++ o ++ CRLF ∧ c' = c)
  ∧ (Forall known_option opts →
     (nx_clash opts →
        rep = reply "-ERR NX and XX, GT or LT options at the same time are not compatible" ∧ c' = c)
     ∧ (¬ nx_clash opts → gt_clash opts →
        rep = reply "-ERR GT and LT options at the same time are not compatible" ∧ c' = c)
     ∧ (¬ nx_clash opts → ¬ gt_clash opts →
        (scale ≠ 0 → (∀ n e, ¬ deadline_words scale (clock_at (c_sh c)) (arg args 2) n e) →
           rep = reply "-ERR invalid expire time" ∧ still room_name c c')
        ∧ ∀ n e, (if scale =? 0 then n = 0 ∧ e = 0 else deadline_words scale (clock_at (c_sh c)) (arg args 2) n e) →
            (V1 !! key = None → unchanged)
            ∧ ∀ r, V1 !! key = Some r →
                (scale = 0 ∧ r_expire r = 0 ∨ ¬ conditions_hold opts e r → unchanged)
                ∧ (conditions_hold opts e r →
                    (scale ≠ 0 → n <= 0 → view room_name c' = delete key V1 ∧ (durable V1 → rep = integer_reply 1))
                    ∧ (scale = 0 ∧ r_expire r ≠ 0 ∨ scale ≠ 0 ∧ 0 < n →
                       rep = reply ":1" ∧ rescheduled room_name key V1 r e c c')))).
Proof.
  intros Hti Hscale key opts V1.
  pose proof (handle_expire_spec Hreads Hsane Hnode scale room_name args c Hti Hscale) as Hs.
  cbv zeta in Hs. unfold wp in Hs. destruct (handle_expire scale room_name args c) as [rep c'].
  destruct Hs as [Hk Hs]. split; [done|]. unfold expire_args_error, expire_opts_of in Hs. fold opts in Hs.
  destruct (if scale =? 0 then _ else _); [done|].
  split; [intros before o rest Ho Hb Hu; by rewrite Ho, expire_options_unknown in Hs|].
  intros Hknown. destruct (expire_options_known opts (ExpireOpts false false false false) Hknown) as (o & Ho & Hf).
  rewrite Ho in Hs. apply flags_spec in Hf as (Hnx & Hgt & Hcond).
  split; [intros Hc%Hnx; by rewrite Hc in Hs|].
  split; [intros Hn Hc%Hgt; rewrite <- Hnx, not_true_iff_false in Hn; by rewrite Hn, Hc in Hs|].
  intros Hn Hg. rewrite <- Hnx, not_true_iff_false in Hn. rewrite <- Hgt, not_true_iff_false in Hg.
  rewrite Hn, Hg in Hs. by eapply expire_accepted.
Qed.

(** Reads do not write. GET, MGET, EXISTS and TTL leave the CRDT state and
    the AOF alone and change the map only by dropping expired records; GET
    replies the live value or nil, TTL the remaining time, and, when nothing
    expires meanwhile, MGET replies the values in order (or refuses a reply
    over the limit) and EXISTS counts the keys with repetitions. *)
Theorem reads_effect resp3 millis room_name args c :
  tidy room_name c →
  let key := arg args 1 in
  let ks := drop 1 args in
  let V := view room_name c in
  let V1 := prune (clock_at (c_sh c)) key V in
  let '(get, c1) := handle_get resp3 room_name args c in
  let '(ttl, c2) := handle_ttl millis room_name args c in
  let '(mget, c3) := handle_mget resp3 room_name args c in
  let '(ex, c4) := handle_exists room_name args c in
  (length args = 2%nat → read_only room_name [key] c c1 ∧ read_only room_name [key] c c2
     ∧ get = from_option (λ r, bulk_string (r_value r)) (nil resp3) (V1 !! key)
     ∧ match V1 !! key with
       | None => ttl = reply ":-2"
       | Some r =>
           if r_expire r =? 0 then ttl = reply ":-1"
           else ∃ now, reading now ∧ let left := Z.max 0 (r_expire r - now) in
             ttl = integer_reply (if millis then left else (left + 500) ÷ 1000)
       end)
  ∧ ((2 ≤ length args)%nat → read_only room_name ks c c3 ∧ read_only room_name ks c c4
     ∧ (durable V → mget = from_option id (reply "-ERR reply too large")
          (mget_reply resp3 V ks (str "*" ++ to_string_u (len args - 1) ++ CRLF))
          ∧ ex = integer_reply (occurrences ks V))).
Proof.
  intros Hti key ks V V1.
  pose proof (handle_get_spec Hreads resp3 room_name args c Hti) as Hg.
  pose proof (handle_ttl_spec Hreads millis room_name args c Hti) as Ht.
  pose proof (handle_mget_spec Hreads resp3 room_name args c Hti) as Hm.
  pose proof (handle_exists_spec Hreads room_name args c Hti) as He.
  cbv zeta in Hg, Ht. unfold wp in *. fold key in Hg, Ht. fold V in Hg, Ht, Hm, He. fold V1 in Hg, Ht.
  destruct (handle_get _ _ _ _) as [get c1], (handle_ttl _ _ _ _) as [ttl c2],
    (handle_mget _ _ _ _) as [mget c3], (handle_exists _ _ _) as [ex c4]. cbn [fst snd] in *.
  assert (Hro : ∀ c', kept room_name c c' → view room_name c' = V1 → crdt (c_sh c') = crdt (c_sh c) →
    aof (c_sh c') = aof (c_sh c) → read_only room_name [key] c c').
  { intros c' Hk Hv Hc Ha. eapply read_only_step; [done..|]. apply read_only_refl, Hk. }
  split; intros Hlen.
  - destruct (Hg Hlen) as (? & ? & ? & ? & ?), (Ht Hlen) as (? & ? & ? & ? & ?).
    split; [by apply Hro|]. split; [by apply Hro|]. done.
  - destruct (Hm Hlen) as [Hm1 Hm2], (He Hlen) as [He1 He2]. split; [done|]. split; [done|].
    intros Hd. split; [by apply Hm2|by apply He2].
Qed.

End claims.

(** ** Witnesses: one room with the key [k] *)

Lemma calm_sane node : @sane_clock (calm (default_config) 1000) ∧ is_u32 (@local_node_id (calm default_config node)).
Proof. split; [intros k; by vm_compute|by vm_compute]. Qed.

Lemma set_effect_witness :
  let W := calm default_config 1000 in
  let args := map str ["SET"; "k"; "new"; "ex"; "50"; "xX"]%string in
  (view (str "r") (handle_set (H := W) false (str "r") args sample_ctx).2) !! str "k"
  = Some (Record_ (str "new") 51000 65536000 1).
Proof.
  intros W args. destruct (calm_sane 1000) as [Hsane Hnode].
  pose proof (set_effect (H := W) (calm_reads_ok default_config 1000) Hsane Hnode false (str "r") args
    sample_ctx sample_tidy) as Hs. cbv zeta in Hs.
  destruct (handle_set false (str "r") args sample_ctx) as [rep c'] eqn:E.
  destruct Hs as (_ & _ & _ & Hs). destruct (Hs false true 51000) as (_ & _ & Hw).
  { apply (Ttl_condition _ (str "xX")); [right; by vm_compute|].
    exists 50. split_and!; [by vm_compute|lia|by vm_compute|left; split; by vm_compute]. }
  destruct Hw as (_ & [Hv Hc _ _] & _); [intros [[? _]|[_ Hn]]; [done|by vm_compute in Hn]|].
  cbn [snd]. rewrite Hv, Hc. vm_compute. reflexivity.
Defined.

Lemma del_effect_witness :
  let W := calm default_config 1000 in
  let args := map str ["DEL"; "k"; "k"; "x"]%string in
  (handle_del (H := W) (str "r") args sample_ctx).1 = integer_reply 1.
Proof.
  intros W args. destruct (calm_sane 1000) as [Hsane Hnode].
  pose proof (del_effect (H := W) (calm_reads_ok default_config 1000) Hsane (str "r") args
    sample_ctx sample_tidy ltac:(cbn; lia)) as Hs. cbv zeta in Hs.
  destruct (handle_del (str "r") args sample_ctx) as [rep c'] eqn:E.
  destruct Hs as (_ & _ & Hn & _). cbn [fst]. rewrite Hn; [vm_compute; reflexivity|].
  intros key r Hr. change (view (str "r") sample_ctx) with ({[ str "k" := Record_ (str "old") 0 327680 1 ]} : gmap bytes record) in Hr.
  apply lookup_singleton_Some in Hr as [_ <-]. reflexivity.
Defined.

Lemma mset_effect_witness :
  let W := calm default_config 1000 in
  let args := map str ["MSET"; "k"; "a"; "x"; "b"; "k"; "c"]%string in
  let c' := (handle_mset (H := W) (str "r") args sample_ctx).2 in
  r_value <$> view (str "r") c' !! str "k" = Some (str "c")
  ∧ r_value <$> view (str "r") c' !! str "x" = Some (str "b").
Proof.
  intros W args c'. destruct (calm_sane 1000) as [Hsane Hnode].
  pose proof (mset_effect (H := W) (calm_reads_ok default_config 1000) Hnode (str "r") args
    sample_ctx sample_tidy) as Hs. cbv zeta in Hs. unfold c'.
  destruct (handle_mset (str "r") args sample_ctx) as [rep c1]. cbn [snd].
  destruct Hs as (_ & _ & _ & Hv & _). rewrite !Hv. split; vm_compute; reflexivity.
Defined.

Lemma expire_effect_witness :
  let W := calm default_config 1000 in
  let args := map str ["EXPIRE"; "k"; "2"; "lt"]%string in
  r_expire <$> view (str "r") (handle_expire (H := W) 1000 (str "r") args sample_ctx).2 !! str "k"
  = Some 3000.
Proof.
  intros W args. destruct (calm_sane 1000) as [Hsane Hnode].
  pose proof (expire_effect (H := W) (calm_reads_ok default_config 1000) Hsane Hnode 1000 (str "r") args
    sample_ctx sample_tidy ltac:(auto)) as Hs. cbv zeta in Hs.
  destruct (handle_expire 1000 (str "r") args sample_ctx) as [rep c']. cbn [snd].
  destruct Hs as (_ & _ & Hs).
  assert (Hopts : ∀ w, has_option w (drop 3 args) → str w = str "LT").
  { intros w (o & Ho%list_elem_of_singleton & Hw). subst o. by vm_compute in Hw |- *. }
  assert (Hk : Forall known_option (drop 3 args)) by (apply Forall_singleton; right; right; right; by vm_compute).
  assert (Hn : ¬ nx_clash (drop 3 args)) by (intros [Hn%Hopts _]; by vm_compute in Hn).
  assert (Hg : ¬ gt_clash (drop 3 args)) by (intros [Hg%Hopts _]; by vm_compute in Hg).
  specialize (Hs Hk). apply proj2, proj2 in Hs. specialize (Hs Hn Hg). apply proj2 in Hs.
  destruct (Hs 2 3000) as [_ Hr]; [split_and!; by vm_compute|].
  destruct (Hr (Record_ (str "old") 0 327680 1)) as [_ Hgo]; [by vm_compute|].
  destruct Hgo as [_ Hgo].
  { split_and!; [intros Hx%Hopts; by vm_compute in Hx..|by left]. }
  destruct Hgo as (_ & _ & Hv & _); [right; split; lia|]. rewrite Hv. vm_compute. reflexivity.
Defined.

Lemma reads_effect_witness :
  let W := calm default_config 1000 in
  (handle_get (H := W) false (str "r") [str "GET"; str "k"] sample_ctx).1 = bulk_string (str "old").
Proof.
  intros W.
  pose proof (reads_effect (H := W) (calm_reads_ok default_config 1000) false false (str "r")
    [str "GET"; str "k"] sample_ctx sample_tidy) as Hs. cbv zeta in Hs.
  destruct (handle_get false (str "r") _ sample_ctx) as [get c1], (handle_ttl _ _ _ _) as [ttl c2],
    (handle_mget _ _ _ _) as [mget c3], (handle_exists _ _ _) as [ex c4].
  destruct (proj1 Hs eq_refl) as (_ & _ & Hg & _). cbn [fst]. rewrite Hg. vm_compute. reflexivity.
Defined.
