(* ===== verification/PubSub.v ===== *)
(** * Publish/subscribe (src/core/pubsub.h, src/core/pubsub.cpp)

    The two tables of [PubSubManager], kept as each other's inverse, and its
    operations. The order in which the library walks an [unordered_set] is a
    parameter; the message sink (the server's output queues) is the list of
    messages [publish] hands to it. *)

From stdpp Require Import gmap sets.
From S2P Require Import Prelude FsUtil Resp.

Record pubsub := PubSub_ {
  channel_subscribers : gmap bytes (gset Z);
  client_subscriptions : gmap Z (gset bytes)
}.

Definition no_subscriptions : pubsub := PubSub_ ∅ ∅.

Definition upd_channels (f : gmap bytes (gset Z) → gmap bytes (gset Z)) (s : pubsub) : pubsub :=
  PubSub_ (f (channel_subscribers s)) (client_subscriptions s).
Definition upd_clients (f : gmap Z (gset bytes) → gmap Z (gset bytes)) (s : pubsub) : pubsub :=
  PubSub_ (channel_subscribers s) (f (client_subscriptions s)).

(** The sets a table holds; a missing entry is the empty set. *)
Definition subscribers (channel : bytes) (s : pubsub) : gset Z :=
  default ∅ (channel_subscribers s !! channel).
Definition subscriptions (fd : Z) (s : pubsub) : gset bytes :=
  default ∅ (client_subscriptions s !! fd).

(** [it->second.erase(fd)], and the entry goes when the set is empty. *)
Definition erase_subscriber (fd : Z) (channel : bytes) : gmap bytes (gset Z) → gmap bytes (gset Z) :=
  partial_alter (λ o,
    let t := default ∅ o ∖ {[ fd ]} in
    match o with None => None | Some _ => if decide (t = ∅) then None else Some t end) channel.

Definition push_header (resp3 : bool) : bytes := if resp3 then str ">3" ++ CRLF else str "*3" ++ CRLF.

Section pubsub.
  (** The order of [client_subscriptions[fd]] and of [channel_subscribers[c]]. *)
  Context (walk_channels : gset bytes → list bytes) (walk_fds : gset Z → list Z).

Definition subscribe (fd : Z) (channel : bytes) (resp3 : bool) : M pubsub bytes :=
  modify (upd_channels (partial_alter (λ o, Some ({[ fd ]} ∪ default ∅ o)) channel)) ;;
  modify (upd_clients (partial_alter (λ o, Some ({[ channel ]} ∪ default ∅ o)) fd)) ;;
  let* sub_count := gets (λ s, Z.of_nat (size (subscriptions fd s))) in
  ret (push_header resp3 ++ bulk_string (str "subscribe") ++ bulk_string channel
       ++ str ":" ++ to_string sub_count ++ CRLF).

(** The reply, and what the sink receives, in order. *)
Definition publish (channel message : bytes) : M pubsub (bytes * list (Z * bytes)) :=
  let* targets := gets (λ s, match channel_subscribers s !! channel with
                             | Some t => walk_fds t | None => [] end) in
  let msg := str "*3" ++ CRLF ++ bulk_string (str "message") ++ bulk_string channel ++ bulk_string message in
  ret (str ":" ++ to_string (len targets) ++ CRLF, map (λ fd, (fd, msg)) targets).

(** One channel of UNSUBSCRIBE; [mine]: the client had subscriptions. *)
Definition unsubscribe_one (fd : Z) (mine : bool) (header : bytes) (replies channel : bytes) :
    M pubsub bytes :=
  modify (upd_channels (erase_subscriber fd channel)) ;;
  when mine (modify (upd_clients (alter (λ t, t ∖ {[ channel ]}) fd))) ;;
  let* remaining := gets (λ s, if mine : bool then Z.of_nat (size (subscriptions fd s)) else 0) in
  ret (replies ++ header ++ bulk_string channel ++ str ":" ++ to_string remaining ++ CRLF).

Definition unsubscribe (fd : Z) (channels : list bytes) (resp3 : bool) : M pubsub bytes :=
  let* found := gets (λ s, client_subscriptions s !! fd) in
  let mine := bool_decide (is_Some found) in
  let channels := match channels, found with [], Some t => walk_channels t | _, _ => channels end in
  let header := push_header resp3 ++ bulk_string (str "unsubscribe") in
  match channels with
  | [] => ret (header ++ (if resp3 then str "_" ++ CRLF else str "$-1" ++ CRLF) ++ str ":0" ++ CRLF)
  | _ =>
      let* replies := fold_m channels [] (unsubscribe_one fd mine header) in
      let* left := gets (λ s, subscriptions fd s) in
      when (mine && bool_decide (left = ∅)) (modify (upd_clients (delete fd))) ;;
      ret replies
  end.

Definition remove_client (fd : Z) : M pubsub unit :=
  let* found := gets (λ s, client_subscriptions s !! fd) in
  match found with
  | None => ret tt
  | Some t =>
      for_each (walk_channels t) (λ channel, modify (upd_channels (erase_subscriber fd channel))) ;;
      modify (upd_clients (delete fd))
  end.

Definition is_subscribed (fd : Z) (s : pubsub) : bool :=
  bool_decide (is_Some (client_subscriptions s !! fd)).

End pubsub.

(** ** The invariant: two inverse tables, without empty entries *)

Record pubsub_ok (s : pubsub) : Prop := {
  ps_inverse : ∀ fd channel, fd ∈ subscribers channel s ↔ channel ∈ subscriptions fd s;
  ps_channels : map_Forall (λ _ t, t ≠ ∅) (channel_subscribers s);
  ps_clients : map_Forall (λ _ t, t ≠ ∅) (client_subscriptions s)
}.

Lemma erase_subscriber_in fd channel m fd' channel' :
  fd' ∈ default ∅ (erase_subscriber fd channel m !! channel')
  ↔ fd' ∈ default ∅ (m !! channel') ∧ ¬ (fd' = fd ∧ channel' = channel).
Proof.
  unfold erase_subscriber. destruct (decide (channel' = channel)) as [->|Hne].
  - rewrite lookup_partial_alter_eq. destruct (m !! channel) as [t|]; cbn.
    + assert (E : fd' ∈ t ∖ {[fd]} ↔ fd' ∈ t ∧ fd' ≠ fd)
        by (by rewrite elem_of_difference, not_elem_of_singleton).
      destruct (decide (t ∖ {[fd]} = ∅)) as [He|He]; cbn; [rewrite He in E|]; rewrite E; intuition congruence.
    + by rewrite elem_of_empty; intuition.
  - rewrite lookup_partial_alter_ne by done. intuition congruence.
Qed.

Lemma erase_subscriber_full fd channel m :
  map_Forall (λ _ t, t ≠ ∅) m → map_Forall (λ _ t, t ≠ ∅) (erase_subscriber fd channel m).
Proof.
  intros Hm c t. unfold erase_subscriber. destruct (decide (c = channel)) as [->|Hne].
  - rewrite lookup_partial_alter_eq. destruct (m !! channel); [|done].
    destruct (decide _); [done|]. by intros [= <-].
  - rewrite lookup_partial_alter_ne by done. apply Hm.
Qed.

(** A table entry is present exactly when its set is not empty. *)
Lemma subscriptions_some fd s :
  pubsub_ok s → is_Some (client_subscriptions s !! fd) ↔ subscriptions fd s ≠ ∅.
Proof.
  intros [_ _ Hc]. unfold subscriptions. specialize (Hc fd).
  destruct (client_subscriptions s !! fd) as [t|]; cbn; [|by split; [intros []|]].
  split; [intros _; by apply Hc|by eexists].
Qed.

Section proofs.
  Context (walk_channels : gset bytes → list bytes) (Hchannels : ∀ t, walk_channels t ≡ₚ elements t).

Lemma walk_in t channel : channel ∈ walk_channels t ↔ channel ∈ t.
Proof. by rewrite Hchannels, elem_of_elements. Qed.

Lemma subscribe_spec fd channel resp3 s :
  pubsub_ok s →
  wp (subscribe fd channel resp3) (λ _ s', pubsub_ok s'
    ∧ ∀ fd' c, c ∈ subscriptions fd' s' ↔ c ∈ subscriptions fd' s ∨ (fd' = fd ∧ c = channel)) s.
Proof.
  intros [Hinv Hch Hcl]. unfold subscribe. wp_run.
  set (s' := upd_clients _ _).
  assert (Hc : ∀ fd' c, c ∈ subscriptions fd' s' ↔ c ∈ subscriptions fd' s ∨ (fd' = fd ∧ c = channel)).
  { intros fd' c. unfold subscriptions, s'. cbn. destruct (decide (fd' = fd)) as [->|Hne].
    - rewrite lookup_partial_alter_eq. cbn. set_solver.
    - rewrite lookup_partial_alter_ne by done. naive_solver. }
  assert (Hs : ∀ fd' c, fd' ∈ subscribers c s' ↔ fd' ∈ subscribers c s ∨ (fd' = fd ∧ c = channel)).
  { intros fd' c. unfold subscribers, s'. cbn. destruct (decide (c = channel)) as [->|Hne].
    - rewrite lookup_partial_alter_eq. cbn. set_solver.
    - rewrite lookup_partial_alter_ne by done. naive_solver. }
  split; [|done]. split.
  - intros fd' c. rewrite Hs, Hc. by rewrite Hinv.
  - intros c t. cbn. destruct (decide (c = channel)) as [->|Hne].
    + rewrite lookup_partial_alter_eq. intros [= <-]. set_solver.
    + rewrite lookup_partial_alter_ne by done. apply Hch.
  - intros c t. cbn. destruct (decide (c = fd)) as [->|Hne].
    + rewrite lookup_partial_alter_eq. intros [= <-]. set_solver.
    + rewrite lookup_partial_alter_ne by done. apply Hcl.
Qed.

(** The loop of UNSUBSCRIBE, whose last entry may be left empty. *)
Lemma unsubscribe_loop fd mine header channels replies s :
  (mine = true ↔ is_Some (client_subscriptions s !! fd)) →
  (∀ fd' c, fd' ∈ subscribers c s ↔ c ∈ subscriptions fd' s) →
  map_Forall (λ _ t, t ≠ ∅) (channel_subscribers s) →
  wp (fold_m channels replies (unsubscribe_one fd mine header)) (λ _ s',
    (mine = true ↔ is_Some (client_subscriptions s' !! fd))
    ∧ (∀ fd' c, fd' ∈ subscribers c s' ↔ c ∈ subscriptions fd' s')
    ∧ map_Forall (λ _ t, t ≠ ∅) (channel_subscribers s')
    ∧ (∀ fd', fd' ≠ fd → client_subscriptions s' !! fd' = client_subscriptions s !! fd')
    ∧ ∀ c, c ∈ subscriptions fd s' ↔ c ∈ subscriptions fd s ∧ c ∉ channels) s.
Proof.
  revert replies s. induction channels as [|channel channels IH]; intros replies s Hmine Hinv Hch;
    cbn [fold_m]; wp_run.
  { do 4 (split; [done|]). intros c. rewrite elem_of_nil. naive_solver. }
  unfold unsubscribe_one at 1. wp_run.
  set (s1 := upd_channels _ s).
  set (s2 := if mine then upd_clients (alter (λ t, t ∖ {[channel]}) fd) s1 else s1).
  assert (Hc2 : ∀ c, c ∈ subscriptions fd s2 ↔ c ∈ subscriptions fd s ∧ c ≠ channel).
  { intros c. unfold subscriptions, s2. destruct mine; cbn.
    - rewrite lookup_alter_eq. destruct (client_subscriptions s !! fd); cbn; set_solver.
    - destruct (client_subscriptions s !! fd) eqn:E; [|set_solver].
      assert (false = true) by (apply Hmine; by eexists). done. }
  assert (Ho2 : ∀ fd', fd' ≠ fd → client_subscriptions s2 !! fd' = client_subscriptions s !! fd').
  { intros fd' Hne. unfold s2. destruct mine; [|done]. cbn. by rewrite lookup_alter_ne. }
  assert (Hm2 : mine = true ↔ is_Some (client_subscriptions s2 !! fd)).
  { rewrite Hmine. unfold s2. destruct mine; [|done]. cbn. rewrite lookup_alter_eq, fmap_is_Some. done. }
  assert (Hi2 : ∀ fd' c, fd' ∈ subscribers c s2 ↔ c ∈ subscriptions fd' s2).
  { intros fd' c. assert (Hsub : fd' ∈ subscribers c s2 ↔ fd' ∈ subscribers c s ∧ ¬ (fd' = fd ∧ c = channel)).
    { unfold subscribers, s2. destruct mine; apply erase_subscriber_in. }
    rewrite Hsub, Hinv. destruct (decide (fd' = fd)) as [->|Hne].
    - rewrite Hc2. intuition congruence.
    - unfold subscriptions. rewrite Ho2 by done. intuition congruence. }
  assert (Hf2 : map_Forall (λ _ t, t ≠ ∅) (channel_subscribers s2)).
  { unfold s2. destruct mine; by apply erase_subscriber_full. }
  assert (Hwp : ∀ (Q : unit → pubsub → Prop), Q tt s2 →
    wp (when mine (modify (upd_clients (alter (λ t, t ∖ {[channel]}) fd)))) Q s1).
  { intros Q HQ. unfold s2 in HQ. by destruct mine. }
  apply Hwp. wp_run. eapply wp_mono; [by apply IH|].
  intros r s' (H1 & H2 & H3 & H4 & H5). do 3 (split; [done|]).
  split; [intros fd' Hne; by rewrite H4, Ho2|].
  intros c. rewrite H5, Hc2, not_elem_of_cons. intuition.
Qed.

(** Which channels a client loses by UNSUBSCRIBE. *)
Lemma unsubscribe_spec fd channels resp3 s :
  pubsub_ok s →
  wp (unsubscribe walk_channels fd channels resp3) (λ _ s', pubsub_ok s'
    ∧ ∀ fd' c, c ∈ subscriptions fd' s'
        ↔ c ∈ subscriptions fd' s ∧ ¬ (fd' = fd ∧ (channels = [] ∨ c ∈ channels))) s.
Proof.
  intros Hok. unfold unsubscribe. wp_run. set (found := client_subscriptions s !! fd).
  set (mine := bool_decide (is_Some found)).
  set (chs := match channels, found with [], Some t => walk_channels t | _, _ => channels end).
  assert (Hchs : ∀ c, c ∈ subscriptions fd s → c ∈ chs ↔ channels = [] ∨ c ∈ channels).
  { intros c Hc. unfold chs, subscriptions in *. fold found in Hc.
    destruct channels; [|intuition congruence]. destruct found as [t|]; cbn in Hc.
    - rewrite walk_in. intuition.
    - set_solver. }
  assert (Habs : ∀ s', (∀ c, c ∈ subscriptions fd s' ↔ c ∈ subscriptions fd s ∧ c ∉ chs) →
    (∀ fd', fd' ≠ fd → subscriptions fd' s' = subscriptions fd' s) →
    ∀ fd' c, c ∈ subscriptions fd' s'
      ↔ c ∈ subscriptions fd' s ∧ ¬ (fd' = fd ∧ (channels = [] ∨ c ∈ channels))).
  { intros s' H1 H2 fd' c. destruct (decide (fd' = fd)) as [->|Hne].
    - rewrite H1. split; intros [Hin Hn]; split; try done; intros H3.
      + apply Hn, Hchs; [done|apply H3].
      + apply Hn. split; [done|by apply Hchs].
    - rewrite H2 by done. intuition congruence. }
  destruct chs as [|ch chs'] eqn:Ech; wp_run.
  { split; [done|]. apply Habs; [|done]. intros c. rewrite elem_of_nil. naive_solver. }
  rewrite <- Ech in *. clear Ech.
  eapply wp_mono; [apply unsubscribe_loop; [apply bool_decide_eq_true|apply Hok..]|].
  intros r s1 (Hm1 & Hi1 & Hf1 & Ho1 & Hc1). wp_run.
  assert (Hsub : ∀ fd', fd' ≠ fd → subscriptions fd' s1 = subscriptions fd' s).
  { intros fd' Hne. unfold subscriptions. by rewrite Ho1. }
  assert (Hcl : ∀ fd', fd' ≠ fd → ∀ t, client_subscriptions s1 !! fd' = Some t → t ≠ ∅).
  { intros fd' Hne t. rewrite Ho1 by done. apply Hok. }
  destruct (mine && bool_decide (subscriptions fd s1 = ∅)) eqn:Hb; cbn [when]; wp_run.
  - apply andb_true_iff in Hb as [_ He%bool_decide_eq_true].
    assert (Hd : ∀ fd', subscriptions fd' (upd_clients (delete fd) s1) = subscriptions fd' s1).
    { intros fd'. unfold subscriptions at 1. cbn. destruct (decide (fd' = fd)) as [->|Hne].
      - by rewrite lookup_delete_eq, He.
      - by rewrite lookup_delete_ne. }
    split; [split|].
    + intros fd' c. rewrite Hd. apply Hi1.
    + done.
    + intros fd' t Ht. cbn in Ht. apply lookup_delete_Some in Ht as [Hne Ht]. by eapply Hcl.
    + intros fd' c. rewrite Hd. by apply (Habs s1).
  - split; [split; [done|done|]|by apply Habs].
    intros fd' t Ht. destruct (decide (fd' = fd)) as [->|Hne]; [|by eapply Hcl].
    intros ->. apply andb_false_iff in Hb as [Hb|Hb%bool_decide_eq_false].
    + rewrite Hb in Hm1. assert (false = true) by (apply Hm1; by eexists). done.
    + apply Hb. unfold subscriptions. by rewrite Ht.
Qed.

Lemma remove_client_spec fd s :
  pubsub_ok s →
  wp (remove_client walk_channels fd) (λ _ s', pubsub_ok s'
    ∧ ∀ fd' c, c ∈ subscriptions fd' s' ↔ c ∈ subscriptions fd' s ∧ fd' ≠ fd) s.
Proof.
  intros Hok. unfold remove_client. wp_run.
  destruct (client_subscriptions s !! fd) as [t|] eqn:Hfd; wp_run.
  2:{ split; [done|]. intros fd' c. split; [|by intros [? _]]. intros Hc. split; [done|].
      intros ->. unfold subscriptions in Hc. rewrite Hfd in Hc. set_solver. }
  eapply wp_mono; [apply (wp_for_each (walk_channels t) _ (λ seen s1,
    client_subscriptions s1 = client_subscriptions s
    ∧ map_Forall (λ _ t, t ≠ ∅) (channel_subscribers s1)
    ∧ ∀ fd' c, fd' ∈ subscribers c s1 ↔ fd' ∈ subscribers c s ∧ ¬ (fd' = fd ∧ c ∈ seen)))|].
  - intros seen x todo s1 _ (H1 & H2 & H3). wp_run. split; [done|].
    split; [by apply erase_subscriber_full|]. intros fd' c. unfold subscribers at 1. cbn.
    rewrite erase_subscriber_in. fold (subscribers c s1). rewrite H3, elem_of_app, list_elem_of_singleton.
    intuition congruence.
  - split; [done|]. split; [apply Hok|]. intros fd' c. rewrite elem_of_nil. intuition.
  - intros _ s1 (H1 & H2 & H3). wp_run.
    set (s' := upd_clients (delete fd) s1).
    assert (Hc : ∀ fd' c, c ∈ subscriptions fd' s' ↔ c ∈ subscriptions fd' s ∧ fd' ≠ fd).
    { intros fd' c. unfold subscriptions, s'. cbn. rewrite H1. destruct (decide (fd' = fd)) as [->|Hne].
      - rewrite lookup_delete_eq. set_solver.
      - rewrite lookup_delete_ne by done. intuition. }
    split; [split|done].
    + intros fd' c. rewrite Hc. change (subscribers c s') with (subscribers c s1). rewrite H3.
      rewrite (ps_inverse _ Hok), walk_in. unfold subscriptions.
      destruct (decide (fd' = fd)) as [->|Hne]; [rewrite Hfd; cbn|]; intuition congruence.
    + done.
    + intros fd' t' Ht'. cbn in Ht'. rewrite H1 in Ht'. apply lookup_delete_Some in Ht' as [_ Ht'].
      by eapply (ps_clients _ Hok).
Qed.

End proofs.

(** ** The abstract specification: a set of subscriptions *)

Inductive op :=
| Subscribe (fd : Z) (channel : bytes) (resp3 : bool)
| Unsubscribe (fd : Z) (channels : list bytes) (resp3 : bool)
| Disconnect (fd : Z).

Definition run_op (walk_channels : gset bytes → list bytes) (o : op) : M pubsub unit :=
  match o with
  | Subscribe fd channel resp3 => subscribe fd channel resp3 ;; ret tt
  | Unsubscribe fd channels resp3 => unsubscribe walk_channels fd channels resp3 ;; ret tt
  | Disconnect fd => remove_client walk_channels fd
  end.

(** Who is subscribed to what after the operations; the latest comes last. *)
Fixpoint subscribed (ops : list op) (P : Z → bytes → Prop) : Z → bytes → Prop :=
  match ops with
  | [] => P
  | Subscribe fd c _ :: ops => subscribed ops (λ fd' c', P fd' c' ∨ (fd' = fd ∧ c' = c))
  | Unsubscribe fd cs _ :: ops =>
      subscribed ops (λ fd' c', P fd' c' ∧ ¬ (fd' = fd ∧ (cs = [] ∨ c' ∈ cs)))
  | Disconnect fd :: ops => subscribed ops (λ fd' c', P fd' c' ∧ fd' ≠ fd)
  end.

Lemma subscribed_ext ops P Q :
  (∀ fd c, P fd c ↔ Q fd c) → ∀ fd c, subscribed ops P fd c ↔ subscribed ops Q fd c.
Proof.
  revert P Q. induction ops as [|o ops IH]; intros P Q Heq; cbn; [done|].
  destruct o; apply IH; intros fd' c'; by rewrite Heq.
Qed.

Lemma run_ops_spec walk_channels ops s :
  (∀ t, walk_channels t ≡ₚ elements t) → pubsub_ok s →
  wp (for_each ops (run_op walk_channels)) (λ _ s', pubsub_ok s'
    ∧ ∀ fd c, c ∈ subscriptions fd s' ↔ subscribed ops (λ fd c, c ∈ subscriptions fd s) fd c) s.
Proof.
  intros Hw. revert s. induction ops as [|o ops IH]; intros s Hok; cbn [for_each]; wp_run; [done|].
  assert (Ho : wp (run_op walk_channels o) (λ _ s', pubsub_ok s'
    ∧ ∀ fd c, c ∈ subscriptions fd s' ↔ subscribed [o] (λ fd c, c ∈ subscriptions fd s) fd c) s).
  { destruct o as [fd c r|fd cs r|fd]; cbn [run_op]; wp_run.
    - eapply wp_mono; [by eapply subscribe_spec|done].
    - eapply wp_mono; [by eapply unsubscribe_spec|done].
    - by apply remove_client_spec. }
  eapply wp_mono; [exact Ho|]. intros _ s1 [Hok1 Hs1]. eapply wp_mono; [by apply IH|].
  intros _ s' [Hok' Hs']. split; [done|]. intros fd c. rewrite Hs'.
  destruct o; exact (subscribed_ext ops _ _ Hs1 fd c).
Qed.

Section claims.
  Context (walk_channels : gset bytes → list bytes) (walk_fds : gset Z → list Z)
    (Hchannels : ∀ t, walk_channels t ≡ₚ elements t) (Hfds : ∀ t, walk_fds t ≡ₚ elements t).

(** C38: The subscription tables implement a set of (client, channel) pairs.
    After any sequence of SUBSCRIBE, UNSUBSCRIBE (of some channels or of all)
    and disconnections, the two tables are each other's inverse without empty
    entries, a client is in subscribe mode exactly when it has a subscription,
    and PUBLISH hands the message once to every subscriber of the channel, to
    nobody else, and replies their number: a disconnected descriptor never
    receives a message. *)
Theorem pubsub_refines ops channel message :
  let P := subscribed ops (λ _ _, False) in
  let s := (for_each ops (run_op walk_channels) no_subscriptions).2 in
  let '(rep, sent) := (publish walk_fds channel message s).1 in
  pubsub_ok s
  ∧ (∀ fd c, c ∈ subscriptions fd s ↔ P fd c)
  ∧ (∀ fd, is_subscribed fd s = true ↔ ∃ c, P fd c)
  ∧ NoDup sent.*1 ∧ (∀ fd, fd ∈ sent.*1 ↔ P fd channel)
  ∧ (∀ fd m, (fd, m) ∈ sent → m = str "*3" ++ CRLF ++ bulk_string (str "message")
                                   ++ bulk_string channel ++ bulk_string message)
  ∧ rep = str ":" ++ to_string (len sent) ++ CRLF.
Proof.
  intros P s.
  assert (Hs : pubsub_ok s ∧ ∀ fd c, c ∈ subscriptions fd s ↔ P fd c).
  { destruct (run_ops_spec walk_channels ops no_subscriptions Hchannels) as [Hok Hc].
    - split; [done|apply map_Forall_empty..].
    - split; [done|]. intros fd c. unfold s. rewrite Hc. apply subscribed_ext. set_solver. }
  destruct Hs as [Hok Hc]. unfold publish, bind, gets, ret. cbn [fst].
  set (targets := match channel_subscribers s !! channel with Some t => walk_fds t | None => [] end).
  set (msg := str "*3" ++ _). set (sent := map _ targets).
  assert (Hfst : sent.*1 = targets).
  { unfold sent. rewrite <- list_fmap_compose. apply list_fmap_id. }
  assert (Ht : targets ≡ₚ elements (subscribers channel s)).
  { unfold targets, subscribers. destruct (channel_subscribers s !! channel); cbn; [apply Hfds|].
    by rewrite elements_empty. }
  split; [done|]. split; [done|]. split; [|split; [|split; [|split]]].
  - intros fd. unfold is_subscribed. rewrite bool_decide_eq_true, subscriptions_some by done.
    split.
    + intros [c ?]%set_choose_L. exists c. by apply Hc.
    + intros [c ?%Hc]. set_solver.
  - rewrite Hfst, Ht. apply NoDup_elements.
  - intros fd. rewrite Hfst, Ht, elem_of_elements, (ps_inverse _ Hok). apply Hc.
  - intros fd m Hin. apply list_elem_of_fmap in Hin as (fd' & [= _ ->] & _). done.
  - unfold sent, len. by rewrite length_map.
Qed.

End claims.

Lemma pubsub_refines_witness :
  let ops := [Subscribe 4 (str "news") false; Subscribe 5 (str "news") true; Disconnect 4] in
  let s := (for_each ops (run_op elements) no_subscriptions).2 in
  is_subscribed 5 s = true ∧ (publish elements (str "news") (str "hi") s).1.1 = str ":1" ++ CRLF.
Proof.
  intros ops s.
  pose proof (pubsub_refines elements elements ltac:(intros; reflexivity) ltac:(intros; reflexivity)
    ops (str "news") (str "hi")) as H. cbv zeta in H. fold s in H.
  destruct (publish elements (str "news") (str "hi") s).1 as [rep sent] eqn:E.
  destruct H as (_ & _ & H & _). split.
  - apply H. exists (str "news"). unfold ops. cbn [subscribed]. split; [right; split; reflexivity|discriminate].
  - vm_compute in E. injection E as <- <-. vm_compute. reflexivity.
Defined.
