(* ===== verification/Pool.v ===== *)
(** * The record pool (src/core/pool_allocator.h)

    [PoolAllocator]: blocks of nodes threaded on a free list through the
    nodes themselves (the union of an object and a next pointer). An address
    is a block and an index in it; memory is a finite map. The rest of the
    development stores records by value in the room's map; this file is why
    that is sound: the pool never hands out an address that is in use and
    never disturbs a live object. *)

From stdpp Require Import gmap.
From S2P Require Import Prelude.

Abbreviation node := (nat * nat)%type.

Section pool.
  (** The template parameters: the object type and the nodes in a block. *)
  Context {T : Type} (BlockSize : nat).

(** [union Node]: an object's bytes or the next free node. *)
Inductive cell := Data (x : T) | Next (next : option node).

(** [PoolState]; block [b] is at the addresses [(b, i)]. *)
Record pool := Pool_ {
  head : option node;
  blocks : nat;
  memory : gmap node cell
}.

Definition empty_pool : pool := Pool_ None 0 ∅.

Definition upd_head (h : option node) (s : pool) : pool := Pool_ h (blocks s) (memory s).
Definition write_cell (n : node) (c : cell) (s : pool) : pool :=
  Pool_ (head s) (blocks s) (<[n := c]> (memory s)).

(** The links of a new block, from node [i] on: [n] more nodes. *)
Fixpoint link_block (b i n : nat) (m : gmap node cell) : gmap node cell :=
  match n with
  | O => m
  | S n => link_block b (S i) n
             (<[(b, i) := Next (if (n =? 0)%nat then None else Some (b, S i))]> m)
  end.

Definition allocate_block : M pool unit :=
  modify (λ s, Pool_ (Some (blocks s, 0%nat)) (S (blocks s))
                 (link_block (blocks s) 0 BlockSize (memory s))).

(** [allocate(1)]; [None]: the free list does not lead to a free node. *)
Definition allocate : M pool (option node) :=
  let* h := gets head in
  when (bool_decide (h = None)) allocate_block ;;
  let* h := gets head in
  match h with
  | None => ret None
  | Some n =>
      let* c := gets (λ s, memory s !! n) in
      match c with
      | Some (Next next) => modify (upd_head next) ;; ret (Some n)
      | _ => ret None
      end
  end.

(** [deallocate(ptr, 1)] of a pointer that is not null. *)
Definition deallocate (n : node) : M pool unit :=
  let* h := gets head in
  modify (write_cell n (Next h)) ;;
  modify (upd_head (Some n)).

Definition construct (x : T) : M pool (option node) :=
  let* n := allocate in
  match n with
  | None => ret None
  | Some n => modify (write_cell n (Data x)) ;; ret (Some n)
  end.

Definition destroy (n : node) : M pool unit := deallocate n.

(** ** The invariant *)

(** The free list from [h] through memory. *)
Fixpoint chain (m : gmap node cell) (h : option node) (l : list node) : Prop :=
  match l with
  | [] => h = None
  | n :: l => h = Some n ∧ ∃ h', m !! n = Some (Next h') ∧ chain m h' l
  end.

Definition in_blocks (s : pool) (n : node) : Prop := (n.1 < blocks s)%nat ∧ (n.2 < BlockSize)%nat.

(** [live] are the objects in use. *)
Record pool_inv (live : gmap node T) (l : list node) (s : pool) : Prop := {
  pi_chain : chain (memory s) (head s) l;
  pi_nodup : NoDup l;
  pi_bounds : ∀ n, in_blocks s n ↔ n ∈ l ∨ n ∈ dom live;
  pi_disj : ∀ n, n ∈ l → live !! n = None;
  pi_live : ∀ n x, live !! n = Some x → memory s !! n = Some (Data x)
}.

Lemma chain_write m h l n c : n ∉ l → chain m h l → chain (<[n := c]> m) h l.
Proof.
  revert h. induction l as [|n' l IH]; intros h Hn; cbn; [done|].
  apply not_elem_of_cons in Hn as [Hne Hn]. intros (-> & h' & Hm & Hc). split; [done|].
  exists h'. split; [by rewrite lookup_insert_ne|by apply IH].
Qed.

(** The nodes of a block from [i] on. *)
Definition block_nodes (b i n : nat) : list node := map (λ j, (b, j)) (seq i n).

Lemma block_nodes_in b i n x : x ∈ block_nodes b i n ↔ x.1 = b ∧ (i ≤ x.2 < i + n)%nat.
Proof.
  unfold block_nodes. rewrite list_elem_of_fmap. split.
  - intros (j & -> & Hj%elem_of_seq). done.
  - intros [<- Hi]. exists x.2. split; [by destruct x|by apply elem_of_seq].
Qed.

Lemma link_block_other b i n m x :
  x ∉ block_nodes b i n → link_block b i n m !! x = m !! x.
Proof.
  revert i m. induction n as [|n IH]; intros i m Hx; cbn [link_block]; [done|].
  rewrite block_nodes_in in Hx. rewrite IH.
  - rewrite lookup_insert_ne; [done|]. intros <-. apply Hx. cbn. lia.
  - rewrite block_nodes_in. lia.
Qed.

Lemma link_block_chain b i n m :
  chain (link_block b i n m) (if (n =? 0)%nat then None else Some (b, i)) (block_nodes b i n).
Proof.
  revert i m. induction n as [|n IH]; intros i m; [done|].
  cbn [link_block block_nodes seq map chain Nat.eqb]. split; [done|]. eexists. split; [|apply IH].
  rewrite link_block_other; [apply lookup_insert_eq|]. rewrite block_nodes_in. cbn. lia.
Qed.

Lemma empty_pool_inv : pool_inv ∅ [] empty_pool.
Proof.
  split; [done|constructor| |done|done]. intros n. unfold in_blocks. cbn.
  rewrite elem_of_nil, dom_empty_L, elem_of_empty. lia.
Qed.

Lemma allocate_block_spec live s :
  (0 < BlockSize)%nat → pool_inv live [] s →
  wp allocate_block (λ _ s', pool_inv live (block_nodes (blocks s) 0 BlockSize) s') s.
Proof.
  intros HB [_ _ Hb _ Hl]. unfold allocate_block. wp_run.
  assert (Hnew : ∀ n, n ∈ dom live → (n.1 < blocks s)%nat).
  { intros n Hn. apply (Hb n). by right. }
  split; cbn [memory head blocks].
  - replace (Some (blocks s, 0%nat)) with (if (BlockSize =? 0)%nat then None else Some (blocks s, 0%nat));
      [apply link_block_chain|]. by destruct BlockSize; [lia|].
  - unfold block_nodes. apply NoDup_fmap; [by intros i j [=]|apply NoDup_seq].
  - intros n. rewrite block_nodes_in. unfold in_blocks in *. cbn. specialize (Hb n).
    rewrite elem_of_nil in Hb. split; [|intros [?|Hn]; [lia|specialize (Hnew n Hn)]].
    + intros [H1 H2]. destruct (decide (n.1 = blocks s)); [left; lia|]. right.
      destruct (proj1 Hb) as [[]|?]; [|done]. lia.
    + destruct (proj2 Hb) as [? ?]; [by right|]. lia.
  - intros n Hn%block_nodes_in. apply not_elem_of_dom. intros Hd%Hnew. lia.
  - intros n x Hx. rewrite link_block_other; [by apply Hl|]. rewrite block_nodes_in.
    assert (n ∈ dom live) as Hd%Hnew by (apply elem_of_dom; by eexists). lia.
Qed.

Lemma construct_spec live l x s :
  (0 < BlockSize)%nat → pool_inv live l s →
  wp (construct x) (λ o s', ∃ n l', o = Some n ∧ live !! n = None
    ∧ pool_inv (<[n := x]> live) l' s') s.
Proof.
  intros HB Hinv. unfold construct, allocate. wp_run.
  assert (Hrefill : wp (when (bool_decide (head s = None)) allocate_block)
    (λ _ s1, ∃ n l', pool_inv live (n :: l') s1) s).
  { destruct l as [|n l].
    - pose proof (pi_chain _ _ _ Hinv) as Hc. cbn in Hc. rewrite Hc. cbn [when bool_decide].
      eapply wp_mono; [by apply allocate_block_spec|]. intros u s1 Hs1. unfold block_nodes in Hs1.
      destruct BlockSize as [|k]; [lia|]. eexists _, _. exact Hs1.
    - pose proof (pi_chain _ _ _ Hinv) as [Hc _]. rewrite bool_decide_false by congruence. wp_run.
      by exists n, l. }
  eapply wp_mono; [exact Hrefill|]. intros _ s1 (n & l' & [Hc Hnd Hb Hd Hl]). wp_run.
  destruct Hc as (Hh & h' & Hm & Hc). rewrite Hh. wp_run. rewrite Hm. wp_run.
  apply NoDup_cons in Hnd as [Hn Hnd].
  assert (Hfree : live !! n = None) by (apply Hd, elem_of_cons; by left).
  exists n, l'. split; [done|]. split; [done|]. split; cbn.
  - by apply chain_write.
  - done.
  - intros m. unfold in_blocks in *. cbn. rewrite Hb, elem_of_cons, dom_insert, elem_of_union, elem_of_singleton.
    tauto.
  - intros m Hin. rewrite lookup_insert_ne by (intros ->; done). apply Hd, elem_of_cons. by right.
  - intros m y Hy. destruct (decide (m = n)) as [->|Hne].
    + rewrite lookup_insert_eq in Hy. rewrite lookup_insert_eq. congruence.
    + rewrite lookup_insert_ne in Hy by done. rewrite lookup_insert_ne by done. by apply Hl.
Qed.

Lemma destroy_spec live l n x s :
  pool_inv live l s → live !! n = Some x →
  wp (destroy n) (λ _ s', pool_inv (delete n live) (n :: l) s') s.
Proof.
  intros [Hc Hnd Hb Hd Hl] Hx. unfold destroy, deallocate. wp_run.
  assert (Hn : n ∉ l) by (intros Hin; specialize (Hd n Hin); congruence).
  split; cbn.
  - split; [done|]. eexists. split; [apply lookup_insert_eq|by apply chain_write].
  - by apply NoDup_cons.
  - intros m. unfold in_blocks in *. cbn. rewrite Hb, elem_of_cons, dom_delete, elem_of_difference, elem_of_singleton.
    destruct (decide (m = n)) as [->|]; [|tauto].
    assert (n ∈ dom live) by (apply elem_of_dom; by eexists). tauto.
  - intros m [->|Hin]%elem_of_cons; [apply lookup_delete_eq|].
    rewrite lookup_delete_ne by (intros ->; done). by apply Hd.
  - intros m y [Hne Hy]%lookup_delete_Some. rewrite lookup_insert_ne by done. by apply Hl.
Qed.

(** The states of the pool, with the objects in use: constructions, and
    destructions of objects in use. *)
Inductive reachable : gmap node T → pool → Prop :=
| reach_empty : reachable ∅ empty_pool
| reach_construct live s x n :
    reachable live s → (construct x s).1 = Some n → reachable (<[n := x]> live) (construct x s).2
| reach_destroy live s n x :
    reachable live s → live !! n = Some x → reachable (delete n live) (destroy n s).2.

Lemma reachable_inv live s : (0 < BlockSize)%nat → reachable live s → ∃ l, pool_inv live l s.
Proof.
  intros HB. induction 1 as [|live s x n _ [l IH] Hn|live s n x _ [l IH] Hx].
  - exists []. apply empty_pool_inv.
  - destruct (construct_spec live l x s HB IH) as (n' & l' & Hn' & _ & Hinv). exists l'.
    assert (n = n') as -> by congruence. done.
  - exists (n :: l). by eapply destroy_spec.
Qed.

(** C39: The pool never fails and never aliases: in every state reachable by
    constructing objects and destroying live ones, the next construction
    returns an address that is not in use, every live object still holds what
    was put in it, and no node is lost or counted twice: the free list and the
    live objects partition the nodes of the allocated blocks. *)
Theorem pool_never_aliases live s x :
  (0 < BlockSize)%nat → reachable live s →
  (∃ n, (construct x s).1 = Some n ∧ live !! n = None
    ∧ ∀ m y, live !! m = Some y → memory (construct x s).2 !! m = Some (Data y))
  ∧ (∀ m y, live !! m = Some y → memory s !! m = Some (Data y))
  ∧ ∃ l, chain (memory s) (head s) l ∧ NoDup l
      ∧ (∀ n, (n.1 < blocks s)%nat ∧ (n.2 < BlockSize)%nat ↔ n ∈ l ∨ n ∈ dom live)
      ∧ ∀ n, n ∈ l → n ∉ dom live.
Proof.
  intros HB Hr. destruct (reachable_inv live s HB Hr) as [l Hinv].
  destruct (construct_spec live l x s HB Hinv) as (n & l' & Hn & Hfree & Hinv').
  split; [|split].
  - exists n. split; [done|]. split; [done|]. intros m y Hy. apply (pi_live _ _ _ Hinv').
    rewrite lookup_insert_ne; [done|]. intros ->. congruence.
  - apply Hinv.
  - exists l. destruct Hinv as [Hc Hnd Hb Hd _]. split; [done|]. split; [done|]. split; [done|].
    intros m Hm. by apply not_elem_of_dom, Hd.
Qed.

End pool.

(** Blocks of two: the third object takes a second block, and a destroyed
    node is the next one to be used. *)
Lemma pool_never_aliases_witness :
  let c (x : nat) (s : pool) := (construct 2 x s).2 in
  let s := c 12%nat (c 11%nat (c 10%nat empty_pool)) in
  let s' := (destroy (0, 1)%nat s).2 in
  blocks s = 2%nat ∧ (construct 2 13%nat s').1 = Some (0, 1)%nat
  ∧ memory s' !! (1, 0)%nat = Some (Data 12%nat).
Proof.
  intros c s s'. split; [vm_compute; reflexivity|]. split; [vm_compute; reflexivity|].
  assert (Hr : reachable 2 (<[(1, 0)%nat := 12%nat]> (<[(0, 1)%nat := 11%nat]> (<[(0, 0)%nat := 10%nat]> ∅))) s).
  { repeat (apply reach_construct; [|vm_compute; reflexivity]). apply reach_empty. }
  apply (reach_destroy 2 _ _ (0, 1)%nat 11%nat) in Hr; [|vm_compute; reflexivity].
  destruct (pool_never_aliases 2 _ s' 0%nat ltac:(lia) Hr) as (_ & Hlive & _).
  apply Hlive. vm_compute. reflexivity.
Defined.
