(* ===== verification/Rooms.v ===== *)
(** * The database and its rooms (src/core/rooms.cpp, src/core/database.cpp)

    The members of [Database], the registry of rooms and their life cycle
    (Sleeping, Loading, Active, Hibernating), the budget of active rooms, the
    client's room, and the maintenance the watchdog asks for. A
    [shared_ptr<Room>] is the room's name: rooms never leave the registry. An
    operation that holds a room's lock is one step; the interleavings of the
    command thread and of the watchdog are the sequences of such steps. *)

From stdpp Require Import gmap.
From S2P Require Import Prelude FsUtil Resp Config World Types State Cold Snapshot Keyspace Crdt Commands PubSub.

(** The members of [Database] beside those the rooms share. [rewrite_child] is
    the running child of a background rewrite: whether it will exit with
    success. *)
Record db := Db_ {
  rooms : gmap bytes room;
  client_rooms : gmap Z bytes;
  active_rooms : Z;
  total_commands : Z;
  pubsub_ : pubsub;
  rewrite_child : option bool;
  rewrite_from : nat;
  resp3_ : bool;
  db_sh : shared
}.

Definition upd_rooms (g : gmap bytes room → gmap bytes room) (d : db) : db :=
  Db_ (g (rooms d)) (client_rooms d) (active_rooms d) (total_commands d) (pubsub_ d)
    (rewrite_child d) (rewrite_from d) (resp3_ d) (db_sh d).
Definition upd_client_rooms (g : gmap Z bytes → gmap Z bytes) (d : db) : db :=
  Db_ (rooms d) (g (client_rooms d)) (active_rooms d) (total_commands d) (pubsub_ d)
    (rewrite_child d) (rewrite_from d) (resp3_ d) (db_sh d).
Definition upd_active_rooms (g : Z → Z) (d : db) : db :=
  Db_ (rooms d) (client_rooms d) (g (active_rooms d)) (total_commands d) (pubsub_ d)
    (rewrite_child d) (rewrite_from d) (resp3_ d) (db_sh d).
Definition upd_total_commands (g : Z → Z) (d : db) : db :=
  Db_ (rooms d) (client_rooms d) (active_rooms d) (g (total_commands d)) (pubsub_ d)
    (rewrite_child d) (rewrite_from d) (resp3_ d) (db_sh d).
Definition upd_pubsub (g : pubsub → pubsub) (d : db) : db :=
  Db_ (rooms d) (client_rooms d) (active_rooms d) (total_commands d) (g (pubsub_ d))
    (rewrite_child d) (rewrite_from d) (resp3_ d) (db_sh d).
Definition upd_rewrite (child : option bool) (from : nat) (d : db) : db :=
  Db_ (rooms d) (client_rooms d) (active_rooms d) (total_commands d) (pubsub_ d)
    child from (resp3_ d) (db_sh d).
Definition upd_resp3 (b : bool) (d : db) : db :=
  Db_ (rooms d) (client_rooms d) (active_rooms d) (total_commands d) (pubsub_ d)
    (rewrite_child d) (rewrite_from d) b (db_sh d).
Definition upd_db_sh (g : shared → shared) (d : db) : db :=
  Db_ (rooms d) (client_rooms d) (active_rooms d) (total_commands d) (pubsub_ d)
    (rewrite_child d) (rewrite_from d) (resp3_ d) (g (db_sh d)).

Definition init_db (s : shared) : db := Db_ ∅ ∅ 0 0 no_subscriptions None 0 false s.

Definition MAX_ACTIVE_ROOMS : Z := 3.
Definition ROOM_IDLE_MS : Z := 10000.
Definition ROOMS_FULL : bytes :=
  reply "-ERR ROOMS FULL: active room budget reached, ROOM.HIBERNATE one or wait".

(** [static_cast<int>(state)] in the table of names. *)
Definition STATE_NAMES (st : RoomState) : bytes :=
  match st with
  | Sleeping => str "sleeping" | Loading => str "loading"
  | Active => str "active" | Hibernating => str "hibernating"
  end.

Definition map_header (resp3 : bool) (pairs : Z) : bytes :=
  if resp3 then str "%" ++ to_string_u pairs ++ CRLF else str "*" ++ to_string_u (2 * pairs) ++ CRLF.

(** The room [name] of the registry; a name that is not there is a room that
    has never been used. *)
Definition room_of (name : bytes) (d : db) : room := default new_room (rooms d !! name).

(** An action on what the rooms share, and one that holds a room's lock. *)
Definition dsh {A} (m : M shared A) : M db A := zoom db_sh (λ s, upd_db_sh (λ _, s)) m.

Definition in_room {A} (name : bytes) (m : M ctx A) : M db A :=
  zoom (λ d, Ctx_ (room_of name d) (db_sh d))
    (λ c d, upd_rooms (<[name := c_room c]>) (upd_db_sh (λ _, c_sh c) d)) m.

Section rooms.
  Context `{World}.

(** [find_room]: whether the room is there. *)
Definition find_room (name : bytes) (create : bool) : M db bool :=
  let* o := gets (λ d, rooms d !! name) in
  match o with
  | Some _ => ret true
  | None =>
      if negb create then ret false else
      modify (upd_rooms (<[name := new_room]>)) ;;
      ret true
  end.

Definition set_state (name : bytes) (st : RoomState) : M db unit :=
  in_room name (mod_room (upd_state (λ _, st))).

Definition activate (name : bytes) (over_budget : bool) : M db bool :=
  let* now := dsh get_current_time_ms in
  in_room name (mod_room (upd_last_access (λ _, now))) ;;
  let* st := gets (λ d, state (room_of name d)) in
  if decide (st = Active) then ret true else
  let* active := gets active_rooms in
  if (MAX_ACTIVE_ROOMS <=? active) && negb over_budget then ret false else
  modify (upd_active_rooms (λ n, n + 1)) ;;
  set_state name Loading ;;
  in_room name (wakeup_room name) ;;
  let* m := gets (λ d, keys (room_of name d)) in
  let cost := keys_cost m in
  let* fits_ := (if over_budget then ret true else dsh (fits cost)) in
  if negb fits_ then
    in_room name (mod_room (upd_keys (λ _, ∅))) ;;
    set_state name Sleeping ;;
    modify (upd_active_rooms (λ n, n - 1)) ;;
    ret false
  else
    dsh (fetch_add upd_keys_in_ram (Z.of_nat (size m))) ;;
    in_room name (charge cost) ;;
    set_state name Active ;;
    ret true.

Definition hibernate (name : bytes) : M db bool :=
  let* st := gets (λ d, state (room_of name d)) in
  if decide (st = Sleeping) then ret true else
  set_state name Hibernating ;;
  let* m := gets (λ d, keys (room_of name d)) in
  let resident := Z.of_nat (size m) in
  let cost := keys_cost m in
  let* ok := in_room name (hibernate_room name) in
  if negb ok then
    set_state name Active ;;
    ret false
  else
    dsh (fetch_add upd_keys_in_ram (- resident)) ;;
    in_room name (charge (- cost)) ;;
    set_state name Sleeping ;;
    modify (upd_active_rooms (λ n, n - 1)) ;;
    ret true.

(** A name becomes part of a file name. *)
Definition valid_name (name : bytes) : bool :=
  negb (bool_decide (name = [])) && (length name <=? 200)%nat
  && forallb (λ c, negb (bool_decide (c = chr 47)) && negb (bool_decide (c = chr 0))) name.

(** [wake_room]: [None], or the error. *)
Definition wake_room (name : bytes) : M db (option bytes) :=
  if negb (valid_name name) then ret (Some (reply "-ERR invalid room name")) else
  let* found := find_room name false in
  let* full := gets (λ d, cfg_max_rooms cfg <=? Z.of_nat (size (rooms d))) in
  if negb found && full then ret (Some (reply "-ERR too many rooms")) else
  (if found : bool then ret true else find_room name true) ;;
  let* ok := activate name false in
  ret (if ok : bool then None else Some ROOMS_FULL).

Definition set_client_room (fd : Z) (name : bytes) : M db unit :=
  modify (upd_client_rooms (<[fd := name]>)).

Definition get_client_room (fd : Z) : M db bytes :=
  let* o := gets (λ d, client_rooms d !! fd) in
  match o with
  | Some name => ret name
  | None => set_client_room fd (str "default") ;; ret (str "default")
  end.

Definition handle_room (fd : Z) (args : list bytes) : M db bytes :=
  if negb (length args =? 2)%nat then ret (reply "-ERR Wrong number of arguments for ROOM") else
  let* err := wake_room (arg args 1) in
  match err with
  | Some err => ret err
  | None => set_client_room fd (arg args 1) ;; ret (reply "+OK")
  end.

Definition handle_room_admin (command : bytes) (args : list bytes) : M db bytes :=
  if eqs "ROOMS" command then
    let* m := gets rooms in
    let* l := dsh (interact (λ k, traverse k m)) in
    ret (str "*" ++ to_string_u (Z.of_nat (size m)) ++ CRLF ++ mjoin (map (λ p, bulk_string p.1) l))
  else
  if negb (length args =? 2)%nat then ret (wrong_args command) else
  let name := arg args 1 in
  if eqs "ROOM.WAKE" command then
    let* err := wake_room name in
    ret (match err with Some err => err | None => reply "+OK" end)
  else
  let* found := find_room name false in
  if negb found then ret (reply "-ERR no such room") else
  if eqs "ROOM.HIBERNATE" command then
    if eqs "default" name then ret (reply "-ERR the default room is pinned") else
    let* ok := hibernate name in
    ret (if ok : bool then reply "+OK" else reply "-ERR snapshot failed, room stays active")
  else if eqs "ROOM.INFO" command then
    let* resp3 := gets resp3_ in
    let* r := gets (room_of name) in
    let '(n, b) := match state r with
                   | Active => (Z.of_nat (size (keys r)), rbytes r) | _ => (0, 0) end in
    ret (map_header resp3 4 ++ bulk_string (str "state") ++ bulk_string (STATE_NAMES (state r))
         ++ bulk_string (str "last_access_ms") ++ str ":" ++ to_string (last_access r) ++ CRLF
         ++ bulk_string (str "keys") ++ str ":" ++ to_string_u n ++ CRLF
         ++ bulk_string (str "bytes") ++ str ":" ++ to_string_u b ++ CRLF)
  else ret (reply "-ERR unknown command").

(** The candidates of [hibernate_inactive_rooms], which are tested again with
    the room's lock held. *)
Definition idle (now : Z) (r : room) : bool :=
  bool_decide (state r = Active) && (ROOM_IDLE_MS <? now - last_access r).

Definition hibernate_if_idle (name : bytes) : M db unit :=
  let* r := gets (room_of name) in
  if decide (state r ≠ Active) then ret tt else
  let* now := dsh get_current_time_ms in
  when (ROOM_IDLE_MS <? now - last_access r) (hibernate name ;; ret tt).

Definition hibernate_inactive_rooms : M db unit :=
  let* now := dsh get_current_time_ms in
  let* m := gets rooms in
  let* l := dsh (interact (λ k, traverse k m)) in
  let candidates := filter (λ p, idle now p.2 = true ∧ p.1 ≠ str "default") l in
  for_each candidates (λ p, hibernate_if_idle p.1).

Definition clean_room (now : Z) : M ctx unit :=
  let* m := get_room keys in
  let* l := sh (interact (λ k, traverse k m)) in
  for_each l (λ p, when (expired p.2 now) (erase p.1)).

Definition clean_expired_keys : M db unit :=
  let* now := dsh get_current_time_ms in
  let* m := gets rooms in
  let* l := dsh (interact (λ k, traverse k m)) in
  for_each l (λ p, in_room p.1 (clean_room now)).

(** [remove_client] of the subscriptions; [walk] is the order of its set. *)
Definition cleanup_client (walk : gset bytes → list bytes) (fd : Z) : M db unit :=
  zoom pubsub_ (λ s, upd_pubsub (λ _, s)) (remove_client walk fd) ;;
  modify (upd_client_rooms (delete fd)).

End rooms.

(** ** Symbolic execution *)

(** The state an operation on one room leaves: the room, what is shared and
    the count of active rooms. *)
Definition put (name : bytes) (r : room) (s : shared) (n : Z) (d : db) : db :=
  Db_ (<[name := r]> (rooms d)) (client_rooms d) n (total_commands d) (pubsub_ d)
    (rewrite_child d) (rewrite_from d) (resp3_ d) s.

Lemma room_of_put name r s n d : room_of name (put name r s n d) = r.
Proof. unfold room_of, put. cbn. by rewrite lookup_insert_eq. Qed.

Lemma put_put name r s n r' s' n' d : put name r' s' n' (put name r s n d) = put name r' s' n' d.
Proof. unfold put. cbn. by rewrite insert_insert_eq. Qed.

Section rules.
  Context `{World}.

Lemma wp_dsh {A} (m : M shared A) (Q : A → db → Prop) d :
  wp m (λ a s, Q a (upd_db_sh (λ _, s) d)) (db_sh d) → wp (dsh m) Q d.
Proof. intros Hm. by apply wp_zoom. Qed.

Lemma wp_in_room {A} name (m : M ctx A) (Q : A → db → Prop) d :
  wp m (λ a c, Q a (put name (c_room c) (c_sh c) (active_rooms d) d)) (Ctx_ (room_of name d) (db_sh d)) →
  wp (in_room name m) Q d.
Proof. intros Hm. by apply wp_zoom. Qed.

(** The same on a state that is already of that form. *)
Lemma wp_dsh_put {A} (m : M shared A) (Q : A → db → Prop) name r s n d :
  wp m (λ a s', Q a (put name r s' n d)) s → wp (dsh m) Q (put name r s n d).
Proof. intros Hm. by apply wp_dsh. Qed.

Lemma wp_in_room_put {A} name (m : M ctx A) (Q : A → db → Prop) r s n d :
  wp m (λ a c, Q a (put name (c_room c) (c_sh c) n d)) (Ctx_ r s) →
  wp (in_room name m) Q (put name r s n d).
Proof.
  intros Hm. apply wp_in_room. rewrite room_of_put. eapply wp_mono; [exact Hm|].
  intros a c Hc. by rewrite put_put.
Qed.

Lemma wp_active_put f (Q : unit → db → Prop) name r s n d :
  Q tt (put name r s (f n) d) → wp (modify (upd_active_rooms f)) Q (put name r s n d).
Proof. done. Qed.

Lemma wp_room_put {A} (f : room → A) (Q : A → db → Prop) name r s n d :
  Q (f r) (put name r s n d) → wp (gets (λ d, f (room_of name d))) Q (put name r s n d).
Proof. intros HQ. apply wp_gets. by rewrite room_of_put. Qed.

End rules.

(** One step of a program on one room. *)
Ltac room_step :=
  match goal with
  | |- wp (bind _ _) _ _ => apply wp_bind
  | |- wp (ret _) _ _ => apply wp_ret
  | |- wp (dsh _) _ (put _ _ _ _ _) => apply wp_dsh_put
  | |- wp (in_room _ _) _ (put _ _ _ _ _) => apply wp_in_room_put
  | |- wp (set_state _ _) _ (put _ _ _ _ _) => unfold set_state; apply wp_in_room_put
  | |- wp (modify (upd_active_rooms _)) _ (put _ _ _ _ _) => apply wp_active_put
  | |- wp (gets (λ d, state (room_of ?name d))) _ (put _ _ _ _ _) => apply (wp_room_put state)
  | |- wp (gets (λ d, keys (room_of ?name d))) _ (put _ _ _ _ _) => apply (wp_room_put keys)
  | |- wp (gets active_rooms) _ _ => apply wp_gets
  | |- wp (mod_room _) _ _ => apply wp_mod_room
  | |- wp (fetch_add _ _) _ _ => apply wp_fetch_add
  | |- wp (charge _) _ _ => apply wp_charge
  | |- wp get_current_time_ms _ _ => apply wp_now
  end; cbn [c_room c_sh upd_c_room].

Ltac room_run := repeat room_step; cbn beta iota.
