(* ===== verification/RoomSpecs.v ===== *)
(** * The invariant of the database

    Every room is Sleeping and empty or Active; the budget counter, the byte
    counters and the key counter are exactly the sums over the registry; RAM,
    cold storage and snapshots of a room never hold the same key twice. The
    life cycle, the maintenance and every command of a room keep it. *)

From stdpp Require Import gmap.
From S2P Require Import Prelude FsUtil Config World Types State Cold Snapshot Keyspace Crdt Commands PubSub Rooms.

(** Counters of 64 bits agree modulo their width. *)
Definition eq64 (x y : Z) : Prop := wrap64 x = wrap64 y.

Infix "≡64" := eq64 (at level 70).

#[export] Instance eq64_equivalence : Equivalence eq64.
Proof. split; unfold eq64; [by intros ?|by intros ? ?|by intros ? ? ? ->]. Qed.

#[export] Instance eq64_add : Proper (eq64 ==> eq64 ==> eq64) Z.add.
Proof.
  intros a a' Ha b b' Hb. unfold eq64 in *.
  by rewrite <- wrap64_add_l, Ha, wrap64_add_l, <- wrap64_add_r, Hb, wrap64_add_r.
Qed.

#[export] Instance eq64_opp : Proper (eq64 ==> eq64) Z.opp.
Proof.
  intros a a' Ha. unfold eq64, wrap64 in *.
  by rewrite <- !Z.sub_0_l, (Zminus_mod 0 a), (Zminus_mod 0 a'), Ha.
Qed.

#[export] Instance eq64_sub : Proper (eq64 ==> eq64 ==> eq64) Z.sub.
Proof. intros a a' Ha b b' Hb. unfold Z.sub. by rewrite Ha, Hb. Qed.

Lemma eq64_wrap x : wrap64 x ≡64 x.
Proof. apply wrap64_wrap64. Qed.

(** A counter that moves with a part of a sum. *)
Lemma eq64_move x y a b : x - b ≡64 y - a → x ≡64 y - a + b.
Proof. intros Hx. replace x with ((x - b) + b) at 1 by lia. by rewrite Hx. Qed.

(** ** Sums over the registry *)

Abbreviation rsum := (map_sum (K := bytes) (A := room)).

Lemma rsum_insert f name r m :
  f new_room = 0 →
  rsum f (<[name := r]> m) = rsum f m - f (default new_room (m !! name)) + f r.
Proof.
  intros Hf. destruct (m !! name) as [r'|] eqn:Hm; cbn [default].
  - by apply map_sum_insert.
  - rewrite map_sum_insert_new by done. cbn. lia.
Qed.

Section invariant.
  Context `{World}.

(** What a room contributes to the three counters. *)
Definition slot_of (r : room) : Z := if decide (state r = Sleeping) then 0 else 1.
Definition cost_of (r : room) : Z := keys_cost (keys r).
Definition count_of (r : room) : Z := Z.of_nat (size (keys r)).

Lemma new_room_free : slot_of new_room = 0 ∧ cost_of new_room = 0 ∧ count_of new_room = 0.
Proof. split; [done|]. split; [apply keys_cost_empty|done]. Qed.

(** A room at rest: with its lock free it is Active, or Sleeping and empty. *)
Record room_ok (r : room) : Prop := {
  rk_state : state r = Active ∨ (state r = Sleeping ∧ keys r = ∅);
  rk_bytes : rbytes r ≡64 cost_of r;
  rk_wf : map_Forall (λ _ x, wf_record x) (keys r)
}.

(** What a sleeping room would load does not overlap its cold keys. *)
Definition asleep_ok (name : bytes) (s : shared) : Prop :=
  ∀ data m, snaps s !! name = Some data → parse_snapshot data = Some m → m ##ₘ cold_view (cold s) name.

Record db_ok (d : db) : Prop := {
  dk_cold : cold_ok (cold (db_sh d));
  dk_rooms : map_Forall (λ _, room_ok) (rooms d);
  dk_active : active_rooms d = rsum slot_of (rooms d);
  dk_resident : resident_bytes (met (db_sh d)) ≡64 rsum cost_of (rooms d);
  dk_count : keys_in_ram (met (db_sh d)) ≡64 rsum count_of (rooms d);
  dk_disj : ∀ name, disjoint_ram name (Ctx_ (room_of name d) (db_sh d));
  dk_asleep : ∀ name, state (room_of name d) = Sleeping → asleep_ok name (db_sh d)
}.

Lemma new_room_ok : room_ok new_room.
Proof. split; [by right|by rewrite (proj1 (proj2 new_room_free))|apply map_Forall_empty]. Qed.

Lemma room_of_ok name d : db_ok d → room_ok (room_of name d).
Proof.
  intros Hok. unfold room_of. destruct (rooms d !! name) as [r|] eqn:Hr; [|apply new_room_ok].
  by apply (dk_rooms _ Hok name).
Qed.

Lemma room_of_put_ne name name' r s n d :
  name' ≠ name → room_of name' (put name r s n d) = room_of name' d.
Proof. intros Hne. unfold room_of, put. cbn. by rewrite lookup_insert_ne. Qed.

(** A change of one room that keeps the invariant. *)
Lemma put_ok name r s n d :
  db_ok d → room_ok r → cold_ok (cold s) →
  n = active_rooms d - slot_of (room_of name d) + slot_of r →
  resident_bytes (met s) - cost_of r ≡64 resident_bytes (met (db_sh d)) - cost_of (room_of name d) →
  keys_in_ram (met s) - count_of r ≡64 keys_in_ram (met (db_sh d)) - count_of (room_of name d) →
  disjoint_ram name (Ctx_ r s) → (state r = Sleeping → asleep_ok name s) →
  (∀ name', name' ≠ name → cold_view (cold s) name' = cold_view (cold (db_sh d)) name'
                           ∧ snaps s !! name' = snaps (db_sh d) !! name') →
  db_ok (put name r s n d).
Proof.
  intros [Hc Hr Ha Hb Hk Hd Hs] Hrok Hcok Hn Hbytes Hkeys Hdis Hsl Hother.
  destruct new_room_free as (N1 & N2 & N3).
  assert (Hsum : ∀ f x y, f new_room = 0 → y ≡64 rsum f (rooms d) →
    x - f r ≡64 y - f (room_of name d) → x ≡64 rsum f (<[name := r]> (rooms d))).
  { intros f x y Hf Hy Hw. rewrite rsum_insert by done. apply eq64_move. by rewrite Hw, Hy. }
  split; unfold put; cbn.
  - done.
  - by apply map_Forall_insert_2.
  - rewrite rsum_insert, Hn, Ha by done. done.
  - by eapply Hsum.
  - by eapply Hsum.
  - intros name'. destruct (decide (name' = name)) as [->|Hne].
    + unfold room_of. cbn. by rewrite lookup_insert_eq.
    + unfold room_of, disjoint_ram. cbn. rewrite lookup_insert_ne by done.
      rewrite (proj1 (Hother name' Hne)). apply Hd.
  - intros name'. destruct (decide (name' = name)) as [->|Hne].
    + unfold room_of. cbn. by rewrite lookup_insert_eq.
    + unfold room_of. cbn. rewrite lookup_insert_ne by done. intros Hst data m.
      destruct (Hother name' Hne) as [-> ->]. by apply Hs.
Qed.

Lemma room_tidy name d : db_ok d → tidy name (Ctx_ (room_of name d) (db_sh d)).
Proof.
  intros Hok. split; [split; [apply Hok|]|apply Hok]. apply (rk_wf _ (room_of_ok name d Hok)).
Qed.

(** An operation on the room [name]: it changes nothing else of the database. *)
Record touches (name : bytes) (d d' : db) : Prop := {
  tc_rooms : ∀ name', name' ≠ name → room_of name' d' = room_of name' d;
  tc_registry : ∀ name', is_Some (rooms d !! name') → is_Some (rooms d' !! name');
  tc_dom : ∀ name', is_Some (rooms d' !! name') → name' = name ∨ is_Some (rooms d !! name');
  tc_clients : client_rooms d' = client_rooms d;
  tc_pubsub : pubsub_ d' = pubsub_ d;
  tc_resp3 : resp3_ d' = resp3_ d;
  tc_rewrite : rewrite_child d' = rewrite_child d ∧ rewrite_from d' = rewrite_from d;
  tc_snaps : ∀ name', name' ≠ name → snaps (db_sh d') !! name' = snaps (db_sh d) !! name'
}.

Global Instance touches_preorder name : PreOrder (touches name).
Proof.
  split; [split; auto|]. intros d1 d2 d3 [R1 ? D1 ? ? ? [] S1] [R2 ? D2 ? ? ? [] S2].
  split; try (split; congruence); try congruence; [|auto|intros n [?|Hn]%D2; auto|]; intros name' Hne.
  - by rewrite R2, R1.
  - by rewrite S2, S1.
Qed.

Lemma touches_put name r s n d :
  (∀ name', name' ≠ name → snaps s !! name' = snaps (db_sh d) !! name') →
  touches name d (put name r s n d).
Proof.
  intros Hsn. split; try done; intros name'; [by apply room_of_put_ne|..]; cbn; intros Hr;
    (destruct (decide (name' = name)) as [->|Hne]; [by rewrite ?lookup_insert_eq; auto|]).
  - by rewrite lookup_insert_ne.
  - rewrite lookup_insert_ne in Hr by done. by right.
Qed.

(** A step on a room at rest: what the invariant asks of it. *)
Lemma in_room_gen {A} name (m : M ctx A) (P : A → ctx → Prop) d :
  db_ok d →
  wp m (λ a c', tidy name c' ∧ hstep name (Ctx_ (room_of name d) (db_sh d)) c' ∧ P a c'
     ∧ (state (room_of name d) = Sleeping → keys (c_room c') = ∅ ∧
          cold_view (cold (c_sh c')) name = cold_view (cold (db_sh d)) name))
    (Ctx_ (room_of name d) (db_sh d)) →
  wp (in_room name m) (λ a d', db_ok d' ∧ touches name d d' ∧ active_rooms d' = active_rooms d
    ∧ state (room_of name d') = state (room_of name d)
    ∧ P a (Ctx_ (room_of name d') (db_sh d'))) d.
Proof.
  intros Hok Hm. pose proof (room_of_ok name d Hok) as Hr. apply wp_in_room.
  eapply wp_mono; [exact Hm|]. intros a [r s] (Hti' & Hs & HP & Hsl). cbn [c_room c_sh] in *.
  destruct Hs as [Hsn _ Hstate _ [Hb1 Hb2 Hb3] Hcv]. cbn [c_room c_sh] in *.
  assert (Hbytes : rbytes r ≡64 cost_of r).
  { assert (Hz : rbytes r - cost_of r ≡64 0).
    { rewrite <- (Z.sub_diag (cost_of (room_of name d))), <- (rk_bytes _ Hr) at 1. exact Hb2. }
    replace (rbytes r) with (rbytes r - cost_of r + cost_of r) by lia. by rewrite Hz. }
  rewrite room_of_put. split; [|by split_and!; [apply touches_put; intros; by rewrite Hsn|..]].
  apply put_ok; try done; try apply Hti'.
  - split; [|done|apply Hti']. rewrite Hstate. destruct (rk_state _ Hr) as [?|[Hs _]]; [by left|].
    right. split; [done|]. by apply Hsl.
  - unfold slot_of. rewrite Hstate. lia.
  - rewrite <- Hbytes, <- (rk_bytes _ Hr). exact Hb1.
  - rewrite Hstate. intros Hst data mm. rewrite Hsn, (proj2 (Hsl Hst)). by apply (dk_asleep _ Hok name).
  - intros name' Hne. split; [by apply Hcv|by rewrite Hsn].
Qed.

(** A command in an active room: anything that is a step of the room. *)
Lemma in_room_ok {A} name (m : M ctx A) (P : A → ctx → Prop) d :
  db_ok d → state (room_of name d) = Active →
  (∀ c, tidy name c → wp m (λ a c', tidy name c' ∧ hstep name c c' ∧ P a c') c) →
  wp (in_room name m) (λ a d', db_ok d' ∧ touches name d d' ∧ active_rooms d' = active_rooms d
    ∧ state (room_of name d') = Active ∧ P a (Ctx_ (room_of name d') (db_sh d'))) d.
Proof.
  intros Hok Hst Hm. eapply wp_mono.
  - apply (in_room_gen name m P); [done|]. eapply wp_mono; [by apply Hm, room_tidy|].
    intros a c' (? & ? & ?). split_and!; try done. congruence.
  - cbn beta. intros a d' (? & ? & ? & Hs & ?). split_and!; try done. congruence.
Qed.

Lemma disjoint_empty_room name s r : keys r = ∅ → disjoint_ram name (Ctx_ r s).
Proof. intros Hk. unfold disjoint_ram. cbn. rewrite Hk. apply map_disjoint_empty_l. Qed.

Lemma no_cold s name : index (cold s) = ∅ → cold_view (cold s) name = ∅.
Proof. intros Hi. unfold cold_view. rewrite Hi, lookup_empty. apply fmap_empty. Qed.

(** A step that touches none of the stores. *)
Lemma quiet_db_ok s' d : db_ok d → quiet (db_sh d) s' → db_ok (upd_db_sh (λ _, s') d).
Proof.
  intros [H1 H2 H3 H4 H5 H6 H7] Hq. pose proof Hq as [Hi Hf Hb Ho Hsn _ [Hk Hr]]. split; cbn.
  - by eapply quiet_cold_ok.
  - done.
  - done.
  - by rewrite Hr.
  - by rewrite Hk.
  - intros name. unfold disjoint_ram. cbn. rewrite (quiet_cold_view (db_sh d)) by done. apply H6.
  - intros name Hst data m. rewrite Hsn, (quiet_cold_view (db_sh d)) by done. by apply H7.
Qed.

(** A sleeping room that was loaded and emptied again. *)
Lemma asleep_same name s s' :
  snaps s' !! name = snaps s !! name ∨ snaps s' !! name = None →
  cold_view (cold s') name = cold_view (cold s) name → asleep_ok name s → asleep_ok name s'.
Proof. intros Hsn Hcv Ha data m. rewrite Hcv. destruct Hsn as [->| ->]; [apply Ha|done]. Qed.

(** What [wakeup_room] leaves in a sleeping room: the table of its file, or
    nothing when there is no readable or valid file. *)
Lemma wakeup_loads name r s :
  keys r = ∅ → asleep_ok name s →
  wp (wakeup_room name) (λ _ c', ∃ m, c_room c' = upd_keys (λ _, m) r
    ∧ (m = ∅ ∨ ∃ data, snaps s !! name = Some data ∧ parse_snapshot data = Some m)
    ∧ m ##ₘ cold_view (cold s) name ∧ map_Forall (λ _ x, wf_record x) m
    ∧ cold (c_sh c') = cold s ∧ met (c_sh c') = met s
    ∧ (aof (c_sh c') = aof s ∧ crdt (c_sh c') = crdt s)
    ∧ (∀ name', name' ≠ name → snaps (c_sh c') !! name' = snaps s !! name')
    ∧ (snaps (c_sh c') !! name = snaps s !! name ∨ snaps (c_sh c') !! name = None)) (Ctx_ r s).
Proof.
  intros Hk Has. eapply wp_mono; [apply wakeup_room_spec|]. intros ok c' [n Hc]. cbn [c_sh] in Hc.
  assert (Hr : r = upd_keys (λ _, ∅) r) by (destruct r; cbn in Hk; by subst).
  destruct ok.
  - destruct Hc as (data & m & Hs & Hp & Hwf & ->). exists m. split; [done|].
    split; [right; by exists data|]. split; [by eapply Has|].
    split; [done|]. split; [done|]. split; [done|]. split; [done|]. split; [done|]. by left.
  - exists ∅. split; [by destruct Hc as [->|(data & _ & _ & ->)]|]. split; [by left|].
    split; [apply map_disjoint_empty_l|]. split; [apply map_Forall_empty|].
    destruct Hc as [->|(data & Hs & Hp & ->)]; cbn.
    + split; [done|]. split; [done|]. split; [done|]. split; [done|]. by left.
    + split; [done|]. split; [done|]. split; [done|]. split; [intros; by apply lookup_delete_ne|].
      right. by apply lookup_delete_eq.
Qed.

(** The room was used: only its access time and the interaction count move. *)
Lemma put_same_ok name r s d :
  db_ok d → keys r = keys (room_of name d) → rbytes r = rbytes (room_of name d) →
  state r = state (room_of name d) → cold s = cold (db_sh d) → met s = met (db_sh d) →
  snaps s = snaps (db_sh d) → db_ok (put name r s (active_rooms d) d).
Proof.
  intros Hok Hk Hb Hst Hc Hm Hs. destruct (room_of_ok name d Hok) as [R1 R2 R3].
  apply put_ok; try done.
  - split; unfold cost_of in *; rewrite ?Hst, ?Hk, ?Hb; try done.
  - rewrite Hc. apply Hok.
  - unfold slot_of. rewrite Hst. lia.
  - unfold cost_of. by rewrite Hm, Hk.
  - unfold count_of. by rewrite Hm, Hk.
  - unfold disjoint_ram. cbn. rewrite Hk, Hc. apply Hok.
  - intros Hsl data m. rewrite Hs, Hc. apply (dk_asleep _ Hok name). congruence.
  - intros name' _. by rewrite Hc, Hs.
Qed.

Lemma slot_active r : state r = Active → slot_of r = 1.
Proof. intros Hs. unfold slot_of. rewrite decide_False; [done|congruence]. Qed.

Lemma slot_sleeping r : state r = Sleeping → slot_of r = 0.
Proof. intros Hs. unfold slot_of. by rewrite decide_True. Qed.

Lemma empty_costs r : keys r = ∅ → cost_of r = 0 ∧ count_of r = 0.
Proof. intros Hk. unfold cost_of, count_of. by rewrite Hk, keys_cost_empty. Qed.

(** A room that sleeps again as it did; its snapshot may have been set aside. *)
Lemma put_sleeping_ok name r s d :
  db_ok d → state (room_of name d) = Sleeping → keys r = ∅ → rbytes r = rbytes (room_of name d) →
  state r = Sleeping → cold s = cold (db_sh d) → met s = met (db_sh d) →
  (∀ name', name' ≠ name → snaps s !! name' = snaps (db_sh d) !! name') →
  (snaps s !! name = snaps (db_sh d) !! name ∨ snaps s !! name = None) →
  db_ok (put name r s (active_rooms d) d).
Proof.
  intros Hok Hsl Hk Hb Hst Hc Hm Hs Hs'. pose proof (room_of_ok name d Hok) as [R1 R2 R3].
  assert (Hk0 : keys (room_of name d) = ∅) by (destruct R1 as [?|[_ ?]]; congruence).
  destruct (empty_costs _ Hk) as [Ec En]. destruct (empty_costs _ Hk0) as [Ec0 En0].
  apply put_ok; try done.
  - split; [by right|rewrite Hb, Ec, <- Ec0; done|rewrite Hk; apply map_Forall_empty].
  - rewrite Hc. apply Hok.
  - rewrite !slot_sleeping by done. lia.
  - by rewrite Hm, Ec, Ec0.
  - by rewrite Hm, En, En0.
  - by apply disjoint_empty_room.
  - intros _. eapply asleep_same; [exact Hs'|by rewrite Hc|by apply Hok].
  - intros name' Hne. rewrite Hc. by split; [|apply Hs].
Qed.

(** A room that was asleep and has loaded the table [m]. *)
Lemma put_woken_ok name r s d m :
  db_ok d → state (room_of name d) = Sleeping → keys r = m →
  rbytes r ≡64 rbytes (room_of name d) + keys_cost m → state r = Active →
  cold s = cold (db_sh d) →
  resident_bytes (met s) ≡64 resident_bytes (met (db_sh d)) + keys_cost m →
  keys_in_ram (met s) ≡64 keys_in_ram (met (db_sh d)) + Z.of_nat (size m) →
  m ##ₘ cold_view (cold (db_sh d)) name → map_Forall (λ _ x, wf_record x) m →
  (∀ name', name' ≠ name → snaps s !! name' = snaps (db_sh d) !! name') →
  db_ok (put name r s (active_rooms d + 1) d).
Proof.
  intros Hok Hsl <- Hb Hst Hc Hmb Hmk Hd Hwf Hs. pose proof (room_of_ok name d Hok) as [R1 R2 R3].
  assert (Hk0 : keys (room_of name d) = ∅) by (destruct R1 as [?|[_ ?]]; congruence).
  destruct (empty_costs _ Hk0) as [Ec0 En0].
  apply put_ok; try done.
  - split; [by left| |done]. by rewrite Hb, R2, Ec0.
  - rewrite Hc. apply Hok.
  - rewrite (slot_active r), (slot_sleeping (room_of name d)) by done. lia.
  - rewrite Hmb, Ec0. unfold cost_of, eq64. f_equal. lia.
  - rewrite Hmk, En0. unfold count_of, eq64. f_equal. lia.
  - unfold disjoint_ram. cbn. by rewrite Hc.
  - congruence.
  - intros name' Hne. rewrite Hc. by split; [|apply Hs].
Qed.

Definition loaded (name : bytes) (s : shared) (m : gmap bytes record) : Prop :=
  m = ∅ ∨ ∃ data, snaps s !! name = Some data ∧ parse_snapshot data = Some m.

(** The memory limit; it is not asked when the budget is overridden. *)
Definition in_limit (s : shared) (cost : Z) : Prop :=
  cfg_maxmemory cfg = 0 ∨ wrap64 (resident_bytes (met s) + cost) <= cfg_maxmemory cfg.

Lemma wp_fits_put (over : bool) cost (Q : bool → db → Prop) name r s n d :
  (∀ b : bool, (if b then over = false → in_limit s cost else over = false) →
     Q b (put name r s n d)) →
  wp (if over then ret true else dsh (fits cost)) Q (put name r s n d).
Proof.
  intros HQ. destruct over; [by apply HQ|]. apply wp_dsh_put, wp_gets, HQ. unfold in_limit.
  destruct (_ || _) eqn:E; [|done]. intros _.
  apply orb_true_iff in E as [?%Z.eqb_eq|?%Z.leb_le]; auto.
Qed.

(** Snapshot files stay as they are or go. *)
Definition snaps_shrink (s s' : shared) : Prop :=
  ∀ name, snaps s' !! name = snaps s !! name ∨ snaps s' !! name = None.

Lemma shrink_same s s' : snaps s' = snaps s → snaps_shrink s s'.
Proof. intros E name. left. by rewrite E. Qed.

Lemma shrink_at name s s' :
  (∀ name', name' ≠ name → snaps s' !! name' = snaps s !! name') →
  (snaps s' !! name = snaps s !! name ∨ snaps s' !! name = None) → snaps_shrink s s'.
Proof. intros Ho Hn name'. destruct (decide (name' = name)) as [->|]; [done|left; by apply Ho]. Qed.

#[export] Instance snaps_shrink_preorder : PreOrder snaps_shrink.
Proof.
  split; [by left|]. intros s1 s2 s3 H1 H2 name. destruct (H1 name) as [E1|E1], (H2 name) as [E2|E2]; rewrite E2; auto.
Qed.

Lemma activate_spec name over d :
  db_ok d →
  wp (activate name over) (λ ok d', db_ok d' ∧ touches name d d'
    ∧ last_access (room_of name d') = clock_at (db_sh d)
    ∧ (if ok : bool then state (room_of name d') = Active
         ∧ (if decide (state (room_of name d) = Active)
            then active_rooms d' = active_rooms d ∧ keys (room_of name d') = keys (room_of name d)
                 ∧ snaps (db_sh d') = snaps (db_sh d)
            else (over = false → active_rooms d < MAX_ACTIVE_ROOMS) ∧ active_rooms d' = active_rooms d + 1
                 ∧ loaded name (db_sh d) (keys (room_of name d'))
                 ∧ (over = false → in_limit (db_sh d') 0))
       else over = false ∧ state (room_of name d') = Sleeping ∧ state (room_of name d) = Sleeping
         ∧ active_rooms d' = active_rooms d)
    ∧ cold (db_sh d') = cold (db_sh d) ∧ aof (db_sh d') = aof (db_sh d)
    ∧ crdt (db_sh d') = crdt (db_sh d) ∧ snaps_shrink (db_sh d) (db_sh d')) d.
Proof.
  intros Hok. unfold activate. apply wp_bind, wp_dsh, wp_now, wp_bind, wp_in_room, wp_mod_room.
  cbn [c_room c_sh upd_c_room].
  set (r1 := upd_last_access (λ _, clock_at (db_sh d)) (room_of name d)).
  set (s1 := upd_sys_tick S (db_sh d)).
  match goal with |- wp _ _ ?x => change x with (put name r1 s1 (active_rooms d) d) end.
  assert (Hsame : db_ok (put name r1 s1 (active_rooms d) d)) by by apply put_same_ok.
  destruct (room_of_ok name d Hok) as [Hst Hby Hwf].
  room_run. change (state r1) with (state (room_of name d)).
  destruct (decide (state (room_of name d) = Active)) as [Hact|Hact]; room_run.
  { split_and!; rewrite ?room_of_put; auto using touches_put, shrink_same; try done. }
  destruct Hst as [?|[Hsl Hk]]; [done|].
  destruct (_ && _) eqn:Hfull; room_run.
  { apply andb_true_iff in Hfull as [_ Hov%negb_true_iff]. split_and!; rewrite ?room_of_put; auto using touches_put, shrink_same; try done. }
  eapply wp_mono; [apply wakeup_loads; [exact Hk|by apply (dk_asleep _ Hok name)]|].
  intros u [r2 s2] (m & Hr2 & Hload & Hdis & Hwfm & Hc2 & Hm2 & [Ha2 Hcr2] & Hs2 & Hs2'). cbn [c_room c_sh] in *.
  room_run. subst r2. cbn [keys upd_keys].
  apply wp_fits_put. intros [|] Hfit; cbn [negb]; room_run; rewrite ?room_of_put.
  - split; [by apply (put_woken_ok _ _ _ _ m); try done; cbn; rewrite ?Hm2; apply eq64_wrap|].
    split; [by apply touches_put|]. split; [done|]. split; [|split_and!; try done; by apply (shrink_at name)].
    split; [done|]. split; [|split; [done|split; [done|]]].
    + intros ->. rewrite andb_true_r in Hfull. by apply Z.leb_gt in Hfull.
    + intros Hov. destruct (Hfit Hov) as [?|Hf]; [by left|right]. cbn. by rewrite Z.add_0_r, wrap64_wrap64.
  - split; [|by split_and!; auto using touches_put; try (cbn; lia); apply (shrink_at name)].
    replace (active_rooms d + 1 - 1) with (active_rooms d) by lia. by apply put_sleeping_ok.
Qed.

Lemma reload_disjoint (m m' : gmap bytes record) : m ##ₘ m' → reload <$> m ##ₘ m'.
Proof. rewrite !map_disjoint_dom. by rewrite dom_fmap_L. Qed.

(** Sizes fit the machine: no key, value or table is larger than the address space. *)
Definition addressable (m : gmap bytes record) : Prop :=
  map_Forall (λ k r, is_u64 (len k) ∧ is_u64 (len (r_value r))) m ∧ is_u64 (Z.of_nat (size m)).

(** A room that went to sleep with its table in the snapshot [file]. *)
Lemma put_asleep_ok name r s d file :
  db_ok d → state (room_of name d) = Active → keys r = ∅ → state r = Sleeping →
  rbytes r ≡64 rbytes (room_of name d) - cost_of (room_of name d) → cold s = cold (db_sh d) →
  resident_bytes (met s) ≡64 resident_bytes (met (db_sh d)) - cost_of (room_of name d) →
  keys_in_ram (met s) ≡64 keys_in_ram (met (db_sh d)) - count_of (room_of name d) →
  snaps s = <[name := file]> (snaps (db_sh d)) →
  parse_snapshot file = Some (reload <$> keys (room_of name d)) →
  db_ok (put name r s (active_rooms d - 1) d).
Proof.
  intros Hok Hact Hk Hst Hb Hc Hmb Hmk Hs Hp. pose proof (room_of_ok name d Hok) as [R1 R2 R3].
  destruct (empty_costs _ Hk) as [Ec En].
  apply put_ok; try done.
  - split; [by right| |rewrite Hk; apply map_Forall_empty]. rewrite Hb, R2, Ec. by rewrite Z.sub_diag.
  - rewrite Hc. apply Hok.
  - rewrite (slot_active (room_of name d)), (slot_sleeping r) by done. lia.
  - by rewrite Hmb, Ec, Z.sub_0_r.
  - by rewrite Hmk, En, Z.sub_0_r.
  - by apply disjoint_empty_room.
  - intros _ data m. rewrite Hs, Hc, lookup_insert_eq. intros [= <-]. rewrite Hp. intros [= <-].
    apply reload_disjoint, (dk_disj _ Hok name).
  - intros name' Hne. rewrite Hc, Hs. by rewrite lookup_insert_ne.
Qed.

Lemma hibernate_spec name d :
  db_ok d → addressable (keys (room_of name d)) →
  wp (hibernate name) (λ ok d', db_ok d' ∧ touches name d d'
    ∧ (cold (db_sh d') = cold (db_sh d) ∧ aof (db_sh d') = aof (db_sh d))
    ∧ if decide (state (room_of name d) = Sleeping) then ok = true ∧ d' = d else
      if ok : bool then state (room_of name d') = Sleeping ∧ active_rooms d' = active_rooms d - 1
        ∧ ∃ file, snaps (db_sh d') = <[name := file]> (snaps (db_sh d))
            ∧ parse_snapshot file = Some (reload <$> keys (room_of name d))
      else room_of name d' = room_of name d ∧ active_rooms d' = active_rooms d
        ∧ snaps (db_sh d') = snaps (db_sh d)) d.
Proof.
  intros Hok [Hadr Hsz]. unfold hibernate. apply wp_bind, wp_gets.
  destruct (room_of_ok name d Hok) as [Hst Hby Hwf].
  destruct (decide (state (room_of name d) = Sleeping)) as [Hsl|Hsl]; [by apply wp_ret|].
  destruct Hst as [Hst|[? _]]; [|done].
  apply wp_bind. unfold set_state at 1. apply wp_in_room, wp_mod_room. cbn [c_room c_sh upd_c_room].
  room_run. eapply wp_mono; [apply hibernate_room_spec|]. intros ok [r s] [n Hc].
  destruct ok; cbn [negb].
  - destruct Hc as (l & Hl & [= -> ->]). cbn [c_room c_sh] in *. room_run. rewrite room_of_put.
    assert (Hfits : map_Forall (λ k x, fits_record (k, x)) (keys (room_of name d))).
    { intros k x Hx. destruct (Hadr k x Hx). split; [done|]. split; [done|]. by apply (Hwf k). }
    pose proof (snapshot_of_map l _ Hl Hfits Hsz) as Hp.
    split; [|split_and!; try done; [apply touches_put|by eexists];
      intros name' Hne; by apply lookup_insert_ne].
    eapply put_asleep_ok; try done; apply eq64_wrap.
  - injection Hc as -> ->. room_run. rewrite room_of_put.
    assert (Hr : upd_state (λ _, Active) (upd_state (λ _, Hibernating) (room_of name d)) = room_of name d).
    { destruct (room_of name d); cbn in *. by rewrite Hst. }
    rewrite Hr. split; [by apply put_same_ok|]. split; [by apply touches_put|done].
Qed.

End invariant.
