(* ===== verification/RoomLife.v ===== *)
(** * The life cycle of rooms at work

    What the ROOM commands, the watchdog's maintenance and a command in a
    room do to the database, with the invariant of RoomSpecs.v, and the two
    properties of the life cycle. *)

From stdpp Require Import gmap.
From S2P Require Import Prelude FsUtil Resp Config World Types State Cold Snapshot Keyspace Crdt Effects Commands PubSub Rooms RoomSpecs.

Section life.
  Context `{World}.

(** The room is registered; a room that was not there is a new one. *)
Lemma find_room_spec name create d :
  db_ok d →
  wp (find_room name create) (λ b d', db_ok d' ∧ touches name d d'
    ∧ b = bool_decide (is_Some (rooms d !! name)) || create
    ∧ db_sh d' = db_sh d ∧ active_rooms d' = active_rooms d
    ∧ (∀ name', room_of name' d' = room_of name' d)
    ∧ (b = true → is_Some (rooms d' !! name))) d.
Proof.
  intros Hok. unfold find_room. apply wp_bind, wp_gets.
  destruct (rooms d !! name) as [r|] eqn:Hr.
  { apply wp_ret. by split_and!. }
  destruct create; cbn [negb].
  2:{ apply wp_ret. by split_and!. }
  apply wp_bind, wp_modify, wp_ret.
  assert (Hn : room_of name d = new_room) by (unfold room_of; by rewrite Hr).
  change (upd_rooms (<[name := new_room]>) d) with (put name new_room (db_sh d) (active_rooms d) d).
  split_and!; try done.
  - by apply put_same_ok; rewrite ?Hn.
  - by apply touches_put.
  - intros name'. destruct (decide (name' = name)) as [->|Hne]; [by rewrite room_of_put|].
    by apply room_of_put_ne.
  - intros _. cbn. by rewrite lookup_insert_eq.
Qed.

(** The active rooms did not pass the budget, or were already above it. *)
Definition in_budget (d d' : db) : Prop := active_rooms d' <= Z.max (active_rooms d) MAX_ACTIVE_ROOMS.

Lemma in_budget_trans d1 d2 d3 : in_budget d1 d2 → in_budget d2 d3 → in_budget d1 d3.
Proof. unfold in_budget. lia. Qed.

Lemma in_budget_eq d d' : active_rooms d' = active_rooms d → in_budget d d'.
Proof. unfold in_budget. lia. Qed.

Lemma activate_budget name d :
  db_ok d →
  wp (activate name false) (λ ok d', db_ok d' ∧ touches name d d' ∧ in_budget d d'
    ∧ (if ok : bool then state (room_of name d') = Active
       else state (room_of name d) = Sleeping ∧ state (room_of name d') = Sleeping)) d.
Proof.
  intros Hok. eapply wp_mono; [by apply activate_spec|].
  intros ok d' (Hok' & Ht & _ & Hr & _). split; [done|]. split; [done|]. unfold in_budget.
  destruct ok; [|destruct Hr as (_ & ? & ? & ?); by split; [lia|]].
  destruct Hr as (Hst & Hr). split; [|done]. unfold MAX_ACTIVE_ROOMS in *.
  destruct (decide _); [destruct Hr; lia|]. destruct Hr as (Hlt & -> & _). specialize (Hlt eq_refl). lia.
Qed.

Definition woken (name : bytes) (d : db) (err : option bytes) (d' : db) : Prop :=
  is_Some (rooms d' !! name) ∧
  ((err = None ∧ state (room_of name d') = Active)
   ∨ (err = Some ROOMS_FULL ∧ state (room_of name d) = Sleeping ∧ state (room_of name d') = Sleeping)).

Lemma wake_known name d :
  db_ok d → is_Some (rooms d !! name) →
  wp (let* ok := activate name false in ret (if ok : bool then None else Some ROOMS_FULL))
    (λ err d', db_ok d' ∧ touches name d d' ∧ in_budget d d' ∧ woken name d err d') d.
Proof.
  intros Hok Hr. apply wp_bind. eapply wp_mono; [by apply activate_budget|].
  intros ok d' (Hok' & Ht & Hb & Hst). apply wp_ret. split_and!; try done.
  split; [by apply (tc_registry _ _ _ Ht)|]. destruct ok; auto.
Qed.

Lemma wake_room_spec name d :
  db_ok d →
  wp (wake_room name) (λ err d', db_ok d' ∧ touches name d d' ∧ in_budget d d' ∧
    if negb (valid_name name) then err = Some (reply "-ERR invalid room name") ∧ d' = d else
    if bool_decide (rooms d !! name = None) && (cfg_max_rooms cfg <=? Z.of_nat (size (rooms d)))
    then err = Some (reply "-ERR too many rooms") ∧ d' = d else
    woken name d err d') d.
Proof.
  intros Hok. unfold wake_room. destruct (valid_name name); cbn [negb].
  2:{ apply wp_ret. split_and!; try done. by apply in_budget_eq. }
  apply wp_bind. unfold find_room at 1. apply wp_bind, wp_gets.
  destruct (rooms d !! name) as [r|] eqn:Hr; cbn [negb]; apply wp_ret, wp_bind, wp_gets; cbn [andb negb].
  - apply wp_bind, wp_ret. rewrite bool_decide_false by done. by apply wake_known; [|rewrite Hr].
  - rewrite bool_decide_true by done. cbn [andb]. destruct (_ <=? _).
    { apply wp_ret. split_and!; try done. by apply in_budget_eq. }
    apply wp_bind. eapply wp_mono; [by apply find_room_spec|].
    intros b d1 (Hok1 & Ht1 & Hb & Hs1 & Ha1 & Hrooms & Hreg). rewrite orb_true_r in Hb.
    eapply wp_mono; [apply wake_known; auto|]. intros err d2 (Hok2 & Ht2 & Hb2 & Hw).
    split_and!; [done|by trans d1|by eapply in_budget_trans; [apply in_budget_eq|]|].
    unfold woken in *. by rewrite <- Hrooms.
Qed.

(** ** The maintenance *)

Lemma room_step_trans name c1 c2 c3 : room_step name c1 c2 → room_step name c2 c3 → room_step name c1 c3.
Proof. intros [H1 E1] [H2 E2]. split; [by trans c2|congruence]. Qed.

Definition unexpired (now : Z) (c c' : ctx) : Prop :=
  ∀ key, keys (c_room c') !! key = live now (keys (c_room c) !! key).

Lemma clean_room_spec name now c :
  wp (clean_room now) (λ _ c', room_step name (upd_c_sh (upd_sys_tick S) c) c' ∧ unexpired now c c') c.
Proof.
  unfold clean_room. wp_run. set (l := traverse _ _).
  set (I := λ (done : list (bytes * record)) (c' : ctx),
    room_step name (upd_c_sh (upd_sys_tick S) c) c' ∧
    ∀ key, keys (c_room c') !! key =
      if decide (key ∈ done.*1) then live now (keys (c_room c) !! key) else keys (c_room c) !! key).
  assert (Hin : ∀ key r, (key, r) ∈ l → keys (c_room c) !! key = Some r).
  { intros key r. apply traverse_lookup. }
  eapply wp_mono; [apply (wp_for_each l _ I)|].
  - intros done [key r] todo c' Hl [Hst Hk]. cbn [fst snd].
    assert (Hkr : keys (c_room c) !! key = Some r) by (apply Hin; rewrite Hl; set_solver).
    assert (Hsplit : ∀ k, k ∈ (done ++ [(key, r)]).*1 ↔ k ∈ done.*1 ∨ k = key)
      by (intros k; rewrite fmap_app; set_solver).
    apply wp_when; intros Hex.
    + eapply wp_mono; [apply (erase_spec name)|]. intros _ c2 (Hst2 & Hk2 & _).
      split; [by eapply room_step_trans|]. intros k. rewrite Hk2. destruct (decide (k = key)) as [->|Hne].
      * rewrite lookup_delete_eq, decide_True by (apply Hsplit; auto). by rewrite Hkr; cbn; rewrite Hex.
      * rewrite lookup_delete_ne, Hk by done. apply decide_ext. rewrite Hsplit. naive_solver.
    + split; [done|]. intros k. rewrite Hk. destruct (decide (k = key)) as [->|Hne].
      * rewrite (decide_True (P := key ∈ (done ++ _).*1)) by (apply Hsplit; auto).
        rewrite Hkr. cbn. rewrite Hex. by destruct (decide _).
      * apply decide_ext. rewrite Hsplit. naive_solver.
  - split; [by split|]. intros key. by rewrite decide_False by (cbn; set_solver).
  - intros _ c' [Hst Hk]. split; [done|]. intros key. rewrite Hk. case_decide as Hd; [done|].
    destruct (keys (c_room c) !! key) as [r|] eqn:Hkr; [|done].
    exfalso. apply Hd. apply list_elem_of_fmap. exists (key, r). split; [done|]. by apply traverse_lookup.
Qed.

Lemma room_step_tidy_sub name c c' :
  room_step name c c' → keys (c_room c') ⊆ keys (c_room c) → tidy name c → tidy name c'.
Proof.
  intros [Hf Hc] Hsub [[Hco Hwf] Hd]. split; [split; [by rewrite Hc|]|].
  { intros key r Hk. by eapply Hwf, lookup_weaken. }
  unfold disjoint_ram. rewrite Hc. by eapply map_disjoint_weaken_l.
Qed.

Lemma unexpired_sub now c c' : unexpired now c c' → keys (c_room c') ⊆ keys (c_room c).
Proof.
  intros Hu. apply map_subseteq_spec. intros key r. rewrite Hu. unfold live.
  destruct (keys (c_room c) !! key); cbn; [|done]. by destruct (expired _ _).
Qed.

Lemma live_live now o : live now (live now o) = live now o.
Proof. destruct o as [r|]; [|done]. cbn. destruct (expired r now) eqn:E; cbn; [done|by rewrite E]. Qed.

(** One room of [clean_expired_keys]. *)
Lemma clean_one name now d :
  db_ok d →
  wp (in_room name (clean_room now)) (λ _ d', db_ok d' ∧ touches name d d'
    ∧ active_rooms d' = active_rooms d ∧ state (room_of name d') = state (room_of name d)
    ∧ (∀ key, keys (room_of name d') !! key = live now (keys (room_of name d) !! key))
    ∧ cold (db_sh d') = cold (db_sh d) ∧ aof (db_sh d') = aof (db_sh d) ∧ snaps (db_sh d') = snaps (db_sh d)) d.
Proof.
  intros Hok. pose proof (room_of_ok name d Hok) as Hr.
  apply (in_room_gen name _ (λ _ c', unexpired now (Ctx_ (room_of name d) (db_sh d)) c'
    ∧ cold (c_sh c') = cold (db_sh d) ∧ aof (c_sh c') = aof (db_sh d) ∧ snaps (c_sh c') = snaps (db_sh d))); [done|].
  eapply wp_mono; [apply (clean_room_spec name)|]. cbn beta. intros _ c' [Hst Hu].
  pose proof (unexpired_sub _ _ _ Hu) as Hsub.
  assert (Hti : tidy name c').
  { eapply room_step_tidy_sub; [exact Hst|exact Hsub|]. by apply (quiet_tidy name _ (db_sh d)), room_tidy. }
  destruct (fr_rest _ _ _ (proj1 Hst)) as [Ea _ Es _ _].
  split_and!; [done| |done|by destruct Hst|done|done|].
  - trans (upd_c_sh (upd_sys_tick S) (Ctx_ (room_of name d) (db_sh d))).
    + by apply quiet_hstep.
    + by apply frame_hstep, Hst.
  - intros Hsl. destruct Hst as [_ ->]. split; [|done].
    destruct (rk_state _ Hr) as [?|[_ Hk]]; [congruence|]. cbn [c_room upd_c_sh] in *.
    apply map_empty. intros key. rewrite (Hu key). cbn [c_room]. by rewrite Hk.
Qed.

(** The whole pass keeps the invariant and removes exactly the expired keys. *)
Lemma clean_expired_keys_spec d :
  db_ok d →
  wp clean_expired_keys (λ _ d', db_ok d' ∧ active_rooms d' = active_rooms d
    ∧ client_rooms d' = client_rooms d ∧ pubsub_ d' = pubsub_ d
    ∧ ∀ name, state (room_of name d') = state (room_of name d)
        ∧ ∀ key, keys (room_of name d') !! key = live (clock_at (db_sh d)) (keys (room_of name d) !! key)) d.
Proof.
  intros Hok. unfold clean_expired_keys. apply wp_bind, wp_dsh, wp_now, wp_bind, wp_gets, wp_bind, wp_dsh, wp_interact.
  change (wall (sys_tick (db_sh d)) + cfg_clock_offset_ms cfg) with (clock_at (db_sh d)).
  set (now := clock_at (db_sh d)). cbn [rooms upd_db_sh].
  match goal with |- wp (for_each ?l _) _ ?d0 => set (d1 := d0); set (ls := l) end.
  assert (Hok1 : db_ok d1).
  { destruct Hok as [H1 H2 H3 H4 H5 H6 H7]. by split. }
  set (I := λ (done : list (bytes * room)) (d' : db), db_ok d' ∧ active_rooms d' = active_rooms d
    ∧ client_rooms d' = client_rooms d ∧ pubsub_ d' = pubsub_ d
    ∧ ∀ name, state (room_of name d') = state (room_of name d) ∧ ∀ key, keys (room_of name d') !! key =
        if decide (name ∈ done.*1) then live now (keys (room_of name d) !! key)
        else keys (room_of name d) !! key).
  eapply wp_mono; [apply (wp_for_each ls _ I)|].
  - intros done [name r] todo d' Hl (Hok' & Ha & Hc & Hp & Hk). cbn [fst].
    eapply wp_mono; [by apply clean_one|]. intros _ d2 (Hok2 & Ht & Ha2 & Hs2 & Hk2 & _).
    split_and!; [done|congruence|rewrite (tc_clients _ _ _ Ht); done|rewrite (tc_pubsub _ _ _ Ht); done|].
    intros name'. destruct (decide (name' = name)) as [->|Hne].
    + split; [rewrite Hs2; apply Hk|]. intros key.
      rewrite Hk2, (proj2 (Hk name)), (decide_True (P := name ∈ (done ++ _).*1)) by (rewrite fmap_app; set_solver).
      destruct (decide _); [|done]. by rewrite live_live.
    + rewrite (tc_rooms _ _ _ Ht name' Hne). split; [apply Hk|]. intros key. rewrite (proj2 (Hk name')).
      apply decide_ext. rewrite fmap_app. set_solver.
  - split_and!; [done..|]. intros name. split; [done|]. intros key.
    rewrite decide_False by (cbn; set_solver). done.
  - cbn beta. intros _ d' (Hok' & Ha & Hc & Hp & Hk). split_and!; try done. intros name.
    destruct (Hk name) as [Hs Hkk]. split; [done|]. intros key. rewrite Hkk. case_decide as Hd; [done|].
    assert (Hn : rooms d !! name = None).
    { destruct (rooms d !! name) as [r|] eqn:Hr; [|done]. exfalso. apply Hd, list_elem_of_fmap.
      exists (name, r). split; [done|]. by apply traverse_lookup. }
    unfold room_of. by rewrite Hn.
Qed.

(** ** Hibernation of idle rooms *)

(** The room went to sleep and its snapshot holds its records. *)
Definition slept (name : bytes) (d d' : db) : Prop :=
  state (room_of name d) = Active ∧ state (room_of name d') = Sleeping ∧
  ∃ file, snaps (db_sh d') !! name = Some file
    ∧ parse_snapshot file = Some (reload <$> keys (room_of name d)).

Definition awake (name : bytes) (d d' : db) : Prop :=
  room_of name d' = room_of name d ∧ snaps (db_sh d') !! name = snaps (db_sh d) !! name.

Lemma hibernate_if_idle_spec name d :
  db_ok d → addressable (keys (room_of name d)) →
  wp (hibernate_if_idle name) (λ _ d', db_ok d' ∧ touches name d d' ∧ active_rooms d' <= active_rooms d
    ∧ (∀ name', name' ≠ name → snaps (db_sh d') !! name' = snaps (db_sh d) !! name')
    ∧ (cold (db_sh d') = cold (db_sh d) ∧ aof (db_sh d') = aof (db_sh d))
    ∧ (awake name d d' ∨ slept name d d' ∧
         ∃ now, reading now ∧ ROOM_IDLE_MS < now - last_access (room_of name d))) d.
Proof.
  intros Hok Hadr. unfold hibernate_if_idle. apply wp_bind, wp_gets.
  destruct (decide (state (room_of name d) ≠ Active)) as [Hna|Hact].
  { apply wp_ret. split_and!; try done. by left. }
  apply dec_stable in Hact. apply wp_bind, wp_dsh, wp_now.
  match goal with |- wp _ _ ?d0 => set (d1 := d0) end.
  assert (Hok1 : db_ok d1) by (destruct Hok; by split).
  apply wp_when; intros Hidle.
  2:{ split_and!; try done; [by split; auto|by left]. }
  apply wp_bind. eapply wp_mono; [by apply (hibernate_spec name d1)|].
  intros ok d' (Hok' & Ht & Hca & Hr). apply wp_ret.
  change (room_of name d1) with (room_of name d) in Hr. change (active_rooms d1) with (active_rooms d) in Hr.
  change (snaps (db_sh d1)) with (snaps (db_sh d)) in Hr.
  split; [done|]. split; [by destruct Ht; split|].
  rewrite decide_False in Hr by congruence. destruct ok.
  - destruct Hr as (Hs & Ha & file & Hf & Hp). rewrite Hf.
    split; [lia|]. split; [intros; by rewrite lookup_insert_ne|]. split; [exact Hca|]. right.
    split; [|eexists; split; [by eexists|by apply Z.ltb_lt]].
    split; [done|]. split; [done|]. exists file. rewrite Hf. by rewrite lookup_insert_eq.
  - destruct Hr as (Hr & Ha & Hs). rewrite Hs. split; [lia|]. split; [done|]. split; [exact Hca|].
    left. split; [done|]. by rewrite Hs.
Qed.

Definition addressable_db (d : db) : Prop := ∀ name, addressable (keys (room_of name d)).

(** A database that has not run a command yet. *)
Lemma init_db_ok file sn : db_ok (init_db (init_shared file sn)).
Proof.
  destruct new_room_free as (N1 & N2 & N3).
  assert (Hcv : ∀ name, cold_view (cold (init_shared file sn)) name = ∅) by apply cold_view_init.
  split; cbn [rooms init_db active_rooms db_sh].
  - apply init_cold_ok.
  - apply map_Forall_empty.
  - by rewrite map_sum_empty.
  - by rewrite map_sum_empty.
  - by rewrite map_sum_empty.
  - intros name. unfold disjoint_ram. cbn [c_sh c_room]. rewrite Hcv. apply map_disjoint_empty_r.
  - intros name _ data m _ _. rewrite Hcv. apply map_disjoint_empty_r.
Qed.

Definition slept_idle (name : bytes) (d d' : db) : Prop :=
  slept name d d' ∧ ∃ now, reading now ∧ ROOM_IDLE_MS < now - last_access (room_of name d).

Lemma NoDup_fmap_fst_filter {A B} (P : A * B → Prop) `{∀ x, Decision (P x)} (l : list (A * B)) :
  NoDup l.*1 → NoDup (filter P l).*1.
Proof.
  intros Hnd. eapply sublist_NoDup; [exact Hnd|]. apply fmap_sublist, sublist_filter.
Qed.

(** The loop over the candidates. *)
Lemma hibernate_candidates (l : list (bytes * room)) d :
  NoDup l.*1 → db_ok d → addressable_db d →
  wp (for_each l (λ p, hibernate_if_idle p.1)) (λ _ d', db_ok d' ∧ active_rooms d' <= active_rooms d
    ∧ client_rooms d' = client_rooms d
    ∧ ∀ name, awake name d d' ∨ (name ∈ l.*1 ∧ slept_idle name d d')) d.
Proof.
  intros Hnd Hok Hadr.
  apply (wp_for_each l _ (λ done d', db_ok d' ∧ active_rooms d' <= active_rooms d
    ∧ client_rooms d' = client_rooms d
    ∧ ∀ name, awake name d d' ∨ (name ∈ done.*1 ∧ slept_idle name d d')));
    [|split_and!; try done; by left].
  intros done [name r] todo d1 -> (Hok1 & Ha1 & Hc1 & Hd1). cbn [fst].
  assert (Hnot : name ∉ done.*1) by (rewrite fmap_app in Hnd; apply NoDup_app in Hnd; set_solver).
  assert (Haw : awake name d d1) by (destruct (Hd1 name) as [|[? _]]; done).
  destruct Haw as [Hr1 Hs1].
  eapply wp_mono; [apply hibernate_if_idle_spec; [done|rewrite Hr1; apply Hadr]|].
  intros _ d2 (Hok2 & Ht & Ha2 & Hsn & _ & Hcase). rewrite fmap_app.
  split_and!; [done|lia|by rewrite (tc_clients _ _ _ Ht)|]. intros name'.
  destruct (decide (name' = name)) as [->|Hne].
  - destruct Hcase as [[Hr2 Hs2]|[(Hs & Hs' & Hf) Hi]].
    + left. split; congruence.
    + right. split; [set_solver|]. rewrite Hr1 in Hs, Hf, Hi. by split.
  - pose proof (tc_rooms _ _ _ Ht name' Hne) as Hr2. pose proof (Hsn name' Hne) as Hs2.
    destruct (Hd1 name') as [[Hr Hs]|[Hin [(Hs & Hs' & file & Hf & Hp) Hi]]].
    + left. split; congruence.
    + right. split; [set_solver|]. split; [|done]. split; [done|]. split; [congruence|].
      exists file. split; [congruence|done].
Qed.

End life.

(** ** Properties *)



(** The watchdog's pass over idle rooms: it keeps the invariant of the
    database and never raises the count of active rooms; the default room is
    never touched; a room it puts to sleep was active and, at some reading of
    the clock, idle for more than the limit, and its snapshot then holds
    every one of its records; every other room and its snapshot are exactly
    as before, also when a snapshot could not be written. *)
Theorem idle_rooms_hibernate `{World} d :
  db_ok d → addressable_db d →
  let d' := (hibernate_inactive_rooms d).2 in
  db_ok d' ∧ active_rooms d' <= active_rooms d ∧ client_rooms d' = client_rooms d
  ∧ awake (str "default") d d'
  ∧ ∀ name, awake name d d' ∨ slept name d d'
      ∧ ∃ now, reading now ∧ ROOM_IDLE_MS < now - last_access (room_of name d).
Proof.
  intros Hok Hadr. cbv zeta.
  enough (Hw : wp hibernate_inactive_rooms (λ _ d', db_ok d' ∧ active_rooms d' <= active_rooms d
    ∧ client_rooms d' = client_rooms d ∧ awake (str "default") d d'
    ∧ ∀ name, awake name d d' ∨ slept name d d'
        ∧ ∃ now, reading now ∧ ROOM_IDLE_MS < now - last_access (room_of name d)) d) by exact Hw.
  unfold hibernate_inactive_rooms.
  apply wp_bind, wp_dsh, wp_now, wp_bind, wp_gets, wp_bind, wp_dsh, wp_interact.
  match goal with |- wp (for_each (filter _ ?l) _) _ ?d0 => set (d1 := d0); set (ls := l) end.
  assert (Hok1 : db_ok d1) by (destruct Hok; by split).
  eapply wp_mono; [apply hibernate_candidates; [|exact Hok1|exact Hadr]|].
  - apply NoDup_fmap_fst_filter, traverse_NoDup.
  - intros _ d' (Hok' & Ha & Hc & Hd). split_and!; try done.
    + destruct (Hd (str "default")) as [|[Hin _]]; [done|]. exfalso.
      apply list_elem_of_fmap in Hin as (p & Heq & [[_ Hne] _]%list_elem_of_filter). by rewrite <- Heq in Hne.
    + intros name. destruct (Hd name) as [|[_ [Hs Hi]]]; [by left|by right].
Qed.

Lemma idle_rooms_hibernate_witness :
  let W := calm default_config 20000 in
  let d := put (str "r") (Room ∅ 0 Active 0) (init_shared None ∅) 1 (init_db (init_shared None ∅)) in
  awake (str "default") d (hibernate_inactive_rooms d).2.
Proof.
  intros W d.
  assert (Hok : db_ok d).
  { pose proof (init_db_ok None ∅) as H0. apply put_ok; try done.
    split; [by left|done|apply map_Forall_empty]. }
  assert (Hadr : addressable_db d).
  { intros name. destruct (decide (name = str "r")) as [->|Hne].
    - unfold d. rewrite room_of_put. split; [apply map_Forall_empty|done].
    - unfold d. rewrite room_of_put_ne by done. split; [apply map_Forall_empty|done]. }
  exact (proj1 (proj2 (proj2 (proj2 (idle_rooms_hibernate d Hok Hadr))))).
Defined.

(** A database with one key in one active room, for concrete instances. *)
Definition one_key : gmap bytes record := {[str "k" := Record_ (str "v") 0 (2 ^ 50) 7]}.

Definition one_key_db `{World} : db :=
  let s := init_shared None ∅ in
  let s := upd_met (upd_keys_in_ram (λ _, 1)) s in
  let s := upd_met (upd_resident_bytes (λ _, keys_cost one_key)) s in
  put (str "r") (Room one_key 0 Active (keys_cost one_key)) s 1 (init_db (init_shared None ∅)).

Lemma one_key_db_ok `{World} : db_ok one_key_db.
Proof.
  pose proof (init_db_ok None ∅) as H0. apply put_ok; try done.
  - split; [by left|done|]. apply map_Forall_singleton. split_and!; by vm_compute.
  - unfold cost_of. cbn [keys met resident_bytes upd_met upd_resident_bytes upd_keys_in_ram].
    change (keys (room_of (str "r") _)) with (∅ : gmap bytes record). rewrite keys_cost_empty.
    cbn. by rewrite Z.sub_diag.
  - unfold disjoint_ram. cbn [c_room keys c_sh cold upd_met]. rewrite no_cold by done.
    apply map_disjoint_empty_r.
Qed.
