(* ===== verification/Persistence.v ===== *)
(** * Persistence (src/core/persistence.cpp, Database::Database)

    Replay of the AOF at start, and its rewriting as the current state: in the
    constructor (migration of old formats) or in the background. The child of
    a background rewrite works on the memory as it was at the fork: it is run
    at the fork, its file effects included; when the parent learns of its end
    is up to the system. *)

From stdpp Require Import gmap.
From S2P Require Import Prelude FsUtil Resp Hlc Config World Types State Cold Snapshot Aof Keyspace Crdt Commands PubSub Rooms.

Section persistence.
  Context `{World}.

(** [discard_active_snapshots]. *)
Definition discard_if_active (p : bytes * room) : M shared unit :=
  when (bool_decide (state p.2 ≠ Sleeping)) (discard p.1).

Definition discard_active_snapshots : M db unit :=
  let* m := gets rooms in
  let* l := dsh (interact (λ k, traverse k m)) in
  for_each l (λ p, dsh (discard_if_active p)).

(** *** [dump_state]: [W] is what the writer captures *)

Section dump.
  Context {W : Type} (write : AofRecord → W → M shared (bool * W)).

Definition set_record (room_name key : bytes) (r : record) : AofRecord :=
  AofRecord_ room_name [str "SET"; key; r_value r] (r_expire r) (r_ts r) (r_node r).

Definition emit (now : Z) (room_name key : bytes) (r : record) (acc : bool * W) : M shared (bool * W) :=
  if acc.1 && negb (expired r now) then write (set_record room_name key r) acc.2 else ret acc.

(** The snapshot of a sleeping room, read in a temporary room. *)
Definition read_snapshot (name : bytes) : M shared (bool * gmap bytes record) :=
  let* there := has_snapshot name in
  if negb there then ret (true, ∅) else
  zoom (λ s, Ctx_ new_room s) (λ c _, c_sh c)
    (let* woke := wakeup_room name in let* m := get_room keys in ret (woke, m)).

Definition dump_room (now : Z) (name : bytes) (r : room) (w : W) : M shared (bool * W) :=
  let* '(ok, m) := (if decide (state r = Sleeping) then read_snapshot name else ret (true, keys r)) in
  let* l := interact (λ k, traverse k m) in
  fold_m l (ok, w) (λ acc p, emit now name p.1 p.2 acc).

Fixpoint dump_rooms (now : Z) (l : list (bytes * room)) (w : W) : M shared (bool * W) :=
  match l with
  | [] => ret (true, w)
  | (name, r) :: l =>
      let* '(ok, w) := dump_room now name r w in
      if negb ok then ret (false, w) else dump_rooms now l w
  end.

Definition del_record (room_name key : bytes) (v : version) : AofRecord :=
  AofRecord_ room_name [str "DEL"; key] 0 (v_ts v) (v_node v).

Definition dump_tombs (acc : bool * W) : M shared (bool * W) :=
  let* t := gets (λ s, tombs (crdt s)) in
  let* outer := interact (λ k, traverse k t) in
  fold_m outer acc (λ acc p,
    let* inner := interact (λ k, traverse k p.2) in
    fold_m inner acc (λ acc q,
      if acc.1 : bool then write (del_record p.1 q.1 q.2) acc.2 else ret acc)).

Definition dump_state (m : gmap bytes room) (w : W) : M shared (bool * W) :=
  let* now := get_current_time_ms in
  let* l := interact (λ k, traverse k m) in
  let* '(ok, w) := dump_rooms now l w in
  if negb ok then ret (false, w) else
  let* '(read, acc) := for_each_cold (emit now) (true, w) in
  dump_tombs (acc.1 && read, acc.2).

End dump.

(** [rewrite_aof]: synchronously, through [append_rewrite]. *)
Definition rewrite_writer (rec : AofRecord) (w : unit) : M shared (bool * unit) :=
  let* ok := append_rewrite rec in ret (ok, tt).

Definition rewrite_aof : M db bool :=
  let* started := dsh start_rewrite in
  if negb started then ret false else
  discard_active_snapshots ;;
  let* m := gets rooms in
  let* '(ok, _) := dsh (dump_state rewrite_writer m tt) in
  if negb ok then dsh abort_rewrite ;; ret false else dsh commit_rewrite.

(** The child: a buffer in front of the temporary file. *)
Definition child_writer (rec : AofRecord) (buf : bytes) : M shared (bool * bytes) :=
  let buf := buf ++ encode_record rec in
  if 65536 <=? len buf then
    let* ok := write_rewrite buf in ret (ok, [])
  else ret (true, buf).

Definition run_child (m : gmap bytes room) : M shared bool :=
  let* '(ok, buf) := dump_state child_writer m [] in
  if negb ok then ret false else
  let* written := write_rewrite buf in
  if negb written then ret false else syscall.

Definition start_background_rewrite : M db bytes :=
  let* child := gets rewrite_child in
  if bool_decide (is_Some child) then ret (reply "-ERR AOF rewrite already in progress") else
  let* started := dsh start_rewrite in
  if negb started then ret (reply "-ERR AOF rewrite failed, previous AOF kept") else
  discard_active_snapshots ;;
  let* from := gets (λ d, size_ (aof (db_sh d))) in
  let* forked := dsh syscall in
  if negb forked then
    dsh abort_rewrite ;;
    modify (λ d, upd_rewrite (rewrite_child d) from d) ;;
    ret (reply "-ERR AOF rewrite failed (fork), previous AOF kept")
  else
    let* m := gets rooms in
    let* ok := dsh (run_child m) in
    modify (upd_rewrite (Some ok) from) ;;
    ret (reply "+Background AOF rewrite started").

(** [waitpid] with [WNOHANG]: not ended yet, or reaped, or an error. *)
Definition finish_background_rewrite : M db unit :=
  let* child := gets rewrite_child in
  match child with
  | None => ret tt
  | Some exit_ok =>
      let* ended := dsh syscall in
      if negb ended then ret tt else
      modify (λ d, upd_rewrite None (rewrite_from d) d) ;;
      let* reaped := dsh syscall in
      let* from := gets rewrite_from in
      let* tail := (if reaped && exit_ok then dsh (append_tail from) else ret false) in
      let* done := (if tail : bool then dsh commit_rewrite else ret false) in
      when (negb done) (dsh abort_rewrite)
  end.

(** *** Replay *)

Definition replay_put (rec : AofRecord) (key value : bytes) (ts node : Z) : M ctx unit :=
  let* m := get_room keys in
  (match m !! key with Some _ => ret tt | None => insert_key key end) ;;
  set_value key value ;;
  set_fields key (λ r, with_version (Version (normalize ts) (wrap32 node)) (with_expire (a_expire rec) r)) ;;
  sh (clock_observe (normalize ts)).

(** The version of a replayed write: of a merge, from its arguments. *)
Definition replay_version (is_merge : bool) (rec : AofRecord) : option (Z * Z) :=
  if is_merge then
    match parse_u64 (arg (a_args rec) 3), parse_u64 (arg (a_args rec) 4) with
    | Some ts, Some node => if UINT32_MAX <? node then None else Some (ts, node)
    | _, _ => None
    end
  else Some (a_ts rec, a_node rec).

Definition replay_in_room (rec : AofRecord) : M ctx unit :=
  let args := a_args rec in
  let command := upper (arg args 0) in
  let is_merge := eqs "CRDTMERGE" command && (5 <=? length args)%nat in
  if is_merge || (eqs "SET" command && (3 <=? length args)%nat) then
    match replay_version is_merge rec with
    | None => ret tt
    | Some (ts, node) => replay_put rec (arg args 1) (arg args 2) ts node
    end
  else if eqs "MSET" command then
    for_each (pairs_of (drop 1 args)) (λ kv, replay_put rec kv.1 kv.2 (a_ts rec) (a_node rec))
  else if (eqs "EXPIRE" command || eqs "PEXPIRE" command || eqs "PERSIST" command)
          && (2 <=? length args)%nat then
    set_fields (arg args 1) (with_expire (a_expire rec))
  else if (eqs "DEL" command && (2 <=? length args)%nat)
          || (eqs "CRDTDEL" command && (4 <=? length args)%nat) then
    erase (arg args 1) ;;
    let v := Version (normalize (a_ts rec)) (a_node rec) in
    sh (set_tomb (a_room rec) (arg args 1) v) ;;
    sh (clock_observe (v_ts v))
  else ret tt.

Definition replay_record (rec : AofRecord) : M db unit :=
  match a_args rec with
  | [] => ret tt
  | _ =>
      find_room (a_room rec) true ;;
      activate (a_room rec) true ;;
      in_room (a_room rec) (replay_in_room rec)
  end.

(** The constructor's body: replay, migration, opening, the first frontier. *)
Definition start_database : M db bool :=
  let* recs := dsh recover in
  for_each recs replay_record ;;
  let* migrate := gets (λ d, needs_rewrite (aof (db_sh d))) in
  (if migrate : bool then rewrite_aof ;; ret tt else ret tt) ;;
  let* opened := dsh open_file in
  let* now := dsh get_current_time_ms in
  let* v := dsh (clock_next now 0) in
  dsh (mod_crdt (upd_frontier (λ _, v))) ;;
  ret opened.

End persistence.
