(* ===== verification/PersistSpecs.v ===== *)
(** * Replay

    What a record of the AOF does to the table of its room, as a function on
    maps; [replay_record] implements it, and the record a command appends does
    to the table what the command did. *)

From stdpp Require Import gmap.
From S2P Require Import Prelude FsUtil Resp Hlc Config World Types State Cold Snapshot Aof Keyspace Crdt Effects Commands CommandSpecs PubSub Rooms RoomSpecs RoomLife Persistence.

(** The change a record stands for. *)
Inductive change :=
  | Puts (kvs : list (bytes * bytes)) (expire_at : Z) (v : version)
  | Expires (key : bytes) (expire_at : Z)
  | Removes (key : bytes) (v : version)
  | Skips.

Definition change_of (rec : AofRecord) : change :=
  let args := a_args rec in
  let command := upper (arg args 0) in
  let is_merge := eqs "CRDTMERGE" command && (5 <=? length args)%nat in
  if is_merge || (eqs "SET" command && (3 <=? length args)%nat) then
    match replay_version is_merge rec with
    | None => Skips
    | Some (ts, node) =>
        Puts [(arg args 1, arg args 2)] (a_expire rec) (Version (normalize ts) (wrap32 node))
    end
  else if eqs "MSET" command then
    Puts (pairs_of (drop 1 args)) (a_expire rec) (Version (normalize (a_ts rec)) (wrap32 (a_node rec)))
  else if (eqs "EXPIRE" command || eqs "PEXPIRE" command || eqs "PERSIST" command)
          && (2 <=? length args)%nat then Expires (arg args 1) (a_expire rec)
  else if (eqs "DEL" command && (2 <=? length args)%nat)
          || (eqs "CRDTDEL" command && (4 <=? length args)%nat) then
    Removes (arg args 1) (Version (normalize (a_ts rec)) (a_node rec))
  else Skips.

Definition put_kv (e : Z) (v : version) (m : gmap bytes record) (kv : bytes * bytes) : gmap bytes record :=
  <[kv.1 := Record_ kv.2 e (v_ts v) (v_node v)]> m.

Definition apply_change (ch : change) (m : gmap bytes record) : gmap bytes record :=
  match ch with
  | Puts kvs e v => foldl (put_kv e v) m kvs
  | Expires key e => alter (with_expire e) key m
  | Removes key _ => delete key m
  | Skips => m
  end.

(** The versions a replay shows to the clock. *)
Definition change_ts (ch : change) : Z :=
  match ch with
  | Puts (_ :: _) _ v | Removes _ v => v_ts v
  | _ => 0
  end.

(** The fields of a record are in the range of their types. *)
Definition typed (rec : AofRecord) : Prop :=
  is_i64 (a_expire rec) ∧ is_u64 (a_ts rec) ∧ is_u32 (a_node rec).

Section replay.
  Context `{World}.

(** The table [m], the tombstones [T] and the clock [t] of a room before, and
    after a step of the replay. *)
Definition replayed_by (ch : change) (wm : Z) (st : gmap bytes record * gmap bytes version * Z) :
    gmap bytes record * gmap bytes version * Z :=
  let '(m, T, t) := st in
  (apply_change ch m,
   match ch with Removes key v => tombed key v wm T | _ => T end,
   Z.max t (change_ts ch)).

Definition room_data (name : bytes) (c : ctx) : gmap bytes record * gmap bytes version * Z :=
  (keys (c_room c), tombs_of (crdt (c_sh c)) name, clock (crdt (c_sh c))).

(** What a replay leaves alone. *)
Record replays (name : bytes) (c c' : ctx) : Prop := {
  rp_step : hstep name c c';
  rp_cold : index (cold (c_sh c')) = index (cold (c_sh c));
  rp_cold_ok : cold_ok (cold (c_sh c)) → cold_ok (cold (c_sh c'));
  rp_wf : map_Forall (λ _ r, wf_record r) (keys (c_room c'));
  rp_aof : aof (c_sh c') = aof (c_sh c);
  rp_wm : watermark (crdt (c_sh c')) = watermark (crdt (c_sh c));
  rp_tombs : ∀ room', room' ≠ name → tombs_of (crdt (c_sh c')) room' = tombs_of (crdt (c_sh c)) room';
  rp_clock : 0 <= clock (crdt (c_sh c'))
}.

Lemma replays_trans name c1 c2 c3 : replays name c1 c2 → replays name c2 c3 → replays name c1 c3.
Proof.
  intros [] []. split; try congruence; auto; [by trans c2|]. intros room' Hne. by rewrite rp_tombs1, rp_tombs0.
Qed.

(** A room ready for a replay. *)
Definition replay_ready (c : ctx) : Prop :=
  0 <= clock (crdt (c_sh c)) ∧ map_Forall (λ _ r, wf_record r) (keys (c_room c)).

Lemma replays_ready name c c' : replays name c c' → replay_ready c'.
Proof. by intros []. Qed.

Lemma wrap32_range z : is_u32 (wrap32 z).
Proof. unfold wrap32. pose proof (Z.mod_pos_bound z (2 ^ 32)). ulia. Qed.

Lemma replay_put_spec name rec key value ts node c :
  typed rec → is_u64 ts → replay_ready c →
  let ch := Puts [(key, value)] (a_expire rec) (Version (normalize ts) (wrap32 node)) in
  wp (replay_put rec key value ts node) (λ _ c', replays name c c'
    ∧ room_data name c' = replayed_by ch (watermark (crdt (c_sh c))) (room_data name c)) c.
Proof.
  intros (He & _ & _) Hts [Hcl Hwf] ch. unfold replay_put. apply wp_bind, wp_get_room.
  set (r0 := default new_record (keys (c_room c) !! key)).
  apply wp_bind.
  eapply (wp_mono _ (λ _ c1, room_step name c c1 ∧ keys (c_room c1) = <[key := r0]> (keys (c_room c)))).
  { unfold r0. destruct (keys (c_room c) !! key) as [r|] eqn:Hk; cbn [default].
    - apply wp_ret. split; [by split|]. by rewrite insert_id.
    - eapply wp_mono; [by apply insert_key_spec|]. intros _ c1 (? & ? & _). done. }
  intros _ c1 [Hs1 Hk1]. apply wp_bind. eapply wp_mono.
  { apply (set_value_spec name key value r0). by rewrite Hk1, lookup_insert_eq. }
  intros _ c2 (Hs2 & Hk2 & _). rewrite Hk1, insert_insert_eq in Hk2. apply wp_bind. eapply wp_mono.
  { apply (set_fields_spec name key _ (with_value value r0)); [by rewrite Hk2, lookup_insert_eq|done]. }
  cbn beta. intros _ c3 (Hs3 & Hk3 & _). rewrite Hk2, insert_insert_eq in Hk3.
  destruct Hs1 as [Hf1 Hc1], Hs2 as [Hf2 Hc2], Hs3 as [Hf3 Hc3].
  assert (Hf : frame name c c3) by (trans c1; [done|by trans c2]).
  destruct (fr_rest _ _ _ Hf) as [Ha Hcr Hsn Has _].
  unfold clock_observe, mod_crdt. wp_run. destruct c3 as [r3 s3]. cbn [c_room c_sh] in *.
  pose proof (normalize_u64 ts Hts) as Hnts.
  split; [split|]; cbn [c_room c_sh cold aof upd_crdt crdt watermark upd_clock].
  - trans (Ctx_ r3 s3); [by apply frame_hstep|by apply quiet_hstep].
  - congruence.
  - by rewrite Hc3, Hc2, Hc1.
  - rewrite Hk3. apply map_Forall_insert_2; [|done]. split; [done|]. split; [done|apply wrap32_range].
  - done.
  - by rewrite Hcr.
  - intros room' _. cbn. by rewrite Hcr.
  - unfold observe. cbn. rewrite Hcr. ulia.
  - unfold room_data, replayed_by. cbn [c_room c_sh crdt upd_crdt upd_clock clock]. rewrite Hk3, Hcr.
    by unfold apply_change, ch, observe; cbn.
Qed.

Lemma alter_insert_id {A} (f : A → A) (m : gmap bytes A) key x :
  m !! key = Some x → alter f key m = <[key := f x]> m.
Proof.
  intros Hk. apply map_eq. intros k. destruct (decide (k = key)) as [->|Hne].
  - by rewrite lookup_alter_eq, lookup_insert_eq, Hk.
  - by rewrite lookup_alter_ne, lookup_insert_ne.
Qed.

Lemma alter_none_id {A} (f : A → A) (m : gmap bytes A) key : m !! key = None → alter f key m = m.
Proof.
  intros Hk. apply map_eq. intros k. destruct (decide (k = key)) as [->|Hne].
  - by rewrite lookup_alter_eq, Hk.
  - by rewrite lookup_alter_ne.
Qed.

Lemma set_fields_none key f c :
  keys (c_room c) !! key = None → wp (set_fields key f) (λ _ c', c' = c) c.
Proof.
  intros Hk. unfold set_fields. wp_run. destruct c as [[m la st b] s]. unfold upd_c_room, upd_keys. cbn in *.
  by rewrite alter_none_id.
Qed.

Lemma replayed_puts kv kvs e v wm st :
  0 <= v_ts v →
  replayed_by (Puts kvs e v) wm (replayed_by (Puts [kv] e v) wm st) = replayed_by (Puts (kv :: kvs) e v) wm st.
Proof. intros Hv. destruct st as [[m T] t], kvs as [|kv' kvs]; cbn; f_equal; lia. Qed.

Lemma replay_puts_spec name rec kvs c :
  typed rec → replay_ready c →
  let ch := Puts kvs (a_expire rec) (Version (normalize (a_ts rec)) (wrap32 (a_node rec))) in
  wp (for_each kvs (λ kv, replay_put rec kv.1 kv.2 (a_ts rec) (a_node rec))) (λ _ c', replays name c c'
    ∧ room_data name c' = replayed_by ch (watermark (crdt (c_sh c))) (room_data name c)) c.
Proof.
  intros Hty Hr ch. unfold ch. clear ch. revert c Hr. induction kvs as [|kv kvs IH]; intros c Hr; cbn [for_each].
  { apply wp_ret. split; [destruct Hr; by split|]. unfold replayed_by, room_data. cbn. f_equal.
    destruct Hr. lia. }
  apply wp_bind. destruct Hty as (He & Hts & Hn). pose proof (normalize_u64 _ Hts) as Hnts.
  eapply wp_mono; [by apply (replay_put_spec name)|]. intros _ c1 [Hs1 Hd1].
  eapply wp_mono; [apply IH; by eapply replays_ready|]. intros _ c2 [Hs2 Hd2].
  split; [by eapply replays_trans|]. rewrite Hd2, Hd1, (rp_wm _ _ _ Hs1).
  destruct kv. apply replayed_puts. cbn. ulia.
Qed.

(** [replay_in_room] implements the record's change. *)
Lemma replay_in_room_spec rec c :
  typed rec → replay_ready c →
  wp (replay_in_room rec) (λ _ c', replays (a_room rec) c c'
    ∧ room_data (a_room rec) c' = replayed_by (change_of rec) (watermark (crdt (c_sh c))) (room_data (a_room rec) c)) c.
Proof.
  intros Hty Hr. assert (Hskip : replays (a_room rec) c c ∧ room_data (a_room rec) c
    = replayed_by Skips (watermark (crdt (c_sh c))) (room_data (a_room rec) c)).
  { split; [destruct Hr; by split|]. unfold replayed_by, room_data. cbn. f_equal. destruct Hr. lia. }
  pose proof Hty as (He & Hts & Hn). pose proof (normalize_u64 _ Hts) as Hnts.
  unfold replay_in_room, change_of. set (args := a_args rec). set (command := upper (arg args 0)).
  set (is_merge := _ && (5 <=? length args)%nat).
  destruct (is_merge || _).
  { destruct (replay_version is_merge rec) as [[ts node]|] eqn:Hv; [|by apply wp_ret].
    apply replay_put_spec; [done| |done].
    unfold replay_version in Hv. destruct is_merge; [|by injection Hv as <- <-].
    destruct (parse_u64 (arg (a_args rec) 3)) eqn:E1; [|done].
    destruct (parse_u64 (arg (a_args rec) 4)) eqn:E2; [|done].
    destruct (_ <? _); [done|]. injection Hv as <- <-. by eapply parse_u64_range. }
  destruct (eqs "MSET" command); [by apply replay_puts_spec|].
  destruct ((eqs "EXPIRE" command || _ || _) && _).
  { destruct (keys (c_room c) !! arg args 1) as [r|] eqn:Hk.
    - eapply wp_mono; [by apply (set_fields_spec (a_room rec) _ _ r)|]. cbn beta. intros _ c' ([Hf Hc] & Hk' & _).
      destruct (fr_rest _ _ _ Hf) as [Ha Hcr _ _ _]. destruct Hr as [Hcl Hwf].
      split; [split; rewrite ?Hcr, ?Hc; try done; [by apply frame_hstep|]|].
      + rewrite Hk'. apply map_Forall_insert_2; [|done]. destruct (Hwf _ _ Hk) as (_ & ? & ?). by split.
      + unfold room_data, replayed_by. rewrite Hk', Hcr. cbn. f_equal; [|lia]. f_equal.
        f_equal. symmetry. by apply alter_insert_id.
    - eapply wp_mono; [by apply (set_fields_none (arg args 1))|]. intros _ c' ->.
      destruct Hskip as [? Hd]. split; [done|]. unfold replayed_by, room_data. cbn.
      rewrite alter_none_id by done. f_equal. destruct Hr. lia. }
  destruct (_ || _); [|by apply wp_ret].
  apply wp_bind. eapply wp_mono; [apply (erase_spec (a_room rec))|]. intros _ c1 (Hs1 & Hk1 & _).
  apply wp_bind, wp_sh. eapply wp_mono; [apply set_tomb_spec|].
  intros _ s2 (Hq2 & Ha2 & Hcl2 & Hwm2 & Hfr2 & Ht2). unfold clock_observe, mod_crdt. wp_run.
  destruct Hs1 as [Hf1 Hc1], (fr_rest _ _ _ Hf1) as [Ha1 Hcr1 _ _ _].
  destruct c1 as [r1 s1]. cbn [c_room c_sh] in *. destruct Hr as [Hcl Hwf].
  rewrite Hcr1 in *. split; [split|]; cbn [c_room c_sh cold aof upd_crdt crdt watermark upd_clock].
  - trans (Ctx_ r1 s1); [by apply frame_hstep|]. apply quiet_hstep. by trans s2.
  - rewrite (qu_index _ _ Hq2). by rewrite Hc1.
  - intros Hco. eapply quiet_cold_ok; [exact Hq2|]. by rewrite Hc1.
  - rewrite Hk1. by apply map_Forall_delete.
  - congruence.
  - done.
  - intros room' Hne. trans (tombs_of (crdt s2) room'); [done|].
    by rewrite Ht2, decide_False by (by intros [? _]).
  - unfold observe. cbn. rewrite Hcl2. lia.
  - unfold room_data, replayed_by. cbn [c_room c_sh crdt upd_crdt clock upd_clock].
    rewrite Hk1, Hcl2. change (tombs_of (upd_clock _ (crdt s2)) (a_room rec)) with (tombs_of (crdt s2) (a_room rec)).
    rewrite Ht2. unfold tombed. cbn [apply_change change_ts v_ts]. f_equal. f_equal.
    apply decide_ext. naive_solver.
Qed.

(** A database in which nothing was evicted yet. *)
Record replay_db (d : db) : Prop := {
  rd_ok : db_ok d;
  rd_cold : index (cold (db_sh d)) = ∅;
  rd_clock : 0 <= clock (crdt (db_sh d))
}.

(** The table a replay starts from: the resident one, or what the room loads. *)
Definition start_table (name : bytes) (d : db) (m : gmap bytes record) : Prop :=
  if decide (state (room_of name d) = Active) then m = keys (room_of name d) else loaded name (db_sh d) m.

Definition tombs_at (name : bytes) (d : db) : gmap bytes version := tombs_of (crdt (db_sh d)) name.

Lemma replay_record_spec rec d :
  replay_db d → typed rec → a_args rec ≠ [] →
  let name := a_room rec in
  wp (replay_record rec) (λ _ d', replay_db d' ∧ touches name d d' ∧ state (room_of name d') = Active
    ∧ aof (db_sh d') = aof (db_sh d) ∧ watermark (crdt (db_sh d')) = watermark (crdt (db_sh d))
    ∧ (∀ name', name' ≠ name → tombs_at name' d' = tombs_at name' d) ∧ snaps_shrink (db_sh d) (db_sh d')
    ∧ ∃ m0, start_table name d m0 ∧
        (keys (room_of name d'), tombs_at name d', clock (crdt (db_sh d')))
        = replayed_by (change_of rec) (watermark (crdt (db_sh d)))
            (m0, tombs_at name d, clock (crdt (db_sh d)))) d.
Proof.
  intros [Hok Hcold Hcl] Hty Hargs name. unfold replay_record.
  destruct (a_args rec) as [|a args] eqn:Ea; [done|]. clear Ea Hargs a args. fold name.
  apply wp_bind. eapply wp_mono; [by apply find_room_spec|].
  intros b d1 (Hok1 & Ht1 & _ & Hs1 & Ha1 & Hr1 & _).
  apply wp_bind. eapply wp_mono; [by apply activate_spec|].
  intros ok d2 (Hok2 & Ht2 & _ & Hres & Hc2 & Haof2 & Hcr2 & Hsn2).
  destruct ok; [|by destruct Hres as [? _]]. destruct Hres as [Hact Hres]. rewrite Hr1, Hs1 in *.
  assert (Hcold2 : index (cold (db_sh d2)) = ∅) by (by rewrite Hc2).
  pose proof (room_of_ok name d2 Hok2) as Hrok2.
  eapply wp_mono.
  { apply (in_room_gen name _ (λ _ c', replays name (Ctx_ (room_of name d2) (db_sh d2)) c'
      ∧ room_data name c' = replayed_by (change_of rec) (watermark (crdt (db_sh d2)))
          (room_data name (Ctx_ (room_of name d2) (db_sh d2))))); [done|].
    eapply wp_mono.
    { apply replay_in_room_spec; [done|]. split; [cbn; by rewrite Hcr2|apply Hrok2]. }
    intros u c' [Hs Hd]. cbn [c_room c_sh] in *. split_and!; try done; [|by apply Hs|congruence].
    split; [split; [|by apply Hs]|].
    - apply (rp_cold_ok _ _ _ Hs), Hok2.
    - unfold disjoint_ram. rewrite no_cold; [apply map_disjoint_empty_r|]. by rewrite (rp_cold _ _ _ Hs). }
  cbn beta. intros _ d3 (Hok3 & Ht3 & _ & Hst3 & Hs3 & Hd3).
  pose proof (hs_snaps _ _ _ (rp_step _ _ _ Hs3)) as Hsn3. unfold room_data in Hd3. cbn [c_room c_sh] in Hd3.
  destruct Hs3 as [_ Hco3 _ _ Haof3 Hwm3 Htb3 Hcl3]. cbn [c_room c_sh] in *.
  split_and!; try congruence.
  - split; [done|congruence|done].
  - trans d1; [done|]. by trans d2.
  - intros name' Hne. unfold tombs_at. rewrite Htb3 by done. by rewrite Hcr2.
  - trans (db_sh d2); [done|by apply shrink_same].
  - exists (keys (room_of name d2)). split; [|unfold tombs_at; rewrite <- Hcr2; exact Hd3].
    unfold start_table. destruct (decide (state (room_of name d) = Active)); apply Hres.
Qed.

(** One record, seen from the room [name]. *)
Definition replay_step (name : bytes) (wm : Z) (st : gmap bytes record * gmap bytes version)
    (rec : AofRecord) : gmap bytes record * gmap bytes version :=
  if decide (a_room rec = name) then (replayed_by (change_of rec) wm (st, 0)).1 else st.

Definition mentions (name : bytes) (rec : AofRecord) : Prop := a_room rec = name ∧ a_args rec ≠ [].

Definition data_at (name : bytes) (d : db) : gmap bytes record * gmap bytes version :=
  (keys (room_of name d), tombs_at name d).

Lemma no_args_skip rec : a_args rec = [] → change_of rec = Skips.
Proof. intros Ha. unfold change_of. by rewrite Ha. Qed.

Lemma replay_step_skip name wm st rec : a_args rec = [] → replay_step name wm st rec = st.
Proof.
  intros Ha. unfold replay_step. rewrite no_args_skip by done. destruct st. by destruct (decide _).
Qed.

Lemma replay_step_other name wm st rec : a_room rec ≠ name → replay_step name wm st rec = st.
Proof. intros Hne. unfold replay_step. by rewrite decide_False. Qed.

Global Instance mentions_dec name rec : Decision (mentions name rec).
Proof. unfold mentions. apply _. Defined.

Lemma skip_all name wm recs st : ¬ Exists (mentions name) recs → foldl (replay_step name wm) st recs = st.
Proof.
  revert st. induction recs as [|rec recs IH]; intros st Hn; [done|]. cbn [foldl].
  rewrite Exists_cons in Hn. rewrite IH by tauto.
  destruct (decide (a_room rec = name)) as [He|He]; [|by apply replay_step_other].
  destruct (decide (a_args rec = [])); [by apply replay_step_skip|]. exfalso. apply Hn. left. by split.
Qed.

Lemma start_table_same name d d' m :
  room_of name d' = room_of name d → snaps (db_sh d') !! name = snaps (db_sh d) !! name →
  start_table name d' m → start_table name d m.
Proof. unfold start_table, loaded. by intros -> ->. Qed.

Record replayed_log (recs : list AofRecord) (name : bytes) (d d' : db) : Prop := {
  rl_in : Exists (mentions name) recs → state (room_of name d') = Active ∧ ∃ m0, start_table name d m0
    ∧ data_at name d' = foldl (replay_step name (watermark (crdt (db_sh d)))) (m0, tombs_at name d) recs;
  rl_out : ¬ Exists (mentions name) recs → room_of name d' = room_of name d
    ∧ tombs_at name d' = tombs_at name d ∧ snaps (db_sh d') !! name = snaps (db_sh d) !! name
}.

Lemma replay_all recs d :
  replay_db d → Forall typed recs →
  wp (for_each recs replay_record) (λ _ d', replay_db d' ∧ aof (db_sh d') = aof (db_sh d)
    ∧ watermark (crdt (db_sh d')) = watermark (crdt (db_sh d))
    ∧ clock (crdt (db_sh d)) <= clock (crdt (db_sh d'))
    ∧ (∀ rec, rec ∈ recs → change_ts (change_of rec) <= clock (crdt (db_sh d')))
    ∧ (∀ B, clock (crdt (db_sh d)) <= B → (∀ rec, rec ∈ recs → change_ts (change_of rec) <= B) →
         clock (crdt (db_sh d')) <= B)
    ∧ client_rooms d' = client_rooms d ∧ pubsub_ d' = pubsub_ d ∧ rewrite_child d' = rewrite_child d
    ∧ snaps_shrink (db_sh d) (db_sh d')
    ∧ ∀ name, replayed_log recs name d d') d.
Proof.
  revert d. induction recs as [|rec recs IH]; intros d Hd Hty; cbn [for_each].
  { apply wp_ret. split_and!; try done; [set_solver|]. intros name. split; [by intros ?%Exists_nil|done]. }
  apply Forall_cons in Hty as [Hrec Hty]. apply wp_bind.
  destruct (decide (a_args rec = [])) as [Ha|Ha].
  - unfold replay_record. rewrite Ha. apply wp_ret. eapply wp_mono; [by apply IH|].
    intros _ d' (Hd' & Haof & Hwm & Hcl & Hts & HB & Hc & Hp & Hrw & Hsn & Hl). split_and!; try done.
    + intros rec' [->|Hin]%elem_of_cons; [|by apply Hts]. rewrite no_args_skip by done. cbn.
      apply Hd'.
    + intros B HB0 Hall. apply HB; [done|]. intros rec' Hin. apply Hall. by apply elem_of_cons; right.
    + intros name. destruct (Hl name) as [Hin Hout]. split; rewrite Exists_cons.
      * intros [[_ ?]|He]; [done|]. destruct (Hin He) as (? & m0 & ? & Hf). split; [done|]. exists m0.
        split; [done|]. cbn [foldl]. by rewrite replay_step_skip.
      * intros Hn. apply Hout. tauto.
  - eapply wp_mono; [by apply replay_record_spec|].
    intros _ d1 (Hd1 & Ht1 & Hst1 & Haof1 & Hwm1 & Htb1 & Hsn1 & m0 & Hm0 & Heff).
    eapply wp_mono; [by apply IH|].
    intros _ d2 (Hd2 & Haof2 & Hwm2 & Hcl2 & Hts2 & HB2 & Hc2 & Hp2 & Hrw2 & Hsn2 & Hl2).
    assert (Hcl1 : Z.max (clock (crdt (db_sh d))) (change_ts (change_of rec)) = clock (crdt (db_sh d1))).
    { unfold replayed_by in Heff. by injection Heff. }
    split_and!; try done; try congruence; try lia.
    + intros rec' [->|Hin]%elem_of_cons; [lia|by apply Hts2].
    + intros B HB0 Hall. apply HB2.
      * pose proof (Hall rec ltac:(apply elem_of_cons; by left)). lia.
      * intros rec' Hin. apply Hall. by apply elem_of_cons; right.
    + by rewrite Hc2, (tc_clients _ _ _ Ht1).
    + by rewrite Hp2, (tc_pubsub _ _ _ Ht1).
    + by rewrite Hrw2, (proj1 (tc_rewrite _ _ _ Ht1)).
    + by trans (db_sh d1).
    + intros name. destruct (Hl2 name) as [Hin2 Hout2]. split; rewrite Exists_cons; cbn [foldl].
      * intros Hm. destruct (decide (a_room rec = name)) as [<-|Hne].
        -- assert (Hdata : data_at (a_room rec) d1 = replay_step (a_room rec) (watermark (crdt (db_sh d)))
             (m0, tombs_at (a_room rec) d) rec).
           { unfold replay_step, data_at. rewrite decide_True by done.
             unfold replayed_by in *. cbn. injection Heff as -> -> _. done. }
           destruct (decide (Exists (mentions (a_room rec)) recs)) as [He|He].
           ++ destruct (Hin2 He) as (Hst2 & m1 & Hm1 & Hf). split; [done|]. exists m0. split; [done|].
              rewrite <- Hdata, <- Hwm1, Hf. unfold start_table in Hm1. rewrite decide_True in Hm1 by done.
              by subst m1.
           ++ destruct (Hout2 He) as (Hr & Htm & _). rewrite Hr. split; [done|]. exists m0. split; [done|].
              rewrite <- Hdata, skip_all by done. unfold data_at. by rewrite Hr, Htm.
        -- destruct Hm as [[? _]|He]; [done|]. destruct (Hin2 He) as (Hst2 & m1 & Hm1 & Hf).
           split; [done|]. exists m1. rewrite Hwm1, (Htb1 name) in Hf by done.
           split; [|by rewrite (replay_step_other name)].
           eapply start_table_same; [..|exact Hm1]; [by apply (tc_rooms _ _ _ Ht1)|by apply (tc_snaps _ _ _ Ht1)].
      * intros Hn. assert (Hne : name ≠ a_room rec) by (intros ->; apply Hn; left; by split).
        destruct (Hout2 ltac:(tauto)) as (Hr & Htm & Hsn). split_and!.
        -- by rewrite Hr, (tc_rooms _ _ _ Ht1).
        -- by rewrite Htm, Htb1.
        -- by rewrite Hsn, (tc_snaps _ _ _ Ht1).
Qed.

Lemma replayed_log_quiet recs name d d2 s :
  replayed_log recs name d d2 → quiet (db_sh d2) s → tombs (crdt s) = tombs (crdt (db_sh d2)) →
  replayed_log recs name d (upd_db_sh (λ _, s) d2).
Proof.
  intros [Hin Hout] Hq Ht.
  assert (Hta : tombs_at name (upd_db_sh (λ _, s) d2) = tombs_at name d2).
  { unfold tombs_at, tombs_of. cbn. by rewrite Ht. }
  split; unfold data_at; rewrite Hta; [apply Hin|]. intros Hn. destruct (Hout Hn) as (? & ? & ?).
  split_and!; try done. cbn. by rewrite (qu_snaps _ _ Hq).
Qed.

Lemma replayed_log_start recs name s d d' :
  aof_only (db_sh d) s → replayed_log recs name (upd_db_sh (λ _, s) d) d' → replayed_log recs name d d'.
Proof.
  intros Ho [Hin Hout]. unfold tombs_at in *. cbn [upd_db_sh db_sh] in *. rewrite (ao_crdt _ _ Ho) in *.
  rewrite (ao_snaps _ _ Ho) in Hout. split; [|exact Hout]. intros Hm. destruct (Hin Hm) as (Hst & m0 & Hm0 & Hd).
  split; [done|]. exists m0. split; [|exact Hd].
  eapply start_table_same; [..|exact Hm0]; [done|]. cbn. by rewrite (ao_snaps _ _ Ho).
Qed.

Lemma recover_spec recs tail_ s :
  aof_file (aof s) = Some (log_bytes recs ++ tail_) → Forall valid_record recs → cut_of tail_ →
  succeeds (sys_tick s) = true →
  wp recover (λ rs s', rs = recs ∧ aof_only s s' ∧ replaying (aof s') = false ∧ torn (aof s') = torn (aof s)
    ∧ needs_rewrite (aof s') = needs_rewrite (aof s)
    ∧ fd_open (aof s') = fd_open (aof s)
    ∧ (aof_file (aof s') = Some (log_bytes recs) ∨ aof_file (aof s') = Some (log_bytes recs ++ tail_))) s.
Proof.
  intros Hf Hv Hcut Hop. unfold recover. apply wp_bind, wp_gets. rewrite Hf.
  destruct (log_bytes recs ++ tail_) as [|x file] eqn:E; [done|]. rewrite <- E in Hf |- *.
  wp_run. rewrite Hop. cbn [negb]. wp_run. rewrite (recover_log recs tail_ Hv Hcut). cbn [rc_rewrite rc_end rc_records].
  destruct (decide (tail_ = [])) as [->|Hne].
  - rewrite app_nil_r in *. wp_run. split_and!; try done; [apply orb_false_r|by left].
  - assert (Hcut' : take (length (log_bytes recs)) <$> aof_file (aof s) = Some (log_bytes recs))
      by (rewrite Hf; cbn; by rewrite take_app_length).
    wp_run. apply wp_when; intros _; [wp_run; apply wp_when; intros _; [wp_run; apply wp_when; intros _|]|]; wp_run;
      split_and!; try done; try apply orb_false_r; by (left + right).
Qed.

Lemma open_file_spec file s :
  aof_file (aof s) = Some file → file ≠ [] →
  wp open_file (λ b s', aof_only s s' ∧ replaying (aof s') = replaying (aof s) ∧ torn (aof s') = torn (aof s) ∧ aof_file (aof s') = Some file) s.
Proof.
  intros Hf Hne. unfold open_file, bump_generation. apply wp_bind, wp_gets.
  destruct (fd_open (aof s)); [by apply wp_ret|]. wp_run.
  destruct (succeeds _); cbn [negb]; wp_run; [|done].
  rewrite Hf. cbn [default from_option id]. rewrite bool_decide_false, andb_false_r by done. wp_run.
  assert (E : open_creat (aof s) = aof s) by (apply open_creat_has; by rewrite Hf).
  apply wp_when; intros _; wp_run; cbn; by rewrite E.
Qed.

End replay.

(** No client, nothing evicted, the log accepts records. *)
Record fresh_start (d d' : db) : Prop := {
  fs_clients : client_rooms d' = ∅;
  fs_cold : index (cold (db_sh d')) = ∅;
  fs_snaps : snaps_shrink (db_sh d) (db_sh d');
  fs_replaying : replaying (aof (db_sh d')) = false;
  fs_torn : torn (aof (db_sh d')) = false
}.

(** The constructor, started on a log of valid records. *)
Lemma start_database_spec `{World} recs tail_ sn :
  let d := init_db (init_shared (Some (log_bytes recs ++ tail_)) sn) in
  Forall valid_record recs → cut_of tail_ → succeeds 0 = true →
  wp start_database (λ _ d', fresh_start d d' ∧ db_ok d' ∧ (∀ name, replayed_log recs name d d')
    ∧ ((∀ rec, rec ∈ recs → change_ts (change_of rec) < UINT64_MAX) →
       frontier (crdt (db_sh d')) = clock (crdt (db_sh d'))
       ∧ ∀ rec, rec ∈ recs → change_ts (change_of rec) < clock (crdt (db_sh d')))
    ∧ (aof_file (aof (db_sh d')) = Some (log_bytes recs)
       ∨ aof_file (aof (db_sh d')) = Some (log_bytes recs ++ tail_))) d.
Proof.
  intros d Hv Hcut Hop.
  unfold start_database. apply wp_bind, wp_dsh. eapply wp_mono; [by apply (recover_spec recs tail_)|].
  intros rs s1 (-> & Ho1 & Hr1 & Ht1 & Hn1 & Hfd1 & Hf1). pose proof (aof_only_quiet _ _ Ho1) as Hq1.
  set (d1 := upd_db_sh (λ _, s1) d).
  assert (Hd1 : replay_db d1).
  { split; [by apply quiet_db_ok; [apply init_db_ok|]| |].
    - cbn [d1 upd_db_sh db_sh]. by rewrite (ao_cold _ _ Ho1).
    - cbn [d1 upd_db_sh db_sh]. by rewrite (ao_crdt _ _ Ho1). }
  apply wp_bind. eapply wp_mono; [apply replay_all; [done|]|].
  { apply (Forall_impl valid_record); [done|]. intros rec Hr. by destruct Hr. }
  intros _ d2 (Hd2 & Haof2 & Hwm2 & _ & Hts2 & HB2 & Hcr2 & _ & _ & Hsn2 & Hlog).
  apply wp_bind, wp_gets. rewrite Haof2. cbn [d1 upd_db_sh db_sh]. rewrite Hn1. cbn [d init_db].
  cbn [needs_rewrite aof init_shared init_aof db_sh].
  apply wp_bind, wp_ret, wp_bind, wp_dsh.
  assert (Hf : ∃ f, aof_file (aof s1) = Some f ∧ f ≠ [] ∧ (f = log_bytes recs ∨ f = log_bytes recs ++ tail_)).
  { destruct Hf1 as [Hf|Hf]; eexists; (split; [exact Hf|]); split; auto; done. }
  destruct Hf as (f & Hf & Hfne & Hfor). eapply wp_mono; [apply (open_file_spec f); [by rewrite Haof2|done]|].
  intros b s3 (Ho3 & Hr3 & Ht3 & Hf3). apply wp_bind, wp_dsh, wp_now, wp_bind, wp_dsh.
  eapply wp_mono; [apply clock_next_spec|]. intros v s4 (-> & Hcr4 & Hq4 & Ha4).
  apply wp_bind, wp_dsh, wp_modify, wp_ret. cbn [db_sh upd_db_sh] in Hcr4, Hq4, Ha4.
  set (now := _ + _) in *. set (v := next now 0 _) in *.
  set (s5 := upd_crdt _ _). set (d5 := upd_db_sh (λ _, s5) _).
  assert (E5 : d5 = upd_db_sh (λ _, s5) d2) by done. rewrite E5. clear E5 d5.
  assert (Hq5 : quiet (db_sh d2) s5).
  { trans s3; [by apply aof_only_quiet|]. trans (upd_sys_tick S s3); [done|]. by trans s4. }
  assert (Hcr5 : crdt s5 = upd_frontier (λ _, v) (upd_clock (λ _, v) (crdt (db_sh d2)))).
  { change (crdt s5) with (upd_frontier (λ _, v) (crdt s4)). rewrite Hcr4. cbn.
    by rewrite (ao_crdt _ _ Ho3). }
  split_and!.
  - cbn in Hr3, Ht3. split; cbn.
    + exact Hcr2.
    + etrans; [exact (qu_index _ _ Hq5)|exact (rd_cold _ Hd2)].
    + trans (db_sh d2); [|apply shrink_same, Hq5]. trans s1; [apply shrink_same, Ho1|exact Hsn2].
    + rewrite Ha4. cbn. by rewrite Hr3, Haof2.
    + rewrite Ha4. cbn. rewrite Ht3, Haof2. exact Ht1.
  - by apply quiet_db_ok; [apply Hd2|].
  - intros name. apply replayed_log_quiet; [by eapply replayed_log_start|done|by rewrite Hcr5].
  - intros Hlt. cbn [upd_db_sh db_sh]. rewrite Hcr5. split; [done|]. intros rec Hin.
    pose proof (rd_clock _ Hd2). pose proof (Hts2 rec Hin) as Hrec.
    assert (Hc2 : clock (crdt (db_sh d2)) <= UINT64_MAX - 1).
    { apply HB2; [cbn; rewrite (ao_crdt _ _ Ho1); done|]. intros rec' Hin'. specialize (Hlt rec' Hin'). lia. }
    destruct (next_gt now 0 (clock (crdt (db_sh d2)))) as [Hn _]; [ulia..|].
    cbn. unfold v. cbn. rewrite (ao_crdt _ _ Ho3). lia.
  - cbn [upd_db_sh db_sh s5 upd_crdt aof]. rewrite Ha4. cbn. rewrite Hf3. by destruct Hfor as [-> | ->]; auto.
Qed.

(** ** Properties *)

(** C13: A restart rebuilds every room from its log. Started on a file of valid
    records, possibly cut inside a last one, and on any snapshots, the database
    replays every complete record in order: a room the log mentions is active
    and holds exactly what the records, applied in order as changes of a map,
    make of the table it loaded; its tombstones likewise; every other room is
    untouched; the clock is at least at every version in the log; the log
    keeps all its records; and the invariant of the database holds. *)
Theorem restart_rebuilds `{World} recs tail_ sn :
  let d := init_db (init_shared (Some (log_bytes recs ++ tail_)) sn) in
  Forall valid_record recs → cut_of tail_ → succeeds 0 = true →
  let d' := (start_database d).2 in
  db_ok d' ∧ (∀ name, replayed_log recs name d d')
  ∧ ((∀ rec, rec ∈ recs → change_ts (change_of rec) < UINT64_MAX) →
     frontier (crdt (db_sh d')) = clock (crdt (db_sh d'))
     ∧ ∀ rec, rec ∈ recs → change_ts (change_of rec) < clock (crdt (db_sh d')))
  ∧ (aof_file (aof (db_sh d')) = Some (log_bytes recs)
     ∨ aof_file (aof (db_sh d')) = Some (log_bytes recs ++ tail_)).
Proof.
  intros d Hv Hcut Hop d'. by apply (start_database_spec recs tail_ sn).
Qed.

Lemma restart_rebuilds_witness :
  let W := calm default_config 1000 in
  let recs := [AofRecord_ (str "r") [str "set"; str "k"; str "v"] 0 (2 ^ 50) 7] in
  let d := init_db (init_shared (Some (log_bytes recs ++ [])) ∅) in
  db_ok (start_database d).2.
Proof.
  intros W recs d.
  assert (Hv : Forall valid_record recs).
  { constructor; [|constructor]. split; [by vm_compute| |vm_compute; split; discriminate..].
    repeat constructor; by vm_compute. }
  exact (proj1 (restart_rebuilds (H := W) recs [] ∅ Hv cut_of_nil eq_refl)).
Defined.
