(* ===== verification/Durability.v ===== *)
(** * The log mirrors the rooms

    A write command either changes nothing a restart could miss, or appends
    one record whose replay makes of the room's logical map exactly what the
    command made of it. *)

From stdpp Require Import gmap.
From S2P Require Import Prelude FsUtil Resp Hlc Config World Types State Cold Aof Keyspace Crdt Effects Commands CommandSpecs PubSub Rooms Persistence PersistSpecs.

(** The write commands that log one record. *)
Inductive write_cmd := CSet | CMset | CDel | CMerge | CCrdtDel | CExpire | CPexpire | CPersist.

Definition cmd_name (w : write_cmd) : bytes :=
  match w with
  | CSet => str "SET" | CMset => str "MSET" | CDel => str "DEL"
  | CMerge => str "CRDTMERGE" | CCrdtDel => str "CRDTDEL"
  | CExpire => str "EXPIRE" | CPexpire => str "PEXPIRE" | CPersist => str "PERSIST"
  end.

(** A change that determines the keys it is about: every record of a live
    command; only logs of old versions hold a bare EXPIRE. *)
Definition plain (ch : change) : bool := match ch with Expires _ _ => false | _ => true end.

Definition sets_key (ch : change) (key : bytes) : bool :=
  match ch with
  | Puts kvs _ _ => bool_decide (key ∈ kvs.*1)
  | Removes k _ => bool_decide (k = key)
  | _ => false
  end.

(** The versions it writes are in the HLC format. *)
Definition stable_change (ch : change) : Prop :=
  match ch with Puts _ _ v => stable_ts (v_ts v) | _ => True end.

Section durability.
  Context `{World} (Hreads : reads_ok) (Hsane : sane_clock) (Hnode : is_u32 local_node_id).

Definition handler (w : write_cmd) (resp3 : bool) (room_name : bytes) (args : list bytes) : M ctx bytes :=
  match w with
  | CSet => handle_set resp3 room_name args
  | CMset => handle_mset room_name args
  | CDel => handle_del room_name args
  | CMerge => handle_crdtmerge room_name args
  | CCrdtDel => handle_crdtdel room_name args
  | CExpire => handle_expire 1000 room_name args
  | CPexpire => handle_expire 1 room_name args
  | CPersist => handle_expire 0 room_name args
  end.

(** Nothing to log: only keys that have expired are gone. *)
Definition only_expired (V V' : gmap bytes record) : Prop :=
  V' ⊆ V ∧ ∀ key r, V !! key = Some r → V' !! key = None → ∃ now, reading now ∧ expired r now = true.

(** The tokens of the record come from the command or from the room. *)
Definition tokens_from (args : list bytes) (V : gmap bytes record) (rec : AofRecord) : Prop :=
  a_args rec = args
  ∨ ∃ key, key ∈ args ∧ (a_args rec = [str "DEL"; key]
      ∨ ∃ r, V !! key = Some r ∧ a_args rec = [str "SET"; key; r_value r]).

(** One record was handed to the log, and it does what the command did. *)
Record mirrored (room_name : bytes) (args : list bytes) (c c' : ctx) (rec : AofRecord) : Prop := {
  mi_room : a_room rec = room_name;
  mi_logs : logs room_name (a_args rec) (a_expire rec) (a_ts rec) (a_node rec) (c_sh c) (c_sh c');
  mi_tokens : tokens_from args (view room_name c) rec;
  mi_typed : typed rec;
  mi_plain : plain (change_of rec) = true;
  mi_effect : stable_ts (a_ts rec) → stable_change (change_of rec)
    ∧ apply_change (change_of rec) (view room_name c) = view room_name c'
}.

Definition durable_step (room_name : bytes) (args : list bytes) (c c' : ctx) : Prop :=
  (aof (c_sh c') = aof (c_sh c) ∧ only_expired (view room_name c) (view room_name c'))
  ∨ ∃ rec, mirrored room_name args c c' rec.

Lemma only_expired_refl V : only_expired V V.
Proof. split; [done|]. intros key r -> [=]. Qed.

Lemma only_expired_trans V1 V2 V3 : only_expired V1 V2 → only_expired V2 V3 → only_expired V1 V3.
Proof.
  intros [S1 H1] [S2 H2]. split; [by trans V2|]. intros key r Hk Hn.
  destruct (V2 !! key) as [r2|] eqn:E; [|by eapply H1]. eapply H2; [|done].
  pose proof (lookup_weaken _ _ _ _ E S1) as E1. congruence.
Qed.

Lemma only_expired_prune now key V : reading now → only_expired V (prune now key V).
Proof.
  intros Hnow. split; [apply prune_sub|]. intros k r Hk Hp. exists now. split; [done|].
  unfold prune in Hp. destruct (live now (V !! key)) as [r'|] eqn:Hl; [congruence|].
  apply lookup_delete_None in Hp as [->|Hp]; [|congruence]. rewrite Hk in Hl. cbn in Hl.
  by destruct (expired r now).
Qed.

Lemma wrap32_small z : is_u32 z → wrap32 z = z.
Proof. intros Hz. unfold wrap32. apply Z.mod_small. ulia. Qed.

(** The changes of the records these commands log. *)
Lemma change_of_set rec :
  upper (arg (a_args rec) 0) = cmd_name CSet → (3 ≤ length (a_args rec))%nat →
  change_of rec = Puts [(arg (a_args rec) 1, arg (a_args rec) 2)] (a_expire rec)
                    (Version (normalize (a_ts rec)) (wrap32 (a_node rec))).
Proof.
  intros Hn Hl%Nat.leb_le. unfold change_of. rewrite Hn, Hl.
  change (eqs "CRDTMERGE" (cmd_name CSet)) with false. by change (eqs "SET" (cmd_name CSet)) with true.
Qed.

Lemma change_of_mset rec :
  upper (arg (a_args rec) 0) = cmd_name CMset →
  change_of rec = Puts (pairs_of (drop 1 (a_args rec))) (a_expire rec)
                    (Version (normalize (a_ts rec)) (wrap32 (a_node rec))).
Proof.
  intros Hn. unfold change_of. rewrite Hn.
  change (eqs "CRDTMERGE" (cmd_name CMset)) with false. change (eqs "SET" (cmd_name CMset)) with false.
  by change (eqs "MSET" (cmd_name CMset)) with true.
Qed.

Lemma change_of_del rec :
  upper (arg (a_args rec) 0) = cmd_name CDel → (2 ≤ length (a_args rec))%nat →
  change_of rec = Removes (arg (a_args rec) 1) (Version (normalize (a_ts rec)) (a_node rec)).
Proof.
  intros Hn Hl%Nat.leb_le. unfold change_of. rewrite Hn, Hl.
  change (eqs "CRDTMERGE" (cmd_name CDel)) with false. change (eqs "SET" (cmd_name CDel)) with false.
  change (eqs "MSET" (cmd_name CDel)) with false. change (eqs "EXPIRE" (cmd_name CDel)) with false.
  change (eqs "PEXPIRE" (cmd_name CDel)) with false. change (eqs "PERSIST" (cmd_name CDel)) with false.
  by change (eqs "DEL" (cmd_name CDel)) with true.
Qed.

Lemma change_of_crdtdel rec :
  upper (arg (a_args rec) 0) = cmd_name CCrdtDel → (4 ≤ length (a_args rec))%nat →
  change_of rec = Removes (arg (a_args rec) 1) (Version (normalize (a_ts rec)) (a_node rec)).
Proof.
  intros Hn Hl%Nat.leb_le. unfold change_of. rewrite Hn, Hl.
  change (eqs "CRDTMERGE" (cmd_name CCrdtDel)) with false. change (eqs "SET" (cmd_name CCrdtDel)) with false.
  change (eqs "MSET" (cmd_name CCrdtDel)) with false. change (eqs "EXPIRE" (cmd_name CCrdtDel)) with false.
  change (eqs "PEXPIRE" (cmd_name CCrdtDel)) with false. change (eqs "PERSIST" (cmd_name CCrdtDel)) with false.
  change (eqs "DEL" (cmd_name CCrdtDel)) with false. by change (eqs "CRDTDEL" (cmd_name CCrdtDel)) with true.
Qed.

(** A merge is replayed with the version of its arguments. *)
Lemma change_of_merge now rec v :
  upper (arg (a_args rec) 0) = cmd_name CMerge → (5 ≤ length (a_args rec))%nat →
  accepted now (arg (a_args rec) 3) (arg (a_args rec) 4) = Some v →
  change_of rec = Puts [(arg (a_args rec) 1, arg (a_args rec) 2)] (a_expire rec) v.
Proof.
  intros Hn Hl%Nat.leb_le Hacc. pose proof (accepted_range _ _ _ _ Hacc) as [_ Hv32].
  unfold change_of. rewrite Hn, Hl. change (eqs "CRDTMERGE" (cmd_name CMerge)) with true.
  cbn [andb orb]. unfold replay_version, accepted in *.
  destruct (parse_u64 (arg (a_args rec) 3)) as [ts|]; [|done].
  destruct (parse_u64 (arg (a_args rec) 4)) as [node|]; [|done]. cbn in Hacc.
  destruct (UINT32_MAX <? node); [done|]. cbn [orb] in Hacc. destruct (_ <? _); [done|].
  injection Hacc as <-. cbn in Hv32. by rewrite wrap32_small.
Qed.

(** What a room stores is well-formed. *)
Lemma view_wf room_name c : tidy room_name c → map_Forall (λ _ r, wf_record r) (view room_name c).
Proof.
  intros [[Hco Hwf] _] key r. unfold view. intros [Hk|[_ Hk]]%lookup_union_Some_raw; [by eapply Hwf|].
  unfold cold_view in Hk. apply lookup_fmap_Some in Hk as (ref & <- & Hr).
  assert (Hf : find_ref room_name key (cold (c_sh c)) = Some ref).
  { unfold find_ref. by destruct (index (cold (c_sh c)) !! room_name). }
  destruct (co_ref _ Hco _ _ _ Hf) as [Hk Hb]. pose proof (co_file _ Hco). apply decode_wf.
  unfold slice. rewrite length_take, length_drop. lia.
Qed.

(** A record written by a command is typed like what it leaves in the room. *)
Lemma written_typed room_name c' key value e ts node rec :
  tidy room_name c' → view room_name c' !! key = Some (Record_ value e ts node) →
  a_expire rec = e → a_ts rec = ts → a_node rec = node → typed rec.
Proof. intros Hti Hk <- <- <-. by destruct (view_wf _ _ Hti _ _ Hk). Qed.

Lemma arg_in args i : (i < length args)%nat → arg args i ∈ args.
Proof. intros Hi. unfold arg. rewrite list_elem_of_In. by apply nth_In. Qed.

Lemma set_mirrors resp3 room_name args c :
  tidy room_name c → upper (arg args 0) = cmd_name CSet →
  wp (handle_set resp3 room_name args) (λ _ c', durable_step room_name args c c') c.
Proof.
  intros Hti Hn. eapply wp_mono; [by apply handle_set_spec|]. cbn beta. intros rep c' Hr.
  destruct (Nat.ltb_spec (length args) 3) as [Hlen|Hlen].
  { destruct Hr as [_ ->]. left. split; [done|apply only_expired_refl]. }
  destruct Hr as [Hk Hr]. destruct (set_options _ _ _ _ _) as [err|[[nx xx] e]].
  { destruct Hr as (_ & _ & Hv & _ & Ha). left. rewrite Hv. split; [done|apply only_expired_refl]. }
  destruct (_ || _).
  { destruct Hr as (_ & Hv & _ & Ha). left. rewrite Hv. split; [done|]. apply only_expired_prune. by eexists. }
  destruct Hr as [_ [Hv Hc Ht Hl]]. right.
  set (rec := AofRecord_ room_name args e (clock (crdt (c_sh c'))) local_node_id). exists rec.
  pose proof (change_of_set rec Hn Hlen) as Hch.
  assert (Hu : is_u64 (clock (crdt (c_sh c')))) by (rewrite Hc; apply next_u64).
  split; [done|done|by left| |by rewrite Hch|].
  { eapply (written_typed room_name c' (arg args 1)); [apply Hk|by rewrite Hv, lookup_insert_eq|done..]. }
  cbn [a_ts rec]. intros Hst. rewrite Hch. cbn [a_args a_expire a_ts a_node apply_change stable_change foldl rec].
  unfold put_kv. cbn [fst snd v_ts v_node]. rewrite wrap32_small, (proj2 (normalize_stable _ Hu)) by done.
  split; [done|]. rewrite Hv. symmetry. apply prune_insert.
Qed.

Lemma foldl_put_latest (e : Z) (v : version) (kvs : list (bytes * bytes)) (m : gmap bytes record) (key : bytes) :
  foldl (put_kv e v) m kvs !! key
  = match latest key kvs with Some x => Some (Record_ x e (v_ts v) (v_node v)) | None => m !! key end.
Proof.
  revert m. induction kvs as [|[k x] kvs IH]; intros m; cbn [foldl latest]; [done|]. rewrite IH.
  destruct (latest key kvs); [done|]. unfold put_kv. cbn [fst snd]. destruct (decide (k = key)) as [->|Hne].
  - by rewrite lookup_insert_eq.
  - by rewrite lookup_insert_ne.
Qed.

Lemma mset_mirrors room_name args c :
  tidy room_name c → upper (arg args 0) = cmd_name CMset →
  wp (handle_mset room_name args) (λ _ c', durable_step room_name args c c') c.
Proof.
  intros Hti Hn. eapply wp_mono; [by apply handle_mset_spec|]. cbn beta. intros rep c' Hr.
  destruct (_ || _).
  { destruct Hr as [_ ->]. left. split; [done|apply only_expired_refl]. }
  destruct Hr as (Hk & _ & (now & m & _ & Hc & _) & Hv & _ & _ & Hl). right.
  set (rec := AofRecord_ room_name args 0 (clock (crdt (c_sh c'))) local_node_id). exists rec.
  pose proof (change_of_mset rec Hn) as Hch.
  assert (Hu : is_u64 (clock (crdt (c_sh c')))) by (rewrite Hc; apply next_u64).
  split; [done|done|by left|by split|by rewrite Hch|].
  cbn [a_ts rec]. intros Hst. rewrite Hch. cbn [a_args a_expire a_ts a_node apply_change stable_change v_ts rec].
  rewrite wrap32_small, (proj2 (normalize_stable _ Hu)) by done. split; [done|].
  apply map_eq. intros key. by rewrite foldl_put_latest, Hv.
Qed.

Lemma delete_prune now key V : delete key (prune now key V) = delete key V.
Proof. unfold prune. destruct (live _ _); [done|]. apply delete_delete_eq. Qed.

(** The removal of one key, from a room in which nothing but expired keys (and
    the key itself, perhaps) went since the command began. *)
Lemma del_key_mirrors room_name args key c0 c :
  tidy room_name c → key ∈ args → aof (c_sh c) = aof (c_sh c0) → only_expired (view room_name c0) (view room_name c) →
  delete key (view room_name c) = delete key (view room_name c0) →
  wp (del_key room_name key) (λ _ c', durable_step room_name args c0 c') c.
Proof.
  intros Hti Hin Ha He Hd. eapply wp_mono; [by apply del_key_spec|]. cbn beta. intros b c' [Hk Hr].
  destruct (prune _ key _ !! key) as [r|] eqn:Hp.
  - destruct Hr as (_ & Hv & (now & _ & Hc) & _ & Hl). right.
    set (rec := AofRecord_ room_name [str "DEL"; key] 0 (clock (crdt (c_sh c'))) local_node_id). exists rec.
    assert (Hch : change_of rec = Removes key (Version (normalize (a_ts rec)) local_node_id))
      by (by rewrite (change_of_del rec) by (done || cbn; lia)).
    assert (Hu : is_u64 (clock (crdt (c_sh c')))) by (rewrite Hc; apply next_u64).
    split; [done| |right; exists key; split; [done|by left]|by split|by rewrite Hch|].
    + destruct Hl as (s1 & E1 & E2). exists s1. by rewrite <- Ha.
    + intros _. rewrite Hch. split; [done|]. cbn [apply_change]. by rewrite Hv.
  - destruct Hr as (_ & Hv & _ & Ha'). left. rewrite Hv. split; [congruence|].
    eapply only_expired_trans; [exact He|]. apply only_expired_prune. by eexists.
Qed.

Lemma del_mirrors room_name args c :
  tidy room_name c → length args = 2%nat →
  wp (handle_del room_name args) (λ _ c', durable_step room_name args c c') c.
Proof.
  intros Hti Hlen. unfold handle_del. rewrite Hlen. cbn [Nat.ltb Nat.leb].
  destruct args as [|a [|key [|]]]; try done. cbn [drop fold_m].
  apply wp_bind, wp_bind. unfold del_step. apply wp_bind.
  eapply wp_mono; [apply (del_key_mirrors room_name [a; key] key c); try done; [right; by left|apply only_expired_refl]|].
  intros b c' Hr. by apply wp_ret, wp_ret, wp_ret.
Qed.

Lemma merge_mirrors room_name args c :
  tidy room_name c → upper (arg args 0) = cmd_name CMerge →
  wp (handle_crdtmerge room_name args) (λ _ c', durable_step room_name args c c') c.
Proof.
  intros Hti Hn.
  destruct (decide (5 ≤ length args ≤ 6)%nat) as [Hlen|Hlen].
  2:{ unfold wp. rewrite (bad_merge _ _ _ (or_introl Hlen)). left. split; [done|apply only_expired_refl]. }
  destruct (merge_expire args) as [e|] eqn:He.
  2:{ unfold wp. rewrite (bad_merge _ _ _ (or_intror He)). left. split; [done|apply only_expired_refl]. }
  eapply wp_mono; [by apply (crdtmerge_spec room_name args e)|]. cbn beta. intros rep c' [Hk Hr].
  destruct (accepted _ _ _) as [v|] eqn:Hacc.
  2:{ destruct Hr as (Hv & _ & Ha). left. rewrite Hv. split; [done|apply only_expired_refl]. }
  destruct Hr as [_ Hr]. cbv zeta in Hr. destruct (loses _ _ _ _).
  { destruct Hr as (_ & Hv & _ & Ha). left. rewrite Hv. split; [done|]. apply only_expired_prune. by eexists. }
  destruct Hr as (_ & Hv & _ & Hl). right.
  set (r' := merged _ _ _ _) in *.
  set (rec := AofRecord_ room_name args (r_expire r') (v_ts v) (v_node v)). exists rec.
  assert (Hch : change_of rec = Puts [(arg args 1, arg args 2)] (r_expire r') v)
    by (rewrite (change_of_merge (clock_at (c_sh c)) rec v) by (done || cbn [a_args rec]; lia); done).
  assert (Hr' : r' = Record_ (arg args 2) (r_expire r') (v_ts v) (v_node v)).
  { unfold r', merged, merge_write. by destruct (_ =? _)%nat. }
  split; [done|done|by left| |by rewrite Hch|].
  { eapply (written_typed room_name c' (arg args 1)); [apply Hk|rewrite Hv, lookup_insert_eq, Hr'; done|done..]. }
  intros Hst. rewrite Hch. split; [done|]. cbn [apply_change foldl]. unfold put_kv. cbn [fst snd]. rewrite Hv.
  rewrite <- Hr'. symmetry. apply prune_insert.
Qed.

Lemma crdtdel_mirrors room_name args c :
  tidy room_name c → upper (arg args 0) = cmd_name CCrdtDel →
  wp (handle_crdtdel room_name args) (λ _ c', durable_step room_name args c c') c.
Proof.
  intros Hti Hn. destruct (decide (length args = 4%nat)) as [Hlen|Hlen].
  2:{ unfold wp. rewrite bad_del by done. left. split; [done|apply only_expired_refl]. }
  eapply wp_mono; [by apply crdtdel_spec|]. cbn beta. intros rep c' [Hk Hr].
  destruct (accepted _ _ _) as [v|] eqn:Hacc.
  2:{ destruct Hr as (Hv & _ & Ha). left. rewrite Hv. split; [done|apply only_expired_refl]. }
  destruct Hr as [_ Hr]. cbv zeta in Hr. destruct (loses _ _ _ _).
  { destruct Hr as (_ & Hv & _ & Ha). left. rewrite Hv. split; [done|]. apply only_expired_prune. by eexists. }
  destruct Hr as (_ & Hv & _ & Hl). right.
  set (rec := AofRecord_ room_name args 0 (v_ts v) (v_node v)). exists rec.
  pose proof (change_of_crdtdel rec Hn ltac:(cbn [a_args rec]; lia)) as Hch.
  apply accepted_range in Hacc as [Hts Hnd].
  split; [done|done|by left|by split|by rewrite Hch|]. intros _. rewrite Hch. split; [done|]. by rewrite Hv.
Qed.

Lemma reschedule_mirrors room_name args key r e c c2 c' :
  tidy room_name c' → key ∈ args → aof (c_sh c2) = aof (c_sh c) →
  view room_name c !! key = Some r → delete key (view room_name c2) = delete key (view room_name c) →
  rescheduled room_name key (view room_name c2) r e c2 c' → ∃ rec, mirrored room_name args c c' rec.
Proof.
  intros Hti Hin Ha Hr Hdel ((now & _ & Hc) & Hv & _ & (s1 & E1 & E2)).
  assert (Hu : is_u64 (clock (crdt (c_sh c')))) by (rewrite Hc; apply next_u64).
  set (rec := AofRecord_ room_name [str "SET"; key; r_value r] e (clock (crdt (c_sh c'))) local_node_id). exists rec.
  pose proof (change_of_set rec eq_refl ltac:(cbn; lia)) as Hch.
  split; [done|exists s1; by rewrite <- Ha|right; exists key; split; [done|right; by exists r]| |by rewrite Hch|].
  { eapply (written_typed room_name c' key); [done|by rewrite Hv, lookup_insert_eq|done..]. }
  cbn [a_ts rec]. intros Hst. rewrite Hch. cbn [a_args a_expire a_ts a_node apply_change stable_change foldl rec].
  unfold put_kv. cbn [fst snd v_ts v_node]. rewrite wrap32_small, (proj2 (normalize_stable _ Hu)) by done.
  split; [done|]. rewrite Hv. change (arg [str "SET"; key; r_value r] 1) with key. change (arg [str "SET"; key; r_value r] 2) with (r_value r).
  by rewrite <- (insert_delete_eq (view room_name c)), <- Hdel, insert_delete_eq.
Qed.

(** EXPIRE, PEXPIRE and PERSIST log the record as it is now, or its removal. *)
Lemma expire_mirrors scale room_name args c :
  tidy room_name c → scale = 0 ∨ scale = 1 ∨ scale = 1000 →
  wp (handle_expire scale room_name args) (λ _ c', durable_step room_name args c c') c.
Proof.
  intros Hti Hscale. unfold handle_expire.
  assert (Hnone : durable_step room_name args c c) by (left; split; [done|apply only_expired_refl]).
  destruct (if scale =? 0 then _ else _) eqn:Hlen; wp_run; [done|].
  assert (Hin : arg args 1 ∈ args).
  { apply arg_in. destruct (scale =? 0); [apply negb_false_iff, Nat.eqb_eq in Hlen|apply Nat.ltb_ge in Hlen]; lia. }
  destruct (expire_options _ _) as [err|o]; wp_run; [done|].
  destruct (o_nx o && _); wp_run; [done|]. destruct (o_gt o && _); wp_run; [done|].
  eapply wp_mono; [by apply (expire_deadline_spec _ _ _ room_name)|].
  intros d c1 ((Hk1 & Hv1 & Hc1 & Ha1) & -> & _).
  destruct (deadline_at scale c args) as [[n e]|] eqn:Hd; wp_run.
  2:{ left. rewrite Hv1. split; [done|apply only_expired_refl]. }
  eapply wp_mono; [apply lookup_kept; [apply Hk1|done]|].
  intros r c2 (Hk2 & Hcr2 & Ha2 & Hkey2 & Hcv2 & Hr & Hv2). rewrite Hv1 in Hr, Hv2.
  assert (Hgone : only_expired (view room_name c) (view room_name c2)).
  { rewrite Hv2. apply only_expired_prune. by eexists. }
  assert (Hun : durable_step room_name args c c2) by (left; split; [congruence|done]).
  assert (Hdel : delete (arg args 1) (view room_name c2) = delete (arg args 1) (view room_name c)).
  { rewrite Hv2. apply delete_prune. }
  destruct r as [r|]; wp_run; [|done].
  destruct (_ && _); wp_run; [done|]. destruct (expire_refused o e r); wp_run; [done|].
  destruct (negb (scale =? 0) && (n <=? 0)).
  - unfold handle_del. cbn [length Nat.ltb Nat.leb drop fold_m]. apply wp_bind, wp_bind. unfold del_step. apply wp_bind.
    eapply wp_mono; [apply (del_key_mirrors room_name args (arg args 1) c c2); [apply Hk2|done|congruence|done|done]|].
    intros b c3 Hr3. by apply wp_ret, wp_ret, wp_ret.
  - assert (He : is_i64 e).
    { unfold deadline_at in Hd. destruct (Z.eqb_spec scale 0); [by injection Hd as <- <-|].
      apply deadline_range in Hd as [? _]; [done|by apply sane_at|]. by destruct Hscale as [?|?]. }
    eapply wp_mono; [apply reschedule_spec; [done..|apply Hk2|done|done|done]|].
    intros rep c3 (Hk3 & _ & Hre). right. symmetry in Hr.
    apply (reschedule_mirrors room_name args (arg args 1) r e c c2 c3); try done; [apply Hk3|congruence|].
    unfold live in Hr. destruct (view room_name c !! arg args 1) as [r0|]; [|done]. cbn in Hr.
    by destruct (expired r0 _).
Qed.

End durability.

(** C14: The log mirrors the rooms. SET, MSET, DEL of a key, CRDTMERGE,
    CRDTDEL, EXPIRE, PEXPIRE and PERSIST, on every branch, either leave the log
    as it is and then remove nothing but expired keys, or hand the log exactly
    one record, whose fields fit their types and whose tokens are the command's
    or of the room, and replaying that record on the room's logical map from
    before the command gives exactly its logical map after it: keys, values,
    deadlines and versions (for versions in the HLC format, which replay takes
    over unchanged). *)
Theorem log_mirrors_commands `{World} w resp3 room_name args c :
  reads_ok → sane_clock → is_u32 local_node_id → tidy room_name c →
  upper (arg args 0) = cmd_name w → (w = CDel → length args = 2%nat) →
  durable_step room_name args c (handler w resp3 room_name args c).2.
Proof.
  intros Hreads Hsane Hnode Hti Hn Hdel. destruct w; cbn [handler].
  - by apply set_mirrors.
  - by apply mset_mirrors.
  - by apply del_mirrors; auto.
  - by apply merge_mirrors.
  - by apply crdtdel_mirrors.
  - by apply expire_mirrors; auto.
  - by apply expire_mirrors; auto.
  - by apply expire_mirrors; auto.
Qed.

Lemma log_mirrors_commands_witness :
  let W := calm default_config (2 ^ 32) in
  let args := map str ["set"; "k"; "new"; "PX"; "50"]%string in
  durable_step (str "r") args sample_ctx (handler CSet false (str "r") args sample_ctx).2.
Proof.
  intros W args.
  assert (Hsane : sane_clock (H := W)) by (intros k; split; vm_compute; done || discriminate).
  assert (Hnode : is_u32 (local_node_id (H := W))) by (vm_compute; split; discriminate).
  assert (Hw : CSet = CDel → length args = 2%nat) by done.
  exact (log_mirrors_commands (H := W) CSet false (str "r") args sample_ctx
    (calm_reads_ok default_config (2 ^ 32)) Hsane Hnode sample_tidy eq_refl Hw).
Defined.

(** The tombstones are where the log does not mirror the rooms: [replay_put]
    does not clear the tombstone of the key it writes, as the live commands
    do. After a restart the next rewrite emits the live key and then its old
    tombstone as a DEL, and the restart after that loses the key. *)
Definition three_writes : list AofRecord :=
  [AofRecord_ (str "r") (map str ["SET"; "k"; "a"]%string) 0 (2 ^ 48) 1;
   AofRecord_ (str "r") (map str ["DEL"; "k"]%string) 0 (2 ^ 48 + 1) 1;
   AofRecord_ (str "r") (map str ["SET"; "k"; "b"]%string) 0 (2 ^ 48 + 2) 1].

Definition peered : config :=
  Config 6379 [] [] 10 10 None None true [] (-1) 1 [(str "peer", str "6380")] 1 0 0 1 0 Always 1 1 0 0.

Example rewrite_after_restart_drops_key :
  let W := calm peered 1000 in
  let d1 := (start_database (init_db (init_shared (Some (log_bytes three_writes)) ∅))).2 in
  let d2 := (rewrite_aof d1).2 in
  let d3 := (start_database (init_db (init_shared (aof_file (aof (db_sh d2))) ∅))).2 in
  r_value <$> keys (room_of (str "r") d1) !! str "k" = Some (str "b")
  ∧ keys (room_of (str "r") d3) !! str "k" = None.
Proof. vm_compute. done. Qed.
