(* ===== verification/Rewrite.v ===== *)
(** * The AOF rewritten as the current state

    [dump_state] writes, through any writer that keeps the contract of the
    class [AofWriter], records whose replay on an empty database gives back
    every live key of every room; both writers of the program, the synchronous
    one and the buffer of the forked child, are instances. *)

From stdpp Require Import gmap.
From S2P Require Import Prelude FsUtil Resp Hlc Config World Types State Cold Snapshot Aof Keyspace Crdt Effects Commands PubSub Rooms RoomSpecs RoomLife Persistence PersistSpecs.

(** ** What a log stands for *)

Section logged.
  Context `{World}.

(** The tables and tombstones a replay of [recs] on an empty database gives. *)
Definition logged (recs : list AofRecord) (name : bytes) : gmap bytes record * gmap bytes version :=
  foldl (replay_step name 0) (∅, ∅) recs.

Lemma logged_snoc recs rec name : logged (recs ++ [rec]) name = replay_step name 0 (logged recs name) rec.
Proof. unfold logged. by rewrite foldl_app. Qed.

Lemma change_of_set_record room_name key r :
  change_of (set_record room_name key r)
  = Puts [(key, r_value r)] (r_expire r) (Version (normalize (r_ts r)) (wrap32 (r_node r))).
Proof. reflexivity. Qed.

Lemma change_of_del_record room_name key v :
  change_of (del_record room_name key v) = Removes key (Version (normalize (v_ts v)) (v_node v)).
Proof. reflexivity. Qed.

Lemma logged_set recs room_name key r name :
  wf_record r →
  logged (recs ++ [set_record room_name key r]) name
  = if decide (room_name = name) then (<[key := reload r]> (logged recs name).1, (logged recs name).2)
    else logged recs name.
Proof.
  intros (_ & _ & Hn). rewrite logged_snoc. unfold replay_step. cbn [a_room set_record].
  destruct (decide (room_name = name)); [|done]. destruct (logged recs name) as [m T].
  rewrite change_of_set_record. unfold wrap32. by rewrite Z.mod_small by ulia.
Qed.

Lemma logged_del recs room_name key v name :
  logged (recs ++ [del_record room_name key v]) name
  = if decide (room_name = name) then
      (delete key (logged recs name).1,
       tombed key (Version (normalize (v_ts v)) (v_node v)) 0 (logged recs name).2)
    else logged recs name.
Proof.
  rewrite logged_snoc. unfold replay_step. cbn [a_room del_record].
  destruct (decide (room_name = name)); [|done]. rewrite change_of_del_record.
  by destruct (logged recs name) as [m T].
Qed.

End logged.

(** ** Writers *)

(** What a dump may change: the temporary file, and a corrupt snapshot. *)
Record dumping (s s' : shared) : Prop := {
  du_cold : cold s' = cold s;
  du_met : met s' = met s;
  du_crdt : crdt s' = crdt s;
  du_file : aof_file (aof s') = aof_file (aof s);
  du_size : size_ (aof s') = size_ (aof s);
  du_torn : torn (aof s') = torn (aof s);
  du_snaps : ∀ name, snaps s' !! name = snaps s !! name ∨ snaps s' !! name = None
}.

Global Instance dumping_preorder : PreOrder dumping.
Proof.
  split; [split; auto|]. intros s1 s2 s3 [] []. split; try congruence. intros name.
  destruct (du_snaps0 name) as [H1|H1], (du_snaps1 name) as [H2|H2]; rewrite H2; auto.
Qed.

(** The same with every snapshot in place. *)
Definition dumped (s s' : shared) : Prop := dumping s s' ∧ snaps s' = snaps s.

Global Instance dumped_preorder : PreOrder dumped.
Proof.
  split; [by split|]. intros s1 s2 s3 [H1 E1] [H2 E2]. split; [by trans s2|congruence].
Qed.

Lemma tmp_only_dumped s s' : tmp_only s s' → dumped s s'.
Proof.
  intros [[] ? ? ?]. split; [|done]. split; try done. intros name. left. congruence.
Qed.

Lemma tick_dumped n s : dumped s (upd_sys_tick n s).
Proof. split; [|done]. split; auto. Qed.

Class AofWriter `{World} {W : Type} (write : AofRecord → W → M shared (bool * W)) := {
  written : W → list AofRecord → shared → Prop;
  written_tick : ∀ w recs s s', written w recs s → rewrite_file (aof s') = rewrite_file (aof s) →
    written w recs s';
  write_spec : ∀ rec w recs s, written w recs s →
    wp (write rec w) (λ r s', dumped s s' ∧ (r.1 = true → written r.2 (recs ++ [rec]) s')) s
}.

Section dump.
  Context `{World} {W : Type} (write : AofRecord → W → M shared (bool * W)) `{!AofWriter write}.

(** The state of a dump: what was written so far, if nothing failed. *)
Definition sofar (acc : bool * W) (L : bytes → gmap bytes record * gmap bytes version) (s : shared) : Prop :=
  acc.1 = true → ∃ recs, written acc.2 recs s ∧ ∀ name, logged recs name = L name.

Definition put_entry (now : Z) (room_name key : bytes) (r : record)
    (L : bytes → gmap bytes record * gmap bytes version) (name : bytes) : gmap bytes record * gmap bytes version :=
  if bool_decide (room_name = name) && negb (expired r now)
  then (<[key := reload r]> (L name).1, (L name).2) else L name.

Lemma emit_spec now room_name key r acc L s :
  wf_record r → sofar acc L s →
  wp (emit write now room_name key r acc) (λ acc' s', dumped s s' ∧
    sofar acc' (put_entry now room_name key r L) s') s.
Proof.
  intros Hwf Hs. unfold emit, sofar. destruct acc as [[|] w]; cbn [andb fst snd].
  2:{ apply wp_ret. by split. }
  destruct (Hs eq_refl) as (recs & Hw & HL). destruct (expired r now) eqn:E; cbn [negb].
  - apply wp_ret. split; [done|]. intros _. exists recs. split; [done|]. intros name. unfold put_entry.
    rewrite E, andb_false_r. apply HL.
  - eapply wp_mono; [by apply write_spec|]. intros acc' s' [Hd Hok]. split; [done|]. intros Hacc.
    exists (recs ++ [set_record room_name key r]). split; [by apply Hok|]. intros name. unfold put_entry.
    rewrite logged_set, HL, E, andb_true_r by done. case_bool_decide; [by rewrite decide_True|by rewrite decide_False].
Qed.

(** The live records of the table [t] were written over what was there. *)
Definition over (now : Z) (t : bytes → bytes → option record)
    (L L' : bytes → gmap bytes record * gmap bytes version) : Prop :=
  ∀ name, (L' name).2 = (L name).2 ∧ ∀ key, (L' name).1 !! key =
    match live now (t name key) with Some r => Some (reload r) | None => (L name).1 !! key end.

Lemma over_none now t L : (∀ name key, t name key = None) → over now t L L.
Proof. intros Ht name. split; [done|]. intros key. by rewrite Ht. Qed.

Lemma over_entry now room_name key r L :
  over now (λ n k, if decide ((n, k) = (room_name, key)) then Some r else None) L (put_entry now room_name key r L).
Proof.
  intros name. unfold put_entry. split; [by destruct (_ && _)|]. intros k.
  destruct (decide ((name, k) = (room_name, key))) as [[= -> ->]|Hne].
  - rewrite bool_decide_true by done. cbn. destruct (expired r now); cbn; [done|]. apply lookup_insert_eq.
  - cbn. case_bool_decide as Hn; [|done]. subst name. destruct (negb _); [|done]. cbn.
    apply lookup_insert_ne. congruence.
Qed.

(** Two disjoint tables, one after the other. *)
Lemma over_trans now t1 t2 t L L1 L2 :
  (∀ n k, t1 n k = None ∨ t2 n k = None) →
  (∀ n k, t n k = match t2 n k with Some r => Some r | None => t1 n k end) →
  over now t1 L L1 → over now t2 L1 L2 → over now t L L2.
Proof.
  intros Hdis Ht H1 H2 name. destruct (H1 name) as [E1 K1], (H2 name) as [E2 K2]. split; [congruence|].
  intros key. rewrite K2, K1, Ht. destruct (t2 name key) as [r|] eqn:E; cbn; [|done].
  destruct (expired r now); [|done]. by destruct (Hdis name key) as [->|]; [|congruence].
Qed.

Lemma sofar_same acc L s s' :
  rewrite_file (aof s') = rewrite_file (aof s) → sofar acc L s → sofar acc L s'.
Proof. intros Hr Hs Hok. destruct (Hs Hok) as (recs & Hw & HL). exists recs. split; [|done]. by eapply written_tick. Qed.

(** The keys of one room. *)
Lemma emit_all now room_name (l : list (bytes * record)) acc L s :
  NoDup l.*1 → Forall (λ p, wf_record p.2) l → sofar acc L s →
  wp (fold_m l acc (λ acc p, emit write now room_name p.1 p.2 acc)) (λ acc' s', dumped s s' ∧
    ∃ L', sofar acc' L' s'
      ∧ over now (λ n k, if decide (n = room_name) then (list_to_map l : gmap bytes record) !! k else None) L L') s.
Proof.
  revert acc L s. induction l as [|[key r] l IH]; intros acc L s Hnd Hwf Hs; cbn [fold_m].
  - apply wp_ret. split; [done|]. exists L. split; [done|]. apply over_none. intros n k. by destruct (decide _).
  - apply NoDup_cons in Hnd as [Hnot Hnd]. apply Forall_cons in Hwf as [Hr Hwf].
    apply wp_bind. eapply wp_mono; [by apply emit_spec|]. intros acc1 s1 [Hd1 Hs1].
    eapply wp_mono; [by apply IH|]. intros acc2 s2 [Hd2 (L2 & Hs2 & Hput)].
    split; [by trans s1|]. exists L2. split; [done|].
    eapply over_trans; [| |apply over_entry|exact Hput]; intros n k; cbn beta; cbn [fst snd].
    + destruct (decide ((n, k) = _)) as [[= -> ->]|]; [right|by left]. rewrite decide_True by done.
      by apply not_elem_of_list_to_map_1.
    + change (list_to_map ((key, r) :: l)) with (<[key := r]> (list_to_map l : gmap bytes record)).
      destruct (decide (n = room_name)) as [->|Hn]; [|by rewrite decide_False by congruence].
      destruct (decide (k = key)) as [->|Hk].
      * by rewrite lookup_insert_eq, decide_True, not_elem_of_list_to_map_1.
      * rewrite lookup_insert_ne, (decide_False (P := (_, _) = _)) by congruence. by destruct (_ !! k).
Qed.

(** The table a dump reads for a room. *)
Definition snap_table (name : bytes) (s : shared) : gmap bytes record :=
  match snaps s !! name with Some data => default ∅ (parse_snapshot data) | None => ∅ end.

Definition room_table (name : bytes) (r : room) (s : shared) : gmap bytes record :=
  if decide (state r = Sleeping) then snap_table name s else keys r.

Lemma read_snapshot_spec name s :
  wp (read_snapshot name) (λ p s', dumping s s' ∧ rewrite_file (aof s') = rewrite_file (aof s)
    ∧ (p.1 = true → snaps s' = snaps s ∧ p.2 = snap_table name s ∧ map_Forall (λ _ r, wf_record r) p.2)) s.
Proof.
  unfold read_snapshot, has_snapshot. apply wp_bind, wp_gets. unfold snap_table.
  destruct (snaps s !! name) as [data|] eqn:Hs.
  2:{ rewrite bool_decide_false by (by intros [? [=]]). apply wp_ret. split; [done|]. split; [done|].
      intros _. split; [done|]. split; [done|apply map_Forall_empty]. }
  rewrite bool_decide_true by done. cbn [negb]. apply wp_zoom, wp_bind.
  eapply wp_mono; [apply wakeup_room_spec|]. intros woke c' [n Hc]. apply wp_bind, wp_get_room, wp_ret.
  cbn [c_sh fst snd] in *. destruct woke.
  - destruct Hc as (data' & m & Hd & Hp & Hwf & ->). cbn [c_sh c_room upd_c_sh upd_c_room].
    rewrite Hs in Hd. injection Hd as <-. split; [apply tick_dumped|]. split; [done|]. intros _.
    split; [done|]. split; [by rewrite Hp|done].
  - split; [|split; [|done]]; destruct Hc as [->|(data' & Hd & Hp & ->)]; try done.
    + apply tick_dumped.
    + split; try done. intros name'. cbn. destruct (decide (name' = name)) as [->|Hne].
      * right. apply lookup_delete_eq.
      * left. by apply lookup_delete_ne.
Qed.

Lemma emit_failed now name (l : list (bytes * record)) w :
  fold_m l (false, w) (λ acc p, emit write now name p.1 p.2 acc) = ret (false, w).
Proof. by induction l as [|p l IH]. Qed.

Lemma dump_room_spec now name r w L s :
  map_Forall (λ _ x, wf_record x) (keys r) → sofar (true, w) L s →
  wp (dump_room write now name r w) (λ acc s', dumping s s' ∧ (acc.1 = true → snaps s' = snaps s)
    ∧ ∃ L', sofar acc L' s' ∧
        (acc.1 = true → over now (λ n k, if decide (n = name) then room_table name r s !! k else None) L L')) s.
Proof.
  intros Hwf Hs. unfold dump_room. apply wp_bind.
  eapply (wp_mono _ (λ p s', dumping s s' ∧ rewrite_file (aof s') = rewrite_file (aof s)
    ∧ (p.1 = true → snaps s' = snaps s ∧ p.2 = room_table name r s ∧ map_Forall (λ _ r, wf_record r) p.2))).
  { unfold room_table. destruct (decide (state r = Sleeping)); [apply read_snapshot_spec|].
    by apply wp_ret. }
  intros [ok m] s1 (Hd1 & Hrw1 & Hok1). apply wp_bind, wp_interact. cbn [fst snd] in *.
  destruct ok.
  2:{ rewrite emit_failed. apply wp_ret. split; [by trans s1; [|apply tick_dumped]|]. split; [done|].
      by exists L. }
  destruct (Hok1 eq_refl) as (Hsn1 & -> & Hwf1). eapply wp_mono.
  { apply (emit_all now name _ _ L); [apply traverse_NoDup| |by eapply sofar_same].
    apply Forall_forall. intros [k x] Hx%traverse_lookup. by apply (Hwf1 k x). }
  intros acc s2 [[Hd2 Hsn2] (L2 & Hs2 & Ho2)]. rewrite traverse_map in Ho2.
  split; [trans s1; [done|]; by trans (upd_sys_tick S s1); [apply tick_dumped|]|].
  split; [intros _; rewrite Hsn2; exact Hsn1|]. exists L2. by split.
Qed.

(** The rooms of a registry, in any order. *)
Lemma dump_rooms_spec now l w L s :
  NoDup l.*1 → Forall (λ p, map_Forall (λ _ x, wf_record x) (keys p.2)) l → sofar (true, w) L s →
  wp (dump_rooms write now l w) (λ acc s', dumping s s' ∧ (acc.1 = true → snaps s' = snaps s)
    ∧ ∃ L', sofar acc L' s' ∧ (acc.1 = true → over now (λ n k,
        match (list_to_map l : gmap bytes room) !! n with
        | Some r => room_table n r s !! k | None => None end) L L')) s.
Proof.
  revert w L s. induction l as [|[name r] l IH]; intros w L s Hnd Hwf Hs; cbn [dump_rooms].
  - apply wp_ret. split; [done|]. split; [done|]. exists L. split; [done|]. intros _.
    apply over_none. intros n k. cbn. by rewrite lookup_empty.
  - apply NoDup_cons in Hnd as [Hnot Hnd]. apply Forall_cons in Hwf as [Hr Hwf].
    apply wp_bind. eapply wp_mono; [by apply dump_room_spec|].
    intros [ok w1] s1 (Hd1 & Hsn1 & L1 & Hs1 & Ho1). cbn [fst snd] in *. destruct ok; cbn [negb].
    2:{ apply wp_ret. split; [done|]. split; [done|]. by exists L1. }
    specialize (Hsn1 eq_refl). specialize (Ho1 eq_refl).
    eapply wp_mono; [by apply IH|]. intros acc s2 (Hd2 & Hsn2 & L2 & Hs2 & Ho2).
    split; [by trans s1|]. split; [intros Hok; by rewrite Hsn2|]. exists L2. split; [done|]. intros Hok.
    eapply over_trans; [| |exact Ho1|by apply Ho2]; intros n k; cbn beta.
    + destruct (decide (n = name)) as [->|]; [right|by left]. by rewrite not_elem_of_list_to_map_1.
    + change (list_to_map ((name, r) :: l)) with (<[name := r]> (list_to_map l : gmap bytes room)).
      destruct (decide (n = name)) as [->|Hn].
      * by rewrite lookup_insert_eq, not_elem_of_list_to_map_1.
      * rewrite lookup_insert_ne by done. destruct (_ !! n) as [r'|]; [|done].
        unfold room_table, snap_table. rewrite Hsn1. by destruct (_ !! k).
Qed.

(** The entries of the cold storage. *)
Definition entry_table (c : cold_state) (l : list (bytes * bytes * cold_ref)) (name key : bytes) : option record :=
  (λ ref, decode_cold (slice (cold_file c) ref)) <$> (list_to_map l : gmap (bytes * bytes) cold_ref) !! (name, key).

Lemma dump_entries_spec now l acc L s :
  NoDup l.*1 → Forall (entry_of (cold s)) l → cold_ok (cold s) → sofar acc L s →
  wp (for_each_entry l (emit write now) acc) (λ p s', dumped s s'
    ∧ ∃ L', sofar p.2 L' s' ∧ (p.1 = true → over now (entry_table (cold s) l) L L')) s.
Proof.
  intros Hnd Hall Hco. revert acc L s Hall Hco. induction l as [|[[name key] ref] l IH]; intros acc L s Hall Hco Hs;
    cbn [for_each_entry].
  - apply wp_ret. split; [done|]. exists L. split; [done|]. intros _. apply over_none.
    intros n k. unfold entry_table. cbn. by rewrite lookup_empty.
  - apply NoDup_cons in Hnd as [Hnot Hnd]. apply Forall_cons in Hall as [He Hall].
    apply wp_bind. pose proof (read_ref_spec s ref) as Hread. unfold wp at 1.
    destruct (read_ref ref s) as [[ok raw] s1]. destruct Hread as (-> & Hraw & _). cbn [fst snd].
    destruct ok; cbn [negb].
    2:{ apply wp_ret. split; [apply tick_dumped|]. exists L. split; [by eapply sofar_same; [|exact Hs]|done]. }
    destruct (Hraw eq_refl) as [Hslice Hlen]. pose proof (co_ref _ Hco _ _ _ He) as [Hhdr _].
    assert (Hs1 : sofar acc L (upd_sys_tick S s)) by (by eapply sofar_same; [|exact Hs]).
    apply wp_bind. eapply wp_mono; [apply (emit_spec now name key _ _ L); [apply decode_wf; rewrite Hlen; exact Hhdr|done]|].
    intros acc1 s2 [Hd2 Hs2]. pose proof (du_cold _ _ (proj1 Hd2)) as Hc2. cbn in Hc2.
    eapply wp_mono; [apply IH; [done|by rewrite Hc2|by rewrite Hc2|exact Hs2]|].
    intros [read acc2] s3 [Hd3 (L3 & Hs3 & Ho3)].
    split; [trans s2; [|done]; by trans (upd_sys_tick S s); [apply tick_dumped|]|].
    exists L3. split; [done|]. intros Hok. specialize (Ho3 Hok). rewrite Hc2 in Ho3.
    eapply over_trans; [| |apply over_entry|exact Ho3]; intros n k; cbn beta; unfold entry_table.
    + destruct (decide ((n, k) = _)) as [[= -> ->]|]; [right|by left]. by rewrite not_elem_of_list_to_map_1.
    + change (list_to_map ((name, key, ref) :: l)) with (<[(name, key) := ref]> (list_to_map l : gmap (bytes * bytes) cold_ref)).
      destruct (decide ((n, k) = (name, key))) as [[= -> ->]|Hne].
      * rewrite lookup_insert_eq, not_elem_of_list_to_map_1 by done. cbn. by rewrite Hslice.
      * rewrite lookup_insert_ne by done. by destruct (_ !! _).
Qed.

Lemma dump_cold_spec now acc L s :
  cold_ok (cold s) → sofar acc L s →
  wp (for_each_cold (emit write now) acc) (λ p s', dumped s s'
    ∧ ∃ L', sofar p.2 L' s' ∧ (p.1 = true → over now (λ n k, cold_view (cold s) n !! k) L L')) s.
Proof.
  intros Hco Hs. unfold for_each_cold. apply wp_bind. destruct (index_entries_spec s) as [n Hn].
  unfold wp at 1. destruct (index_entries s) as [l s1]. destruct Hn as (-> & Hin & Hnd). cbn [fst snd].
  eapply wp_mono; [apply (dump_entries_spec now l acc L); try done|].
  - apply Forall_forall. intros e He. by apply Hin.
  - by eapply sofar_same; [|exact Hs].
  - intros [read acc'] s' [Hd (L' & Hs' & Ho)].
    split; [by trans (upd_sys_tick (λ _, n) s); [apply tick_dumped|]|]. exists L'. split; [done|]. intros Hok.
    intros name. destruct (Ho Hok name) as [HT Hk]. split; [done|]. intros key. rewrite Hk.
    unfold entry_table. rewrite cold_view_lookup. cbn [cold upd_sys_tick].
    assert (Hl : (list_to_map l : gmap (bytes * bytes) cold_ref) !! (name, key) = find_ref name key (cold s));
      [|by rewrite Hl].
    destruct (find_ref name key (cold s)) as [ref|] eqn:Hf.
    + apply elem_of_list_to_map; [done|]. by apply Hin.
    + apply not_elem_of_list_to_map_1. intros ([[n' k'] ref] & [= <- <-] & He)%list_elem_of_fmap.
      apply Hin in He. unfold entry_of in He. cbn in He. congruence.
Qed.

(** The tombstones follow: each one erases its key and is buried again. *)
Definition bury (v : version) : version := Version (normalize (v_ts v)) (v_node v).

Definition buried_over (t : bytes → gmap bytes version)
    (L L' : bytes → gmap bytes record * gmap bytes version) : Prop :=
  ∀ name key, (L' name).1 !! key = (if decide (is_Some (t name !! key)) then None else (L name).1 !! key)
    ∧ (L' name).2 !! key = match t name !! key with
        | Some v => (if decide (peer_count ≠ 0%nat ∧ 0 < v_ts (bury v)) then
            Some (match (L name).2 !! key with Some o => version_max o (bury v) | None => bury v end)
            else (L name).2 !! key)
        | None => (L name).2 !! key end.

Lemma buried_one name key v L :
  buried_over (λ n, if decide (n = name) then {[ key := v ]} else ∅) L
    (λ n, if decide (n = name) then (delete key (L n).1, tombed key (bury v) 0 (L n).2) else L n).
Proof.
  intros n k. destruct (decide (n = name)) as [->|Hn]; cbn [fst snd].
  2:{ rewrite !lookup_empty. by rewrite decide_False by (by intros [? [=]]). }
  destruct (decide (k = key)) as [->|Hk].
  - rewrite lookup_singleton_eq, decide_True by done. split; [apply lookup_delete_eq|]. unfold tombed.
    destruct (decide _) as [Hd|Hd]; [|done]. apply lookup_insert_eq.
  - rewrite lookup_singleton_ne by done. rewrite decide_False by (by intros [? [=]]).
    split; [by apply lookup_delete_ne|]. unfold tombed. destruct (decide _); [|done]. by apply lookup_insert_ne.
Qed.

Lemma bury_entry acc name key v L s :
  sofar acc L s →
  wp (if acc.1 : bool then write (del_record name key v) acc.2 else ret acc) (λ acc' s', dumped s s'
    ∧ ∃ L', sofar acc' L' s' ∧ buried_over (λ n, if decide (n = name) then {[ key := v ]} else ∅) L L') s.
Proof.
  intros Hs. destruct acc as [[|] w]; cbn [fst snd].
  2:{ apply wp_ret. split; [done|].
      exists (λ n, if decide (n = name) then (delete key (L n).1, tombed key (bury v) 0 (L n).2) else L n).
      split; [done|apply buried_one]. }
  destruct (Hs eq_refl) as (recs & Hw & HL). eapply wp_mono; [by apply write_spec|].
  intros acc' s' [Hd Hok]. split; [done|].
  exists (λ n, if decide (n = name) then (delete key (L n).1, tombed key (bury v) 0 (L n).2) else L n).
  split; [|apply buried_one]. intros Hacc. exists (recs ++ [del_record name key v]). split; [by apply Hok|].
  intros n. rewrite logged_del, HL. apply decide_ext. naive_solver.
Qed.

Lemma buried_none t L : (∀ n, t n = ∅) → buried_over t L L.
Proof.
  intros Ht n k. rewrite Ht, lookup_empty. by rewrite decide_False by (by intros [? [=]]).
Qed.

Lemma buried_trans t1 t2 t L L1 L2 :
  (∀ n k, t1 n !! k = None ∨ t2 n !! k = None) →
  (∀ n k, t n !! k = match t2 n !! k with Some v => Some v | None => t1 n !! k end) →
  buried_over t1 L L1 → buried_over t2 L1 L2 → buried_over t L L2.
Proof.
  intros Hdis Ht H1 H2 n k. destruct (H1 n k) as [K1 T1], (H2 n k) as [K2 T2]. rewrite Ht.
  destruct (t2 n !! k) as [v|] eqn:E.
  - assert (E1 : t1 n !! k = None) by (destruct (Hdis n k); congruence). rewrite E1 in *.
    rewrite decide_True in K2 |- * by done. rewrite K2, T2, T1. done.
  - rewrite decide_False in K2 by (by intros [? [=]]). by rewrite K2, T2, K1, T1.
Qed.

Lemma dump_tombs_room acc name (l : list (bytes * version)) L s :
  NoDup l.*1 → sofar acc L s →
  wp (fold_m l acc (λ acc q, if acc.1 : bool then write (del_record name q.1 q.2) acc.2 else ret acc))
    (λ acc' s', dumped s s' ∧ ∃ L', sofar acc' L' s'
      ∧ buried_over (λ n, if decide (n = name) then list_to_map l else ∅) L L') s.
Proof.
  revert acc L s. induction l as [|[key v] l IH]; intros acc L s Hnd Hs; cbn [fold_m].
  - apply wp_ret. split; [done|]. exists L. split; [done|]. apply buried_none. intros n. by destruct (decide _).
  - apply NoDup_cons in Hnd as [Hnot Hnd]. apply wp_bind. eapply wp_mono; [by apply bury_entry|].
    intros acc1 s1 [Hd1 (L1 & Hs1 & Hb1)]. eapply wp_mono; [by apply IH|].
    intros acc2 s2 [Hd2 (L2 & Hs2 & Hb2)]. split; [by trans s1|]. exists L2. split; [done|].
    eapply buried_trans; [| |exact Hb1|exact Hb2]; intros n k; cbn beta; cbn [fst snd] in *;
      change (list_to_map ((key, v) :: l)) with (<[key := v]> (list_to_map l : gmap bytes version));
      (destruct (decide (n = name)); [|rewrite !lookup_empty; auto]);
      (destruct (decide (k = key)) as [->|Hk];
        [rewrite ?lookup_singleton_eq, ?lookup_insert_eq, not_elem_of_list_to_map_1 by done
        |rewrite ?lookup_singleton_ne, ?lookup_insert_ne by done]); auto.
    by destruct (_ !! k).
Qed.

Lemma dump_tombs_rooms (acc : bool * W) (l : list (bytes * gmap bytes version))
    (L : bytes → gmap bytes record * gmap bytes version) (s : shared) :
  NoDup l.*1 → sofar acc L s →
  wp (fold_m l acc (λ acc p,
    let* inner := interact (λ k, traverse k p.2) in
    fold_m inner acc (λ acc q, if acc.1 : bool then write (del_record p.1 q.1 q.2) acc.2 else ret acc)))
    (λ acc' s', dumped s s' ∧ ∃ L', sofar acc' L' s'
      ∧ buried_over (λ n, default ∅ ((list_to_map l : gmap bytes (gmap bytes version)) !! n)) L L') s.
Proof.
  revert acc L s. induction l as [|[name m] l IH]; intros acc L s Hnd Hs; cbn [fold_m].
  - apply wp_ret. split; [done|]. exists L. split; [done|]. apply buried_none. intros n. cbn.
    by rewrite lookup_empty.
  - apply NoDup_cons in Hnd as [Hnot Hnd]. apply wp_bind, wp_bind, wp_interact. cbn [fst snd] in *.
    eapply wp_mono; [apply (dump_tombs_room _ _ _ L); [apply traverse_NoDup|by eapply sofar_same; [|exact Hs]]|].
    intros acc1 s1 [Hd1 (L1 & Hs1 & Hb1)]. rewrite traverse_map in Hb1.
    eapply wp_mono; [by apply IH|]. intros acc2 s2 [Hd2 (L2 & Hs2 & Hb2)].
    split; [trans s1; [by trans (upd_sys_tick S s); [apply tick_dumped|]|done]|]. exists L2. split; [done|].
    eapply buried_trans; [| |exact Hb1|exact Hb2]; intros n k; cbn beta;
      change (list_to_map ((name, m) :: l)) with (<[name := m]> (list_to_map l : gmap bytes (gmap bytes version)));
      (destruct (decide (n = name)) as [->|Hn];
        [rewrite ?lookup_insert_eq, not_elem_of_list_to_map_1 by done; cbn; rewrite ?lookup_empty
        |rewrite ?lookup_insert_ne, ?lookup_empty by done]); auto.
    by destruct (default ∅ _ !! k).
Qed.

Lemma dump_tombs_spec (acc : bool * W) (L : bytes → gmap bytes record * gmap bytes version) (s : shared) :
  sofar acc L s →
  wp (dump_tombs write acc) (λ acc' s', dumped s s' ∧ ∃ L', sofar acc' L' s'
    ∧ buried_over (λ n, tombs_of (crdt s) n) L L') s.
Proof.
  intros Hs. unfold dump_tombs. apply wp_bind, wp_gets, wp_bind, wp_interact.
  eapply wp_mono; [apply (dump_tombs_rooms _ _ L); [apply traverse_NoDup|by eapply sofar_same; [|exact Hs]]|].
  intros acc' s' [Hd (L' & Hs' & Hb)]. rewrite traverse_map in Hb.
  split; [by trans (upd_sys_tick S s); [apply tick_dumped|]|]. by exists L'.
Qed.

(** A failed dump stays failed. *)
Lemma fold_failed {A} (l : list A) (body : bool * W → A → M shared (bool * W)) (acc : bool * W) (s : shared) :
  (∀ acc x s, acc.1 = false → wp (body acc x) (λ acc' _, acc'.1 = false) s) →
  acc.1 = false → wp (fold_m l acc body) (λ acc' _, acc'.1 = false) s.
Proof.
  intros Hb. revert acc s. induction l as [|x l IH]; intros acc s Ha; cbn [fold_m]; [by apply wp_ret|].
  apply wp_bind. eapply wp_mono; [by apply Hb|]. intros acc' s' Ha'. by apply IH.
Qed.

Lemma dump_tombs_failed (acc : bool * W) (s : shared) :
  acc.1 = false → wp (dump_tombs write acc) (λ acc' _, acc'.1 = false) s.
Proof.
  intros Ha. unfold dump_tombs. apply wp_bind, wp_gets, wp_bind, wp_interact, fold_failed; [|done].
  clear acc Ha s. intros acc x s Ha. apply wp_bind, wp_interact, fold_failed; [|done].
  clear acc Ha s. intros acc y s Ha. rewrite Ha. by apply wp_ret.
Qed.

(** *** The whole dump *)

(** Where a key is stored: in its room or the snapshot of its room, or cold. *)
Definition stored (d : db) (name key : bytes) : option record :=
  match room_table name (room_of name d) (db_sh d) !! key with
  | Some r => Some r
  | None => cold_view (cold (db_sh d)) name !! key
  end.

Lemma stored_once d name :
  db_ok d → room_table name (room_of name d) (db_sh d) ##ₘ cold_view (cold (db_sh d)) name.
Proof.
  intros Hok. unfold room_table, snap_table. destruct (decide _) as [Hst|Hst].
  - destruct (snaps _ !! name) as [data|] eqn:Hd; [|apply map_disjoint_empty_l].
    destruct (parse_snapshot data) as [m|] eqn:Hp; [|apply map_disjoint_empty_l].
    by apply (dk_asleep _ Hok name Hst data).
  - apply (dk_disj _ Hok name).
Qed.

(** A room that is not in the registry has nothing but its snapshot: the dump
    does not see it. *)
Definition seen (d : db) (name key : bytes) : option record :=
  match rooms d !! name with
  | Some _ => stored d name key
  | None => cold_view (cold (db_sh d)) name !! key
  end.

Lemma dump_state_spec d w L :
  db_ok d → sofar (true, w) L (db_sh d) →
  wp (dump_state write (rooms d) w) (λ acc s', dumping (db_sh d) s' ∧ ∃ L', sofar acc L' s'
    ∧ (acc.1 = true → snaps s' = snaps (db_sh d) ∧ ∃ L1 now, reading now
       ∧ over now (seen d) L L1 ∧ buried_over (tombs_of (crdt (db_sh d))) L1 L')) (db_sh d).
Proof.
  intros Hok Hs. unfold dump_state. apply wp_bind, wp_now, wp_bind, wp_interact.
  match goal with |- wp _ _ ?x => set (s0 := x) end.
  assert (D0 : dumped (db_sh d) s0) by (split; [by split; auto|done]).
  set (now := _ + _). apply wp_bind. eapply wp_mono.
  { apply (dump_rooms_spec now _ w L); [apply traverse_NoDup| |by eapply sofar_same; [|exact Hs]].
    apply Forall_forall. intros [n r] Hr%traverse_lookup. apply (rk_wf r), (dk_rooms _ Hok n r Hr). }
  intros [ok w1] s1 (Hd1 & Hsn1 & L1 & Hs1 & Ho1). cbn [fst snd] in *. destruct ok; cbn [negb].
  2:{ apply wp_ret. split; [trans s0; [apply D0|done]|]. exists L1. by split. }
  specialize (Hsn1 eq_refl). specialize (Ho1 eq_refl). rewrite traverse_map in Ho1.
  assert (Hc1 : cold s1 = cold (db_sh d)) by (by rewrite (du_cold _ _ Hd1)).
  apply wp_bind. eapply wp_mono; [apply (dump_cold_spec now _ L1); [rewrite Hc1; apply Hok|done]|].
  intros [read acc] s2 (Hd2 & L2 & Hs2 & Ho2). cbn [fst snd] in *.
  assert (Hcr2 : crdt s2 = crdt (db_sh d)).
  { by rewrite (du_crdt _ _ (proj1 Hd2)), (du_crdt _ _ Hd1). }
  eapply wp_mono; [apply wp_and; [apply (dump_tombs_spec _ L2)|]|].
  { intros [Ha Hr]%andb_true_iff. by apply Hs2. }
  { instantiate (1 := λ acc' _, acc'.1 = true → acc.1 && read = true). destruct (acc.1 && read) eqn:E.
    - unfold wp. by intros.
    - eapply wp_mono; [by apply dump_tombs_failed|]. cbn. congruence. }
  intros acc3 s3 [[Hd3 (L3 & Hs3 & Hb3)] Hboth]. rewrite Hcr2 in Hb3.
  split; [trans s0; [apply D0|]; trans s1; [done|]; trans s2; [apply Hd2|apply Hd3]|].
  exists L3. split; [done|]. intros Hacc3. destruct (andb_prop _ _ (Hboth Hacc3)) as [_ Hread].
  specialize (Ho2 Hread). rewrite Hc1 in Ho2.
  split; [by rewrite (proj2 Hd3), (proj2 Hd2)|]. exists L2, now. split; [by eexists|]. split; [|done].
  assert (Hst : ∀ n r, rooms d !! n = Some r →
    room_table n r s0 = room_table n (room_of n d) (db_sh d)).
  { intros n r Hr. unfold room_of. rewrite Hr. done. }
  eapply over_trans; [| |exact Ho1|exact Ho2]; intros n k; cbn beta; unfold seen.
  - destruct (rooms d !! n) as [r|] eqn:Hr; [|by left]. rewrite (Hst n r) by done.
    destruct (room_table _ _ _ !! k) eqn:E1; [right|by left].
    by apply (map_disjoint_Some_l _ _ _ _ (stored_once d n Hok) E1).
  - destruct (rooms d !! n) as [r|] eqn:Hr; [|by destruct (cold_view _ _ !! k)]. rewrite (Hst n r) by done.
    unfold stored. pose proof (stored_once d n Hok) as Hdis.
    destruct (room_table _ _ _ !! k) eqn:E1; [|by destruct (cold_view _ _ !! k)].
    by rewrite (map_disjoint_Some_l _ _ _ _ Hdis E1).
Qed.
End dump.

(** ** The two writers *)

Section rewrite.
  Context `{World}.

#[export, refine] Instance rewrite_writer_ok : AofWriter rewrite_writer := {
  written _ recs s := rewrite_file (aof s) = Some (log_bytes recs)
}.
Proof.
  - intros [] recs s s' Hw ->. done.
  - intros rec [] recs s Hw. unfold rewrite_writer, append_rewrite. apply wp_bind.
    eapply wp_mono; [by apply write_rewrite_spec|]. intros b s' (Ht & _ & Hb). apply wp_ret.
    split; [by apply tmp_only_dumped|]. cbn. intros Hok. by rewrite Hb, log_bytes_snoc.
Defined.

#[export, refine] Instance child_writer_ok : AofWriter child_writer := {
  written buf recs s := ∃ file, rewrite_file (aof s) = Some file ∧ file ++ buf = log_bytes recs
}.
Proof.
  - intros buf recs s s' (file & Hw & Hb) Hs. exists file. by rewrite Hs.
  - intros rec buf recs s (file & Hf & Hb). unfold child_writer.
    assert (E : file ++ (buf ++ encode_record rec) = log_bytes (recs ++ [rec])).
    { by rewrite log_bytes_snoc, <- Hb, app_assoc. }
    destruct (_ <=? _).
    + apply wp_bind. eapply wp_mono; [by apply write_rewrite_spec|]. intros b s' (Ht & _ & Hok). apply wp_ret.
      split; [by apply tmp_only_dumped|]. cbn. intros Hb'. exists (file ++ (buf ++ encode_record rec)).
      split; [by apply Hok|]. by rewrite app_nil_r.
    + apply wp_ret. split; [done|]. intros _. by exists file.
Defined.

Lemma start_rewrite_spec s :
  rewrite_file (aof s) = None →
  wp start_rewrite (λ b s', dumped s s'
    ∧ rewrite_file (aof s') = if b then Some (log_bytes []) else None) s.
Proof.
  intros Hn. unfold start_rewrite. wp_run. rewrite Hn. wp_run. cbn [sys_tick upd_aof].
  destruct (succeeds (sys_tick s)); cbn [negb]; wp_run; [|by split; [split; [split; auto|]|]].
  match goal with |- context [write_at ?k [] kAofHeader] =>
    destruct (write_at_spec k [] kAofHeader) as (ok & w & -> & Hle & Hiff) end.
  wp_run. destruct ok; cbn [negb]; wp_run; (split; [split; [split; auto|done]|]); [|done].
  cbn. rewrite take_ge; [|by rewrite (proj1 Hiff)]. done.
Qed.

(** What [discard_active_snapshots] may change: the files of rooms in RAM. *)
Lemma discard_active_spec d :
  wp discard_active_snapshots (λ _ d', ∃ s', d' = upd_db_sh (λ _, s') d ∧ dumping (db_sh d) s'
    ∧ aof s' = aof (db_sh d)
    ∧ ∀ name, state (room_of name d) = Sleeping → snaps s' !! name = snaps (db_sh d) !! name) d.
Proof.
  unfold discard_active_snapshots. apply wp_bind, wp_gets, wp_bind, wp_dsh, wp_interact.
  match goal with |- wp (for_each ?l _) _ _ => set (ls := l) end.
  eapply wp_mono; [apply (wp_for_each _ _ (λ _ d', ∃ s', d' = upd_db_sh (λ _, s') d ∧ dumping (db_sh d) s'
    ∧ aof s' = aof (db_sh d)
    ∧ ∀ name, state (room_of name d) = Sleeping → snaps s' !! name = snaps (db_sh d) !! name))|by intros ? ? ?].
  - intros seen_ [n r] todo d1 Hl (s1 & -> & Hd1 & Ha1 & Hs1). unfold discard_if_active. cbn [fst snd].
    assert (Hr : rooms d !! n = Some r).
    { apply (traverse_lookup (sys_tick (db_sh d))). fold ls. rewrite Hl.
      apply elem_of_app. right. left. }
    apply wp_dsh. cbn [db_sh upd_db_sh].
    apply wp_when; [intros Hact%bool_decide_eq_true|by intros _; exists s1].
    unfold discard, has_snapshot. apply wp_bind, wp_gets. apply wp_when; [intros _|by intros _; exists s1].
    apply wp_bind, wp_syscall. apply wp_when; intros Hu.
    2:{ eexists. split; [done|]. split; [trans s1; [done|apply tick_dumped]|]. by split. }
    apply wp_modify. eexists. split; [done|]. split_and!; [|done|].
    + trans s1; [done|]. split; try done. intros name'. cbn.
      destruct (decide (name' = n)) as [->|Hne]; [right; apply lookup_delete_eq|left; by apply lookup_delete_ne].
    + intros name Hst. cbn. destruct (decide (name = n)) as [->|Hne]; [|by rewrite lookup_delete_ne, Hs1].
      exfalso. unfold room_of in Hst. by rewrite Hr in Hst.
  - exists (upd_sys_tick S (db_sh d)). split; [done|]. split; [apply tick_dumped|done].
Qed.

Lemma dumping_db_ok s' d : db_ok d → dumping (db_sh d) s' → db_ok (upd_db_sh (λ _, s') d).
Proof.
  intros [H1 H2 H3 H4 H5 H6 H7] Hd. pose proof Hd as [Hc Hm _ _ _ _ Hs]. split; cbn; rewrite ?Hc, ?Hm; try done.
  - intros name. unfold disjoint_ram. cbn. rewrite Hc. apply H6.
  - intros name Hst. eapply asleep_same; [apply Hs|by rewrite Hc|by apply H7].
Qed.

Lemma seen_same s' d :
  cold s' = cold (db_sh d) →
  (∀ name, state (room_of name d) = Sleeping → snaps s' !! name = snaps (db_sh d) !! name) →
  ∀ name key, seen (upd_db_sh (λ _, s') d) name key = seen d name key.
Proof.
  intros Hc Hs name key. unfold seen, stored, room_table, snap_table. cbn [rooms db_sh upd_db_sh]. rewrite Hc.
  destruct (rooms d !! name); [|done]. change (room_of name (upd_db_sh (λ _, s') d)) with (room_of name d).
  destruct (decide (state (room_of name d) = Sleeping)) as [Hst|]; [|done]. by rewrite Hs.
Qed.

(** The log of the whole state at [now]: the live keys and, with peers, the
    tombstones; a tombstone follows the value of its key. *)
Definition log_of (now : Z) (d : db) (recs : list AofRecord) : Prop :=
  ∀ name key,
    (logged recs name).1 !! key
    = (if decide (is_Some (tombs_of (crdt (db_sh d)) name !! key)) then None
       else reload <$> live now (seen d name key))
    ∧ (logged recs name).2 !! key
      = (v ← tombs_of (crdt (db_sh d)) name !! key;
         if decide (peer_count ≠ 0%nat ∧ 0 < v_ts (bury v)) then Some (bury v) else None).

Lemma log_of_dump now d L1 L2 recs :
  (∀ name, logged recs name = L2 name) →
  over now (seen d) (λ _, (∅, ∅)) L1 → buried_over (tombs_of (crdt (db_sh d))) L1 L2 → log_of now d recs.
Proof.
  intros HL Ho Hb name key. rewrite HL. destruct (Hb name key) as [-> ->], (Ho name) as [-> Hk].
  rewrite Hk. cbn [snd fst]. split.
  - destruct (decide _); [done|]. by destruct (live _ _); cbn; rewrite ?lookup_empty.
  - destruct (tombs_of _ _ !! key) as [v|]; cbn; [|done]. by destruct (decide _); rewrite ?lookup_empty.
Qed.

(** The dump of a database on an empty temporary file. *)
Lemma dump_log {W} (write : AofRecord → W → M shared (bool * W)) `{!AofWriter write} w d :
  db_ok d → written w [] (db_sh d) →
  wp (dump_state write (rooms d) w) (λ acc s', dumping (db_sh d) s'
    ∧ (acc.1 = true → snaps s' = snaps (db_sh d)
       ∧ ∃ recs now, reading now ∧ written acc.2 recs s' ∧ log_of now d recs)) (db_sh d).
Proof.
  intros Hok Hw. eapply wp_mono; [apply (dump_state_spec write d w (λ _, (∅, ∅))); [done|]|].
  - intros _. exists []. by split.
  - intros acc s' (Hd & L & Hs & Hb). split; [done|]. intros Hacc.
    destruct (Hb Hacc) as (Hsn & L1 & now & Hr & Ho & Hbury), (Hs Hacc) as (recs & Hwr & HL).
    split; [done|]. exists recs, now. split; [done|]. split; [done|]. by eapply log_of_dump.
Qed.

(** The state the rewrite starts from: the temporary file holds the header,
    the snapshots of the rooms in RAM may be gone, nothing else moved. *)
Record prepared (d d1 : db) : Prop := {
  pr_eq : d1 = upd_db_sh (λ _, db_sh d1) d;
  pr_dump : dumping (db_sh d) (db_sh d1);
  pr_seen : ∀ name key, seen d1 name key = seen d name key
}.

Lemma prepared_log now d d1 recs : prepared d d1 → log_of now d1 recs → log_of now d recs.
Proof.
  intros [_ Hd Hs] Hl name key. by rewrite <- (Hs name key), <- (du_crdt _ _ Hd).
Qed.

Lemma prepared_ok d d1 : prepared d d1 → db_ok d → db_ok d1.
Proof. intros [-> Hd _] Hok. by apply dumping_db_ok. Qed.

Lemma discard_prepared s1 d :
  dumped (db_sh d) s1 →
  wp discard_active_snapshots (λ _ d1, prepared d d1 ∧ aof (db_sh d1) = aof s1) (upd_db_sh (λ _, s1) d).
Proof.
  intros [Hd1 Hsn1]. eapply wp_mono; [apply discard_active_spec|].
  intros _ d1 (s2 & -> & Hd2 & Ha & Hsn2). split; [|done]. cbn [db_sh upd_db_sh] in *.
  assert (Hd : dumping (db_sh d) s2) by (by trans s1).
  split; [done|done|]. apply (seen_same s2 d); [by rewrite (du_cold _ _ Hd)|].
  intros name Hst. by rewrite Hsn2, Hsn1.
Qed.

End rewrite.

(** ** Properties *)

(** C15: [rewrite_aof] replaces the log by one that replays to the state: when
    the new file is in place its records, replayed on an empty database, give
    exactly the keys that are neither expired nor shadowed by a tombstone, with
    their values, deadlines and versions as [reload] normalizes them, and
    (with peers) the tombstones; an expired key is not written. Whatever fails
    on the way, the old file is still the log; the rooms, the cold storage,
    the tombstones and the clock never change. *)
Theorem rewrite_restores `{World} d :
  db_ok d → rewrite_file (aof (db_sh d)) = None →
  let '(ok, d') := rewrite_aof d in
  db_ok d' ∧ rooms d' = rooms d ∧ cold (db_sh d') = cold (db_sh d) ∧ crdt (db_sh d') = crdt (db_sh d)
  ∧ (aof_file (aof (db_sh d')) = aof_file (aof (db_sh d)) ∧ ok = false
     ∨ ∃ recs now, reading now ∧ aof_file (aof (db_sh d')) = Some (log_bytes recs)
       ∧ torn (aof (db_sh d')) = false ∧ log_of now d recs).
Proof.
  intros Hok Hnone.
  enough (Hw : wp rewrite_aof (λ ok d', db_ok d' ∧ rooms d' = rooms d
    ∧ cold (db_sh d') = cold (db_sh d) ∧ crdt (db_sh d') = crdt (db_sh d)
    ∧ (aof_file (aof (db_sh d')) = aof_file (aof (db_sh d)) ∧ ok = false
     ∨ ∃ recs now, reading now ∧ aof_file (aof (db_sh d')) = Some (log_bytes recs)
       ∧ torn (aof (db_sh d')) = false ∧ log_of now d recs)) d).
  { unfold wp in Hw. by destruct (rewrite_aof d). }
  unfold rewrite_aof. apply wp_bind, wp_dsh. eapply wp_mono; [by apply start_rewrite_spec|].
  intros b s1 [Hd1 Hr1]. destruct b; cbn [negb].
  2:{ apply wp_ret. split; [apply dumping_db_ok; [done|apply Hd1]|]. destruct Hd1 as [[] _].
      split_and!; try done. by left. }
  apply wp_bind. eapply wp_mono; [by apply discard_prepared|]. intros _ d1 [Hp Ha1].
  apply wp_bind, wp_gets, wp_bind, wp_dsh.
  eapply wp_mono; [apply (dump_log rewrite_writer); [by eapply prepared_ok|by cbn; rewrite Ha1]|].
  intros [done_ u] s2 [Hd2 Hlog]. cbn [fst snd] in *.
  assert (Hd : dumping (db_sh d) s2) by (trans (db_sh d1); [apply Hp|done]).
  assert (E1 : ∀ s, upd_db_sh (λ _, s) d1 = upd_db_sh (λ _, s) d).
  { intros s. by rewrite (pr_eq _ _ Hp). }
  rewrite E1. destruct done_; cbn [negb].
  - destruct (Hlog eq_refl) as (Hsn & recs & now & Hnow & Hw & Hl). cbn in Hw.
    apply wp_dsh. cbn [db_sh upd_db_sh]. eapply wp_mono; [by apply commit_rewrite_spec|].
    intros b s3 [Ho Hf]. pose proof (aof_only_quiet _ _ Ho) as Hq.
    split; [apply quiet_db_ok; [by apply dumping_db_ok|done]|]. split; [done|]. cbn [db_sh upd_db_sh].
    rewrite (ao_cold _ _ Ho), (ao_crdt _ _ Ho), (du_cold _ _ Hd), (du_crdt _ _ Hd). split; [done|]. split; [done|].
    destruct Hf as [(Hf & _ & _ & ->)|(Hf & Ht & _)]; [left|right].
    + by rewrite Hf, (du_file _ _ Hd).
    + exists recs, now. split_and!; try done. by eapply prepared_log.
  - apply wp_bind, wp_dsh. unfold abort_rewrite. wp_run. apply wp_ret.
    match goal with |- db_ok (upd_db_sh (λ _, ?x) _) ∧ _ => assert (Hq : dumping s2 x) by (split; auto) end.
    split; [apply (dumping_db_ok _ (upd_db_sh (λ _, s2) d)); [by apply dumping_db_ok|done]|].
    destruct Hd. split_and!; try done. by left.
Qed.

Lemma rewrite_restores_witness :
  let W := calm default_config 1000 in
  rooms (rewrite_aof one_key_db).2 = rooms one_key_db.
Proof.
  intros W. pose proof (rewrite_restores one_key_db one_key_db_ok eq_refl) as Hr.
  destruct (rewrite_aof one_key_db) as [ok d']. exact (proj1 (proj2 Hr)).
Defined.
