(* ===== verification/Database.v ===== *)
(** * The commands of a connection (src/core/database.cpp, Database::execute)

    The table of commands, their dispatch, and the commands of a connection
    that need no room. A reply comes with the messages PUBLISH hands to the
    sink, in order. *)

From stdpp Require Import gmap.
From S2P Require Import Prelude FsUtil Resp Config World Types State Cold Aof Keyspace Crdt Commands PubSub Rooms Persistence.

(** The reply of a command and what the message sink receives. *)
Definition output : Type := bytes * list (Z * bytes).
Definition only (reply : bytes) : output := (reply, []).

(** [Call]: its room pointer is the room [call_room]. *)
Record Call := Call_ {
  call_fd : Z;
  call_command : bytes;
  call_args : list bytes;
  call_room : bytes
}.

(** The gauges that INFO reads and other threads write: uptime, the sync
    thread's age, pending bytes, duration, overruns and whether it is inside
    [fdatasync], and the replication threads' report. *)
Record gauges := Gauges {
  g_uptime : Z;
  g_sync_age : Z;
  g_pending : Z;
  g_duration : Z;
  g_overruns : Z;
  g_inflight : Z;
  g_peers : bytes
}.

Section database.
  Context `{World}.
  (** The order of the sets of channels and of subscribers, and the gauges at
      each reading. *)
  Context (walk_channels : gset bytes → list bytes) (walk_fds : gset Z → list Z) (gauge : nat → gauges).

(** An action on the subscriptions. *)
Definition in_pubsub {A} (m : M pubsub A) : M db A := zoom pubsub_ (λ s, upd_pubsub (λ _, s)) m.

(** [Command]: its scope decides whether [run] holds a room's lock. *)
Inductive runner :=
  | OnConnection (m : Call → M db output)
  | InRoom (m : bool → Call → M ctx bytes).

Record Command := Command_ { pubsub_cmd : bool; run : runner }.

Definition handle_subscribe (fd : Z) (args : list bytes) : M db bytes :=
  if (length args <? 2)%nat then ret (reply "-ERR Wrong number of arguments for SUBSCRIBE") else
  let* resp3 := gets resp3_ in
  fold_m (drop 1 args) [] (λ replies channel,
    let* r := in_pubsub (subscribe fd channel resp3) in ret (replies ++ r)).

Definition handle_ping (fd : Z) (args : list bytes) : M db bytes :=
  if (2 <? length args)%nat then ret (reply "-ERR Wrong number of arguments for PING") else
  let* resp3 := gets resp3_ in
  let* subscribed := gets (λ d, is_subscribed fd (pubsub_ d)) in
  if negb resp3 && subscribed then
    ret (str "*2" ++ CRLF ++ str "$4" ++ CRLF ++ str "pong" ++ CRLF
         ++ bulk_string (if (length args =? 2)%nat then arg args 1 else []))
  else ret (if (length args =? 2)%nat then bulk_string (arg args 1) else reply "+PONG").

Definition policy_name (p : AofSync) : bytes :=
  match p with Always => str "always" | Everysec => str "everysec" | _ => str "no" end.

Definition LF : bytes := [chr 10].

Definition handle_info : M db bytes :=
  let* g := dsh (interact gauge) in
  let* d := gets id in
  let m := met (db_sh d) in
  ret (bulk_string (
    str "Uptime: " ++ to_string (g_uptime g) ++ str "s" ++ LF ++
    str "Camere active: " ++ to_string_u (active_rooms d) ++ LF ++
    str "Chei totale: " ++ to_string_u (keys_in_ram m) ++ LF ++
    str "Octeti rezidenti: " ++ to_string_u (resident_bytes m) ++ LF ++
    str "Tombstone-uri: " ++ to_string_u (tombstones m) ++ LF ++
    str "Rescriere AOF: " ++ (if bool_decide (is_Some (rewrite_child d)) then str "in curs" else str "inactiva") ++ LF ++
    str "Comenzi procesate: " ++ to_string (total_commands d) ++ LF ++
    str "AOF: " ++ policy_name (aof_sync cfg)
      ++ (if healthy (aof (db_sh d)) then str " (sanatos)" else str " (ERORI SCRIERE)") ++ LF ++
    str "AOF sync: age=" ++ to_string (g_sync_age g) ++ str "ms pending=" ++ to_string_u (g_pending g) ++
    str " duration_us=" ++ to_string_u (g_duration g) ++ str " overruns=" ++ to_string_u (g_overruns g) ++
    str " inflight=" ++ to_string_u (g_inflight g) ++ LF ++
    g_peers g)).

(** The lambdas of [kCommands]. *)
Definition run_publish (c : Call) : M db output :=
  if (3 <=? length (call_args c))%nat
  then in_pubsub (publish walk_fds (arg (call_args c) 1) (arg (call_args c) 2))
  else ret (only (reply "-ERR Wrong number of arguments for PUBLISH")).

Definition run_echo (c : Call) : M db output :=
  ret (only (if (length (call_args c) =? 2)%nat then bulk_string (arg (call_args c) 1)
             else reply "-ERR Wrong number of arguments for ECHO")).

Definition run_compact (c : Call) : M db output :=
  let* now := dsh get_current_time_ms in
  let* reclaimed := dsh (compact now) in
  ret (only (if reclaimed <? 0 then reply "-ERR compaction failed, previous cold file kept"
             else integer_reply reclaimed)).

Definition run_save (c : Call) : M ctx bytes :=
  let* ok := sh (gets (λ s, healthy (aof s))) in
  ret (if ok : bool then reply "+OK AOF is active and up to date"
       else reply "-ERR AOF write error, persistenta suspecta").

(** A command that only replies. *)
Definition replying (m : Call → M db bytes) : runner := OnConnection (λ c, let* r := m c in ret (only r)).

(** A command on the keys of the client's room. *)
Definition on_keys (m : bool → bytes → list bytes → M ctx bytes) : Command :=
  Command_ false (InRoom (λ resp3 c, m resp3 (call_room c) (call_args c))).

Definition command_list : list (bytes * Command) := [
  (str "SUBSCRIBE", Command_ true (replying (λ c, handle_subscribe (call_fd c) (call_args c))));
  (str "UNSUBSCRIBE", Command_ true (replying (λ c,
    let* resp3 := gets resp3_ in
    in_pubsub (unsubscribe walk_channels (call_fd c) (drop 1 (call_args c)) resp3))));
  (str "PING", Command_ true (replying (λ c, handle_ping (call_fd c) (call_args c))));
  (str "PUBLISH", Command_ true (OnConnection run_publish));
  (str "COMMAND", Command_ false (replying (λ _, ret (reply "*0"))));
  (str "ECHO", Command_ false (OnConnection run_echo));
  (str "INFO", Command_ false (replying (λ _, handle_info)));
  (str "ROOM", Command_ false (replying (λ c, handle_room (call_fd c) (call_args c))));
  (str "ROOMS", Command_ false (replying (λ c, handle_room_admin (call_command c) (call_args c))));
  (str "ROOM.", Command_ false (replying (λ c, handle_room_admin (call_command c) (call_args c))));
  (str "REPLFRONTIER", Command_ false (replying (λ c, dsh (handle_replfrontier (call_args c)))));
  (str "REWRITEAOF", Command_ false (replying (λ _, start_background_rewrite)));
  (str "COMPACT", Command_ false (OnConnection run_compact));
  (str "GET", on_keys handle_get);
  (str "SET", on_keys handle_set);
  (str "DEL", on_keys (λ _, handle_del));
  (str "CRDTMERGE", on_keys (λ _, handle_crdtmerge));
  (str "CRDTDEL", on_keys (λ _, handle_crdtdel));
  (str "MGET", on_keys handle_mget);
  (str "MSET", on_keys (λ _, handle_mset));
  (str "EXISTS", on_keys (λ _, handle_exists));
  (str "EXPIRE", on_keys (λ _, handle_expire 1000));
  (str "PEXPIRE", on_keys (λ _, handle_expire 1));
  (str "PERSIST", on_keys (λ _, handle_expire 0));
  (str "TTL", on_keys (λ _, handle_ttl false));
  (str "PTTL", on_keys (λ _, handle_ttl true));
  (str "SAVE", Command_ false (InRoom (λ _, run_save)))
].

Definition kCommands : gmap bytes Command := list_to_map command_list.

Definition unknown : Command := Command_ false (InRoom (λ _ _, ret (reply "-ERR unknown command"))).

(** One family for [ROOM.] and whatever follows. *)
Definition family (command : bytes) : bytes :=
  if decide (str "ROOM." `prefix_of` command) then str "ROOM." else command.

Definition find_command (command : bytes) : Command := default unknown (kCommands !! family command).

(** [execute_in_room]: the command and the eviction, with the room's lock. *)
Definition execute_in_room (m : bool → Call → M ctx bytes) (c : Call) : M db bytes :=
  find_room (call_room c) true ;;
  let* ok := activate (call_room c) false in
  if negb ok then ret ROOMS_FULL else
  let* resp3 := gets resp3_ in
  in_room (call_room c)
    (let* r := m resp3 c in evict_despised_keys (call_room c) ;; ret r).

Definition SUBSCRIBE_MODE : bytes :=
  reply "-ERR Clientul este in mod SUBSCRIBE. Nu poti trimite comenzi de Database!".

(** What runs before any command, with no lock held: the log's rewrite, and
    the client's room. *)
Definition prepare (fd : Z) (resp3 : bool) : M db bytes :=
  modify (upd_resp3 resp3) ;;
  finish_background_rewrite ;;
  let* child := gets rewrite_child in
  let* due := (if bool_decide (child = None) then dsh rewrite_due else ret false) in
  (if due : bool then start_background_rewrite ;; ret tt else ret tt) ;;
  get_client_room fd.

Definition dispatch (cmd : Command) (c : Call) : M db output :=
  match run cmd with
  | InRoom m => let* r := execute_in_room m c in ret (only r)
  | OnConnection m => m c
  end.

Definition execute (fd : Z) (args : list bytes) (resp3 : bool) : M db output :=
  match args with
  | [] => ret (only [])
  | name :: _ =>
      let* current_room := prepare fd resp3 in
      let command := upper name in
      let cmd := find_command command in
      let* subscribed := gets (λ d, is_subscribed fd (pubsub_ d)) in
      if negb (pubsub_cmd cmd) && negb resp3 && subscribed then ret (only SUBSCRIBE_MODE) else
      when (negb (pubsub_cmd cmd)) (modify (upd_total_commands (λ n, to_i64 (wrap64 (n + 1))))) ;;
      dispatch cmd (Call_ fd command args current_room)
  end.

End database.
