(* ===== verification/Serving.v ===== *)
(** * The invariant of the running server

    Every command of the table, the maintenance and the end of a connection
    keep the invariant of the database, the budget of active rooms, the size
    of the registry and the pinned default room; so does any sequence of them. *)

From stdpp Require Import gmap.
From S2P Require Import Prelude FsUtil Resp Hlc Config World Types State Cold Snapshot Aof Keyspace Crdt Tombs Effects Commands CommandSpecs PubSub Rooms RoomSpecs RoomLife Persistence Rewrite Database.

(** ** The commands on keys *)

Section keys.
  Context `{World} (Hreads : reads_ok) (Hsane : sane_clock) (Hnode : is_u32 local_node_id).

(** A command on the keys of the client's room. *)
Definition keeps (m : bool → Call → M ctx bytes) : Prop :=
  ∀ resp3 c x, tidy (call_room c) x → wp (m resp3 c) (λ _ x', kept (call_room c) x x') x.

Lemma keeps_keys (m : bool → bytes → list bytes → M ctx bytes) :
  (∀ resp3 room_name args x, tidy room_name x →
     wp (m resp3 room_name args) (λ _ x', kept room_name x x') x) →
  keeps (λ resp3 c, m resp3 (call_room c) (call_args c)).
Proof. intros Hm resp3 c x. apply Hm. Qed.

(** A command that refuses its arguments does nothing. *)
Lemma refuses room_name (rep : bytes) (x : ctx) :
  tidy room_name x → wp (ret rep) (λ _ x', kept room_name x x') x.
Proof. intros Hti. by apply wp_ret, kept_refl. Qed.

Lemma get_keeps resp3 room_name args x :
  tidy room_name x → wp (handle_get resp3 room_name args) (λ _ x', kept room_name x x') x.
Proof.
  intros Hti. destruct (decide (length args = 2%nat)) as [Hlen|Hlen].
  - eapply wp_mono; [by apply handle_get_spec|]. by intros ? ? [? _].
  - unfold handle_get. rewrite (proj2 (Nat.eqb_neq _ _) Hlen). by apply refuses.
Qed.

Lemma ttl_keeps millis room_name args x :
  tidy room_name x → wp (handle_ttl millis room_name args) (λ _ x', kept room_name x x') x.
Proof.
  intros Hti. destruct (decide (length args = 2%nat)) as [Hlen|Hlen].
  - eapply wp_mono; [by apply handle_ttl_spec|]. by intros ? ? [? _].
  - unfold handle_ttl. rewrite (proj2 (Nat.eqb_neq _ _) Hlen). by apply refuses.
Qed.

Lemma exists_keeps room_name args x :
  tidy room_name x → wp (handle_exists room_name args) (λ _ x', kept room_name x x') x.
Proof.
  intros Hti. destruct (decide (2 ≤ length args)%nat) as [Hlen|Hlen].
  - eapply wp_mono; [by apply handle_exists_spec|]. intros ? ? [Hr _]. apply Hr.
  - unfold handle_exists. rewrite (proj2 (Nat.ltb_lt _ _)) by lia. by apply refuses.
Qed.

Lemma mget_keeps resp3 room_name args x :
  tidy room_name x → wp (handle_mget resp3 room_name args) (λ _ x', kept room_name x x') x.
Proof.
  intros Hti. destruct (decide (2 ≤ length args)%nat) as [Hlen|Hlen].
  - eapply wp_mono; [by apply handle_mget_spec|]. intros ? ? [Hr _]. apply Hr.
  - unfold handle_mget. rewrite (proj2 (Nat.ltb_lt _ _)) by lia. by apply refuses.
Qed.

Lemma mset_keeps room_name args x :
  tidy room_name x → wp (handle_mset room_name args) (λ _ x', kept room_name x x') x.
Proof.
  intros Hti. eapply wp_mono; [by apply handle_mset_spec|]. cbn beta. intros rep x' Hr.
  destruct (_ || _); [destruct Hr as [_ ->]; by apply kept_refl|apply Hr].
Qed.

Lemma expire_keeps scale room_name args x :
  scale = 0 ∨ scale = 1 ∨ scale = 1000 → tidy room_name x →
  wp (handle_expire scale room_name args) (λ _ x', kept room_name x x') x.
Proof. intros Hs Hti. eapply wp_mono; [by apply handle_expire_spec|]. by intros ? ? [? _]. Qed.

Lemma crdtmerge_keeps room_name args x :
  tidy room_name x → wp (handle_crdtmerge room_name args) (λ _ x', kept room_name x x') x.
Proof.
  intros Hti. destruct (decide (5 ≤ length args ≤ 6)%nat) as [Hlen|Hlen];
    [destruct (merge_expire args) as [e|] eqn:He|].
  - eapply wp_mono; [by eapply crdtmerge_spec|]. by intros ? ? [? _].
  - unfold wp. rewrite bad_merge by auto. by apply kept_refl.
  - unfold wp. rewrite bad_merge by auto. by apply kept_refl.
Qed.

Lemma crdtdel_keeps room_name args x :
  tidy room_name x → wp (handle_crdtdel room_name args) (λ _ x', kept room_name x x') x.
Proof.
  intros Hti. destruct (decide (length args = 4%nat)) as [Hlen|Hlen].
  - eapply wp_mono; [by apply crdtdel_spec|]. by intros ? ? [? _].
  - unfold wp. rewrite bad_del by done. by apply kept_refl.
Qed.

Lemma set_keeps resp3 room_name args x :
  tidy room_name x → wp (handle_set resp3 room_name args) (λ _ x', kept room_name x x') x.
Proof.
  intros Hti. eapply wp_mono; [by apply handle_set_spec|]. cbn beta. intros rep x' Hr.
  destruct (_ <? _)%nat; [destruct Hr as [_ ->]; by apply kept_refl|apply Hr].
Qed.

Lemma del_keeps room_name args x :
  tidy room_name x → wp (handle_del room_name args) (λ _ x', kept room_name x x') x.
Proof.
  intros Hti. unfold handle_del. destruct (_ <? _)%nat; [by apply refuses|].
  apply wp_bind. eapply wp_mono; [by apply del_loop|]. intros n x' [Hk _]. by apply wp_ret.
Qed.

Context (walk_channels : gset bytes → list bytes) (walk_fds : gset Z → list Z) (gauge : nat → gauges).

(** Every command that runs in a room keeps it. *)
Definition room_safe (cmd : Command) : Prop :=
  match run cmd with InRoom m => keeps m | OnConnection _ => True end.

Lemma find_command_safe (P : Command → Prop) command :
  P unknown → Forall (λ p, P p.2) (command_list walk_channels walk_fds gauge) →
  P (find_command walk_channels walk_fds gauge command).
Proof.
  intros Hu Hall. unfold find_command, kCommands.
  destruct (_ !! _) as [cmd|] eqn:E; [|done]. apply elem_of_list_to_map_2 in E.
  by apply (proj1 (Forall_forall _ _) Hall _ E).
Qed.

Lemma room_commands_keep command : room_safe (find_command walk_channels walk_fds gauge command).
Proof.
  apply find_command_safe; [by intros resp3 c x Hti; apply refuses|].
  unfold command_list. repeat (apply Forall_cons; split); [..|apply Forall_nil]; try exact I;
    intros resp3 c x Hti;
    eauto using get_keeps, set_keeps, del_keeps, crdtmerge_keeps, crdtdel_keeps, mget_keeps, mset_keeps,
      exists_keeps, expire_keeps, ttl_keeps.
  destruct x. cbn. unfold run_save. wp_run. by apply kept_refl.
Qed.

End keys.

(** ** Steps of the whole server *)

Section serving.
  Context `{World}.

(** What a step may do to what the rooms share, when it runs no command on a
    room: the stores stay, a snapshot file may go. *)
Record stores_stay (s s' : shared) : Prop := {
  ss_cold : cold s' = cold s;
  ss_met : met s' = met s;
  ss_crdt : crdt s' = crdt s;
  ss_snaps : ∀ name, snaps s' !! name = snaps s !! name ∨ snaps s' !! name = None
}.

#[export] Instance stores_stay_preorder : PreOrder stores_stay.
Proof.
  split; [split; auto|]. intros s1 s2 s3 [] [D1 D2 D3 D4]. split; try congruence. intros name.
  destruct (ss_snaps0 name) as [H1|H1], (D4 name) as [H2|H2]; rewrite H2; auto.
Qed.

Lemma dumping_stores s s' : dumping s s' → stores_stay s s'.
Proof. by intros []. Qed.

Lemma aof_only_stores s s' : aof_only s s' → stores_stay s s'.
Proof. intros [? ? ? Hs ?]. split; try done. intros name. left. by rewrite Hs. Qed.

(** The work [execute] does before the command: the log's rewrite only. *)
Record background (d d' : db) : Prop := {
  bg_rooms : rooms d' = rooms d;
  bg_clients : client_rooms d' = client_rooms d;
  bg_active : active_rooms d' = active_rooms d;
  bg_total : total_commands d' = total_commands d;
  bg_pubsub : pubsub_ d' = pubsub_ d;
  bg_resp3 : resp3_ d' = resp3_ d;
  bg_stores : stores_stay (db_sh d) (db_sh d')
}.

#[export] Instance background_preorder : PreOrder background.
Proof.
  split; [by split|]. intros d1 d2 d3 [] []. split; try congruence. by trans (db_sh d2).
Qed.

Lemma background_sh s' d : stores_stay (db_sh d) s' → background d (upd_db_sh (λ _, s') d).
Proof. by split. Qed.

Lemma background_ok d d' : background d d' → db_ok d → db_ok d'.
Proof.
  intros [Hr _ Ha _ _ _ [Hc Hm _ Hs]] [H1 H2 H3 H4 H5 H6 H7].
  assert (Hof : ∀ name, room_of name d' = room_of name d) by (intros; unfold room_of; by rewrite Hr).
  split; rewrite ?Hc, ?Hm, ?Hr, ?Ha; try done.
  - intros name. unfold disjoint_ram. cbn. rewrite Hc, Hof. apply H6.
  - intros name Hst. rewrite Hof in Hst. eapply asleep_same; [apply Hs|by rewrite Hc|by apply H7].
Qed.

(** The operations of the log touch the log only. *)
Lemma write_rewrite_only s0 data : preserves (aof_only s0) (write_rewrite data).
Proof.
  intros s Hs. unfold write_rewrite. wp_run. destruct (rewrite_file (aof s)); wp_run; [|done].
  destruct (write_at _ _ _) as [[ok w] f]. wp_run. by trans s.
Qed.

Lemma append_tail_only s0 from : preserves (aof_only s0) (append_tail from).
Proof.
  assert (Hcopy : ∀ fuel off end_, preserves (aof_only s0) (copy_tail fuel off end_)).
  { induction fuel as [|fuel IH]; intros off end_ s Hs; cbn [copy_tail]; destruct (_ <=? _)%nat; wp_run; try done.
    destruct (pread_at _ _ _ _) as [ok buf]. wp_run.
    assert (Ht : aof_only s0 (upd_sys_tick S s)) by (by trans s).
    destruct ok; cbn [negb]; wp_run; [|done].
    eapply wp_mono; [by apply write_rewrite_only|]. intros ok s1 Hs1. destruct ok; cbn [negb]; wp_run; [|done].
    by apply IH. }
  intros s Hs. unfold append_tail. wp_run.
  destruct (rewrite_file (aof s)), (aof_file (aof s)); wp_run; try done.
  destruct (succeeds _); cbn [negb]; wp_run; [|by trans s]. apply Hcopy. by trans s.
Qed.

Lemma commit_rewrite_only s0 : preserves (aof_only s0) commit_rewrite.
Proof.
  intros s Hs. destruct (rewrite_file (aof s)) as [file|] eqn:Hr.
  - eapply wp_mono; [by apply commit_rewrite_spec|]. intros b s' [Ho _]. by trans s.
  - unfold commit_rewrite. wp_run. rewrite Hr. wp_run. done.
Qed.

Lemma abort_rewrite_only s0 : preserves (aof_only s0) abort_rewrite.
Proof. intros s Hs. unfold abort_rewrite. wp_run. by trans s. Qed.

Lemma background_dsh {A} (m : M shared A) d :
  (∀ s0, preserves (aof_only s0) m) → wp (dsh m) (λ _ d', background d d') d.
Proof.
  intros Hm. apply wp_dsh. eapply wp_mono; [by apply (Hm (db_sh d))|].
  intros a s' Ho. by apply background_sh, aof_only_stores.
Qed.

Lemma syscall_only s0 : preserves (aof_only s0) syscall.
Proof. intros s Hs. apply wp_syscall. by trans s. Qed.

(** Chaining background work. *)
Lemma background_bind {A B} (m : M db A) (k : A → M db B) d :
  wp m (λ _ d', background d d') d →
  (∀ a d', background d d' → wp (k a) (λ _ d2, background d' d2) d') →
  wp (bind m k) (λ _ d', background d d') d.
Proof.
  intros Hm Hk. apply wp_bind. eapply wp_mono; [exact Hm|]. intros a d' Hd. cbn beta.
  eapply wp_mono; [by apply Hk|]. intros b d2 Hd2. by trans d'.
Qed.

Lemma finish_background d : wp finish_background_rewrite (λ _ d', background d d') d.
Proof.
  unfold finish_background_rewrite. apply wp_bind, wp_gets.
  destruct (rewrite_child d) as [ok|]; [|by apply wp_ret].
  apply background_bind; [apply background_dsh, syscall_only|]. intros ended d1 _.
  destruct ended; cbn [negb]; [|by apply wp_ret].
  apply background_bind; [apply wp_modify; by split|]. intros _ d2 _.
  apply background_bind; [apply background_dsh, syscall_only|]. intros reaped d3 _.
  apply wp_bind, wp_gets.
  apply background_bind; [destruct (reaped && ok); [apply background_dsh; intros; apply append_tail_only|by apply wp_ret]|].
  intros tail d4 _. apply background_bind.
  { destruct tail; [apply background_dsh, commit_rewrite_only|by apply wp_ret]. }
  intros done_ d5 _. apply wp_when; [|done]. intros _. apply background_dsh, abort_rewrite_only.
Qed.

Lemma discard_background d : wp discard_active_snapshots (λ _ d', background d d') d.
Proof.
  eapply wp_mono; [apply discard_active_spec|]. intros _ d' (s' & -> & Hd & _).
  by apply background_sh, dumping_stores.
Qed.

(** The child's writer, whatever the temporary file holds. *)
#[refine] Local Instance child_any : AofWriter child_writer := { written _ _ _ := True }.
Proof.
  - done.
  - intros rec buf recs s _. unfold child_writer. destruct (_ <=? _); [|by apply wp_ret].
    apply wp_bind. unfold write_rewrite. wp_run. destruct (rewrite_file (aof s)); wp_run; [|done].
    destruct (write_at _ _ _) as [[ok w] f]. wp_run. split; [|done]. split; [|done]. split; auto.
Defined.

Lemma run_child_background d :
  db_ok d → wp (dsh (run_child (rooms d))) (λ _ d', background d d') d.
Proof.
  intros Hok. apply wp_dsh. unfold run_child. apply wp_bind.
  eapply wp_mono; [apply (dump_log (AofWriter0 := child_any) child_writer); done|].
  intros [ok buf] s1 [Hd _]. pose proof (dumping_stores _ _ Hd) as H1.
  assert (Hret : ∀ s b, aof_only s1 s → wp (ret b) (λ (_ : bool) s', background d (upd_db_sh (λ _, s') d)) s).
  { intros s b Ho. apply wp_ret, background_sh. trans s1; [done|by apply aof_only_stores]. }
  destruct ok; cbn [negb]; [|by apply Hret]. apply wp_bind.
  eapply wp_mono; [by apply (write_rewrite_only s1)|]. intros b s2 Ho. cbn beta.
  destruct b; cbn [negb]; [|by apply Hret].
  apply wp_syscall, background_sh. trans s1; [done|]. by trans s2; apply aof_only_stores.
Qed.

Lemma start_rewrite_only s0 : preserves (aof_only s0) start_rewrite.
Proof.
  intros s Hs. unfold start_rewrite. wp_run. destruct (rewrite_file (aof s)); wp_run; [done|].
  destruct (succeeds _); cbn [negb]; wp_run; [|by trans s].
  destruct (write_at _ _ _) as [[ok w] f]. wp_run. destruct ok; cbn [negb]; wp_run; by trans s.
Qed.

Lemma start_background d : db_ok d → wp start_background_rewrite (λ _ d', background d d') d.
Proof.
  intros Hok. unfold start_background_rewrite. apply wp_bind, wp_gets.
  destruct (bool_decide _); [by apply wp_ret|].
  apply background_bind; [apply background_dsh, start_rewrite_only|]. intros started d1 H1.
  pose proof (background_ok _ _ H1 Hok) as Hok1. destruct started; cbn [negb]; [|by apply wp_ret].
  apply background_bind; [apply discard_background|]. intros _ d2 H2.
  pose proof (background_ok _ _ H2 Hok1) as Hok2. apply wp_bind, wp_gets.
  apply background_bind; [apply background_dsh, syscall_only|]. intros forked d3 H3.
  pose proof (background_ok _ _ H3 Hok2) as Hok3. destruct forked; cbn [negb].
  - apply wp_bind, wp_gets. apply background_bind; [by apply run_child_background|]. intros ok d4 _.
    apply background_bind; [apply wp_modify; by split|]. intros _ d5 _. by apply wp_ret.
  - apply background_bind; [apply background_dsh, abort_rewrite_only|]. intros _ d4 _.
    apply background_bind; [apply wp_modify; by split|]. intros _ d5 _. by apply wp_ret.
Qed.

(** The rooms of the registry beside the default one. *)
Definition registered (d : db) : Z := Z.of_nat (size (delete (str "default") (rooms d))).

(** A client is in the default room or in a room of the registry. *)
Definition clients_ok (d : db) : Prop :=
  ∀ fd name, client_rooms d !! fd = Some name → name = str "default" ∨ is_Some (rooms d !! name).

Definition pinned (d : db) : Prop := state (room_of (str "default") d) = Active.

(** What every step of the server keeps. *)
Record served (d d' : db) : Prop := {
  sv_ok : db_ok d';
  sv_budget : in_budget d d';
  sv_pinned : pinned d → pinned d';
  sv_registry : registered d' <= Z.max (registered d) (cfg_max_rooms cfg);
  sv_clients : clients_ok d → clients_ok d'
}.

Lemma served_refl d : db_ok d → served d d.
Proof. intros Hok. split; [done|by apply in_budget_eq|done|lia|done]. Qed.

Lemma served_trans d1 d2 d3 : served d1 d2 → served d2 d3 → served d1 d3.
Proof.
  intros [] []. split; [done|by eapply in_budget_trans|by auto|lia|by auto].
Qed.

(** Nothing of the registry moved. *)
Lemma served_same d d' :
  db_ok d' → rooms d' = rooms d → active_rooms d' = active_rooms d → client_rooms d' = client_rooms d →
  served d d'.
Proof.
  intros Hok Hr Ha Hc. split; [done|by apply in_budget_eq|..].
  - unfold pinned, room_of. by rewrite Hr.
  - unfold registered. rewrite Hr. lia.
  - unfold clients_ok. by rewrite Hc, Hr.
Qed.

Lemma background_served d d' : db_ok d → background d d' → served d d'.
Proof. intros Hok Hb. apply served_same; [by eapply background_ok|apply Hb..]. Qed.

Lemma registered_sub d d' :
  dom (rooms d') ⊆ {[ str "default" ]} ∪ dom (rooms d) → registered d' <= registered d.
Proof.
  intros Hsub. unfold registered. rewrite <- !size_dom. apply inj_le, subseteq_size.
  rewrite !dom_delete_L. set_solver.
Qed.

(** An operation on one room: a new room needs a free place. *)
Lemma touches_served name d d' :
  db_ok d' → touches name d d' → in_budget d d' → (name = str "default" → pinned d → pinned d') →
  (name = str "default" ∨ is_Some (rooms d !! name) ∨ Z.of_nat (size (rooms d)) < cfg_max_rooms cfg) →
  served d d'.
Proof.
  intros Hok Ht Hb Hpin Hroom. split; [done|done|..].
  - destruct (decide (name = str "default")) as [->|Hne]; [by auto|].
    unfold pinned. by rewrite (tc_rooms _ _ _ Ht) by done.
  - assert (Hdom : dom (rooms d') ⊆ {[ name ]} ∪ dom (rooms d)).
    { intros n Hn%elem_of_dom. destruct (tc_dom _ _ _ Ht n Hn) as [->|Hd]; [set_solver|].
      apply elem_of_union. right. by apply elem_of_dom. }
    destruct Hroom as [->|[Hr%elem_of_dom|Hlt]].
    + pose proof (registered_sub d d' Hdom). lia.
    + assert (registered d' <= registered d) by (apply registered_sub; set_solver). lia.
    + unfold registered. rewrite <- size_dom.
      assert (Hle : (size (dom (delete (str "default") (rooms d'))) ≤ size ({[ name ]} ∪ dom (rooms d)))%nat).
      { apply subseteq_size. rewrite dom_delete_L. set_solver. }
      pose proof (size_union_alt ({[ name ]} : gset bytes) (dom (rooms d))) as Hu.
      assert ((size (dom (rooms d) ∖ {[ name ]}) ≤ size (dom (rooms d)))%nat) by (apply subseteq_size; set_solver).
      rewrite size_singleton in Hu. rewrite size_dom in *. lia.
  - intros Hc fd n. rewrite (tc_clients _ _ _ Ht). intros Hn.
    destruct (Hc fd n Hn) as [?|Hd]; [by left|right]. by apply (tc_registry _ _ _ Ht).
Qed.

(** A client that moves to a room of the registry. *)
Lemma served_move d d' :
  db_ok d' → rooms d' = rooms d → active_rooms d' = active_rooms d →
  (∀ fd name, client_rooms d' !! fd = Some name →
     client_rooms d !! fd = Some name ∨ name = str "default" ∨ is_Some (rooms d !! name)) →
  served d d'.
Proof.
  intros Hok Hr Ha Hc. destruct (served_same d (upd_client_rooms (λ _, client_rooms d) d')) as [_ ? ? ? _];
    [by destruct Hok; split|done..|].
  split; try done. intros Hcl fd name Hn. rewrite Hr. destruct (Hc fd name Hn) as [Ho|Ho]; [by eapply Hcl|done].
Qed.

Lemma served_bind {A B} (m : M db A) (k : A → M db B) d :
  db_ok d → wp m (λ _ d', served d d') d →
  (∀ a d', db_ok d' → wp (k a) (λ _ d2, served d' d2) d') →
  wp (bind m k) (λ _ d', served d d') d.
Proof.
  intros Hok Hm Hk. apply wp_bind. eapply wp_mono; [exact Hm|]. intros a d1 H1. cbn beta.
  eapply wp_mono; [by apply Hk, (sv_ok _ _ H1)|]. intros b d2 H2. exact (served_trans _ _ _ H1 H2).
Qed.

(** *** The commands of a connection *)

Lemma dsh_quiet {A} (m : M shared A) d :
  db_ok d → wp m (λ _ s', quiet (db_sh d) s') (db_sh d) → wp (dsh m) (λ _ d', served d d') d.
Proof.
  intros Hok Hm. apply wp_dsh. eapply wp_mono; [exact Hm|]. intros a s' Hq.
  apply served_same; [by apply quiet_db_ok|done..].
Qed.

Lemma pubsub_serves {A} (m : M PubSub.pubsub A) d : db_ok d → wp (in_pubsub m) (λ _ d', served d d') d.
Proof.
  intros Hok. apply wp_zoom. unfold wp. apply served_same; [by destruct Hok; split|done..].
Qed.

Lemma wake_serves name d : db_ok d →
  wp (wake_room name) (λ err d', served d d' ∧ (err = None → is_Some (rooms d' !! name))) d.
Proof.
  intros Hok. eapply wp_mono; [by apply wake_room_spec|]. intros err d1 (Hok1 & Ht & Hb & Hw).
  destruct (valid_name name); cbn [negb] in Hw; [|destruct Hw as [-> ->]; by split; [apply served_refl|]].
  destruct (bool_decide (rooms d !! name = None)) eqn:E; cbn [andb] in Hw.
  2:{ apply bool_decide_eq_false, not_eq_None_Some in E. destruct Hw as [Hr Hw]. split; [|done].
      apply (touches_served name); auto. intros -> Hpin. destruct Hw as [[_ ?]|(_ & Hsl & _)]; [done|].
      unfold pinned in Hpin. congruence. }
  destruct (_ <=? _) eqn:Hmax; [destruct Hw as [-> ->]; by split; [apply served_refl|]|].
  apply Z.leb_gt in Hmax. destruct Hw as [Hr Hw]. split; [|done].
  apply (touches_served name); auto. intros -> Hpin. destruct Hw as [[_ ?]|(_ & Hsl & _)]; [done|].
  unfold pinned in Hpin. congruence.
Qed.

Lemma room_serves fd args d : db_ok d → wp (handle_room fd args) (λ _ d', served d d') d.
Proof.
  intros Hok. unfold handle_room. destruct (negb _); [by apply wp_ret, served_refl|].
  apply wp_bind. eapply wp_mono; [by apply wake_serves|]. intros [err|] d1 [Hs Hr]; [by apply wp_ret|].
  apply wp_bind, wp_modify, wp_ret. eapply served_trans; [exact Hs|].
  apply served_move; [by destruct (sv_ok _ _ Hs); split|done..|]. intros fd' name. cbn.
  destruct (decide (fd' = fd)) as [->|Hne]; [rewrite lookup_insert_eq; intros [= <-]; auto|].
  rewrite lookup_insert_ne by done. auto.
Qed.

Lemma hibernate_serves name d :
  db_ok d → addressable_db d → name ≠ str "default" → is_Some (rooms d !! name) →
  wp (hibernate name) (λ _ d', served d d') d.
Proof.
  intros Hok Hadr Hne Hr. eapply wp_mono; [by apply hibernate_spec|]. intros ok d' (Hok' & Ht & _ & Hh).
  apply (touches_served name); [done|done| |congruence|auto]. unfold in_budget.
  destruct (decide _); [destruct Hh as [_ ->]; lia|]. destruct ok; [lia|]. destruct Hh as (_ & -> & _). lia.
Qed.

Lemma room_admin_serves command args d :
  db_ok d → addressable_db d → wp (handle_room_admin command args) (λ _ d', served d d') d.
Proof.
  intros Hok Hadr. unfold handle_room_admin. pose proof (served_refl d Hok) as Hs.
  destruct (eqs "ROOMS" command).
  { apply wp_bind, wp_gets, wp_bind, wp_dsh, wp_interact, wp_ret.
    apply served_same; [by apply quiet_db_ok|done..]. }
  destruct (negb _); [by apply wp_ret|]. destruct (eqs "ROOM.WAKE" command).
  { apply wp_bind. eapply wp_mono; [by apply wake_serves|]. intros err d1 [H1 _]. by apply wp_ret. }
  apply wp_bind. unfold find_room. apply wp_bind, wp_gets.
  destruct (rooms d !! arg args 1) as [r|] eqn:Hr; cbn [negb]; apply wp_ret; cbn [negb]; [|by apply wp_ret].
  destruct (eqs "ROOM.HIBERNATE" command).
  { destruct (eqs "default" (arg args 1)) eqn:Hd; [by apply wp_ret|]. apply wp_bind.
    eapply wp_mono; [apply hibernate_serves; try done|intros; by apply wp_ret].
    by apply bool_decide_eq_false in Hd. }
  destruct (eqs "ROOM.INFO" command); [|by apply wp_ret].
  apply wp_bind, wp_gets, wp_bind, wp_gets. destruct (state _); by apply wp_ret.
Qed.

Lemma frontier_serves args d : db_ok d → wp (dsh (handle_replfrontier args)) (λ _ d', served d d') d.
Proof.
  intros Hok. apply dsh_quiet; [done|]. eapply wp_mono; [apply replfrontier_spec|]. by intros ? ? [? _].
Qed.

(** Compaction forgets expired keys of the cold storage. *)
Lemma compact_serves now d : db_ok d → wp (dsh (compact now)) (λ _ d', served d d') d.
Proof.
  intros Hok. apply wp_dsh. pose proof (compact_spec now (db_sh d) (dk_cold _ Hok)) as Hc.
  unfold wp. destruct (compact now (db_sh d)) as [n s']. cbn [fst snd].
  destruct Hc as ([_ _ Hsn _ _] & [Hk Hb] & Hco & Hv).
  assert (Hsub : ∀ name, cold_view (cold s') name ⊆ cold_view (cold (db_sh d)) name).
  { intros name. destruct Hv as [[-> _]|[-> _]]; [done|]. apply map_filter_subseteq. }
  apply served_same; [|done..]. destruct Hok as [H1 H2 H3 H4 H5 H6 H7]. split; cbn; rewrite ?Hk, ?Hb; try done.
  - intros name. eapply map_disjoint_weaken_r; [apply H6|apply Hsub].
  - intros name Hst data m. rewrite Hsn. intros Hd Hp.
    eapply map_disjoint_weaken_r; [by eapply H7|apply Hsub].
Qed.

(** *** A command in a room *)

Definition ctx_of (name : bytes) (d : db) : ctx := Ctx_ (room_of name d) (db_sh d).

(** The logical maps and tombstones of the other rooms stay. *)
Record elsewhere (name : bytes) (d d' : db) : Prop := {
  el_touch : touches name d d';
  el_cold : ∀ room', room' ≠ name → cold_view (cold (db_sh d')) room' = cold_view (cold (db_sh d)) room';
  el_tombs : ∀ room', room' ≠ name → tombs_of (crdt (db_sh d')) room' = tombs_of (crdt (db_sh d)) room'
}.

Lemma elsewhere_trans name d1 d2 d3 : elsewhere name d1 d2 → elsewhere name d2 d3 → elsewhere name d1 d3.
Proof.
  intros [T1 C1 B1] [T2 C2 B2]. split; [by trans d2|..]; intros r Hr; by rewrite ?C2, ?B2, ?C1, ?B1.
Qed.

Lemma elsewhere_same name d d' :
  touches name d d' → cold (db_sh d') = cold (db_sh d) → crdt (db_sh d') = crdt (db_sh d) → elsewhere name d d'.
Proof. intros Ht Hc Hr. split; [done|..]; intros; by rewrite ?Hc, ?Hr. Qed.

(** The command [m] ran on the room [name]: from the context [x], its room
    active with the keys it had or, asleep, those of its snapshot, to [x'];
    the eviction after it hides nothing. *)
Record ran (R : bytes → ctx → ctx → Prop) (name rep : bytes) (d d' : db) (x x' : ctx) : Prop := {
  rn_run : R rep x x';
  rn_tidy : tidy name x;
  rn_keys : if decide (state (room_of name d) = Active) then keys (c_room x) = keys (room_of name d)
            else loaded name (db_sh d) (keys (c_room x));
  rn_from : cold (c_sh x) = cold (db_sh d) ∧ crdt (c_sh x) = crdt (db_sh d) ∧ aof (c_sh x) = aof (db_sh d);
  rn_view : view name (ctx_of name d') = view name x';
  rn_to : crdt (db_sh d') = crdt (c_sh x') ∧ aof (db_sh d') = aof (c_sh x')
}.

Lemma run_and_evict (m : M ctx bytes) (R : bytes → ctx → ctx → Prop) name d :
  db_ok d → state (room_of name d) = Active →
  wp m (λ r x', kept name (ctx_of name d) x' ∧ R r (ctx_of name d) x') (ctx_of name d) →
  wp (in_room name (let* r := m in evict_despised_keys name ;; ret r)) (λ r d', db_ok d'
    ∧ elsewhere name d d' ∧ active_rooms d' = active_rooms d ∧ state (room_of name d') = Active
    ∧ snaps (db_sh d') = snaps (db_sh d) ∧ ∃ x', ran R name r d d' (ctx_of name d) x') d.
Proof.
  intros Hok Hst Hm. eapply wp_mono.
  - apply (in_room_gen name _ (λ r c', ∃ x', R r (ctx_of name d) x' ∧ kept name (ctx_of name d) x'
      ∧ view name c' = view name x' ∧ crdt (c_sh c') = crdt (c_sh x') ∧ aof (c_sh c') = aof (c_sh x')
      ∧ snaps (c_sh c') = snaps (c_sh x')
      ∧ ∀ room', room' ≠ name → cold_view (cold (c_sh c')) room' = cold_view (cold (c_sh x')) room')); [done|].
    fold (ctx_of name d). apply wp_bind. eapply wp_mono; [exact Hm|]. intros r x1 [Hk HR]. cbn beta.
    apply wp_bind. pose proof (ke_tidy _ _ _ Hk) as [Hg Hd].
    eapply wp_mono; [by apply evict_spec|]. intros _ x2 (Hg2 & Hf & Hv & _ & _ & _ & Hd2). apply wp_ret.
    pose proof (frame_hstep _ _ _ Hf) as Hstep.
    split; [split; auto|]. split; [trans x1; [apply Hk|done]|]. split; [|intros Hsl; cbn in Hsl; congruence].
    exists x1. destruct Hf as [[Ha Hc Hsn _ _] _ _ _ Hcv]. split_and!; done.
  - cbn beta. intros r d' (Hok' & Ht & Ha & Hs & x' & HR & Hk & Hv & Hc & Hl & Hsn & Hcv).
    split; [done|]. split.
    { split; [done|..]; intros r' Hr'.
      - cbn [c_sh] in Hcv. rewrite Hcv by done. by apply (hs_cold _ _ _ (ke_step _ _ _ Hk)).
      - cbn [c_sh] in Hc. rewrite Hc. by apply (ke_tombs _ _ _ Hk). }
    split; [done|]. split; [by rewrite Hs|].
    cbn [c_sh] in Hsn. split; [by rewrite Hsn, (hs_snaps _ _ _ (ke_step _ _ _ Hk))|].
    exists x'. split; try done; [by apply room_tidy|].
    by rewrite decide_True.
Qed.

Lemma execute_in_room_spec m (R : bytes → ctx → ctx → Prop) c d :
  let name := call_room c in
  db_ok d → name = str "default" ∨ is_Some (rooms d !! name) →
  (∀ resp3 x, resp3 = resp3_ d → tidy name x → wp (m resp3 c) (λ r x', kept name x x' ∧ R r x x') x) →
  wp (execute_in_room m c) (λ rep d', served d d' ∧ elsewhere name d d' ∧ snaps_shrink (db_sh d) (db_sh d')
    ∧ (rep = ROOMS_FULL ∧ state (room_of name d) = Sleeping ∧ state (room_of name d') = Sleeping
         ∧ crdt (db_sh d') = crdt (db_sh d) ∧ aof (db_sh d') = aof (db_sh d) ∧ cold (db_sh d') = cold (db_sh d)
       ∨ state (room_of name d') = Active ∧ ∃ x x', ran R name rep d d' x x')) d.
Proof.
  intros name Hok Hreg Hm. unfold execute_in_room. fold name. apply wp_bind.
  eapply wp_mono; [by apply find_room_spec|]. intros b d1 (Hok1 & Ht1 & _ & Hs1 & Ha1 & Hr1 & _).
  apply wp_bind. eapply wp_mono; [apply wp_and; [by apply activate_budget|by apply activate_spec]|].
  intros ok d2 [(_ & _ & Hb2 & _) (Hok2 & Ht2 & _ & Hw & Hc2 & Ha2 & Hcr2 & Hsn2)].
  rewrite Hr1, Hs1 in Hw. rewrite Hs1 in Hc2, Ha2, Hcr2.
  assert (E2 : elsewhere name d d2) by (apply elsewhere_same; [by trans d1|congruence..]).
  assert (Hserve : ∀ d3, db_ok d3 → elsewhere name d d3 → in_budget d d3 →
    (state (room_of name d3) = Active ∨ state (room_of name d) = Sleeping) → served d d3).
  { intros d3 Hok3 E3 Hb3 Hst3. apply (touches_served name); [done|apply E3|done| |tauto].
    intros -> Hp. unfold pinned in *. destruct Hst3; congruence. }
  assert (Hb : in_budget d d2) by (by eapply in_budget_trans; [apply in_budget_eq|]).
  destruct ok; cbn [negb].
  2:{ destruct Hw as (_ & W1 & W2 & _). apply wp_ret. split; [by apply Hserve; auto|]. split; [done|].
      split; [by rewrite <- Hs1|]. by left. }
  destruct Hw as [Hst2 Hw]. apply wp_bind, wp_gets.
  assert (Hres : resp3_ d2 = resp3_ d) by (by rewrite (tc_resp3 _ _ _ Ht2), (tc_resp3 _ _ _ Ht1)).
  eapply wp_mono; [apply (run_and_evict _ R); [done|done|]|].
  { apply Hm; [done|by apply room_tidy]. }
  cbn beta. intros r d3 (Hok3 & E3 & Ha3 & Hst3 & Hsn3 & x' & [H1 H2 H3 H4 H5 H6]).
  assert (E : elsewhere name d d3) by (by eapply elsewhere_trans).
  split; [apply Hserve; auto; unfold in_budget in *; lia|]. split; [done|].
  split; [trans (db_sh d2); [by rewrite <- Hs1|by apply shrink_same]|]. right. split; [done|].
  exists (ctx_of name d2), x'. split; try done. destruct (decide _); apply Hw.
Qed.

(** *** A whole command *)

Record prepared_for (fd : Z) (resp3 : bool) (room_name : bytes) (d d' : db) : Prop := {
  pf_served : served d d';
  pf_rooms : rooms d' = rooms d;
  pf_pubsub : pubsub_ d' = pubsub_ d;
  pf_total : total_commands d' = total_commands d;
  pf_resp3 : resp3_ d' = resp3;
  pf_stores : stores_stay (db_sh d) (db_sh d');
  pf_room : room_name = default (str "default") (client_rooms d !! fd);
  pf_clients : client_rooms d' = <[fd := room_name]> (client_rooms d)
}.

Lemma prepare_spec fd resp3 d :
  db_ok d → wp (prepare fd resp3) (λ room_name d', prepared_for fd resp3 room_name d d') d.
Proof.
  intros Hok. unfold prepare. apply wp_bind, wp_modify. set (d0 := upd_resp3 resp3 d).
  assert (Hok0 : db_ok d0) by (destruct Hok; by split).
  eapply (wp_mono _ (λ room_name d', ∃ d1, background d0 d1 ∧
    room_name = default (str "default") (client_rooms d1 !! fd) ∧
    d' = upd_client_rooms (λ _, <[fd := room_name]> (client_rooms d1)) d1)).
  - apply wp_bind. eapply wp_mono; [apply finish_background|]. intros ? d1 H1. cbn beta.
    apply wp_bind, wp_gets, wp_bind.
    eapply (wp_mono _ (λ _ d', d' = d1)); [by destruct (bool_decide _); [apply wp_dsh; destruct d1|apply wp_ret]|].
    intros due d2 ->. pose proof (background_ok _ _ H1 Hok0) as Hok1. apply wp_bind.
    eapply (wp_mono _ (λ _ d', background d1 d')).
    { destruct due; [|by apply wp_ret]. apply wp_bind. eapply wp_mono; [by apply start_background|].
      intros. by apply wp_ret. }
    intros _ d2 H2. assert (H02 : background d0 d2) by (by trans d1).
    unfold get_client_room. apply wp_bind, wp_gets.
    destruct (client_rooms d2 !! fd) as [n|] eqn:Hn.
    + apply wp_ret. exists d2. rewrite Hn. split; [done|]. split; [done|]. cbn.
      rewrite insert_id by done. by destruct d2.
    + apply wp_bind, wp_modify, wp_ret. exists d2. rewrite Hn. by split.
  - cbn beta. intros room_name d' (d1 & [B1 B2 B3 B4 B5 B6 B7] & -> & ->). rewrite B2. cbn [client_rooms d0 upd_resp3].
    split; try done. assert (Hok1 : db_ok d1) by (by apply (background_ok d0)).
    apply served_move; [by destruct Hok1; split|done|done|]. intros fd' name. cbn.
    destruct (decide (fd' = fd)) as [->|Hne]; [rewrite lookup_insert_eq|rewrite lookup_insert_ne by done; auto].
    intros [= <-]. destruct (client_rooms d !! fd) eqn:E; cbn; auto.
Qed.

End serving.

Section server.
  Context `{World} (Hreads : reads_ok) (Hsane : sane_clock) (Hnode : is_u32 local_node_id).
  Context (walk_channels : gset bytes → list bytes) (walk_fds : gset Z → list Z) (gauge : nat → gauges).

Local Abbreviation find_command := (find_command walk_channels walk_fds gauge).
Local Abbreviation execute := (execute walk_channels walk_fds gauge).

(** A command of a connection keeps the invariant. *)
Definition conn_safe (cmd : Command) : Prop :=
  match run cmd with
  | OnConnection m => ∀ c d, db_ok d → addressable_db d → wp (m c) (λ _ d', served d d') d
  | InRoom _ => True
  end.

Lemma replying_safe (m : M db bytes) d :
  wp m (λ _ d', served d d') d → wp (let* r := m in ret (only r)) (λ _ d', served d d') d.
Proof. intros Hm. apply wp_bind. eapply wp_mono; [exact Hm|]. intros r d' Hd. by apply wp_ret. Qed.

Lemma subscribe_serves fd args d : db_ok d → wp (handle_subscribe fd args) (λ _ d', served d d') d.
Proof.
  intros Hok. unfold handle_subscribe. destruct (_ <? _)%nat; [by apply wp_ret, served_refl|].
  apply wp_bind, wp_gets. generalize (resp3_ d). intros resp3. generalize (drop 1 args). intros l.
  generalize ([] : bytes). revert d Hok. induction l as [|channel l IH]; intros d Hok acc; cbn [fold_m].
  - by apply wp_ret, served_refl.
  - apply served_bind; [done| |intros; by apply IH].
    apply wp_bind. eapply wp_mono; [by apply pubsub_serves|]. intros. by apply wp_ret.
Qed.

Lemma ping_serves fd args d : db_ok d → wp (handle_ping fd args) (λ _ d', served d d') d.
Proof.
  intros Hok. unfold handle_ping. destruct (_ <? _)%nat; [by apply wp_ret, served_refl|].
  apply wp_bind, wp_gets, wp_bind, wp_gets. destruct (_ && _); by apply wp_ret, served_refl.
Qed.

Lemma info_serves d : db_ok d → wp (handle_info gauge) (λ _ d', served d d') d.
Proof.
  intros Hok. unfold handle_info. apply wp_bind, wp_dsh, wp_interact, wp_bind, wp_gets, wp_ret.
  apply served_same; [by apply quiet_db_ok|done..].
Qed.

Lemma connection_commands_safe command : conn_safe (find_command command).
Proof.
  apply find_command_safe; [exact I|].
  unfold command_list. repeat (apply Forall_cons; split); [..|apply Forall_nil]; try exact I;
    intros c d Hok Hadr; try apply replying_safe; cbn beta;
    eauto using subscribe_serves, ping_serves, info_serves, room_serves, room_admin_serves, frontier_serves.
  - apply wp_bind, wp_gets. by apply pubsub_serves.
  - unfold run_publish. destruct (_ <=? _)%nat; [by apply pubsub_serves|by apply wp_ret, served_refl].
  - by apply wp_ret, served_refl.
  - by apply wp_ret, served_refl.
  - eapply wp_mono; [by apply start_background|]. intros. by apply background_served.
  - unfold run_compact. apply served_bind; [done| |].
    { apply dsh_quiet; [done|]. by apply wp_now. }
    intros now d1 Hok1. apply served_bind; [done|by apply compact_serves|].
    intros n d2 Hok2. by apply wp_ret, served_refl.
Qed.

(** Either kind of command, from the state [prepare] leaves. *)
Lemma dispatch_serves command c d :
  db_ok d → addressable_db d → call_room c = str "default" ∨ is_Some (rooms d !! call_room c) →
  wp (dispatch (find_command command) c) (λ _ d', served d d') d.
Proof.
  intros Hok Hadr Hreg. unfold dispatch.
  pose proof (room_commands_keep Hreads Hsane Hnode walk_channels walk_fds gauge command) as Hroom.
  pose proof (connection_commands_safe command) as Hconn. unfold room_safe, conn_safe in *.
  destruct (run (find_command command)) as [m|m]; [by apply Hconn|].
  apply wp_bind. eapply wp_mono; [apply (execute_in_room_spec m (λ _ _ _, True)); [done|done|]|].
  - intros resp3 x _ Hti. eapply wp_mono; [by apply Hroom|]. by intros.
  - intros r d' [Hs _]. by apply wp_ret.
Qed.

Lemma execute_serves fd args resp3 d :
  db_ok d → clients_ok d → addressable_db d → wp (execute fd args resp3) (λ _ d', served d d') d.
Proof.
  intros Hok Hcl Hadr. unfold Database.execute. destruct args as [|name args]; [by apply wp_ret, served_refl|].
  apply wp_bind. eapply wp_mono; [by apply prepare_spec|]. intros room_name d1 [Hs Hr Hp _ _ _ Hroom Hc].
  apply wp_bind, wp_gets. destruct (_ && _); [by apply wp_ret|].
  assert (Hdis : ∀ d2, rooms d2 = rooms d1 → served d d2 →
    wp (dispatch (find_command (upper name)) (Call_ fd (upper name) (name :: args) room_name)) (λ _ d', served d d') d2).
  { intros d2 Hr2 Hs2. eapply wp_mono.
    - apply dispatch_serves; [apply Hs2| |].
      + intros n. unfold room_of. rewrite Hr2, Hr. apply Hadr.
      + cbn [call_room]. rewrite Hr2, Hr, Hroom. destruct (client_rooms d !! fd) as [n|] eqn:E; [|by left].
        cbn. by eapply Hcl.
    - intros a d3 H3. by eapply served_trans. }
  apply wp_bind, wp_when; [intros _; apply wp_modify|intros _; by apply Hdis].
  apply Hdis; [done|]. eapply served_trans; [exact Hs|].
  apply served_same; [by destruct (sv_ok _ _ Hs); split|done..].
Qed.

(** The steps of the server: a command of a connection; the watchdog's work on
    one room, with the room's lock held; the end of a connection. A pass of
    the watchdog is a sequence of its steps with commands in between. *)
Inductive event :=
  | Command (fd : Z) (args : list bytes) (resp3 : bool)
  | Expire (name : bytes) (now : Z)
  | Idle (name : bytes)
  | Hangup (fd : Z).

Definition perform (e : event) : M db unit :=
  match e with
  | Command fd args resp3 => let* _ := execute fd args resp3 in ret tt
  | Expire name now => in_room name (clean_room now)
  | Idle name => hibernate_if_idle name
  | Hangup fd => cleanup_client walk_channels fd
  end.

(** The watchdog goes through the registry and leaves out the default room. *)
Definition possible (e : event) (d : db) : Prop :=
  match e with
  | Command _ _ _ | Hangup _ => True
  | Expire name _ => is_Some (rooms d !! name)
  | Idle name => is_Some (rooms d !! name) ∧ name ≠ str "default"
  end.

(** The memory of the process is addressable at every step. *)
Inductive server_step (d : db) : db → Prop :=
  | Server_step e : possible e d → addressable_db d → server_step d (perform e d).2.

Lemma step_serves d d' : db_ok d → clients_ok d → server_step d d' → served d d'.
Proof.
  intros Hok Hcl [e Hp Hadr]. cut (wp (perform e) (λ _ d', served d d') d); [done|].
  destruct e as [fd args resp3|name now|name|fd]; cbn [perform possible] in *.
  - apply wp_bind. eapply wp_mono; [by apply execute_serves|]. intros. by apply wp_ret.
  - eapply wp_mono; [by apply clean_one|]. intros _ d1 (Hok1 & Ht & Ha & Hs & _).
    apply (touches_served name); [done|done|by apply in_budget_eq| |auto].
    intros -> Hpin. unfold pinned. by rewrite Hs.
  - eapply wp_mono; [by apply hibernate_if_idle_spec|]. intros _ d1 (Hok1 & Ht & Ha & _).
    apply (touches_served name); [done|done|unfold in_budget; lia|by intros ->; destruct Hp|tauto].
  - unfold cleanup_client. apply served_bind; [done|by apply pubsub_serves|].
    intros _ d1 Hok1. apply wp_modify, served_move; [by destruct Hok1; split|done|done|].
    intros fd' name. cbn. intros [_ ?]%lookup_delete_Some. by left.
Qed.

Lemma steps_serve d0 d :
  db_ok d0 → clients_ok d0 → rtc server_step d0 d →
  db_ok d ∧ clients_ok d
  ∧ active_rooms d <= Z.max (active_rooms d0) MAX_ACTIVE_ROOMS
  ∧ registered d <= Z.max (registered d0) (cfg_max_rooms cfg)
  ∧ (pinned d0 → pinned d).
Proof.
  intros Hok Hcl Hsteps. induction Hsteps as [d|d d1 d2 Hstep _ IH]; [split_and!; done || lia|].
  destruct (step_serves _ _ Hok Hcl Hstep) as [Hok1 Hb Hp Hr Hc].
  destruct (IH Hok1 (Hc Hcl)) as (H1 & H2 & H3 & H4 & H5). unfold in_budget in Hb. split_and!; auto; lia.
Qed.

End server.

(** ** Properties *)

(** C1: The invariant of the running server. After any sequence of commands of
    any connections, of the watchdog's work on single rooms (expiry, and
    hibernation of rooms other than the default one) and of ends of
    connections: every room is Active, or Sleeping and empty; the counters of
    active rooms, of resident keys and of resident bytes are exactly the sums
    over the registry; no key is both in RAM and in cold storage, nor would be
    after a wake; the cold index points at well-formed entries; at most three
    rooms are active (or as many as the restart left); the registry stays
    within SOMNIUM_MAX_ROOMS besides the default room; every client is in the
    default room or in one of the registry; and the default room, once active,
    stays so. *)
Theorem server_invariant `{World} walk_channels walk_fds gauge d0 d :
  reads_ok → sane_clock → is_u32 local_node_id → db_ok d0 → clients_ok d0 →
  rtc (server_step walk_channels walk_fds gauge) d0 d →
  db_ok d ∧ clients_ok d
  ∧ active_rooms d <= Z.max (active_rooms d0) MAX_ACTIVE_ROOMS
  ∧ registered d <= Z.max (registered d0) (cfg_max_rooms cfg)
  ∧ (pinned d0 → pinned d).
Proof.
  intros Hreads Hsane Hnode Hok Hcl Hsteps. by apply (steps_serve Hreads Hsane Hnode walk_channels walk_fds gauge d0 d).
Qed.

Lemma server_invariant_witness :
  let W := calm default_config (2 ^ 32) in
  let d0 := init_db (init_shared None ∅) in
  let e := Command 5 (map str ["set"; "k"; "v"]%string) false in
  active_rooms (perform elements elements (λ _, Gauges 0 0 0 0 0 0 []) e d0).2 <= 3.
Proof.
  intros W d0 e.
  assert (Hsane : sane_clock (H := W)) by (intros k; split; vm_compute; done || discriminate).
  assert (Hnode : is_u32 (local_node_id (H := W))) by (vm_compute; split; discriminate).
  assert (Hcl : clients_ok d0) by (intros fd name [=]).
  assert (Hadr : addressable_db d0) by (intros name; split; [apply map_Forall_empty|done]).
  exact (proj1 (proj2 (proj2 (server_invariant (H := W) elements elements (λ _, Gauges 0 0 0 0 0 0 []) d0 _
    (calm_reads_ok default_config (2 ^ 32)) Hsane Hnode (init_db_ok None ∅) Hcl
    (rtc_once _ _ (Server_step _ _ _ d0 e I Hadr)))))).
Defined.

(** The effect of a command of the client's room [room_name], from the context
    [x] in which its handler runs. *)
Record command_effect `{World} (m : bool → Call → M ctx bytes) (c : Call) (resp3 : bool)
    (rep : bytes) (d d' : db) (x : ctx) : Prop := {
  ce_reply : rep = (m resp3 c x).1;
  ce_tidy : tidy (call_room c) x;
  ce_keys : if decide (state (room_of (call_room c) d) = Active)
            then keys (c_room x) = keys (room_of (call_room c) d)
            else loaded (call_room c) (db_sh d) (keys (c_room x));
  ce_cold : cold (c_sh x) = cold (db_sh d);
  ce_crdt : crdt (c_sh x) = crdt (db_sh d);
  ce_view : view (call_room c) (ctx_of (call_room c) d') = view (call_room c) (m resp3 c x).2;
  ce_crdt' : crdt (db_sh d') = crdt (c_sh (m resp3 c x).2);
  ce_aof' : aof (db_sh d') = aof (c_sh (m resp3 c x).2);
  ce_active : state (room_of (call_room c) d') = Active
}.

(** What a command of the room [name] leaves of everything else. *)
Record confined (name : bytes) (fd : Z) (d d' : db) : Prop := {
  cf_rooms : ∀ room', room' ≠ name → room_of room' d' = room_of room' d;
  cf_cold : ∀ room', room' ≠ name → cold_view (cold (db_sh d')) room' = cold_view (cold (db_sh d)) room';
  cf_tombs : ∀ room', room' ≠ name → tombs_of (crdt (db_sh d')) room' = tombs_of (crdt (db_sh d)) room';
  cf_pubsub : pubsub_ d' = pubsub_ d;
  cf_clients : client_rooms d' = <[fd := name]> (client_rooms d)
}.

Section confined.
  Context `{World}.

Lemma confined_by name fd resp3 d d1 d2 :
  prepared_for fd resp3 name d d1 → elsewhere name d1 d2 → confined name fd d d2.
Proof.
  intros [Hs Hr Hp Ht H3 [Hc Hm Hcr _] Hn Hcl] [Htc Hcv Htb]. split.
  - intros r Hne. rewrite (tc_rooms _ _ _ Htc) by done. unfold room_of. by rewrite Hr.
  - intros r Hne. by rewrite Hcv, Hc.
  - intros r Hne. by rewrite Htb, Hcr.
  - by rewrite (tc_pubsub _ _ _ Htc).
  - by rewrite (tc_clients _ _ _ Htc).
Qed.

Lemma loaded_before name s s1 m : stores_stay s s1 → loaded name s1 m → loaded name s m.
Proof.
  intros [_ _ _ Hs] [->|(data & Hd & Hp)]; [by left|]. right. exists data.
  destruct (Hs name) as [<-|Hn]; [done|congruence].
Qed.

End confined.

(** C5: A command on keys, through [execute], is exactly its handler on the
    client's room. For every name of the table whose scope is the room, in any
    case of letters, from a client that is not in subscribe mode (or speaks
    RESP3): either the room is asleep and the budget is spent, and the reply is
    the ROOMS FULL error with the room still asleep; or the room is active,
    with the keys it had or those of its snapshot, the reply is the handler's,
    and the logical map, the clock, the tombstones and the log are those the
    handler left (the eviction that follows hides nothing). Whatever happens,
    the other rooms, their cold keys and tombstones, the subscriptions and the
    other clients' rooms are not touched. *)
Theorem execute_on_keys `{World} walk_channels walk_fds gauge fd name args resp3 m d :
  reads_ok → sane_clock → is_u32 local_node_id → db_ok d → clients_ok d →
  run (find_command walk_channels walk_fds gauge (upper name)) = InRoom m →
  resp3 = true ∨ is_subscribed fd (pubsub_ d) = false →
  let room_name := default (str "default") (client_rooms d !! fd) in
  let c := Call_ fd (upper name) (name :: args) room_name in
  let '(out, d') := execute walk_channels walk_fds gauge fd (name :: args) resp3 d in
  out.2 = [] ∧ confined room_name fd d d'
  ∧ (out.1 = ROOMS_FULL ∧ state (room_of room_name d) = Sleeping
       ∧ state (room_of room_name d') = Sleeping ∧ crdt (db_sh d') = crdt (db_sh d)
     ∨ ∃ x, command_effect m c resp3 out.1 d d' x).
Proof.
  intros Hreads Hsane Hnode Hok Hcl Hrun Hsub room_name c.
  enough (Hw : wp (execute walk_channels walk_fds gauge fd (name :: args) resp3) (λ out d',
    out.2 = [] ∧ confined room_name fd d d'
    ∧ (out.1 = ROOMS_FULL ∧ state (room_of room_name d) = Sleeping
       ∧ state (room_of room_name d') = Sleeping ∧ crdt (db_sh d') = crdt (db_sh d)
       ∨ ∃ x, command_effect m c resp3 out.1 d d' x)) d).
  { unfold wp in Hw. by destruct (execute _ _ _ _ _ _ d). }
  unfold execute. apply wp_bind. eapply wp_mono; [by apply prepare_spec|]. intros rn d1 Hpre.
  pose proof Hpre as [Hs Hr Hp _ H3 Hst Hrn Hc]. change (rn = room_name) in Hrn. subst rn.
  apply wp_bind, wp_gets. rewrite Hp.
  assert (E : negb resp3 && is_subscribed fd (pubsub_ d) = false).
  { destruct Hsub as [->| ->]; [done|]. by rewrite andb_false_r. }
  rewrite <- andb_assoc, E, andb_false_r.
  assert (Hroom : keeps m).
  { pose proof (room_commands_keep Hreads Hsane Hnode walk_channels walk_fds gauge (upper name)) as Hroom.
    unfold room_safe in Hroom. by rewrite Hrun in Hroom. }
  assert (Hgo : ∀ d2, db_ok d2 → rooms d2 = rooms d1 → db_sh d2 = db_sh d1 → resp3_ d2 = resp3 →
    elsewhere room_name d1 d2 → wp (dispatch (find_command walk_channels walk_fds gauge (upper name)) c) (λ out d',
      out.2 = [] ∧ confined room_name fd d d'
      ∧ (out.1 = ROOMS_FULL ∧ state (room_of room_name d) = Sleeping
         ∧ state (room_of room_name d') = Sleeping ∧ crdt (db_sh d') = crdt (db_sh d)
         ∨ ∃ x, command_effect m c resp3 out.1 d d' x)) d2).
  { intros d2 Hok2 Hr2 Hsh2 H32 He2. unfold dispatch. rewrite Hrun. apply wp_bind.
    assert (Hof : ∀ n, room_of n d2 = room_of n d) by (intros; unfold room_of; by rewrite Hr2, Hr).
    eapply wp_mono; [apply (execute_in_room_spec m (λ r x x', m resp3 c x = (r, x')))|].
    - done.
    - rewrite Hr2, Hr. cbn [call_room c]. unfold room_name. destruct (client_rooms d !! fd) as [n|] eqn:En; [|by left].
      by eapply Hcl.
    - intros resp3' x -> Hti. rewrite H32. pose proof (Hroom resp3 c x Hti) as Hk. unfold wp in *.
      split; [done|]. by destruct (m resp3 c x).
    - intros rep d3 (_ & He3 & _ & Hcase). apply wp_ret. cbn [call_room c fst snd only] in *.
      split; [done|]. split.
      { eapply confined_by; [exact Hpre|]. by eapply elsewhere_trans. }
      rewrite Hof, Hsh2 in Hcase. pose proof Hst as [Hcold Hm Hcrdt Hsn].
      destruct Hcase as [(-> & H1 & H2 & Hcr & _)|(Hact & x & x' & [Hmx Hti Hk (F1 & F2 & F3) Hv [T1 T2]])].
      + left. split_and!; try done. congruence.
      + right. exists x. rewrite Hof, Hsh2 in Hk. rewrite Hsh2 in F1, F2.
        split; rewrite ?Hmx; cbn [call_room c fst snd]; try assumption; try reflexivity; try congruence.
        destruct (decide _); [done|]. exact (loaded_before _ _ _ _ Hst Hk). }
  pose proof (sv_ok _ _ Hs) as Hok1.
  apply wp_bind, wp_when; intros _; [apply wp_modify|]; (apply Hgo; [|reflexivity..|exact H3|]).
  - by destruct Hok1; split.
  - apply elsewhere_same; [by split; auto|done..].
  - exact Hok1.
  - by apply elsewhere_same.
Qed.

Lemma execute_on_keys_witness :
  let W := calm default_config (2 ^ 32) in
  let args := map str ["k"; "v"]%string in
  (execute elements elements (λ _, Gauges 0 0 0 0 0 0 []) 5 (str "sEt" :: args) false one_key_db).1.2 = [].
Proof.
  intros W args.
  assert (Hsane : sane_clock (H := W)) by (intros k; split; vm_compute; done || discriminate).
  assert (Hnode : is_u32 (local_node_id (H := W))) by (vm_compute; split; discriminate).
  assert (Hcl : clients_ok one_key_db) by (intros fd name [=]).
  pose proof (execute_on_keys (H := W) elements elements (λ _, Gauges 0 0 0 0 0 0 []) 5 (str "sEt") args false
    (λ resp3 c, handle_set resp3 (call_room c) (call_args c)) one_key_db
    (calm_reads_ok default_config (2 ^ 32)) Hsane Hnode one_key_db_ok Hcl eq_refl (or_intror eq_refl)) as Hx.
  destruct (execute _ _ _ 5 _ _ one_key_db) as [out d']. exact (proj1 Hx).
Defined.

(** The commands marked as Pub/Sub, by name. *)
Lemma pubsub_commands `{World} walk_channels walk_fds gauge command :
  pubsub_cmd (find_command walk_channels walk_fds gauge command) = true →
  command ∈ map str ["SUBSCRIBE"; "UNSUBSCRIBE"; "PING"; "PUBLISH"]%string.
Proof.
  unfold find_command, kCommands. destruct (_ !! _) as [cmd|] eqn:E; [|done]. cbn [default from_option id].
  intros Hps. apply elem_of_list_to_map_2 in E.
  assert (Htable : Forall (λ p, pubsub_cmd p.2
    = bool_decide (p.1 ∈ map str ["SUBSCRIBE"; "UNSUBSCRIBE"; "PING"; "PUBLISH"]%string))
    (command_list walk_channels walk_fds gauge)).
  { repeat (apply Forall_cons; split); try apply Forall_nil; reflexivity. }
  pose proof (proj1 (Forall_forall _ _) Htable _ E) as Hin. cbn [fst snd] in Hin. rewrite Hps in Hin.
  symmetry in Hin. apply bool_decide_eq_true in Hin. unfold family in Hin.
  destruct (decide _); [|done]. by repeat (apply elem_of_cons in Hin as [Hin|Hin]; [discriminate Hin|]); apply elem_of_nil in Hin.
Qed.

(** C40: Subscribe mode. A request without arguments gets no reply and does
    nothing. From a RESP2 client with subscriptions every command but
    SUBSCRIBE, UNSUBSCRIBE, PING and PUBLISH (which are exactly the commands of
    the table marked as Pub/Sub) is refused with one error: it is not counted,
    and the rooms, what they store, the tombstones and the subscriptions are as
    before. *)
Theorem subscribe_mode_refuses `{World} walk_channels walk_fds gauge fd name args d :
  db_ok d → is_subscribed fd (pubsub_ d) = true →
  let run args := execute walk_channels walk_fds gauge fd args false d in
  run [] = (only [], d)
  ∧ (pubsub_cmd (find_command walk_channels walk_fds gauge (upper name)) = true
     ↔ upper name ∈ map str ["SUBSCRIBE"; "UNSUBSCRIBE"; "PING"; "PUBLISH"]%string)
  ∧ (pubsub_cmd (find_command walk_channels walk_fds gauge (upper name)) = false →
     let d' := (run (name :: args)).2 in
     (run (name :: args)).1 = only SUBSCRIBE_MODE
     ∧ rooms d' = rooms d ∧ pubsub_ d' = pubsub_ d ∧ total_commands d' = total_commands d
     ∧ cold (db_sh d') = cold (db_sh d) ∧ crdt (db_sh d') = crdt (db_sh d)).
Proof.
  intros Hok Hsub run_. split; [done|]. split.
  - generalize (upper name). intros command. split.
    + apply pubsub_commands.
    + intros Hin. repeat (apply elem_of_cons in Hin as [->|Hin]; [done|]). by apply elem_of_nil in Hin.
  - intros Hcmd. cbv zeta. subst run_. cbn beta.
    enough (Hw : wp (execute walk_channels walk_fds gauge fd (name :: args) false) (λ out d', out = only SUBSCRIBE_MODE
     ∧ rooms d' = rooms d ∧ pubsub_ d' = pubsub_ d ∧ total_commands d' = total_commands d
     ∧ cold (db_sh d') = cold (db_sh d) ∧ crdt (db_sh d') = crdt (db_sh d)) d) by exact Hw.
    unfold execute. apply wp_bind. eapply wp_mono; [by apply prepare_spec|].
    intros rn d1 [Hs Hr Hp Ht H3 [Hc Hm Hcr _] _ _]. apply wp_bind, wp_gets.
    rewrite Hcmd, Hp, Hsub. cbn [negb andb]. apply wp_ret. split_and!; assumption || reflexivity.
Qed.

Lemma subscribe_mode_refuses_witness :
  let W := calm default_config (2 ^ 32) in
  let d := upd_pubsub (λ _, (subscribe 5 (str "news") false no_subscriptions).2) one_key_db in
  (execute elements elements (λ _, Gauges 0 0 0 0 0 0 []) 5 (map str ["get"; "k"]%string) false d).1 = only SUBSCRIBE_MODE.
Proof.
  intros W d. assert (Hok : db_ok d) by (destruct one_key_db_ok; by split).
  assert (Hsub : is_subscribed 5 (pubsub_ d) = true) by by vm_compute.
  exact (proj1 (proj2 (proj2 (subscribe_mode_refuses (H := W) elements elements (λ _, Gauges 0 0 0 0 0 0 []) 5
    (str "get") [str "k"] d Hok Hsub)) eq_refl)).
Defined.

(** A session: the room of the client is created and activated by its first
    command, names are case-insensitive, an unknown name answers from the
    active room, and ROOM moves the client. *)
Example session :
  let W := calm default_config (2 ^ 32) in
  let run := λ args d, execute elements elements (λ _, Gauges 0 0 0 0 0 0 []) 5 (map str args) false d in
  let d0 := init_db (init_shared None ∅) in
  let d1 := (run ["set"; "k"; "v"]%string d0).2 in
  let d2 := (run ["ROOM"; "other"]%string d1).2 in
  (run ["GET"; "k"]%string d1).1 = only (bulk_string (str "v"))
  ∧ (run ["nope"]%string d1).1 = only (reply "-ERR unknown command")
  ∧ (run ["get"; "k"]%string d2).1 = only (reply "$-1")
  ∧ active_rooms d2 = 2.
Proof. vm_compute. repeat split. Qed.
