(* ===== verification/Lifetime.v ===== *)
(** * Acknowledged writes survive

    From the log to the database and back: what the records of a log determine,
    whatever table they are replayed on; that commands on keys, expiry and
    hibernation keep every room within what its log makes of it; so that a
    restart, after any crash, gives back at least what the server held. *)

From stdpp Require Import gmap relations.
From S2P Require Import Prelude FsUtil Resp Hlc Config World Types State Cold Snapshot Aof Keyspace Crdt Effects Commands CommandSpecs KeyCommands PubSub Rooms RoomSpecs RoomLife Persistence PersistSpecs Durability Rewrite Database Serving.

(** ** What a log determines *)

(** The records of the room [name], applied in order to its table. *)
Definition apply_record (name : bytes) (m : gmap bytes record) (rec : AofRecord) : gmap bytes record :=
  if decide (a_room rec = name) then apply_change (change_of rec) m else m.

(** The keys and records of the room [name] in the log. *)
Definition table (recs : list AofRecord) (name : bytes) : gmap bytes record := foldl (apply_record name) ∅ recs.

Definition writes (name key : bytes) (rec : AofRecord) : bool :=
  bool_decide (a_room rec = name) && sets_key (change_of rec) key.

Definition written (recs : list AofRecord) (name key : bytes) : bool := existsb (writes name key) recs.

(** A record of a live command, with a version in the HLC format. *)
Definition steady (rec : AofRecord) : Prop := plain (change_of rec) = true ∧ stable_change (change_of rec).

Lemma apply_lookup ch m key :
  plain ch = true → apply_change ch m !! key = if sets_key ch key then apply_change ch ∅ !! key else m !! key.
Proof.
  destruct ch as [kvs e v|k e|k v|]; cbn [plain sets_key apply_change]; intros; try done.
  - rewrite !foldl_put_latest. case_bool_decide as Hin; destruct (latest key kvs) eqn:E; try done.
    + exfalso. exact (proj1 (latest_none key kvs) E Hin).
    + exfalso. apply Hin, dec_stable. intros Hn. rewrite (proj2 (latest_none key kvs) Hn) in E. discriminate.
  - case_bool_decide as Hk; [by subst; rewrite !lookup_delete_eq|by rewrite lookup_delete_ne].
Qed.

Lemma apply_mono ch m m' : plain ch = true → m ⊆ m' → apply_change ch m ⊆ apply_change ch m'.
Proof.
  intros Hp Hsub. apply map_subseteq_spec. intros key r. rewrite (apply_lookup ch m), (apply_lookup ch m') by done.
  destruct (sets_key ch key); [done|]. intros Hk. by eapply lookup_weaken.
Qed.

Lemma table_snoc recs rec name : table (recs ++ [rec]) name = apply_record name (table recs name) rec.
Proof. unfold table. by rewrite foldl_app. Qed.

Lemma written_snoc recs rec name key :
  written (recs ++ [rec]) name key = written recs name key || writes name key rec.
Proof. unfold written. rewrite existsb_app. cbn. by rewrite orb_false_r. Qed.

(** A key the log writes has the value the log gives it, on whatever table the
    log is replayed; another keeps the value of the table. *)
Lemma replay_lookup name m recs key :
  Forall steady recs →
  foldl (apply_record name) m recs !! key = if written recs name key then table recs name !! key else m !! key.
Proof.
  induction recs as [|rec recs IH] using rev_ind; [done|]. intros [Hs [Hr _]%Forall_singleton]%Forall_app.
  rewrite table_snoc, written_snoc, foldl_app. cbn [foldl]. unfold writes, apply_record at 1 3.
  destruct (decide (a_room rec = name)) as [Hn|Hn].
  - rewrite bool_decide_true by done. cbn [andb].
    rewrite (apply_lookup _ (foldl _ _ recs)), (apply_lookup _ (table recs name)), (IH Hs) by apply Hr.
    destruct (sets_key _ key); by rewrite ?orb_true_r, ?orb_false_r.
  - rewrite bool_decide_false by done. cbn [andb]. by rewrite orb_false_r, (IH Hs).
Qed.

Lemma unwritten recs name key : Forall steady recs → written recs name key = false → table recs name !! key = None.
Proof. intros Hs Hw. unfold table. by rewrite replay_lookup, Hw. Qed.

Lemma replay_table name m recs :
  Forall steady recs → (∀ key, is_Some (m !! key) → written recs name key = true) →
  foldl (apply_record name) m recs = table recs name.
Proof.
  intros Hs Hm. apply map_eq. intros key. rewrite replay_lookup by done. destruct (written recs name key) eqn:Hw; [done|].
  rewrite unwritten by done. destruct (m !! key) eqn:E; [|done]. rewrite Hm in Hw; [done|by eexists].
Qed.

(** It is what a restart replays. *)
Lemma replay_steps `{World} name wm st recs :
  (foldl (replay_step name wm) st recs).1 = foldl (apply_record name) st.1 recs.
Proof.
  revert st. induction recs as [|rec recs IH]; intros st; [done|]. cbn [foldl]. rewrite IH. f_equal.
  unfold replay_step, apply_record. destruct (decide _); [|done]. by destruct st.
Qed.

(** A property of all the records a log puts. *)
Lemma table_forall (P : record → Prop) recs name :
  Forall steady recs →
  (∀ rec kvs e v kv, rec ∈ recs → change_of rec = Puts kvs e v → kv ∈ kvs → P (Record_ kv.2 e (v_ts v) (v_node v))) →
  map_Forall (λ _ r, P r) (table recs name).
Proof.
  induction recs as [|rec recs IH] using rev_ind; [intros _ _; apply map_Forall_empty|].
  intros [Hs [Hr _]%Forall_singleton]%Forall_app HP. rewrite table_snoc.
  assert (Hold : map_Forall (λ _ r, P r) (table recs name)).
  { apply IH; [done|]. intros rec' kvs e v kv Hin. apply HP. apply elem_of_app. by left. }
  unfold apply_record. destruct (decide _) as [Hn|]; [|done].
  specialize (HP rec). destruct (change_of rec) as [kvs e v|k e|k v|] eqn:Hc; try done; cbn [apply_change].
  - assert (Hkv : ∀ kv, kv ∈ kvs → P (Record_ kv.2 e (v_ts v) (v_node v))).
    { intros kv. apply HP; [apply elem_of_app; right; by left|done]. }
    clear -Hold Hkv. generalize dependent (table recs name). induction kvs as [|kv kvs IH]; intros m Hm; [done|].
    cbn [foldl]. apply IH; [intros kv' Hin; apply Hkv; by right|].
    apply map_Forall_insert_2; [apply Hkv; by left|done].
  - by apply map_Forall_delete.
Qed.

Lemma pairs_in l kv : kv ∈ pairs_of l → kv.2 ∈ l.
Proof.
  induction l as [l IH] using (induction_ltof1 _ (@length bytes)). unfold ltof in IH.
  destruct l as [|k [|v l]]; [by intros ?%elem_of_nil..|]. cbn [pairs_of].
  intros [->|Hin]%elem_of_cons; [right; by left|]. right. right. apply IH; [cbn; lia|done].
Qed.

(** Every value of the log was an argument. *)
Lemma puts_values rec kvs e v kv :
  Forall (λ a, len a <= kMaxBulk) (a_args rec) → change_of rec = Puts kvs e v → kv ∈ kvs → len kv.2 <= kMaxBulk.
Proof.
  intros Ha. rewrite Forall_forall in Ha.
  assert (H2 : len (arg (a_args rec) 2) <= kMaxBulk).
  { unfold arg. destruct (nth_in_or_default 2 (a_args rec) []) as [Hin|E]; [by apply Ha, list_elem_of_In|].
    rewrite E. by vm_compute. }
  unfold change_of. destruct (_ || _).
  - destruct (replay_version _ rec) as [[ts node]|]; [|done]. intros [= <- _ _] ->%list_elem_of_singleton. exact H2.
  - destruct (eqs "MSET" _).
    + intros [= <- _ _] Hin%pairs_in. apply Ha. rewrite <- (take_drop 1 (a_args rec)). apply elem_of_app. by right.
    + destruct (_ && _); [done|]. by destruct (_ || _).
Qed.

(** ** What the server holds of a room *)

(** The table of the snapshot file of the room [name]. *)
Definition disk_table (name : bytes) (s : shared) : gmap bytes record :=
  default ∅ (snaps s !! name ≫= parse_snapshot).

(** The resident keys of an active room, those of the snapshot of a sleeping
    one, and the cold ones. *)
Definition content (name : bytes) (d : db) : gmap bytes record :=
  (if decide (state (room_of name d) = Active) then keys (room_of name d) else disk_table name (db_sh d))
  ∪ cold_view (cold (db_sh d)) name.

(** The log [recs] accounts for every room. *)
Record accounted (recs : list AofRecord) (d : db) : Prop := {
  ac_log : log_holds (aof (db_sh d)) recs;
  ac_steady : Forall steady recs;
  ac_content : ∀ name, content name d ⊆ table recs name;
  ac_disk : ∀ name key, is_Some (disk_table name (db_sh d) !! key) → written recs name key = true
}.

Section content.
  Context `{World}.

Lemma union_part (m m' c : gmap bytes record) : m' = ∅ ∨ m' = m → m ##ₘ c → m' ∪ c ⊆ m ∪ c.
Proof. intros [-> | ->] Hd; [|done]. rewrite map_empty_union. by apply map_union_subseteq_r. Qed.

Lemma union_sub (m m' c : gmap bytes record) : m' ⊆ m → m ##ₘ c → m' ∪ c ⊆ m ∪ c.
Proof. intros Hs Hd. apply map_union_mono_r; [by apply map_disjoint_sym|done]. Qed.

Lemma loaded_disk name s m : loaded name s m → m = ∅ ∨ m = disk_table name s.
Proof. intros [->|(data & Hd & Hp)]; [by left|right]. unfold disk_table. rewrite Hd. cbn. by rewrite Hp. Qed.

Lemma disk_shrinks name s s' : snaps_shrink s s' → disk_table name s' = ∅ ∨ disk_table name s' = disk_table name s.
Proof. intros Hs. unfold disk_table. destruct (Hs name) as [-> | ->]; auto. Qed.

Lemma disk_disjoint name d :
  db_ok d → state (room_of name d) = Sleeping → disk_table name (db_sh d) ##ₘ cold_view (cold (db_sh d)) name.
Proof.
  intros Hok Hs. pose proof (dk_asleep _ Hok name Hs) as Ha. unfold disk_table, asleep_ok in *.
  destruct (snaps (db_sh d) !! name) as [data|] eqn:E; [|apply map_disjoint_empty_l].
  cbn. destruct (parse_snapshot data) as [m|] eqn:Hp; [|apply map_disjoint_empty_l]. by eapply Ha.
Qed.

Lemma room_sleeps name d : db_ok d → state (room_of name d) ≠ Active → state (room_of name d) = Sleeping.
Proof. intros Hok Hn. by destruct (rk_state _ (room_of_ok name d Hok)) as [?|[? _]]. Qed.

Lemma content_active name d : state (room_of name d) = Active → content name d = view name (ctx_of name d).
Proof. intros Hs. unfold content. by rewrite decide_True. Qed.

Lemma content_asleep name d :
  state (room_of name d) = Sleeping → content name d = disk_table name (db_sh d) ∪ cold_view (cold (db_sh d)) name.
Proof. intros Hs. unfold content. by rewrite decide_False by congruence. Qed.

Lemma content_same name d d' :
  room_of name d' = room_of name d → snaps (db_sh d') !! name = snaps (db_sh d) !! name →
  cold_view (cold (db_sh d')) name = cold_view (cold (db_sh d)) name → content name d' = content name d.
Proof. intros Hr Hs Hc. unfold content, disk_table. by rewrite Hr, Hs, Hc. Qed.

(** The context of a command holds no more than the room. *)
Lemma view_content R name rep d d' x x' :
  db_ok d → ran R name rep d d' x x' → view name x ⊆ content name d.
Proof.
  intros Hok [_ _ Hk (Hc & _ & _) _ _]. unfold view, content. rewrite Hc.
  destruct (decide _) as [Ha|Hn]; [by rewrite Hk|]. apply union_part; [by apply loaded_disk|].
  apply disk_disjoint; [done|]. by apply room_sleeps.
Qed.

(** Another accounting with the same log. *)
Lemma accounted_less recs d d' :
  accounted recs d → aof (db_sh d') = aof (db_sh d) → (∀ name, content name d' ⊆ content name d) →
  (∀ name key, is_Some (disk_table name (db_sh d') !! key) → is_Some (disk_table name (db_sh d) !! key)
     ∨ is_Some (content name d !! key)) → accounted recs d'.
Proof.
  intros [Hl Hs Hc Hd] Ha Hc' Hd'. split; [by rewrite Ha|done|intros name; by trans (content name d)|].
  intros name key Hk. destruct (Hd' name key Hk) as [Hk'|[r Hk']]; [by apply Hd|].
  destruct (written recs name key) eqn:Hw; [done|].
  pose proof (lookup_weaken _ _ _ _ Hk' (Hc name)) as Ht. by rewrite unwritten in Ht.
Qed.

Lemma disk_less s s' name key :
  snaps_shrink s s' → is_Some (disk_table name s' !! key) → is_Some (disk_table name s !! key).
Proof. intros Hs. destruct (disk_shrinks name s s' Hs) as [-> | ->]; [by rewrite lookup_empty; intros []|done]. Qed.

End content.

(** ** The steps *)

(** The request and the room's name fit a record of the log. *)
Definition fits_log (c : Call) : Prop :=
  len (call_args c) + 5 <= kMaxArgs ∧ Forall (λ a, len a <= kMaxBulk) (call_room c :: call_args c).

(** Every version of the log [file] is in the HLC format. *)
Definition stable_log (file : option bytes) : Prop :=
  ∀ recs, Forall valid_record recs → file = Some (log_bytes recs) → Forall (λ rec, stable_ts (a_ts rec)) recs.

(** The commands on keys; a DEL of one key (of several, each key is a record of
    its own). *)
Definition on_keys_call (c : Call) : Prop :=
  call_command c = upper (arg (call_args c) 0)
  ∧ call_command c ∈ map str ["GET"; "SET"; "DEL"; "CRDTMERGE"; "CRDTDEL"; "MGET"; "MSET"; "EXISTS"; "EXPIRE";
                              "PEXPIRE"; "PERSIST"; "TTL"; "PTTL"]%string
  ∧ (call_command c = str "DEL" → length (call_args c) = 2%nat).

Section life.
  Context `{World} (Hreads : reads_ok) (Hsane : sane_clock) (Hnode : is_u32 local_node_id).

Lemma table_values recs name :
  Forall steady recs → Forall valid_record recs → map_Forall (λ _ r, len (r_value r) <= kMaxBulk) (table recs name).
Proof.
  intros Hs Hv. apply (table_forall (λ r, len (r_value r) <= kMaxBulk)); [done|].
  intros rec kvs e v kv Hin Hc Hkv. rewrite Forall_forall in Hv. destruct (Hv rec Hin) as [_ Ht _ _ _].
  apply Forall_cons in Ht as [_ Ht]. by eapply puts_values.
Qed.

Lemma table_stable recs name : Forall steady recs → map_Forall (λ _ r, stable_record r) (table recs name).
Proof.
  intros Hs. apply (table_forall stable_record); [done|]. intros rec kvs e v kv Hin Hc _.
  rewrite Forall_forall in Hs. destruct (Hs rec Hin) as [_ Hst]. by rewrite Hc in Hst.
Qed.

Lemma mirrored_valid c x x' rec :
  fits_log c → mirrored (call_room c) (call_args c) x x' rec →
  map_Forall (λ _ r, len (r_value r) <= kMaxBulk) (view (call_room c) x) → valid_record rec.
Proof.
  intros [Hcount [Hroom Hargs]%Forall_cons] [Hr _ Htok (He & Hts & Hn) _ _] Hval.
  destruct Htok as [Ha|(key & Hin & Ha)]; [split; rewrite ?Ha, ?Hr; try done; by constructor|].
  pose proof (proj1 (Forall_forall _ _) Hargs key Hin) as Hkey.
  destruct Ha as [Ha|(r & Hv & Ha)]; split; rewrite ?Ha, ?Hr; try done; repeat (constructor; [|]); try done.
  by apply (Hval key).
Qed.

(** A room the command changed without a record. *)
Lemma unlogged_accounted name recs d d' :
  accounted recs d → touches name d d' → snaps_shrink (db_sh d) (db_sh d') → aof (db_sh d') = aof (db_sh d) →
  (∀ name', name' ≠ name → content name' d' = content name' d) → content name d' ⊆ content name d →
  accounted recs d'.
Proof.
  intros Hac Ht Hsn Ha Ho Hc. apply (accounted_less recs d d'); [done|done| |].
  - intros name'. destruct (decide (name' = name)) as [->|Hne]; [done|by rewrite Ho].
  - intros name' key Hk. left. by eapply disk_less.
Qed.

(** A room the command changed with a record. *)
Lemma logged_accounted c recs d d' x x' rec :
  let name := call_room c in
  accounted recs d → fits_log c → snaps_shrink (db_sh d) (db_sh d') → aof (c_sh x) = aof (db_sh d) →
  aof (db_sh d') = aof (c_sh x') → view name x ⊆ content name d → content name d' = view name x' →
  (∀ name', name' ≠ name → content name' d' = content name' d) →
  mirrored name (call_args c) x x' rec → healthy (aof (db_sh d')) = true → stable_log (aof_file (aof (db_sh d'))) →
  accounted (recs ++ [rec]) d'.
Proof.
  intros name [Hl Hs Hc Hd] Hfit Hsn Hax Had Hvx Hcd Ho Hmi Hh Hst.
  assert (Hsub : view name x ⊆ table recs name) by (trans (content name d); [done|apply Hc]).
  assert (Hv : valid_record rec).
  { eapply mirrored_valid; [done|exact Hmi|]. intros key r Hk.
    apply (table_values recs name Hs (lh_valid _ _ Hl) key). by eapply lookup_weaken. }
  destruct Hmi as [Hroom (s1 & E1 & E2) _ _ Hplain Heff].
  assert (Hl' : log_holds (aof (db_sh d')) (recs ++ [rec])).
  { pose proof (append_healthy name (a_args rec) (a_expire rec) (a_ts rec) (a_node rec) recs s1) as Happ. cbv zeta in Happ.
    replace (AofRecord_ name _ _ _ _) with rec in Happ by (rewrite <- Hroom; by destruct rec).
    rewrite E1, Hax in Happ. rewrite Had, E2 in Hh |- *. by apply (Happ Hl Hv). }
  pose proof (Hst _ (lh_valid _ _ Hl') (lh_file _ _ Hl')) as Hstable.
  destruct (proj1 (Forall_app _ _ _) Hstable) as [_ Hrs]. rewrite Forall_singleton in Hrs. destruct (Heff Hrs) as [Hsc Hap].
  split; [done|by apply Forall_app; split; [|apply Forall_singleton; split]| |].
  - intros n. rewrite table_snoc. unfold apply_record. rewrite Hroom. destruct (decide (name = n)) as [<-|Hne].
    + rewrite Hcd, <- Hap. by apply apply_mono.
    + rewrite Ho by done. apply Hc.
  - intros n key Hk. rewrite written_snoc, (Hd n key); [done|]. by eapply disk_less.
Qed.

(** Without a record the room only lost keys; else the record mirrors it. *)
Definition within (c : Call) (x x' : ctx) : Prop :=
  (aof (c_sh x') = aof (c_sh x) ∧ view (call_room c) x' ⊆ view (call_room c) x)
  ∨ ∃ rec, mirrored (call_room c) (call_args c) x x' rec.

(** A command that keeps a room mirrored keeps the database accounted for. *)
Lemma command_accounted m c recs d :
  db_ok d → accounted recs d → fits_log c →
  call_room c = str "default" ∨ is_Some (rooms d !! call_room c) →
  (∀ resp3 x, tidy (call_room c) x →
     wp (m resp3 c) (λ _ x', kept (call_room c) x x' ∧ within c x x') x) →
  wp (execute_in_room m c) (λ _ d', db_ok d' ∧ (healthy (aof (db_sh d')) = true → stable_log (aof_file (aof (db_sh d'))) →
    ∃ recs', recs `prefix_of` recs' ∧ accounted recs' d')) d.
Proof.
  intros Hok Hac Hfit Hreg Hm.
  eapply wp_mono; [apply (execute_in_room_spec m (λ _, within c)); [done..|]|].
  { intros resp3 x _. apply Hm. }
  cbn beta zeta. intros rep d' (Hs & [Ht Hcv _] & Hsn & Hcase). split; [apply Hs|].
  assert (Hother : ∀ name, name ≠ call_room c → content name d' = content name d).
  { intros name Hne. apply content_same; [by apply (tc_rooms _ _ _ Ht)|by apply (tc_snaps _ _ _ Ht)|by apply Hcv]. }
  intros Hh Hst. set (name := call_room c) in *.
  destruct Hcase as [(-> & H1 & H2 & _ & Ha & Hco)|(Hact & x & x' & Hran)].
  { exists recs. split; [done|]. eapply (unlogged_accounted name); try done. rewrite !content_asleep, Hco by done.
    apply union_part; [by apply disk_shrinks|by apply disk_disjoint]. }
  pose proof (view_content _ _ _ _ _ _ _ Hok Hran) as Hvx. destruct Hran as [HR _ _ (_ & _ & Hax) Hv (_ & Had)].
  assert (Hcd : content name d' = view name x') by (by rewrite content_active, Hv).
  destruct HR as [[Ha Hexp]|[rec Hmi]].
  - exists recs. split; [done|]. eapply (unlogged_accounted name); try done; [congruence|].
    rewrite Hcd. by trans (view name x).
  - exists (recs ++ [rec]). split; [by apply prefix_app_r|]. by eapply logged_accounted.
Qed.

(** *** The commands on keys *)

Lemma durable_within (m : M ctx bytes) c x :
  wp m (λ _ x', durable_step (call_room c) (call_args c) x x') x → wp m (λ _ x', within c x x') x.
Proof.
  intros Hw. eapply wp_mono; [exact Hw|]. intros _ x' [[Ha [Hs _]]|Hr]; [by left|by right].
Qed.

Lemma get_within resp3 c x :
  tidy (call_room c) x → wp (handle_get resp3 (call_room c) (call_args c)) (λ _ x', within c x x') x.
Proof.
  intros Hti. destruct (decide (length (call_args c) = 2%nat)) as [Hl|Hl].
  - eapply wp_mono; [by apply handle_get_spec|]. cbn beta. intros _ x' (_ & _ & Hv & _ & Ha). left.
    rewrite Hv. split; [done|apply prune_sub].
  - unfold handle_get. rewrite (proj2 (Nat.eqb_neq _ _)) by done. apply wp_ret. by left.
Qed.

Lemma ttl_within millis c x :
  tidy (call_room c) x → wp (handle_ttl millis (call_room c) (call_args c)) (λ _ x', within c x x') x.
Proof.
  intros Hti. destruct (decide (length (call_args c) = 2%nat)) as [Hl|Hl].
  - eapply wp_mono; [by apply handle_ttl_spec|]. cbn beta. intros _ x' (_ & Hv & _ & Ha & _). left.
    rewrite Hv. split; [done|apply prune_sub].
  - unfold handle_ttl. rewrite (proj2 (Nat.eqb_neq _ _)) by done. apply wp_ret. by left.
Qed.

Lemma mget_within resp3 c x :
  tidy (call_room c) x → wp (handle_mget resp3 (call_room c) (call_args c)) (λ _ x', within c x x') x.
Proof.
  intros Hti. destruct (decide (2 ≤ length (call_args c))%nat) as [Hl|Hl].
  - eapply wp_mono; [by apply handle_mget_spec|]. intros _ x' [Hr _]. left. by destruct Hr.
  - unfold handle_mget. rewrite (proj2 (Nat.ltb_lt _ _)) by lia. apply wp_ret. by left.
Qed.

Lemma exists_within c x :
  tidy (call_room c) x → wp (handle_exists (call_room c) (call_args c)) (λ _ x', within c x x') x.
Proof.
  intros Hti. destruct (decide (2 ≤ length (call_args c))%nat) as [Hl|Hl].
  - eapply wp_mono; [by apply handle_exists_spec|]. intros _ x' [Hr _]. left. by destruct Hr.
  - unfold handle_exists. rewrite (proj2 (Nat.ltb_lt _ _)) by lia. apply wp_ret. by left.
Qed.

Context (walk_channels : gset bytes → list bytes) (walk_fds : gset Z → list Z) (gauge : nat → gauges).
Local Abbreviation find_command := (find_command walk_channels walk_fds gauge).

(** The handler of the table. *)
Ltac handler_is Hrun h :=
  match type of Hrun with
  | run ?f = _ =>
      let E := fresh in
      assert (E : run f = InRoom (λ r c, h r (call_room c) (call_args c))) by reflexivity;
      rewrite E in Hrun; injection Hrun as <-
  end.

Lemma key_command_within c m :
  on_keys_call c → run (find_command (call_command c)) = InRoom m →
  ∀ resp3 x, tidy (call_room c) x →
    wp (m resp3 c) (λ _ x', kept (call_room c) x x' ∧ within c x x') x.
Proof.
  intros (Hname & Hin & Hdel) Hrun resp3 x Hti.
  pose proof (room_commands_keep Hreads Hsane Hnode walk_channels walk_fds gauge (call_command c)) as Hkeep.
  unfold room_safe in Hkeep. rewrite Hrun in Hkeep. apply wp_and; [by apply Hkeep|]. clear Hkeep.
  cbn [map] in Hin. repeat (apply elem_of_cons in Hin as [Hc|Hin]); [..|by apply elem_of_nil in Hin];
    rewrite Hc in Hrun.
  - handler_is Hrun handle_get. by apply get_within.
  - handler_is Hrun handle_set. apply durable_within, set_mirrors; first [assumption | rewrite <- Hname; exact Hc].
  - handler_is Hrun (λ _ : bool, handle_del). apply durable_within, del_mirrors; auto.
  - handler_is Hrun (λ _ : bool, handle_crdtmerge). apply durable_within, merge_mirrors; first [assumption | rewrite <- Hname; exact Hc].
  - handler_is Hrun (λ _ : bool, handle_crdtdel). apply durable_within, crdtdel_mirrors; first [assumption | rewrite <- Hname; exact Hc].
  - handler_is Hrun handle_mget. by apply mget_within.
  - handler_is Hrun (λ _ : bool, handle_mset). apply durable_within, mset_mirrors; first [assumption | rewrite <- Hname; exact Hc].
  - handler_is Hrun (λ _ : bool, handle_exists). by apply exists_within.
  - handler_is Hrun (λ _ : bool, handle_expire 1000). apply durable_within, expire_mirrors; auto.
  - handler_is Hrun (λ _ : bool, handle_expire 1). apply durable_within, expire_mirrors; auto.
  - handler_is Hrun (λ _ : bool, handle_expire 0). apply durable_within, expire_mirrors; auto.
  - handler_is Hrun (λ _ : bool, handle_ttl false). by apply ttl_within.
  - handler_is Hrun (λ _ : bool, handle_ttl true). by apply ttl_within.
Qed.

(** *** Maintenance *)

Lemma expire_accounted name now recs d :
  db_ok d → accounted recs d → wp (in_room name (clean_room now)) (λ _ d', db_ok d' ∧ accounted recs d') d.
Proof.
  intros Hok Hac. eapply wp_mono; [by apply clean_one|].
  intros _ d' (Hok' & Ht & _ & Hst & Hk & Hc & Ha & Hs). split; [done|].
  eapply (unlogged_accounted name); try done; [by apply shrink_same| |].
  - intros n Hne. apply content_same; [by apply (tc_rooms _ _ _ Ht)|by rewrite Hs|by rewrite Hc].
  - unfold content, disk_table. rewrite Hst, Hc, Hs. destruct (decide _); [|done].
    apply union_sub; [|apply (dk_disj _ Hok name)]. apply map_subseteq_spec. intros key r. rewrite Hk. unfold live.
    destruct (keys (room_of name d) !! key) as [r0|]; cbn; [|done]. by destruct (expired r0 now).
Qed.

Lemma idle_accounted name recs d :
  db_ok d → addressable (keys (room_of name d)) → accounted recs d →
  wp (hibernate_if_idle name) (λ _ d', db_ok d' ∧ accounted recs d') d.
Proof.
  intros Hok Hadr Hac. eapply wp_mono; [by apply hibernate_if_idle_spec|].
  intros _ d' (Hok' & Ht & _ & Hsn & (Hc & Ha) & Hcase). split; [done|].
  assert (Hother : ∀ n, n ≠ name → content n d' = content n d).
  { intros n Hne. apply content_same; [by apply (tc_rooms _ _ _ Ht)|by apply Hsn|by rewrite Hc]. }
  destruct Hcase as [[Hr Hs]|[(Hact & Hsl & file & Hf & Hp) _]].
  - eapply (unlogged_accounted name); try done.
    + intros n. left. destruct (decide (n = name)) as [->|Hne]; [done|by apply Hsn].
    + rewrite (content_same name d d'); [done..|by rewrite Hc].
  - assert (Hdisk : disk_table name (db_sh d') = keys (room_of name d)).
    { unfold disk_table. rewrite Hf. cbn. rewrite Hp. cbn. apply reload_map_stable; [apply (room_of_ok name d Hok)|].
      intros key r Hk. apply (table_stable recs name (ac_steady _ _ Hac) key). eapply lookup_weaken; [|apply Hac].
      rewrite content_active by done. unfold view, ctx_of. cbn [c_room c_sh]. by apply lookup_union_Some_l. }
    assert (Hname : content name d' = content name d).
    { rewrite content_asleep, content_active, Hdisk, Hc by done. done. }
    apply (accounted_less recs d d'); [done|done| |].
    + intros n. destruct (decide (n = name)) as [->|Hne]; [by rewrite Hname|by rewrite Hother].
    + intros n key Hk. destruct (decide (n = name)) as [->|Hne].
      * right. rewrite Hdisk in Hk. destruct Hk as [r Hk]. exists r. rewrite content_active by done.
        unfold view, ctx_of. cbn [c_room c_sh]. by apply lookup_union_Some_l.
      * left. unfold disk_table in *. by rewrite <- Hsn.
Qed.

(** *** A life of the server *)

(** A command on keys after which the server reports a healthy log; the
    watchdog's work on a room; the end of a connection. *)
Inductive life_step (d : db) : db → Prop :=
  | Life_command c m :
      run (find_command (call_command c)) = InRoom m → on_keys_call c → fits_log c →
      call_room c = str "default" ∨ is_Some (rooms d !! call_room c) →
      healthy (aof (db_sh (execute_in_room m c d).2)) = true →
      stable_log (aof_file (aof (db_sh (execute_in_room m c d).2))) → life_step d (execute_in_room m c d).2
  | Life_expire name now : life_step d (in_room name (clean_room now) d).2
  | Life_idle name : addressable (keys (room_of name d)) → life_step d (hibernate_if_idle name d).2
  | Life_hangup f : life_step d (cleanup_client walk_channels f d).2.

Lemma hangup_same f d : ∃ p m, (cleanup_client walk_channels f d).2 = upd_client_rooms m (upd_pubsub p d).
Proof.
  unfold cleanup_client, bind, zoom, modify. destruct (remove_client walk_channels f (pubsub_ d)) as [u p].
  by exists (λ _, p), (delete f).
Qed.

Lemma life_accounted recs d d' :
  db_ok d → accounted recs d → life_step d d' → db_ok d' ∧ ∃ recs', recs `prefix_of` recs' ∧ accounted recs' d'.
Proof.
  intros Hok Hac [c m Hrun Hkey Hfit Hreg Hh Hst|name now|name Hadr|f].
  - destruct (command_accounted m c recs d Hok Hac Hfit Hreg (key_command_within c m Hkey Hrun)) as [Hok' Hr].
    split; [done|by apply Hr].
  - destruct (expire_accounted name now recs d Hok Hac). split; [done|by exists recs].
  - destruct (idle_accounted name recs d Hok Hadr Hac). split; [done|by exists recs].
  - destruct (hangup_same f d) as (p & m & E). rewrite E.
    split; [destruct Hok; by split|]. exists recs. split; [done|]. destruct Hac. by split.
Qed.

Lemma lives_accounted recs d d' :
  db_ok d → accounted recs d → rtc life_step d d' → db_ok d' ∧ ∃ recs', recs `prefix_of` recs' ∧ accounted recs' d'.
Proof.
  intros Hok Hac Hs. revert recs Hok Hac. induction Hs as [d|d1 d2 d3 Hstep _ IH]; intros recs Hok Hac.
  { split; [done|by exists recs]. }
  destruct (life_accounted recs d1 d2 Hok Hac Hstep) as (Hok2 & recs2 & Hp2 & Hac2).
  destruct (IH recs2 Hok2 Hac2) as (Hok3 & recs3 & Hp3 & Hac3). split; [done|]. exists recs3. split; [by trans recs2|done].
Qed.

End life.

(** ** Restarts *)

Section restart.
  Context `{World}.

(** A restart holds what the log makes of every room. *)
Lemma restart_content recs tail_ sn :
  let d := init_db (init_shared (Some (log_bytes recs ++ tail_)) sn) in
  Forall valid_record recs → Forall steady recs → cut_of tail_ → succeeds 0 = true →
  (∀ name key, is_Some (disk_table name (db_sh d) !! key) → written recs name key = true) →
  let d' := (start_database d).2 in
  fresh_start d d' ∧ db_ok d'
  ∧ (aof_file (aof (db_sh d')) = Some (log_bytes recs) ∨ aof_file (aof (db_sh d')) = Some (log_bytes recs ++ tail_))
  ∧ ∀ name, content name d' = table recs name
      ∧ (Exists (mentions name) recs → state (room_of name d') = Active ∧ keys (room_of name d') = table recs name).
Proof.
  intros d Hv Hs Hcut Hop Hdisk d'.
  destruct (start_database_spec recs tail_ sn Hv Hcut Hop) as (Hf & Hok & Hlog & _ & Hfile). fold d in Hf. fold d' in Hf, Hok, Hlog, Hfile.
  split_and!; try done. intros name.
  assert (Hcold : cold_view (cold (db_sh d')) name = ∅).
  { unfold cold_view. rewrite (fs_cold _ _ Hf), lookup_empty. apply fmap_empty. }
  destruct (Hlog name) as [Hin Hout]. destruct (decide (Exists (mentions name) recs)) as [He|He].
  - destruct (Hin He) as (Hact & m0 & Hm0 & Hdata).
    assert (Hk : keys (room_of name d') = table recs name).
    { apply (f_equal fst) in Hdata. etrans; [exact Hdata|]. rewrite replay_steps. cbn [fst].
      apply replay_table; [done|]. intros key Hk0. apply (Hdisk name). unfold start_table in Hm0.
      rewrite decide_False in Hm0 by done. apply loaded_disk in Hm0 as [->| ->]; [by rewrite lookup_empty in Hk0; destruct Hk0|done]. }
    split; [|done]. unfold content. by rewrite decide_True, Hk, Hcold, map_union_empty by done.
  - destruct (Hout He) as (Hr & _ & Hsn). split; [|done].
    assert (Hnone : ∀ key, written recs name key = false).
    { intros key. destruct (written recs name key) eqn:Hw; [|done]. destruct He.
      unfold written in Hw. apply existsb_exists in Hw as (rec & Hrec & Hw). apply Exists_exists. exists rec.
      split; [by apply list_elem_of_In|]. apply andb_true_iff in Hw as [Hn%bool_decide_eq_true Hk]. split; [done|].
      intros Ha. by rewrite (no_args_skip rec Ha) in Hk. }
    assert (Hsl : state (room_of name d') = Sleeping) by (etrans; [exact (f_equal state Hr)|done]).
    rewrite content_asleep, Hcold, map_union_empty by done.
    apply map_eq. intros key. rewrite (unwritten recs name key Hs (Hnone key)).
    assert (Hdt : disk_table name (db_sh d') = disk_table name (db_sh d)) 
      by exact (f_equal (λ o, default ∅ (o ≫= parse_snapshot)) Hsn).
    rewrite Hdt.
    destruct (disk_table name (db_sh d) !! key) eqn:E; [|done].
    pose proof (Hnone key) as Hw. rewrite (Hdisk name key) in Hw; [done|by eexists].
Qed.

End restart.

(** ** Properties *)

(** Acknowledged writes survive. A server starts on a log of commands in the
    HLC format and on snapshots of keys that the log writes; then it lives any
    life of commands on keys (reads, SET, MSET, DEL of a key, the CRDT writes
    and deadlines, in any rooms, with the eviction that follows each), of expiry
    and hibernation by the watchdog and of ends of connections, as long as it
    reports a healthy log after each command. Whenever it stops, its log is the
    one it started with followed by the records of its commands, and a restart
    (even on a log with a torn record at its end, and in a world with another
    clock) holds in every room at least every key the server held (in RAM, in
    its snapshot or in cold storage), with its value, deadline and version, and
    exactly what the records of the log, applied in order, make of the room: no
    acknowledged write is lost and no acknowledged removal undone. *)
Theorem acknowledged_writes_survive `{W : World} walk_channels walk_fds gauge recs0 sn d :
  let d0 := (start_database (init_db (init_shared (Some (log_bytes recs0)) sn))).2 in
  reads_ok → sane_clock → is_u32 local_node_id → succeeds 0 = true →
  Forall valid_record recs0 → Forall steady recs0 →
  (∀ name key, is_Some (disk_table name (init_shared None sn) !! key) → written recs0 name key = true) →
  rtc (life_step walk_channels walk_fds gauge) d0 d →
  ∀ (W2 : World) tail_, @succeeds W2 0 = true → cut_of tail_ →
  ∃ recs, recs0 `prefix_of` recs ∧ aof_file (aof (db_sh d)) = Some (log_bytes recs)
    ∧ let d' := (start_database (H := W2) (init_db (init_shared (Some (log_bytes recs ++ tail_)) (snaps (db_sh d))))).2 in
      @db_ok W2 d' ∧ ∀ name, content name d ⊆ content name d' ∧ content name d' = table recs name.
Proof.
  intros d0 Hreads Hsane Hnode Hop Hv Hs Hdisk Hlife W2 tail_ Hop2 Hcut.
  destruct (restart_content (H := W) recs0 [] sn) as (Hf & Hok & Hfile & Hc); try done; [by apply cut_of_nil|].
  rewrite !app_nil_r in *. fold d0 in Hf, Hok, Hfile, Hc.
  assert (Hac : accounted recs0 d0).
  { split; [split; try done; [by destruct Hfile|by apply Hf|by apply Hf]|done|intros name; by rewrite (proj1 (Hc name))|].
    intros name key Hk. apply (Hdisk name key). eapply disk_less; [|exact Hk]. apply (fs_snaps _ _ Hf). }
  destruct (lives_accounted Hreads Hsane Hnode walk_channels walk_fds gauge recs0 d0 d Hok Hac Hlife)
    as (_ & recs & Hp & [Hl Hsd Hct Hdk]).
  exists recs. split; [done|]. split; [apply Hl|].
  destruct (restart_content (H := W2) recs tail_ (snaps (db_sh d))) as (_ & Hok' & _ & Hc'); try done; [apply Hl|].
  cbv zeta. split; [done|]. intros name. destruct (Hc' name) as [E _]. by rewrite E.
Qed.

Lemma acknowledged_writes_survive_witness :
  let W := calm default_config (2 ^ 41) in
  let W2 := calm default_config 1000 in
  let c := Call_ 5 (str "SET") (map str ["set"; "k"; "v"]%string) (str "default") in
  let d0 := (start_database (H := W) (init_db (init_shared (Some (log_bytes [])) ∅))).2 in
  let d := (execute_in_room (H := W) (λ r c, handle_set (H := W) r (call_room c) (call_args c)) c d0).2 in
  ∃ file, aof_file (aof (db_sh d)) = Some file
    ∧ let d' := (start_database (H := W2) (init_db (init_shared (Some file) (snaps (db_sh d))))).2 in
      r_value <$> content (str "default") d' !! str "k" = Some (str "v").
Proof.
  intros W W2 c d0 d.
  assert (Hsane : sane_clock (H := W)) by (intros k; split; vm_compute; done || discriminate).
  assert (Hnode : is_u32 (local_node_id (H := W))) by (vm_compute; split; discriminate).
  assert (Hone : rc_records (recover_file (default [] (aof_file (aof (db_sh d)))))
    = [AofRecord_ (str "default") (map str ["set"; "k"; "v"]%string) 0 (2 ^ 57 + 1) 1]) by (vm_compute; reflexivity).
  assert (Hstable : stable_log (aof_file (aof (db_sh d)))).
  { intros recs Hv Hf. pose proof (recover_log recs [] Hv cut_of_nil) as Hr. rewrite app_nil_r in Hr.
    assert (Hd : recover_file (default [] (aof_file (aof (db_sh d)))) = recover_file (log_bytes recs)) 
      by exact (f_equal (λ o, recover_file (default [] o)) Hf).
    rewrite Hr in Hd. apply (f_equal rc_records) in Hd. cbn [rc_records] in Hd. rewrite <- Hd, Hone.
    constructor; [|constructor]. right. split; vm_compute; discriminate. }
  assert (Hlife : rtc (life_step (H := W) elements elements (λ _, Gauges 0 0 0 0 0 0 [])) d0 d).
  { apply rtc_once, (Life_command (H := W) _ _ _ d0 c); [reflexivity| | |by left|by vm_compute|exact Hstable].
    - split; [by vm_compute|]. split; [by right; left|done].
    - split; [by vm_compute|]. repeat constructor; by vm_compute. }
  assert (Hdisk0 : ∀ name key, is_Some (disk_table name (init_shared None ∅) !! key) → written [] name key = true)
    by (intros name key Hk; exact (False_ind _ (is_Some_None Hk))).
  destruct (acknowledged_writes_survive (W := W) elements elements (λ _, Gauges 0 0 0 0 0 0 []) [] ∅ d
    (calm_reads_ok default_config (2 ^ 41)) Hsane Hnode eq_refl (Forall_nil_2 _) (Forall_nil_2 _)
    Hdisk0 Hlife W2 [] eq_refl cut_of_nil) as (recs & _ & Hf & _ & Hc).
  rewrite app_nil_r in Hc. exists (log_bytes recs). split; [done|].
  destruct (Hc (str "default")) as [Hsub _].
  assert (Hk : ∃ r, content (str "default") d !! str "k" = Some r ∧ r_value r = str "v")
    by (eexists; split; vm_compute; reflexivity).
  destruct Hk as (r & Hk & Hr). cbv zeta. rewrite (lookup_weaken _ _ _ _ Hk Hsub). cbn. by rewrite Hr.
Defined.
