(* ===== verification/Replicator.v ===== *)
(** * The replicator (src/storage/replicator.cpp)

    One worker per peer ships the records this node wrote, read from the AOF
    at a saved offset, as CRDT commands; the offset moves up to the last record
    the peer confirmed. [appendonly.aof] is an argument of [ship] (its inode
    and its content when it could be opened), as is the frontier; the network
    and the TLS library are a parameter that answers the [k]-th interaction. *)

From S2P Require Import Prelude FsUtil Resp Config World Types Aof Commands.

Definition kMaxBatchBytes : Z := 4 * 1024 * 1024.
Definition kTickMs : Z := 500.
Definition kMaxBackoffMs : Z := 30000.
Definition kBeatWindow : nat := 100.

(** [Peer]; [p_conn]: [fd >= 0]; [p_saved]: the numbers in [state_file]. *)
Record Peer := Peer_ {
  p_host : bytes;
  p_port : bytes;
  p_saved : option (Z * nat);
  p_conn : bool;
  p_inode : Z;
  p_offset : nat;
  p_room : bytes;
  p_intervals : list Z;
  p_last_beat : Z;
  p_lag : nat
}.

Definition upd_saved (v : option (Z * nat)) (p : Peer) : Peer :=
  Peer_ (p_host p) (p_port p) v (p_conn p) (p_inode p) (p_offset p) (p_room p) (p_intervals p)
    (p_last_beat p) (p_lag p).
Definition upd_conn (b : bool) (p : Peer) : Peer :=
  Peer_ (p_host p) (p_port p) (p_saved p) b (p_inode p) (p_offset p) (p_room p) (p_intervals p)
    (p_last_beat p) (p_lag p).
Definition upd_at (inode : Z) (offset : nat) (p : Peer) : Peer :=
  Peer_ (p_host p) (p_port p) (p_saved p) (p_conn p) inode offset (p_room p) (p_intervals p)
    (p_last_beat p) (p_lag p).
Definition upd_room (room : bytes) (p : Peer) : Peer :=
  Peer_ (p_host p) (p_port p) (p_saved p) (p_conn p) (p_inode p) (p_offset p) room (p_intervals p)
    (p_last_beat p) (p_lag p).
Definition upd_beat (intervals : list Z) (last : Z) (p : Peer) : Peer :=
  Peer_ (p_host p) (p_port p) (p_saved p) (p_conn p) (p_inode p) (p_offset p) (p_room p) intervals
    last (p_lag p).
Definition upd_lag (lag : nat) (p : Peer) : Peer :=
  Peer_ (p_host p) (p_port p) (p_saved p) (p_conn p) (p_inode p) (p_offset p) (p_room p)
    (p_intervals p) (p_last_beat p) lag.

(** A peer of the configuration; [saved] is what its state file holds. *)
Definition new_peer (host port : bytes) (saved : option (Z * nat)) : Peer :=
  let '(inode, offset) := default (0, 0%nat) saved in
  Peer_ host port saved false inode offset [] [] 0 0.

Definition beat (now : Z) (p : Peer) : Peer :=
  let l := if p_last_beat p =? 0 then p_intervals p else
    let l := p_intervals p ++ [now - p_last_beat p] in
    if (kBeatWindow <? length l)%nat then drop 1 l else l in
  upd_beat l now p.

(** What the network answers: a connection, the TLS handshake with the
    cluster's certificate, and the bytes of an exchange (whether the request
    was written, then what [recv] returns until it fails). *)
Class Network := {
  connects : nat → bool;
  secures : nat → bool;
  exchange : nat → bytes → bool * list bytes;
  saves : nat → bool
}.

(** *** The batch *)

(** The commands that carry an own record: [send] is called on each. *)
Definition own_commands (node_id : Z) (t : list bytes) : list (list bytes) :=
  let n := length t in
  let tok i := nth i t [] in
  if (7 <=? n)%nat && bool_decide (tok (n - 4)%nat = kMetaToken)
     && bool_decide (parse_u64 (tok (n - 1)%nat) = Some node_id)
  then
    let cmd := upper (tok 1%nat) in
    if eqs "DEL" cmd || eqs "CRDTDEL" cmd then
      [[str "CRDTDEL"; tok 2%nat; tok (n - 2)%nat; tok (n - 1)%nat]]
    else
      let pairs_end := if eqs "MSET" cmd then (n - 4)%nat
                       else if eqs "SET" cmd || eqs "CRDTMERGE" cmd then 4%nat else 0%nat in
      map (λ kv, [str "CRDTMERGE"; kv.1; kv.2; tok (n - 2)%nat; tok (n - 1)%nat; tok (n - 3)%nat])
        (pairs_of (take (pairs_end - 2) (drop 2 t)))
  else [].

(** The captures of [build]: what is to be sent, how many replies it gets,
    the room selected behind it, and after each record the replies up to it
    and the offset behind it. *)
Record batch := Batch {
  b_out : bytes;
  b_expected : nat;
  b_room : bytes;
  b_marks : list (nat * nat);
  b_misaligned : bool
}.

Definition empty_batch (room : bytes) : batch := Batch [] 0 room [] false.

Definition send (room_name : bytes) (b : batch) (command : list bytes) : batch :=
  let b := if bool_decide (room_name = b_room b) then b else
    Batch (b_out b ++ encode [str "ROOM"; room_name]) (S (b_expected b)) room_name (b_marks b) false in
  Batch (b_out b ++ encode command) (S (b_expected b)) (b_room b) (b_marks b) false.

Definition mark (offset : nat) (b : batch) : batch :=
  Batch (b_out b) (b_expected b) (b_room b) (b_marks b ++ [(b_expected b, offset)]) (b_misaligned b).

(** [build]: every complete record of the buffer; a record advances by one
    byte at least, so the buffer's length is enough fuel. *)
Fixpoint build_loop (fuel : nat) (node_id : Z) (buf : bytes) (offset pos : nat) (b : batch) : batch :=
  match fuel with
  | O => b
  | S fuel =>
      match parse buf pos with
      | Complete (t, pos) =>
          let b := foldl (send (nth 0 t [])) b (own_commands node_id t) in
          build_loop fuel node_id buf offset pos (mark (offset + pos) b)
      | st =>
          Batch (b_out b) (b_expected b) (b_room b) (b_marks b)
            ((pos =? 0)%nat && match st with Malformed => true | _ => false end)
      end
  end.

Definition build (node_id : Z) (buf : bytes) (offset : nat) (room : bytes) : batch :=
  build_loop (S (length buf)) node_id buf offset 0 (empty_batch room).

(** *** The replies *)

(** The loop of [deliver]: [rest] is the input from [pos] on. A round reads a
    chunk or takes a line, so [length chunks + expected] rounds are enough. *)
Fixpoint deliver_loop (fuel : nat) (chunks : list bytes) (rest : bytes) (failed : bool)
    (todo acked : nat) : bool * nat :=
  match todo with
  | O => (true, acked)
  | S todo' =>
      match fuel with
      | O => (false, acked)
      | S fuel =>
          match find_crlf rest with
          | None =>
              match chunks with
              | [] => (false, acked)
              | c :: chunks => deliver_loop fuel chunks (rest ++ c) failed todo acked
              end
          | Some crlf =>
              let failed := failed || negb (bool_decide (rest !! 0%nat = Some "+"%char)) in
              deliver_loop fuel chunks (drop (crlf + 2) rest) failed todo'
                (if failed : bool then acked else S acked)
          end
      end
  end.

Definition deliver_replies (chunks : list bytes) (expected : nat) : bool * nat :=
  deliver_loop (length chunks + expected) chunks [] false expected 0.

(** *** One caravan *)

(** [w_sent]: the requests it has handed to the connection, in order. *)
Record worker := Worker { w_peer : Peer; w_tick : nat; w_sent : list bytes }.

Definition on_peer (f : Peer → Peer) : M worker unit :=
  modify (λ w, Worker (f (w_peer w)) (w_tick w) (w_sent w)).
Definition ask {A} (f : nat → A) : M worker A :=
  let* k := gets w_tick in
  modify (λ w, Worker (w_peer w) (S (w_tick w)) (w_sent w)) ;;
  ret (f k).

Section ship.
  Context `{World} `{Network}.

Definition node_id : Z := cfg_node_id cfg.

(** [save]: to a temporary file, then renamed. *)
Definition save : M worker unit :=
  let* ok := ask saves in
  when ok (on_peer (λ p, upd_saved (Some (p_inode p, p_offset p)) p)).

Definition deliver (out : bytes) (expected : nat) : M worker (bool * nat) :=
  modify (λ w, Worker (w_peer w) (w_tick w) (w_sent w ++ [out])) ;;
  let* '(sent, chunks) := ask (λ k, exchange k out) in
  if negb sent then ret (false, 0%nat) else ret (deliver_replies chunks expected).

Definition authenticate : M worker bool :=
  match password cfg with
  | [] => ret true
  | secret =>
      let* '(alive, acked) := deliver (encode [str "AUTH"; secret]) 1 in
      ret (alive && (acked =? 1)%nat)
  end.

(** The connection of [ship]: the open one, or a new one. *)
Definition connect : M worker bool :=
  let* open := gets (λ w, p_conn (w_peer w)) in
  if open : bool then ret true else
  let* connected := ask connects in
  on_peer (upd_room []) ;;
  if negb connected then ret false else
  on_peer (upd_conn true) ;;
  let* secured := ask secures in
  let* ok := (if secured : bool then authenticate else ret false) in
  when (negb ok) (on_peer (upd_conn false)) ;;
  ret ok.

(** The end of the records that [acked] replies confirm. *)
Fixpoint confirmed (acked : nat) (marks : list (nat * nat)) (offset : nat) : nat :=
  match marks with
  | [] => offset
  | (replies, off) :: marks => if (acked <? replies)%nat then offset else confirmed acked marks off
  end.

(** Reading and building; an oversized record is read whole. *)
Definition load (file : bytes) : M worker (bool * batch) :=
  let* p := gets w_peer in
  let size := length file in
  let want := Z.to_nat (Z.min (Z.of_nat (size - p_offset p)) kMaxBatchBytes) in
  let* '(ok, buf) := ask (λ k, pread_at k file want (p_offset p)) in
  let b := if ok : bool then build node_id buf (p_offset p) (p_room p) else empty_batch (p_room p) in
  if ok && bool_decide (b_marks b = []) && negb (b_misaligned b) && (want <? size - p_offset p)%nat then
    let* '(ok, buf) := ask (λ k, pread_at k file (size - p_offset p) (p_offset p)) in
    ret (ok, if ok : bool then build node_id buf (p_offset p) (p_room p) else empty_batch (p_room p))
  else ret (ok, b).

Definition frontier_command (frontier : Z) : bytes :=
  encode [str "REPLFRONTIER"; to_string_u node_id; to_string_u frontier].

(** A batch that got to the end of the AOF ends with the frontier; without
    anything to send, a PING. *)
Definition reached_end (read_ok : bool) (b : batch) (offset size : nat) : bool :=
  read_ok && ((match last (b_marks b) with None => offset | Some m => m.2 end) =? size)%nat.

Definition request (b : batch) (reached : bool) (frontier : Z) : bytes * nat :=
  if reached then (b_out b ++ frontier_command frontier, S (b_expected b))
  else if (b_expected b =? 0)%nat then (encode [str "PING"], 1%nat)
  else (b_out b, b_expected b).

(** After the answers: a dead connection is closed, the room is kept when the
    whole batch was confirmed, and the offset follows the confirmed records. *)
Definition conclude (b : batch) (p : Peer) (size : nat) (alive : bool) (acked : nat) : M worker bool :=
  when (negb alive) (on_peer (upd_conn false)) ;;
  let acked := if alive then acked else 0%nat in
  when (0 <? b_expected b)%nat
    (on_peer (upd_room (if (acked =? b_expected b)%nat then b_room b else []))) ;;
  let offset := confirmed acked (b_marks b) (p_offset p) in
  on_peer (upd_at (p_inode p) offset) ;;
  when (negb (offset =? p_offset p)%nat) save ;;
  on_peer (λ p, upd_lag (size - p_offset p) p) ;;
  ret alive.

(** [ship]: [true] when the peer answered. *)
Definition ship (frontier : Z) (aof : option (Z * bytes)) : M worker bool :=
  match aof with
  | None => ret false
  | Some (inode, file) =>
      let size := length file in
      let* p := gets w_peer in
      when (negb (inode =? p_inode p) || (size <? p_offset p)%nat) (on_peer (upd_at inode 0)) ;;
      on_peer (λ p, upd_lag (size - p_offset p) p) ;;
      let* connected := connect in
      if negb connected then ret false else
      let* '(read_ok, b) := load file in
      let* p := gets w_peer in
      when (read_ok && b_misaligned b && (0 <? p_offset p)%nat) (
        on_peer (upd_at (p_inode p) 0) ;; save) ;;
      let* p := gets w_peer in
      let '(out, total) := request b (reached_end read_ok b (p_offset p) size) frontier in
      let* '(alive, acked) := deliver out total in
      conclude b p size alive acked
  end.

(** One turn of the worker's loop: the next delay, and a beat of the peer that
    answered. *)
Definition worker_round (now delay frontier : Z) (aof : option (Z * bytes)) : M worker Z :=
  let* alive := ship frontier aof in
  if alive : bool then on_peer (beat now) ;; ret kTickMs
  else ret (Z.min (delay * 2) kMaxBackoffMs).

(** [n] turns; [now] is the clock of each. *)
Fixpoint worker_loop (n : nat) (now : nat → Z) (delay frontier : Z) (aof : option (Z * bytes)) : M worker Z :=
  match n with
  | O => ret delay
  | S n =>
      let* delay := worker_round (now n) delay frontier aof in
      worker_loop n now delay frontier aof
  end.

(** The constructor: [saved] is what each peer's state file holds. *)
Definition all_peers (saved : bytes → bytes → option (Z * nat)) : list Peer :=
  map (λ p, new_peer p.1 p.2 (saved p.1 p.2)) (peers cfg).

End ship.
