(* ===== verification/Shipping.v ===== *)
(** * What the replicator ships and what it takes as confirmed

    The batch that [build] makes of any piece of a log is the own records'
    commands with the ROOM changes between them; [deliver] counts the leading
    positive replies, however the stream is cut into chunks; so the offset only
    passes records whose every command was confirmed, and with a peer that
    answers it reaches the end of the log. *)

From S2P Require Import Prelude FsUtil Resp Hlc Config World Types Aof Commands Crdt Convergence Persistence PersistSpecs Durability Replicator.

(** ** The replies *)

(** The reference for [deliver]: the replies among the first [n] lines of a
    whole stream before the first that is not positive, if the lines are there. *)
Fixpoint positive_replies (n : nat) (failed : bool) (s : bytes) : option nat :=
  match n with
  | O => Some 0%nat
  | S n =>
      i ← find_crlf s;
      let failed := failed || negb (bool_decide (s !! 0%nat = Some "+"%char)) in
      k ← positive_replies n failed (drop (i + 2) s);
      Some (if failed : bool then k else S k)
  end.

Lemma head_app (s t : bytes) i :
  find_crlf s = Some i → (s ++ t) !! 0%nat = s !! 0%nat.
Proof. intros Hi%find_crlf_lt. apply lookup_app_l. lia. Qed.

Lemma deliver_loop_spec fuel chunks rest failed todo acked :
  (length chunks + todo ≤ fuel)%nat →
  match positive_replies todo failed (rest ++ mjoin chunks) with
  | Some k => deliver_loop fuel chunks rest failed todo acked = (true, (acked + k)%nat)
  | None => (deliver_loop fuel chunks rest failed todo acked).1 = false
  end.
Proof.
  revert chunks rest failed todo acked. induction fuel as [|fuel IH]; intros chunks rest failed todo acked Hf.
  { destruct todo; [|lia]. cbn. by rewrite Nat.add_0_r. }
  destruct todo as [|todo]; [cbn; by rewrite Nat.add_0_r|]. cbn [deliver_loop].
  destruct (find_crlf rest) as [i|] eqn:Hi.
  - cbn [positive_replies]. rewrite (find_crlf_ext _ _ _ Hi). cbn [mbind option_bind].
    rewrite (head_app _ _ _ Hi). pose proof (find_crlf_lt _ _ Hi) as Hlt.
    rewrite drop_app_le by lia. set (failed' := failed || _).
    specialize (IH chunks (drop (i + 2) rest) failed' todo (if failed' : bool then acked else S acked) ltac:(lia)).
    destruct (positive_replies todo failed' _) as [k|]; cbn; [|done]. rewrite IH. f_equal.
    destruct failed'; lia.
  - destruct chunks as [|c chunks].
    + cbn [mjoin list_join positive_replies]. rewrite app_nil_r, Hi. done.
    + specialize (IH chunks (rest ++ c) failed (S todo) acked ltac:(cbn in Hf; lia)).
      rewrite join_cons, app_assoc. exact IH.
Qed.

Lemma deliver_replies_spec chunks n :
  match positive_replies n false (mjoin chunks) with
  | Some k => deliver_replies chunks n = (true, k)
  | None => (deliver_replies chunks n).1 = false
  end.
Proof. apply (deliver_loop_spec _ chunks [] false n 0). lia. Qed.

Lemma positive_replies_le n failed s k : positive_replies n failed s = Some k → (k ≤ n)%nat.
Proof.
  revert failed s k. induction n as [|n IH]; intros failed s k; cbn; [intros [= <-]; lia|].
  destruct (find_crlf s) as [i|]; cbn; [|done]. destruct (positive_replies n _ _) as [k'|] eqn:E; cbn; [|done].
  apply IH in E. intros [= <-]. destruct (_ || _); lia.
Qed.

(** ** The batch *)

(** The wire form of commands, and of the tokens of a log. *)
Definition wire (cmds : list (list bytes)) : bytes := mjoin (encode <$> cmds).

Lemma wire_cons c cmds : wire (c :: cmds) = encode c ++ wire cmds.
Proof. unfold wire. by rewrite fmap_cons, join_cons. Qed.

Lemma wire_app c1 c2 : wire (c1 ++ c2) = wire c1 ++ wire c2.
Proof. unfold wire. by rewrite fmap_app, join_app. Qed.

(** The commands of a room after those before it: ROOM where it changes. *)
Fixpoint route (room : bytes) (l : list (bytes * list bytes)) : list (list bytes) :=
  match l with
  | [] => []
  | (r, c) :: l => (if bool_decide (r = room) then [] else [[str "ROOM"; r]]) ++ c :: route r l
  end.

Definition routed_to (room : bytes) (l : list (bytes * list bytes)) : bytes :=
  default room (last l.*1).

Lemma routed_to_cons room r c l : routed_to room ((r, c) :: l) = routed_to r l.
Proof. unfold routed_to. rewrite fmap_cons, last_cons. by destruct (last _). Qed.

Lemma route_app room l1 l2 : route room (l1 ++ l2) = route room l1 ++ route (routed_to room l1) l2.
Proof.
  revert room. induction l1 as [|[r c] l1 IH]; intros room; [done|].
  cbn [app route]. rewrite IH, routed_to_cons, <- app_assoc. done.
Qed.

Lemma routed_to_app room l1 l2 : routed_to room (l1 ++ l2) = routed_to (routed_to room l1) l2.
Proof.
  revert room. induction l1 as [|[r c] l1 IH]; intros room; [done|].
  change (((r, c) :: l1) ++ l2) with ((r, c) :: (l1 ++ l2)). by rewrite !routed_to_cons.
Qed.

(** The commands of one record, and of several, each with its room. *)
Definition carried (node : Z) (t : list bytes) : list (bytes * list bytes) :=
  map (pair (nth 0 t [])) (own_commands node t).

Definition carried_all (node : Z) (ts : list (list bytes)) : list (bytes * list bytes) :=
  mjoin (map (carried node) ts).

Lemma carried_all_app node ts1 ts2 :
  carried_all node (ts1 ++ ts2) = carried_all node ts1 ++ carried_all node ts2.
Proof. unfold carried_all. by rewrite map_app, join_app. Qed.

Lemma route_nil room l : length (route room l) = 0%nat → l = [].
Proof. destruct l as [|[r c] l]; [done|]. cbn [route]. rewrite length_app. cbn [length]. lia. Qed.

Lemma carried_all_cons node t ts : carried_all node (t :: ts) = carried node t ++ carried_all node ts.
Proof. done. Qed.

(** The marks behind the records, from [e] replies, the room and the offset. *)
Fixpoint marks_of (node : Z) (e base : nat) (room : bytes) (ts : list (list bytes)) : list (nat * nat) :=
  match ts with
  | [] => []
  | t :: ts =>
      let e := (e + length (route room (carried node t)))%nat in
      let base := (base + length (encode t))%nat in
      (e, base) :: marks_of node e base (routed_to room (carried node t)) ts
  end.

Lemma send_all room b cmds :
  foldl (send room) b cmds
  = Batch (b_out b ++ wire (route (b_room b) (map (pair room) cmds)))
      (b_expected b + length (route (b_room b) (map (pair room) cmds)))
      (routed_to (b_room b) (map (pair room) cmds)) (b_marks b)
      (if cmds is [] then b_misaligned b else false).
Proof.
  revert b. induction cmds as [|c cmds IH]; intros b; cbn [foldl map].
  { destruct b. cbn. by rewrite app_nil_r, Nat.add_0_r. }
  rewrite IH, routed_to_cons. cbn [route]. unfold send.
  case_bool_decide as Hr; cbn [b_out b_expected b_room b_marks b_misaligned app length].
  - rewrite <- Hr, wire_cons, <- app_assoc. f_equal; [lia|by destruct cmds].
  - rewrite !wire_cons, <- !app_assoc. f_equal; [lia|by destruct cmds].
Qed.

(** What the parser accepts of a token list. *)
Definition sendable (t : list bytes) : Prop := len t <= kMaxArgs ∧ Forall (λ a, len a <= kMaxBulk) t.

(** An incomplete record at the end. *)
Definition cut_short (s : bytes) : Prop :=
  ∃ t n, sendable t ∧ (n < length (encode t))%nat ∧ s = take n (encode t).

Lemma encode_nonempty t : (1 ≤ length (encode t))%nat.
Proof. unfold encode. rewrite length_app. change (length (str "*")) with 1%nat. lia. Qed.

Lemma build_loop_spec node ts pre rest offset b fuel :
  Forall sendable ts → cut_short rest → (length ts < fuel)%nat → b_misaligned b = false →
  let room := b_room b in
  build_loop fuel node (pre ++ wire ts ++ rest) offset (length pre) b
  = Batch (b_out b ++ wire (route room (carried_all node ts)))
      (b_expected b + length (route room (carried_all node ts)))
      (routed_to room (carried_all node ts))
      (b_marks b ++ marks_of node (b_expected b) (offset + length pre) room ts) false.
Proof.
  intros Hts Hcut. revert pre b fuel.
  induction Hts as [|t ts [Hn Hb] Hts IH]; intros pre b fuel Hf Hmis room;
    (destruct fuel as [|fuel]; [cbn in Hf; lia|]); cbn [build_loop].
  - destruct Hcut as (t & n & [Hn Hb] & Hlt & ->). change (wire []) with ([] : bytes). cbn [app].
    rewrite parse_cut by done. cbn. rewrite andb_false_r, !app_nil_r, Nat.add_0_r. done.
  - rewrite wire_cons, <- app_assoc, parse_encoded by done.
    rewrite send_all. fold room (carried node t). set (cs := carried node t).
    assert (Hm : (if own_commands node t is [] then b_misaligned b else false) = false)
      by (by destruct (own_commands node t)).
    rewrite Hm. rewrite <- (length_app pre), (app_assoc pre), (IH (pre ++ encode t)); [|cbn in Hf; lia|done].
    cbn [mark b_out b_expected b_room b_marks b_misaligned]. rewrite carried_all_cons, route_app, routed_to_app.
    fold cs. rewrite wire_app, length_app, <- !app_assoc. cbn [marks_of]. fold cs. rewrite length_app.
    f_equal; [lia|]. by rewrite (Nat.add_assoc offset).
Qed.

Lemma build_spec node ts rest offset room :
  Forall sendable ts → cut_short rest →
  build node (wire ts ++ rest) offset room
  = Batch (wire (route room (carried_all node ts))) (length (route room (carried_all node ts)))
      (routed_to room (carried_all node ts)) (marks_of node 0 offset room ts) false.
Proof.
  intros Hts Hcut. unfold build.
  rewrite (build_loop_spec node ts [] rest offset (empty_batch room)); [|done|done| |done].
  - cbn. by rewrite Nat.add_0_r.
  - assert (Hlen : (length ts ≤ length (wire ts))%nat); [|rewrite length_app; lia].
    clear. induction ts as [|t ts IH]; [cbn; lia|]. rewrite wire_cons, length_app. cbn [length].
    pose proof (encode_nonempty t). lia.
Qed.

(** A piece of a log is whole records and the beginning of one. *)
Lemma take_wire ts rest k :
  Forall sendable ts → cut_short rest →
  ∃ j cut, (j ≤ length ts)%nat ∧ take k (wire ts ++ rest) = wire (take j ts) ++ cut ∧ cut_short cut
    ∧ (∀ t, ts !! 0%nat = Some t → (length (encode t) ≤ k)%nat → (1 ≤ j)%nat)
    ∧ ((length (wire ts) ≤ k)%nat → j = length ts).
Proof.
  intros Hts Hcut. revert k. induction Hts as [|t ts Ht Hts IH]; intros k.
  - destruct Hcut as (t & n & Hs & Hn & ->). exists 0%nat, (take k (take n (encode t))).
    split; [done|]. split; [done|]. split; [|split; [by intros t'|done]]. rewrite take_take.
    exists t, (k `min` n)%nat. split; [done|]. split; [lia|done].
  - rewrite wire_cons, <- app_assoc. destruct (decide (k < length (encode t))%nat) as [Hlt|Hge].
    + exists 0%nat, (take k (encode t)). split; [lia|]. rewrite take_app_le by lia.
      split; [done|]. split; [by exists t, k|]. split; [intros t' [= <-]; lia|].
      rewrite length_app. lia.
    + destruct (IH (k - length (encode t))%nat) as (j & cut & Hj & Htake & Hc & _ & Hall).
      exists (S j), cut. split; [cbn; lia|]. rewrite take_app_ge by lia. rewrite Htake.
      cbn [firstn]. rewrite wire_cons, <- app_assoc. split; [done|]. split; [done|]. split; [intros; lia|].
      rewrite length_app. intros Hk. cbn. rewrite Hall by lia. done.
Qed.

(** The records that [acked] replies confirm. *)
Lemma confirmed_spec node acked e base room ts :
  (e ≤ acked)%nat →
  ∃ i, (i ≤ length ts)%nat
    ∧ confirmed acked (marks_of node e base room ts) base = (base + length (wire (take i ts)))%nat
    ∧ (e + length (route room (carried_all node (take i ts))) ≤ acked)%nat
    ∧ ((e + length (route room (carried_all node ts)) ≤ acked)%nat → i = length ts).
Proof.
  revert e base room. induction ts as [|t ts IH]; intros e base room He; cbn [marks_of confirmed].
  { exists 0%nat. cbn. split; [lia|]. split; [lia|]. split; [lia|done]. }
  destruct (Nat.ltb_spec acked (e + length (route room (carried node t)))) as [Hlt|Hge].
  - exists 0%nat. split; [lia|]. split; [cbn; lia|]. split; [cbn; lia|].
    rewrite carried_all_cons, route_app, length_app. lia.
  - destruct (IH (e + length (route room (carried node t)))%nat (base + length (encode t))%nat
      (routed_to room (carried node t)) Hge) as (i & Hi & Hc & Ha & Hall).
    exists (S i). split; [cbn; lia|]. cbn [firstn].
    rewrite Hc, wire_cons, carried_all_cons, route_app, !length_app. split; [lia|]. split; [lia|].
    rewrite carried_all_cons, route_app, length_app. cbn [length]. intros Hle. rewrite Hall by lia. done.
Qed.

(** ** One caravan *)

Section ship.
  Context `{World} `{Network}.

Lemma wp_ask {A} (f : nat → A) (Q : A → worker → Prop) w :
  Q (f (w_tick w)) (Worker (w_peer w) (S (w_tick w)) (w_sent w)) → wp (ask f) Q w.
Proof. done. Qed.

Lemma wp_on_peer f (Q : unit → worker → Prop) w :
  Q tt (Worker (f (w_peer w)) (w_tick w) (w_sent w)) → wp (on_peer f) Q w.
Proof. done. Qed.

(** The peer confirmed [acked] commands of the request [cmds], in order. *)
Definition acknowledged (cmds : list (list bytes)) (acked : nat) : Prop :=
  ∃ k chunks, exchange k (wire cmds) = (true, chunks)
    ∧ positive_replies (length cmds) false (mjoin chunks) = Some acked.

(** A network and a peer that always answer, with a positive reply to every
    command of a request. *)
Definition obliging : Prop :=
  (∀ k, connects k = true) ∧ (∀ k, secures k = true)
  ∧ ∀ k cmds, ∃ chunks, exchange k (wire cmds) = (true, chunks)
      ∧ positive_replies (length cmds) false (mjoin chunks) = Some (length cmds).

Lemma deliver_spec cmds w :
  wp (Replicator.deliver (wire cmds) (length cmds)) (λ r w', w_peer w' = w_peer w
    ∧ w_sent w' = w_sent w ++ [wire cmds]
    ∧ (r.1 = true → acknowledged cmds r.2) ∧ (obliging → r = (true, length cmds))) w.
Proof.
  unfold Replicator.deliver. apply wp_bind, wp_modify, wp_bind, wp_ask. cbn [w_tick].
  destruct (exchange (w_tick w) (wire cmds)) as [sent chunks] eqn:Hx. destruct sent; cbn [negb]; apply wp_ret.
  - split; [done|]. split; [done|]. pose proof (deliver_replies_spec chunks (length cmds)) as Hd.
    split.
    + intros Hal. exists (w_tick w), chunks. split; [done|]. destruct (positive_replies _ _ _) as [k|].
      * by rewrite Hd.
      * congruence.
    + intros (_ & _ & Hob). destruct (Hob (w_tick w) cmds) as (chunks' & Hx' & Hp').
      rewrite Hx in Hx'. injection Hx' as <-. by rewrite Hp' in Hd.
  - split; [done|]. split; [done|]. split; [done|].
    intros (_ & _ & Hob). destruct (Hob (w_tick w) cmds) as (chunks' & Hx' & _). congruence.
Qed.

(** What [connect] changes: the connection and the selected room. *)
Definition linked (ok : bool) (p p' : Peer) : Prop :=
  p' = upd_conn ok (upd_room (p_room p') p) ∧ (p_room p' = [] ∨ p_room p' = p_room p ∧ p_conn p = true).

(** The request of a new connection: the cluster's password. *)
Definition greeting (out : bytes) : Prop := out = encode [str "AUTH"; password cfg].

Lemma connect_spec w :
  wp connect (λ ok w', linked ok (w_peer w) (w_peer w') ∧ (obliging → ok = true)
    ∧ ∃ auth, w_sent w' = w_sent w ++ auth ∧ Forall greeting auth) w.
Proof.
  assert (Hnone : ∃ auth, w_sent w = w_sent w ++ auth ∧ Forall greeting auth)
    by (exists []; by rewrite app_nil_r).
  unfold connect. apply wp_bind, wp_gets. destruct (p_conn (w_peer w)) eqn:Hc.
  { apply wp_ret. split; [|done]. split; [|auto]. destruct (w_peer w). cbn in *. by rewrite Hc. }
  apply wp_bind, wp_ask, wp_bind, wp_on_peer. destruct (connects (w_tick w)) eqn:Hcon; cbn [negb].
  2:{ apply wp_ret. cbn. split; [|split; [intros (Hob & _); by rewrite Hob in Hcon|done]]. split; [|by left].
      destruct (w_peer w). cbn in *. by rewrite Hc. }
  apply wp_bind, wp_on_peer, wp_bind, wp_ask. cbn [w_peer w_tick w_sent]. apply wp_bind.
  eapply (wp_mono _ (λ ok w', w_peer w' = upd_conn true (upd_room [] (w_peer w)) ∧ (obliging → ok = true)
    ∧ ∃ auth, w_sent w' = w_sent w ++ auth ∧ Forall greeting auth)).
  { destruct (secures (S (w_tick w))) eqn:Hsec.
    2:{ apply wp_ret. split; [done|]. split; [|done]. intros (_ & Hob & _). by rewrite Hob in Hsec. }
    unfold authenticate. destruct (password cfg) as [|ch secret] eqn:Hpw; [by apply wp_ret|].
    apply wp_bind. change 1%nat with (length [[str "AUTH"; ch :: secret]]).
    replace (encode [str "AUTH"; ch :: secret]) with (wire [[str "AUTH"; ch :: secret]])
      by (rewrite wire_cons; apply app_nil_r).
    eapply wp_mono; [apply deliver_spec|]. intros [alive acked] w' (Hp & Hs & _ & Hob). apply wp_ret.
    split; [done|]. split; [intros Ho; by injection (Hob Ho) as -> ->|].
    exists [wire [[str "AUTH"; ch :: secret]]]. split; [done|]. constructor; [|done].
    unfold greeting. rewrite Hpw, wire_cons. apply app_nil_r. }
  cbn beta. intros ok w' (Hp & Hob & Hs). apply wp_bind, wp_when; intros Hok.
  - apply wp_on_peer, wp_ret. destruct ok; [done|]. rewrite Hp. split; [|done]. split; [done|by left].
  - apply wp_ret. destruct ok; [|done]. rewrite Hp. split; [|done]. split; [done|by left].
Qed.

(** The log is [ts] and an incomplete record; the peer is at its [i]-th. *)
Definition at_record (ts : list (list bytes)) (i : nat) (p : Peer) : Prop :=
  (i ≤ length ts)%nat ∧ p_offset p = length (wire (take i ts)).

Lemma drop_wire ts rest i :
  (i ≤ length ts)%nat → drop (length (wire (take i ts))) (wire ts ++ rest) = wire (drop i ts) ++ rest.
Proof.
  intros Hi. rewrite <- (take_drop i ts) at 2. rewrite wire_app, <- app_assoc. by rewrite drop_app_length.
Qed.

Definition batch_of (room : bytes) (offset : nat) (ts : list (list bytes)) : batch :=
  Batch (wire (route room (carried_all node_id ts))) (length (route room (carried_all node_id ts)))
    (routed_to room (carried_all node_id ts)) (marks_of node_id 0 offset room ts) false.

Lemma marks_nil node e base room ts : marks_of node e base room ts = [] → ts = [].
Proof. by destruct ts. Qed.

Lemma load_spec ts rest i w :
  Forall sendable ts → cut_short rest → at_record ts i (w_peer w) →
  let p := w_peer w in
  wp (load (wire ts ++ rest)) (λ r w', w_peer w' = p ∧ w_sent w' = w_sent w
    ∧ (if r.1 : bool then ∃ j, r.2 = batch_of (p_room p) (p_offset p) (take j (drop i ts))
         ∧ (i + j ≤ length ts)%nat ∧ ((i < length ts)%nat → (1 ≤ j)%nat)
       else r.2 = empty_batch (p_room p)) ∧ (reads_ok → r.1 = true)) w.
Proof.
  intros Hts Hcut [Hi Hoff] p. unfold load. apply wp_bind, wp_gets. fold p in Hoff |- *.
  set (file := wire ts ++ rest). set (off := p_offset p) in *.
  assert (Hsize : (off ≤ length file)%nat).
  { rewrite Hoff. unfold file. rewrite <- (take_drop i ts) at 2. rewrite wire_app, !length_app. lia. }
  assert (Hdrop : drop off file = wire (drop i ts) ++ rest) by (rewrite Hoff; by apply drop_wire).
  assert (Hlen : length (wire (drop i ts) ++ rest) = (length file - off)%nat) by (by rewrite <- Hdrop, length_drop).
  assert (Hread : ∀ k want, (want ≤ length file - off)%nat →
    let r := pread_at k file want off in
    (r.1 = true → ∃ j, build node_id r.2 off (p_room p) = batch_of (p_room p) off (take j (drop i ts))
       ∧ (i + j ≤ length ts)%nat ∧ (want = (length file - off)%nat → (i + j)%nat = length ts))
    ∧ (reads_ok → r.1 = true)).
  { intros k want Hw r. split; [|intros Hr; apply Hr; lia]. intros Hok.
    destruct (pread_at_spec k file want off Hok) as [Hbuf _]. unfold r. rewrite Hbuf, Hdrop.
    destruct (take_wire (drop i ts) rest want) as (j & cut & Hj & Htake & Hc & _ & Hall);
      [by apply Forall_drop|done|]. rewrite length_drop in Hj, Hall.
    exists j. rewrite Htake, build_spec by (try apply Forall_take; try apply Forall_drop; done).
    split; [done|]. split; [lia|]. intros ->. rewrite Hall; [lia|]. rewrite <- Hlen, length_app. lia. }
  set (want := Z.to_nat (Z.min (Z.of_nat (length file - off)) kMaxBatchBytes)).
  assert (Hwant : (want ≤ length file - off)%nat) by (unfold want; lia).
  apply wp_bind, wp_ask. cbn [w_peer]. destruct (Hread (w_tick w) want Hwant) as [H1 H1ok].
  destruct (pread_at (w_tick w) file want off) as [ok buf]. cbn [fst snd] in H1, H1ok.
  destruct ok; cbn [andb].
  2:{ apply wp_ret. by split_and!. }
  destruct (H1 eq_refl) as (j & Hb & Hj & Hall). rewrite Hb. cbn [b_marks b_misaligned batch_of].
  case_bool_decide as Hmarks; cbn [andb negb].
  2:{ apply wp_ret. split; [done|]. split; [done|]. split; [|done]. exists j. split; [done|]. split; [done|].
      intros _. destruct j; [by rewrite take_0 in Hmarks|lia]. }
  destruct (Nat.ltb_spec want (length file - off)) as [Hlt|Hge].
  - apply wp_bind, wp_ask. cbn [w_peer w_tick].
    destruct (Hread (S (w_tick w)) (length file - off)%nat ltac:(lia)) as [H2 H2ok].
    destruct (pread_at (S (w_tick w)) file _ off) as [ok2 buf2]. cbn [fst snd] in H2, H2ok. apply wp_ret.
    split; [done|]. split; [done|]. cbn [fst snd]. split; [|done]. destruct ok2; [|done].
    destruct (H2 eq_refl) as (j2 & Hb2 & Hj2 & Hall2). exists j2. split; [done|]. split; [done|]. lia.
  - apply wp_ret. split; [done|]. split; [done|]. split; [|done]. exists j. split; [done|]. split; [done|]. lia.
Qed.

(** Where [ship] starts: at the saved record, or at the first of a new file. *)
Definition starts (ts : list (list bytes)) (inode : Z) (i : nat) (p : Peer) : Prop :=
  if decide (p_inode p = inode) then at_record ts i p else i = 0%nat.

(** The records from [i] to [i'] are passed only when the peer confirmed every
    command they carry; [room] is what the connection had selected. *)
Definition passed (ts : list (list bytes)) (i i' : nat) (p : Peer) : Prop :=
  let own := carried_all node_id (take (i' - i) (drop i ts)) in
  own = [] ∨
  ∃ room more acked, (room = [] ∨ room = p_room p ∧ p_conn p = true)
    ∧ acknowledged (route room own ++ more) acked ∧ (length (route room own) ≤ acked)%nat.

(** The last mark of a batch, and when it is the end of the file. *)
Lemma last_mark node e base room ts :
  match last (marks_of node e base room ts) with
  | None => ts = []
  | Some m => m.2 = (base + length (wire ts))%nat
  end.
Proof.
  revert e base room. induction ts as [|t ts IH]; intros e base room; [done|]. cbn [marks_of].
  rewrite last_cons, wire_cons, length_app.
  specialize (IH (e + length (route room (carried node t)))%nat (base + length (encode t))%nat
    (routed_to room (carried node t))).
  destruct (last _) as [m|]; [lia|]. subst ts. cbn. lia.
Qed.

Lemma wire_inj_length (ts : list (list bytes)) n : (n ≤ length ts)%nat →
  length (wire (take n ts)) = length (wire ts) → n = length ts.
Proof.
  intros Hn. rewrite <- (take_drop n ts) at 2. rewrite wire_app, length_app. intros Hw.
  destruct (drop n ts) as [|t l] eqn:Hd.
  - pose proof (length_drop ts n) as Hl. rewrite Hd in Hl. cbn in Hl. lia.
  - rewrite wire_cons, length_app in Hw. pose proof (encode_nonempty t). lia.
Qed.

Lemma reached_end_spec ts rest i j room offset :
  (i + j ≤ length ts)%nat → offset = length (wire (take i ts)) →
  reached_end true (batch_of room offset (take j (drop i ts))) offset (length (wire ts ++ rest)) = true
  ↔ (i + j)%nat = length ts ∧ rest = [].
Proof.
  intros Hj Hoff. unfold reached_end. cbn [andb b_marks batch_of].
  pose proof (last_mark node_id 0 offset room (take j (drop i ts))) as Hl.
  assert (Hpos : match last (marks_of node_id 0 offset room (take j (drop i ts))) with
                 | Some m => m.2 | None => offset end = length (wire (take (i + j) ts))).
  { rewrite <- take_take_drop, wire_app, length_app, <- Hoff. destruct (last _); [done|]. rewrite Hl. cbn. lia. }
  rewrite Hpos, Nat.eqb_eq, length_app. split; [|intros [-> ->]; rewrite take_ge by done; cbn; lia].
  intros Hw. assert (Hle : (length (wire (take (i + j) ts)) ≤ length (wire ts))%nat).
  { rewrite <- (take_drop (i + j) ts) at 2. rewrite wire_app, length_app. lia. }
  split; [apply wire_inj_length; [done|lia]|]. apply length_zero_iff_nil. lia.
Qed.

(** The commands of a request for the records that carry [own]: with ROOM
    wherever the room changes, and behind them the frontier, or a PING when there
    is nothing else to send. *)
Definition caravan (frontier : Z) (room : bytes) (own : list (bytes * list bytes)) (at_end : bool)
    : list (list bytes) :=
  route room own ++
  (if at_end then [[str "REPLFRONTIER"; to_string_u node_id; to_string_u frontier]]
   else if decide (route room own = []) then [[str "PING"]] else []).

(** What was handed to the connection: a greeting when it is new, then, if it
    stands, one request for the next [j] records, with the frontier only at the
    end of the file, and there always, when the file can be read. *)
Definition sends (ts : list (list bytes)) (rest : bytes) (frontier : Z) (i : nat) (p : Peer) (alive : bool)
    (sent sent' : list bytes) : Prop :=
  ∃ auth out, sent' = sent ++ auth ++ out ∧ Forall greeting auth
  ∧ (alive = false ∧ out = []
     ∨ ∃ room j at_end, (room = [] ∨ room = p_room p ∧ p_conn p = true) ∧ (i + j ≤ length ts)%nat
       ∧ out = [wire (caravan frontier room (carried_all node_id (take j (drop i ts))) at_end)]
       ∧ (at_end = true → (i + j)%nat = length ts ∧ rest = [])
       ∧ (reads_ok → ((i < length ts)%nat → (1 ≤ j)%nat)
            ∧ ((i + j)%nat = length ts → rest = [] → at_end = true))).

Record shipped (ts : list (list bytes)) (rest : bytes) (frontier : Z) (inode : Z) (i : nat) (w : worker) (alive : bool)
    (w' : worker) : Prop := {
  sh_inode : p_inode (w_peer w') = inode;
  sh_offset : ∃ i', (i ≤ i')%nat ∧ at_record ts i' (w_peer w') ∧ ((i < i')%nat → passed ts i i' (w_peer w))
    ∧ (obliging → reads_ok → (i < length ts)%nat → (i < i')%nat);
  sh_saved : p_saved (w_peer w') = p_saved (w_peer w) ∨ p_saved (w_peer w') = Some (inode, p_offset (w_peer w'));
  sh_alive : obliging → reads_ok → alive = true;
  sh_sends : sends ts rest frontier i (w_peer w) alive (w_sent w) (w_sent w')
}.

(** What is sent: the batch, then the frontier, or a PING. *)
Lemma request_spec room offset ts frontier (at_end : bool) :
  let cmds := caravan frontier room (carried_all node_id ts) at_end in
  request (batch_of room offset ts) at_end frontier = (wire cmds, length cmds).
Proof.
  intros cmds. unfold request, cmds, caravan, batch_of. cbn [b_out b_expected].
  assert (Hone : ∀ c, encode c = wire [c]) by (intros; rewrite wire_cons; symmetry; apply app_nil_r).
  destruct at_end.
  - unfold frontier_command. rewrite wire_app, length_app, Hone. f_equal. cbn. lia.
  - destruct (route _ _) as [|c cmds'] eqn:E; cbn [length Nat.eqb].
    + rewrite decide_True by done. by rewrite Hone.
    + rewrite decide_False by done. by rewrite app_nil_r.
Qed.

(** A new log, or one that is shorter than the offset, is shipped from its
    start. *)
Lemma settle_spec ts rest inode i p t l :
  starts ts inode i p →
  let file := wire ts ++ rest in
  wp (when (negb (inode =? p_inode p) || (length file <? p_offset p)%nat) (on_peer (upd_at inode 0)))
    (λ _ w', w_peer w' = upd_at inode (length (wire (take i ts))) p ∧ w_sent w' = l) (Worker p t l).
Proof.
  intros Hstart file. unfold starts in Hstart. destruct (decide (p_inode p = inode)) as [<-|Hne].
  - destruct Hstart as [Hi Hoff]. apply wp_when.
    + rewrite Z.eqb_refl. cbn [negb orb]. intros Hlt%Nat.ltb_lt. exfalso. revert Hlt.
      rewrite Hoff. unfold file. rewrite <- (take_drop i ts) at 1. rewrite wire_app, !length_app. lia.
    + intros _. cbn [w_peer w_sent]. rewrite <- Hoff. by destruct p.
  - apply wp_when; [intros _; apply wp_on_peer; cbn; by rewrite Hstart|].
    by rewrite (proj2 (Z.eqb_neq inode (p_inode p))) by done.
Qed.

Lemma conclude_spec b p size alive acked t l :
  let off := confirmed (if alive : bool then acked else 0%nat) (b_marks b) (p_offset p) in
  wp (conclude b p size alive acked) (λ alive' w', alive' = alive ∧ p_inode (w_peer w') = p_inode p
    ∧ p_offset (w_peer w') = off
    ∧ (p_saved (w_peer w') = p_saved p ∨ p_saved (w_peer w') = Some (p_inode p, off))
    ∧ w_sent w' = l) (Worker p t l).
Proof.
  intros off. unfold conclude. set (same := λ w : worker, p_saved (w_peer w) = p_saved p ∧ w_sent w = l).
  apply wp_bind. eapply (wp_mono _ (λ _ w', same w')).
  { apply wp_when; intros _; [apply wp_on_peer|]; done. }
  intros _ [p6 t6 l6] H6. apply wp_bind. eapply (wp_mono _ (λ _ w', same w')).
  { apply wp_when; intros _; [apply wp_on_peer|]; done. }
  intros _ [p7 t7 l7] [H7 H7s]. cbn [w_peer w_sent] in H7, H7s. apply wp_bind, wp_on_peer. cbn [w_peer w_tick w_sent]. fold off. apply wp_bind.
  eapply (wp_mono _ (λ _ w', p_inode (w_peer w') = p_inode p ∧ p_offset (w_peer w') = off
    ∧ (p_saved (w_peer w') = p_saved p ∨ p_saved (w_peer w') = Some (p_inode p, off)) ∧ w_sent w' = l)).
  { apply wp_when; intros _; [|by split_and!; [..|left|]]. unfold save. apply wp_bind, wp_ask, wp_when; intros _.
    - apply wp_on_peer. cbn. by split_and!; [..|right|].
    - cbn. by split_and!; [..|left|]. }
  intros _ [p8 t8 l8] (H8i & H8o & H8s & H8l). cbn [w_peer] in *. by apply wp_bind, wp_on_peer, wp_ret.
Qed.

(** Sending a batch of the next [j] records and taking the answers. *)
Lemma exchange_spec ts rest inode i j frontier reached size w0 auth p t :
  at_record ts i p → (i + j ≤ length ts)%nat → p_inode p = inode → p_saved p = p_saved (w_peer w0) →
  (p_room p = [] ∨ p_room p = p_room (w_peer w0) ∧ p_conn (w_peer w0) = true) →
  (reads_ok → (i < length ts)%nat → (1 ≤ j)%nat) → Forall greeting auth →
  (reached = true → (i + j)%nat = length ts ∧ rest = []) →
  (reads_ok → (i + j)%nat = length ts → rest = [] → reached = true) →
  let b := batch_of (p_room p) (p_offset p) (take j (drop i ts)) in
  wp (let '(out, total) := request b reached frontier in
      let* '(alive, acked) := deliver out total in
      conclude b p size alive acked) (λ alive w', shipped ts rest frontier inode i w0 alive w')
    (Worker p t (w_sent w0 ++ auth)).
Proof.
  intros Hat Hj Hinode Hsaved Hroom Hj1 Hauth Hend Hend' b. set (ts' := take j (drop i ts)).
  set (cmds := route (p_room p) (carried_all node_id ts')).
  pose proof (request_spec (p_room p) (p_offset p) ts' frontier reached) as Hreq. cbv zeta in Hreq.
  change (request b reached frontier = (wire (caravan frontier (p_room p) (carried_all node_id ts') reached),
    length (caravan frontier (p_room p) (carried_all node_id ts') reached))) in Hreq. rewrite Hreq. set (all := caravan _ _ _ _) in *.
  apply wp_bind. eapply wp_mono; [apply deliver_spec|].
  intros [alive acked] [p5 t5 l5] (Hp5 & Hl5 & Hack & Hob). cbn [w_peer w_sent fst snd] in Hp5, Hl5, Hack, Hob. subst p5 l5.
  set (acked' := if alive then acked else 0%nat).
  destruct (confirmed_spec node_id acked' 0 (p_offset p) (p_room p) ts' ltac:(lia)) as (k & Hk & Hconf & Hkack & Hkall).
  assert (Hlen' : length ts' = j) by (unfold ts'; rewrite length_take, length_drop; lia).
  assert (Htake : take k ts' = take (i + k - i) (drop i ts)).
  { unfold ts'. rewrite take_take, Nat.min_l by lia. f_equal. lia. }
  assert (Hwire : (p_offset p + length (wire (take k ts')))%nat = length (wire (take (i + k) ts))).
  { destruct Hat as [_ ->]. rewrite Htake, <- length_app, <- wire_app.
    replace (i + k - i)%nat with k by lia. by rewrite take_take_drop. }
  eapply wp_mono; [apply conclude_spec|]. intros alive' [p8 t8 l8] (-> & H8i & H8o & H8s & H8l). cbn [w_peer w_sent] in H8i, H8o, H8s, H8l.
  unfold b in H8o, H8s. cbn [b_marks batch_of] in H8o, H8s. fold ts' acked' in H8o, H8s. rewrite Hconf, Hwire in H8o, H8s.
  rewrite Hinode in H8i, H8s. rewrite Hsaved in H8s. set (off := length (wire (take (i + k) ts))) in *.
  split; cbn [w_peer w_sent]; [done| |by destruct H8s as [->| ->]; [left|right; rewrite H8o]|
    intros Ho _; specialize (Hob Ho); by injection Hob as -> _|].
  2:{ exists auth, [wire all]. split; [by rewrite H8l, app_assoc|]. split; [done|]. right.
      exists (p_room p), j, reached. split_and!; auto. }
  exists (i + k)%nat. split; [lia|]. split; [split; [lia|done]|]. split.
  - intros Hlt. unfold passed. rewrite <- Htake. unfold acked' in *. destruct alive.
    + right. exists (p_room p), (route (routed_to (p_room p) (carried_all node_id (take k ts')))
        (carried_all node_id (drop k ts')) ++ drop (length cmds) all), acked.
      split; [exact Hroom|]. split; [|exact Hkack].
      rewrite app_assoc, <- route_app, <- carried_all_app, take_drop. unfold all, caravan. fold cmds.
      rewrite drop_app_length. by apply Hack.
    + left. apply (route_nil (p_room p)). lia.
  - intros Ho Hr Hlt. specialize (Hob Ho). injection Hob as -> ->. specialize (Hj1 Hr Hlt).
    rewrite Hkall; [lia|]. unfold acked', all, caravan. rewrite length_app. fold cmds. lia.
Qed.

Lemma ship_spec frontier ts rest inode i w :
  Forall sendable ts → cut_short rest → starts ts inode i (w_peer w) →
  wp (ship frontier (Some (inode, wire ts ++ rest))) (λ alive w', shipped ts rest frontier inode i w alive w') w.
Proof.
  intros Hts Hcut Hstart. set (w0 := w). destruct w as [p0 t0 l0]. cbn [w_peer] in *. unfold ship. set (file := wire ts ++ rest).
  assert (Hi : (i ≤ length ts)%nat).
  { unfold starts in Hstart. destruct (decide _); [apply Hstart|lia]. }
  apply wp_bind, wp_gets, wp_bind. cbn [w_peer].
  eapply wp_mono; [by apply (settle_spec ts rest inode i)|].
  intros _ [p1 t1 l1] [Hp1 Hl1]. cbn [w_peer w_sent] in Hp1, Hl1. apply wp_bind, wp_on_peer. cbn [w_peer w_tick w_sent].
  apply wp_bind. eapply wp_mono; [apply connect_spec|]. intros ok [p3 t3 l3] ([Hp3 Hroom] & Hok & auth & Hl3 & Hauth).
  cbn [w_peer w_sent] in Hp3, Hroom, Hl3. rewrite Hp1 in Hp3, Hroom. subst l1.
  destruct ok; cbn [negb].
  2:{ apply wp_ret. split; cbn [w_peer w_sent]; [by rewrite Hp3| |rewrite Hp3; by left|intros Ho _; by specialize (Hok Ho)|].
      - rewrite Hp3. exists i. split; [done|]. split; [by split|]. split; [lia|]. intros Ho. by specialize (Hok Ho).
      - exists auth, []. split; [by rewrite app_nil_r|]. split; [done|by left]. }
  assert (Hat : at_record ts i p3) by (rewrite Hp3; split; done).
  apply wp_bind. eapply wp_mono; [by apply load_spec|]. intros [read_ok b] [p4 t4 l4] (Hp4 & Hl4 & Hb & Hread).
  cbn [w_peer w_sent fst snd] in Hp4, Hl4, Hb, Hread. subst p4 l4. apply wp_bind, wp_gets. cbn [w_peer].
  assert (Hbatch : ∃ j, b = batch_of (p_room p3) (p_offset p3) (take j (drop i ts)) ∧ (i + j ≤ length ts)%nat
    ∧ (read_ok = true → (i < length ts)%nat → (1 ≤ j)%nat)).
  { destruct read_ok; [destruct Hb as (j & H1 & H2 & H3); by exists j|]. exists 0%nat.
    split; [by rewrite take_0|]. split; [lia|done]. }
  destruct Hbatch as (j & -> & Hj & Hj1). cbn [b_misaligned batch_of]. rewrite andb_false_r. cbn [andb].
  apply wp_bind, wp_when; [done|intros _]. apply wp_bind, wp_gets. cbn [w_peer].
  pose proof (reached_end_spec ts rest i j (p_room p3) (p_offset p3) Hj (proj2 Hat)) as Hend. fold file in Hend.
  subst l3. change l0 with (w_sent w0). apply exchange_spec; [exact Hat|exact Hj|by rewrite Hp3|by rewrite Hp3|exact Hroom|auto|exact Hauth| |].
  - intros Hr. apply Hend. destruct read_ok; [exact Hr|done].
  - intros Hr He1 He2. rewrite (Hread Hr). by apply Hend.
Qed.

(** With a peer that answers, every turn passes a record. *)
Lemma worker_progress n now delay frontier ts rest inode i w :
  Forall sendable ts → cut_short rest → starts ts inode i (w_peer w) → obliging → reads_ok →
  wp (worker_loop n now delay frontier (Some (inode, wire ts ++ rest))) (λ delay' w',
    (n ≠ 0%nat → delay' = kTickMs ∧ p_inode (w_peer w') = inode ∧
       ∃ i', (Nat.min (i + n) (length ts) ≤ i')%nat ∧ at_record ts i' (w_peer w'))) w.
Proof.
  intros Hts Hcut Hst Ho Hr. revert delay i w Hst. induction n as [|n IH]; intros delay i w Hst; cbn [worker_loop].
  { by apply wp_ret. }
  apply wp_bind. unfold worker_round. apply wp_bind. eapply wp_mono; [by apply ship_spec|].
  intros alive [p t l] [Hin (i1 & Hle & [Hat Hoff] & _ & Hlt) _ Hal _]. cbn [w_peer] in *. rewrite (Hal Ho Hr).
  apply wp_bind, wp_on_peer, wp_ret. cbn [w_peer w_tick].
  assert (Hst1 : starts ts inode i1 (beat (now n) p)).
  { unfold starts. rewrite decide_True by (by destruct p). by destruct p. }
  specialize (Hlt Ho Hr). destruct n as [|n].
  - cbn [worker_loop]. apply wp_ret. intros _. split; [done|]. split; [by destruct p|]. exists i1.
    split; [lia|]. by destruct p.
  - eapply wp_mono; [by apply (IH _ i1)|]. cbn beta. intros delay' w' Hpost _.
    destruct (Hpost ltac:(done)) as (Hd & Hi & i2 & Hi2 & Hat2). split; [done|]. split; [done|].
    exists i2. split; [lia|done].
Qed.

End ship.

(** ** A shipped record carries the change of the record *)

Lemma own_commands_record node rec :
  valid_record rec →
  let args := a_args rec in
  let cmd := upper (arg args 0) in
  let meta := [kMetaToken; to_string (a_expire rec); to_string_u (a_ts rec); to_string_u (a_node rec)] in
  own_commands node (record_tokens rec)
  = if decide ((2 ≤ length args)%nat ∧ a_node rec = node) then
      if eqs "DEL" cmd || eqs "CRDTDEL" cmd then
        [[str "CRDTDEL"; arg args 1; to_string_u (a_ts rec); to_string_u (a_node rec)]]
      else map (λ kv, [str "CRDTMERGE"; kv.1; kv.2; to_string_u (a_ts rec); to_string_u (a_node rec);
                       to_string (a_expire rec)])
        (pairs_of (if eqs "MSET" cmd then drop 1 args
                   else if eqs "SET" cmd || eqs "CRDTMERGE" cmd then take 2 (drop 1 args ++ meta) else []))
    else [].
Proof.
  intros Hv args cmd meta. unfold own_commands, record_tokens. fold meta args.
  assert (Hlen : length (a_room rec :: args ++ meta) = (length (a_room rec :: args) + 4)%nat)
    by (cbn; rewrite length_app; cbn; lia).
  assert (Hnth : ∀ i, (1 ≤ i ≤ 4)%nat →
    nth (length (a_room rec :: args ++ meta) - i) (a_room rec :: args ++ meta) [] = nth (4 - i) meta []).
  { intros i Hi. rewrite Hlen. change (a_room rec :: args ++ meta) with ((a_room rec :: args) ++ meta).
    replace (length (a_room rec :: args) + 4 - i)%nat with (length (a_room rec :: args) + (4 - i))%nat by lia.
    apply nth_app_tail. }
  rewrite !Hnth by lia. cbn [Nat.sub nth meta]. fold meta.
  rewrite parse_u64_to_string by (destruct Hv; ulia). rewrite (bool_decide_true (kMetaToken = _)) by done.
  rewrite andb_true_r. destruct (decide (2 ≤ length args)%nat) as [H2|H2].
  2:{ rewrite decide_False by tauto. rewrite (proj2 (Nat.leb_gt _ _)); [done|]. rewrite Hlen. cbn. lia. }
  rewrite (proj2 (Nat.leb_le _ _)) by (rewrite Hlen; cbn; lia). cbn [andb].
  destruct (decide (a_node rec = node)) as [->|Hne].
  2:{ rewrite decide_False by tauto. by rewrite bool_decide_false by congruence. }
  rewrite decide_True by done. rewrite bool_decide_true by done.
  assert (Harg : ∀ i, (i < length args)%nat → nth i (args ++ meta) [] = arg args i).
  { intros i Hi. by rewrite app_nth1 by done. }
  rewrite !Harg by lia. fold cmd. destruct (_ || _); [done|]. f_equal.
  change (drop 2 (a_room rec :: args ++ meta)) with (drop 1 (args ++ meta)). rewrite drop_app_le by lia.
  destruct (eqs "MSET" cmd).
  - rewrite Hlen. replace (length (a_room rec :: args) + 4 - 4 - 2)%nat with (length (drop 1 args)); [by rewrite take_app_length|].
    rewrite length_drop. cbn. lia.
  - by destruct (_ || _).
Qed.

(** A command as the receiver of [Convergence] sees it, and the writes a
    change stands for. *)
Definition delivery_of (cmd : list bytes) : delivery :=
  if eqs "CRDTDEL" (arg cmd 0) then Del cmd else Merge cmd.

Definition writes_of (ch : change) : list (bytes * (version * content)) :=
  match ch with
  | Puts kvs e v => map (λ kv, (kv.1, (v, Some (kv.2, e)))) kvs
  | Removes key v => [(key, (v, None))]
  | Expires _ _ | Skips => []
  end.

(** The record has the arguments its command logs; a merge is logged with the
    version of its arguments; EXPIRE and its kin are logged as SET or DEL. *)
Definition as_logged (w : write_cmd) (rec : AofRecord) : Prop :=
  let args := a_args rec in
  match w with
  | CSet => (3 ≤ length args)%nat
  | CMset => (2 ≤ length args)%nat
  | CDel => (2 ≤ length args)%nat
  | CCrdtDel => (4 ≤ length args)%nat
  | CMerge => (5 ≤ length args)%nat ∧ ∃ ts,
      replay_version true rec = Some (ts, a_node rec) ∧ normalize ts = normalize (a_ts rec)
  | CExpire | CPexpire | CPersist => False
  end.

Lemma sent_merge rec kv :
  valid_record rec → 0 <= a_expire rec →
  sent (Merge [str "CRDTMERGE"; kv.1; kv.2; to_string_u (a_ts rec); to_string_u (a_node rec); to_string (a_expire rec)])
  = Some (kv.1, (Version (normalize (a_ts rec)) (a_node rec), Some (kv.2, a_expire rec))).
Proof.
  intros Hv He. unfold sent, sent_version, merge_expire, arg. cbn [nth length Nat.eqb].
  rewrite !parse_u64_to_string, parse_i64_to_string by (destruct Hv; (assumption || ulia)). cbn [mbind option_bind].
  by destruct (Z.ltb_spec (a_expire rec) 0); [lia|].
Qed.

Lemma sent_del rec key :
  valid_record rec →
  sent (Del [str "CRDTDEL"; key; to_string_u (a_ts rec); to_string_u (a_node rec)])
  = Some (key, (Version (normalize (a_ts rec)) (a_node rec), None)).
Proof.
  intros Hv. unfold sent, sent_version, arg. cbn [nth].
  by rewrite !parse_u64_to_string by (destruct Hv; (assumption || ulia)).
Qed.

Lemma sent_merges rec kvs :
  valid_record rec → 0 <= a_expire rec →
  map (λ c, sent (delivery_of c)) (map (λ kv, [str "CRDTMERGE"; kv.1; kv.2; to_string_u (a_ts rec);
      to_string_u (a_node rec); to_string (a_expire rec)]) kvs)
  = map Some (writes_of (Puts kvs (a_expire rec) (Version (normalize (a_ts rec)) (a_node rec)))).
Proof.
  intros Hv He. cbn [writes_of]. rewrite !map_map. apply map_ext. intros kv.
  change (delivery_of _) with (Merge [str "CRDTMERGE"; kv.1; kv.2; to_string_u (a_ts rec);
    to_string_u (a_node rec); to_string (a_expire rec)]). by apply sent_merge.
Qed.

(** The first pair of the arguments. *)
Lemma first_pair (args meta : list bytes) :
  (3 ≤ length args)%nat → pairs_of (take 2 (drop 1 args ++ meta)) = [(arg args 1, arg args 2)].
Proof. destruct args as [|a [|b [|c args]]]; cbn; intros; lia || done. Qed.

(** ** Properties *)

(** C18: What is shipped is what was written. Of a record of another node
    nothing is sent (no echo); of an own record of SET, MSET, DEL, CRDTMERGE or
    CRDTDEL, the commands sent carry, for the receiver's CRDTMERGE and CRDTDEL,
    exactly the writes of the change the record stands for (the change a
    replay of the record makes): the same keys, values and deadlines in the
    same order, with the record's version. *)
Theorem shipped_writes_are_the_changes `{World} w rec :
  valid_record rec → 0 <= a_expire rec → upper (arg (a_args rec) 0) = cmd_name w → as_logged w rec →
  let cmds := own_commands node_id (record_tokens rec) in
  (a_node rec ≠ node_id → cmds = [])
  ∧ (a_node rec = node_id →
     map (λ c, sent (delivery_of c)) cmds = map Some (writes_of (change_of rec))).
Proof.
  intros Hv He Hn Hlog cmds. unfold cmds. rewrite own_commands_record by done. cbv zeta.
  split; [intros Hne; by rewrite decide_False by tauto|]. intros Hown.
  assert (H32 : is_u32 (a_node rec)) by apply Hv.
  assert (Hlen : (2 ≤ length (a_args rec))%nat).
  { destruct w; cbn in Hlog; try done; (destruct Hlog as [Hlog _] || idtac); lia. }
  rewrite decide_True by done. rewrite Hn. destruct w; cbn [as_logged] in Hlog; try done.
  - rewrite change_of_set, wrap32_small by done.
    change (eqs "DEL" (cmd_name CSet) || eqs "CRDTDEL" (cmd_name CSet)) with false.
    change (eqs "MSET" (cmd_name CSet)) with false.
    change (eqs "SET" (cmd_name CSet)) with true. cbn [orb]. rewrite first_pair by done. by apply sent_merges.
  - rewrite change_of_mset, wrap32_small by done.
    change (eqs "DEL" (cmd_name CMset) || eqs "CRDTDEL" (cmd_name CMset)) with false.
    change (eqs "MSET" (cmd_name CMset)) with true. by apply sent_merges.
  - rewrite change_of_del by done.
    change (eqs "DEL" (cmd_name CDel) || eqs "CRDTDEL" (cmd_name CDel)) with true. cbn [map].
    change (delivery_of ?c) with (Del c). by rewrite sent_del.
  - destruct Hlog as (H5 & ts & Hver & Hts).
    assert (Hch : change_of rec = Puts [(arg (a_args rec) 1, arg (a_args rec) 2)] (a_expire rec)
                                   (Version (normalize (a_ts rec)) (a_node rec))).
    { unfold change_of. rewrite Hn. change (eqs "CRDTMERGE" (cmd_name CMerge)) with true.
      rewrite (proj2 (Nat.leb_le _ _)) by done. cbn [andb orb]. by rewrite Hver, Hts, wrap32_small. }
    rewrite Hch. change (eqs "DEL" (cmd_name CMerge) || eqs "CRDTDEL" (cmd_name CMerge)) with false.
    change (eqs "MSET" (cmd_name CMerge)) with false.
    change (eqs "SET" (cmd_name CMerge) || eqs "CRDTMERGE" (cmd_name CMerge)) with true. cbn iota. rewrite first_pair by lia. by apply sent_merges.
  - rewrite change_of_crdtdel by done.
    change (eqs "DEL" (cmd_name CCrdtDel) || eqs "CRDTDEL" (cmd_name CCrdtDel)) with true. cbn [map].
    change (delivery_of ?c) with (Del c). by rewrite sent_del.
Qed.

Lemma shipped_writes_are_the_changes_witness :
  let W := calm default_config 1000 in
  let rec := AofRecord_ (str "r") (map str ["mset"; "a"; "1"; "b"; "2"]%string) 0 (2 ^ 50) 1 in
  map (λ c, sent (delivery_of c)) (own_commands node_id (record_tokens rec)) = map Some (writes_of (change_of rec)).
Proof.
  intros W rec.
  assert (Hv : valid_record rec).
  { split; [by vm_compute|repeat constructor; by vm_compute|vm_compute; split; discriminate..]. }
  assert (H0 : 0 <= a_expire rec) by by vm_compute.
  assert (Hlog : as_logged CMset rec) by (cbn; lia).
  exact (proj2 (shipped_writes_are_the_changes (H := W) CMset rec Hv H0 eq_refl Hlog) eq_refl).
Defined.

(** The tokens of a log: its header, then its records. *)
Definition log_tokens (recs : list AofRecord) : list (list bytes) :=
  [kMagicToken; str "3"] :: map record_tokens recs.

Lemma log_bytes_wire recs : log_bytes recs = wire (log_tokens recs).
Proof.
  unfold log_bytes, log_tokens, wire. rewrite fmap_cons, join_cons, <- kAofHeader_encode. f_equal.
  rewrite <- list_fmap_compose. f_equal. apply list_fmap_ext. intros i rec _. apply encode_record_encode.
Qed.

Lemma record_sendable rec : valid_record rec → sendable (record_tokens rec).
Proof.
  intros Hv. split; [rewrite record_tokens_len; apply Hv|by apply record_tokens_bounded].
Qed.

Lemma log_sendable recs : Forall valid_record recs → Forall sendable (log_tokens recs).
Proof.
  intros Hv. apply Forall_cons. split; [split; [by vm_compute|by repeat constructor; vm_compute]|].
  apply Forall_map, (Forall_impl valid_record); [done|]. apply record_sendable.
Qed.

Lemma cut_of_short tail_ : cut_of tail_ → cut_short tail_.
Proof.
  intros (rec & n & Hv & Hn & ->). exists (record_tokens rec), n.
  rewrite encode_record_encode in *. split; [by apply record_sendable|]. by split.
Qed.

(** C16: The offset only follows acknowledgements. Whatever the network, the
    disk and the peer do, one caravan over a log with an incomplete record at
    its end leaves the offset at the beginning of a record, at or behind the
    one it started from (the first of the file when the inode is another); the
    records it passed carry no own write, or every command they stand for, with
    ROOM wherever the room changes, headed a request whose leading replies the
    peer gave positively; the saved position is the old or the new one. What it
    hands to the connection is the password of a new one, then, unless there is
    none, one request: the commands of the next records, and behind them the
    frontier only if they reach the very end of the file, and always then, when
    the file can be read; a PING when that leaves nothing. *)
Theorem offset_follows_acknowledgements `{World} `{Network} frontier recs tail_ inode i w :
  Forall valid_record recs → cut_of tail_ → starts (log_tokens recs) inode i (w_peer w) →
  let p := w_peer w in
  let '(alive, w') := ship frontier (Some (inode, log_bytes recs ++ tail_)) w in
  let p' := w_peer w' in
  p_inode p' = inode
  ∧ (p_saved p' = p_saved p ∨ p_saved p' = Some (inode, p_offset p'))
  ∧ (∃ i', (i ≤ i')%nat ∧ at_record (log_tokens recs) i' p'
     ∧ ((i < i')%nat → passed (log_tokens recs) i i' p))
  ∧ sends (log_tokens recs) tail_ frontier i p alive (w_sent w) (w_sent w').
Proof.
  intros Hv Hcut Hst. cbv zeta. rewrite log_bytes_wire in *.
  pose proof (ship_spec frontier (log_tokens recs) tail_ inode i w (log_sendable recs Hv)
    (cut_of_short _ Hcut) Hst) as Hs. unfold wp in Hs. destruct (ship _ _ w) as [alive w']. cbn [fst snd] in Hs.
  destruct Hs as [Hin (i' & Hle & Hat & Hpass & _) Hsv _ Hsends].
  split; [exact Hin|]. split; [exact Hsv|]. split; [by exists i'|exact Hsends].
Qed.

Definition deaf : Network := {|
  connects _ := true; secures _ := true; exchange _ _ := (true, []); saves _ := true
|}.

Definition own_log : list AofRecord :=
  [AofRecord_ (str "r") (map str ["set"; "a"; "1"]%string) 0 (2 ^ 50) 1;
   AofRecord_ (str "r") (map str ["del"; "a"]%string) 0 (2 ^ 50 + 1) 1].

Lemma own_log_valid : Forall valid_record own_log.
Proof.
  constructor; [|constructor; [|constructor]];
    (split; [by vm_compute|repeat constructor; by vm_compute|vm_compute; split; discriminate..]).
Qed.

Lemma offset_follows_acknowledgements_witness :
  let W := calm default_config 1000 in
  let w := Worker (new_peer (str "10.0.0.2") (str "6379") None) 0 [] in
  let r := ship (H0 := deaf) 5 (Some (7, log_bytes own_log ++ [])) w in
  p_inode (w_peer r.2) = 7 ∧ sends (log_tokens own_log) [] 5 0 (w_peer w) r.1 [] (w_sent r.2).
Proof.
  intros W w r. assert (Hst : starts (log_tokens own_log) 7 0 (w_peer w)) by by vm_compute.
  pose proof (offset_follows_acknowledgements (H := W) (H0 := deaf) 5 own_log [] 7 0 w
    own_log_valid cut_of_nil Hst) as Hs. cbv zeta in Hs. fold r in Hs. destruct r as [alive w'].
  destruct Hs as (Hi & _ & _ & Hsends). split; [exact Hi|exact Hsends].
Defined.

(** C17: Replication catches up. With a network that connects, a disk that
    reads and a peer that answers every command positively, a worker that runs
    as many turns as there are records left (and a batch that is too short for
    the next record never stops it, since the record is then read whole)
    stands behind the last complete record of the log, on the current file,
    at the normal pace. *)
Theorem replication_catches_up `{World} `{Network} n now delay frontier recs tail_ inode i w :
  Forall valid_record recs → cut_of tail_ → starts (log_tokens recs) inode i (w_peer w) →
  obliging → reads_ok → n ≠ 0%nat → (length (log_tokens recs) ≤ i + n)%nat →
  let '(delay', w') := worker_loop n now delay frontier (Some (inode, log_bytes recs ++ tail_)) w in
  delay' = kTickMs ∧ p_inode (w_peer w') = inode ∧ p_offset (w_peer w') = length (log_bytes recs).
Proof.
  intros Hv Hcut Hst Ho Hr Hn Hlen. rewrite log_bytes_wire in *.
  pose proof (worker_progress n now delay frontier (log_tokens recs) tail_ inode i w (log_sendable recs Hv)
    (cut_of_short _ Hcut) Hst Ho Hr) as Hw. unfold wp in Hw.
  destruct (worker_loop _ _ _ _ _ w) as [delay' w']. cbn [fst snd] in Hw.
  destruct (Hw Hn) as (Hd & Hi & i' & Hle & Hat & ->). split; [done|]. split; [done|].
  by rewrite take_ge by lia.
Qed.

(** A peer that never says no. *)
Definition eager : Network := {|
  connects _ := true; secures _ := true; saves _ := true;
  exchange _ out := (true, [mjoin (replicate (length out) (reply "+OK"))])
|}.

Lemma positive_enough n m : (n ≤ m)%nat →
  positive_replies n false (mjoin (replicate m (reply "+OK"))) = Some n.
Proof.
  revert m. induction n as [|n IH]; intros m Hm; [done|]. destruct m as [|m]; [lia|].
  cbn [replicate]. rewrite join_cons. cbn [positive_replies].
  rewrite (find_crlf_ext (reply "+OK") _ 3) by done. cbn [mbind option_bind].
  rewrite (head_app (reply "+OK") _ 3) by done.
  change (false || negb (bool_decide (reply "+OK" !! 0%nat = Some "+"%char))) with false.
  change (drop (3 + 2) (reply "+OK" ++ ?l)) with l. by rewrite IH by lia.
Qed.

Lemma wire_length cmds : (length cmds ≤ length (wire cmds))%nat.
Proof.
  induction cmds as [|c cmds IH]; [cbn; lia|]. rewrite wire_cons, length_app. cbn [length].
  pose proof (encode_nonempty c). lia.
Qed.

Lemma eager_obliging : obliging (H0 := eager).
Proof.
  split; [done|]. split; [done|]. intros k cmds. eexists. split; [done|].
  cbn [mjoin list_join]. rewrite app_nil_r. apply positive_enough, wire_length.
Qed.

Lemma replication_catches_up_witness :
  let W := calm default_config 1000 in
  let w := Worker (new_peer (str "10.0.0.2") (str "6379") None) 0 [] in
  p_offset (w_peer (worker_loop (H0 := eager) 3 (λ _, 500) 500 5 (Some (7, log_bytes own_log ++ [])) w).2)
  = length (log_bytes own_log).
Proof.
  intros W w. assert (Hst : starts (log_tokens own_log) 7 0 (w_peer w)) by by vm_compute.
  assert (Hn : (length (log_tokens own_log) ≤ 0 + 3)%nat) by (cbn; lia).
  assert (H3 : 3%nat ≠ 0%nat) by done.
  pose proof (replication_catches_up (H := W) (H0 := eager) 3 (λ _, 500) 500 5 own_log [] 7 0 w
    own_log_valid cut_of_nil Hst eager_obliging (calm_reads_ok default_config 1000) H3 Hn) as Hx.
  destruct (worker_loop _ _ _ _ _ w) as [delay' w']. exact (proj2 (proj2 Hx)).
Defined.

(** After a batch that was confirmed to the end, frontier included, the
    selected room is forgotten, as after an error: the reply to the frontier
    makes the count differ from the commands of the batch. The next batch sends
    ROOM again. *)
Example confirmed_frontier_forgets_room :
  let W := calm default_config 1000 in
  let w := Worker (new_peer (str "10.0.0.2") (str "6379") None) 0 [] in
  let p := w_peer (ship (H0 := eager) 5 (Some (7, log_bytes own_log)) w).2 in
  p_offset p = length (log_bytes own_log) ∧ p_room p = [].
Proof. vm_compute. split; reflexivity. Qed.
