(* ===== verification/Metrics.v ===== *)
(** * The metrics exporter (src/server/metrics.h, src/server/metrics.cpp)

    The counters of [global_metrics] as text, the registry of replication peers
    with their suspicion level [phi], the HTTP response of the exporter's thread,
    and what the replicator and the log publish. [erfc] and [log10] of the C
    library are a parameter; the other operations on doubles are those of
    [Doubles]. A client that reads the text back (a line per sample, comments
    skipped, the response taken when it has the announced length) finds exactly
    the values that were loaded. *)

From Stdlib Require Import SpecFloat.
From S2P Require Import Prelude FsUtil Resp Config World Types State Doubles Replicator.

(** ** The counters *)

(** The counters of [DbMetrics] that the log writes; the others are [metrics]. *)
Record aof_gauges := AofGauges {
  aof_bytes : Z;
  aof_base_bytes : Z;
  aof_synced_bytes : Z;
  aof_pending_bytes : Z;
  aof_generation : Z;
  aof_sync_inflight : Z;
  aof_last_sync_epoch_ms : Z;
  aof_sync_duration_us : Z;
  aof_sync_overruns : Z;
  aof_append_lock_wait_us : Z;
  aof_append_lock_waits_slow : Z
}.

(** [publish_sizes] of [AOFManager]. *)
Definition publish_sizes (a : aof_state) (g : aof_gauges) : aof_gauges :=
  AofGauges (Z.of_nat (size_ a)) (Z.of_nat (base_size a)) (aof_synced_bytes g) (aof_pending_bytes g)
    (aof_generation g) (aof_sync_inflight g) (aof_last_sync_epoch_ms g) (aof_sync_duration_us g)
    (aof_sync_overruns g) (aof_append_lock_wait_us g) (aof_append_lock_waits_slow g).

(** [publish_sync_locked]. *)
Definition publish_sync_locked (a : aof_state) (g : aof_gauges) : aof_gauges :=
  AofGauges (aof_bytes g) (aof_base_bytes g) (Z.of_nat (synced a))
    (if (synced a <? size_ a)%nat then Z.of_nat (size_ a - synced a) else 0)
    (wrap64 (Z.of_nat (generation a))) (aof_sync_inflight g) (Z.max 0 (last_sync_epoch_ms a))
    (aof_sync_duration_us g) (aof_sync_overruns g) (aof_append_lock_wait_us g) (aof_append_lock_waits_slow g).

(** [note_append_wait]; [us] has passed since the append began to wait. *)
Definition note_append_wait (us : Z) (g : aof_gauges) : aof_gauges :=
  AofGauges (aof_bytes g) (aof_base_bytes g) (aof_synced_bytes g) (aof_pending_bytes g) (aof_generation g)
    (aof_sync_inflight g) (aof_last_sync_epoch_ms g) (aof_sync_duration_us g) (aof_sync_overruns g)
    (if us <? 0 then 0 else us)
    (if 50000 <=? us then wrap64 (aof_append_lock_waits_slow g + 1) else aof_append_lock_waits_slow g).

(** The stores of [sync_worker] before and after its [fdatasync], which took
    [us]; [interval] is the target in milliseconds. *)
Definition note_sync_started (g : aof_gauges) : aof_gauges :=
  AofGauges (aof_bytes g) (aof_base_bytes g) (aof_synced_bytes g) (aof_pending_bytes g) (aof_generation g)
    1 (aof_last_sync_epoch_ms g) (aof_sync_duration_us g) (aof_sync_overruns g)
    (aof_append_lock_wait_us g) (aof_append_lock_waits_slow g).

Definition note_sync_ended (us interval : Z) (g : aof_gauges) : aof_gauges :=
  AofGauges (aof_bytes g) (aof_base_bytes g) (aof_synced_bytes g) (aof_pending_bytes g) (aof_generation g)
    0 (aof_last_sync_epoch_ms g) (if us <? 0 then 0 else us)
    (if interval * 1000 <? us then wrap64 (aof_sync_overruns g + 1) else aof_sync_overruns g)
    (aof_append_lock_wait_us g) (aof_append_lock_waits_slow g).

(** [aof_sync_age_ms]: [last] as it was loaded, then the clock. *)
Definition aof_sync_age_ms (last now : Z) : Z :=
  if last =? 0 then -1 else
  let age := now - to_i64 last in
  if age <? 0 then 0 else age.

(** ** The peers *)

Record PeerState := PeerState_ {
  mean_ms : double;
  stddev_ms : double;
  last_beat_ms : Z;
  lag_bytes : Z
}.

(** [operator<] of strings. *)
Fixpoint bytes_ltb (a b : bytes) : bool :=
  match a, b with
  | _, [] => false
  | [], _ => true
  | x :: a, y :: b => (ord x <? ord y) || ((ord x =? ord y) && bytes_ltb a b)
  end.

(** [peers]: a [std::map], in the order of its keys. *)
Abbreviation registry := (list (bytes * PeerState)).

Fixpoint publish_peer (peer : bytes) (p : PeerState) (l : registry) : registry :=
  match l with
  | [] => [(peer, p)]
  | (name, q) :: l =>
      if bytes_ltb peer name then (peer, p) :: (name, q) :: l
      else if bytes_ltb name peer then (name, q) :: publish_peer peer p l
      else (name, p) :: l
  end.

(** [Replicator::publish]. *)
Definition mean (intervals : list Z) : double :=
  match intervals with
  | [] => of_int kTickMs
  | _ => ddiv (foldl dadd (of_int 0) (of_int <$> intervals)) (of_int (len intervals))
  end.

Definition stddev (intervals : list Z) : double :=
  match intervals with
  | [] => of_int 0
  | _ =>
      let m := mean intervals in
      dsqrt (ddiv (foldl (λ var d, dadd var (dmul (dsub d m) (dsub d m))) (of_int 0) (of_int <$> intervals))
               (of_int (len intervals)))
  end.

Definition peer_state (p : Peer) : PeerState :=
  PeerState_ (mean (p_intervals p)) (stddev (p_intervals p)) (p_last_beat p) (Z.of_nat (p_lag p)).

Definition publish (p : Peer) (l : registry) : registry :=
  publish_peer (p_host p ++ str ":" ++ p_port p) (peer_state p) l.

(** [erfc] and [log10] of the C library. *)
Class Libm := { erfc : double → double; log10 : double → double }.

Section exporter.
  Context `{Libm}.

Definition half : double := literal 1 2.
Definition tiny : double := literal 1 (10 ^ 300).

(** [phi], at the time [now] of the steady clock. *)
Definition phi (now : Z) (p : PeerState) : double :=
  if last_beat_ms p =? 0 then infinity else
  let sd := dmax (stddev_ms p) (of_int 100) in
  let later := dmul half (erfc (ddiv (dsub (of_int (now - last_beat_ms p)) (mean_ms p))
                                  (dmul sd (dsqrt (of_int 2))))) in
  if SFltb later tiny then of_int 300 else SFopp (log10 later).

Definition phi_text (prometheus : bool) (f : double) : bytes :=
  if isinf f then (if prometheus then str "+Inf" else str "inf") else to_string_d f.

(** The clock is read for every peer. *)
Definition peer_report (prometheus : bool) (now : Z) (name : bytes) (p : PeerState) : bytes :=
  let value := phi_text prometheus (phi now p) in
  if prometheus then
    str "db_peer_phi{peer=" ++ [DQUOTE] ++ name ++ [DQUOTE] ++ str "} " ++ value ++ [LF]
    ++ str "db_peer_lag_bytes{peer=" ++ [DQUOTE] ++ name ++ [DQUOTE] ++ str "} " ++ to_string_u (lag_bytes p) ++ [LF]
  else str "Peer " ++ name ++ str ": phi=" ++ value ++ str " lag=" ++ to_string_u (lag_bytes p) ++ [LF].

Definition peers_report (prometheus : bool) (steady : nat → Z) (l : registry) : bytes :=
  mjoin (imap (λ k e, peer_report prometheus (steady k) e.1 e.2) l).

(** ** The scrape *)

(** The head of a family, and its sample. *)
Definition head (name help kind : string) : bytes :=
  str "# HELP " ++ str name ++ str " " ++ str help ++ [LF]
  ++ str "# TYPE " ++ str name ++ str " " ++ str kind ++ [LF].

Definition family (name help kind : string) (value : bytes) : bytes :=
  head name help kind ++ str name ++ str " " ++ value ++ [LF].

(** The text of a scrape: [m] and [g] hold what the load of each counter gave,
    [age] and [age'] are the two calls of [aof_sync_age_ms]. *)
Definition body (m : metrics) (g : aof_gauges) (age age' : Z) (steady : nat → Z) (l : registry) : bytes :=
  family "db_keys_in_ram" "Total keys currently in memory" "gauge" (to_string_u (keys_in_ram m))
  ++ family "db_resident_bytes" "Estimated bytes of keys and values resident in RAM" "gauge" (to_string_u (resident_bytes m))
  ++ family "db_tombstones" "Versioned delete markers not yet garbage-collected" "gauge" (to_string_u (tombstones m))
  ++ family "db_total_gets" "Total GET commands" "counter" (to_string_u (total_gets m))
  ++ family "db_total_sets" "Total SET commands" "counter" (to_string_u (total_sets m))
  ++ family "db_cache_hits" "Total successful memory reads" "counter" (to_string_u (cache_hits m))
  ++ family "db_keys_evicted" "Total keys sent to Cold Storage" "counter" (to_string_u (keys_evicted m))
  ++ family "db_cold_file_bytes" "Current size of the cold storage file" "gauge" (to_string_u (cold_file_bytes m))
  ++ family "db_cold_obsolete_bytes" "Cold storage bytes no longer referenced by the index" "gauge" (to_string_u (cold_obsolete_bytes m))
  ++ family "db_cold_reclaimed_bytes" "Total bytes reclaimed by cold storage compaction" "counter" (to_string_u (cold_reclaimed_bytes m))
  ++ family "db_aof_bytes" "Current size of the append-only file" "gauge" (to_string_u (aof_bytes g))
  ++ family "db_aof_base_bytes" "AOF size after the last rewrite (or at startup)" "gauge" (to_string_u (aof_base_bytes g))
  ++ family "db_aof_synced_bytes" "Durable prefix of the current AOF generation" "gauge" (to_string_u (aof_synced_bytes g))
  ++ family "db_aof_pending_bytes" "Appended bytes not yet covered by a successful fdatasync" "gauge" (to_string_u (aof_pending_bytes g))
  ++ family "db_aof_generation" "AOF file generation; completions from an older generation are ignored" "gauge" (to_string_u (aof_generation g))
  ++ family "db_aof_sync_inflight" "1 while an everysec fdatasync is running outside the append lock" "gauge" (to_string_u (aof_sync_inflight g))
  ++ family "db_aof_sync_age_ms" "Age of the last successful sync; grows while storage stalls" "gauge" (to_string (if age <? 0 then 0 else age'))
  ++ family "db_aof_sync_duration_us" "Duration of the last sync attempt, including test delay" "gauge" (to_string_u (aof_sync_duration_us g))
  ++ family "db_aof_sync_overruns" "Sync attempts that took longer than the target interval" "counter" (to_string_u (aof_sync_overruns g))
  ++ family "db_aof_append_lock_wait_us" "Time the last append spent waiting for the AOF mutex" "gauge" (to_string_u (aof_append_lock_wait_us g))
  ++ family "db_aof_append_lock_waits_slow" "Appends that waited at least 50ms for the AOF mutex" "counter" (to_string_u (aof_append_lock_waits_slow g))
  ++ head "db_peer_phi" "Phi accrual suspicion level per replication peer" "gauge"
  ++ head "db_peer_lag_bytes" "AOF bytes not yet acknowledged by the peer" "gauge"
  ++ peers_report true steady l.

Definition response (body : bytes) : bytes :=
  str "HTTP/1.1 200 OK" ++ CRLF ++ str "Content-Type: text/plain" ++ CRLF
  ++ str "Content-Length: " ++ to_string_u (len body) ++ CRLF
  ++ str "Connection: close" ++ CRLF ++ CRLF ++ body.

(** The thread serves when its address parses and the socket can be bound and
    listened on; otherwise it ends. *)
Definition exporter_starts (pton bound listening : bool) : bool := pton && bound && listening.

(** A turn: what a client receives; the single [write] passes [written] bytes. *)
Definition exporter_turn (accepted : bool) (body : bytes) (written : nat) : option bytes :=
  if accepted then Some (take written (response body)) else None.

End exporter.

(** ** What the replicator publishes *)

(** A mean and a deviation of doubles far from overflow. *)
Definition good_peer (p : PeerState) : Prop := within 200 (mean_ms p) ∧ within 300 (stddev_ms p).

(** The heartbeats of a peer: at most [kBeatWindow] intervals between readings
    of a clock of 64 bits. *)
Definition beats_ok (p : Peer) : Prop :=
  (length (p_intervals p) ≤ kBeatWindow)%nat ∧ Forall (λ d, Z.abs d <= 2 ^ 63) (p_intervals p).

Lemma beat_keeps now p :
  Z.abs now <= 2 ^ 62 → Z.abs (p_last_beat p) <= 2 ^ 62 → beats_ok p → beats_ok (beat now p).
Proof.
  intros Hn Hl [Hlen Hall]. unfold beats_ok, beat. cbn [p_intervals upd_beat].
  destruct (p_last_beat p =? 0); [done|].
  assert (H' : Forall (λ d, Z.abs d <= 2 ^ 63) (p_intervals p ++ [now - p_last_beat p])).
  { apply Forall_app. split; [done|]. constructor; [lia|constructor]. }
  destruct (Nat.ltb_spec kBeatWindow (length (p_intervals p ++ [now - p_last_beat p]))); [|done].
  split; [rewrite length_drop, length_app; cbn [length]; lia|]. by apply Forall_drop.
Qed.

(** A sum of bounded numbers, and its sign. *)
Lemma foldl_within k {A} (f : A → double) (l : list A) x n :
  0 <= k → k + n + len l < emax → 0 <= n → within (k + n) x → (∀ a, a ∈ l → within k (f a)) →
  let sum := foldl (λ s a, dadd s (f a)) x l in
  within (k + n + len l) sum ∧ (0 <= fixed x → (∀ a, a ∈ l → 0 <= fixed (f a)) → 0 <= fixed sum).
Proof.
  intros Hk. revert x n. induction l as [|a l IH]; intros x n Hlt Hn Hx Hl; cbn [foldl].
  { rewrite len_nil, Z.add_0_r in *. done. }
  rewrite len_cons in *. pose proof (len_nonneg l).
  replace (k + n + (len l + 1)) with (k + (n + 1) + len l) in * by lia.
  assert (Ha : within k (f a)) by (apply Hl; by left).
  assert (Hs : within (k + (n + 1)) (dadd x (f a))).
  { rewrite Z.add_assoc. apply dadd_within; [lia|done|]. by apply (within_weaken k); [lia|]. }
  destruct (IH (dadd x (f a)) (n + 1)) as [H1 H2]; [lia|lia|done|intros; apply Hl; by right|].
  split; [done|]. intros Hx0 Hl0. apply H2; [|intros; apply Hl0; by right].
  destruct (dadd_near x (f a)) as [_ ->]; [by eapply within_finite; [|done]; lia..|].
  apply near_sign; [done|]. pose proof (Hl0 a ltac:(by left)). lia.
Qed.

Lemma foldl_fmap {A B C} (f : C → B → C) (g : A → B) (l : list A) x : foldl f x (g <$> l) = foldl (λ s a, f s (g a)) x l.
Proof. revert x. induction l as [|a l IH]; intros x; [done|]. apply IH. Qed.

Lemma count_double (l : list Z) :
  l ≠ [] → (length l ≤ kBeatWindow)%nat → finite (of_int (len l)) ∧ 2 ^ K <= fixed (of_int (len l)).
Proof.
  intros Hne Hlen. unfold kBeatWindow in Hlen.
  assert (1 <= len l <= 100) by (destruct l; [done|]; unfold len in *; cbn [length] in *; lia).
  split; [apply (within_finite 7); [done|]; apply of_int_within; lia|].
  destruct (of_int_near (len l)) as [_ ->]. apply near_one; [done|].
  pose proof (Z.pow_pos_nonneg 2 K ltac:(lia) ltac:(done)). nia.
Qed.

Lemma mean_within l :
  (length l ≤ kBeatWindow)%nat → Forall (λ d, Z.abs d <= 2 ^ 63) l → within 163 (mean l).
Proof.
  intros Hlen Hall. destruct l as [|d l]; [by apply of_int_within|]. set (ds := d :: l) in *.
  destruct (count_double ds) as [Hf H1]; [done..|].
  change (within 163 (ddiv (foldl dadd (of_int 0) (of_int <$> ds)) (of_int (len ds)))).
  apply ddiv_within; [done| |done|done]. rewrite foldl_fmap.
  unfold kBeatWindow in Hlen. assert (len ds <= 100) by (unfold len; lia).
  apply (within_weaken (63 + 0 + len ds)); [pose proof (len_nonneg ds); lia|].
  apply foldl_within; unfold emax; [lia..|by apply of_int_within|].
  intros a Ha. apply of_int_within; [done|]. by eapply Forall_forall in Hall.
Qed.

Lemma squares_within l m :
  (length l ≤ kBeatWindow)%nat → Forall (λ d, Z.abs d <= 2 ^ 63) l → within 163 m →
  let var := foldl (λ var d, dadd var (dmul (dsub d m) (dsub d m))) (of_int 0) (of_int <$> l) in
  within 428 var ∧ 0 <= fixed var.
Proof.
  intros Hlen Hall Hm var. unfold var. rewrite foldl_fmap. unfold kBeatWindow in Hlen.
  assert (len l <= 100) by (unfold len; lia).
  assert (Hd : ∀ a, a ∈ l → within 164 (dsub (of_int a) m)).
  { intros a Ha. eapply Forall_forall in Ha; [|exact Hall].
    apply (dsub_within 163); [done| |done]. apply (within_weaken 63); [lia|]. by apply of_int_within. }
  destruct (foldl_within 328 (λ d, dmul (dsub (of_int d) m) (dsub (of_int d) m)) l (of_int 0) 0) as [H1 H2];
    unfold emax; [lia..|by apply of_int_within|intros; apply (dmul_within 164 164); by try apply Hd|].
  split; [apply (within_weaken (328 + 0 + len l)); [pose proof (len_nonneg l); lia|done]|].
  apply H2; [done|]. intros a Ha.
  destruct (dmul_near (dsub (of_int a) m) (dsub (of_int a) m)) as [_ ->]; [by eapply within_finite; [|by apply Hd]..|].
  apply near_sign; [done|]. apply Z.square_nonneg.
Qed.

Lemma stddev_within l :
  (length l ≤ kBeatWindow)%nat → Forall (λ d, Z.abs d <= 2 ^ 63) l → within 300 (stddev l).
Proof.
  intros Hlen Hall. destruct l as [|d l]; [by apply of_int_within|]. set (ds := d :: l) in *.
  destruct (count_double ds) as [Hf H1]; [done..|].
  set (var := foldl (λ var d, dadd var (dmul (dsub d (mean ds)) (dsub d (mean ds)))) (of_int 0) (of_int <$> ds)).
  change (within 300 (dsqrt (ddiv var (of_int (len ds))))).
  destruct (squares_within ds (mean ds)) as [Hv Hv0]; [done..|by apply mean_within|]. fold var in Hv, Hv0.
  pose proof (Z.pow_pos_nonneg 2 K ltac:(lia) ltac:(done)) as HK.
  assert (Hq : within 428 (ddiv var (of_int (len ds)))) by (by apply ddiv_within).
  destruct (dsqrt_spec (ddiv var (of_int (len ds))) 300) as [Hn Hb]; [| |done| |].
  - by eapply within_finite; [|done].
  - destruct (ddiv_near var (of_int (len ds))) as [_ ->]; [by eapply within_finite; [|done]|done|lia|].
    apply near_sign; [lia|]. by apply Z.mul_nonneg_nonneg.
  - destruct Hq as [_ Hq]. assert (2 ^ (428 + K) <= 2 ^ (2 * 300 + K)) by (apply Z.pow_le_mono_r; unfold K; lia). lia.
  - split; [done|]. lia.
Qed.

Lemma peer_state_good p : beats_ok p → good_peer (peer_state p).
Proof.
  intros [Hlen Hall]. split; cbn [mean_ms stddev_ms peer_state]; [|by apply stddev_within].
  apply (within_weaken 163); [lia|]. by apply mean_within.
Qed.

(** ** Suspicion *)

(** What the C library's manual says of the two functions: [erfc] decreases
    from 2 to 0, [log10] grows and is -300 to 0 between 10^-300 and 1. *)
Class LibmLaws `{Libm} := {
  erfc_range x : number x → number (erfc x) ∧ 0 <= fixed (erfc x) <= fixed (of_int 2);
  erfc_decreases x y : number x → number y → fixed x <= fixed y → fixed (erfc y) <= fixed (erfc x);
  log10_range x : number x → fixed tiny <= fixed x <= fixed (of_int 1) →
    number (log10 x) ∧ fixed (of_int (-300)) <= fixed (log10 x) <= 0;
  log10_grows x y : number x → number y → fixed tiny <= fixed x → fixed x <= fixed y →
    fixed y <= fixed (of_int 1) → fixed (log10 x) <= fixed (log10 y)
}.

Section suspicion.
  Context `{LibmLaws}.

(** The argument of [erfc]: how late the heartbeat is, in deviations. *)
Definition lateness (now : Z) (p : PeerState) : double :=
  ddiv (dsub (of_int (now - last_beat_ms p)) (mean_ms p))
    (dmul (dmax (stddev_ms p) (of_int 100)) (dsqrt (of_int 2))).

Lemma half_number : number half.
Proof. split; [vm_compute; reflexivity|by vm_compute]. Qed.

Lemma tiny_number : number tiny.
Proof. split; [vm_compute; reflexivity|by vm_compute]. Qed.

Lemma deviation_ok p :
  good_peer p →
  let d := dmul (dmax (stddev_ms p) (of_int 100)) (dsqrt (of_int 2)) in finite d ∧ 2 ^ K <= fixed d.
Proof.
  intros [_ Hs] d. destruct Hs as [Hsn Hsb].
  assert (H100 : number (of_int 100) ∧ 2 ^ K <= fixed (of_int 100) <= 2 ^ (300 + K)).
  { split; [by apply of_int_near|]. split; [by vm_compute|by vm_compute]. }
  destruct H100 as [Hn100 H100].
  destruct (dmax_fixed (stddev_ms p) (of_int 100)) as [Hn Hf]; [done..|].
  pose proof (Z.pow_pos_nonneg 2 K ltac:(lia) ltac:(done)) as HK.
  assert (Hsd : within 300 (dmax (stddev_ms p) (of_int 100))) by (split; [done|]; lia).
  assert (Hroot : within 1 (dsqrt (of_int 2)) ∧ 2 ^ K <= fixed (dsqrt (of_int 2))).
  { split; [split; [split; [vm_compute; reflexivity|by vm_compute]|by vm_compute]|by vm_compute]. }
  destruct Hroot as [Hr Hr1].
  split; [apply (within_finite 301); [done|]; by apply (dmul_within 300 1)|].
  unfold d. destruct (dmul_near (dmax (stddev_ms p) (of_int 100)) (dsqrt (of_int 2))) as [_ ->];
    [by eapply within_finite; [|done]..|].
  apply near_one; [done|]. apply Z.mul_le_mono_nonneg; lia.
Qed.

Lemma wait_within now p :
  Z.abs (now - last_beat_ms p) <= 2 ^ 63 → good_peer p →
  within 201 (dsub (of_int (now - last_beat_ms p)) (mean_ms p)).
Proof.
  intros Hn [Hm _]. apply (dsub_within 200); [done| |done]. apply (within_weaken 63); [lia|]. by apply of_int_within.
Qed.

Lemma lateness_number now p :
  Z.abs (now - last_beat_ms p) <= 2 ^ 63 → good_peer p → number (lateness now p).
Proof.
  intros Hn Hp. destruct (deviation_ok p Hp) as [Hf H1].
  by destruct (ddiv_within 201 _ _ ltac:(done) (wait_within now p Hn Hp) Hf H1).
Qed.

Lemma lateness_grows now now' p :
  good_peer p → now <= now' → Z.abs (now - last_beat_ms p) <= 2 ^ 63 → Z.abs (now' - last_beat_ms p) <= 2 ^ 63 →
  fixed (lateness now p) <= fixed (lateness now' p).
Proof.
  intros Hp Hle Hn Hn'. destruct (deviation_ok p Hp) as [Hf H1].
  pose proof (Z.pow_pos_nonneg 2 K ltac:(lia) ltac:(done)) as HK. unfold lateness.
  assert (Hfin : ∀ t, Z.abs (t - last_beat_ms p) <= 2 ^ 63 →
    finite (of_int (t - last_beat_ms p)) ∧ finite (dsub (of_int (t - last_beat_ms p)) (mean_ms p))).
  { intros t Ht. split; [|by eapply within_finite; [|by apply wait_within]].
    apply (within_finite 63); [done|]. by apply of_int_within. }
  destruct (Hfin now Hn) as [F1 F2]. destruct (Hfin now' Hn') as [F1' F2'].
  assert (Hmean : finite (mean_ms p)) by exact (within_finite 200 _ eq_refl (proj1 Hp)).
  rewrite (proj2 (ddiv_near _ _ F2 Hf ltac:(lia))), (proj2 (ddiv_near _ _ F2' Hf ltac:(lia))).
  apply near_mono; [lia..|]. apply Z.mul_le_mono_nonneg_r; [lia|]. apply Z.mul_le_mono_nonneg_r; [lia|].
  rewrite (proj2 (dsub_near _ _ F1 Hmean)), (proj2 (dsub_near _ _ F1' Hmean)).
  apply near_mono; [done..|].
  rewrite (proj2 (of_int_near _)), (proj2 (of_int_near (now' - _))).
  assert (near ((now - last_beat_ms p) * 2 ^ K) 1 <= near ((now' - last_beat_ms p) * 2 ^ K) 1)
    by (apply near_mono; [done..|]; nia). lia.
Qed.

(** The probability that a heartbeat comes later than now. *)
Definition later (now : Z) (p : PeerState) : double := dmul half (erfc (lateness now p)).

Lemma half_of x :
  number x → 0 <= fixed x <= fixed (of_int 2) →
  number (dmul half x) ∧ 0 <= fixed (dmul half x) <= fixed (of_int 1)
  ∧ fixed (dmul half x) = near (fixed half * fixed x) (2 ^ K).
Proof.
  intros Hx Hb. pose proof (Z.pow_pos_nonneg 2 K ltac:(lia) ltac:(done)) as HK.
  assert (Hfx : finite x).
  { apply finite_fixed; [done|]. assert (fixed (of_int 2) < top) by by vm_compute. lia. }
  assert (Hh : finite half) by (split; [apply half_number|by vm_compute]).
  destruct (dmul_near half x Hh Hfx) as [Hn Hf]. split; [done|]. split; [|done]. rewrite Hf.
  assert (Hh0 : 0 <= fixed half) by by vm_compute.
  split; [apply near_sign; [done|]; apply Z.mul_nonneg_nonneg; lia|].
  transitivity (near (fixed half * fixed (of_int 2)) (2 ^ K)).
  - apply near_mono; [done..|]. apply Z.mul_le_mono_nonneg_r; [lia|]. apply Z.mul_le_mono_nonneg_l; lia.
  - by vm_compute.
Qed.

Lemma later_range now p :
  Z.abs (now - last_beat_ms p) <= 2 ^ 63 → good_peer p →
  number (later now p) ∧ 0 <= fixed (later now p) <= fixed (of_int 1).
Proof.
  intros Hn Hp. destruct (erfc_range (lateness now p)) as [He Hb]; [by apply lateness_number|].
  destruct (half_of _ He Hb) as (? & ? & _). done.
Qed.

Lemma later_decreases now now' p :
  good_peer p → now <= now' → Z.abs (now - last_beat_ms p) <= 2 ^ 63 → Z.abs (now' - last_beat_ms p) <= 2 ^ 63 →
  fixed (later now' p) <= fixed (later now p).
Proof.
  intros Hp Hle Hn Hn'. pose proof (Z.pow_pos_nonneg 2 K ltac:(lia) ltac:(done)) as HK.
  pose proof (lateness_number now p Hn Hp) as L. pose proof (lateness_number now' p Hn' Hp) as L'.
  destruct (erfc_range _ L) as [He Hb]. destruct (erfc_range _ L') as [He' Hb'].
  destruct (half_of _ He Hb) as (_ & _ & E). destruct (half_of _ He' Hb') as (_ & _ & E').
  unfold later. rewrite E, E'. apply near_mono; [done..|]. apply Z.mul_le_mono_nonneg_r; [lia|].
  apply Z.mul_le_mono_nonneg_l; [by vm_compute|]. apply erfc_decreases; [done..|]. by apply lateness_grows.
Qed.

Lemma phi_later now p :
  last_beat_ms p ≠ 0 →
  phi now p = if SFltb (later now p) tiny then of_int 300 else SFopp (log10 (later now p)).
Proof. intros Hb. unfold phi. by rewrite (proj2 (Z.eqb_neq _ _) Hb). Qed.

Lemma fixed_300 : fixed (of_int (-300)) = - fixed (of_int 300).
Proof. by vm_compute. Qed.

Lemma phi_range now p :
  last_beat_ms p ≠ 0 → Z.abs (now - last_beat_ms p) <= 2 ^ 63 → good_peer p →
  number (phi now p) ∧ 0 <= fixed (phi now p) <= fixed (of_int 300).
Proof.
  intros Hb Hn Hp. destruct (later_range now p Hn Hp) as [Hl Hr]. rewrite phi_later by done.
  rewrite (SFltb_fixed _ _ Hl tiny_number).
  destruct (Z.ltb_spec (fixed (later now p)) (fixed tiny)); [split; [apply of_int_near|by vm_compute]|].
  destruct (log10_range (later now p)) as [Hg Hlog]; [done|lia|]. rewrite fixed_opp. rewrite fixed_300 in Hlog.
  split; [by apply number_opp_all|lia].
Qed.

Lemma phi_grows now now' p :
  last_beat_ms p ≠ 0 → good_peer p → now <= now' →
  Z.abs (now - last_beat_ms p) <= 2 ^ 63 → Z.abs (now' - last_beat_ms p) <= 2 ^ 63 →
  fixed (phi now p) <= fixed (phi now' p).
Proof.
  intros Hb Hp Hle Hn Hn'. pose proof (phi_range now p Hb Hn Hp) as [_ Hr].
  destruct (later_range now p Hn Hp) as [Hl Hlr]. destruct (later_range now' p Hn' Hp) as [Hl' Hlr'].
  pose proof (later_decreases now now' p Hp Hle Hn Hn') as Hd.
  rewrite (phi_later now') by done. rewrite (SFltb_fixed _ _ Hl' tiny_number).
  destruct (Z.ltb_spec (fixed (later now' p)) (fixed tiny)); [lia|].
  rewrite (phi_later now) by done. rewrite (SFltb_fixed _ _ Hl tiny_number).
  destruct (Z.ltb_spec (fixed (later now p)) (fixed tiny)); [lia|]. rewrite !fixed_opp.
  apply Z.opp_le_mono. rewrite !Z.opp_involutive. apply log10_grows; [assumption..|lia].
Qed.

(** C28: Suspicion of a replication peer: whatever the replicator published of it
    (at most a hundred intervals of a 64-bit clock), [phi] is infinite before
    the first heartbeat; afterwards it is a number between 0 and 300, and it
    never decreases while the peer is silent. *)
Theorem suspicion_grows (p : Peer) (now now' : Z) :
  beats_ok p → now <= now' → Z.abs (now - p_last_beat p) <= 2 ^ 63 → Z.abs (now' - p_last_beat p) <= 2 ^ 63 →
  if p_last_beat p =? 0 then phi now (peer_state p) = infinity
  else SFleb (of_int 0) (phi now (peer_state p)) = true
    ∧ SFleb (phi now (peer_state p)) (phi now' (peer_state p)) = true
    ∧ SFleb (phi now' (peer_state p)) (of_int 300) = true.
Proof.
  intros Hb Hle Hn Hn'. apply peer_state_good in Hb as Hp.
  destruct (Z.eqb_spec (p_last_beat p) 0) as [E|E]; [unfold phi; cbn [last_beat_ms peer_state]; by rewrite E|].
  destruct (phi_range now (peer_state p)) as [N1 R1]; [done..|].
  destruct (phi_range now' (peer_state p)) as [N2 R2]; [done..|].
  pose proof (phi_grows now now' (peer_state p) E Hp Hle Hn Hn') as Hg.
  pose proof (proj1 (of_int_near 0)). pose proof (proj1 (of_int_near 300)).
  rewrite !SFleb_fixed by assumption. rewrite !Z.leb_le.
  change (fixed (of_int 0)) with 0. lia.
Qed.

End suspicion.

(** A coarse library: steps where the functions are smooth. *)
#[export] Instance step_libm : Libm := {
  erfc x := if SFltb (of_int 0) x then of_int 0 else of_int 2;
  log10 y := if SFltb y (of_int 1) then of_int (-300) else of_int 0
}.

Lemma step_libm_laws : LibmLaws.
Proof.
  pose proof (proj1 (of_int_near 0)) as N0. pose proof (proj1 (of_int_near 1)) as N1.
  assert (F2 : 0 < fixed (of_int 2)) by by vm_compute.
  assert (F3 : fixed (of_int (-300)) < 0) by by vm_compute.
  change (fixed (of_int 0)) with 0 in *.
  split; cbn [erfc log10 step_libm].
  - intros x Hx. rewrite (SFltb_fixed _ _ N0 Hx). destruct (_ <? _); split; try apply of_int_near;
      change (fixed (of_int 0)) with 0; lia.
  - intros x y Hx Hy Hle. rewrite (SFltb_fixed _ _ N0 Hx), (SFltb_fixed _ _ N0 Hy). change (fixed (of_int 0)) with 0.
    destruct (Z.ltb_spec 0 (fixed x)), (Z.ltb_spec 0 (fixed y)); change (fixed (of_int 0)) with 0; lia.
  - intros x Hx _. rewrite (SFltb_fixed _ _ Hx N1). destruct (_ <? _); split; try apply of_int_near;
      change (fixed (of_int 0)) with 0; lia.
  - intros x y Hx Hy _ Hle _. rewrite (SFltb_fixed _ _ Hx N1), (SFltb_fixed _ _ Hy N1).
    destruct (Z.ltb_spec (fixed x) (fixed (of_int 1))), (Z.ltb_spec (fixed y) (fixed (of_int 1)));
      change (fixed (of_int 0)) with 0; lia.
Qed.

Definition sample_peer : Peer :=
  Peer_ (str "node2") (str "6379") None true 1 0 [] [500; 700; 480] 5000 12.

Lemma suspicion_grows_witness :
  if p_last_beat sample_peer =? 0 then phi 5600 (peer_state sample_peer) = infinity
  else SFleb (of_int 0) (phi 5600 (peer_state sample_peer)) = true
    ∧ SFleb (phi 5600 (peer_state sample_peer)) (phi 100000 (peer_state sample_peer)) = true
    ∧ SFleb (phi 100000 (peer_state sample_peer)) (of_int 300) = true.
Proof.
  apply (suspicion_grows (H0 := step_libm_laws) sample_peer 5600 100000).
  - split; [cbn [length p_intervals sample_peer]; unfold kBeatWindow; lia|repeat constructor; lia].
  - lia.
  - cbn [p_last_beat sample_peer]. lia.
  - cbn [p_last_beat sample_peer]. lia.
Defined.

Example mean_ex : to_string_d (mean [500; 700; 480]) = str "560.000000" ∧ to_string_d (stddev [500; 700; 480]) = str "99.331096".
Proof. vm_compute. done. Qed.

(** ** The registry is a sorted map *)

Lemma bytes_ltb_irrefl a : bytes_ltb a a = false.
Proof. induction a as [|x a IH]; [done|]. cbn [bytes_ltb]. rewrite IH, Z.ltb_irrefl. by rewrite andb_false_r. Qed.

Lemma bytes_ltb_total a b : bytes_ltb a b = false → bytes_ltb b a = false → a = b.
Proof.
  revert b. induction a as [|x a IH]; intros [|y b]; try done. cbn [bytes_ltb].
  intros (H1 & H2)%orb_false_iff (H3 & H4)%orb_false_iff. apply Z.ltb_ge in H1, H3.
  assert (E : ord x = ord y) by lia. rewrite E, Z.eqb_refl in H2, H4. rewrite (ord_inj _ _ E). f_equal. by apply IH.
Qed.

Lemma bytes_ltb_trans a b c : bytes_ltb a b = true → bytes_ltb b c = true → bytes_ltb a c = true.
Proof.
  revert b c. induction a as [|x a IH]; intros [|y b] [|z c]; try done. cbn [bytes_ltb].
  intros [H1|(H1 & H1')%andb_true_iff]%orb_true_iff [H2|(H2 & H2')%andb_true_iff]%orb_true_iff; apply orb_true_iff.
  - left. apply Z.ltb_lt in H1, H2. apply Z.ltb_lt. lia.
  - left. apply Z.ltb_lt in H1. apply Z.eqb_eq in H2. apply Z.ltb_lt. lia.
  - left. apply Z.eqb_eq in H1. apply Z.ltb_lt in H2. apply Z.ltb_lt. lia.
  - right. apply Z.eqb_eq in H1, H2. rewrite (IH _ _ H1' H2'). apply andb_true_iff. split; [apply Z.eqb_eq; lia|done].
Qed.

Definition key_lt (a b : bytes * PeerState) : Prop := bytes_ltb a.1 b.1 = true.

#[export] Instance key_lt_trans : Transitive key_lt.
Proof. intros a b c. apply bytes_ltb_trans. Qed.

Definition sorted_registry (l : registry) : Prop := StronglySorted key_lt l.

Lemma publish_peer_elem peer p l e :
  e ∈ publish_peer peer p l → e = (peer, p) ∨ e ∈ l.
Proof.
  induction l as [|[name q] l IH]; cbn [publish_peer]; [set_solver|].
  destruct (bytes_ltb peer name) eqn:E1; [set_solver|]. destruct (bytes_ltb name peer) eqn:E2; [set_solver|].
  rewrite (bytes_ltb_total peer name) by done. set_solver.
Qed.

Lemma publish_peer_sorted peer p l : sorted_registry l → sorted_registry (publish_peer peer p l).
Proof.
  unfold sorted_registry. induction l as [|[name q] l IH]; intros Hs; cbn [publish_peer]; [by repeat constructor|].
  apply StronglySorted_inv in Hs as [Hs Hall].
  destruct (bytes_ltb peer name) eqn:E1.
  - constructor; [by constructor|]. constructor; [done|]. eapply Forall_impl; [exact Hall|].
    intros [n r] Hn. by eapply bytes_ltb_trans.
  - destruct (bytes_ltb name peer) eqn:E2.
    + constructor; [by apply IH|]. apply Forall_forall. intros e He.
      apply publish_peer_elem in He as [->|He]; [done|]. eapply Forall_forall in Hall; eauto.
    + constructor; [done|]. eapply Forall_impl; [exact Hall|]. by intros [n r].
Qed.

(** The state of a peer, as [std::map] finds it. *)
Fixpoint find_peer (peer : bytes) (l : registry) : option PeerState :=
  match l with
  | [] => None
  | (name, q) :: l => if decide (name = peer) then Some q else find_peer peer l
  end.

Lemma find_peer_below peer l : Forall (λ e, bytes_ltb peer e.1 = true) l → find_peer peer l = None.
Proof.
  induction 1 as [|[name q] l Hlt _ IH]; [done|]. cbn [find_peer]. rewrite decide_False; [done|].
  intros ->. cbn [fst] in Hlt. by rewrite bytes_ltb_irrefl in Hlt.
Qed.

Lemma find_publish peer p l peer' :
  sorted_registry l →
  find_peer peer' (publish_peer peer p l) = if decide (peer' = peer) then Some p else find_peer peer' l.
Proof.
  unfold sorted_registry. induction l as [|[name q] l IH]; intros Hs; cbn [publish_peer find_peer].
  { repeat case_decide; congruence. }
  apply StronglySorted_inv in Hs as [Hs Hall].
  destruct (bytes_ltb peer name) eqn:E1; [cbn [find_peer]; repeat case_decide; congruence|].
  destruct (bytes_ltb name peer) eqn:E2; cbn [find_peer].
  - rewrite IH by done. repeat case_decide; congruence.
  - pose proof (bytes_ltb_total peer name E1 E2) as ->. repeat case_decide; congruence.
Qed.

(** ** Reading the text back *)

(** The lines of a text; what follows the last end of line is not one. *)
Fixpoint lines (acc s : bytes) : list bytes :=
  match s with
  | [] => []
  | c :: s => if decide (c = LF) then reverse acc :: lines [] s else lines (c :: acc) s
  end.

(** A sample: the value follows the last space; comments have none. *)
Definition sample (line : bytes) : option (bytes * bytes) :=
  match line with
  | "#"%char :: _ => None
  | _ => (λ i, (take i line, drop (i + 1) line)) <$> rfind_char " "%char line
  end.

Definition read_samples (text : bytes) : list (bytes * bytes) := omap sample (lines [] text).

Lemma lines_app acc s t : LF ∉ s → lines acc (s ++ [LF] ++ t) = (reverse acc ++ s) :: lines [] t.
Proof.
  revert acc. induction s as [|c s IH]; intros acc Hs; cbn [app lines].
  - by rewrite decide_True, app_nil_r.
  - apply not_elem_of_cons in Hs as [Hc Hs]. rewrite decide_False by done.
    change (LF :: t) with ([LF] ++ t). rewrite IH by done. by rewrite reverse_cons, <- app_assoc.
Qed.

Lemma rfind_char_last s v : " "%char ∉ v → rfind_char " "%char (s ++ str " " ++ v) = Some (length s).
Proof.
  intros Hv. unfold rfind_char. rewrite !reverse_app, <- app_assoc. change (reverse (str " ")) with [" "%char].
  rewrite find_char_first by by rewrite elem_of_reverse. cbn [fmap option_fmap option_map]. f_equal.
  change (str " ") with [" "%char]. rewrite length_reverse, !length_app. cbn [length]. lia.
Qed.

Definition plain (v : bytes) : Prop := (LF ∉ v) ∧ (" "%char ∉ v).

Lemma read_line l t :
  LF ∉ l → read_samples (l ++ [LF] ++ t) = option_list (sample l) ++ read_samples t.
Proof.
  intros Hl. unfold read_samples. rewrite lines_app by done. change (reverse [] ++ l) with l.
  cbn [omap list_omap]. by destruct (sample l).
Qed.

(** A line of a sample is read as that sample, a comment as nothing. *)
Lemma read_sample c n v t :
  c ≠ "#"%char → LF ∉ c :: n → plain v →
  read_samples ((c :: n) ++ str " " ++ v ++ [LF] ++ t) = (c :: n, v) :: read_samples t.
Proof.
  intros Hc Hn [Hv1 Hv2]. rewrite !app_assoc, <- (app_assoc _ [LF] t), read_line.
  2:{ rewrite <- app_assoc, !elem_of_app. intros [?|[?%list_elem_of_singleton|?]]; done. }
  rewrite <- app_assoc. assert (Hs : sample ((c :: n) ++ str " " ++ v) = Some (c :: n, v)); [|by rewrite Hs].
  assert (Hr : rfind_char " "%char ((c :: n) ++ str " " ++ v) = Some (length (c :: n))) by by apply rfind_char_last.
  assert (Hsp : ∀ l, sample (c :: l) = (λ i, (take i (c :: l), drop (i + 1) (c :: l))) <$> rfind_char " "%char (c :: l)).
  { intros l. unfold sample. by destruct c as [[] [] [] [] [] [] [] []]. }
  change ((c :: n) ++ str " " ++ v) with (c :: (n ++ str " " ++ v)) in *. rewrite Hsp, Hr.
  change (c :: (n ++ str " " ++ v)) with ((c :: n) ++ str " " ++ v). cbn [fmap option_fmap option_map].
  rewrite take_app_length.
  rewrite (app_assoc _ (str " ") v), drop_app_exact; [done|]. rewrite length_app. done.
Qed.

Lemma read_comment l t :
  LF ∉ l → read_samples (("#"%char :: l) ++ [LF] ++ t) = read_samples t.
Proof.
  intros Hl. rewrite read_line; [done|]. apply not_elem_of_cons. by split.
Qed.

(** The strings of the text have no end of line. *)
Definition no_lf (s : string) : bool := bool_decide (LF ∉ str s).

Lemma no_lf_spec s : no_lf s = true → LF ∉ str s.
Proof. apply bool_decide_eq_true. Qed.

Lemma no_lf_app (s t : bytes) : LF ∉ s → LF ∉ t → LF ∉ s ++ t.
Proof. rewrite elem_of_app. tauto. Qed.

#[local] Hint Resolve no_lf_spec no_lf_app : core.

Lemma read_head name help kind t :
  no_lf name = true → no_lf help = true → no_lf kind = true →
  read_samples (head name help kind ++ t) = read_samples t.
Proof.
  intros Hn Hh Hk. unfold head.
  rewrite <- !app_assoc.
  set (r := str "# TYPE " ++ _).
  replace (str "# HELP " ++ str name ++ str " " ++ str help ++ [LF] ++ r)
    with (("#"%char :: str " HELP " ++ str name ++ str " " ++ str help) ++ [LF] ++ r)
    by (cbn [app]; by rewrite <- !app_assoc).
  rewrite read_comment by auto 8. unfold r.
  replace (str "# TYPE " ++ str name ++ str " " ++ str kind ++ [LF] ++ t)
    with (("#"%char :: str " TYPE " ++ str name ++ str " " ++ str kind) ++ [LF] ++ t)
    by (cbn [app]; by rewrite <- !app_assoc).
  by rewrite read_comment by auto 8.
Qed.

Lemma read_family name help kind v t :
  no_lf name = true → no_lf help = true → no_lf kind = true →
  match str name with c :: _ => c ≠ "#"%char | [] => False end → plain v →
  read_samples (family name help kind v ++ t) = (str name, v) :: read_samples t.
Proof.
  intros Hn Hh Hk Hc Hv. unfold family. rewrite <- !app_assoc, read_head by done.
  pose proof (no_lf_spec name Hn) as Hlf. destruct (str name) as [|c n]; [done|]. by apply read_sample.
Qed.

Lemma visible_plain v : Forall (λ c, visible c = true) v → plain v.
Proof.
  intros Hv. split; intros Hin; eapply Forall_forall in Hv; [|exact Hin| |exact Hin]; done.
Qed.

Lemma to_string_visible n : Forall (λ c, visible c = true) (to_string n).
Proof.
  unfold to_string. destruct (Z.ltb_spec n 0); [apply Forall_app; split; [by repeat constructor|]|];
    apply to_string_u_visible; lia.
Qed.

Lemma phi_text_visible b x : Forall (λ c, visible c = true) (phi_text b x).
Proof. unfold phi_text. destruct (isinf x); [destruct b; by repeat constructor|apply to_string_d_visible]. Qed.

(** What a scrape tells, in its order. *)
Definition exported (m : metrics) (g : aof_gauges) (age age' : Z) : list (bytes * bytes) :=
  [(str "db_keys_in_ram", to_string_u (keys_in_ram m));
   (str "db_resident_bytes", to_string_u (resident_bytes m));
   (str "db_tombstones", to_string_u (tombstones m));
   (str "db_total_gets", to_string_u (total_gets m));
   (str "db_total_sets", to_string_u (total_sets m));
   (str "db_cache_hits", to_string_u (cache_hits m));
   (str "db_keys_evicted", to_string_u (keys_evicted m));
   (str "db_cold_file_bytes", to_string_u (cold_file_bytes m));
   (str "db_cold_obsolete_bytes", to_string_u (cold_obsolete_bytes m));
   (str "db_cold_reclaimed_bytes", to_string_u (cold_reclaimed_bytes m));
   (str "db_aof_bytes", to_string_u (aof_bytes g));
   (str "db_aof_base_bytes", to_string_u (aof_base_bytes g));
   (str "db_aof_synced_bytes", to_string_u (aof_synced_bytes g));
   (str "db_aof_pending_bytes", to_string_u (aof_pending_bytes g));
   (str "db_aof_generation", to_string_u (aof_generation g));
   (str "db_aof_sync_inflight", to_string_u (aof_sync_inflight g));
   (str "db_aof_sync_age_ms", to_string (if age <? 0 then 0 else age'));
   (str "db_aof_sync_duration_us", to_string_u (aof_sync_duration_us g));
   (str "db_aof_sync_overruns", to_string_u (aof_sync_overruns g));
   (str "db_aof_append_lock_wait_us", to_string_u (aof_append_lock_wait_us g));
   (str "db_aof_append_lock_waits_slow", to_string_u (aof_append_lock_waits_slow g))].

Definition labelled (name : string) (peer : bytes) : bytes :=
  str name ++ str "{peer=" ++ [DQUOTE] ++ peer ++ [DQUOTE] ++ str "}".

Definition peer_samples `{Libm} (steady : nat → Z) (l : registry) : list (bytes * bytes) :=
  mjoin (imap (λ k e, [(labelled "db_peer_phi" e.1, phi_text true (phi (steady k) e.2));
                       (labelled "db_peer_lag_bytes" e.1, to_string_u (lag_bytes e.2))]) l).

(** Counters of 64 bits, and peers whose names are one line. *)
Definition counters_ok (m : metrics) (g : aof_gauges) : Prop :=
  Forall is_u64
   [keys_in_ram m; resident_bytes m; tombstones m; total_gets m; total_sets m;
    cache_hits m; keys_evicted m; cold_file_bytes m; cold_obsolete_bytes m; cold_reclaimed_bytes m;
    aof_bytes g; aof_base_bytes g; aof_synced_bytes g; aof_pending_bytes g; aof_generation g;
    aof_sync_inflight g; aof_sync_duration_us g; aof_sync_overruns g; aof_append_lock_wait_us g; aof_append_lock_waits_slow g].

Definition registry_ok (l : registry) : Prop := Forall (λ e, (LF ∉ e.1) ∧ is_u64 (lag_bytes e.2)) l.

Lemma labelled_no_lf name peer : no_lf name = true → LF ∉ peer → LF ∉ labelled name peer.
Proof.
  intros Hn Hp. assert (Hq : LF ∉ [DQUOTE]) by by apply (bool_decide_unpack (LF ∉ [DQUOTE])). unfold labelled. auto 8.
Qed.

Lemma read_peers `{Libm} steady l t :
  registry_ok l → read_samples (peers_report true steady l ++ t) = peer_samples steady l ++ read_samples t.
Proof.
  unfold peers_report, peer_samples. revert steady. induction l as [|[name p] l IH]; intros steady Hl; [done|].
  apply Forall_cons in Hl as [[Hn Hlag] Hl]. cbn [fst snd] in *. rewrite !imap_cons. cbn [mjoin list_join fst snd].
  rewrite <- !app_assoc.
  assert (Hline : ∀ nm v u, no_lf nm = true → match str nm with c :: _ => c ≠ "#"%char | [] => False end → plain v →
    read_samples (labelled nm name ++ str " " ++ v ++ [LF] ++ u) = (labelled nm name, v) :: read_samples u).
  { intros nm v u Hnm Hc Hv. pose proof (labelled_no_lf nm name Hnm Hn) as Hlf. unfold labelled in *.
    destruct (str nm) as [|c w] eqn:E; [done|]. by apply read_sample. }
  assert (Htext : peer_report true (steady 0%nat) name p
    = labelled "db_peer_phi" name ++ str " " ++ phi_text true (phi (steady 0%nat) p) ++ [LF]
      ++ labelled "db_peer_lag_bytes" name ++ str " " ++ to_string_u (lag_bytes p) ++ [LF]).
  { unfold peer_report, labelled. by rewrite <- !app_assoc. }
  rewrite Htext, <- !app_assoc, !Hline; [|done|done|apply visible_plain, to_string_u_visible; apply Hlag
    |done|done|apply visible_plain, phi_text_visible].
  cbn [app]. do 2 f_equal. exact (IH (steady ∘ S) Hl).
Qed.

(** C29: A scrape reads back: the samples of the exporter's text, taken line by
    line with the comments skipped, are exactly the twenty-one counters with the
    values that were loaded, in their order, then suspicion and lag of every
    peer of the registry, in the registry's order. *)
Theorem scrape_reads_back `{Libm} m g age age' steady l :
  counters_ok m g → registry_ok l →
  read_samples (body m g age age' steady l) = exported m g age age' ++ peer_samples steady l.
Proof.
  intros Hc Hl. unfold counters_ok in Hc.
  assert (Hu : ∀ n, is_u64 n → plain (to_string_u n)) by (intros n Hn; apply visible_plain, to_string_u_visible; apply Hn).
  repeat match type of Hc with Forall _ (_ :: _) => let H1 := fresh in apply Forall_cons in Hc as [H1 Hc]; apply Hu in H1 end.
  assert (Hage : plain (to_string (if age <? 0 then 0 else age'))) by (apply visible_plain, to_string_visible).
  unfold body. rewrite !read_family, !read_head by done. unfold exported. cbn [app].
  rewrite <- (app_nil_r (peers_report true steady l)), read_peers by done. by rewrite app_nil_r.
Qed.

(** ** The response *)

(** The text before and after the first occurrence of [pat]. *)
Fixpoint split_at (pat s : bytes) : option (bytes * bytes) :=
  if decide (take (length pat) s = pat) then Some ([], drop (length pat) s)
  else match s with
       | [] => None
       | c :: s => (λ p, (c :: p.1, p.2)) <$> split_at pat s
       end.

(** A client: the body is what follows the empty line, and it is taken when it
    has the announced length. *)
Definition announced (header : bytes) : option Z :=
  match split_at (str "Content-Length: ") header with
  | Some (_, rest) => match split_at CRLF rest with Some (n, _) => parse_u64 n | None => None end
  | None => None
  end.

Definition read_response (s : bytes) : option bytes :=
  match split_at (CRLF ++ CRLF) s with
  | Some (header, body) => if decide (announced header = Some (len body)) then Some body else None
  | None => None
  end.

Lemma split_at_short pat s : (length s < length pat)%nat → split_at pat s = None.
Proof.
  induction s as [|c s IH]; intros Hl; cbn [split_at]; (rewrite decide_False;
    [|intros E; apply (f_equal length) in E; rewrite length_take in E; lia]); [done|].
  rewrite IH; [done|]. cbn [length] in Hl. lia.
Qed.

Lemma split_at_inv pat s a b : split_at pat s = Some (a, b) → s = a ++ pat ++ b.
Proof.
  revert a. induction s as [|c s IH]; intros a; cbn [split_at].
  - destruct (decide _) as [E|]; [|done]. intros [= <- <-]. cbn [app]. rewrite <- E at 1. by rewrite take_nil, drop_nil.
  - destruct (decide _) as [E|].
    + intros [= <- <-]. cbn [app]. rewrite <- E at 1. by rewrite take_drop.
    + intros H. apply fmap_Some in H as ([a' b'] & Hs & [= -> ->]). cbn [app fst snd]. f_equal. by apply IH.
Qed.

(** In a truncated text only what was there is found. *)
Lemma split_at_take pat s w a b :
  split_at pat (take w s) = Some (a, b) →
  ∃ b', split_at pat s = Some (a, b') ∧ b = take (w - length a - length pat) b'.
Proof.
  revert w a b. induction s as [|c s IH]; intros w a b H; [rewrite take_nil in H; exists b|].
  { split; [done|]. cbn [split_at] in H. destruct (decide _); [|done]. injection H as <- <-. by rewrite drop_nil, take_nil. }
  destruct (Nat.lt_ge_cases w (length pat)) as [Hlt|Hge].
  { rewrite split_at_short in H; [done|]. rewrite length_take. lia. }
  destruct w as [|w].
  { destruct pat; [|cbn [length] in Hge; lia]. cbn [take split_at] in *. rewrite decide_True in * by done.
    injection H as <- <-. by exists (c :: s). }
  cbn [split_at]. change (take (S w) (c :: s)) with (c :: take w s) in H. cbn [split_at] in H.
  change (c :: take w s) with (take (S w) (c :: s)) in H.
  rewrite take_take, Nat.min_l in H by done. destruct (decide (take (length pat) (c :: s) = pat)).
  - injection H as <- <-. eexists. split; [done|]. change (c :: take w s) with (take (S w) (c :: s)).
    by rewrite skipn_firstn_comm, Nat.sub_0_r.
  - apply fmap_Some in H as ([a' b''] & Hs & [= -> ->]). destruct (IH w a' b'' Hs) as (b' & -> & ->).
    exists b'. by split.
Qed.

Lemma split_at_here pat t : split_at pat (pat ++ t) = Some ([], t).
Proof.
  assert (H1 : take (length pat) (pat ++ t) = pat) by apply take_app_length.
  assert (H2 : drop (length pat) (pat ++ t) = t) by apply drop_app_length.
  destruct (pat ++ t); cbn [split_at]; by rewrite decide_True, H2.
Qed.

(** What holds no carriage return is passed over, as is an end of line that
    is not followed by one. *)
Lemma split_at_skip pat d t :
  CR ∉ d → split_at (CR :: pat) (d ++ t) = (λ p, (d ++ p.1, p.2)) <$> split_at (CR :: pat) t.
Proof.
  induction d as [|c d IH]; intros Hd; cbn [app].
  - destruct (split_at _ t) as [[a b]|]; done.
  - apply not_elem_of_cons in Hd as [Hc Hd]. cbn [split_at length take].
    rewrite decide_False by (intros [= -> _]; done). rewrite IH by done. by destruct (split_at _ t).
Qed.

Lemma split_at_line c t :
  c ≠ CR → split_at (CRLF ++ CRLF) (CRLF ++ c :: t) = (λ p, (CRLF ++ p.1, p.2)) <$> split_at (CRLF ++ CRLF) (c :: t).
Proof.
  intros Hc. change (CRLF ++ CRLF) with [CR; LF; CR; LF]. change (CRLF ++ c :: t) with (CR :: LF :: c :: t).
  set (u := c :: t). cbn [split_at length take]. unfold u at 1. cbn [take].
  rewrite decide_False by (intros [= -> _]; done). rewrite decide_False by done.
  by destruct (split_at _ u) as [[a b]|].
Qed.

Lemma split_line s t :
  CR ∉ s → s ≠ [] →
  split_at (CRLF ++ CRLF) (CRLF ++ s ++ t) = (λ p, (CRLF ++ s ++ p.1, p.2)) <$> split_at (CRLF ++ CRLF) t.
Proof.
  intros Hs Hne. destruct s as [|c s]; [done|]. apply not_elem_of_cons in Hs as Hc.
  change ((c :: s) ++ t) with (c :: s ++ t) at 1. rewrite split_at_line by (intros ->; by destruct Hc).
  change (c :: s ++ t) with ((c :: s) ++ t). change (CRLF ++ CRLF) with (CR :: [LF; CR; LF]).
  rewrite split_at_skip by done. by destruct (split_at _ t).
Qed.

Definition header (n : bytes) : bytes :=
  str "HTTP/1.1 200 OK" ++ CRLF ++ str "Content-Type: text/plain" ++ CRLF
  ++ str "Content-Length: " ++ n ++ CRLF ++ str "Connection: close".

Lemma digits_no_cr n : Forall (λ c, visible c = true) n → CR ∉ n.
Proof. intros Hn Hin. by eapply Forall_forall in Hn; [|exact Hin]. Qed.

Lemma no_cr s : bool_decide (CR ∉ str s) = true → CR ∉ str s.
Proof. apply bool_decide_eq_true. Qed.

Lemma response_split body :
  split_at (CRLF ++ CRLF) (response body) = Some (header (to_string_u (len body)), body).
Proof.
  unfold response, header. pose proof (digits_no_cr _ (to_string_u_visible (len body) (len_nonneg body))) as Hd.
  assert (Hend : split_at (CRLF ++ CRLF) (CRLF ++ CRLF ++ body) = Some ([], body)).
  { rewrite (app_assoc CRLF CRLF body). apply split_at_here. }
  rewrite (app_assoc (str "Content-Length: ")).
  change (CRLF ++ CRLF) with (CR :: [LF; CR; LF]) at 1. rewrite split_at_skip by by apply no_cr.
  change (CR :: [LF; CR; LF]) with (CRLF ++ CRLF).
  rewrite 3!split_line, Hend; [cbn [fmap option_fmap option_map fst snd]; by rewrite <- !app_assoc, app_nil_r|..].
  all: try done; try (by apply no_cr).
  rewrite elem_of_app. intros [H|H]; [by apply (no_cr "Content-Length: ") in H|done].
Qed.

Lemma header_announces n : is_u64 n → announced (header (to_string_u n)) = Some n.
Proof.
  intros Hn. unfold announced.
  assert (Hs : ∀ t, split_at (str "Content-Length: ") (str "HTTP/1.1 200 OK" ++ CRLF ++ str "Content-Type: text/plain" ++ CRLF
    ++ str "Content-Length: " ++ t) = Some (str "HTTP/1.1 200 OK" ++ CRLF ++ str "Content-Type: text/plain" ++ CRLF, t))
    by (intros t; vm_compute; reflexivity).
  unfold header. rewrite Hs. change CRLF with (CR :: [LF]) at 1.
  rewrite split_at_skip by (apply digits_no_cr, to_string_u_visible; ulia).
  change (CR :: [LF]) with CRLF. rewrite split_at_here. cbn [fmap option_fmap option_map fst snd].
  by rewrite app_nil_r, parse_u64_to_string.
Qed.

(** A scraper never takes a truncated answer for a whole one: the exporter
    writes its response once and ignores how much of it was written; a client
    that waits for the empty line and checks the announced length gets the body
    from the whole response, and from any proper prefix of it nothing. *)
Theorem truncated_response_detected (text : bytes) (written : nat) :
  is_u64 (len text) →
  exporter_turn true text written = Some (take written (response text))
  ∧ read_response (take written (response text))
    = if decide (length (response text) ≤ written)%nat then Some text else None.
Proof.
  intros Hlen. split; [done|]. pose proof (response_split text) as Hr. apply split_at_inv in Hr as Ht.
  assert (Hl : length (response text) = (length (header (to_string_u (len text))) + 4 + length text)%nat)
    by (rewrite Ht at 1; rewrite !length_app; lens; lia).
  unfold read_response. destruct (decide _) as [Hle|Hle].
  - rewrite take_ge, Hr, header_announces by done. by rewrite decide_True.
  - destruct (split_at _ (take _ _)) as [[h b]|] eqn:Hs; [|done].
    apply split_at_inv in Hs as Hw. apply (f_equal length) in Hw. rewrite length_take, !length_app in Hw.
    apply split_at_take in Hs as (b' & Hs & ->). rewrite Hr in Hs.
    assert (h = header (to_string_u (len text)) ∧ b' = text) as [-> ->] by (split; congruence).
    rewrite header_announces, decide_False; [done| |done]. intros E.
    apply (inj Some), Nat2Z.inj in E. rewrite length_take in E. change (length (CRLF ++ CRLF)) with 4%nat in E.
    change (length CRLF) with 2%nat in Hw. lia.
Qed.

Lemma truncated_response_detected_witness :
  exporter_turn true (str "db_total_gets 1") 50 = Some (take 50 (response (str "db_total_gets 1")))
  ∧ read_response (take 50 (response (str "db_total_gets 1")))
    = if decide (length (response (str "db_total_gets 1")) ≤ 50)%nat then Some (str "db_total_gets 1") else None.
Proof. apply (truncated_response_detected (str "db_total_gets 1") 50). vm_compute. split; discriminate. Defined.

Definition sample_metrics : metrics := Metrics_ 3 1024 1 (2 ^ 64 - 1) 7 5 2 0 4096 100 0.
Definition sample_gauges : aof_gauges := AofGauges 500 200 480 20 2 1 1700000000000 900 0 12 0.

(** Two peers, one of which has not answered yet. *)
Definition sample_registry : registry :=
  publish (Peer_ (str "node3") (str "6379") None false 0 0 [] [] 0 700) (publish sample_peer []).

Lemma scrape_reads_back_witness :
  read_samples (body (H := step_libm) sample_metrics sample_gauges 5 6 (λ _, 5600) sample_registry)
  = exported sample_metrics sample_gauges 5 6 ++ peer_samples (λ _, 5600) sample_registry.
Proof.
  apply scrape_reads_back.
  - unfold counters_ok, is_u64. repeat constructor; vm_compute; discriminate.
  - unfold registry_ok, is_u64. repeat constructor; first [by apply (bool_decide_unpack _)|vm_compute; discriminate].
Defined.

Example scrape_ex :
  drop 21 (exported sample_metrics sample_gauges 5 6 ++ peer_samples (H := step_libm) (λ _, 5600) sample_registry)
  = [(str "db_peer_phi{peer=" ++ [DQUOTE] ++ str "node2:6379" ++ [DQUOTE] ++ str "}", str "300.000000");
     (str "db_peer_lag_bytes{peer=" ++ [DQUOTE] ++ str "node2:6379" ++ [DQUOTE] ++ str "}", str "12");
     (str "db_peer_phi{peer=" ++ [DQUOTE] ++ str "node3:6379" ++ [DQUOTE] ++ str "}", str "+Inf");
     (str "db_peer_lag_bytes{peer=" ++ [DQUOTE] ++ str "node3:6379" ++ [DQUOTE] ++ str "}", str "700")].
Proof. vm_compute. reflexivity. Qed.

(** The registry after any publications: sorted, with the latest state of every
    peer that was published. *)
Lemma registry_latest (pubs : list (bytes * PeerState)) :
  let l := foldl (λ l e, publish_peer e.1 e.2 l) [] pubs in
  sorted_registry l
  ∧ ∀ peer, find_peer peer l = snd <$> last (filter (λ e, e.1 = peer) pubs).
Proof.
  induction pubs as [|[name p] pubs IH] using rev_ind; [split; [constructor|done]|].
  rewrite foldl_app. cbn [foldl fst snd]. destruct IH as [Hs Hf]. split; [by apply publish_peer_sorted|].
  intros peer. rewrite find_publish by done. rewrite filter_app, filter_cons, filter_nil. cbn [fst].
  destruct (decide (peer = name)) as [->|Hne].
  - rewrite decide_True by done. by rewrite last_snoc.
  - rewrite decide_False by congruence. by rewrite app_nil_r.
Qed.

(** The gauges of a log whose mutex is held: the durable bytes and the pending
    ones make up its size. *)
Lemma published_log a g :
  (synced a ≤ size_ a)%nat →
  let g' := publish_sync_locked a (publish_sizes a g) in
  aof_synced_bytes g' + aof_pending_bytes g' = aof_bytes g' ∧ 0 <= aof_pending_bytes g'.
Proof.
  intros Hle g'. unfold g'. cbn [aof_synced_bytes aof_pending_bytes aof_bytes publish_sync_locked publish_sizes].
  destruct (Nat.ltb_spec (synced a) (size_ a)); lia.
Qed.

(** The exported age is never negative, and grows with the clock. *)
Lemma sync_age_range last now now' :
  now <= now' → -1 <= aof_sync_age_ms last now ∧ (last ≠ 0 → 0 <= aof_sync_age_ms last now <= aof_sync_age_ms last now').
Proof.
  intros Hle. unfold aof_sync_age_ms. destruct (Z.eqb_spec last 0); [by split|].
  destruct (Z.ltb_spec (now - to_i64 last) 0), (Z.ltb_spec (now' - to_i64 last) 0); lia.
Qed.
