(* ===== verification/Connection.v ===== *)
(** * The connection of a client (src/net/connection.cpp, src/net/auth.cpp)

    [Client] and the operations that touch one client and the totals of the
    module: buffers and their caps, authentication, the protocol of the
    replies. The socket answers interaction [k] as it likes; OpenSSL is a
    parameter with the behaviour its manual documents. *)

From S2P Require Import Prelude FsUtil Resp Config World Crdt Commands.

Definition READ_CHUNK : nat := Z.to_nat 16384.
Definition MAX_COMMANDS_PER_TURN : nat := Z.to_nat 8192.
Definition MAX_INPUT_BUFFER : Z := 128 * 1024 * 1024.
Definition MAX_UNAUTH_BUFFER : Z := 16 * 1024.

(** A session of OpenSSL over memory BIOs: [ssl_feed] is [BIO_write] of the
    reading side, [ssl_read] is [SSL_read] (no bytes when it returns zero or
    less; [ssl_wants_read]: the error is then [SSL_ERROR_WANT_READ]),
    [ssl_write] is [SSL_write], [ssl_drain] what the writing side holds and its
    reset. A successful read uses up something the session had buffered. *)
Class OpenSsl := {
  session : Type;
  new_session : session;
  ssl_feed : session → bytes → session;
  ssl_read : session → bytes * session;
  ssl_wants_read : session → bool;
  ssl_write : session → bytes → bool * session;
  ssl_drain : session → bytes * session;
  ssl_buffered : session → nat;
  ssl_read_uses s : (ssl_read s).1 ≠ [] → (ssl_buffered (ssl_read s).2 < ssl_buffered s)%nat
}.

(** What the kernel does with a non-blocking socket and the ring. A list of
    sends or reads: [None] was interrupted by a signal; then the socket would
    block ([true]) or is closed or broken ([false]). *)
Class Sockets := {
  sends : nat → list (option nat) * bool;
  recvs : nat → list (option bytes) * bool;
  recvs_chunk k : Forall (λ d, (0 < length d ≤ READ_CHUNK)%nat) (omap id (recvs k).1);
  steady : nat → Z;
  sqes : nat → nat
}.

Section connection.
  Context `{World, OpenSsl, Sockets} (g_tls : bool).

(** [Client]; [wire]: the bytes its socket has accepted. *)
Record Client := Client_ {
  fd : Z;
  in_buf : bytes;
  out_buf : bytes;
  out_off : nat;
  closed : bool;
  read_armed : bool;
  write_armed : bool;
  resp3 : bool;
  authenticated : bool;
  held : Z;
  ssl : option session;
  connected : Z;
  wire : bytes
}.

Definition upd_in (f : bytes → bytes) (c : Client) : Client :=
  Client_ (fd c) (f (in_buf c)) (out_buf c) (out_off c) (closed c) (read_armed c) (write_armed c)
    (resp3 c) (authenticated c) (held c) (ssl c) (connected c) (wire c).
Definition upd_out (out : bytes) (off : nat) (wire : bytes) (c : Client) : Client :=
  Client_ (fd c) (in_buf c) out off (closed c) (read_armed c) (write_armed c)
    (resp3 c) (authenticated c) (held c) (ssl c) (connected c) wire.
Definition set_closed (c : Client) : Client :=
  Client_ (fd c) (in_buf c) (out_buf c) (out_off c) true (read_armed c) (write_armed c)
    (resp3 c) (authenticated c) (held c) (ssl c) (connected c) (wire c).
Definition upd_armed (for_write b : bool) (c : Client) : Client :=
  Client_ (fd c) (in_buf c) (out_buf c) (out_off c) (closed c) (if for_write then read_armed c else b)
    (if for_write then b else write_armed c) (resp3 c) (authenticated c) (held c) (ssl c) (connected c) (wire c).
Definition set_resp3 (b : bool) (c : Client) : Client :=
  Client_ (fd c) (in_buf c) (out_buf c) (out_off c) (closed c) (read_armed c) (write_armed c)
    b (authenticated c) (held c) (ssl c) (connected c) (wire c).
Definition set_authenticated (c : Client) : Client :=
  Client_ (fd c) (in_buf c) (out_buf c) (out_off c) (closed c) (read_armed c) (write_armed c)
    (resp3 c) true (held c) (ssl c) (connected c) (wire c).
Definition set_held (n : Z) (c : Client) : Client :=
  Client_ (fd c) (in_buf c) (out_buf c) (out_off c) (closed c) (read_armed c) (write_armed c)
    (resp3 c) (authenticated c) n (ssl c) (connected c) (wire c).
Definition set_ssl (s : session) (c : Client) : Client :=
  Client_ (fd c) (in_buf c) (out_buf c) (out_off c) (closed c) (read_armed c) (write_armed c)
    (resp3 c) (authenticated c) (held c) (Some s) (connected c) (wire c).

(** [Client::Client], at time [now]. *)
Definition new_client (f now : Z) : Client :=
  Client_ f [] [] 0 false false false false (bool_decide (password cfg = [])) 0
    (if g_tls then Some new_session else None) now [].

Definition pending_out (c : Client) : Z := len (out_buf c) - Z.of_nat (out_off c).
Definition input_cap (c : Client) : Z := if authenticated c then MAX_INPUT_BUFFER else MAX_UNAUTH_BUFFER.
Definition output_cap (c : Client) : Z := if authenticated c then MAX_REPLY else MAX_UNAUTH_BUFFER.

(** The module's totals, and the number of interactions with the kernel. *)
Record totals := Totals { g_client_buffers : Z; g_auth_failures : Z; net_tick : nat }.

Definition conn : Type := Client * totals.

Definition mod_client (f : Client → Client) : M conn unit := modify (λ s, (f s.1, s.2)).
Definition mod_totals (f : totals → totals) : M conn unit := modify (λ s, (s.1, f s.2)).

Definition ask {A} (f : nat → A) : M conn A :=
  let* k := gets (λ s, net_tick s.2) in
  mod_totals (λ g, Totals (g_client_buffers g) (g_auth_failures g) (S (net_tick g))) ;;
  ret (f k).

Definition over_buffer_budget (extra : Z) : M conn bool :=
  gets (λ s, negb (wrap64 (g_client_buffers s.2 + extra) <=? max_client_buffers cfg)).

Definition now_held (c : Client) : Z := if closed c then 0 else len (in_buf c) + len (out_buf c).

Definition track : M conn unit :=
  let* c := gets fst in
  mod_totals (λ g, Totals (wrap64 (g_client_buffers g - held c + now_held c)) (g_auth_failures g) (net_tick g)) ;;
  mod_client (set_held (now_held c)).

(** ** TLS *)

Definition take_ciphertext (s : session) : M conn unit :=
  let '(data, s) := ssl_drain s in
  mod_client (λ c, set_ssl s (upd_out (out_buf c ++ data) (out_off c) (wire c) c)).

(** [while ((n = SSL_read(...)) > 0)], within what the session has buffered. *)
Fixpoint read_plain (fuel : nat) (s : session) : M conn session :=
  let '(data, s) := ssl_read s in
  match data, fuel with
  | [], _ | _, O => ret s
  | _, S fuel => mod_client (upd_in (λ buf, buf ++ data)) ;; read_plain fuel s
  end.

Definition tls_in (s : session) (raw : bytes) : M conn bool :=
  let s := ssl_feed s raw in
  let* s := read_plain (ssl_buffered s) s in
  take_ciphertext s ;;
  ret (ssl_wants_read s).

Definition tls_out (s : session) (data : bytes) : M conn bool :=
  let '(ok, s) := ssl_write s data in
  take_ciphertext s ;;
  ret ok.

(** ** Output *)

Inductive FlushResult := Complete_ | Pending | Dead.

Fixpoint flush_loop (script : list (option nat)) (again : bool) : M conn FlushResult :=
  let* c := gets fst in
  if (length (out_buf c) <=? out_off c)%nat then
    mod_client (upd_out [] 0 (wire c)) ;; track ;; ret Complete_
  else
  match script with
  | [] => ret (if again then Pending else Dead)
  | None :: script => flush_loop script again
  | Some O :: _ => ret Dead
  | Some n :: script =>
      let data := take n (drop (out_off c) (out_buf c)) in
      mod_client (upd_out (out_buf c) (out_off c + length data) (wire c ++ data)) ;;
      flush_loop script again
  end.

Definition flush_output : M conn FlushResult :=
  let* '(script, again) := ask sends in
  flush_loop script again.

Definition enqueue_output (data : bytes) : M conn bool :=
  let* c := gets fst in
  if closed c then ret false else
  if output_cap c <? pending_out c + len data then ret false else
  let* over := over_buffer_budget (len data) in
  if over then ret false else
  let* ok :=
    (match ssl c with
     | None => mod_client (upd_out (out_buf c ++ data) (out_off c) (wire c)) ;; ret true
     | Some s => tls_out s data
     end) in
  if negb ok then ret false else
  track ;; ret true.

(** ** Input *)

Fixpoint drain_loop (script : list (option bytes)) (again : bool) : M conn bool :=
  let* c := gets fst in
  if input_cap c <=? len (in_buf c) then ret true else
  match script with
  | [] => ret again
  | None :: script => drain_loop script again
  | Some temp :: script =>
      let* ok :=
        (match ssl c with
         | None => mod_client (upd_in (λ buf, buf ++ temp)) ;; ret true
         | Some s => tls_in s temp
         end) in
      if negb ok then ret false else
      track ;;
      let* over := over_buffer_budget 0 in
      if over then ret false else
      if (length temp <? READ_CHUNK)%nat then ret true else drain_loop script again
  end.

Definition drain_read : M conn bool :=
  let* '(script, again) := ask recvs in
  drain_loop script again.

(** ** Authentication *)

(** A [const char*] stops at the first zero byte; [strcasecmp(s, name) == 0]
    for an upper-case [name]. *)
Fixpoint c_str (s : bytes) : bytes :=
  match s with
  | [] => []
  | c :: s => if ord c =? 0 then [] else c :: c_str s
  end.

Definition is_word (name : string) (s : bytes) : bool := bool_decide (upper (c_str s) = str name).

(** The constant-time comparison: the differences collected in one byte. *)
Definition credentials_ok (user pass password : bytes) : bool :=
  let diff0 := if (length pass =? length password)%nat then 0 else 1 in
  let diff := foldl (λ diff i,
    Z.lor diff (Z.lxor (ord (nth i password (chr 0)))
                  (if (i <? length pass)%nat then ord (nth i pass (chr 0)) else 0)))
    diff0 (seq 0 (length password)) in
  (diff =? 0) && bool_decide (user = str "default").

Definition authenticate (user pass : bytes) : M conn bytes :=
  if negb (credentials_ok user pass (password cfg)) then
    mod_totals (λ g, Totals (g_client_buffers g) (wrap32 (g_auth_failures g + 1)) (net_tick g)) ;;
    ret (reply "-WRONGPASS invalid username-password pair")
  else
    mod_client set_authenticated ;;
    ret (reply "+OK").

Definition auth (args : list bytes) : M conn bytes :=
  if negb ((length args =? 2)%nat || (length args =? 3)%nat) then
    ret (reply "-ERR wrong number of arguments for 'auth' command")
  else if bool_decide (password cfg = []) then
    ret (reply "-ERR AUTH <password> called without any password configured for the default user. Are you sure your configuration is correct?")
  else authenticate (if (length args =? 3)%nat then arg args 1 else str "default") (default [] (last args)).

(** [std::from_chars] of an [int] that takes the whole text. *)
Definition from_chars_int (s : bytes) : option Z :=
  let neg := match s with c :: _ => bool_decide (c = chr 45) | [] => false end in
  let digits := if neg then tail s else s in
  if bool_decide (digits = []) || negb (forallb is_digit digits) then None else
  let v := if neg then - decval digits else decval digits in
  if is_int v then Some v else None.

(** The options of HELLO; [Some]: an error reply. *)
Fixpoint hello_options (args : list bytes) : M conn (option bytes) :=
  match args with
  | [] => ret None
  | o :: rest =>
      let syntax := str "-ERR Syntax error in HELLO option '" ++ o ++ str "'" ++ CRLF in
      match rest with
      | user :: (pass :: more) as tl =>
          if is_word "AUTH" o then
            if bool_decide (password cfg = []) then hello_options more else
            let* r := authenticate user pass in
            if bool_decide (head r = Some "-"%char) then ret (Some r) else hello_options more
          else if is_word "SETNAME" o then hello_options tl
          else ret (Some syntax)
      | [_] => if is_word "SETNAME" o then ret None else ret (Some syntax)
      | [] => ret (Some syntax)
      end
  end.

Definition hello_reply (c : Client) : bytes :=
  (if resp3 c then reply "%7" else reply "*14")
  ++ bulk_string (str "server") ++ bulk_string (str "somnium")
  ++ bulk_string (str "version") ++ bulk_string (str "7.0.0")
  ++ bulk_string (str "proto") ++ str ":" ++ str (if resp3 c then "3" else "2") ++ CRLF
  ++ bulk_string (str "id") ++ str ":" ++ to_string (fd c) ++ CRLF
  ++ bulk_string (str "mode") ++ bulk_string (str "standalone")
  ++ bulk_string (str "role") ++ bulk_string (str "master")
  ++ bulk_string (str "modules") ++ str "*0" ++ CRLF.

Definition NOAUTH_HELLO : bytes :=
  reply "-NOAUTH HELLO must be called with the client already authenticated, otherwise the HELLO <proto> AUTH <user> <pass> option can be used to authenticate the client and select the RESP protocol version at the same time".

(** What follows the options: the protocol and the reply. *)
Definition hello_finish (proto : Z) : M conn bytes :=
  let* c := gets fst in
  if negb (authenticated c) then ret NOAUTH_HELLO else
  mod_client (set_resp3 (proto =? 3)) ;;
  gets (λ s, hello_reply s.1).

Definition hello (args : list bytes) : M conn bytes :=
  let* c := gets fst in
  match args with
  | _ :: v :: options =>
      match from_chars_int v with
      | None => ret (reply "-ERR Protocol version is not an integer or out of range")
      | Some proto =>
          if negb (proto =? 2) && negb (proto =? 3) then ret (reply "-NOPROTO unsupported protocol version") else
          let* r := hello_options options in
          match r with
          | Some r => ret r
          | None => hello_finish proto
          end
      end
  | _ => hello_finish (if resp3 c then 3 else 2)
  end.

Definition take_auth_failures : M totals Z :=
  let* n := gets g_auth_failures in
  modify (λ g, Totals (g_client_buffers g) 0 (net_tick g)) ;;
  ret n.

End connection.
