(* ===== verification/ConnSpecs.v ===== *)
(** * What the operations of a connection do

    Each operation of [Connection] on a client, alone: what it leaves as it
    was, that the shared total of buffered bytes follows the client's, the
    caps, the order of the output, and who may authenticate. *)

From stdpp Require Import list.
From S2P Require Import Prelude FsUtil Resp Config World Crdt Commands Connection.

(** ** Credentials *)

Lemma foldl_lor_zero {A} (f : A → Z) (l : list A) d :
  foldl (λ d i, Z.lor d (f i)) d l = 0 ↔ d = 0 ∧ Forall (λ i, f i = 0) l.
Proof.
  revert d. induction l as [|x l IH]; intros d; cbn [foldl].
  - intuition.
  - rewrite IH, Z.lor_eq_0_iff, Forall_cons. tauto.
Qed.

Lemma credentials_ok_spec user pass password :
  credentials_ok user pass password = true ↔ user = str "default" ∧ pass = password.
Proof.
  unfold credentials_ok. rewrite andb_true_iff, bool_decide_eq_true, Z.eqb_eq, foldl_lor_zero, Forall_forall.
  split.
  - intros [[Hlen Hall] Hu]. split; [done|].
    destruct (Nat.eqb_spec (length pass) (length password)) as [El|]; [|done].
    apply (list_eq_same_length _ _ (length password)); [done|done|].
    intros i x y Hi Hx Hy.
    assert (Hin : i ∈ seq 0 (length password)) by (apply elem_of_seq; lia).
    specialize (Hall i Hin). cbn beta in Hall. rewrite (proj2 (Nat.ltb_lt _ _)) in Hall by lia.
    rewrite (nth_lookup_Some _ _ _ _ Hx), (nth_lookup_Some _ _ _ _ Hy) in Hall.
    apply (proj1 (Z.lxor_eq_0_iff _ _)) in Hall. apply ord_inj; symmetry; exact Hall.
  - intros [-> ->]. rewrite Nat.eqb_refl. split; [split; [done|]|done].
    intros i Hi%elem_of_seq. rewrite (proj2 (Nat.ltb_lt _ _)) by lia. apply Z.lxor_nilpotent.
Qed.

Section specs.
  Context `{World, OpenSsl, Sockets}.
  Implicit Types (s : conn) (c : Client).

(** ** Relations on a client *)

(** What no operation on an open client changes. *)
Record kin (c c' : Client) : Prop := {
  kn_fd : fd c' = fd c;
  kn_closed : closed c' = closed c;
  kn_read : read_armed c' = read_armed c;
  kn_write : write_armed c' = write_armed c;
  kn_auth : authenticated c = true → authenticated c' = true;
  kn_plain : ssl c = None → ssl c' = None
}.

#[export] Instance kin_preorder : PreOrder kin.
Proof. split; [split; auto|]. intros c1 c2 c3 [] []. split; try congruence; auto. Qed.

(** The input and the protocol stay. *)
Record quiet (c c' : Client) : Prop := {
  qt_in : in_buf c' = in_buf c;
  qt_resp3 : resp3 c' = resp3 c;
  qt_auth : authenticated c' = authenticated c
}.

#[export] Instance quiet_preorder : PreOrder quiet.
Proof. split; [split; auto|]. intros c1 c2 c3 [] []. split; congruence. Qed.

(** The client's output: what its socket accepted and what still waits. *)
Definition stream (c : Client) : bytes := wire c ++ drop (out_off c) (out_buf c).

(** The total of the module, when the other clients hold [o] bytes. *)
Record counted (o : Z) (s : conn) : Prop := {
  ct_total : g_client_buffers s.2 = wrap64 (o + held s.1);
  ct_off : (out_off s.1 ≤ length (out_buf s.1))%nat;
  ct_others : 0 <= o;
  ct_held : 0 <= held s.1
}.

Record accounted (o : Z) (s : conn) : Prop := {
  ac_counted : counted o s;
  ac_held : held s.1 = now_held s.1
}.

Definition in_budget (o : Z) (s : conn) : Prop := o + held s.1 <= max_client_buffers cfg.

Definition in_output_cap (c : Client) : Prop := pending_out c <= output_cap c.

Lemma pending_length c : (out_off c ≤ length (out_buf c))%nat → pending_out c = len (drop (out_off c) (out_buf c)).
Proof. intros Hle. unfold pending_out, len. rewrite length_drop. lia. Qed.

Lemma output_cap_mono c c' :
  (authenticated c = true → authenticated c' = true) → output_cap c <= output_cap c'.
Proof.
  intros Ha. unfold output_cap. destruct (authenticated c); [by rewrite Ha|].
  by destruct (authenticated c').
Qed.

Lemma now_held_nonneg c : 0 <= now_held c.
Proof. unfold now_held. destruct (closed c); ulia. Qed.

(** ** Primitive steps *)

Lemma wp_kernel_ask {A} (f : nat → A) (Q : A → conn → Prop) s :
  (∀ a g, g_client_buffers g = g_client_buffers s.2 → g_auth_failures g = g_auth_failures s.2 → a = f (net_tick s.2) → Q a (s.1, g)) →
  wp (ask f) Q s.
Proof. intros HQ. unfold ask. wp_run. by apply HQ. Qed.

Lemma wp_track o (Q : unit → conn → Prop) s :
  counted o s →
  (∀ s', s'.1 = set_held (now_held s.1) s.1 → g_auth_failures s'.2 = g_auth_failures s.2 → accounted o s' → Q tt s') →
  wp track Q s.
Proof.
  intros [Hg Hoff Ho Hh0] HQ. unfold track, mod_totals, mod_client. wp_run. apply HQ; [done|done|].
  split; [|done]. split; [|done|done|apply now_held_nonneg]. cbn. rewrite Hg. rewrite <- Z.sub_sub_distr, <- Z.add_opp_r, wrap64_add_l. f_equal. lia.
Qed.

Lemma kin_held n c : kin c (set_held n c).
Proof. by split. Qed.

Lemma quiet_held n c : quiet c (set_held n c).
Proof. by split. Qed.

Lemma now_held_open c : closed c = false → now_held c = len (in_buf c) + len (out_buf c).
Proof. unfold now_held. by intros ->. Qed.

(** ** Flushing *)

Record flushed (o : Z) (s s' : conn) (r : FlushResult) : Prop := {
  fl_kin : kin s.1 s'.1;
  fl_quiet : quiet s.1 s'.1;
  fl_acc : accounted o s';
  fl_less : held s'.1 <= held s.1;
  fl_stream : stream s'.1 = stream s.1;
  fl_pending : pending_out s'.1 <= pending_out s.1;
  fl_done : r = Complete_ → pending_out s'.1 = 0;
  fl_failures : g_auth_failures s'.2 = g_auth_failures s.2
}.

Lemma flush_loop_spec o script again s :
  accounted o s → wp (flush_loop script again) (λ r s', flushed o s s' r) s.
Proof.
  revert s. induction script as [|w script IH]; intros s Hac; cbn [flush_loop]; wp_run;
    destruct (Nat.leb_spec (length (out_buf s.1)) (out_off s.1)) as [Hle|Hlt].
  1, 3: unfold mod_client; wp_run; pose proof Hac as [[Hg Hoff Ho Hh0] Hh]; apply (wp_track o); [by split; cbn; [|lia|..]|];
    intros s' Hs' Hf Hac'; apply wp_ret;
    assert (Hsame : held s'.1 <= held s.1)
      by (rewrite Hs', Hh; unfold now_held; cbn; destruct (closed s.1); lens);
    (split; rewrite ?Hs'; try done;
      [rewrite Hs' in Hsame; exact Hsame
      |unfold stream; cbn; rewrite drop_ge by done; by rewrite app_nil_r
      |unfold pending_out; cbn; lens]).
  - wp_run. split; try done. by destruct again.
  - destruct w as [[|n]|]; [wp_run; by split| |by apply IH].
    unfold mod_client. wp_run. set (data := take (S n) _). destruct s as [c g].
    assert (Hd : (length data ≤ length (out_buf c) - out_off c)%nat)
      by (subst data; rewrite length_take, length_drop; cbn [fst]; lia).
    cbn [fst] in Hlt.
    eapply wp_mono; [apply IH|].
    + destruct Hac as [[Hg Hoff Ho Hh0] Hh]. split; [split; [done|cbn [fst upd_out out_off out_buf]; lia|done..]|]. cbn.
      cbn in Hh. rewrite Hh. by unfold now_held.
    + intros r s' [K Q A L St P D F]. cbn in *. split; cbn; try done.
      * trans (upd_out (out_buf c) (out_off c + length data) (wire c ++ data) c); [by split|done].
      * trans (upd_out (out_buf c) (out_off c + length data) (wire c ++ data) c); [by split|done].
      * rewrite St. unfold stream. cbn. rewrite <- app_assoc. f_equal. rewrite <- drop_drop.
        subst data. cbn [fst]. rewrite <- take_length_take at 1. apply take_drop.
      * etrans; [exact P|]. unfold pending_out. cbn. lia.
Qed.

Lemma flush_spec o s : accounted o s → wp flush_output (λ r s', flushed o s s' r) s.
Proof.
  intros Hac. unfold flush_output. wp_run. apply wp_kernel_ask. intros [script again] g Hg Hf _.
  eapply wp_mono; [apply flush_loop_spec|].
  - destruct Hac as [[Ht Ho Hp Hn] Hh]. split; [split|]; cbn [fst snd]; [by rewrite Hg|exact Ho|exact Hp|exact Hn|exact Hh].
  - intros r s' [K Q A L St P D F]. split; try done. by rewrite F.
Qed.

(** ** Queueing output *)

(** The budget is far below what 64 bits hold. *)
Definition sane_budget : Prop := max_client_buffers cfg < 2 ^ 63.

Record enqueued (o : Z) (data : bytes) (s s' : conn) (ok : bool) : Prop := {
  en_kin : kin s.1 s'.1;
  en_quiet : quiet s.1 s'.1;
  en_counted : counted o s';
  en_ok : ok = true → accounted o s' ∧ closed s.1 = false;
  en_failures : g_auth_failures s'.2 = g_auth_failures s.2;
  en_plain : ssl s.1 = None →
    if ok then stream s'.1 = stream s.1 ++ data
               ∧ pending_out s'.1 = pending_out s.1 + len data ∧ in_output_cap s'.1
               ∧ (sane_budget → in_budget o s → in_budget o s')
    else s' = s;
  en_closed : closed s.1 = true → s' = s
}.

Lemma enqueue_refused o data s :
  accounted o s → enqueued o data s s false.
Proof. intros [Hct _]. split; try done. Qed.

Lemma take_ciphertext_spec o t s (Q : unit → conn → Prop) :
  counted o s →
  (∀ s', kin s.1 s'.1 → quiet s.1 s'.1 → counted o s' → g_auth_failures s'.2 = g_auth_failures s.2 →
     ssl s.1 ≠ None → Q tt s') →
  ssl s.1 ≠ None → wp (take_ciphertext t) Q s.
Proof.
  intros [Hg Ho Hp Hn] HQ Ht. unfold take_ciphertext, mod_client. destruct (ssl_drain t) as [data t']. wp_run.
  apply HQ; try done.
  split; cbn; [done|rewrite length_app; lia|done..].
Qed.

Lemma enqueue_spec o data s :
  accounted o s → wp (enqueue_output data) (λ ok s', enqueued o data s s' ok) s.
Proof.
  intros Hac. pose proof (enqueue_refused o data s Hac) as Hno. unfold enqueue_output. wp_run.
  destruct (closed s.1) eqn:Hcl; wp_run; [done|].
  destruct (Z.ltb_spec (output_cap s.1) (pending_out s.1 + len data)) as [|Hcap]; wp_run; [done|].
  unfold over_buffer_budget. wp_run.
  destruct (Z.leb_spec (wrap64 (g_client_buffers s.2 + len data)) (max_client_buffers cfg)) as [Hb|];
    cbn [negb]; wp_run; [|done].
  destruct (ssl s.1) as [t|] eqn:Hs.
  - unfold tls_out. destruct (ssl_write t data) as [ok t'].
    wp_run. eapply take_ciphertext_spec; [apply Hac| |by rewrite Hs].
    intros s1 K Q C F _. wp_run. destruct ok; cbn [negb]; wp_run; [|by split; rewrite ?Hs, ?Hcl].
    apply (wp_track o); [done|]. intros s2 E2 F2 A2. wp_run. split.
    + rewrite E2. trans s1.1; [done|apply kin_held].
    + rewrite E2. trans s1.1; [done|apply quiet_held].
    + apply A2.
    + done.
    + by rewrite F2.
    + by rewrite Hs.
    + by rewrite Hcl.
  - unfold mod_client. wp_run. cbn [negb]. wp_run. destruct Hac as [[Hg Ho Hp Hn] Hh].
    apply (wp_track o); [split; cbn [fst snd upd_out held out_off out_buf]; [done|rewrite length_app; lia|done..]|].
    intros s2 E2 F2 A2. wp_run. split; rewrite ?E2, ?Hcl; try done.
    + apply A2.
    + intros _. cbn. split_and!.
      * unfold stream. cbn. rewrite drop_app_le by done. by rewrite app_assoc.
      * unfold pending_out. cbn. rewrite len_app. lia.
      * unfold in_output_cap, output_cap, pending_out in *. cbn. rewrite len_app. lia.
      * intros Hsane Hin. unfold in_budget, sane_budget in *. rewrite E2. cbn [set_held held].
        rewrite Hh, now_held_open in * by done. cbn [upd_out in_buf out_buf fst]. rewrite len_app.
        rewrite Hg, wrap64_add_l in Hb.
        rewrite wrap64_small in Hb; [lia|].
        assert (0 <= pending_out s.1) by (unfold pending_out; ulia).
        assert (output_cap s.1 <= 2 ^ 62) by (unfold output_cap; destruct (authenticated _); vm_compute; discriminate).
        pose proof (len_nonneg data). ulia.
Qed.

(** ** Reading *)

Record drained (o : Z) (s s' : conn) (ok : bool) : Prop := {
  dr_kin : kin s.1 s'.1;
  dr_resp3 : resp3 s'.1 = resp3 s.1;
  dr_auth : authenticated s'.1 = authenticated s.1;
  dr_counted : counted o s';
  dr_ok : ok = true → accounted o s';
  dr_failures : g_auth_failures s'.2 = g_auth_failures s.2;
  dr_plain : ssl s.1 = None →
    out_buf s'.1 = out_buf s.1 ∧ out_off s'.1 = out_off s.1 ∧ wire s'.1 = wire s.1
    ∧ (∃ more, in_buf s'.1 = in_buf s.1 ++ more)
    ∧ (len (in_buf s'.1) < input_cap s.1 + Z.of_nat READ_CHUNK ∨ in_buf s'.1 = in_buf s.1)
    ∧ (ok = true → sane_budget → in_budget o s → in_budget o s')
}.

Lemma drained_none o s ok : accounted o s → drained o s s ok.
Proof.
  intros Hac. split; try done; [apply Hac|]. intros _. split_and!; try done.
  - exists []. by rewrite app_nil_r.
  - by right.
Qed.

(** One chunk, then the rest of the loop. *)
Lemma drained_step o s1 s2 s3 ok :
  kin s1.1 s2.1 → resp3 s2.1 = resp3 s1.1 → authenticated s2.1 = authenticated s1.1 →
  g_auth_failures s2.2 = g_auth_failures s1.2 →
  (ssl s1.1 = None →
     out_buf s2.1 = out_buf s1.1 ∧ out_off s2.1 = out_off s1.1 ∧ wire s2.1 = wire s1.1
     ∧ (∃ more, in_buf s2.1 = in_buf s1.1 ++ more)
     ∧ len (in_buf s2.1) < input_cap s1.1 + Z.of_nat READ_CHUNK
     ∧ (ok = true → sane_budget → in_budget o s1 → in_budget o s2)) →
  drained o s2 s3 ok → drained o s1 s3 ok.
Proof.
  intros K R A F P [K' R' A' C O F' P']. split; try congruence; try done; [by trans s2.1|].
  intros Hs. destruct (P Hs) as (E1 & E2 & E3 & [m1 E4] & Hc & Hb).
  destruct (P' (kn_plain _ _ K Hs)) as (E1' & E2' & E3' & [m2 E4'] & Hc' & Hb').
  split_and!; try congruence.
  - exists (m1 ++ m2). by rewrite E4', E4, app_assoc.
  - left. destruct Hc' as [Hc'| ->]; [|done]. unfold input_cap in *. by rewrite A in Hc'.
  - auto.
Qed.

Lemma read_plain_spec fuel t s (Q : session → conn → Prop) :
  (∀ t' buf, Q t' (upd_in (λ _, buf) s.1, s.2)) → wp (read_plain fuel t) Q s.
Proof.
  revert t s. induction fuel as [|fuel IH]; intros t s HQ; cbn [read_plain];
    destruct (ssl_read t) as [data t'];
    assert (Hs : Q t' s) by (specialize (HQ t' (in_buf s.1)); by destruct s as [[] ?]);
    destruct data; try (by apply wp_ret).
  unfold mod_client. wp_run. apply IH. intros t2 buf. apply HQ.
Qed.

Lemma tls_in_spec o t raw s (Q : bool → conn → Prop) :
  counted o s → ssl s.1 ≠ None →
  (∀ ok s', kin s.1 s'.1 → resp3 s'.1 = resp3 s.1 → authenticated s'.1 = authenticated s.1 →
     counted o s' → g_auth_failures s'.2 = g_auth_failures s.2 → Q ok s') →
  wp (tls_in t raw) Q s.
Proof.
  intros [Hg Ho Hp Hn] Hs HQ. unfold tls_in. wp_run. apply read_plain_spec. intros t' buf. wp_run.
  eapply (take_ciphertext_spec o); [by split| |done]. intros s1 K [_ R A] C F _. wp_run.
  apply HQ; try done. trans (upd_in (λ _, buf) s.1); [by split|done].
Qed.

Lemma drain_loop_spec o script again s :
  Forall (λ d, (0 < length d ≤ READ_CHUNK)%nat) (omap id script) →
  accounted o s → wp (drain_loop script again) (λ ok s', drained o s s' ok) s.
Proof.
  revert s. induction script as [|[temp|] script IH]; intros s Hsc Hac; cbn [drain_loop]; wp_run;
    destruct (Z.leb_spec (input_cap s.1) (len (in_buf s.1))) as [|Hcap]; wp_run; try (by apply drained_none).
  - apply Forall_cons in Hsc as [Htemp Hsc].
    assert (Hrest : ∀ s2, kin s.1 s2.1 → resp3 s2.1 = resp3 s.1 → authenticated s2.1 = authenticated s.1 →
      g_auth_failures s2.2 = g_auth_failures s.2 → counted o s2 →
      (ssl s.1 = None → s2 = (upd_in (λ buf, buf ++ temp) s.1, s.2)) →
      wp (track ;; let* over := over_buffer_budget 0 in
          if over then ret false else
          if (length temp <? READ_CHUNK)%nat then ret true else drain_loop script again)
        (λ ok s', drained o s s' ok) s2).
    { intros s2 K R A F C P. wp_run. apply (wp_track o); [done|]. intros s3 E3 F3 A3.
      unfold over_buffer_budget. wp_run. rewrite Z.add_0_r.
      assert (Hstep : ∀ ok s4, (ok = true → g_client_buffers s3.2 <= max_client_buffers cfg) →
        drained o s3 s4 ok → drained o s s4 ok).
      { intros ok s4 Hb. apply drained_step; rewrite ?E3; try done.
        - trans s2.1; [done|apply kin_held].
        - by rewrite F3.
        - intros Hs. specialize (P Hs) as ->. cbn. split_and!; try done.
          + by exists temp.
          + rewrite len_app. ulia.
          + intros Hok Hsane Hin. specialize (Hb Hok). destruct A3 as [[Hg _ _ _] _]. unfold in_budget in *.
            rewrite Hg, E3 in Hb. rewrite E3. cbn in *. rewrite wrap64_small in Hb; [done|].
            destruct Hac as [[_ _ Hp _] Hh]. rewrite Hh in Hin. unfold sane_budget, now_held in *. cbn in *.
            destruct (closed s.1); [ulia|]. rewrite len_app. pose proof (len_nonneg (in_buf s.1)).
            pose proof (len_nonneg (out_buf s.1)). unfold READ_CHUNK in Htemp. ulia. }
      destruct (Z.leb_spec (wrap64 (g_client_buffers s3.2)) (max_client_buffers cfg)) as [Hb|Hb]; cbn [negb]; wp_run.
      2:{ apply Hstep; [done|by apply drained_none]. }
      assert (Hb' : g_client_buffers s3.2 <= max_client_buffers cfg).
      { destruct A3 as [[Hg _ _ _] _]. rewrite Hg in *. by rewrite wrap64_wrap64 in Hb. }
      destruct (length temp <? READ_CHUNK)%nat; wp_run; [by apply Hstep, drained_none|].
      eapply wp_mono; [by apply IH|]. intros ok s4. by apply Hstep. }
    destruct (ssl s.1) as [t|] eqn:Hs.
    + wp_run. apply (tls_in_spec o); [apply Hac|by rewrite Hs|].
      intros ok s2 K R A C F. destruct ok; cbn [negb]; [by apply Hrest|]. wp_run.
      split; try done. by rewrite Hs.
    + unfold mod_client. wp_run. cbn [negb]. apply Hrest; try done; try (by split).
      destruct Hac as [[Hg Ho Hp Hn] _]. by split.
  - by apply IH.
Qed.

Lemma drain_spec o s : accounted o s → wp drain_read (λ ok s', drained o s s' ok) s.
Proof.
  intros Hac. unfold drain_read. wp_run. apply wp_kernel_ask. intros [script again] g Hg Hf E.
  eapply wp_mono; [apply drain_loop_spec|].
  - pose proof (recvs_chunk (net_tick s.2)) as Hr. by rewrite <- E in Hr.
  - destruct Hac as [[Ht Ho Hp Hn] Hh]. split; [split|]; cbn [fst snd]; [by rewrite Hg|exact Ho|exact Hp|exact Hn|exact Hh].
  - intros ok s' [K R A C O F P]. split; try done. by rewrite F.
Qed.

(** ** Authentication *)

(** A request that carries the credentials: AUTH, or the AUTH option of HELLO. *)
Inductive presents : list bytes → Prop :=
  | By_password name : is_word "AUTH" name = true → presents [name; password cfg]
  | By_user name : is_word "AUTH" name = true → presents [name; str "default"; password cfg]
  | By_hello name proto pre o post :
      is_word "HELLO" name = true → is_word "AUTH" o = true →
      presents (name :: proto :: pre ++ [o; str "default"; password cfg] ++ post).

(** AUTH and HELLO touch the flag, the protocol and the count of failures. *)
Record authed (granted : Prop) (s s' : conn) : Prop := {
  au_kin : kin s.1 s'.1;
  au_in : in_buf s'.1 = in_buf s.1;
  au_out : out_buf s'.1 = out_buf s.1;
  au_off : out_off s'.1 = out_off s.1;
  au_wire : wire s'.1 = wire s.1;
  au_held : held s'.1 = held s.1;
  au_ssl : ssl s'.1 = ssl s.1;
  au_total : g_client_buffers s'.2 = g_client_buffers s.2;
  au_granted : authenticated s'.1 = true → authenticated s.1 = true ∨ granted
}.

Lemma authed_refl P s : authed P s s.
Proof. split; try done. auto. Qed.

Lemma authed_trans (P : Prop) s1 s2 s3 : authed P s1 s2 → authed P s2 s3 → authed P s1 s3.
Proof.
  intros [K1 A1 B1 C1 D1 E1 F1 G1 I1] [K2 A2 B2 C2 D2 E2 F2 G2 I2].
  split; try congruence; [by trans s2.1|]. intros H3. destruct (I2 H3); auto.
Qed.

Lemma authed_weaken (P Q : Prop) s s' : (P → Q) → authed P s s' → authed Q s s'.
Proof. intros Hpq []. split; try done. intros Ha. destruct (au_granted0 Ha); auto. Qed.

Lemma authed_accounted P o s s' : authed P s s' → accounted o s → accounted o s'.
Proof.
  intros [K A B C D E F G I] [[Hg Ho Hp Hn] Hh]. split; [split|].
  - by rewrite G, E.
  - by rewrite C, B.
  - done.
  - by rewrite E.
  - rewrite E, Hh. unfold now_held. by rewrite (kn_closed _ _ K), A, B.
Qed.

Lemma authenticate_spec user pass s :
  wp (authenticate user pass) (λ r s',
    authed (user = str "default" ∧ pass = password cfg) s s'
    ∧ (r = reply "+OK" ∧ authenticated s'.1 = true ∧ user = str "default" ∧ pass = password cfg
       ∨ r = reply "-WRONGPASS invalid username-password pair" ∧ s'.1 = s.1
         ∧ g_auth_failures s'.2 = wrap32 (g_auth_failures s.2 + 1)
         ∧ ¬ (user = str "default" ∧ pass = password cfg))) s.
Proof.
  pose proof (credentials_ok_spec user pass (password cfg)) as Hc. unfold authenticate, mod_client, mod_totals.
  destruct (credentials_ok _ _ _); cbn [negb]; wp_run.
  - destruct (proj1 Hc eq_refl) as [-> ->]. split; [|by left]. split; try done. auto.
  - split; [by split; auto|]. right. split_and!; try done. intros Hx. by apply Hc in Hx.
Qed.

Lemma auth_spec name args s :
  is_word "AUTH" name = true →
  wp (auth (name :: args)) (λ _, authed (password cfg ≠ [] ∧ presents (name :: args)) s) s.
Proof.
  intros Hn. unfold auth.
  destruct (negb _) eqn:El; [by apply wp_ret, authed_refl|].
  case_bool_decide as Hp; [by apply wp_ret, authed_refl|].
  eapply wp_mono; [by apply authenticate_spec|]. intros r s' [Ha _]. revert Ha. cbn beta. apply authed_weaken.
  intros [Hu Hw]. split; [done|].
  destruct args as [|a [|b [|]]]; unfold arg in Hu; cbn in El, Hu, Hw; try done; subst; by constructor.
Qed.

Lemma hello_options_spec name proto pre opts s :
  is_word "HELLO" name = true →
  wp (hello_options opts) (λ _, authed (password cfg ≠ [] ∧ presents (name :: proto :: pre ++ opts)) s) s.
Proof.
  intros Hn. revert pre s. induction opts as [opts IH] using (induction_ltof1 _ length); intros pre s.
  assert (Hrec : ∀ more skip s0 s, opts = skip ++ more → skip ≠ [] →
    authed (password cfg ≠ [] ∧ presents (name :: proto :: pre ++ opts)) s0 s →
    wp (hello_options more) (λ _, authed (password cfg ≠ [] ∧ presents (name :: proto :: pre ++ opts)) s0) s).
  { intros more skip s0 s1 -> Hskip Ha. eapply wp_mono.
    - apply (IH more) with (pre := pre ++ skip).
      unfold ltof. rewrite length_app. destruct skip; [done|]. cbn. lia.
    - cbn beta; intros _ s2 Ha2. rewrite <- app_assoc in Ha2. by eapply authed_trans. }
  destruct opts as [|o [|user [|pass more]]]; cbn [hello_options].
  - apply wp_ret, authed_refl.
  - apply wp_ret, authed_refl.
  - destruct (is_word "SETNAME" o); apply wp_ret, authed_refl.
  - destruct (is_word "AUTH" o) eqn:Ho.
    + case_bool_decide as Hp; [by apply (Hrec more [o; user; pass]); [| |apply authed_refl]|].
      apply wp_bind. eapply wp_mono; [by apply authenticate_spec|]. cbn beta. intros r s' [Ha _].
      assert (Ha' : authed (password cfg ≠ [] ∧ presents (name :: proto :: pre ++ o :: user :: pass :: more)) s s').
      { revert Ha. apply authed_weaken. intros [-> ->]. split; [done|]. by apply By_hello. }
      case_bool_decide; [by apply wp_ret|]. by apply (Hrec more [o; user; pass]).
    + destruct (is_word "SETNAME" o); [|apply wp_ret, authed_refl].
      by apply (Hrec (pass :: more) [o; user]); [| |apply authed_refl].
Qed.

Lemma hello_finish_spec P proto s : wp (hello_finish proto) (λ _, authed P s) s.
Proof.
  unfold hello_finish, mod_client. wp_run. destruct (authenticated s.1) eqn:Ha; cbn [negb]; wp_run.
  - split; try done. auto.
  - apply authed_refl.
Qed.

Lemma hello_spec name args s :
  is_word "HELLO" name = true →
  wp (hello (name :: args)) (λ _, authed (password cfg ≠ [] ∧ presents (name :: args)) s) s.
Proof.
  intros Hn. unfold hello. wp_run. destruct args as [|v opts]; [apply hello_finish_spec|].
  destruct (from_chars_int v) as [proto|]; [|apply wp_ret, authed_refl].
  destruct (_ && _); [apply wp_ret, authed_refl|].
  apply wp_bind. eapply wp_mono; [by apply (hello_options_spec name v [])|]. cbn beta. intros [r|] s1 Ha; [by apply wp_ret|].
  eapply wp_mono; [apply hello_finish_spec|]. cbn beta. intros _ s2 Ha2. by eapply authed_trans.
Qed.
End specs.
