(* ===== verification/EventLoop.v ===== *)
(** * The event loop (src/main.cpp, process_buffered of src/net/connection.cpp)

    The clients are objects that tickets in flight keep alive after they leave
    the table [clients]; a descriptor may be in use again by then. One step of
    the loop is a completion from the ring, a submission of the armed polls, a
    sweep, or the watchdog's work on the database. The kernel is the [Sockets]
    of [Connection]; which completion comes next is open. *)

From stdpp Require Import gmap.
From S2P Require Import Prelude FsUtil Resp Config World Types State Crdt Commands PubSub Rooms Database Serving Connection.

(** [PollTicket]; [t_client]: the object its [shared_ptr] holds. *)
Record PollTicket := Ticket { t_client : nat; for_write : bool }.

#[export] Instance PollTicket_eq_dec : EqDecision PollTicket.
Proof. solve_decision. Defined.

(** The ticket of a completion is deleted. *)
Fixpoint remove_one (t : PollTicket) (l : list PollTicket) : list PollTicket :=
  match l with
  | [] => []
  | u :: l => if decide (u = t) then l else u :: remove_one t l
  end.

Definition eventfd_max : Z := 2 ^ 64 - 2.

Inductive Step := Drop | Done | More.

(** How the loop of [process_buffered] ends: a cap was exceeded, or it stopped
    at [pos] (after QUIT, at malformed input, with the budget spent). *)
Inductive turn := Refused | Stopped (pos : nat) (quit malformed spent : bool).

Section loop.
  Context `{WW : World, SSL : OpenSsl, SOCK : Sockets} (g_tls : bool) (maxclients : Z).
  Context (walk_channels : gset bytes → list bytes) (walk_fds : gset Z → list Z) (gauge : nat → gauges).

(** The statics of main.cpp, the objects, the requests in the ring (polls,
    accepts, reads of the eventfd), the eventfd's counter, the module [net]
    and the database. *)
Record server := Server_ {
  heap : gmap nat Client;
  made : nat;
  clients : gmap Z nat;
  arm_backlog : list PollTicket;
  ring : list PollTicket;
  accepts : nat;
  event_reads : nat;
  eventfd : Z;
  accept_paused : bool;
  accept_failures : Z;
  net : totals;
  the_db : db
}.

Definition upd_heap (f : gmap nat Client → gmap nat Client) (s : server) : server :=
  Server_ (f (heap s)) (made s) (clients s) (arm_backlog s) (ring s) (accepts s)
    (event_reads s) (eventfd s) (accept_paused s) (accept_failures s) (net s) (the_db s).
Definition upd_made (f : nat → nat) (s : server) : server :=
  Server_ (heap s) (f (made s)) (clients s) (arm_backlog s) (ring s) (accepts s)
    (event_reads s) (eventfd s) (accept_paused s) (accept_failures s) (net s) (the_db s).
Definition upd_clients (f : gmap Z nat → gmap Z nat) (s : server) : server :=
  Server_ (heap s) (made s) (f (clients s)) (arm_backlog s) (ring s) (accepts s)
    (event_reads s) (eventfd s) (accept_paused s) (accept_failures s) (net s) (the_db s).
Definition upd_arm_backlog (f : list PollTicket → list PollTicket) (s : server) : server :=
  Server_ (heap s) (made s) (clients s) (f (arm_backlog s)) (ring s) (accepts s)
    (event_reads s) (eventfd s) (accept_paused s) (accept_failures s) (net s) (the_db s).
Definition upd_ring (f : list PollTicket → list PollTicket) (s : server) : server :=
  Server_ (heap s) (made s) (clients s) (arm_backlog s) (f (ring s)) (accepts s)
    (event_reads s) (eventfd s) (accept_paused s) (accept_failures s) (net s) (the_db s).
Definition upd_accepts (f : nat → nat) (s : server) : server :=
  Server_ (heap s) (made s) (clients s) (arm_backlog s) (ring s) (f (accepts s))
    (event_reads s) (eventfd s) (accept_paused s) (accept_failures s) (net s) (the_db s).
Definition upd_event_reads (f : nat → nat) (s : server) : server :=
  Server_ (heap s) (made s) (clients s) (arm_backlog s) (ring s) (accepts s)
    (f (event_reads s)) (eventfd s) (accept_paused s) (accept_failures s) (net s) (the_db s).
Definition upd_eventfd (f : Z → Z) (s : server) : server :=
  Server_ (heap s) (made s) (clients s) (arm_backlog s) (ring s) (accepts s)
    (event_reads s) (f (eventfd s)) (accept_paused s) (accept_failures s) (net s) (the_db s).
Definition upd_accept_paused (f : bool → bool) (s : server) : server :=
  Server_ (heap s) (made s) (clients s) (arm_backlog s) (ring s) (accepts s)
    (event_reads s) (eventfd s) (f (accept_paused s)) (accept_failures s) (net s) (the_db s).
Definition upd_accept_failures (f : Z → Z) (s : server) : server :=
  Server_ (heap s) (made s) (clients s) (arm_backlog s) (ring s) (accepts s)
    (event_reads s) (eventfd s) (accept_paused s) (f (accept_failures s)) (net s) (the_db s).
Definition upd_net (f : totals → totals) (s : server) : server :=
  Server_ (heap s) (made s) (clients s) (arm_backlog s) (ring s) (accepts s)
    (event_reads s) (eventfd s) (accept_paused s) (accept_failures s) (f (net s)) (the_db s).
Definition upd_the_db (f : db → db) (s : server) : server :=
  Server_ (heap s) (made s) (clients s) (arm_backlog s) (ring s) (accepts s)
    (event_reads s) (eventfd s) (accept_paused s) (accept_failures s) (net s) (f (the_db s)).

Definition client (c : nat) (s : server) : Client := default (new_client g_tls (-1) 0) (heap s !! c).

(** An operation of [net] on the client [c]; on the database. *)
Definition on {A} (c : nat) (m : M conn A) : M server A :=
  zoom (λ s, (client c s, net s)) (λ '(cl, g) s, upd_heap (<[c := cl]>) (upd_net (λ _, g) s)) m.

Definition in_db {A} (m : M db A) : M server A := zoom the_db (λ d, upd_the_db (λ _, d)) m.

(** A question to the kernel outside an operation of [net]. *)
Definition kernel {A} (f : nat → A) : M server A :=
  let* k := gets (λ s, net_tick (net s)) in
  modify (upd_net (λ g, Totals (g_client_buffers g) (g_auth_failures g) (S (net_tick g)))) ;;
  ret (f k).

(** ** Closing and arming *)

Definition schedule_close (c : nat) : M server unit :=
  let* cl := gets (client c) in
  if closed cl then ret tt else
  on c (mod_client set_closed ;; track) ;;
  in_db (cleanup_client walk_channels (fd cl)) ;;
  modify (upd_clients (delete (fd cl))).

Definition armed (w : bool) (cl : Client) : bool := if w then write_armed cl else read_armed cl.

Definition arm_client (c : nat) (w : bool) : M server unit :=
  let* cl := gets (client c) in
  if closed cl || armed w cl then ret tt else
  on c (mod_client (upd_armed w true)) ;;
  modify (upd_arm_backlog (λ l, l ++ [Ticket c w])).

(** The tickets that leave for the ring, with [room] entries free, and those
    that stay. *)
Fixpoint submit (s : server) (room : nat) (l : list PollTicket) : list PollTicket * list PollTicket :=
  match l with
  | [] => ([], [])
  | t :: l =>
      if closed (client (t_client t) s) then submit s room l else
      match room with
      | O => let '(gone, kept) := submit s O l in (gone, t :: kept)
      | S room => let '(gone, kept) := submit s room l in (t :: gone, kept)
      end
  end.

Definition submit_backlog : M server unit :=
  let* room := kernel sqes in
  let* '(gone, kept) := gets (λ s, submit s room (arm_backlog s)) in
  modify (upd_ring (λ l, l ++ gone)) ;;
  modify (upd_arm_backlog (λ _, kept)).

Definition arm_listener : M server unit :=
  let* room := kernel sqes in
  if (room =? 0)%nat then modify (upd_accept_paused (λ _, true)) else modify (upd_accepts S).

Definition arm_eventfd : M server unit :=
  let* room := kernel sqes in
  if (room =? 0)%nat then ret tt else modify (upd_event_reads S).

(** [write] of one to the eventfd: the counter stays at its limit ([EAGAIN]). *)
Definition queue_work : M server unit := modify (upd_eventfd (λ n, Z.min (n + 1) eventfd_max)).

(** ** Commands *)

Definition deliver_pubsub (f : Z) (msg : bytes) : M server unit :=
  let* found := gets (λ s, clients s !! f) in
  match found with
  | None => ret tt
  | Some c =>
      let* cl := gets (client c) in
      if closed cl then ret tt else
      let* ok := on c (enqueue_output (if resp3 cl then <[0%nat := chr 62]> msg else msg)) in
      if negb ok then schedule_close c else
      let* r := on c flush_output in
      match r with
      | Pending => arm_client c true
      | Dead => schedule_close c
      | Complete_ => ret tt
      end
  end.

(** One request: AUTH and HELLO are the connection's, the rest is for the
    database once the client is authenticated. [publish] calls the sink after
    it let go of its lock and does nothing more, so the messages go out when
    [execute] returns. *)
Definition handle_request (c : nat) (args : list bytes) : M server bytes :=
  let name := default [] (head args) in
  if is_word "AUTH" name then on c (auth args) else
  if is_word "HELLO" name then on c (hello args) else
  let* cl := gets (client c) in
  if negb (authenticated cl) then ret (reply "-NOAUTH Authentication required.") else
  let* '(response, messages) := in_db (execute walk_channels walk_fds gauge (fd cl) args (resp3 cl)) in
  for_each messages (λ m, deliver_pubsub m.1 m.2) ;;
  ret response.

Definition is_quit (args : list bytes) : bool :=
  (length args =? 1)%nat && is_word "QUIT" (default [] (head args)).

Fixpoint run_commands (fuel : nat) (c pos : nat) : M server turn :=
  match fuel with
  | O => ret (Stopped pos false false true)
  | S fuel =>
      let* cl := gets (client c) in
      match parse_request (in_buf cl) pos with
      | NeedMore => ret (Stopped pos false false false)
      | Malformed => ret (Stopped pos false true false)
      | Complete (args, e) =>
          if is_quit args then ret (Stopped e true false false) else
          let* response := handle_request c args in
          let* ok := (if bool_decide (response = []) then ret true else on c (enqueue_output response)) in
          if negb ok then ret Refused else run_commands fuel c e
      end
  end.

Definition process_buffered (c : nat) : M server Step :=
  let* out := run_commands MAX_COMMANDS_PER_TURN c 0 in
  match out with
  | Refused => ret Drop
  | Stopped pos quit malformed spent =>
      on c (mod_client (upd_in (drop pos)) ;; track) ;;
      if quit || malformed then
        let* ok := on c (enqueue_output (if quit then reply "+OK" else reply "-ERR Protocol error")) in
        when ok (on c flush_output ;; ret tt) ;;
        ret Drop
      else
        let* r := on c flush_output in
        match r with
        | Dead => ret Drop
        | _ =>
            let* cl := gets (client c) in
            ret (if spent && negb (bool_decide (in_buf cl = [])) then More else Done)
        end
  end.

Definition serve (c : nat) : M server bool :=
  let* step := process_buffered c in
  match step with
  | Drop => schedule_close c ;; ret false
  | _ =>
      let* cl := gets (client c) in
      when (0 <? pending_out cl) (arm_client c true) ;;
      arm_client c false ;;
      ret (match step with More => true | _ => false end)
  end.

(** ** The completions *)

(** The order in which [clients] is traversed. *)
Context (walk_clients : nat → gmap Z nat → list nat).

Definition pump_work : M server unit :=
  let* tick := kernel id in
  let* snapshot := gets (λ s, walk_clients tick (clients s)) in
  for_each snapshot (λ c,
    let* cl := gets (client c) in
    if closed cl || bool_decide (in_buf cl = []) then ret tt else
    let* more := serve c in
    when more queue_work).

(** [accept] gave the descriptor [res], or failed with [-res]: out of
    descriptors or memory ([scarce]), interrupted, or otherwise. *)
Inductive accepted := Accepted (res : Z) | Interrupted | Failed (scarce : bool).

Definition on_accept (a : accepted) : M server unit :=
  modify (upd_accepts pred) ;;
  let* now := kernel steady in
  let* n := gets (λ s, Z.of_nat (size (clients s))) in
  match a with
  | Accepted res =>
      if maxclients <=? n then ret tt else
      let* c := gets made in
      modify (upd_made S) ;;
      modify (upd_heap (<[c := new_client g_tls res now]>)) ;;
      modify (upd_clients (<[res := c]>)) ;;
      arm_client c false
  | Interrupted => ret tt
  | Failed scarce => modify (upd_accept_failures (λ n, wrap32 (n + 1)))
  end ;;
  match a with
  | Failed true => modify (upd_accept_paused (λ _, true))
  | _ => arm_listener
  end.

Definition on_eventfd : M server unit :=
  modify (upd_event_reads pred) ;;
  modify (upd_eventfd (λ _, 0)) ;;
  arm_eventfd ;;
  pump_work.

Definition on_poll (t : PollTicket) : M server unit :=
  modify (upd_ring (λ l, remove_one t l)) ;;
  let c := t_client t in
  let* cl := gets (client c) in
  if closed cl then ret tt else
  on c (mod_client (upd_armed (for_write t) false)) ;;
  if for_write t then
    let* r := on c flush_output in
    match r with
    | Pending => arm_client c true
    | Dead => schedule_close c
    | Complete_ => ret tt
    end
  else
    let* ok := on c drain_read in
    if negb ok then schedule_close c else
    let* more := serve c in
    if more then queue_work else
    let* cl := gets (client c) in
    when (input_cap cl <=? len (in_buf cl)) (schedule_close c).

(** *** The sweep *)

Definition AUTH_TIMEOUT : Z := 10 * 1000 * 1000 * 1000.

Definition close_unauthenticated (now : Z) : M server unit :=
  let* tick := kernel id in
  let* late := gets (λ s, filter (λ c, authenticated (client c s) = false ∧ AUTH_TIMEOUT < now - connected (client c s))
                      (walk_clients tick (clients s))) in
  for_each late schedule_close.

Definition sweep : M server unit :=
  let* now := kernel steady in
  close_unauthenticated now ;;
  zoom net (λ g, upd_net (λ _, g)) take_auth_failures ;;
  modify (upd_accept_failures (λ _, 0)) ;;
  let* paused := gets accept_paused in
  when paused (modify (upd_accept_paused (λ _, false)) ;; arm_listener).

(** The first wait timed out: the requests are submitted again. *)
Definition first_timeout : M server unit := arm_listener ;; arm_eventfd.

(** ** Steps *)

Definition empty_server (d : db) : server := Server_ ∅ 0 ∅ [] [] 0 0 0 false 0 (Totals 0 0 0) d.

(** [main] before the loop: the accept and the read of the eventfd. *)
Definition start (d : db) : server := ((arm_listener ;; arm_eventfd) (empty_server d)).2.

(** A step of the loop: the backlog goes to the ring; something in the ring
    completes (the kernel gives out no descriptor that is in use); the sweep;
    the timeout of the first wait; or another thread's work on the database. *)
Inductive loop_step (s : server) : server → Prop :=
  | Loop_submit : loop_step s (submit_backlog s).2
  | Loop_accept a : (0 < accepts s)%nat → (∀ res, a = Accepted res → clients s !! res = None) →
      loop_step s (on_accept a s).2
  | Loop_event : (0 < event_reads s)%nat → 0 < eventfd s → loop_step s (on_eventfd s).2
  | Loop_poll t : t ∈ ring s → loop_step s (on_poll t s).2
  | Loop_sweep : loop_step s (sweep s).2
  | Loop_timeout : loop_step s (first_timeout s).2
  | Loop_watchdog e :
      (match e with Command _ _ _ | Hangup _ => False | _ => possible e (the_db s) end) →
      loop_step s (upd_the_db (λ d, (perform walk_channels walk_fds gauge e d).2) s).

End loop.
