(* ===== verification/LoopSpecs.v ===== *)
(** * The operations of the event loop keep its invariant

    Tables and objects agree; every armed poll has exactly one ticket; the
    total of buffered bytes is the sum over the clients; an open client is
    armed for what it waits for and its complete requests are not forgotten.
    While a client is being served it is in the set of exceptions. *)

From stdpp Require Import gmap sets.
From S2P Require Import Prelude FsUtil Resp Config World Types State Crdt Commands PubSub Rooms Database Serving Connection ConnSpecs EventLoop.

(** ** Tickets *)

Definition count (t : PollTicket) (l : list PollTicket) : nat := length (filter (λ u, u = t) l).

Lemma count_app t l k : count t (l ++ k) = (count t l + count t k)%nat.
Proof. unfold count. by rewrite filter_app, length_app. Qed.

Lemma count_cons t u l : count t (u :: l) = ((if decide (u = t) then 1 else 0) + count t l)%nat.
Proof. unfold count. rewrite filter_cons. by destruct (decide (u = t)). Qed.

Lemma count_zero t l : count t l = 0%nat ↔ t ∉ l.
Proof.
  induction l as [|u l IH]; [split; [intros _; apply not_elem_of_nil|done]|].
  rewrite count_cons, not_elem_of_cons, <- IH. destruct (decide (u = t)); intuition (congruence || lia).
Qed.

Lemma count_remove t u l :
  count t (remove_one u l) = (count t l - (if decide (u = t) then 1 else 0))%nat.
Proof.
  induction l as [|v l IH]; cbn [remove_one]; [unfold count; cbn; lia|].
  destruct (decide (v = u)) as [->|Hne].
  - rewrite count_cons. destruct (decide (u = t)); lia.
  - rewrite !count_cons, IH. destruct (decide (v = t)), (decide (u = t)); subst; try lia. done.
Qed.

Lemma remove_one_in t u l : t ∈ remove_one u l → t ∈ l.
Proof.
  induction l as [|v l IH]; cbn [remove_one]; [done|].
  destruct (decide (v = u)); [by right|]. rewrite !elem_of_cons. intuition.
Qed.

Section specs.
  Context `{WW : World, SSL : OpenSsl, SOCK : Sockets} (g_tls : bool) (maxclients : Z).
  Context (walk_channels : gset bytes → list bytes) (walk_fds : gset Z → list Z) (gauge : nat → gauges).
  Implicit Types (s : server) (c : nat) (cl : Client).

Local Abbreviation client := (client g_tls).
Local Abbreviation perform := (perform walk_channels walk_fds gauge).

Lemma submit_spec s room l gone kept :
  submit g_tls s room l = (gone, kept) →
  (∀ t, t ∈ gone ++ kept → t ∈ l)
  ∧ (∀ t, closed (client (t_client t) s) = false → count t (gone ++ kept) = count t l).
Proof.
  revert room gone kept. induction l as [|u l IH]; intros room gone kept; cbn [submit].
  - intros [= <- <-]. split; done.
  - destruct (closed (client (t_client u) s)) eqn:Hc; [|destruct room as [|room]].
    + intros Hs. destruct (IH _ _ _ Hs) as [H1 H2]. split; [intros t Ht; by right; apply H1|].
      intros t Ht. rewrite count_cons, H2 by done. destruct (decide (u = t)); [congruence|done].
    + destruct (submit g_tls s 0 l) as [g k] eqn:Hs. intros [= <- <-]. destruct (IH _ _ _ Hs) as [H1 H2].
      split.
      * intros t. rewrite elem_of_app, !elem_of_cons. intros [?|[?|?]]; [right|by left|right]; apply H1, elem_of_app; auto.
      * intros t Ht. specialize (H2 t Ht). rewrite count_app in *. rewrite !count_cons. lia.
    + destruct (submit g_tls s room l) as [g k] eqn:Hs. intros [= <- <-]. destruct (IH _ _ _ Hs) as [H1 H2].
      split.
      * intros t. cbn. rewrite !elem_of_cons. intros [?|?]; [by left|right; by apply H1].
      * intros t Ht. specialize (H2 t Ht). rewrite <- app_comm_cons, !count_cons. by rewrite H2.
Qed.

(** ** The invariant *)

Definition tickets s : list PollTicket := arm_backlog s ++ ring s.

(** [x]: a client whose buffers outgrew the accounts and that is about to be
    closed. *)
Record linked (x : option nat) (s : server) : Prop := {
  lk_table : ∀ f c, clients s !! f = Some c → ∃ cl, heap s !! c = Some cl ∧ fd cl = f ∧ closed cl = false;
  lk_open : ∀ c cl, heap s !! c = Some cl → closed cl = false → clients s !! fd cl = Some c;
  lk_fresh : ∀ c, is_Some (heap s !! c) ↔ (c < made s)%nat;
  lk_tickets : ∀ t, t ∈ tickets s → is_Some (heap s !! t_client t);
  lk_armed : ∀ c w cl, heap s !! c = Some cl → closed cl = false →
    count (Ticket c w) (tickets s) = if armed w cl then 1%nat else 0%nat;
  lk_off : ∀ c cl, heap s !! c = Some cl → (out_off cl ≤ length (out_buf cl))%nat ∧ 0 <= held cl;
  lk_held : ∀ c cl, heap s !! c = Some cl → x ≠ Some c → held cl = now_held cl;
  lk_total : g_client_buffers (net s) = wrap64 (map_sum held (heap s))
}.

(** No complete request waits in the input. *)
Definition idle cl : Prop := ∀ args e, parse_request (in_buf cl) 0 ≠ Complete (args, e).

Definition is_armed cl : Prop := read_armed cl = true ∧ (0 < pending_out cl → write_armed cl = true).

Definition capped cl : Prop :=
  in_output_cap cl ∧ len (in_buf cl) < input_cap cl + Z.of_nat READ_CHUNK.

(** Without TLS the buffers are exactly what the caps and the budget count. *)
Record bounded (x : option nat) (s : server) : Prop := {
  bd_plain : ∀ c cl, heap s !! c = Some cl → ssl cl = None;
  bd_caps : ∀ c cl, heap s !! c = Some cl → capped cl;
  bd_sum : map_sum held (heap s) - from_option (λ c, held (client c s)) 0 x <= max_client_buffers cfg
}.

Definition plain_limits : Prop := g_tls = false ∧ sane_budget ∧ 0 <= max_client_buffers cfg.

Record inv (x : option nat) (B W : gset nat) (s : server) : Prop := {
  iv_linked : linked x s;
  iv_armed : ∀ c cl, heap s !! c = Some cl → closed cl = false → c ∉ B → is_armed cl;
  iv_idle : ∀ c cl, heap s !! c = Some cl → closed cl = false → c ∉ W → 0 < eventfd s ∨ idle cl;
  iv_bounded : plain_limits → bounded x s;
  iv_eventfd : 0 <= eventfd s
}.

Lemma client_at c cl s : heap s !! c = Some cl → client c s = cl.
Proof. unfold EventLoop.client. by intros ->. Qed.

Lemma inv_mono x B W B' W' s : B ⊆ B' → W ⊆ W' → inv x B W s → inv x B' W' s.
Proof. intros HB HW [L A I C V]. split; try done; intros c cl Hc Ho Hn; [apply (A c)|apply (I c)]; set_solver. Qed.

(** A client leaves the exceptions. *)
Lemma inv_settle x B W c s :
  inv x B W s → (closed (client c s) = false → is_armed (client c s)) → inv x (B ∖ {[c]}) W s.
Proof.
  intros [L A I C V] Hc. split; try done. intros c' cl' Hc' Ho Hn.
  destruct (decide (c' = c)) as [->|Hne]; [|apply (A c'); set_solver].
  rewrite (client_at _ _ _ Hc') in Hc. auto.
Qed.

Lemma inv_rest x B W c s :
  inv x B W s → (closed (client c s) = false → 0 < eventfd s ∨ idle (client c s)) → inv x B (W ∖ {[c]}) s.
Proof.
  intros [L A I C V] Hc. split; try done. intros c' cl' Hc' Ho Hn.
  destruct (decide (c' = c)) as [->|Hne]; [|apply (I c'); set_solver].
  rewrite (client_at _ _ _ Hc') in Hc. auto.
Qed.

Definition put c cl (g : totals) s : server := upd_heap (<[c := cl]>) (upd_net (λ _, g) s).

(** The bytes of the others. *)
Definition others c cl s : Z := map_sum held (heap s) - held cl.

Lemma others_nonneg x c cl s : linked x s → heap s !! c = Some cl → 0 <= others c cl s.
Proof.
  intros L Hc. apply (map_sum_others held (heap s) c cl); [|done].
  intros c' cl' Hc'. exact (proj2 (lk_off _ _ L _ _ Hc')).
Qed.

Lemma linked_accounted x c cl s :
  linked x s → heap s !! c = Some cl →
  counted (others c cl s) (cl, net s) ∧ (x ≠ Some c → accounted (others c cl s) (cl, net s)).
Proof.
  intros L Hc. assert (Hct : counted (others c cl s) (cl, net s)).
  { split; cbn [fst snd].
    - rewrite (lk_total _ _ L). unfold others. f_equal. lia.
    - by apply (lk_off _ _ L _ _ Hc).
    - by eapply others_nonneg.
    - by apply (lk_off _ _ L _ _ Hc). }
  split; [done|]. intros Hx. split; [done|]. by apply (lk_held _ _ L _ _ Hc).
Qed.

(** An operation of [net] on a client among the exceptions. *)
Lemma inv_put x x' B W c cl cl' g s :
  inv x B W s → heap s !! c = Some cl → x = None ∨ x = Some c → kin cl cl' → c ∈ B →
  in_buf cl' = in_buf cl ∨ c ∈ W →
  counted (others c cl s) (cl', g) →
  x' = None ∧ accounted (others c cl s) (cl', g) ∨ x' = Some c →
  (plain_limits → bounded x s → capped cl' ∧ (x' = None → others c cl s + held cl' <= max_client_buffers cfg)) →
  inv x' B W (put c cl' g s).
Proof.
  intros [L A I C V] Hc Hx K HB HW Hct Hx' Hb.
  assert (Hlook : ∀ c' cl2, heap (put c cl' g s) !! c' = Some cl2 →
    c' = c ∧ cl2 = cl' ∨ c' ≠ c ∧ heap s !! c' = Some cl2).
  { intros c' cl2. cbn. rewrite lookup_insert. destruct (decide (c = c')) as [<-|]; [intros [= <-]; auto|auto]. }
  assert (Hsum : map_sum held (<[c := cl']> (heap s)) = others c cl s + held cl').
  { unfold others. rewrite (map_sum_insert _ _ _ _ _ Hc). lia. }
  split.
  - destruct L as [L1 L2 L3 L4 L5 L6 L7 L8]. split.
    + intros f c' Hf. destruct (L1 f c' Hf) as (cl2 & H2 & Hfd & Hcl). cbn. rewrite lookup_insert.
      destruct (decide (c = c')) as [<-|]; [|by exists cl2]. exists cl'. rewrite H2 in Hc. injection Hc as ->.
      by rewrite (kn_fd _ _ K), (kn_closed _ _ K).
    + intros c' cl2 [[-> ->]|[Hne H2]]%Hlook Ho; [|by apply L2].
      rewrite (kn_fd _ _ K). apply L2; [done|]. by rewrite <- (kn_closed _ _ K).
    + intros c'. cbn. rewrite <- L3, lookup_insert. destruct (decide (c = c')) as [<-|]; [|done]. by rewrite Hc.
    + intros t Ht. specialize (L4 t Ht). cbn. rewrite lookup_insert. by destruct (decide _).
    + intros c' w cl2 [[-> ->]|[Hne H2]]%Hlook Ho; [|by apply L5].
      change (tickets (put c cl' g s)) with (tickets s). rewrite (L5 c w cl); [|done|by rewrite <- (kn_closed _ _ K)].
      unfold armed. by rewrite (kn_read _ _ K), (kn_write _ _ K).
    + intros c' cl2 [[-> ->]|[Hne H2]]%Hlook; [|by apply (L6 c')]. split; apply Hct.
    + intros c' cl2 [[-> ->]|[Hne H2]]%Hlook Hn.
      * destruct Hx' as [[-> Hacc]| ->]; [apply Hacc|done].
      * apply (L7 c'); [done|]. destruct Hx as [->| ->]; [done|congruence].
    + cbn. rewrite Hsum. apply Hct.
  - intros c' cl2 [[-> ->]|[Hne H2]]%Hlook Ho Hn; [done|]. by apply (A c').
  - intros c' cl2 [[-> ->]|[Hne H2]]%Hlook Ho Hn.
    + destruct HW as [HW|]; [|done]. unfold idle. rewrite HW. apply (I c); [done| |done].
      by rewrite <- (kn_closed _ _ K).
    + by apply (I c').
  - intros Hp. specialize (C Hp). destruct (Hb Hp C) as [Hcap Hle]. destruct C as [C1 C2 C3]. split.
    + intros c' cl2 [[-> ->]|[Hne H2]]%Hlook; [|by apply (C1 c')]. apply (kn_plain _ _ K). by apply (C1 c).
    + intros c' cl2 [[-> ->]|[Hne H2]]%Hlook; [done|by apply (C2 c')].
    + cbn [put heap upd_heap upd_net]. rewrite Hsum. destruct Hx' as [[-> _]| ->]; cbn [from_option].
      * specialize (Hle eq_refl). lia.
      * rewrite (client_at c cl') by (cbn; apply lookup_insert_eq).
        destruct Hx as [->| ->]; cbn [from_option] in C3.
        -- pose proof (lk_off _ _ L _ _ Hc) as [_ ?]. unfold others. lia.
        -- rewrite (client_at _ _ _ Hc) in C3. unfold others. lia.
  - exact V.
Qed.


(** ** What a step may do *)

Definition run_events (d : db) (es : list event) : db := foldl (λ d e, (perform e d).2) d es.

Lemma run_events_app d es es' : run_events d (es ++ es') = run_events (run_events d es) es'.
Proof. apply foldl_app. Qed.

(** The database is used for clients that are authenticated, and told of the
    clients that were closed. *)
Definition licensed s (e : event) : Prop :=
  match e with
  | Command f _ _ => ∃ c cl, heap s !! c = Some cl ∧ fd cl = f ∧ authenticated cl = true
  | Hangup f => ∃ c cl, heap s !! c = Some cl ∧ fd cl = f ∧ closed cl = true
  | _ => False
  end.

Definition older cl cl' : Prop :=
  fd cl' = fd cl ∧ (closed cl = true → closed cl' = true) ∧ (authenticated cl = true → authenticated cl' = true).

Definition doors s : nat * nat * bool * nat := (accepts s, event_reads s, accept_paused s, made s).

(** Objects stay and keep their descriptor, what is closed stays closed. *)
Record evolves s s' : Prop := {
  ev_heap : ∀ c cl, heap s !! c = Some cl → ∃ cl', heap s' !! c = Some cl' ∧ older cl cl';
  ev_db : ∃ es, the_db s' = run_events (the_db s) es ∧ Forall (licensed s') es
}.

#[export] Instance evolves_preorder : PreOrder evolves.
Proof.
  split.
  - intros s. split; [|by exists []]. intros c cl Hc. by exists cl.
  - intros s1 s2 s3 [H1 (es1 & E1 & F1)] [H2 (es2 & E2 & F2)]. split.
    + intros c cl Hc. destruct (H1 c cl Hc) as (cl2 & Hc2 & D1 & D2 & D3).
      destruct (H2 c cl2 Hc2) as (cl3 & Hc3 & D1' & D2' & D3'). exists cl3. split; [done|].
      unfold older. split_and!; [congruence|auto..].
    + exists (es1 ++ es2). split; [by rewrite run_events_app, E2, E1|]. apply Forall_app. split; [|done].
      eapply Forall_impl; [exact F1|]. intros [f args r| | |f]; cbn [licensed]; try done;
        intros (c & cl & Hc & Hf & Ha); destruct (H2 c cl Hc) as (cl' & Hc' & D1 & D2 & D3);
        exists c, cl'; split_and!; try done; try (by rewrite D1); auto.
Qed.

(** While requests are handled the input of every client stays, and only a
    client in [P] may become authenticated. *)
Record talks (P : nat → Prop) s s' : Prop := {
  tk_ev : evolves s s';
  tk_in : ∀ c cl, heap s !! c = Some cl → in_buf (client c s') = in_buf cl
    ∧ (authenticated (client c s') = true → authenticated cl = true ∨ P c);
  tk_doors : doors s' = doors s;
  tk_eventfd : eventfd s' = eventfd s
}.

Lemma talks_refl P s : talks P s s.
Proof. split; try done. intros c cl Hc. rewrite (client_at _ _ _ Hc). auto. Qed.

Lemma talks_trans P s1 s2 s3 : talks P s1 s2 → talks P s2 s3 → talks P s1 s3.
Proof.
  intros [E1 I1 D1 V1] [E2 I2 D2 V2]. split; [by trans s2| |congruence..].
  intros c cl Hc. destruct (I1 c cl Hc) as [Hi Ha]. destruct (ev_heap _ _ E1 c cl Hc) as (cl2 & Hc2 & _).
  destruct (I2 c cl2 Hc2) as [Hi2 Ha2]. rewrite (client_at _ _ _ Hc2) in *. split; [congruence|].
  intros H3. destruct (Ha2 H3); auto.
Qed.

Lemma talks_weaken P Q s s' : (∀ c, P c → Q c) → talks P s s' → talks Q s s'.
Proof.
  intros HPQ [E I D V]. split; try done. intros c cl Hc. destruct (I c cl Hc) as [Hi Ha]. split; [done|].
  intros H3. destruct (Ha H3); auto.
Qed.

Lemma talks_some P s s' c : talks P s s' → is_Some (heap s !! c) → is_Some (heap s' !! c).
Proof. intros T [cl Hc]. destruct (ev_heap _ _ (tk_ev _ _ _ T) c cl Hc) as (cl' & Hc' & _). by exists cl'. Qed.

Lemma kin_older cl cl' : kin cl cl' → older cl cl'.
Proof. intros []. split_and!; [done|congruence|done]. Qed.

Lemma put_evolves c cl cl' g s : heap s !! c = Some cl → older cl cl' → evolves s (put c cl' g s).
Proof.
  intros Hc Ho. split; [|by exists []]. intros c' cl2 Hc'. cbn. rewrite lookup_insert.
  destruct (decide (c = c')) as [<-|]; [|by exists cl2]. exists cl'. split; [done|]. by replace cl2 with cl by congruence.
Qed.

Lemma put_talks (P : nat → Prop) c cl cl' g s :
  heap s !! c = Some cl → older cl cl' → in_buf cl' = in_buf cl →
  (authenticated cl' = true → authenticated cl = true ∨ P c) → talks P s (put c cl' g s).
Proof.
  intros Hc K Hi Ha. split; try done.
  - by eapply put_evolves.
  - intros c' cl2 Hc'. unfold EventLoop.client. cbn. rewrite lookup_insert.
    destruct (decide (c = c')) as [<-|]; cbn; [|rewrite Hc'; auto]. by replace cl2 with cl by congruence.
Qed.

Lemma client_put c cl g s : client c (put c cl g s) = cl.
Proof. apply client_at. cbn. apply lookup_insert_eq. Qed.

(** ** The operations on one client *)

Lemma wp_on {A} c cl s (m : M conn A) (Q : A → server → Prop) :
  heap s !! c = Some cl → wp m (λ a p, Q a (put c p.1 p.2 s)) (cl, net s) → wp (on g_tls c m) Q s.
Proof.
  intros Hc Hm. unfold on. apply wp_zoom. rewrite (client_at _ _ _ Hc).
  eapply wp_mono; [exact Hm|]. by intros a [cl' g].
Qed.

(** The client [c] may have outgrown the accounts. *)
Definition loosely c B W s : Prop :=
  inv None B W s ∨ inv (Some c) B W s ∧ closed (client c s) = false.

Lemma flush_on B W c cl s :
  inv None B W s → c ∈ B → heap s !! c = Some cl →
  wp (on g_tls c flush_output) (λ r s', inv None B W s' ∧ talks (λ _, False) s s'
    ∧ (r = Complete_ → pending_out (client c s') = 0)
    ∧ authenticated (client c s') = authenticated cl ∧ the_db s' = the_db s
    ∧ stream (client c s') = stream cl ∧ kin cl (client c s')) s.
Proof.
  intros I HB Hc. apply (wp_on c cl); [done|].
  destruct (linked_accounted None c cl s (iv_linked _ _ _ _ I) Hc) as [_ Hac]. specialize (Hac ltac:(done)).
  eapply wp_mono; [by apply flush_spec|]. intros r [cl' g] [K [Q1 Q2 Q3] A Hl St P D F]. cbn [fst snd] in *.
  rewrite client_put. split_and!; try done.
  - eapply inv_put; try done; [by left|by left|apply A|by left|]. intros Hp [B1 B2 B3]. split.
    + destruct (B2 c cl Hc) as [C1 C2]. unfold capped, in_output_cap, output_cap, input_cap in *.
      rewrite Q1, Q3. split; [lia|done].
    + intros _. cbn [from_option] in B3. unfold others. lia.
  - eapply put_talks; [done|by apply kin_older|done|]. rewrite Q3. auto.
Qed.

Lemma enqueue_on B W c cl s data :
  inv None B W s → c ∈ B → heap s !! c = Some cl →
  wp (on g_tls c (enqueue_output data)) (λ ok s',
    (if ok : bool then inv None B W s' ∧ closed (client c s') = false else loosely c B W s')
    ∧ talks (λ _, False) s s'
    ∧ authenticated (client c s') = authenticated cl ∧ the_db s' = the_db s
    ∧ (ssl cl = None → ok = true → stream (client c s') = stream cl ++ data) ∧ kin cl (client c s')) s.
Proof.
  intros I HB Hc. apply (wp_on c cl); [done|].
  destruct (linked_accounted None c cl s (iv_linked _ _ _ _ I) Hc) as [_ Hac]. specialize (Hac ltac:(done)).
  eapply wp_mono; [by apply enqueue_spec|]. intros ok [cl' g] [K [Q1 Q2 Q3] C Hok F Pl Hcl]. cbn [fst snd] in *.
  rewrite client_put.
  assert (Htalk : talks (λ _, False) s (put c cl' g s)) by (eapply put_talks; [done|by apply kin_older|done|rewrite Q3; auto]).
  assert (Hcap : ssl cl = None → capped cl → capped cl').
  { intros Hs [C1 C2]. specialize (Pl Hs). destruct ok; [|by injection Pl as -> _].
    destruct Pl as (_ & _ & Ho & _). split; [done|]. unfold input_cap in *. by rewrite Q1, Q3. }
  assert (Hstream : ssl cl = None → ok = true → stream cl' = stream cl ++ data).
  { intros Hs ->. by destruct (Pl Hs) as (-> & _). }
  destruct ok.
  - destruct (Hok eq_refl) as [Ha Ho]. split_and!; try done; [|by rewrite (kn_closed _ _ K)].
    eapply inv_put; try done; [by left|by left|by left|]. intros (Hp & Hsane & Hmax) [B1 B2 B3]. split; [by apply Hcap, (B2 c); [apply (B1 c)|]|].
    intros _. destruct (Pl (B1 c cl Hc)) as (_ & _ & _ & Hb). unfold in_budget in Hb. apply Hb; [done|].
    cbn in *. unfold others. lia.
  - split_and!; try done. destruct (closed cl) eqn:Ho.
    + left. injection (Hcl eq_refl) as -> ->. eapply inv_put; try done; [by left|by left|left; split; [done|]|].
      * destruct Hac as [[? ? ?] ?]. by split.
      * intros _ [B1 B2 B3]. split; [by apply (B2 c)|]. intros _. cbn in B3. unfold others. lia.
    + right. rewrite client_put. split; [|by rewrite (kn_closed _ _ K)].
      eapply inv_put; try done; [by left|by left|by right|]. intros _ [B1 B2 B3]. split; [|done].
      by apply Hcap, (B2 c); [apply (B1 c)|].
Qed.


Lemma count_snoc t u l k : count t ((l ++ [u]) ++ k) = (count t (l ++ k) + if decide (u = t) then 1 else 0)%nat.
Proof. rewrite !count_app, count_cons. change (count t []) with 0%nat. lia. Qed.

Lemma armed_upd w w' b cl : armed w' (upd_armed w b cl) = if decide (w = w') then b else armed w' cl.
Proof. by destruct w, w'. Qed.

Lemma upd_armed_same w cl : armed w cl = true → upd_armed w true cl = cl.
Proof. destruct cl, w; cbn; by intros ->. Qed.

(** Changing a poll's flag together with its tickets. *)
Lemma inv_flag B B' W c cl w b s s' :
  inv None B W s → heap s !! c = Some cl → closed cl = false →
  heap s' = <[c := upd_armed w b cl]> (heap s) →
  (clients s', made s', net s', eventfd s') = (clients s, made s, net s, eventfd s) →
  (∀ t, t ∈ tickets s' → t ∈ tickets s ∨ t = Ticket c w) →
  count (Ticket c w) (tickets s') = (if b then 1%nat else 0%nat) →
  (∀ t, t ≠ Ticket c w → count t (tickets s') = count t (tickets s)) →
  (∀ c', c' ∉ B' → (c' ∉ B) ∧ (b = true ∨ c' ≠ c)) →
  inv None B' W s'.
Proof.
  intros [L A I C V] Hc Ho Hh [= E1 E2 E3 E4] Htk Hn1 Hn2 HB.
  assert (Hlook : ∀ c' cl2, heap s' !! c' = Some cl2 →
    c' = c ∧ cl2 = upd_armed w b cl ∨ c' ≠ c ∧ heap s !! c' = Some cl2).
  { intros c' cl2. rewrite Hh, lookup_insert. destruct (decide (c = c')) as [<-|]; [intros [= <-]; auto|auto]. }
  split.
  - destruct L as [L1 L2 L3 L4 L5 L6 L7 L8]. split; rewrite ?E1, ?E2, ?E3.
    + intros f c' Hf. destruct (L1 f c' Hf) as (cl2 & H2 & Hfd & Hcl). rewrite Hh, lookup_insert.
      destruct (decide (c = c')) as [<-|]; [|by exists cl2]. exists (upd_armed w b cl).
      by replace cl with cl2 by congruence.
    + intros c' cl2 [[-> ->]|[Hne H2]]%Hlook Hop; [by apply (L2 c cl)|by apply L2].
    + intros c'. rewrite <- L3, Hh, lookup_insert. destruct (decide (c = c')) as [<-|]; [|done]. by rewrite Hc.
    + intros t Ht. rewrite Hh, lookup_insert. destruct (decide (c = t_client t)); [done|].
      destruct (Htk t Ht) as [Ht'| ->]; [by apply L4|done].
    + intros c' w' cl2 [[-> ->]|[Hne H2]]%Hlook Hop.
      * rewrite armed_upd. destruct (decide (w = w')) as [<-|Hw]; [done|].
        rewrite Hn2 by congruence. by apply L5.
      * rewrite Hn2 by congruence. by apply L5.
    + intros c' cl2 [[-> ->]|[Hne H2]]%Hlook; [by apply (L6 c cl)|by apply (L6 c')].
    + intros c' cl2 [[-> ->]|[Hne H2]]%Hlook Hx; [by apply (L7 c cl)|by apply (L7 c')].
    + rewrite Hh, L8, (map_sum_insert _ _ _ _ _ Hc). f_equal. cbn. lia.
  - intros c' cl2 [[-> ->]|[Hne H2]]%Hlook Hop Hn; destruct (HB _ Hn) as [Hn' Hb].
    + destruct Hb as [->|]; [|done]. destruct (A c cl Hc Ho Hn') as [A1 A2]. unfold is_armed. by destruct w.
    + by apply (A c').
  - rewrite E4. intros c' cl2 [[-> ->]|[Hne H2]]%Hlook Hop Hn; [by apply (I c cl)|by apply (I c')].
  - intros Hp. destruct (C Hp) as [B1 B2 B3]. split.
    + intros c' cl2 [[-> ->]|[Hne H2]]%Hlook; [by apply (B1 c cl)|by apply (B1 c')].
    + intros c' cl2 [[-> ->]|[Hne H2]]%Hlook; [by apply (B2 c cl)|by apply (B2 c')].
    + cbn in *. rewrite Hh, (map_sum_insert _ _ _ _ _ Hc). cbn. lia.
  - by rewrite E4.
Qed.

Lemma arm_spec B W c cl w s :
  inv None B W s → heap s !! c = Some cl →
  wp (arm_client g_tls c w) (λ _ s', inv None B W s' ∧ talks (λ _, False) s s'
    ∧ heap s' !! c = Some (if closed cl then cl else upd_armed w true cl)) s.
Proof.
  intros I Hc. unfold arm_client. wp_run. rewrite (client_at _ _ _ Hc).
  destruct (closed cl) eqn:Ho; cbn [orb]; wp_run; [split_and!; [done|apply talks_refl|done]|].
  destruct (armed w cl) eqn:Ha; wp_run.
  { split_and!; [done|apply talks_refl|by rewrite upd_armed_same]. }
  apply (wp_on c cl); [done|]. unfold mod_client. wp_run. cbn [fst snd]. split_and!.
  - eapply (inv_flag B B W c cl w true s); try done.
    + change (tickets _) with ((arm_backlog s ++ [Ticket c w]) ++ ring s) at 1.
      intros t. unfold tickets. rewrite !elem_of_app, list_elem_of_singleton. intuition.
    + change (tickets _) with ((arm_backlog s ++ [Ticket c w]) ++ ring s). rewrite count_snoc, decide_True by done.
      pose proof (lk_armed _ _ (iv_linked _ _ _ _ I) c w cl Hc Ho) as Hn. rewrite Ha in Hn. unfold tickets in Hn. lia.
    + intros t Ht. change (tickets (_ _ _)) with ((arm_backlog s ++ [Ticket c w]) ++ ring s).
      rewrite count_snoc, decide_False by congruence. unfold tickets. lia.
    + auto.
  - assert (Ht : talks (λ _, False) s (put c (upd_armed w true cl) (net s) s)) by (apply (put_talks _ c cl); auto; done).
    destruct Ht as [[Hh _] Hi _ _]. split; [split; [exact Hh|by exists []]|exact Hi|done|done].
  - cbn. apply lookup_insert_eq.
Qed.


Local Abbreviation schedule_close := (schedule_close g_tls walk_channels).

Lemma loosely_linked B W c s : loosely c B W s → ∃ x, inv x B W s ∧ (x = None ∨ x = Some c ∧ closed (client c s) = false).
Proof. intros [I|[I Ho]]; [exists None|exists (Some c)]; auto. Qed.

(** The state after [schedule_close] of an open client. *)
Lemma inv_close x B W c cl cl' g d s :
  inv x B W s → x = None ∨ x = Some c → heap s !! c = Some cl → closed cl = false →
  cl' = set_held 0 (set_closed cl) →
  accounted (others c cl s) (cl', g) →
  inv None (B ∖ {[c]}) (W ∖ {[c]})
    (upd_clients (delete (fd cl)) (upd_the_db (λ _, d) (put c cl' g s))).
Proof.
  intros [L A I C V] Hx Hc Ho Ecl Hac.
  assert (Hlook : ∀ c' cl2, <[c := cl']> (heap s) !! c' = Some cl2 →
    c' = c ∧ cl2 = cl' ∨ c' ≠ c ∧ heap s !! c' = Some cl2).
  { intros c' cl2. rewrite lookup_insert. destruct (decide (c = c')) as [<-|]; [intros [= <-]; auto|auto]. }
  assert (Hsum : map_sum held (<[c := cl']> (heap s)) = others c cl s).
  { unfold others. rewrite (map_sum_insert _ _ _ _ _ Hc), Ecl. cbn. lia. }
  split.
  - destruct L as [L1 L2 L3 L4 L5 L6 L7 L8]. split; cbn [clients upd_clients upd_the_db put upd_heap upd_net heap made net].
    + intros f c'. rewrite lookup_delete. destruct (decide (fd cl = f)) as [|Hf]; [done|].
      intros Hf2. destruct (L1 f c' Hf2) as (cl2 & H2 & Hfd & Hcl). exists cl2. split_and!; try done.
      rewrite lookup_insert_ne; [done|]. intros <-. congruence.
    + intros c' cl2 [[-> ->]|[Hne H2]]%Hlook Hop; [by rewrite Ecl in Hop|].
      pose proof (L2 c' cl2 H2 Hop) as Ht. rewrite lookup_delete_ne; [done|]. intros Hf. apply Hne.
      pose proof (L2 c cl Hc Ho). congruence.
    + intros c'. rewrite <- L3, lookup_insert. destruct (decide (c = c')) as [<-|]; [|done]. by rewrite Hc.
    + intros t Ht. rewrite lookup_insert. destruct (decide (c = t_client t)); [done|]. by apply L4.
    + intros c' w cl2 [[-> ->]|[Hne H2]]%Hlook Hop; [by rewrite Ecl in Hop|]. by apply L5.
    + intros c' cl2 [[-> ->]|[Hne H2]]%Hlook; [|by apply (L6 c')]. split; apply Hac.
    + intros c' cl2 [[-> ->]|[Hne H2]]%Hlook _; [apply Hac|]. apply (L7 c'); [done|].
      destruct Hx as [->| ->]; [done|congruence].
    + destruct Hac as [[Hg _ _ _] _]. cbn [fst snd] in Hg. rewrite Hsum, Hg, Ecl. cbn [held set_held]. f_equal. lia.
  - intros c' cl2 [[-> ->]|[Hne H2]]%Hlook Hop Hn; [by rewrite Ecl in Hop|]. apply (A c'); [done..|set_solver].
  - intros c' cl2 [[-> ->]|[Hne H2]]%Hlook Hop Hn; [by rewrite Ecl in Hop|]. apply (I c'); [done..|set_solver].
  - intros Hp. destruct (C Hp) as [B1 B2 B3]. split; cbn [clients upd_clients upd_the_db put upd_heap upd_net heap].
    + intros c' cl2 [[-> ->]|[Hne H2]]%Hlook; [|by apply (B1 c')]. rewrite Ecl. by apply (B1 c cl).
    + intros c' cl2 [[-> ->]|[Hne H2]]%Hlook; [|by apply (B2 c')]. rewrite Ecl. by apply (B2 c cl).
    + cbn [from_option]. rewrite Hsum. unfold others. destruct Hx as [->| ->]; cbn [from_option] in B3.
      * pose proof (lk_off _ _ L _ _ Hc) as [_ ?]. lia.
      * rewrite (client_at _ _ _ Hc) in B3. lia.
  - exact V.
Qed.

Lemma close_spec B W c s :
  loosely c B W s → is_Some (heap s !! c) →
  wp (schedule_close c) (λ _ s', inv None (B ∖ {[c]}) (W ∖ {[c]}) s' ∧ talks (λ _, False) s s'
    ∧ closed (client c s') = true) s.
Proof.
  intros (x & I & Hx)%loosely_linked [cl Hc]. unfold EventLoop.schedule_close. wp_run.
  rewrite (client_at _ _ _ Hc) in *. destruct (closed cl) eqn:Ho; wp_run.
  - destruct Hx as [->|[_ ?]]; [|done]. rewrite (client_at _ _ _ Hc). split_and!; [|apply talks_refl|done].
    apply inv_rest; [apply inv_settle; [done|]|]; rewrite (client_at _ _ _ Hc); congruence.
  - apply (wp_on c cl); [done|]. unfold mod_client. wp_run.
    destruct (linked_accounted x c cl s (iv_linked _ _ _ _ I) Hc) as [Hct _].
    apply (wp_track (others c cl s)); [destruct Hct; by split|]. intros [cl' g] E F Hac. cbn [fst snd] in *.
    change (now_held (set_closed cl)) with 0 in E. wp_run. unfold in_db. apply wp_zoom.
    set (d' := (cleanup_client walk_channels (fd cl) (the_db s)).2).
    unfold wp. wp_run. cbn [fst snd].
    change (the_db (put c cl' g s)) with (the_db s). fold d'. split_and!.
    + eapply inv_close; try done. destruct Hx as [->|[-> _]]; auto.
    + assert (Hold : older cl cl') by (subst cl'; done).
      split; [split| |done|done].
      * apply (put_evolves c cl cl' g s); [done|done].
      * exists [Hangup (fd cl)]. split; [done|]. apply Forall_singleton. exists c, cl'. cbn.
        rewrite lookup_insert_eq. by subst cl'.
      * assert (Ht : talks (λ _, False) s (put c cl' g s)) by (apply (put_talks _ c cl); subst cl'; auto).
        apply (tk_in _ _ _ Ht).
    + unfold EventLoop.client. cbn. rewrite lookup_insert_eq. by subst cl'.
Qed.


Lemma inv_unexcept B W c s :
  inv None ({[c]} ∪ B) W s → (c ∉ B → closed (client c s) = false → is_armed (client c s)) → inv None B W s.
Proof.
  intros I Hc. destruct (decide (c ∈ B)) as [HB|HB].
  - by replace B with ({[c]} ∪ B) by set_solver.
  - apply (inv_mono None (({[c]} ∪ B) ∖ {[c]}) W); [set_solver|done|]. apply inv_settle; auto.
Qed.

Lemma authed_on {A} (m : M conn A) P B W c cl s :
  inv None B W s → c ∈ B → heap s !! c = Some cl →
  wp m (λ _ p, authed P (cl, net s) p) (cl, net s) →
  wp (on g_tls c m) (λ _ s', inv None B W s' ∧ talks (λ c', c' = c ∧ P) s s' ∧ the_db s' = the_db s
    ∧ stream (client c s') = stream cl ∧ ssl (client c s') = ssl cl) s.
Proof.
  intros I HB Hc Hm. apply (wp_on c cl); [done|]. eapply wp_mono; [exact Hm|]. cbn beta.
  destruct (linked_accounted None c cl s (iv_linked _ _ _ _ I) Hc) as [_ Hac]. specialize (Hac ltac:(done)).
  intros r [cl' g] Ha. pose proof (authed_accounted _ _ _ _ Ha Hac) as Hac'.
  destruct Ha as [K A1 B1 C1 D1 E1 F1 G1 H1]. cbn [fst snd] in *. rewrite client_put. split_and!; try done.
  - eapply inv_put; try done; [by left|by left|apply Hac'|by left|]. intros Hp [P1 P2 P3]. split.
    + destruct (P2 c cl Hc) as [Q1 Q2]. unfold capped, in_output_cap, pending_out in *. rewrite A1, B1, C1.
      pose proof (output_cap_mono cl cl' (kn_auth _ _ K)). split; [lia|].
      unfold input_cap in *. destruct (authenticated cl) eqn:Hau; [by rewrite (kn_auth _ _ K Hau)|].
      destruct (authenticated cl'); [|done]. unfold MAX_INPUT_BUFFER, MAX_UNAUTH_BUFFER in *. lia.
    + intros _. cbn [from_option] in P3. rewrite E1. unfold others. lia.
  - apply (put_talks _ c cl); [done|by apply kin_older|done|]. intros Ht. destruct (H1 Ht); auto.
  - unfold stream. by rewrite D1, C1, B1.
Qed.

Lemma talks_none P s s' : talks (λ _, False) s s' → talks P s s'.
Proof. apply talks_weaken. done. Qed.

Lemma talks_at (P : nat → Prop) s s' c cl :
  talks P s s' → heap s !! c = Some cl → heap s' !! c = Some (client c s') ∧ older cl (client c s').
Proof.
  intros T Hc. destruct (ev_heap _ _ (tk_ev _ _ _ T) c cl Hc) as (cl' & Hc' & Ho).
  by rewrite (client_at _ _ _ Hc').
Qed.

(** Sending what waits, then arming or closing. *)
Lemma send_spec B W c cl s :
  inv None ({[c]} ∪ B) W s → heap s !! c = Some cl → (c ∉ B → read_armed cl = true) →
  wp (let* r := on g_tls c flush_output in
      match r with
      | Pending => arm_client g_tls c true
      | Dead => schedule_close c
      | Complete_ => ret tt
      end) (λ _ s', inv None B W s' ∧ talks (λ _, False) s s') s.
Proof.
  intros I Hc Hread. wp_run. eapply wp_mono; [apply (flush_on ({[c]} ∪ B) W c cl); [done|set_solver|done]|].
  intros r s2 (I2 & T2 & Hp & _ & _ & _ & K2). destruct (talks_at _ _ _ _ _ T2 Hc) as [Hc2 _].
  assert (Hread2 : c ∉ B → read_armed (client c s2) = true).
  { intros HB. rewrite (kn_read _ _ K2). auto. }
  destruct r.
  - wp_run. split; [|done]. eapply inv_unexcept; [done|]. intros HB _. split; [auto|]. rewrite Hp by done. lia.
  - eapply wp_mono; [by apply (arm_spec ({[c]} ∪ B) W c (client c s2))|].
    intros _ s3 (I3 & T3 & Hc3). split; [|by eapply talks_trans]. eapply inv_unexcept; [done|]. intros HB.
    rewrite (client_at _ _ _ Hc3). destruct (closed (client c s2)) eqn:Ho2; [congruence|]. intros _.
    split; [by apply Hread2|done].
  - eapply wp_mono; [apply close_spec; [by left|by eexists]|]. intros _ s3 (I3 & T3 & _).
    split; [|by eapply talks_trans]. eapply inv_mono; [..|exact I3]; set_solver.
Qed.

Lemma delivery_spec B W f msg s :
  inv None B W s →
  wp (deliver_pubsub g_tls walk_channels f msg) (λ _ s', inv None B W s' ∧ talks (λ _, False) s s') s.
Proof.
  intros I. unfold deliver_pubsub. wp_run. destruct (clients s !! f) as [c|] eqn:Hf; wp_run; [|split; [done|apply talks_refl]].
  destruct (lk_table _ _ (iv_linked _ _ _ _ I) f c Hf) as (cl & Hc & Hfd & Ho).
  rewrite (client_at _ _ _ Hc), Ho. wp_run.
  assert (I' : inv None ({[c]} ∪ B) W s) by (eapply inv_mono; [..|exact I]; set_solver).
  assert (Hread : c ∉ B → read_armed cl = true) by (intros HB; apply (iv_armed _ _ _ _ I c cl); done).
  eapply wp_mono; [apply (enqueue_on ({[c]} ∪ B) W c cl); [done|set_solver|done]|].
  intros ok s1 (H1 & T1 & _ & _ & _ & K1). destruct (talks_at _ _ _ _ _ T1 Hc) as [Hc1 _].
  destruct ok; cbn [negb].
  - destruct H1 as [I1 Ho1]. eapply wp_mono; [apply (send_spec B W c (client c s1)); try done|].
    + intros HB. rewrite (kn_read _ _ K1). auto.
    + intros _ s2 [I2 T2]. split; [done|by eapply talks_trans].
  - eapply wp_mono; [apply close_spec; [exact H1|by eexists]|]. intros _ s2 (I2 & T2 & _).
    split; [|by eapply talks_trans]. eapply inv_mono; [..|exact I2]; set_solver.
Qed.

Lemma deliveries_spec B W (messages : list (Z * bytes)) s :
  inv None B W s →
  wp (for_each messages (λ m, deliver_pubsub g_tls walk_channels m.1 m.2))
    (λ _ s', inv None B W s' ∧ talks (λ _, False) s s') s.
Proof.
  revert s. induction messages as [|m messages IH]; intros s I; cbn [for_each]; [apply wp_ret; split; [done|apply talks_refl]|].
  apply wp_bind. eapply wp_mono; [by apply delivery_spec|]. intros _ s1 [I1 T1].
  eapply wp_mono; [by apply IH|]. intros _ s2 [I2 T2]. split; [done|by eapply talks_trans].
Qed.

(** A change of the database alone. *)
Lemma inv_db x B W d s : inv x B W s → inv x B W (upd_the_db (λ _, d) s).
Proof. intros [[] A I C V]. split; [split; assumption|assumption..| |assumption]. intros Hp. by destruct (C Hp); split. Qed.

Lemma handling_spec B W c cl args s :
  inv None B W s → c ∈ B → heap s !! c = Some cl →
  wp (handle_request g_tls walk_channels walk_fds gauge c args) (λ _ s', inv None B W s'
    ∧ talks (λ c', c' = c ∧ password cfg ≠ [] ∧ presents args) s s'
    ∧ (authenticated cl = false → the_db s' = the_db s)) s.
Proof.
  intros I HB Hc. unfold handle_request.
  destruct (is_word "AUTH" _) eqn:Ha; [|destruct (is_word "HELLO" _) eqn:Hh].
  - destruct args as [|name args]; [done|].
    eapply wp_mono; [apply (authed_on _ (password cfg ≠ [] ∧ presents (name :: args)) B W c cl); [done..|by apply auth_spec]|].
    intros r s' (I' & T & D & _). split_and!; auto.
  - destruct args as [|name args]; [done|].
    eapply wp_mono; [apply (authed_on _ (password cfg ≠ [] ∧ presents (name :: args)) B W c cl); [done..|by apply hello_spec]|].
    intros r s' (I' & T & D & _). split_and!; auto.
  - wp_run. rewrite (client_at _ _ _ Hc). destruct (authenticated cl) eqn:Hau; cbn [negb].
    2:{ wp_run. split_and!; [done|apply talks_refl|done]. }
    wp_run. unfold in_db. apply wp_zoom.
    set (out := execute walk_channels walk_fds gauge (fd cl) args (resp3 cl)).
    unfold wp at 1. destruct (out (the_db s)) as [[response messages] d'] eqn:Hout. cbn [fst snd].
    wp_run. eapply wp_mono; [by apply deliveries_spec, inv_db|]. intros _ s' [I' T']. wp_run.
    split_and!; [done| |done]. apply talks_none. eapply talks_trans; [|exact T'].
    split; [split| |done|done].
    + intros c' cl' Hc'. by exists cl'.
    + exists [Command (fd cl) args (resp3 cl)]. split.
      * cbn. unfold bind. fold out. by rewrite Hout.
      * apply Forall_singleton. by exists c, cl.
    + intros c' cl' Hc'. unfold EventLoop.client. cbn. rewrite Hc'. cbn. auto.
Qed.


(** ** A turn of a client *)

(** The requests that parsing meets from [pos] on. *)
Inductive requested (buf : bytes) : nat → list bytes → Prop :=
  | Requested_here pos args e : parse_request buf pos = Complete (args, e) → requested buf pos args
  | Requested_later pos first e args :
      parse_request buf pos = Complete (first, e) → requested buf e args → requested buf pos args.

(** A request that may authenticate the client. *)
Definition admits (buf : bytes) (pos : nat) : Prop :=
  password cfg ≠ [] ∧ ∃ args, requested buf pos args ∧ presents args.

Lemma run_spec fuel B W c cl pos s :
  inv None B W s → c ∈ B → heap s !! c = Some cl → (pos ≤ length (in_buf cl))%nat →
  wp (run_commands g_tls walk_channels walk_fds gauge fuel c pos) (λ out s',
    talks (λ c', c' = c ∧ admits (in_buf cl) pos) s s'
    ∧ match out with
      | Refused => loosely c B W s'
      | Stopped e quit malformed spent => inv None B W s' ∧ (e ≤ length (in_buf cl))%nat
          ∧ (quit || malformed = false → spent = false → parse_request (in_buf cl) e = NeedMore)
      end) s.
Proof.
  revert pos s cl. induction fuel as [|fuel IH]; intros pos s cl I HB Hc Hpos; cbn [run_commands].
  { apply wp_ret. split; [apply talks_refl|by split_and!]. }
  wp_run. rewrite (client_at _ _ _ Hc).
  destruct (parse_request (in_buf cl) pos) as [[args e]| |] eqn:Hp;
    [|wp_run; split; [apply talks_refl|by split_and!]..].
  destruct (parse_request_bounds _ _ _ _ Hp) as [_ He].
  destruct (is_quit args); [wp_run; split; [apply talks_refl|by split_and!]|].
  wp_run. eapply wp_mono; [by apply (handling_spec B W c cl)|]. intros response s1 (I1 & T1 & _).
  destruct (talks_at _ _ _ _ _ T1 Hc) as [Hc1 _].
  assert (T1' : talks (λ c', c' = c ∧ admits (in_buf cl) pos) s s1).
  { revert T1. apply talks_weaken. intros c' (-> & Hne & Hpr). split; [done|]. split; [done|].
    exists args. split; [by eapply Requested_here|done]. }
  wp_run.
  assert (Hsend : wp (if bool_decide (response = []) then ret true else on g_tls c (enqueue_output response))
    (λ ok s2, (if ok : bool then inv None B W s2 else loosely c B W s2) ∧ talks (λ _, False) s1 s2) s1).
  { case_bool_decide; [apply wp_ret; split; [done|apply talks_refl]|].
    eapply wp_mono; [by apply (enqueue_on B W c (client c s1))|]. intros ok s2 (H2 & T2 & _).
    split; [|done]. by destruct ok; [apply H2|]. }
  eapply wp_mono; [exact Hsend|]. intros ok s2 [H2 T2].
  assert (T12 : talks (λ c', c' = c ∧ admits (in_buf cl) pos) s s2) by (by eapply talks_trans, talks_none).
  destruct ok; cbn [negb]; [|wp_run; done].
  destruct (talks_at _ _ _ _ _ T12 Hc) as [Hc2 _]. destruct (tk_in _ _ _ T12 c cl Hc) as [Hin _].
  eapply wp_mono; [apply (IH e s2 (client c s2)); try done; by rewrite Hin|].
  intros out s3 [T3 H3]. rewrite Hin in *. split; [|done]. eapply talks_trans; [done|].
  revert T3. apply talks_weaken. intros c' (-> & Hne & args' & Hr & Hpr). split; [done|]. split; [done|].
  exists args'. split; [by eapply Requested_later|done].
Qed.

(** Input is consumed. *)
Lemma erase_on B W c cl e s :
  inv None B W s → c ∈ B → c ∈ W → heap s !! c = Some cl →
  wp (on g_tls c (mod_client (upd_in (drop e)) ;; track)) (λ _ s', inv None B W s' ∧ evolves s s'
    ∧ doors s' = doors s ∧ eventfd s' = eventfd s ∧ the_db s' = the_db s
    ∧ in_buf (client c s') = drop e (in_buf cl) ∧ authenticated (client c s') = authenticated cl
    ∧ stream (client c s') = stream cl ∧ is_Some (heap s' !! c) ∧ ssl (client c s') = ssl cl) s.
Proof.
  intros I HB HW Hc. apply (wp_on c cl); [done|]. unfold mod_client. wp_run.
  destruct (linked_accounted None c cl s (iv_linked _ _ _ _ I) Hc) as [Hct Hac]. specialize (Hac ltac:(done)).
  apply (wp_track (others c cl s)); [destruct Hct; by split|]. intros [cl' g] E F Hac'. cbn [fst snd] in *.
  assert (K : kin cl cl') by (by rewrite E).
  assert (Hless : held cl' <= held cl).
  { destruct Hac as [_ Hh]. cbn [fst] in Hh. rewrite E, Hh. cbn. unfold now_held. cbn.
    destruct (closed cl); [done|]. unfold len. rewrite length_drop. lia. }
  rewrite client_put. split_and!; try by rewrite ?E.
  - eapply inv_put; try done; [by left|by right|apply Hac'|by left|]. intros Hp [P1 P2 P3]. split.
    + destruct (P2 c cl Hc) as [Q1 Q2]. rewrite E. split; [done|]. cbn. unfold input_cap, len in *. cbn.
      rewrite length_drop. lia.
    + intros _. cbn [from_option] in P3. unfold others. lia.
  - apply (put_evolves c cl); [done|by apply kin_older].
  - cbn. rewrite lookup_insert_eq. by eexists.
Qed.

Definition changes s s' : Prop := evolves s s' ∧ doors s' = doors s ∧ eventfd s' = eventfd s.

Lemma changes_trans s1 s2 s3 : changes s1 s2 → changes s2 s3 → changes s1 s3.
Proof. intros (E1 & D1 & V1) (E2 & D2 & V2). split_and!; [by trans s2|congruence..]. Qed.

Lemma talks_changes P s s' : talks P s s' → changes s s'.
Proof. by intros []. Qed.

Lemma changes_some s s' c : changes s s' → is_Some (heap s !! c) → heap s' !! c = Some (client c s').
Proof.
  intros [E _] [cl Hc]. destruct (ev_heap _ _ E c cl Hc) as (cl' & Hc' & _). by rewrite (client_at _ _ _ Hc').
Qed.

Lemma process_spec B W c cl s :
  inv None B W s → c ∈ B → c ∈ W → heap s !! c = Some cl →
  wp (process_buffered g_tls walk_channels walk_fds gauge c) (λ step s', changes s s'
    ∧ match step with
      | Drop => loosely c B W s'
      | Done => inv None B (W ∖ {[c]}) s'
      | More => inv None B W s'
      end) s.
Proof.
  intros I HB HW Hc. unfold process_buffered. wp_run.
  eapply wp_mono; [apply (run_spec _ B W c cl); try done; lia|]. intros out s1 [T1 H1].
  pose proof (talks_changes _ _ _ T1) as C1. destruct (talks_at _ _ _ _ _ T1 Hc) as [Hc1 _].
  destruct (tk_in _ _ _ T1 c cl Hc) as [Hin1 _].
  destruct out as [|e quit malformed spent]; [by wp_run|]. destruct H1 as (I1 & He & Hend). wp_run.
  eapply wp_mono; [by apply (erase_on B W c (client c s1) e)|].
  intros _ s2 (I2 & E2 & D2 & V2 & _ & Hin2 & _ & _ & Hs2 & _).
  assert (C2 : changes s s2) by (eapply changes_trans; [exact C1|by split_and!]). rewrite Hin1 in Hin2.
  assert (Hc2 : heap s2 !! c = Some (client c s2)) by (eapply changes_some; [exact C2|by eexists]).
  destruct (quit || malformed).
  - wp_run. eapply wp_mono; [by apply (enqueue_on B W c (client c s2))|]. intros ok s3 (H3 & T3 & _).
    assert (C3 : changes s s3) by (eapply changes_trans; [exact C2|by eapply talks_changes]).
    destruct ok; cbn [when].
    + wp_run. destruct (talks_at _ _ _ _ _ T3 Hc2) as [Hc3 _].
      eapply wp_mono; [apply (flush_on B W c (client c s3)); try done; apply H3|]. intros r s4 (I4 & T4 & _). wp_run.
      split; [|by left]. eapply changes_trans; [exact C3|by eapply talks_changes].
    + wp_run. done.
  - wp_run. eapply wp_mono; [by apply (flush_on B W c (client c s2))|]. intros r s3 (I3 & T3 & _).
    assert (C3 : changes s s3) by (eapply changes_trans; [exact C2|by eapply talks_changes]).
    destruct (tk_in _ _ _ T3 c _ Hc2) as [Hin3 _]. rewrite Hin2 in Hin3.
    assert (Hfin : inv None B (if spent && negb (bool_decide (in_buf (client c s3) = [])) then W else W ∖ {[c]}) s3).
    { destruct spent; cbn [andb].
      - case_bool_decide as Hn; [|done]. apply inv_rest; [done|]. intros _. right. intros args e'. by rewrite Hn.
      - apply inv_rest; [done|]. intros _. right. intros args e' Hp.
        specialize (Hend eq_refl eq_refl). rewrite (parse_request_drop _ e He), <- Hin3, Hp in Hend. done. }
    destruct r; wp_run.
    1, 2: split; [done|]; by destruct (spent && _).
    split; [done|by left].
Qed.


Lemma arm_changes B W c s w :
  inv None B W s → is_Some (heap s !! c) →
  wp (arm_client g_tls c w) (λ _ s', inv None B W s' ∧ changes s s'
    ∧ closed (client c s') = closed (client c s)
    ∧ (closed (client c s) = false → ∀ w', armed w' (client c s') = if decide (w = w') then true else armed w' (client c s))
    ∧ pending_out (client c s') = pending_out (client c s)) s.
Proof.
  intros I [cl Hc]. rewrite (client_at _ _ _ Hc). eapply wp_mono; [by apply (arm_spec B W c cl)|].
  intros _ s' (I' & T & Hc'). split_and!; [done|by eapply talks_changes| | |];
    rewrite (client_at _ _ _ Hc'); destruct (closed cl) eqn:Ho; try done.
  intros _ w'. apply armed_upd.
Qed.

Lemma changes_refl s : changes s s.
Proof. by split_and!. Qed.

Lemma arm_both B W c (r : bool) s :
  inv None B W s → is_Some (heap s !! c) →
  wp (let* cl := gets (client c) in
      when (0 <? pending_out cl) (arm_client g_tls c true) ;;
      arm_client g_tls c false ;;
      ret r) (λ more s', more = r ∧ changes s s' ∧ inv None (B ∖ {[c]}) W s') s.
Proof.
  intros I Hs. wp_run.
  assert (Hw : wp (when (0 <? pending_out (client c s)) (arm_client g_tls c true)) (λ _ s1,
    inv None B W s1 ∧ changes s s1 ∧ closed (client c s1) = closed (client c s)
    ∧ pending_out (client c s1) = pending_out (client c s)
    ∧ (closed (client c s) = false → 0 < pending_out (client c s) → write_armed (client c s1) = true)) s).
  { apply wp_when; intros Hp.
    - eapply wp_mono; [by apply (arm_changes B W c s true)|]. intros _ s1 (I1 & C1 & O1 & A1 & P1).
      split_and!; try done. intros Ho _. by apply (A1 Ho true).
    - split_and!; try done. intros _ Hn. apply Z.ltb_ge in Hp. lia. }
  eapply wp_mono; [exact Hw|]. cbn beta. intros _ s1 (I1 & C1 & O1 & P1 & W1). wp_run.
  assert (Hs1 : is_Some (heap s1 !! c)) by (eexists; by eapply changes_some).
  eapply wp_mono; [by apply (arm_changes B W c s1 false)|]. intros _ s2 (I2 & C2 & O2 & A2 & P2). wp_run.
  split_and!; [done|by eapply changes_trans|]. apply inv_settle; [done|]. rewrite O2. intros Ho. specialize (A2 Ho).
  split; [exact (A2 false)|]. rewrite P2, P1. intros Hp.
  change (armed true (client c s2) = true). rewrite A2. cbn. apply W1; [congruence|done].
Qed.

(** After a turn the client is armed for reading, and for writing when output
    waits; it is an exception no more, unless it has requests left. *)
Lemma serve_spec B W c cl s :
  inv None B W s → c ∈ B → c ∈ W → heap s !! c = Some cl →
  wp (serve g_tls walk_channels walk_fds gauge c) (λ more s', changes s s'
    ∧ inv None (B ∖ {[c]}) (if more : bool then W else W ∖ {[c]}) s') s.
Proof.
  intros I HB HW Hc. unfold serve. wp_run. eapply wp_mono; [by apply (process_spec B W c cl)|].
  intros step s1 [C1 H1].
  assert (Hs1 : is_Some (heap s1 !! c)) by (eexists; eapply changes_some; [exact C1|by eexists]).
  destruct step.
  - wp_run. eapply wp_mono; [by apply close_spec|]. intros _ s2 (I2 & T2 & _). wp_run.
    split; [|done]. eapply changes_trans; [exact C1|by eapply talks_changes].
  - eapply wp_mono; [by apply (arm_both B (W ∖ {[c]}) c false)|]. intros more s2 (-> & C2 & I2).
    split; [by eapply changes_trans|done].
  - eapply wp_mono; [by apply (arm_both B W c true)|]. intros more s2 (-> & C2 & I2).
    split; [by eapply changes_trans|done].
Qed.

(** ** The completions *)

Lemma drain_on B W c cl s :
  inv None B W s → c ∈ B → c ∈ W → heap s !! c = Some cl → closed cl = false →
  wp (on g_tls c drain_read) (λ ok s', changes s s' ∧ the_db s' = the_db s ∧ closed (client c s') = false
    ∧ if ok : bool then inv None B W s' else loosely c B W s') s.
Proof.
  intros I HB HW Hc Ho. apply (wp_on c cl); [done|].
  destruct (linked_accounted None c cl s (iv_linked _ _ _ _ I) Hc) as [_ Hac]. specialize (Hac ltac:(done)).
  eapply wp_mono; [by apply drain_spec|]. intros ok [cl' g] [K R A C Hok F Pl]. cbn [fst snd] in *.
  rewrite client_put.
  assert (Hcap : ssl cl = None → capped cl → capped cl').
  { intros Hs [C1 C2]. destruct (Pl Hs) as (E1 & E2 & _ & _ & Hin & _).
    unfold capped, in_output_cap, output_cap, pending_out, input_cap in *. rewrite E1, E2, A.
    split; [done|]. by destruct Hin as [| ->]. }
  split_and!; try done.
  - split; [by apply (put_evolves c cl), kin_older|done].
  - by rewrite (kn_closed _ _ K).
  - destruct ok.
    + eapply inv_put; try done; [by left|by right|by left; auto|]. intros (_ & Hsane & Hmax) [B1 B2 B3].
      split; [by apply Hcap, (B2 c); [apply (B1 c)|]|]. intros _.
      destruct (Pl (B1 c cl Hc)) as (_ & _ & _ & _ & _ & Hb). unfold in_budget in Hb. apply Hb; [done..|].
      cbn in *. unfold others. lia.
    + right. rewrite client_put. split; [|by rewrite (kn_closed _ _ K)].
      eapply inv_put; try done; [by left|by right|by right|]. intros _ [B1 B2 B3]. split; [|done].
      by apply Hcap, (B2 c); [apply (B1 c)|].
Qed.

Definition steps s s' : Prop := evolves s s' ∧ doors s' = doors s.

Lemma changes_steps s s' : changes s s' → steps s s'.
Proof. by intros (E & D & _). Qed.

Lemma steps_trans s1 s2 s3 : steps s1 s2 → steps s2 s3 → steps s1 s3.
Proof. intros [E1 D1] [E2 D2]. split; [by trans s2|congruence]. Qed.

Lemma steps_some s s' c : steps s s' → is_Some (heap s !! c) → heap s' !! c = Some (client c s').
Proof.
  intros [E _] [cl Hc]. destruct (ev_heap _ _ E c cl Hc) as (cl' & Hc' & _). by rewrite (client_at _ _ _ Hc').
Qed.

(** The eventfd is signalled: every client with requests left will be served. *)
Lemma queue_spec B W s :
  inv None B W s → wp queue_work (λ _ s', inv None B ∅ s' ∧ steps s s' ∧ heap s' = heap s) s.
Proof.
  intros [[] A I C V]. unfold queue_work. wp_run.
  assert (Hev : 0 < Z.min (eventfd s + 1) eventfd_max) by (unfold eventfd_max; lia).
  split_and!; [|split; [split; [|by exists []]|done]|done].
  - split; try assumption; [split; assumption| | |cbn; lia].
    + by intros; left.
    + intros Hp. destruct (C Hp). by split.
  - intros c cl Hc. by exists cl.
Qed.


(** A ticket comes back. *)
Lemma ticket_spec s t :
  inv None ∅ ∅ s → t ∈ ring s →
  let s1 := upd_ring (remove_one t) s in
  if closed (client (t_client t) s) then inv None ∅ ∅ s1
  else inv None {[t_client t]} ∅ (put (t_client t) (upd_armed (for_write t) false (client (t_client t) s)) (net s) s1)
       ∧ heap s !! t_client t = Some (client (t_client t) s)
       ∧ read_armed (client (t_client t) s) = true.
Proof.
  intros I Ht s1. assert (Htk : t ∈ tickets s) by (apply elem_of_app; by right).
  destruct (lk_tickets _ _ (iv_linked _ _ _ _ I) t Htk) as [cl Hc]. rewrite (client_at _ _ _ Hc).
  assert (Hin : ∀ u, u ∈ tickets s1 → u ∈ tickets s).
  { intros u. unfold tickets. cbn. rewrite !elem_of_app. intros [?|?%remove_one_in]; auto. }
  assert (Hn : ∀ u, count u (tickets s1) = (count u (tickets s) - if decide (t = u) then 1 else 0)%nat).
  { intros u. change (tickets s1) with (arm_backlog s ++ remove_one t (ring s)). unfold tickets.
    rewrite !count_app, count_remove. destruct (decide (t = u)) as [<-|]; [|lia].
    destruct (decide (count t (ring s) = 0%nat)) as [Hz|]; [|lia]. by apply count_zero in Hz. }
  destruct (closed cl) eqn:Ho.
  - destruct I as [[] A I C V]. split; try done; [split; try done| ].
    + intros u Hu. auto.
    + intros c' w cl' Hc' Ho'. rewrite Hn, decide_False; [rewrite Nat.sub_0_r; by apply lk_armed0|].
      intros E. subst t. cbn in *. congruence.
    + intros Hp. by destruct (C Hp).
  - split_and!; [|done|by apply (iv_armed _ _ _ _ I _ _ Hc)].
    eapply (inv_flag ∅ {[t_client t]} ∅ (t_client t) cl (for_write t) false s); try done.
    + intros u Hu. left. by apply Hin.
    + change (tickets _) with (tickets s1). rewrite Hn. destruct t as [c w]. cbn [t_client for_write] in *.
      rewrite decide_True by done. rewrite (lk_armed _ _ (iv_linked _ _ _ _ I) c w cl Hc Ho). by destruct (armed w cl).
    + intros u Hu. change (tickets (put _ _ _ _)) with (tickets s1). rewrite Hn, decide_False; [lia|].
      intros <-. by destruct t.
    + intros c' Hc'. split; [set_solver|]. right. set_solver.
Qed.

Lemma steps_refl s : steps s s.
Proof. by split. Qed.

Lemma poll_spec t s :
  inv None ∅ ∅ s → t ∈ ring s →
  wp (on_poll g_tls walk_channels walk_fds gauge t) (λ _ s', inv None ∅ ∅ s' ∧ steps s s') s.
Proof.
  intros I Ht. pose proof (ticket_spec s t I Ht) as Htk. cbv zeta in Htk. unfold on_poll. wp_run.
  set (c := t_client t) in *. set (s1 := upd_ring (remove_one t) s) in *.
  change (client c s1) with (client c s). set (cl := client c s) in *.
  assert (S1 : steps s s1) by (split; [split; [|by exists []]|done]; intros c' cl' Hc'; by exists cl').
  destruct (closed cl) eqn:Ho; [by wp_run|]. destruct Htk as (I2 & Hc & Hread). wp_run.
  apply (wp_on c cl); [done|]. unfold mod_client. wp_run. cbn [fst snd].
  change (net s1) with (net s). set (s2 := put c (upd_armed (for_write t) false cl) (net s) s1) in *.
  assert (S2 : steps s s2).
  { apply (steps_trans s s1); [done|]. split; [|done]. by apply (put_evolves c cl). }
  assert (Hc2 : heap s2 !! c = Some (upd_armed (for_write t) false cl)) by apply lookup_insert_eq.
  destruct (for_write t) eqn:Hw.
  - eapply wp_mono; [apply (send_spec ∅ ∅ c (upd_armed true false cl)); try done|].
    + eapply inv_mono; [..|exact I2]; set_solver.
    + intros _ s3 [I3 T3]. split; [done|]. by eapply steps_trans, changes_steps, talks_changes.
  - assert (I2' : inv None {[c]} {[c]} s2) by (eapply inv_mono; [..|exact I2]; set_solver).
    wp_run. eapply wp_mono; [apply (drain_on {[c]} {[c]} c (upd_armed false false cl) s2 I2'); [set_solver..|exact Hc2|done]|].
    intros ok s3 (C3 & _ & Ho3 & H3).
    assert (S3 : steps s s3) by (by eapply steps_trans, changes_steps).
    assert (Hc3 : heap s3 !! c = Some (client c s3)) by (eapply steps_some; [exact S3|by eexists]).
    assert (Hclose : ∀ s', inv None ({[c]} ∖ {[c]}) ({[c]} ∖ {[c]}) s' → inv None ∅ ∅ s')
      by (intros s'; apply inv_mono; set_solver).
    destruct ok; cbn [negb].
    2:{ eapply wp_mono; [apply close_spec; [exact H3|by eexists]|]. intros _ s4 (I4 & T4 & _).
        split; [by apply Hclose|]. by eapply steps_trans, changes_steps, talks_changes. }
    wp_run. eapply wp_mono; [apply (serve_spec {[c]} {[c]} c (client c s3)); [done|set_solver..|done]|].
    intros more s4 [C4 I4]. assert (S4 : steps s s4) by (by eapply steps_trans, changes_steps).
    destruct more.
    + eapply wp_mono; [by eapply queue_spec|]. intros _ s5 (I5 & S5 & _).
      split; [|by eapply steps_trans]. eapply inv_mono; [..|exact I5]; set_solver.
    + wp_run. apply Hclose in I4. apply wp_when; intros _; [|by split].
      eapply wp_mono; [apply close_spec; [left; exact I4|eexists; eapply steps_some; [exact S4|by eexists]]|].
      intros _ s5 (I5 & T5 & _). split; [|by eapply steps_trans, changes_steps, talks_changes].
      eapply inv_mono; [..|exact I5]; set_solver.
Qed.


(** *** Requests to the ring and the sweep *)

Context (walk_clients : nat → gmap Z nat → list nat)
  (Hwalk : ∀ k m, walk_clients k m ≡ₚ (map_to_list m).*2).

Lemma inv_net x B W g s :
  inv x B W s → g_client_buffers g = g_client_buffers (net s) → inv x B W (upd_net (λ _, g) s).
Proof.
  intros [[] A I C V] Hg. split; try done; [split; try done; cbn; congruence|]. intros Hp. by destruct (C Hp); split.
Qed.

(** The fields that no invariant of the clients mentions. *)
Definition same_clients s s' : Prop :=
  heap s' = heap s ∧ clients s' = clients s ∧ made s' = made s ∧ arm_backlog s' = arm_backlog s ∧ ring s' = ring s
  ∧ g_client_buffers (net s') = g_client_buffers (net s) ∧ the_db s' = the_db s.

Lemma inv_same x B W s s' : same_clients s s' → eventfd s' = eventfd s → inv x B W s → inv x B W s'.
Proof.
  intros (E1 & E2 & E3 & E4 & E5 & E6 & E7) E8 [[L1 L2 L3 L4 L5 L6 L7 L8] A I C V].
  assert (Et : tickets s' = tickets s) by (unfold tickets; congruence).
  split; [split|..]; rewrite ?Et, ?E1, ?E2, ?E3, ?E6, ?E8; try done.
  intros Hp. destruct (C Hp) as [B1 B2 B3]. split; rewrite ?E1; try done.
  destruct x as [c|]; [|done]. cbn in *. unfold EventLoop.client in *. by rewrite E1.
Qed.

Lemma same_evolves s s' : same_clients s s' → evolves s s'.
Proof. intros (E1 & _ & _ & _ & _ & _ & E7). split; [|by exists []]. intros c cl Hc. rewrite E1. by exists cl. Qed.

Lemma wp_kernel {A} (f : nat → A) (Q : A → server → Prop) s :
  (∀ s', same_clients s s' → eventfd s' = eventfd s → doors s' = doors s → Q (f (net_tick (net s))) s') → wp (kernel f) Q s.
Proof. intros HQ. unfold kernel. wp_run. by apply HQ. Qed.

(** A free entry of the ring is all a request needs. *)
Lemma arm_listener_spec (Q : unit → server → Prop) s :
  (∀ s', same_clients s s' → eventfd s' = eventfd s → event_reads s' = event_reads s →
     accepts s' = S (accepts s) ∨ accept_paused s' = true → Q tt s') →
  wp arm_listener Q s.
Proof.
  intros HQ. unfold arm_listener. wp_run. apply wp_kernel. intros s' Hs He Hd. cbv beta. injection Hd as D1 D2 D3 D4.
  destruct (_ =? 0)%nat; wp_run; apply HQ; try done; [by right|left; cbn; congruence].
Qed.

Lemma arm_eventfd_spec (Q : unit → server → Prop) s :
  (∀ s', same_clients s s' → eventfd s' = eventfd s → accepts s' = accepts s → accept_paused s' = accept_paused s →
     ((∀ k, sqes k ≠ 0%nat) → event_reads s' = S (event_reads s)) → Q tt s') →
  wp arm_eventfd Q s.
Proof.
  intros HQ. unfold arm_eventfd. wp_run. apply wp_kernel. intros s' Hs He Hd. cbv beta. injection Hd as D1 D2 D3 D4.
  destruct (Nat.eqb_spec (sqes (net_tick (net s))) 0) as [Hz|]; wp_run; apply HQ; try done.
  - intros Hq. by destruct (Hq (net_tick (net s))).
  - intros _. cbn. congruence.
Qed.

Lemma submit_backlog_spec B W s :
  inv None B W s → wp (submit_backlog g_tls) (λ _ s', inv None B W s' ∧ steps s s') s.
Proof.
  intros I. unfold submit_backlog. wp_run. apply wp_kernel. intros s1 Hs He Hd. wp_run.
  destruct (submit g_tls s1 (sqes (net_tick (net s))) (arm_backlog s1)) as [gone kept] eqn:Hsub.
  cbn beta iota. wp_run.
  destruct (submit_spec _ _ _ _ _ Hsub) as [H1 H2].
  set (s2 := upd_arm_backlog (λ _, kept) (upd_ring (λ l, l ++ gone) s1)).
  assert (S2 : steps s s2).
  { split; [trans s1; [by apply same_evolves|]|exact Hd]. split; [|by exists []]. intros c cl Hc. by exists cl. }
  split; [|exact S2]. pose proof (inv_same _ _ _ _ _ Hs He I) as [[L1 L2 L3 L4 L5 L6 L7 L8] A Id C V].
  assert (Hin : ∀ t, t ∈ tickets s2 → t ∈ tickets s1).
  { intros t. unfold tickets. subst s2. cbn. rewrite !elem_of_app. specialize (H1 t). rewrite elem_of_app in H1. tauto. }
  split; try done; [split; try done|].
  - intros t Ht. by apply L4, Hin.
  - intros c w cl Hc Ho. rewrite <- (L5 c w cl Hc Ho). unfold tickets.
    change (arm_backlog s2) with kept. change (ring s2) with (ring s1 ++ gone).
    specialize (H2 (Ticket c w)). cbn [t_client] in H2. rewrite (client_at c cl s1 Hc) in H2. specialize (H2 Ho).
    rewrite !count_app in *. lia.
  - intros Hp. by destruct (C Hp); split.
Qed.

(** [pump_work] serves every client that has input. *)
Lemma pump_loop l s :
  inv None ∅ (list_to_set l) s → (∀ c, c ∈ l → is_Some (heap s !! c)) →
  wp (for_each l (λ c,
    let* cl := gets (client c) in
    if closed cl || bool_decide (in_buf cl = []) then ret tt else
    let* more := serve g_tls walk_channels walk_fds gauge c in
    when more queue_work)) (λ _ s', inv None ∅ ∅ s' ∧ steps s s') s.
Proof.
  revert s. induction l as [|c l IH]; intros s I Hl; cbn [for_each]; [by apply wp_ret|].
  assert (Hbody : wp (let* cl := gets (client c) in
      if closed cl || bool_decide (in_buf cl = []) then ret tt else
      let* more := serve g_tls walk_channels walk_fds gauge c in
      when more queue_work) (λ _ s', inv None ∅ (list_to_set l) s' ∧ steps s s') s).
  { assert (Hsub : ∀ x s', inv None x (list_to_set (c :: l) ∖ {[c]}) s' → inv None x (list_to_set l) s')
      by (intros x s'; apply inv_mono; set_solver).
    destruct (Hl c) as [cl Hc]; [by left|]. wp_run. rewrite (client_at _ _ _ Hc).
    destruct (closed cl) eqn:Ho; cbn [orb]; [wp_run|case_bool_decide as Hn; [wp_run|]].
    - split; [|done]. apply Hsub, inv_rest; [done|]. rewrite (client_at _ _ _ Hc). congruence.
    - split; [|done]. apply Hsub, inv_rest; [done|]. rewrite (client_at _ _ _ Hc). intros _. right.
      intros args e. by rewrite Hn.
    - wp_run. eapply wp_mono; [apply (serve_spec {[c]} (list_to_set (c :: l)) c cl); [|set_solver..|done]|].
      { eapply inv_mono; [..|exact I]; set_solver. }
      intros more s1 [C1 I1]. apply changes_steps in C1.
      assert (Hnone : ∀ W s', inv None ({[c]} ∖ {[c]}) W s' → inv None ∅ W s') by (intros ? ?; apply inv_mono; set_solver).
      apply Hnone in I1. destruct more; cbn [when].
      + eapply wp_mono; [by eapply queue_spec|]. intros _ s2 (I2 & S2 & _). split; [|by eapply steps_trans].
        eapply inv_mono; [..|exact I2]; set_solver.
      + apply wp_ret. split; [by apply Hsub|done]. }
  apply wp_bind. eapply wp_mono; [exact Hbody|]. intros _ s1 [I1 S1].
  eapply wp_mono; [apply IH; [done|]|].
  - intros c' Hc'. eexists. eapply steps_some; [done|]. apply Hl. by right.
  - intros _ s2 [I2 S2]. split; [done|by eapply steps_trans].
Qed.

Lemma walked k s c : linked None s → c ∈ walk_clients k (clients s) → is_Some (heap s !! c).
Proof.
  intros L. rewrite Hwalk, list_elem_of_fmap. intros ([f c'] & -> & Hf%elem_of_map_to_list).
  destruct (lk_table _ _ L f c' Hf) as (cl & Hc & _). by exists cl.
Qed.

Lemma walked_open k s c cl : linked None s → heap s !! c = Some cl → closed cl = false → c ∈ walk_clients k (clients s).
Proof.
  intros L Hc Ho. rewrite Hwalk, list_elem_of_fmap. exists (fd cl, c). split; [done|].
  apply elem_of_map_to_list. by apply (lk_open _ _ L).
Qed.

Lemma pump_spec B s :
  inv None ∅ B s → wp (pump_work g_tls walk_channels walk_fds gauge walk_clients) (λ _ s', inv None ∅ ∅ s' ∧ steps s s') s.
Proof.
  intros I. unfold pump_work. wp_run. apply wp_kernel. intros s1 Hs He Hd. wp_run. cbv beta.
  pose proof (inv_same _ _ _ _ _ Hs He I) as I1. pose proof (iv_linked _ _ _ _ I1) as L1.
  eapply wp_mono; [apply pump_loop|].
  - destruct I1 as [L A Id C V]. split; try done. intros c cl Hc Ho Hn. exfalso. apply Hn.
    apply elem_of_list_to_set. by eapply walked_open.
  - intros c. by apply walked.
  - intros _ s2 [I2 S2]. split; [done|]. eapply steps_trans; [|exact S2]. split; [by apply same_evolves|done].
Qed.

Lemma eventfd_spec s :
  inv None ∅ ∅ s →
  wp (on_eventfd g_tls walk_channels walk_fds gauge walk_clients) (λ _ s', inv None ∅ ∅ s' ∧ evolves s s'
    ∧ accepts s' = accepts s ∧ accept_paused s' = accept_paused s ∧ made s' = made s
    ∧ ((∀ k, sqes k ≠ 0%nat) → (0 < event_reads s')%nat)) s.
Proof.
  intros I. unfold on_eventfd. wp_run. apply arm_eventfd_spec. intros s1 Hs He Ha Hp Hr.
  assert (I1 : inv None ∅ (dom (heap s1)) s1).
  { apply (inv_same _ _ _ (upd_eventfd (λ _, 0) (upd_event_reads pred s)) s1); [done|done|].
    destruct Hs as (Eh & _). destruct I as [[] A Id C V]. split; try done.
    - intros c cl Hc _ Hn. exfalso. apply Hn. apply elem_of_dom. rewrite Eh. by exists cl.
    - intros Hpl. by destruct (C Hpl). }
  eapply wp_mono; [by eapply pump_spec|]. intros _ s2 [I2 [S2 D2]]. injection D2 as D1 D2 D3 D4. split_and!; try done.
  - trans s1; [|done]. trans (upd_eventfd (λ _, 0) (upd_event_reads pred s)); [|by apply same_evolves].
    split; [|by exists []]. intros c cl Hc. by exists cl.
  - rewrite D1, Ha. done.
  - rewrite D3, Hp. done.
  - rewrite D4. by destruct Hs as (_ & _ & -> & _).
  - intros Hq. rewrite D2, (Hr Hq). lia.
Qed.


(** The table of clients only shrinks, except when a client is accepted. *)
Lemma table_shrinks s s' :
  linked None s → linked None s' → evolves s s' → made s' = made s → clients s' ⊆ clients s.
Proof.
  intros L L' E Hm. apply map_subseteq_spec. intros f c Hf.
  destruct (lk_table _ _ L' f c Hf) as (cl' & Hc' & Hfd & Ho).
  assert (is_Some (heap s !! c)) as [cl Hc].
  { apply (lk_fresh _ _ L). rewrite <- Hm. apply (lk_fresh _ _ L'). by exists cl'. }
  destruct (ev_heap _ _ E c cl Hc) as (cl2 & Hc2 & D1 & D2 & _). replace cl2 with cl' in * by congruence.
  rewrite <- Hfd, D1. apply (lk_open _ _ L); [done|]. destruct (closed cl) eqn:Hcl; [|done]. by rewrite D2 in Ho.
Qed.

Definition opened (res now : Z) s : server :=
  upd_clients (<[res := made s]>) (upd_heap (<[made s := new_client g_tls res now]>) (upd_made S s)).

Lemma inv_opened res now s :
  inv None ∅ ∅ s → clients s !! res = None → inv None {[made s]} ∅ (opened res now s).
Proof.
  intros [[L1 L2 L3 L4 L5 L6 L7 L8] A I C V] Hf.
  assert (Hn : heap s !! made s = None) by (apply eq_None_not_Some; rewrite L3; lia).
  assert (Hlook : ∀ c' cl2, <[made s := new_client g_tls res now]> (heap s) !! c' = Some cl2 →
    c' = made s ∧ cl2 = new_client g_tls res now ∨ c' ≠ made s ∧ heap s !! c' = Some cl2).
  { intros c' cl2. rewrite lookup_insert. destruct (decide (made s = c')) as [<-|]; [intros [= <-]; auto|auto]. }
  assert (Hzero : ∀ w, count (Ticket (made s) w) (tickets s) = 0%nat).
  { intros w. apply count_zero. intros [cl Hc]%L4. cbn in Hc. congruence. }
  split; [split|..]; cbn [opened clients upd_clients heap upd_heap upd_made made net eventfd].
  - intros f c. rewrite lookup_insert. destruct (decide (res = f)) as [<-|].
    + intros [= <-]. eexists. by rewrite lookup_insert_eq.
    + intros Hc. destruct (L1 f c Hc) as (cl & H1 & H2 & H3). exists cl. rewrite lookup_insert_ne; [done|].
      intros <-. congruence.
  - intros c cl [[-> ->]|[Hne H2]]%Hlook Ho; [apply lookup_insert_eq|].
    rewrite lookup_insert_ne; [by apply L2|]. intros E. specialize (L2 c cl H2 Ho). congruence.
  - intros c. rewrite lookup_insert. destruct (decide (made s = c)) as [<-|]; [split; [lia|by eexists]|].
    rewrite L3. lia.
  - intros t Ht. rewrite lookup_insert. destruct (decide (made s = t_client t)); [done|by apply L4].
  - intros c w cl [[-> ->]|[Hne H2]]%Hlook Ho; [|by apply L5]. etrans; [exact (Hzero w)|by destruct w].
  - intros c cl [[-> ->]|[Hne H2]]%Hlook; [|by apply (L6 c)]. split; cbn; lia.
  - intros c cl [[-> ->]|[Hne H2]]%Hlook Hx; [done|by apply (L7 c)].
  - rewrite map_sum_insert_new by done. cbn. by rewrite Z.add_0_l.
  - intros c cl [[-> ->]|[Hne H2]]%Hlook Ho Hc; [set_solver|]. apply (A c); [done..|set_solver].
  - intros c cl [[-> ->]|[Hne H2]]%Hlook Ho Hc; [right; by intros args e|]. apply (I c); [done..|set_solver].
  - intros Hp. destruct (C Hp) as [B1 B2 B3]. destruct Hp as (Ht & _). split; cbn [opened clients upd_clients heap upd_heap upd_made].
    + intros c cl [[-> ->]|[Hne H2]]%Hlook; [by rewrite Ht|by apply (B1 c)].
    + intros c cl [[-> ->]|[Hne H2]]%Hlook; [|by apply (B2 c)]. split.
      * unfold in_output_cap, output_cap. cbn. by case_bool_decide.
      * unfold input_cap. cbn. by case_bool_decide.
    + rewrite map_sum_insert_new by done. cbn in *. lia.
  - done.
Qed.

(** A connection, an interruption or a failure: the listener is armed again or
    waits for the sweep. *)
Lemma accept_spec a s :
  inv None ∅ ∅ s → (0 < accepts s)%nat → (∀ res, a = Accepted res → clients s !! res = None) →
  wp (on_accept g_tls maxclients a) (λ _ s', inv None ∅ ∅ s' ∧ evolves s s' ∧ event_reads s' = event_reads s
    ∧ ((0 < accepts s')%nat ∨ accept_paused s' = true)
    ∧ Z.of_nat (size (clients s')) <= Z.max (Z.of_nat (size (clients s))) maxclients) s.
Proof.
  intros I Hacc Hres. unfold on_accept. wp_run. apply wp_kernel. intros s1 Hs He Hd. wp_run. cbv beta.
  injection Hd as D1 D2 D3 D4.
  assert (I1 : inv None ∅ ∅ s1).
  { apply (inv_same _ _ _ (upd_accepts pred s) s1); [done|done|].
    destruct I as [[] A Id C V]. split; try done. intros Hp. by destruct (C Hp); split. }
  assert (E1 : evolves s s1).
  { trans (upd_accepts pred s); [|by apply same_evolves]. split; [|by exists []]. intros c cl Hc. by exists cl. }
  pose proof Hs as (_ & Hcl & Hmade & _). cbn in Hcl, Hmade.
  assert (Hend : ∀ m s2, inv None ∅ ∅ s2 → evolves s s2 → event_reads s2 = event_reads s →
    Z.of_nat (size (clients s2)) <= Z.max (Z.of_nat (size (clients s))) maxclients →
    m = arm_listener ∨ m = modify (upd_accept_paused (λ _, true)) →
    wp m (λ _ s', inv None ∅ ∅ s' ∧ evolves s s' ∧ event_reads s' = event_reads s
      ∧ ((0 < accepts s')%nat ∨ accept_paused s' = true)
      ∧ Z.of_nat (size (clients s')) <= Z.max (Z.of_nat (size (clients s))) maxclients) s2).
  { intros m s2 I2 E2 R2 S2 [->| ->].
    - apply arm_listener_spec. intros s3 Hs3 He3 Hr3 Ha. split_and!.
      + by eapply inv_same.
      + trans s2; [done|by apply same_evolves].
      + congruence.
      + destruct Ha as [->|]; [left; lia|by right].
      + destruct Hs3 as (_ & -> & _). done.
    - wp_run. split_and!; try done; [|trans s2; [done|by apply same_evolves]|by right].
      by apply (inv_same _ _ _ s2). }
  assert (R1 : event_reads s1 = event_reads s) by done.
  destruct a as [res| |scarce].
  - rewrite Hcl. destruct (Z.leb_spec maxclients (Z.of_nat (size (clients s)))) as [Hfull|Hroom]; wp_run.
    + apply Hend; auto. rewrite Hcl. lia.
    + specialize (Hres res eq_refl). set (now := steady _).
      change (upd_clients (<[res := made s1]>) (upd_heap (<[made s1 := new_client g_tls res now]>) (upd_made S s1)))
        with (opened res now s1).
      assert (I2 : inv None {[made s1]} ∅ (opened res now s1)) by (apply inv_opened; [done|by rewrite Hcl]).
      eapply wp_mono; [apply (arm_spec {[made s1]} ∅ (made s1) (new_client g_tls res now) false); [done|apply lookup_insert_eq]|].
      intros _ s2 (I3 & T3 & Hc3). pose proof (tk_doors _ _ _ T3) as D. injection D as T1 T2 T5 T4.
      cbn in T2, T4. apply Hend; auto.
      * apply (inv_mono _ ({[made s1]} ∖ {[made s1]}) ∅); [set_solver|done|]. apply inv_settle; [done|].
        rewrite (client_at _ _ _ Hc3). cbn. intros _. split; [done|]. intros Hp. discriminate Hp.
      * trans s1; [done|]. trans (opened res now s1); [|apply T3]. split; [|by exists []].
        intros c cl Hc. exists cl. split; [|done]. cbn. rewrite lookup_insert_ne; [done|]. intros <-.
        assert (Hlt : (made s1 < made s1)%nat); [|lia]. apply (lk_fresh _ _ (iv_linked _ _ _ _ I1)). by exists cl.
      * congruence.
      * pose proof (table_shrinks _ _ (iv_linked _ _ _ _ I2) (iv_linked _ _ _ _ I3) (tk_ev _ _ _ T3) T4) as Hsub.
        apply map_to_list_submseteq, submseteq_length in Hsub. rewrite !length_map_to_list in Hsub. cbn in Hsub. rewrite Hcl, map_size_insert_None in Hsub by done. lia.
  - wp_run. apply Hend; auto. rewrite Hcl. lia.
  - wp_run. set (s2 := upd_accept_failures _ s1).
    assert (Hs2 : same_clients s1 s2) by done. apply Hend.
    + by apply (inv_same _ _ _ s1).
    + trans s1; [done|by apply same_evolves].
    + done.
    + subst s2. cbn. rewrite Hcl. lia.
    + destruct scarce; auto.
Qed.

Lemma close_all l s :
  inv None ∅ ∅ s → (∀ c, c ∈ l → is_Some (heap s !! c)) →
  wp (for_each l schedule_close) (λ _ s', inv None ∅ ∅ s' ∧ steps s s') s.
Proof.
  revert s. induction l as [|c l IH]; intros s I Hl; cbn [for_each]; [by apply wp_ret|].
  apply wp_bind. eapply wp_mono; [apply (close_spec ∅ ∅ c); [by left|apply Hl; by left]|].
  intros _ s1 (I1 & T1 & _). apply talks_changes, changes_steps in T1.
  eapply wp_mono; [apply IH|].
  - eapply inv_mono; [..|exact I1]; set_solver.
  - intros c' Hc'. eexists. eapply steps_some; [done|]. apply Hl. by right.
  - intros _ s2 [I2 S2]. split; [done|by eapply steps_trans].
Qed.

Lemma sweep_spec s :
  inv None ∅ ∅ s → (0 < accepts s)%nat ∨ accept_paused s = true →
  wp (sweep g_tls walk_channels walk_clients) (λ _ s', inv None ∅ ∅ s' ∧ evolves s s' ∧ event_reads s' = event_reads s
    ∧ made s' = made s ∧ ((0 < accepts s')%nat ∨ accept_paused s' = true)) s.
Proof.
  intros I Hacc. unfold sweep. wp_run. apply wp_kernel. intros s1 Hs1 He1 Hd1. wp_run. unfold close_unauthenticated.
  wp_run. apply wp_kernel. intros s2 Hs2 He2 Hd2. wp_run. cbv beta.
  pose proof (inv_same _ _ _ _ _ Hs2 He2 (inv_same _ _ _ _ _ Hs1 He1 I)) as I2.
  assert (S2 : steps s s2).
  { split; [trans s1; by apply same_evolves|congruence]. }
  eapply wp_mono; [apply close_all; [exact I2|]|].
  { intros c [_ Hc]%list_elem_of_filter. eapply walked; [apply I2|exact Hc]. }
  intros _ s3 [I3 S3]. assert (S13 : steps s s3) by (by eapply steps_trans).
  unfold take_auth_failures. apply wp_bind, wp_zoom. wp_run.
  set (s4 := upd_accept_failures _ _). assert (Hs4 : same_clients s3 s4) by done.
  assert (I4 : inv None ∅ ∅ s4) by (by apply (inv_same _ _ _ s3)).
  destruct S13 as [E3 D3]. assert (E4 : evolves s s4) by (trans s3; [done|by apply same_evolves]).
  change (doors s4 = doors s) in D3. injection D3 as D1 D2 D5 D6.
  apply wp_when; intros Hp.
  - wp_run. apply arm_listener_spec. intros s5 Hs5 He5 Hr5 Ha. cbn in Ha, Hr5. split_and!.
    + apply (inv_same _ _ _ (upd_accept_paused (λ _, false) s4)); [done|done|]. by apply (inv_same _ _ _ s4).
    + trans s4; [done|]. by apply same_evolves.
    + rewrite Hr5. done.
    + destruct Hs5 as (_ & _ & -> & _). done.
    + destruct Ha as [->|]; [left; lia|by right].
  - split_and!; try done. change ((0 < accepts s3)%nat ∨ accept_paused s3 = true). rewrite D1, D5. done.
Qed.

End specs.
