(* ===== verification/ServerLoop.v ===== *)
(** * The running event loop

    What holds in every state the loop reaches, whatever the kernel answers
    and in whatever order completions come, and what a turn of one client does. *)

From stdpp Require Import gmap sets relations.
From S2P Require Import Prelude FsUtil Resp Config World Types State Crdt Commands PubSub Rooms RoomSpecs RoomLife Database Serving Connection ConnSpecs EventLoop LoopSpecs.

Section run.
  Context `{WW : World, SSL : OpenSsl, SOCK : Sockets} (g_tls : bool) (maxclients : Z).
  Context (walk_channels : gset bytes → list bytes) (walk_fds : gset Z → list Z) (gauge : nat → gauges).
  Context (walk_clients : nat → gmap Z nat → list nat).
  Implicit Types (s : server) (c : nat) (cl : Client).

Local Abbreviation client := (client g_tls).
Local Abbreviation perform := (perform walk_channels walk_fds gauge).
Local Abbreviation run_events := (run_events walk_channels walk_fds gauge).
Local Abbreviation loop_step := (loop_step g_tls maxclients walk_channels walk_fds gauge walk_clients).
Local Abbreviation inv := (inv g_tls).

(** *** The reference for a turn: the requests one by one *)

Fixpoint requests (fuel : nat) (buf : bytes) (pos : nat) : list (list bytes) * nat :=
  match fuel with
  | O => ([], pos)
  | S fuel =>
      match parse_request buf pos with
      | Complete (args, e) => let '(rs, e') := requests fuel buf e in (args :: rs, e')
      | _ => ([], pos)
      end
  end.

(** The replies, the messages for the sink and the database after them. *)
Fixpoint answers (f : Z) (r3 : bool) (rs : list (list bytes)) (d : db) : list bytes * list (Z * bytes) * db :=
  match rs with
  | [] => ([], [], d)
  | args :: rs =>
      let '(out, d1) := execute walk_channels walk_fds gauge f args r3 d in
      let '(replies, messages, d2) := answers f r3 rs d1 in
      (out.1 :: replies, out.2 ++ messages, d2)
  end.

(** A request for the database. *)
Definition ordinary (args : list bytes) : Prop :=
  let name := default [] (head args) in
  is_word "AUTH" name = false ∧ is_word "HELLO" name = false ∧ is_quit args = false.

(** Each event was possible when it happened. *)
Fixpoint possible_run (d : db) (es : list event) : Prop :=
  match es with
  | [] => True
  | e :: es => possible e d ∧ possible_run (perform e d).2 es
  end.

Lemma possible_run_app d es es' :
  possible_run d (es ++ es') ↔ possible_run d es ∧ possible_run (run_events d es) es'.
Proof. revert d. induction es as [|e es IH]; intros d; cbn; [tauto|]. rewrite IH. tauto. Qed.

(** The database's events in a run of the loop: commands of authenticated
    clients, ends of closed ones, the watchdog. *)
Definition allowed s (e : event) : Prop :=
  match e with Command _ _ _ | Hangup _ => licensed s e | _ => True end.

Record reached (d : db) (s : server) : Prop := {
  rc_inv : inv None ∅ ∅ s;
  rc_accepts : (0 < accepts s)%nat ∨ accept_paused s = true;
  rc_events : (∀ k, sqes k ≠ 0%nat) → (0 < event_reads s)%nat;
  rc_clients : 0 <= maxclients → Z.of_nat (size (clients s)) <= maxclients;
  rc_db : ∃ es, the_db s = run_events d es ∧ possible_run d es ∧ Forall (allowed s) es
}.

Lemma licensed_possible s d es : Forall (licensed s) es → possible_run d es.
Proof.
  revert d. induction es as [|e es IH]; intros d; [done|]. intros [He Hes]%Forall_cons.
  split; [by destruct e|by apply IH].
Qed.

Lemma older_allowed s s' e : evolves walk_channels walk_fds gauge s s' → allowed s e → allowed s' e.
Proof.
  intros [Hh _] He. destruct e as [f args r| | |f]; cbn in *; try done;
    destruct He as (c & cl & Hc & Hf & Ha); destruct (Hh c cl Hc) as (cl' & Hc' & D1 & D2 & D3);
    exists c, cl'; split_and!; try done; congruence || auto.
Qed.

(** The database's part of a step. *)
Lemma evolves_run d s s' es :
  evolves walk_channels walk_fds gauge s s' →
  the_db s = run_events d es → possible_run d es → Forall (allowed s) es →
  ∃ es', the_db s' = run_events d es' ∧ possible_run d es' ∧ Forall (allowed s') es'.
Proof.
  intros E Hd Hp Ha. destruct (ev_db _ _ _ _ _ E) as (es2 & Hd2 & Hl2). exists (es ++ es2). split_and!.
  - by rewrite run_events_app, <- Hd.
  - apply possible_run_app. split; [done|]. by eapply licensed_possible.
  - apply Forall_app. split.
    + eapply Forall_impl; [exact Ha|]. intros e. by apply older_allowed.
    + eapply Forall_impl; [exact Hl2|]. intros [] He; done.
Qed.

Lemma inv_table s s' :
  inv None ∅ ∅ s → inv None ∅ ∅ s' → evolves walk_channels walk_fds gauge s s' → made s' = made s →
  (size (clients s') ≤ size (clients s))%nat.
Proof.
  intros I I' E Hm.
  pose proof (table_shrinks _ _ _ _ _ (iv_linked _ _ _ _ _ I) (iv_linked _ _ _ _ _ I') E Hm) as Hsub.
  apply map_to_list_submseteq, submseteq_length in Hsub. by rewrite !length_map_to_list in Hsub.
Qed.

Lemma reached_step d s s' :
  reached d s → inv None ∅ ∅ s' → evolves walk_channels walk_fds gauge s s' →
  ((0 < accepts s')%nat ∨ accept_paused s' = true) →
  ((∀ k, sqes k ≠ 0%nat) → (0 < event_reads s')%nat) →
  (0 <= maxclients → Z.of_nat (size (clients s')) <= maxclients) → reached d s'.
Proof.
  intros [I _ _ _ (es & Hd & Hp & Ha)] I' E H1 H2 H3. split; try done. by eapply evolves_run.
Qed.

Lemma reached_quiet d s s' :
  reached d s → inv None ∅ ∅ s' → steps walk_channels walk_fds gauge s s' → reached d s'.
Proof.
  intros R I' [E D]. injection D as D1 D2 D3 D4. destruct (R) as [I Ha He Hm _].
  eapply reached_step; try done; [by rewrite D1, D3|by rewrite D2|].
  intros Hmax. pose proof (inv_table _ _ I I' E D4). specialize (Hm Hmax). lia.
Qed.

Context (Hwalk : ∀ k m, walk_clients k m ≡ₚ (map_to_list m).*2).

Lemma reached_next d s s' : reached d s → loop_step s s' → reached d s'.
Proof.
  intros R [|a Ha Hres|Hr Hev|t Ht| | |e He]; pose proof R as [I Hacc Hevs Hm Hdb].
  - destruct (submit_backlog_spec g_tls walk_channels walk_fds gauge ∅ ∅ s I) as [I' S']. by eapply reached_quiet.
  - destruct (accept_spec g_tls maxclients walk_channels walk_fds gauge walk_clients Hwalk a s I Ha Hres) as (I' & E' & R' & A' & M').
    eapply reached_step; try done; [by rewrite R'|]. intros Hmax. specialize (Hm Hmax). lia.
  - destruct (eventfd_spec g_tls walk_channels walk_fds gauge walk_clients Hwalk s I) as (I' & E' & A' & P' & M' & V').
    eapply reached_step; try done; [by rewrite A', P'|].
    intros Hmax. pose proof (inv_table _ _ I I' E' M'). specialize (Hm Hmax). lia.
  - destruct (poll_spec g_tls walk_channels walk_fds gauge t s I Ht) as [I' S']. by eapply reached_quiet.
  - destruct (sweep_spec g_tls walk_channels walk_fds gauge walk_clients Hwalk s I Hacc) as (I' & E' & R' & M' & A').
    eapply reached_step; try done; [by rewrite R'|].
    intros Hmax. pose proof (inv_table _ _ I I' E' M'). specialize (Hm Hmax). lia.
  - unfold first_timeout.
    assert (Hw : wp (arm_listener ;; arm_eventfd) (λ _ s', reached d s') s); [|exact Hw].
    wp_run. apply arm_listener_spec. intros s1 Hs1 He1 Hr1 Ha1. apply arm_eventfd_spec.
    intros s2 Hs2 He2 Ha2 Hp2 Hr2.
    assert (I2 : inv None ∅ ∅ s2) by (eapply inv_same; [exact Hs2|done|]; by eapply inv_same).
    assert (E2 : evolves walk_channels walk_fds gauge s s2) by (trans s1; by apply same_evolves).
    eapply reached_step; try done.
    + rewrite Ha2, Hp2. destruct Ha1 as [->|]; [left; lia|by right].
    + intros Hq. rewrite (Hr2 Hq). lia.
    + destruct Hs1 as (_ & Ec1 & _), Hs2 as (_ & Ec2 & _). by rewrite Ec2, Ec1.
  - split; try done.
    + by apply inv_db.
    + destruct Hdb as (es & Hd & Hp & Hal). exists (es ++ [e]). split_and!.
      * rewrite run_events_app, <- Hd. done.
      * apply possible_run_app. split; [done|]. rewrite <- Hd. split; [by destruct e|done].
      * apply Forall_app. split; [|apply Forall_singleton; by destruct e].
        eapply Forall_impl; [exact Hal|]. intros []; done.
Qed.

Lemma reached_start d : 0 <= max_client_buffers cfg → reached d (start d).
Proof.
  intros Hmax.
  assert (Hw : wp (arm_listener ;; arm_eventfd) (λ _ s', reached d s') (empty_server d)); [|exact Hw].
  assert (I : inv None ∅ ∅ (empty_server d)).
  { split; [split|..]; try done.
    - intros c. cbn. split; [by intros [? ?]|lia].
    - intros t Ht. by apply elem_of_nil in Ht. }
  wp_run. apply arm_listener_spec. intros s1 Hs1 He1 Hr1 Ha1. apply arm_eventfd_spec.
  intros s2 Hs2 He2 Ha2 Hp2 Hr2. split.
  - eapply inv_same; [exact Hs2|done|]. by eapply inv_same.
  - rewrite Ha2, Hp2. destruct Ha1 as [->|]; [left; lia|by right].
  - intros Hq. rewrite (Hr2 Hq). lia.
  - destruct Hs1 as (_ & Ec1 & _), Hs2 as (_ & Ec2 & _). rewrite Ec2, Ec1. cbn. by rewrite map_size_empty.
  - exists []. split_and!; [|done|done]. destruct Hs1 as (_ & _ & _ & _ & _ & _ & Ed1).
    destruct Hs2 as (_ & _ & _ & _ & _ & _ & Ed2). by rewrite Ed2, Ed1.
Qed.

Lemma reached_all d s :
  0 <= max_client_buffers cfg → rtc loop_step (start d) s → reached d s.
Proof.
  intros Hmax Hs. pose proof (reached_start d Hmax) as R.
  induction Hs as [s|s1 s2 s Hstep _ IH]; [done|]. apply IH. by eapply reached_next.
Qed.


(** ** One turn *)

(** The client [c] is [cl], and its bytes are in the module's total. *)
Definition at_turn (o : Z) c cl s : Prop := heap s !! c = Some cl ∧ accounted o (cl, net s).

(** Nothing but the client [c], the totals of [net] and the database moves. *)
Record apart (c : nat) (s s' : server) : Prop := {
  ap_clients : clients s' = clients s;
  ap_others : ∀ c', c' ≠ c → heap s' !! c' = heap s !! c'
}.

#[export] Instance apart_preorder c : PreOrder (apart c).
Proof.
  split; [by split|]. intros s1 s2 s3 [H1 H2] [H3 H4]. split; [congruence|].
  intros c' Hc. by rewrite H4, H2.
Qed.

Lemma put_apart c cl g s : apart c s (put c cl g s).
Proof. split; [done|]. intros c' Hc. cbn. by apply lookup_insert_ne. Qed.

Lemma put_at o c p s : accounted o p → at_turn o c p.1 (put c p.1 p.2 s).
Proof. intros Ha. split; [cbn; apply lookup_insert_eq|]. by destruct p. Qed.

(** Sending a reply. *)
Lemma enqueue_at o c cl data s :
  at_turn o c cl s →
  wp (on g_tls c (enqueue_output data)) (λ ok s', apart c s s' ∧ the_db s' = the_db s
    ∧ ∃ cl', heap s' !! c = Some cl' ∧ kin cl cl' ∧ quiet cl cl'
        ∧ (ok = true → at_turn o c cl' s' ∧ (ssl cl = None → stream cl' = stream cl ++ data))) s.
Proof.
  intros [Hc Hac]. apply (wp_on g_tls c cl); [done|]. eapply wp_mono; [by apply enqueue_spec|].
  intros ok [cl' g] [K Q C Hok F Pl Hcl]. cbn [fst snd] in *. split_and!; [apply put_apart|done|].
  exists cl'. split_and!; try done; [cbn; apply lookup_insert_eq|]. intros ->. split.
  - apply (put_at o c (cl', g)). by apply Hok.
  - intros Hs. by destruct (Pl Hs) as [-> _].
Qed.

Lemma flush_at o c cl s :
  at_turn o c cl s →
  wp (on g_tls c flush_output) (λ _ s', apart c s s' ∧ the_db s' = the_db s
    ∧ ∃ cl', at_turn o c cl' s' ∧ kin cl cl' ∧ quiet cl cl' ∧ stream cl' = stream cl) s.
Proof.
  intros [Hc Hac]. apply (wp_on g_tls c cl); [done|]. eapply wp_mono; [by apply flush_spec|].
  intros r [cl' g] [K Q A L St P D F]. cbn [fst snd] in *. split_and!; [apply put_apart|done|].
  exists cl'. split_and!; try done. by apply (put_at o c (cl', g)).
Qed.

Lemma erase_at o c cl e s :
  at_turn o c cl s →
  wp (on g_tls c (mod_client (upd_in (drop e)) ;; track)) (λ _ s', apart c s s' ∧ the_db s' = the_db s
    ∧ ∃ cl', at_turn o c cl' s' ∧ kin cl cl' ∧ in_buf cl' = drop e (in_buf cl) ∧ stream cl' = stream cl
        ∧ authenticated cl' = authenticated cl) s.
Proof.
  intros [Hc [[Hg Ho Hp Hn] Hh]]. apply (wp_on g_tls c cl); [done|]. unfold mod_client. wp_run.
  apply (wp_track o); [by split|]. intros [cl' g] E F Hac'. cbn [fst snd] in *.
  split_and!; [apply put_apart|done|]. exists cl'. split_and!; [by apply (put_at o c (cl', g))|by rewrite E..].
Qed.

(** *** The gate *)

Lemma request_gated o c cl args s :
  at_turn o c cl s → authenticated cl = false → ¬ (password cfg ≠ [] ∧ presents args) →
  wp (handle_request g_tls walk_channels walk_fds gauge c args) (λ _ s', apart c s s' ∧ the_db s' = the_db s
    ∧ ∃ cl', at_turn o c cl' s' ∧ in_buf cl' = in_buf cl ∧ authenticated cl' = false) s.
Proof.
  intros [Hc Hac] Hau Hno. unfold handle_request.
  assert (Hon : ∀ m : M conn bytes, wp m (λ _ p, authed (password cfg ≠ [] ∧ presents args) (cl, net s) p) (cl, net s) →
    wp (on g_tls c m) (λ _ s', apart c s s' ∧ the_db s' = the_db s
      ∧ ∃ cl', at_turn o c cl' s' ∧ in_buf cl' = in_buf cl ∧ authenticated cl' = false) s).
  { intros m Hm. apply (wp_on g_tls c cl); [done|]. eapply wp_mono; [exact Hm|]. cbn beta. intros r p Ha.
    pose proof (authed_accounted _ _ _ _ Ha Hac) as Hac'. destruct Ha as [K A1 B1 C1 D1 E1 F1 G1 H1].
    cbn [fst snd] in *. split_and!; [apply put_apart|done|]. exists p.1. split_and!; [by apply put_at|done|].
    destruct (authenticated p.1) eqn:Hp; [|done]. destruct (H1 eq_refl); [congruence|done]. }
  destruct (is_word "AUTH" _) eqn:Ha; [|destruct (is_word "HELLO" _) eqn:Hh].
  - destruct args as [|name args]; [done|]. by apply Hon, auth_spec.
  - destruct args as [|name args]; [done|]. by apply Hon, hello_spec.
  - wp_run. rewrite (client_at _ _ _ _ Hc), Hau. cbn [negb]. wp_run. split_and!; try done. by exists cl.
Qed.

Lemma run_gated fuel o c cl pos s :
  at_turn o c cl s → authenticated cl = false → ¬ admits (in_buf cl) pos →
  wp (run_commands g_tls walk_channels walk_fds gauge fuel c pos) (λ out s', apart c s s' ∧ the_db s' = the_db s
    ∧ ∃ cl', heap s' !! c = Some cl' ∧ authenticated cl' = false
        ∧ match out with Refused => True | Stopped _ _ _ _ => at_turn o c cl' s' end) s.
Proof.
  revert pos s cl. induction fuel as [|fuel IH]; intros pos s cl Hat Hau Hno; pose proof Hat as [Hc _]; cbn [run_commands].
  { apply wp_ret. split_and!; try done. by exists cl. }
  wp_run. rewrite (client_at _ _ _ _ Hc).
  destruct (parse_request (in_buf cl) pos) as [[args e]| |] eqn:Hp; [|wp_run; split_and!; try done; by exists cl..].
  destruct (is_quit args); [wp_run; split_and!; try done; by exists cl|].
  wp_run. eapply wp_mono; [apply (request_gated o c cl); try done|].
  { intros [Hne Hpr]. apply Hno. split; [done|]. exists args. split; [by eapply Requested_here|done]. }
  intros response s1 (P1 & D1 & cl1 & A1 & Hin1 & Hau1). wp_run.
  assert (Hsend : wp (if bool_decide (response = []) then ret true else on g_tls c (enqueue_output response))
    (λ ok s2, apart c s1 s2 ∧ the_db s2 = the_db s1 ∧ ∃ cl2, heap s2 !! c = Some cl2 ∧ in_buf cl2 = in_buf cl1
       ∧ authenticated cl2 = false ∧ (ok = true → at_turn o c cl2 s2)) s1).
  { case_bool_decide; [apply wp_ret; split_and!; try done; exists cl1; destruct A1; split_and!; done|].
    eapply wp_mono; [by apply (enqueue_at o c cl1)|]. intros ok s2 (P2 & D2 & cl2 & H2 & K2 & [Q1 Q2 Q3] & Hok).
    split_and!; try done. exists cl2. split_and!; try done; [congruence|]. intros Hk. by apply Hok. }
  eapply wp_mono; [exact Hsend|]. intros ok s2 (P2 & D2 & cl2 & H2 & Hin2 & Hau2 & Hok).
  assert (P : apart c s s2) by (by trans s1). assert (D : the_db s2 = the_db s) by congruence.
  destruct ok; cbn [negb]; [|wp_run; split_and!; try done; by exists cl2].
  eapply wp_mono; [apply (IH e s2 cl2); [by apply Hok|done|]|].
  - rewrite Hin2, Hin1. intros (Hne & args' & Hr & Hpr). apply Hno. split; [done|]. exists args'.
    split; [by eapply Requested_later|done].
  - intros out s3 (P3 & D3 & Hrest). split_and!; [by trans s2|congruence|done].
Qed.

Lemma process_gated o c cl s :
  at_turn o c cl s → authenticated cl = false → ¬ admits (in_buf cl) 0 →
  wp (process_buffered g_tls walk_channels walk_fds gauge c) (λ _ s', apart c s s' ∧ the_db s' = the_db s
    ∧ authenticated (client c s') = false) s.
Proof.
  intros Hat Hau Hno. unfold process_buffered. wp_run. eapply wp_mono; [by apply (run_gated _ o c cl)|].
  intros out s1 (P1 & D1 & cl1 & H1 & Hau1 & Hat1). destruct out as [|e quit malformed spent].
  { wp_run. by rewrite (client_at _ _ _ _ H1). }
  wp_run. eapply wp_mono; [by apply (erase_at o c cl1)|]. intros _ s2 (P2 & D2 & cl2 & Hat2 & _ & _ & _ & Hau2).
  assert (P : apart c s s2) by (by trans s1). assert (D : the_db s2 = the_db s) by congruence.
  rewrite Hau1 in Hau2. destruct (quit || malformed).
  - wp_run. eapply wp_mono; [by apply (enqueue_at o c cl2)|]. intros ok s3 (P3 & D3 & cl3 & H3 & K3 & [_ _ Q3] & Hok).
    apply wp_bind, wp_when; intros Hk.
    + apply wp_bind. eapply wp_mono; [apply (flush_at o c cl3); by apply Hok|].
      intros r s4 (P4 & D4 & cl4 & [H4 _] & K4 & [_ _ Q4] & _). wp_run. rewrite (client_at _ _ _ _ H4).
      split_and!; [trans s3; [by trans s2|done]|congruence..].
    + wp_run. rewrite (client_at _ _ _ _ H3). split_and!; [by trans s2|congruence..].
  - wp_run. eapply wp_mono; [by apply (flush_at o c cl2)|].
    intros r s3 (P3 & D3 & cl3 & [H3 _] & K3 & [_ _ Q3] & _).
    assert (Hend : apart c s s3 ∧ the_db s3 = the_db s ∧ authenticated (client c s3) = false).
    { rewrite (client_at _ _ _ _ H3). split_and!; [by trans s2|congruence..]. }
    destruct r; wp_run; done.
Qed.


(** *** A pipeline *)

(** The client is as it was, but for its output. *)
Record served_by (cl cl' : Client) (out : bytes) : Prop := {
  sb_kin : kin cl cl';
  sb_quiet : quiet cl cl';
  sb_stream : ssl cl = None → stream cl' = stream cl ++ out
}.

Lemma served_by_refl cl : served_by cl cl [].
Proof. split; [done..|]. intros _. by rewrite app_nil_r. Qed.

Lemma served_by_trans cl1 cl2 cl3 o1 o2 :
  served_by cl1 cl2 o1 → served_by cl2 cl3 o2 → served_by cl1 cl3 (o1 ++ o2).
Proof.
  intros [K1 Q1 S1] [K2 Q2 S2]. split; [by trans cl2..|]. intros Hs.
  rewrite S2, S1, app_assoc by (done || by apply K1). done.
Qed.

Lemma run_pipeline fuel o c cl pos s rs e replies d' :
  at_turn o c cl s → authenticated cl = true →
  requests fuel (in_buf cl) pos = (rs, e) → Forall ordinary rs →
  answers (fd cl) (resp3 cl) rs (the_db s) = (replies, [], d') →
  wp (run_commands g_tls walk_channels walk_fds gauge fuel c pos) (λ out s',
    match out with
    | Refused => True
    | Stopped e' quit _ _ => e' = e ∧ quit = false ∧ the_db s' = d'
        ∧ ∃ cl', at_turn o c cl' s' ∧ served_by cl cl' (mjoin replies)
    end) s.
Proof.
  revert pos s cl rs replies. induction fuel as [|fuel IH]; intros pos s cl rs replies Hat Hau Hrs Hord Hans;
    pose proof Hat as [Hc Hac]; cbn [run_commands requests] in *.
  { injection Hrs as <- <-. injection Hans as <- <-. apply wp_ret. split_and!; try done.
    exists cl. split; [done|apply served_by_refl]. }
  wp_run. rewrite (client_at _ _ _ _ Hc). destruct (parse_request (in_buf cl) pos) as [[args e1]| |] eqn:Hp.
  2, 3: injection Hrs as <- <-; injection Hans as <- <-; wp_run; split_and!; try done;
    exists cl; split; [done|apply served_by_refl].
  destruct (requests fuel (in_buf cl) e1) as [rs1 e2] eqn:Hrs1. injection Hrs as <- <-.
  apply Forall_cons in Hord as [(Hw1 & Hw2 & Hq) Hord]. rewrite Hq. cbn [answers] in Hans.
  destruct (execute _ _ _ _ _ _ (the_db s)) as [[response messages] d1] eqn:Hx.
  destruct (answers (fd cl) (resp3 cl) rs1 d1) as [[bs ms] d2] eqn:Ha. cbn [fst snd] in Hans.
  injection Hans as <- Hm <-. apply app_eq_nil in Hm as [-> ->].
  apply wp_bind. unfold handle_request. rewrite Hw1, Hw2. wp_run. rewrite (client_at _ _ _ _ Hc), Hau. cbn [negb].
  wp_run. unfold in_db. apply wp_zoom. unfold wp at 1. rewrite Hx. cbn [fst snd for_each]. wp_run.
  set (s1 := upd_the_db (λ _, d1) s). assert (Hat1 : at_turn o c cl s1) by (by split).
  assert (Hsend : wp (if bool_decide (response = []) then ret true else on g_tls c (enqueue_output response))
    (λ ok s2, ok = true → the_db s2 = d1 ∧ ∃ cl2, at_turn o c cl2 s2 ∧ served_by cl cl2 response) s1).
  { case_bool_decide as Hn.
    - apply wp_ret. intros _. split; [done|]. exists cl. split; [done|]. rewrite Hn. apply served_by_refl.
    - eapply wp_mono; [by apply (enqueue_at o c cl)|]. intros ok s2 (P2 & D2 & cl2 & H2 & K2 & Q2 & Hok) Hk.
      split; [done|]. exists cl2. destruct (Hok Hk) as [Hat2 Hs2]. split; [done|]. by split. }
  eapply wp_mono; [exact Hsend|]. intros ok s2 Hok. destruct ok; cbn [negb]; [|by wp_run].
  destruct (Hok eq_refl) as (D2 & cl2 & Hat2 & Sb2). pose proof Sb2 as [K2 [Q1 Q2 Q3] _].
  eapply wp_mono; [apply (IH e1 s2 cl2 rs1 bs); try done|].
  - by rewrite Q3.
  - by rewrite Q1.
  - by rewrite (kn_fd _ _ K2), Q2, D2.
  - intros out s3 H3. destruct out as [|e' quit malformed spent]; [done|].
    destruct H3 as (He & Hqt & Hd & cl3 & Hat3 & Sb3). split_and!; try done. exists cl3. split; [done|].
    by eapply served_by_trans.
Qed.

Lemma process_pipeline o c cl s rs e replies d' :
  at_turn o c cl s → authenticated cl = true → ssl cl = None →
  requests MAX_COMMANDS_PER_TURN (in_buf cl) 0 = (rs, e) → Forall ordinary rs →
  answers (fd cl) (resp3 cl) rs (the_db s) = (replies, [], d') →
  wp (process_buffered g_tls walk_channels walk_fds gauge c) (λ step s', step ≠ Drop →
    the_db s' = d' ∧ in_buf (client c s') = drop e (in_buf cl)
    ∧ stream (client c s') = stream cl ++ mjoin replies) s.
Proof.
  intros Hat Hau Hs Hrs Hord Hans. unfold process_buffered. wp_run.
  eapply wp_mono; [by eapply run_pipeline|]. intros out s1 H1. destruct out as [|e1 quit malformed spent]; [by wp_run|].
  destruct H1 as (-> & -> & D1 & cl1 & Hat1 & [K1 [Q1 Q2 Q3] S1]). wp_run.
  eapply wp_mono; [by apply (erase_at o c cl1)|]. intros _ s2 (_ & D2 & cl2 & Hat2 & K2 & Hin2 & St2 & _).
  cbn [orb]. destruct malformed.
  - wp_run. eapply wp_mono; [by apply (enqueue_at o c cl2)|]. intros ok s3 _.
    apply wp_bind. by unfold wp.
  - wp_run. eapply wp_mono; [by apply (flush_at o c cl2)|].
    intros r s3 (_ & D3 & cl3 & [H3 _] & _ & [Q3a _ _] & St3).
    assert (Hend : the_db s3 = d' ∧ in_buf (client c s3) = drop e (in_buf cl)
      ∧ stream (client c s3) = stream cl ++ mjoin replies).
    { rewrite (client_at _ _ _ _ H3). split_and!; [congruence|congruence|].
      by rewrite St3, St2, S1. }
    destruct r; wp_run; done.
Qed.

End run.

(** ** A sample: one client on a kernel that never fails *)

Definition no_ssl : OpenSsl.
Proof.
  refine {| session := unit; new_session := tt; ssl_feed := λ s _, s; ssl_read := λ s, ([], s);
    ssl_wants_read := λ _, true; ssl_write := λ s _, (true, s); ssl_drain := λ s, ([], s);
    ssl_buffered := λ _, 0%nat |}. done.
Defined.

(** Every read finds [input], every write goes out, time stands still. *)
Definition calm_sockets (input : bytes) (Hi : (0 < length input ≤ READ_CHUNK)%nat) : Sockets.
Proof.
  refine {| sends := λ _, ([Some 1000%nat], true); recvs := λ _, ([Some input], true);
    steady := λ _, 0; sqes := λ _, 4096%nat |}. intros k. cbn. by apply Forall_singleton.
Defined.

Definition ping : bytes := str "PING" ++ CRLF.

Lemma ping_chunk : (0 < length ping ≤ READ_CHUNK)%nat.
Proof. split; [by apply Nat.ltb_lt; vm_compute|by apply Nat.leb_le; vm_compute]. Qed.

Definition calm_ping : Sockets := calm_sockets ping ping_chunk.

Definition in_order (k : nat) (m : gmap Z nat) : list nat := (map_to_list m).*2.

Definition no_gauges (k : nat) : gauges := Gauges 0 0 0 0 0 0 [].

Section sample.
  Context (c : config).
Local Instance sample_world : World := calm c (2 ^ 32).
Local Existing Instances no_ssl calm_ping.

Local Abbreviation step := (loop_step false 100 elements elements no_gauges in_order).

Definition sample_start : server := start (init_db (init_shared None ∅)).
Definition sample_accepted : server := (on_accept false 100 (Accepted 5) sample_start).2.
Definition sample_armed : server := (submit_backlog false sample_accepted).2.
Definition sample_served : server := (on_poll false elements elements no_gauges (Ticket 0 false) sample_armed).2.

End sample.

Lemma sample_walk k m : in_order k m ≡ₚ (map_to_list m).*2.
Proof. done. Qed.

Lemma sample_run :
  let W := calm default_config (2 ^ 32) in
  rtc (loop_step (WW := W) (SSL := no_ssl) (SOCK := calm_ping) false 100 elements elements no_gauges in_order)
    (start (SOCK := calm_ping) (init_db (init_shared None ∅))) (sample_served default_config).
Proof.
  intros W. eapply rtc_l; [apply (Loop_accept (WW := W) (SSL := no_ssl) (SOCK := calm_ping) false 100 elements elements no_gauges in_order _ (Accepted 5))|].
  { by apply Nat.ltb_lt; vm_compute. }
  { by intros res [= <-]. }
  eapply rtc_l; [apply Loop_submit|].
  apply rtc_once.
  apply (Loop_poll (WW := W) (SSL := no_ssl) (SOCK := calm_ping) false 100 elements elements no_gauges in_order _ (Ticket 0 false)).
  vm_compute. by left.
Qed.

(** ** Properties *)

(** C4: The clients, their polls and their buffers are accounted for in every
    state the event loop reaches, whatever completions come in whatever order.
    The table [clients] holds exactly the open objects, each under its own
    descriptor, although objects outlive their descriptors; there are at most
    SOMNIUM_MAXCLIENTS of them. Every poll ticket, in the backlog or in the
    ring, names an object that is still there, and of an open one there is
    exactly one ticket of each kind that its flags [read_armed] and [write_armed]
    say is on its way, and none of the other. Every object's share [held] is the
    size of its two buffers, nothing once it is closed; and the total the budget
    is compared with is the 64-bit sum of the shares. *)
Theorem connections_accounted `{WW : World, SSL : OpenSsl, SOCK : Sockets} g_tls maxclients
    walk_channels walk_fds gauge walk_clients d s :
  (∀ k m, walk_clients k m ≡ₚ (map_to_list m).*2) → 0 <= max_client_buffers cfg →
  rtc (loop_step g_tls maxclients walk_channels walk_fds gauge walk_clients) (start d) s →
  (∀ f c, clients s !! f = Some c ↔ ∃ cl, heap s !! c = Some cl ∧ fd cl = f ∧ closed cl = false)
  ∧ (0 <= maxclients → Z.of_nat (size (clients s)) <= maxclients)
  ∧ (∀ t, t ∈ arm_backlog s ++ ring s → is_Some (heap s !! t_client t))
  ∧ (∀ c cl, heap s !! c = Some cl → closed cl = false →
       count (Ticket c false) (arm_backlog s ++ ring s) = (if read_armed cl then 1 else 0)%nat
       ∧ count (Ticket c true) (arm_backlog s ++ ring s) = (if write_armed cl then 1 else 0)%nat)
  ∧ (∀ c cl, heap s !! c = Some cl → held cl = if closed cl then 0 else len (in_buf cl) + len (out_buf cl))
  ∧ g_client_buffers (net s) = wrap64 (map_sum held (heap s)).
Proof.
  intros Hw Hmax Hs. destruct (reached_all g_tls maxclients walk_channels walk_fds gauge walk_clients Hw d s Hmax Hs)
    as [[L _ _ _ _] _ _ Hm _]. split_and!; [|done|apply L| | |apply L].
  - intros f c. split; [apply L|]. intros (cl & Hc & <- & Ho). by apply L.
  - intros c cl Hc Ho. split; [exact (lk_armed _ _ L c false cl Hc Ho)|exact (lk_armed _ _ L c true cl Hc Ho)].
  - intros c cl Hc. by apply (lk_held _ _ L c cl).
Qed.

Lemma connections_accounted_witness :
  let s := sample_served default_config in
  clients s !! 5 = Some 0%nat ∧ count (Ticket 0 false) (arm_backlog s ++ ring s) = 1%nat
  ∧ g_client_buffers (net s) = wrap64 (map_sum held (heap s)).
Proof.
  intros s. pose proof (connections_accounted (WW := calm default_config (2 ^ 32)) (SSL := no_ssl) (SOCK := calm_ping)
    false 100 elements elements no_gauges in_order _ s sample_walk ltac:(by apply Z.leb_le; vm_compute) sample_run)
    as (_ & _ & _ & Hn & _ & Hg).
  assert (Hc : heap s !! 0%nat = Some (client (WW := calm default_config (2 ^ 32)) false 0 s)) by (by vm_compute).
  split; [by vm_compute|]. split; [|exact Hg]. exact (proj1 (Hn 0%nat _ Hc eq_refl)).
Defined.

(** C7: No client is forgotten. In every state the loop reaches, each open
    client has exactly one poll for reading on its way (in the backlog or in the
    ring) and, while output waits, exactly one for writing; never two of a kind.
    A complete request that the budget of a turn left in the buffer is covered by
    a signalled eventfd, whose read is in the ring as long as the ring gives out
    entries, so serving can go on. And the listener is armed, or the sweep will
    arm it. *)
Theorem no_client_forgotten `{WW : World, SSL : OpenSsl, SOCK : Sockets} g_tls maxclients
    walk_channels walk_fds gauge walk_clients d s :
  (∀ k m, walk_clients k m ≡ₚ (map_to_list m).*2) → 0 <= max_client_buffers cfg →
  rtc (loop_step g_tls maxclients walk_channels walk_fds gauge walk_clients) (start d) s →
  (∀ c cl, heap s !! c = Some cl → closed cl = false →
     let tickets w := count (Ticket c w) (arm_backlog s ++ ring s) in
     tickets false = 1%nat ∧ (tickets true ≤ 1)%nat
     ∧ (0 < pending_out cl → tickets true = 1%nat)
     ∧ (∀ args e, parse_request (in_buf cl) 0 = Complete (args, e) →
        0 < eventfd s
        ∧ ((∀ k, sqes k ≠ 0%nat) → ∃ s', loop_step g_tls maxclients walk_channels walk_fds gauge walk_clients s s'
             ∧ s' = (on_eventfd g_tls walk_channels walk_fds gauge walk_clients s).2)))
  ∧ ((0 < accepts s)%nat ∨ accept_paused s = true).
Proof.
  intros Hw Hmax Hs. destruct (reached_all g_tls maxclients walk_channels walk_fds gauge walk_clients Hw d s Hmax Hs)
    as [[L A I _ _] Ha He _ _]. split; [|done]. intros c cl Hc Ho tickets.
  destruct (A c cl Hc Ho (not_elem_of_empty c)) as [A1 A2].
  assert (Hn : ∀ w, tickets w = if armed w cl then 1%nat else 0%nat) by (intros w; by apply (lk_armed _ _ L)).
  split_and!.
  - rewrite Hn. cbn. by rewrite A1.
  - rewrite Hn. destruct (armed true cl); lia.
  - intros Hp. rewrite Hn. cbn. by rewrite A2.
  - intros args e Hp. destruct (I c cl Hc Ho (not_elem_of_empty c)) as [Hev|Hidle]; [|by destruct (Hidle args e)].
    split; [done|]. intros Hq. eexists. split; [|done]. apply Loop_event; [by apply He|done].
Qed.

Lemma no_client_forgotten_witness :
  let s := sample_served default_config in count (Ticket 0 false) (arm_backlog s ++ ring s) = 1%nat.
Proof.
  intros s. pose proof (no_client_forgotten (WW := calm default_config (2 ^ 32)) (SSL := no_ssl) (SOCK := calm_ping)
    false 100 elements elements no_gauges in_order _ s sample_walk ltac:(by apply Z.leb_le; vm_compute) sample_run) as [Hx _].
  assert (Hc : heap s !! 0%nat = Some (client (WW := calm default_config (2 ^ 32)) false 0 s)) by (by vm_compute).
  refine (proj1 (Hx 0%nat _ Hc _)). by vm_compute.
Defined.

(** C8: Without TLS the buffers of the clients are bounded. In every state the
    loop reaches, the bytes in the buffers of all open clients together are at
    most SOMNIUM_MAX_CLIENT_BUFFERS (and the 64-bit counter is their exact sum);
    the output waiting for a client is at most 16 KiB before it authenticates and
    MAX_REPLY after, its input less than its cap and one read. *)
Theorem buffers_bounded `{WW : World, SSL : OpenSsl, SOCK : Sockets} maxclients
    walk_channels walk_fds gauge walk_clients d s :
  (∀ k m, walk_clients k m ≡ₚ (map_to_list m).*2) → 0 <= max_client_buffers cfg < 2 ^ 63 →
  rtc (loop_step false maxclients walk_channels walk_fds gauge walk_clients) (start d) s →
  map_sum now_held (heap s) = g_client_buffers (net s)
  ∧ 0 <= g_client_buffers (net s) <= max_client_buffers cfg
  ∧ (∀ c cl, heap s !! c = Some cl →
       0 <= pending_out cl <= (if authenticated cl then 32 * 1024 * 1024 else 16 * 1024)
       ∧ len (in_buf cl) < (if authenticated cl then 128 * 1024 * 1024 else 16 * 1024) + 16384).
Proof.
  intros Hw [Hmax Hsane] Hs.
  destruct (reached_all false maxclients walk_channels walk_fds gauge walk_clients Hw d s Hmax Hs)
    as [[L _ _ B _] _ _ _ _]. destruct (B (conj eq_refl (conj Hsane Hmax))) as [_ B2 B3].
  assert (E : map_sum now_held (heap s) = map_sum held (heap s)).
  { apply map_sum_ext. intros c cl Hc. symmetry. by apply (lk_held _ _ L c cl). }
  assert (H0 : 0 <= map_sum held (heap s)).
  { apply map_sum_nonneg. intros c cl Hc. by apply (lk_off _ _ L c cl). }
  cbn [from_option] in B3. rewrite (lk_total _ _ L), wrap64_small by ulia.
  split; [done|]. split; [lia|]. intros c cl Hc. destruct (B2 c cl Hc) as [C1 C2].
  pose proof (lk_off _ _ L c cl Hc) as [Hoff _]. unfold in_output_cap, output_cap, input_cap, pending_out, len in *.
  change (Z.of_nat READ_CHUNK) with 16384 in C2.
  unfold MAX_REPLY, MAX_UNAUTH_BUFFER, MAX_INPUT_BUFFER in *. split; [lia|done].
Qed.

Lemma buffers_bounded_witness :
  let s := sample_served default_config in 0 <= g_client_buffers (net s) <= 2 ^ 30.
Proof.
  intros s. exact (proj1 (proj2 (buffers_bounded (WW := calm default_config (2 ^ 32)) (SSL := no_ssl) (SOCK := calm_ping)
    100 elements elements no_gauges in_order _ s sample_walk
    ltac:(split; [by apply Z.leb_le; vm_compute|by apply Z.ltb_lt; vm_compute]) sample_run))).
Defined.

(** A possible run is a run of [server_step] while memory is addressable. *)
Lemma run_steps `{World} walk_channels walk_fds gauge d es :
  possible_run walk_channels walk_fds gauge d es →
  (∀ k, addressable_db (run_events walk_channels walk_fds gauge d (take k es))) →
  rtc (server_step walk_channels walk_fds gauge) d (run_events walk_channels walk_fds gauge d es).
Proof.
  revert d. induction es as [|e es IH]; intros d; [done|]. intros [He Hes] Ha.
  eapply rtc_l; [apply (Server_step _ _ _ d e He), (Ha 0%nat)|]. apply IH; [done|]. intros k. apply (Ha (S k)).
Qed.

(** C2: The event loop refines the database server. Whatever the loop has done,
    the database is what a sequence of events of the server made of its first
    state, each possible when it happened: commands, only under the descriptor
    of a client that has authenticated; ends of connections, only of clients
    that are closed; and the watchdog's work. So, while memory is addressable,
    the loop's runs are runs of [server_step], whose invariant holds. *)
Theorem loop_refines_database `{WW : World, SSL : OpenSsl, SOCK : Sockets} g_tls maxclients
    walk_channels walk_fds gauge walk_clients d s :
  (∀ k m, walk_clients k m ≡ₚ (map_to_list m).*2) → 0 <= max_client_buffers cfg →
  rtc (loop_step g_tls maxclients walk_channels walk_fds gauge walk_clients) (start d) s →
  ∃ es, the_db s = run_events walk_channels walk_fds gauge d es
    ∧ possible_run walk_channels walk_fds gauge d es
    ∧ Forall (λ e, match e with
        | Command f _ _ => ∃ c cl, heap s !! c = Some cl ∧ fd cl = f ∧ authenticated cl = true
        | Hangup f => ∃ c cl, heap s !! c = Some cl ∧ fd cl = f ∧ closed cl = true
        | Expire _ _ | Idle _ => True
        end) es
    ∧ ((∀ k, addressable_db (run_events walk_channels walk_fds gauge d (take k es))) →
       rtc (server_step walk_channels walk_fds gauge) d (the_db s)).
Proof.
  intros Hw Hmax Hs. destruct (reached_all g_tls maxclients walk_channels walk_fds gauge walk_clients Hw d s Hmax Hs)
    as [_ _ _ _ (es & Hd & Hp & Ha)].
  exists es. split_and!; [done|done|by eapply Forall_impl; [exact Ha|intros []]|].
  intros Hadr. rewrite Hd. by apply run_steps.
Qed.

Lemma loop_refines_database_witness :
  let W := calm default_config (2 ^ 32) in
  let s := sample_served default_config in
  ∃ es, the_db s = run_events elements elements no_gauges (init_db (init_shared None ∅)) es.
Proof.
  intros W s. destruct (loop_refines_database (WW := calm default_config (2 ^ 32)) (SSL := no_ssl) (SOCK := calm_ping)
    false 100 elements elements no_gauges in_order _ s sample_walk ltac:(by apply Z.leb_le; vm_compute) sample_run)
    as (es & Hd & _). exists es. exact Hd.
Defined.

(** C6: The gate. The credentials are right exactly when the user is "default"
    and the password is the configured one, byte for byte. In a turn of a client
    that is not authenticated, when no request of its buffer presents them (AUTH
    with the password, or HELLO with the AUTH option), nothing is executed: the
    database, the table of clients and every other client are untouched, and the
    client is still not authenticated. *)
Theorem auth_gate `{WW : World, SSL : OpenSsl, SOCK : Sockets} g_tls walk_channels walk_fds gauge o c cl s :
  heap s !! c = Some cl → accounted o (cl, net s) → authenticated cl = false →
  (∀ user pass, credentials_ok user pass (password cfg) = true ↔ user = str "default" ∧ pass = password cfg)
  ∧ ((∀ args, requested (in_buf cl) 0 args → ¬ presents args) →
     let s' := (process_buffered g_tls walk_channels walk_fds gauge c s).2 in
     the_db s' = the_db s ∧ clients s' = clients s
     ∧ (∀ c', c' ≠ c → heap s' !! c' = heap s !! c')
     ∧ authenticated (client g_tls c s') = false).
Proof.
  intros Hc Hac Hau. split; [intros; apply credentials_ok_spec|]. intros Hno s'.
  destruct (process_gated g_tls walk_channels walk_fds gauge o c cl s (conj Hc Hac) Hau) as (P & D & A).
  - intros (_ & args & Hr & Hp). by apply (Hno args).
  - by destruct P.
Qed.

(** A configuration with a password. *)
Definition guarded_config : config :=
  default default_config (load_config (λ _, Some (Z.shiftl 127 24))
    (λ k, if bool_decide (k = str "SOMNIUM_PASSWORD") then Some (str "pw") else None)).

(** A server with one client that sent [input]. *)
Definition one_client `{WW : World, SSL : OpenSsl} (input : bytes) (auth : bool) : server :=
  let cl := upd_in (λ _, input) (new_client false 5 0) in
  let cl := if auth then set_authenticated cl else cl in
  put 0 (set_held (len input) cl) (Totals (len input) 0 0)
    (upd_clients (λ _, {[5 := 0%nat]}) (upd_made (λ _, 1%nat) (empty_server (init_db (init_shared None ∅))))).

Lemma one_client_accounted `{WW : World, SSL : OpenSsl} input auth :
  len input < 2 ^ 64 →
  let s := one_client input auth in
  accounted 0 (client false 0 s, net s) ∧ heap s !! 0%nat = Some (client false 0 s).
Proof.
  intros Hl s. assert (Hh : heap s !! 0%nat = Some (client false 0 s)) by done. split; [|done].
  assert (H0 : 0 <= len input) by ulia.
  assert (Hf : client false 0 s = set_held (len input)
    (let cl := upd_in (λ _, input) (new_client false 5 0) in if auth then set_authenticated cl else cl)) by done.
  rewrite Hf. split; [split|].
  - change (len input = wrap64 (0 + len input)). rewrite wrap64_small; [done|]. unfold is_u64, UINT64_MAX. lia.
  - by destruct auth.
  - lia.
  - exact H0.
  - destruct auth; unfold now_held; cbn; change (len []) with 0; lia.
Qed.

Lemma auth_gate_witness :
  let W := calm guarded_config (2 ^ 32) in
  let s := one_client (SSL := no_ssl) ping false in
  password cfg = str "pw"
  ∧ the_db (process_buffered (SSL := no_ssl) (SOCK := calm_ping) false elements elements no_gauges 0 s).2 = the_db s.
Proof.
  intros W s. split; [by vm_compute|].
  destruct (one_client_accounted (WW := W) (SSL := no_ssl) ping false ltac:(by apply Z.ltb_lt; vm_compute)) as [Ha Hc].
  refine (proj1 (proj2 (auth_gate (WW := W) (SSL := no_ssl) (SOCK := calm_ping) false elements elements no_gauges 0 0
    _ s Hc Ha ltac:(by vm_compute)) _)).
  intros args Hr.
  assert (E : args = [str "PING"]).
  { inversion Hr as [pos a e Hp|pos first e a Hp Hr2]; vm_compute in Hp; [by injection Hp as <- _|].
    injection Hp as <- <-. inversion Hr2 as [pos2 a2 e2 Hp2|pos2 first2 e2 a2 Hp2 _]; by vm_compute in Hp2. }
  subst args. intros Hp. inversion Hp.
Defined.

(** C10: A pipeline is its requests one by one. A turn of an authenticated client
    over plain text takes the complete requests of the buffer in order, up to the
    budget of 8192; when none is AUTH, HELLO or QUIT and none sends messages, and
    the turn does not end the connection, then the database is the one that
    executing them one after the other gives, exactly their bytes leave the
    buffer, and the client's output (what the socket took and what waits) grows
    by exactly their replies, in order, whatever the socket accepted. *)
Theorem pipeline_in_order `{WW : World, SSL : OpenSsl, SOCK : Sockets} g_tls walk_channels walk_fds gauge
    o c cl s rs e replies d' :
  heap s !! c = Some cl → accounted o (cl, net s) → authenticated cl = true → ssl cl = None →
  requests MAX_COMMANDS_PER_TURN (in_buf cl) 0 = (rs, e) → Forall ordinary rs →
  answers walk_channels walk_fds gauge (fd cl) (resp3 cl) rs (the_db s) = (replies, [], d') →
  let '(step, s') := process_buffered g_tls walk_channels walk_fds gauge c s in
  step ≠ Drop →
  the_db s' = d' ∧ in_buf (client g_tls c s') = drop e (in_buf cl)
  ∧ stream (client g_tls c s') = stream cl ++ mjoin replies.
Proof.
  intros Hc Hac Hau Hs Hrs Hord Hans.
  pose proof (process_pipeline g_tls walk_channels walk_fds gauge o c cl s rs e replies d'
    (conj Hc Hac) Hau Hs Hrs Hord Hans) as Hw.
  unfold wp in Hw. by destruct (process_buffered _ _ _ _ _ s).
Qed.

Lemma pipeline_in_order_witness :
  let W := calm default_config (2 ^ 32) in
  let s := one_client (SSL := no_ssl) (str "ECHO a" ++ CRLF ++ str "PING" ++ CRLF ++ str "PI") true in
  let s' := (process_buffered (SSL := no_ssl) (SOCK := calm_ping) false elements elements no_gauges 0 s).2 in
  in_buf (client (SSL := no_ssl) false 0 s') = str "PI"
  ∧ stream (client (SSL := no_ssl) false 0 s') = bulk_string (str "a") ++ reply "+PONG".
Proof.
  intros W s s'.
  destruct (one_client_accounted (WW := W) (SSL := no_ssl) (str "ECHO a" ++ CRLF ++ str "PING" ++ CRLF ++ str "PI") true
    ltac:(by apply Z.ltb_lt; vm_compute)) as [Ha Hc].
  pose proof (pipeline_in_order (WW := W) (SSL := no_ssl) (SOCK := calm_ping) false elements elements no_gauges 0 0
    _ s [[str "ECHO"; str "a"]; [str "PING"]] 14 [bulk_string (str "a"); reply "+PONG"]
    (answers elements elements no_gauges 5 false [[str "ECHO"; str "a"]; [str "PING"]] (the_db s)).2
    Hc Ha ltac:(done) ltac:(done) ltac:(by vm_compute) ltac:(by repeat constructor) ltac:(by vm_compute)) as Hx.
  assert (Hstep : (process_buffered (SSL := no_ssl) (SOCK := calm_ping) false elements elements no_gauges 0 s).1 = Done)
    by (by vm_compute).
  subst s'. destruct (process_buffered _ _ _ _ 0 s) as [step s']. cbn [fst] in Hstep. subst step.
  destruct (Hx ltac:(done)) as (_ & Hin & Hst). split; [etrans; [exact Hin|by vm_compute]|etrans; [exact Hst|by vm_compute]].
Defined.
