(* ===== verification/Startup.v ===== *)
(** * Starting up and maintenance (src/main.cpp, src/server/watchdog.cpp)

    [fit_fd_limit], which makes room for the clients' descriptors or lowers
    their number, and the turns of the watchdog's thread. *)

From S2P Require Import Prelude Resp Config World Types State Rooms RoomSpecs RoomLife.

(** [rlimit]. *)
Record limits := Limits { rlim_cur : Z; rlim_max : Z }.

Definition RLIM_INFINITY : Z := UINT64_MAX.

Definition reserved (c : config) : Z := 32 + 2 * len (peers c).

Definition want (c : config) : Z := Z.min (maxclients c) (2 ^ 30) + reserved c.

(** The limit in force once it was raised as far as the hard limit allows;
    [setrlimit] succeeds with [raise]. *)
Definition limit_after (c : config) (lim : limits) (raise : limits → bool) : limits :=
  if rlim_cur lim <? want c then
    let raised := Limits (if rlim_max lim =? RLIM_INFINITY then want c else Z.min (want c) (rlim_max lim))
                    (rlim_max lim) in
    if raise raised then raised else lim
  else lim.

(** The number of clients to serve; [None]: the server does not start.
    [getrlimit] gave [lim] or failed. *)
Definition fit_fd_limit (c : config) (lim : option limits) (raise : limits → bool) : option Z :=
  match lim with
  | None => Some (maxclients c)
  | Some lim =>
      let lim := limit_after c lim raise in
      if want c <=? rlim_cur lim then Some (maxclients c)
      else if rlim_cur lim <=? reserved c then None
      else Some (rlim_cur lim - reserved c)
  end.

(** The descriptors fit: the limit in force covers the clients (2^30 of them
    at most) and the server's own, and the number of clients stays positive and
    is never raised. *)
Lemma fd_limit_fits c lim raise n :
  0 < maxclients c → fit_fd_limit c (Some lim) raise = Some n →
  0 < n <= maxclients c ∧ Z.min n (2 ^ 30) + reserved c <= rlim_cur (limit_after c lim raise).
Proof.
  intros Hm Hn. unfold fit_fd_limit in Hn. set (lim' := limit_after c lim raise) in *. unfold want in Hn.
  destruct (Z.leb_spec (Z.min (maxclients c) (2 ^ 30) + reserved c) (rlim_cur lim')); [injection Hn as <-; lia|].
  destruct (Z.leb_spec (rlim_cur lim') (reserved c)); [done|]. injection Hn as <-. lia.
Qed.

(** The limit is never lowered. *)
Lemma limit_never_lowered c lim raise :
  rlim_cur lim <= rlim_max lim → rlim_cur lim <= rlim_cur (limit_after c lim raise).
Proof.
  intros Hle. unfold limit_after. destruct (Z.ltb_spec (rlim_cur lim) (want c)); [|lia].
  destruct (raise _); [|lia]. cbn [rlim_cur]. destruct (_ =? _); lia.
Qed.

(** One turn of the watchdog, every half second: every tenth looks for expired
    keys and idle rooms. *)
Definition watchdog_turn `{World} (running : bool) (tick : Z) : M db Z :=
  if negb running then ret tick else
  let tick := tick + 1 in
  when (Z.rem tick 10 =? 0) (clean_expired_keys ;; hibernate_inactive_rooms) ;;
  ret tick.

(** A turn keeps the invariant of the database and its budget of rooms. *)
Lemma watchdog_turn_ok `{World} running tick d :
  db_ok d → addressable_db (clean_expired_keys d).2 →
  let d' := (watchdog_turn running tick d).2 in db_ok d' ∧ active_rooms d' <= active_rooms d.
Proof.
  intros Hok Hadr.
  assert (Hw : wp (watchdog_turn running tick) (λ _ d', db_ok d' ∧ active_rooms d' <= active_rooms d) d); [|exact Hw].
  unfold watchdog_turn. destruct running; cbn [negb]; [|by apply wp_ret].
  apply wp_bind, wp_when; intros _; [|by apply wp_ret].
  destruct (clean_expired_keys_spec d Hok) as (Hok1 & Ha & _).
  destruct (idle_rooms_hibernate _ Hok1 Hadr) as (Hok2 & Hle & _).
  apply wp_bind. change (wp hibernate_inactive_rooms (λ _ s, wp (ret (tick + 1))
    (λ _ d', db_ok d' ∧ active_rooms d' <= active_rooms d) s) (clean_expired_keys d).2).
  apply wp_ret. rewrite <- Ha. done.
Qed.
