(* ===== verification/Boot.v ===== *)
(** * The start of the server (src/main.cpp, main)

    [main] up to its event loop: the configuration, the limit of descriptors,
    the certificate, the exporter, the signals, the listening socket and the
    ring, and only then the data. The answers of the kernel, of OpenSSL and the
    environment are the class [Host]; the process is a record. A [return 1] is
    [false]. *)

From stdpp Require Import gmap sets relations.
From S2P Require Import Prelude FsUtil Resp Hlc Config World Types State Aof CommandSpecs PubSub Rooms RoomSpecs RoomLife Persistence PersistSpecs Database Serving Replicator Metrics Connection ConnSpecs EventLoop LoopSpecs ServerLoop Startup.

(** What the environment, the kernel and OpenSSL answer. *)
Class Host := {
  getenv : bytes → option bytes;
  (** [inet_pton(AF_INET, ...)]: the address in host order. *)
  inet_pton : bytes → option Z;
  (** [getrlimit] and [setrlimit] of [RLIMIT_NOFILE]. *)
  nofile : option limits;
  raise : limits → bool;
  (** [SSL_CTX_new] and the calls on the context. *)
  ssl_ctx_new : bool;
  set_min_proto : bool;
  use_certificate_chain_file : bytes → bool;
  use_PrivateKey_file : bytes → bool;
  check_private_key : bytes → bytes → bool;
  new_eventfd : Z;
  (** [bind] to an address and a port, in host order. *)
  bind_to : Z → Z → bool;
  io_uring_queue_init : Z → bool;
  (** What the state file of a peer holds. *)
  saved_offset : bytes → bytes → option (Z * nat)
}.

Inductive signal := SIGPIPE | SIGXFSZ.

Global Instance signal_eq_dec : EqDecision signal.
Proof. solve_decision. Defined.

(** The files of the working directory the database owns: the log, the
    snapshots and the cold file. *)
Record directory := Directory {
  log_file : option bytes;
  snapshot_files : gmap bytes bytes;
  cold_content : bytes
}.

Section process.
  Context `{SSL : OpenSsl}.

(** The process: what it inherits, the globals of main.cpp, the copy of
    [net::init], the threads and the directory. *)
Record process := Process {
  umask_ : Z;
  the_cfg : config;
  fd_limit : option limits;
  g_tls : bool;
  net_init : option (config * bool);
  exporter : option (Z * bytes);
  ignored : list signal;
  line_buffered : bool;
  g_eventfd : Z;
  bound_to : option (Z * Z);
  ring_entries : option Z;
  dir : directory;
  serving : option server;
  watchdog_runs : bool;
  workers : list Peer;
  published_peers : registry
}.

(** The process as [main] finds it: nothing is set up. *)
Definition new_process (mask : Z) (files : directory) : process :=
  Process mask default_config None false None None [] false (-1) None None files None false [] [].

Definition upd_umask (v : Z) (p : process) : process :=
  Process v (the_cfg p) (fd_limit p) (g_tls p) (net_init p) (exporter p) (ignored p) (line_buffered p)
    (g_eventfd p) (bound_to p) (ring_entries p) (dir p) (serving p) (watchdog_runs p) (workers p) (published_peers p).
Definition upd_cfg (f : config → config) (p : process) : process :=
  Process (umask_ p) (f (the_cfg p)) (fd_limit p) (g_tls p) (net_init p) (exporter p) (ignored p) (line_buffered p)
    (g_eventfd p) (bound_to p) (ring_entries p) (dir p) (serving p) (watchdog_runs p) (workers p) (published_peers p).
Definition upd_limit (v : option limits) (p : process) : process :=
  Process (umask_ p) (the_cfg p) v (g_tls p) (net_init p) (exporter p) (ignored p) (line_buffered p)
    (g_eventfd p) (bound_to p) (ring_entries p) (dir p) (serving p) (watchdog_runs p) (workers p) (published_peers p).
Definition upd_tls (v : bool) (p : process) : process :=
  Process (umask_ p) (the_cfg p) (fd_limit p) v (net_init p) (exporter p) (ignored p) (line_buffered p)
    (g_eventfd p) (bound_to p) (ring_entries p) (dir p) (serving p) (watchdog_runs p) (workers p) (published_peers p).
Definition upd_net (v : config * bool) (p : process) : process :=
  Process (umask_ p) (the_cfg p) (fd_limit p) (g_tls p) (Some v) (exporter p) (ignored p) (line_buffered p)
    (g_eventfd p) (bound_to p) (ring_entries p) (dir p) (serving p) (watchdog_runs p) (workers p) (published_peers p).
Definition upd_exporter (v : Z * bytes) (p : process) : process :=
  Process (umask_ p) (the_cfg p) (fd_limit p) (g_tls p) (net_init p) (Some v) (ignored p) (line_buffered p)
    (g_eventfd p) (bound_to p) (ring_entries p) (dir p) (serving p) (watchdog_runs p) (workers p) (published_peers p).
Definition ignore (s : signal) (p : process) : process :=
  Process (umask_ p) (the_cfg p) (fd_limit p) (g_tls p) (net_init p) (exporter p) (s :: ignored p) (line_buffered p)
    (g_eventfd p) (bound_to p) (ring_entries p) (dir p) (serving p) (watchdog_runs p) (workers p) (published_peers p).
Definition upd_buffered (p : process) : process :=
  Process (umask_ p) (the_cfg p) (fd_limit p) (g_tls p) (net_init p) (exporter p) (ignored p) true
    (g_eventfd p) (bound_to p) (ring_entries p) (dir p) (serving p) (watchdog_runs p) (workers p) (published_peers p).
Definition upd_eventfd (v : Z) (p : process) : process :=
  Process (umask_ p) (the_cfg p) (fd_limit p) (g_tls p) (net_init p) (exporter p) (ignored p) (line_buffered p)
    v (bound_to p) (ring_entries p) (dir p) (serving p) (watchdog_runs p) (workers p) (published_peers p).
Definition upd_bound (v : Z * Z) (p : process) : process :=
  Process (umask_ p) (the_cfg p) (fd_limit p) (g_tls p) (net_init p) (exporter p) (ignored p) (line_buffered p)
    (g_eventfd p) (Some v) (ring_entries p) (dir p) (serving p) (watchdog_runs p) (workers p) (published_peers p).
Definition upd_ring (v : Z) (p : process) : process :=
  Process (umask_ p) (the_cfg p) (fd_limit p) (g_tls p) (net_init p) (exporter p) (ignored p) (line_buffered p)
    (g_eventfd p) (bound_to p) (Some v) (dir p) (serving p) (watchdog_runs p) (workers p) (published_peers p).
Definition upd_serving (v : directory) (s : server) (p : process) : process :=
  Process (umask_ p) (the_cfg p) (fd_limit p) (g_tls p) (net_init p) (exporter p) (ignored p) (line_buffered p)
    (g_eventfd p) (bound_to p) (ring_entries p) v (Some s) (watchdog_runs p) (workers p) (published_peers p).
Definition upd_threads (ws : list Peer) (r : registry) (p : process) : process :=
  Process (umask_ p) (the_cfg p) (fd_limit p) (g_tls p) (net_init p) (exporter p) (ignored p) (line_buffered p)
    (g_eventfd p) (bound_to p) (ring_entries p) (dir p) (serving p) true ws r.

End process.

Definition with_maxclients (n : Z) (c : config) : config :=
  Config (port c) (bind_addr c) (password c) n (max_client_buffers c) (tls_cert c) (tls_key c) (metrics_on c)
    (metrics_bind c) (trace_fd c) (cfg_node_id c) (peers c) (cfg_max_rooms c) (cfg_max_clock_offset_ms c)
    (cfg_clock_offset_ms c) (cfg_max_keys c) (cfg_maxmemory c) (aof_sync c) (aof_rewrite_min_bytes c)
    (aof_sync_interval_ms c) (aof_sync_delay_ms c) (snapshot_delay_ms c).

(** The world of a server that runs with the configuration [c]. *)
Definition running_as (W : World) (c : config) : World :=
  {| cfg := c; wall := wall; script := script; script_long := script_long; succeeds := succeeds;
     traverse := @traverse W; traverse_perm := @traverse_perm W; draw := @draw W; draw_in := @draw_in W;
     sizeof_record := sizeof_record; sizeof_string := sizeof_string; sizeof_pointer := sizeof_pointer;
     sizeof_pos := sizeof_pos |}.

Definition URING_ENTRIES : Z := 4096.
Definition METRICS_PORT : Z := 9090.

(** [Replicator::start] publishes every peer before its worker runs. *)
Definition start_replicator (ws : list Peer) : registry := foldl (λ r w, publish w r) [] ws.

Section boot.
  Context `{HOST : Host, WW : World, SSL : OpenSsl, SOCK : Sockets}.

(** A check: [false] ends [main] with status 1. *)
Definition and_then (check rest : M process bool) : M process bool :=
  let* ok := check in if ok then rest else ret false.

Local Notation "m ;? k" := (and_then m k) (at level 60, right associativity).

Definition configure : M process bool :=
  modify (upd_umask 63) ;;
  match load_config inet_pton getenv with
  | None => ret false
  | Some loaded => modify (upd_cfg (λ _, loaded)) ;; ret true
  end.

(** [fit_fd_limit], with its effects on the limit and on the configuration. *)
Definition fit : M process bool :=
  let* c := gets the_cfg in
  modify (upd_limit ((λ lim, limit_after c lim raise) <$> nofile)) ;;
  match fit_fd_limit c nofile raise with
  | None => ret false
  | Some n => modify (upd_cfg (with_maxclients n)) ;; ret true
  end.

Definition load_tls : M process bool :=
  let* c := gets the_cfg in
  match tls_cert c, tls_key c with
  | None, None => ret true
  | cert, key =>
      modify (upd_tls ssl_ctx_new) ;;
      ret match cert, key with
          | Some cert, Some key =>
              ssl_ctx_new && set_min_proto && use_certificate_chain_file cert && use_PrivateKey_file key
              && check_private_key cert key
          | _, _ => false
          end
  end.

(** [net::init], the exporter and the signals. *)
Definition init_net : M process bool :=
  let* c := gets the_cfg in
  let* tls := gets g_tls in
  modify (upd_net (c, tls)) ;;
  when (metrics_on c) (modify (upd_exporter (METRICS_PORT, metrics_bind c))) ;;
  modify (ignore SIGPIPE) ;;
  modify (ignore SIGXFSZ) ;;
  modify upd_buffered ;;
  ret true.

Definition create_eventfd : M process bool :=
  modify (upd_eventfd new_eventfd) ;;
  ret (negb (new_eventfd <? 0)).

(** The port is cut to 16 bits. *)
Definition bind_listener : M process bool :=
  let* c := gets the_cfg in
  let address := default 0 (inet_pton (bind_addr c)) in
  let sin_port := port c mod 2 ^ 16 in
  if bind_to address sin_port then modify (upd_bound (address, sin_port)) ;; ret true else ret false.

Definition init_ring : M process bool :=
  if io_uring_queue_init URING_ENTRIES then modify (upd_ring URING_ENTRIES) ;; ret true else ret false.

(** [db.emplace]: the constructor on the files of the directory; it truncates
    the cold file. *)
Definition open_database (c : config) (d : directory) : db :=
  (start_database (H := running_as WW c) (init_db (init_shared (log_file d) (snapshot_files d)))).2.

Definition files_of (d : db) : directory :=
  Directory (aof_file (aof (db_sh d))) (snaps (db_sh d)) (cold_file (cold (db_sh d))).

(** The data, the listener, the first entries of the ring. *)
Definition open_data : M process bool :=
  let* c := gets the_cfg in
  let* files := gets dir in
  let d := open_database c files in
  modify (upd_serving (files_of d) (start d)) ;;
  ret true.

(** [Watchdog::start] and [Replicator::start]: every peer is published, then
    its worker runs. *)
Definition start_threads : M process bool :=
  let* c := gets the_cfg in
  let ws := all_peers (H := running_as WW c) saved_offset in
  modify (upd_threads ws (start_replicator ws)) ;;
  ret true.

Definition main : M process bool :=
  configure ;? fit ;? load_tls ;? init_net ;? create_eventfd ;? bind_listener ;? init_ring
  ;? open_data ;? start_threads.

(** ** The stages *)

(** The certificate and its key can be used. *)
Definition tls_usable (c : config) : bool :=
  match tls_cert c, tls_key c with
  | None, None => true
  | Some cert, Some key =>
      ssl_ctx_new && set_min_proto && use_certificate_chain_file cert && use_PrivateKey_file key
      && check_private_key cert key
  | _, _ => false
  end.

Definition wants_tls (c : config) : bool := bool_decide (is_Some (tls_cert c) ∨ is_Some (tls_key c)).

(** Every check of [main] passes: with the configuration [c] of the
    environment, room for [n] clients and the address [a]. *)
Record can_start (c : config) (n a : Z) : Prop := {
  cs_config : load_config inet_pton getenv = Some c;
  cs_limit : fit_fd_limit c nofile raise = Some n;
  cs_tls : tls_usable c = true;
  cs_eventfd : 0 <= new_eventfd;
  cs_address : inet_pton (bind_addr c) = Some a;
  cs_bind : bind_to a (port c mod 2 ^ 16) = true;
  cs_ring : io_uring_queue_init URING_ENTRIES = true
}.

Lemma and_then_eq (m k : M process bool) p :
  and_then m k p = if (m p).1 then k (m p).2 else (false, (m p).2).
Proof. unfold and_then, bind. destruct (m p) as [[] p']; done. Qed.

(** The process before the listener is bound. *)
Definition unbound (c : config) (n : Z) (files : directory) : process :=
  let c' := with_maxclients n c in
  Process 63 c' ((λ lim, limit_after c lim raise) <$> nofile) (wants_tls c) (Some (c', wants_tls c))
    (if metrics_on c then Some (METRICS_PORT, metrics_bind c) else None) [SIGXFSZ; SIGPIPE] true
    new_eventfd None None files None false [] [].

(** The process after the checks of [can_start]. *)
Definition checked (c : config) (n a : Z) (files : directory) : process :=
  upd_ring URING_ENTRIES (upd_bound (a, port c mod 2 ^ 16) (unbound c n files)).

(** What [main] ends with. *)
Definition started (c : config) (n a : Z) (files : directory) : process :=
  let c' := with_maxclients n c in
  let d := open_database c' files in
  let ws := all_peers (H := running_as WW c') saved_offset in
  upd_threads ws (start_replicator ws)
    (upd_serving (files_of d) (start d) (checked c n a files)).

(** The data are as they were, and nothing serves them. *)
Definition untouched (files : directory) (p : process) : Prop :=
  dir p = files ∧ serving p = None ∧ watchdog_runs p = false ∧ workers p = [] ∧ published_peers p = [].

Lemma load_tls_eq p : load_tls p = (tls_usable (the_cfg p), if wants_tls (the_cfg p) then upd_tls ssl_ctx_new p else p).
Proof.
  unfold load_tls, tls_usable, wants_tls, bind, gets, modify, ret.
  by destruct (tls_cert (the_cfg p)), (tls_key (the_cfg p)).
Qed.

Lemma tls_context c : tls_usable c = true → wants_tls c = true → ssl_ctx_new = true.
Proof.
  unfold tls_usable, wants_tls. destruct (tls_cert c), (tls_key c); try done.
  by destruct ssl_ctx_new.
Qed.

Lemma load_config_address c : load_config inet_pton getenv = Some c → is_Some (inet_pton (bind_addr c)).
Proof.
  unfold load_config. intros H. repeat (apply bind_Some in H as (? & ? & H)).
  destruct (_ && _); [done|]. injection H as <-. cbn. eauto.
Qed.

Lemma init_net_eq p :
  init_net p = (true, upd_buffered (ignore SIGXFSZ (ignore SIGPIPE
    (if metrics_on (the_cfg p) then upd_exporter (METRICS_PORT, metrics_bind (the_cfg p)) (upd_net (the_cfg p, g_tls p) p)
     else upd_net (the_cfg p, g_tls p) p)))).
Proof. unfold init_net, bind, gets, modify, when, ret. by destruct (metrics_on (the_cfg p)). Qed.

Lemma listening c n files p :
  load_config inet_pton getenv = Some c → fit_fd_limit c nofile raise = Some n → tls_usable c = true →
  0 <= new_eventfd → p = unbound c n files →
  let r := (bind_listener ;? init_ring ;? open_data ;? start_threads) p in
  (∃ c n a, can_start c n a ∧ r = (true, started c n a files))
  ∨ ((∀ c n a, ¬ can_start c n a) ∧ r.1 = false ∧ untouched files r.2).
Proof.
  intros Hc Hn Ht He -> r. unfold r. clear r. rewrite and_then_eq. unfold bind_listener, bind, gets, modify.
  destruct (load_config_address c Hc) as [a Ha].
  cbn [the_cfg unbound]. change (bind_addr (with_maxclients n c)) with (bind_addr c).
  change (port (with_maxclients n c)) with (port c). rewrite Ha. cbn [default from_option id].
  destruct (bind_to a (port c mod 2 ^ 16)) eqn:Hb.
  2: { right. split; [|done]. intros c' n' a' H. destruct H. congruence. }
  cbn [fst snd ret]. rewrite and_then_eq. unfold init_ring.
  destruct (io_uring_queue_init URING_ENTRIES) eqn:Hr.
  2: { right. split; [|done]. intros c' n' a' H. destruct H. congruence. }
  left. exists c, n, a. split; [by split|]. done.
Qed.

(** [main] succeeds exactly when every check passes, and it opens the data only
    then. *)
Lemma main_spec mask files :
  let r := main (new_process mask files) in
  (∃ c n a, can_start c n a ∧ r = (true, started c n a files))
  ∨ ((∀ c n a, ¬ can_start c n a) ∧ r.1 = false ∧ untouched files r.2).
Proof.
  cbv zeta. unfold main. rewrite and_then_eq. unfold configure, bind, modify.
  destruct (load_config inet_pton getenv) as [c|] eqn:Hc.
  2: { right. split; [|done]. intros c n a H. destruct H. congruence. }
  cbn [fst snd ret]. rewrite and_then_eq. unfold fit, bind, gets, modify.
  cbn [the_cfg upd_cfg upd_umask upd_limit new_process].
  destruct (fit_fd_limit c nofile raise) as [n|] eqn:Hn.
  2: { right. split; [|done]. intros c' n a H. destruct H. congruence. }
  cbn [fst snd ret]. rewrite and_then_eq, load_tls_eq. cbn [fst snd the_cfg upd_cfg upd_limit upd_umask new_process].
  change (tls_usable (with_maxclients n c)) with (tls_usable c).
  change (wants_tls (with_maxclients n c)) with (wants_tls c).
  destruct (tls_usable c) eqn:Htls.
  2: { right. split; [|by destruct (wants_tls c)]. intros c' n' a H. destruct H. congruence. }
  pose proof (tls_context c Htls) as Hctx.
  set (p3 := if wants_tls c then _ else _).
  assert (Ep : p3 = Process 63 (with_maxclients n c) ((λ lim, limit_after c lim raise) <$> nofile) (wants_tls c)
    None None [] false (-1) None None files None false [] []).
  { unfold p3. destruct (wants_tls c) eqn:Hw; [by rewrite Hctx|done]. }
  rewrite Ep. clear p3 Ep. rewrite and_then_eq, init_net_eq. cbn [fst snd the_cfg g_tls]. rewrite and_then_eq.
  change (metrics_on (with_maxclients n c)) with (metrics_on c).
  unfold create_eventfd, bind, modify, ret. cbn [fst snd].
  destruct (Z.ltb_spec new_eventfd 0) as [He|He]; cbn [negb].
  { right. split; [|by destruct (metrics_on c)]. intros c' n' a H. destruct H. lia. }
  apply (listening c n); try done. unfold unbound. by destruct (metrics_on c).
Qed.

(** The configuration the server runs with is valid. *)
Lemma started_config c n a : can_start c n a → valid_config (with_maxclients n c).
Proof.
  intros [Hc Hn _ _ _ _ _]. destruct (load_config_ok _ _ _ Hc) as [[V1 V2 V3 V4 V5 V6 V7 V8 V9 V10 V11 V12 V13 V14] _].
  assert (H : 0 < n <= maxclients c).
  { destruct nofile as [lim|]; [|injection Hn as <-; lia]. by apply fd_limit_fits in Hn as [??]; [|lia]. }
  split; cbn; try done. lia.
Qed.

Lemma can_start_unique c n a c' n' a' : can_start c n a → can_start c' n' a' → c' = c ∧ n' = n ∧ a' = a.
Proof. intros [] []. by simplify_eq. Qed.

Lemma main_started mask files :
  (main (new_process mask files)).1 = true →
  ∃ c n a, can_start c n a ∧ (main (new_process mask files)).2 = started c n a files.
Proof.
  intros Hok. destruct (main_spec mask files) as [(c & n & a & Hs & E)|(_ & Hf & _)]; [|congruence].
  exists c, n, a. by rewrite E.
Qed.

(** *** The running server *)

Section running.
  Context (walk_channels : gset bytes → list bytes) (walk_fds : gset Z → list Z) (gauge : nat → gauges).
  Context (walk_clients : nat → gmap Z nat → list nat) (Hwalk : ∀ k m, walk_clients k m ≡ₚ (map_to_list m).*2).

Lemma start_db d : the_db (start d) = d.
Proof.
  assert (Hw : wp (arm_listener ;; arm_eventfd) (λ _ s', the_db s' = d) (empty_server d)); [|exact Hw].
  wp_run. apply arm_listener_spec. intros s1 (_ & _ & _ & _ & _ & _ & E1) _ _ _. apply arm_eventfd_spec.
  intros s2 (_ & _ & _ & _ & _ & _ & E2) _ _ _ _. by rewrite E2, E1.
Qed.

(** The clients of a running server and the server's own files fit the limit. *)
Lemma descriptors_fit c n a k lim :
  can_start c n a → (λ l, limit_after c l raise) <$> nofile = Some lim → k <= n → k <= 2 ^ 30 →
  k + reserved c <= rlim_cur lim.
Proof.
  intros Hcan (l & Hl & ->)%fmap_Some Hk Hk'. pose proof (started_config _ _ _ Hcan) as Hv.
  destruct Hcan as [Hc Hn _ _ _ _ _]. destruct (load_config_ok _ _ _ Hc) as [[] _]. rewrite Hl in Hn.
  apply fd_limit_fits in Hn as [_ Hfit]; lia.
Qed.

(** The database at the start, and at any state of the loop. *)
Lemma restored c recs tail_ sn cold0 :
  let W := running_as WW c in
  let d := open_database c (Directory (Some (log_bytes recs ++ tail_)) sn cold0) in
  Forall valid_record recs → cut_of tail_ → succeeds (World := WW) 0 = true →
  @db_ok W d ∧ clients_ok d
  ∧ ∀ name, @replayed_log W recs name (init_db (init_shared (Some (log_bytes recs ++ tail_)) sn)) d.
Proof.
  intros W d Hv Hcut Hop. destruct (start_database_spec (H := W) recs tail_ sn Hv Hcut Hop) as (Hcr & Hok & Hlog & _).
  split; [done|]. split; [|done]. intros fd name. unfold d, open_database. cbn [log_file snapshot_files].
  change (running_as WW c) with W. rewrite (fs_clients _ _ Hcr). by rewrite lookup_empty.
Qed.

Lemma runs c tls max d s :
  let W := running_as WW c in
  let run := run_events (WW := W) walk_channels walk_fds gauge d in
  reads_ok → @sane_clock W → valid_config c → @db_ok W d → clients_ok d →
  rtc (loop_step (WW := W) tls max walk_channels walk_fds gauge walk_clients) (start d) s →
  (0 <= max → Z.of_nat (size (clients s)) <= max)
  ∧ g_client_buffers (net s) = wrap64 (map_sum held (heap s))
  ∧ ∃ es, the_db s = run es ∧ Forall (allowed s) es
      ∧ ((∀ k, addressable_db (run (take k es))) →
         @db_ok W (the_db s) ∧ active_rooms (the_db s) <= Z.max (active_rooms d) MAX_ACTIVE_ROOMS
         ∧ registered (the_db s) <= Z.max (registered d) (cfg_max_rooms c)).
Proof.
  intros W run Hreads Hsane Hvc Hok Hcl Hs.
  destruct (reached_all (WW := W) tls max walk_channels walk_fds gauge walk_clients Hwalk d s
    ltac:(apply (vc_buffers _ Hvc)) Hs) as [I _ _ Hm (es & Hd & Hp & Ha)].
  split; [done|]. split; [apply I|]. exists es. split; [done|]. split; [done|]. intros Hadr.
  pose proof (vc_node _ Hvc) as Hnode.
  destruct (steps_serve (H := W) Hreads Hsane ltac:(change (is_u32 (cfg_node_id c)); ulia)
    walk_channels walk_fds gauge d (the_db s) Hok Hcl) as (H1 & _ & H3 & H4 & _); [|done].
  rewrite Hd. by apply (run_steps (H := W)).
Qed.

End running.

End boot.

(** ** Properties *)

(** C9: A start that cannot serve touches no data. [main] goes on exactly when
    the configuration is accepted, the descriptors suffice, the certificate and
    its key can be used and the eventfd, the port and the ring are obtained; in
    every other case it ends with the log, the snapshots and the cold file as
    they were (another server may be running on them) and with nothing that
    serves or maintains them. When it goes on, it serves the address of the
    configuration (its port cut to 16 bits), outside the loopback network only
    with a password, and what it serves is the database built from the files. *)
Theorem start_checks_first `{HOST : Host, WW : World, SSL : OpenSsl, SOCK : Sockets} mask files :
  let '(ok, p) := main (new_process mask files) in
  (ok = true ↔ ∃ c n a, can_start c n a)
  ∧ (ok = false → untouched files p)
  ∧ (∀ c n a, can_start c n a →
       the_cfg p = with_maxclients n c ∧ valid_config (the_cfg p)
       ∧ bound_to p = Some (a, port c mod 2 ^ 16) ∧ (Z.shiftr a 24 = 127 ∨ password c ≠ [])
       ∧ net_init p = Some (the_cfg p, g_tls p) ∧ (g_tls p = true ↔ is_Some (tls_cert c) ∧ is_Some (tls_key c))
       ∧ SIGPIPE ∈ ignored p ∧ SIGXFSZ ∈ ignored p ∧ umask_ p = 63
       ∧ (let d := open_database (the_cfg p) files in serving p = Some (start d) ∧ dir p = files_of d)
       ∧ length (workers p) = length (peers c)).
Proof.
  pose proof (main_spec mask files) as Hm. cbv zeta in Hm. destruct (main (new_process mask files)) as [ok p].
  cbn [fst snd] in Hm. destruct Hm as [(c & n & a & Hs & E)|(Hno & -> & Hu)].
  - injection E as -> ->. split_and!; [|done|].
    + split; [|done]. intros _. by exists c, n, a.
    + intros c' n' a' Hs'. destruct (can_start_unique _ _ _ _ _ _ Hs Hs') as (-> & -> & ->).
      destruct (load_config_ok _ _ _ (cs_config _ _ _ Hs)) as (_ & a2 & Ha2 & Hpw).
      assert (a2 = a) as -> by (destruct Hs; congruence).
      split_and!; try done; [by eapply started_config|..].
      * change (wants_tls c = true ↔ is_Some (tls_cert c) ∧ is_Some (tls_key c)). pose proof (cs_tls _ _ _ Hs) as Ht.
        unfold wants_tls, tls_usable in *. rewrite bool_decide_eq_true.
        destruct (tls_cert c), (tls_key c); try done; split; intros; eauto; by destruct_and?; destruct_or?.
      * cbn. set_solver.
      * cbn. set_solver.
      * cbn. unfold all_peers. by rewrite length_map.
  - split_and!; [|done|]; [split; [done|]; by intros (c & n & a & Hs); destruct (Hno c n a)|].
    intros c n a Hs. by destruct (Hno c n a).
Qed.

(** A machine on which the server starts with its defaults, with room for a
    thousand descriptors. *)
Definition sample_host : Host := {|
  getenv := λ _, None;
  inet_pton := λ text, if decide (text = str "127.0.0.1") then Some 2130706433 else None;
  nofile := Some (Limits 1024 4096);
  raise := λ _, true;
  ssl_ctx_new := true;
  set_min_proto := true;
  use_certificate_chain_file := λ _, true;
  use_PrivateKey_file := λ _, true;
  check_private_key := λ _ _, true;
  new_eventfd := 3;
  bind_to := λ _ _, true;
  io_uring_queue_init := λ _, true;
  saved_offset := λ _ _, None
|}.

Lemma sample_starts : can_start (HOST := sample_host) default_config 4064 2130706433.
Proof. split; by vm_compute. Qed.

(** There, with a directory [files]. *)
Definition sample_world : World := calm default_config (2 ^ 32).

Definition sample_process (files : directory) : process (SSL := no_ssl) :=
  (main (HOST := sample_host) (WW := sample_world) (SSL := no_ssl) (SOCK := calm_ping) (new_process 18 files)).2.

Definition sample_running : config := with_maxclients 4064 default_config.

Lemma sample_main files :
  main (HOST := sample_host) (WW := sample_world) (SSL := no_ssl) (SOCK := calm_ping) (new_process 18 files)
  = (true, started (HOST := sample_host) (WW := sample_world) (SSL := no_ssl) (SOCK := calm_ping)
    default_config 4064 2130706433 files).
Proof.
  destruct (main_spec (HOST := sample_host) (WW := sample_world) (SSL := no_ssl) (SOCK := calm_ping) 18 files)
    as [(c & n & a & Hcan & E)|(Hno & _)]; [|by destruct (Hno _ _ _ sample_starts)].
  destruct (can_start_unique (HOST := sample_host) _ _ _ _ _ _ sample_starts Hcan) as (-> & -> & ->).
  exact E.
Qed.

(** A connection is accepted. *)
Lemma sample_connection d :
  let W := running_as sample_world sample_running in
  rtc (loop_step (WW := W) (SSL := no_ssl) (SOCK := calm_ping) false 4064 elements elements no_gauges in_order)
    (start (SSL := no_ssl) (SOCK := calm_ping) d)
    (on_accept (SSL := no_ssl) (SOCK := calm_ping) false 4064 (Accepted 5) (start (SSL := no_ssl) (SOCK := calm_ping) d)).2.
Proof.
  intros W. apply rtc_once, (Loop_accept (WW := W)); [cbn; lia|]. by intros res [= <-].
Qed.

Lemma start_checks_first_witness :
  let p := sample_process (Directory None ∅ []) in
  bound_to p = Some (2130706433, 6379) ∧ maxclients (the_cfg p) = 4064.
Proof.
  pose proof (start_checks_first (HOST := sample_host) (WW := sample_world) (SSL := no_ssl) (SOCK := calm_ping)
    18 (Directory None ∅ [])) as Ht.
  unfold sample_process. destruct (main (new_process 18 (Directory None ∅ []))) as [ok q].
  destruct Ht as (_ & _ & Ht). destruct (Ht _ _ _ sample_starts) as (E & _ & B & _). cbn [snd]. by rewrite E.
Defined.

(** C3: The whole program, from [main] to any state of the event loop. Started
    on a log of valid records, possibly cut in a last one, it serves rooms that
    hold exactly what the log makes of them; the clients never exceed the number
    that fits the descriptors, so that with the server's own they stay within
    the limit in force; their buffers' total is the counter the budget is
    compared with; and the database is what commands of authenticated clients,
    ends of connections and the watchdog made of the restored one, in the
    invariant of the server as long as memory is addressable. *)
Theorem started_server_serves `{HOST : Host, WW : World, SSL : OpenSsl, SOCK : Sockets}
    recs tail_ sn cold0 mask walk_channels walk_fds gauge walk_clients p s0 s :
  let W := running_as WW (the_cfg p) in
  let run := run_events (WW := W) walk_channels walk_fds gauge in
  main (WW := WW) (new_process mask (Directory (Some (log_bytes recs ++ tail_)) sn cold0)) = (true, p) →
  Forall valid_record recs → cut_of tail_ → succeeds 0 = true → reads_ok → @sane_clock W →
  (∀ k m, walk_clients k m ≡ₚ (map_to_list m).*2) → serving p = Some s0 →
  rtc (loop_step (WW := W) (g_tls p) (maxclients (the_cfg p)) walk_channels walk_fds gauge walk_clients) s0 s →
  (∀ name, @replayed_log W recs name (init_db (init_shared (Some (log_bytes recs ++ tail_)) sn)) (the_db s0))
  ∧ Z.of_nat (size (clients s)) <= maxclients (the_cfg p)
  ∧ (∀ lim, fd_limit p = Some lim → Z.of_nat (size (clients s)) <= 2 ^ 30 →
       Z.of_nat (size (clients s)) + reserved (the_cfg p) <= rlim_cur lim)
  ∧ g_client_buffers (net s) = wrap64 (map_sum held (heap s))
  ∧ ∃ es, the_db s = run (the_db s0) es ∧ Forall (allowed s) es
      ∧ ((∀ k, addressable_db (run (the_db s0) (take k es))) →
         @db_ok W (the_db s) ∧ active_rooms (the_db s) <= Z.max (active_rooms (the_db s0)) MAX_ACTIVE_ROOMS
         ∧ registered (the_db s) <= Z.max (registered (the_db s0)) (cfg_max_rooms (the_cfg p))).
Proof.
  intros W run Hmain Hv Hcut Hop Hreads Hsane Hwalk Hs0 Hs.
  set (files := Directory (Some (log_bytes recs ++ tail_)) sn cold0) in *.
  destruct (main_started (WW := WW) mask files ltac:(by rewrite Hmain)) as (c & n & a & Hcan & Ep).
  rewrite Hmain in Ep. cbn [snd] in Ep. subst p.
  pose proof (started_config _ _ _ Hcan) as Hvc.
  change (the_cfg (started c n a files)) with (with_maxclients n c) in *.
  assert (E0 : s0 = start (open_database (WW := WW) (with_maxclients n c) files)).
  { apply (inj Some). rewrite <- Hs0. reflexivity. }
  subst s0. rewrite start_db in *.
  destruct (restored (WW := WW) (with_maxclients n c) recs tail_ sn cold0 Hv Hcut Hop) as (Hok & Hcl & Hlog).
  destruct (runs (WW := WW) walk_channels walk_fds gauge walk_clients Hwalk (with_maxclients n c) _ _ _ s
    Hreads Hsane Hvc Hok Hcl Hs) as (Hm & Hg & Hes).
  pose proof (vc_maxclients _ Hvc) as Hpos. specialize (Hm ltac:(lia)).
  split_and!; try done. intros lim Hlim Hk. by apply (descriptors_fit c n a _ lim).
Qed.

Lemma started_server_serves_witness :
  let recs := [AofRecord_ (str "r") [str "set"; str "k"; str "v"] 0 (2 ^ 50) 7] in
  let p := sample_process (Directory (Some (log_bytes recs ++ [])) ∅ []) in
  ∃ s0 (s : server (SSL := no_ssl)), serving p = Some s0 ∧ Z.of_nat (size (clients s)) + 32 <= 4096.
Proof.
  intros recs p.
  assert (Hv : Forall valid_record recs).
  { constructor; [|constructor]. split; [by vm_compute| |vm_compute; split; discriminate..].
    repeat constructor; by vm_compute. }
  set (files := Directory (Some (log_bytes recs ++ [])) ∅ []) in *.
  pose proof (sample_main files) as Hmain.
  assert (Ep : p = (started (HOST := sample_host) (WW := sample_world) (SSL := no_ssl) (SOCK := calm_ping)
    default_config 4064 2130706433 files)) by (unfold p, sample_process; by rewrite Hmain).
  rewrite <- Ep in Hmain. clearbody p.
  set (d := open_database (WW := sample_world) sample_running files).
  assert (Hs0 : serving p = Some (start (SSL := no_ssl) (SOCK := calm_ping) d)) by (by rewrite Ep).
  assert (Hc : the_cfg p = sample_running) by (by rewrite Ep).
  assert (Ht : g_tls p = false) by (by rewrite Ep).
  assert (Hl : fd_limit p = Some (Limits 4096 4096)) by (by rewrite Ep).
  pose proof (sample_connection d) as Hs. cbv zeta in Hs.
  set (s := (on_accept _ _ _ _).2) in Hs.
  pose proof (started_server_serves (HOST := sample_host) (WW := sample_world) (SSL := no_ssl) (SOCK := calm_ping)
    recs [] ∅ [] 18 elements elements no_gauges in_order p (start (SOCK := calm_ping) d) s Hmain Hv cut_of_nil eq_refl
    (calm_reads_ok default_config (2 ^ 32))) as Hx.
  rewrite Hc, Ht in Hx.
  destruct (Hx ltac:(intros k; split; vm_compute; done || discriminate) sample_walk Hs0 Hs) as (_ & Hm & Hf & _).
  exists (start (SOCK := calm_ping) d), s. split; [done|]. change (maxclients sample_running) with 4064 in Hm.
  apply (Hf _ Hl). lia.
Defined.
